(* ===== verification/_CoqProject ===== *)
-Q . S2P
Prelude.v
Names.v
Vir.v
VirMake.v
VirProgram.v
VirSem.v
VirInt.v
VirReify.v
TyDomain.v
TyData.v
Primitive.v
TyRust.v
BinOpEnc.v
BinOpSound.v
UnOpCast.v
TyUse.v
TyPure.v
TyImpure.v
TyHeap.v
TySpec.v
TyMemory.v
TyEnum.v
TyExample.v
TyCast.v
TyCastSound.v
TyCastExample.v
SpecTyped.v
SpecCollect.v
SpecQuery.v
SmtParser.v
SmtState.v
SmtLog.v
SmtSound.v
SmtCount.v
SmtBounds.v
SmtLines.v
TaskCache.v
TaskSound.v
TaskSolve.v
PreTokens.v
PreParse.v
PreSound.v
PreExpr.v
PreMeaning.v
FlowEngine.v
FlowFix.v
FlowTerm.v
Mir.v
FlowReaching.v
FlowAllocated.v
FlowPlaces.v
FlowPlaceSets.v
FlowInit.v
FlowInitSound.v
FlowInitRun.v
FlowAccess.v
FlowAccessSound.v
PureMir.v
PureEnc.v
PureSem.v
PureRead.v
PureSim.v
PureCfg.v
PureBranch.v
PureDom.v
PureSound.v
PureExample.v
PureCorrect.v
ViperAst.v
ViperLower.v
ViperSem.v
ViperRun.v
ViperCfg.v
ViperBlocks.v
ViperGraph.v
ViperTyped.v
ViperWell.v
ViperTotal.v
ViperExample.v
ViperCorrect.v
