(* ===== verification/Prelude.v ===== *)
(** * A verification library for Prusti

    Prusti verifies Rust programs: procedural macros turn specifications into
    attributes and generated functions, the compiler interface collects them
    into typed contracts, encoders translate procedures, types and operators
    into VIR, an intermediate representation of Viper programs, the VIR program
    is lowered to Viper, and a tool analyses the log of the SMT solver behind
    Viper. This library models parts of that pipeline as pure functions, with
    the errors and panics of the code as values, and proves what they are for.

    ** Files and the code they model

    - [Prelude]: outcomes of Rust computations ([Ok], [Err] and [Panic]), the
      monad over them, list lemmas and shared tactics.
    - [Vir], [VirMake], [VirInt]: the data types of [vir/src/data.rs] and
      [gendata.rs], the builders of [vir/src/make.rs] with the debug check of
      local bindings, and its machine-integer helpers. Expressions are an
      inductive type; the arena in which the code allocates them is not
      modelled, nodes are compared by structure.
    - [VirSem]: what the fragment of VIR built by the encoders evaluates to,
      over an interface [ViperModel] of a carrier of domain values and an
      interpretation of domain functions; operators follow the lowering in
      [prusti-viper/src/lib.rs].
    - [Names]: decimal numbers and other pieces of generated names.
    - [TyDomain], [Primitive]: the builder of domains, the domains of floats and
      bit vectors and the snapshots of primitive types
      ([prusti-encoder/src/encoders/ty]: [pure.rs], [interpretation],
      [kinds/primitive.rs]), and an interface [IntSnapshots] that the axioms
      give to the operator encoders.
    - [TyData], [TyRust]: types by their kind with the data of an encoder
      ([ty/data.rs]), types of the compiler ([ty/rust_ty.rs]), their generic
      parameters ([ty/generics/params.rs]) and identifiers of Viper
      ([vir/src/viper_ident.rs]).
    - [TyPure], [TyImpure]: the encoders of types ([ty/pure.rs], [ty/impure.rs]
      and every file of [ty/kinds]): snapshots with their constructors and
      discriminant functions; predicates, snapshot functions and methods, and
      the uses of predicates ([ty/use_impure.rs]).
    - [TyHeap]: what predicates and functions of a VIR program mean on a
      heap, footprints of assertions included, and the rules of this meaning.
    - [TySpec]: what the encoders of types build, in closed form.
    - [TyMemory], [TyEnum], [TyExample]: the memory and the
      snapshots of structures and enums, and a program with one of each.
    - [TyCast], [TyCastSound], [TyCastExample]: types as values
      ([ty/lifted/ty_constructor.rs], [typeof.rs]), the functions and methods that
      cast between concrete and generic types ([ty/generics/casters.rs],
      [use_casters.rs]), the walk over a type that finds the casts of its parts
      with folding and unfolding ([ty/use_pure.rs], [ty/use_impure.rs]); what the
      contracts of the casts say, and a model in which they hold.
    - [BinOpEnc], [BinOpSound]: the encoder of binary operators
      ([builtin/bin_op.rs], function by function) and its soundness.
    - [UnOpCast]: unary operators and integer casts ([builtin/un_op.rs],
      [builtin/cast.rs]) and their soundness.
    - [SpecTyped]: contracts ([prusti-interface/src/specs/typed.rs]):
      specification items, refinement, the graph of type-conditional contracts,
      the contract map with its export and import.
    - [SpecCollect]: the collector that builds the map from the attributes of
      the visited items ([specs/mod.rs], [specs/external.rs], [utils.rs]).
    - [SpecQuery]: contracts as seen by a query, refined by the trait's, with the
      cache of refined contracts ([specs/specifications.rs]).
    - [PreTokens], [PreParse]: the preparser of assertions
      ([prusti-specs/src/specifications/preparser.rs]): lexing into Prusti tokens,
      the Pratt parser that translates to Rust, pledges and type-conditional
      refinements. Token streams are lists of token trees without spans.
    - [PreSound], [PreExpr], [PreMeaning]: the parser always answers; the
      expressions with their canonical trees; the meaning of the Rust code.
    - [SmtParser], [SmtState], [SmtLog]: the analyzer of SMT logs
      ([smt-log-analyzer/src/parser.rs], [state.rs], [lib.rs]).
    - [SmtSound], [SmtCount], [SmtBounds], [SmtLines]: invariants of its state,
      the reference counts on histories of events, the meaning of its bounds,
      and the lines of a log with their events.
    - [TaskCache], [TaskSound], [TaskSolve]: the framework in which the encoders
      run ([task-encoder/src]: [lib.rs], [cache.rs], [trigger.rs]) and the
      encoding of a crate ([prusti-encoder/src/lib.rs]): the cache of tasks with
      its states, cyclic requirements, triggers, outputs; a step relation that
      every run follows with its invariants; the equations that the encoders
      pose and the runs that solve them.
    - [FlowEngine], [FlowFix], [FlowTerm]: the dataflow engine of the analysis
      crate ([analysis/src/abstract_interpretation]: [fixpoint_engine.rs],
      [analysis/src/pointwise_state.rs], [analysis_error.rs]): the worklist
      with its counters, joins and widening; what a finished run has computed;
      the class [Monotone] of analyses for which it finishes.
    - [Mir]: the part of the compiler's intermediate representation that the
      analyses read, with its control-flow graph and a checker of well-formed
      bodies.
    - [FlowReaching], [FlowAllocated]: reaching definitions and allocated locals
      ([domains/reaching_definitions] and [domains/definitely_allocated]).
    - [FlowPlaces], [FlowPlaceSets]: places and sets of places
      ([analysis/src/mir_utils.rs], [domains/definitely_initialized/state.rs]).
    - [FlowInit], [FlowInitSound], [FlowInitRun]: definitely initialized places
      ([domains/definitely_initialized]), their meaning and the run.
    - [FlowAccess], [FlowAccessSound]: maybe-borrowed and definitely accessible
      places and framing ([domains/maybe_borrowed],
      [domains/definitely_accessible], [domains/framing]).
    - [VirReify], [TyUse]: reification of lazy expressions ([vir/src/reify.rs]),
      and the types of Rust as the encoders of code use them
      ([prusti-encoder/src/encoders/ty]: [use_pure.rs], [data.rs],
      [generics/use_casters.rs], [viper_tuple.rs]).
    - [PureMir], [PureEnc]: pure bodies and their encoder
      ([prusti-encoder/src/encoders]: [mir_pure.rs], [mir_shared.rs]): versions of
      locals, places, rvalues, calls and builtins, branches, the graph up to join
      points, the task with its reified output.
    - [PureSem], [PureRead], [PureSim], [PureCfg], [PureBranch], [PureDom],
      [PureSound]: names are distinct; a machine that runs pure bodies; reads,
      bindings, statements, branches, join points and whole bodies simulate it; the
      recursion ends.
    - [PureExample], [PureCorrect]: a function with the interfaces implemented, and
      the properties of the encoder as a whole.
    - [VirProgram]: methods, functions, domains, data types and programs of VIR
      ([vir/src/data.rs], [gendata.rs], [make.rs]), and the names of block labels.
    - [ViperAst]: Viper's syntax trees and the factory that builds them
      ([viper/src/ast_factory]: [ast_type.rs], [expression.rs], [statement.rs],
      [program.rs]).
    - [ViperLower]: the lowering of VIR programs to Viper
      ([prusti-viper/src/lib.rs], one definition per conversion).
    - [ViperSem], [ViperRun]: what Viper expressions evaluate to, and machines that
      run Viper bodies (labels and jumps) and VIR bodies (graphs of blocks).
    - [ViperCfg], [ViperBlocks], [ViperGraph]: statements, blocks and whole bodies
      are simulated by their lowering.
    - [ViperTyped], [ViperWell], [ViperTotal]: a checker of VIR expressions, Viper's
      types and type checks of what they are lowered to, and the checker of programs
      whose lowering does not panic.
    - [ViperExample], [ViperCorrect]: a program that is lowered, and the properties
      of the lowering as a whole.

    ** How the parts interact

    The operator encoders call the builders ([VirMake], [VirInt]) and the
    snapshot conversions ([Primitive]); their soundness is proved against the
    classes [ViperModel] and [IntSnapshots] and instantiated with a concrete
    model in the witnesses. The preparser turns assertions into the Rust code of
    the functions that the collector finds. The collector produces the map of [SpecTyped] graphs
    from which [SpecQuery] answers; a query threads the cache. Encoders are
    programs that call the operations of [TaskCache] with each other's tasks; in
    [TaskSolve] they are arbitrary programs that satisfy the class-like
    hypotheses of its section. The dataflow engine is proved against the class
    [Monotone] of analyses over an abstract state; reaching definitions,
    allocated locals and initialized places are its instances over [Mir]
    bodies, and accessible places and framing are derived from the
    initialized and the borrowed places of one location. The encoders of types
    produce the same tree, zipped ([TyData]); the impure one uses the constructors
    and the functions to fields of the pure one, and both take the compiler as the
    classes [RustcTypes] and [Decompose]; their predicates are read on the class
    [HeapModel]. A use of a type with generic arguments ([Normalize], [EncodeArgs])
    asks for the casters of every part whose type the arguments make concrete, and
    the expressions of [TyUse] apply them. The pure encoder asks the
    compiler ([Rustc]) and the other encoders ([PureDeps]); what the expressions of
    the latter mean is the class [PureMeaning], for tuples [TupleLaws], and the
    dominators of the compiler satisfy [idom_law]. What the encoders build is lowered to
    Viper; a pure function is followed from its Rust body to the value of its Viper
    function. The log analyzer is independent: a line is parsed ([SmtParser]), interpreted ([SmtLog]) as an
    operation on the state ([SmtState]).

    ** What the theorems show

    - Operators: for every integer type and every operator the encoded Viper
      function has exactly the preconditions under which Rust defines the
      operation, and its body is the snapshot of the Rust result; the same for
      checked operators, casts and negation; integer [&] and [|] have no value.
    - Types: the predicate of a structure owns the separate memory of its fields,
      that of an enum a stored discriminant and the memory of the variant it
      selects; the snapshots are the constructors applied to the snapshots in
      memory, and the discriminant function gives back the stored discriminant.
    - Casts: by their contracts the functions between concrete and generic
      snapshots are inverse to each other whatever the generic arguments, fields
      read as what a structure was built from, casting memory there and back keeps
      its snapshot; but the contracts of two types exclude each other on every
      generic snapshot, since the precondition of one direction is not emitted.
    - Pure functions: the expression of a body, reified for inputs with the values
      of the arguments, evaluates to the value that running the body returns, if
      its variables are bound; the encoder terminates on every loop-free body; a
      local that one arm of a branch leaves alone ends up unbound.
    - Lowering: expressions keep their value and their type, and pass the type checks
      of Viper; the flat body of a method, with its jumps, runs like the graph of
      its blocks; a well-formed program is lowered without a panic, its domain
      functions and axioms finding their own domains.
    - Builders: the binding check decides lexical scoping, conjunctions are
      balanced and mean what a chain of connectives means.
    - Contracts: every graph the code builds is consistent, refinement selects
      the own or the trait's item and never panics, validation of purity,
      import as a union; the collected map does not depend on the iteration
      order of hash maps, and contains what the attributes say.
    - Queries: the cache is transparent, queries of trait methods are answered
      with the refined contract, substitutions have the expected length.
    - Assertions: lexing spells the source, plain Rust passes unchanged, every
      sequence of operands and operators has one reading and the parser finds it,
      the Rust code has the value of the assertion with the same order of
      evaluation, and the parser always answers.
    - Task encoders: states of tasks only advance and no continuation gets lost,
      finished tasks are answered from the cache, runs return the solution of
      the encoders' equations through cycles of references, and the encoding of
      a crate terminates; cycles of full requirements do not.
    - Dataflow analyses: the engine terminates and returns the least solution of
      the flow equations of a monotone analysis; reaching definitions and
      allocated locals are exactly those of the paths of the body; initialized
      places hold on every path, the sets of places stay antichains and their
      operations act on the fully expanded places; accessible places are
      initialized and not borrowed, and framing keeps what the statement
      does not touch.
    - Log analysis: the state accepts exactly the valid histories, its lazily
      updated counters equal a reference computed from the history, the bounds
      hold of the history, popping one by one equals popping at once, rendered
      lines are read back, and the analysis of a whole log reports the history.

    ** Bounds and fuel

    [mk_assoc_op] halves its list and gets the length of the list as fuel; the
    loops over the terms of a log line consume at least one character a round
    and get the length of the line. Both are proved to suffice. Encoders call
    each other to a depth that no measure of one request bounds, so [encode] takes
    fuel: partial results hold for every fuel that gives a result, and
    [enough_fuel], the number of tasks with the sum of their programs, is
    proved to suffice where the encoders pose well-founded requirements. The lexer
    and the parser of assertions get the number of tokens, those in groups
    included, which is proved to suffice and to change nothing when exceeded. The
    dataflow engine gets a number of rounds; the number of blocks plus, for every
    edge, one more than the height of the lattice is proved to suffice. The pure
    encoder gets one unit more than the body has blocks, proved to suffice whatever
    the result without fuel. Expanding and
    collapsing places takes as many rounds as the projections differ in length.
    Predicates and functions are unfolded to a depth, and hold if some depth
    suffices; more depth keeps what a smaller one gives. The
    visit counters of the engine are unbounded. Machine integers
    are [Z] with an explicit range, [u32] levels of the log analyzer are [N] with
    the checks of a debug build, and its [usize] counters are unbounded.

    ** What is not modelled

    Everything that only wraps the compiler, the Java virtual machine, files,
    sockets or processes; the impure procedure encoders, which follow the place
    capability graph of a submodule outside the repository; arenas, spans and
    debug printing of VIR; how the compiler normalizes and decomposes types; the
    statements that fold and unfold a use of a type are built ([TyCast]) but not run;
    the other procedural macros, whose input and output are syntax trees of a library; the
    serialisation of analysis results and the generation of test programs from
    them. In the pure encoder the detection of [ghost!] blocks is a parameter, and the
    modes of contracts ([old], [rel], [before_expiry]) are encoded but have no
    meaning in the machine, which knows one state. The positions of Viper nodes are left
    out; quantifiers and expressions that read the heap have no value in [viper_eval],
    and statements that act on the heap are a relation of which only the agreement
    of both machines is used. The meaning of predicates ([TyHeap]) has whole
    permissions only, opaque predicates are parameters of it, and the contract of a
    method relates the heaps around a call without framing the rest. The analysis of static
    single assignment and the environment's loop analysis are candidates for an
    extension. *)
From stdpp Require Export base gmap strings list fin_maps sorting.
From Stdlib Require Export ZArith Lia.

(** ** Induction over nested data

    Syntax trees nest their own type in [list] and [option]; with the [All]
    schemes registered, the generated induction principles carry an
    hypothesis for every nested subterm. *)
Scheme All for list.
Scheme All for option.

Lemma list_all_Forall {A} (P : A -> Prop) (l : list A) : list_all A P l -> Forall P l.
Proof. induction 1; constructor; auto. Qed.

Lemma list_all2_Forall {A} (P : A -> Prop) (l : list (list A)) :
  list_all (list A) (list_all A P) l -> Forall (Forall P) l.
Proof. induction 1; constructor; eauto using list_all_Forall. Qed.

Lemma option_all_Some {A} (P : A -> Prop) (o : option A) a :
  option_all A P o -> o = Some a -> P a.
Proof. intros [?|]; intros; simplify_eq; auto. Qed.

(** ** Outcomes of Rust computations

    A Rust function that returns [Result<A, E>] and may panic is a function
    into [outcome E A]: [Ok] and [Err] are the two variants of [Result],
    [Panic] is an unwinding panic ([panic!], a failed [assert!], [unwrap] on
    [None], [unreachable!], [todo!], integer underflow with overflow checks). *)
Inductive outcome (E A : Type) : Type :=
| Ok (a : A)
| Err (e : E)
| Panic (msg : string).
Arguments Ok {E A} a.
Arguments Err {E A} e.
Arguments Panic {E A} msg.

#[export] Instance outcome_ret E : MRet (outcome E) := fun A a => Ok a.
#[export] Instance outcome_bind E : MBind (outcome E) := fun A B f m =>
  match m with Ok a => f a | Err e => Err e | Panic s => Panic s end.
#[export] Instance outcome_fmap E : FMap (outcome E) := fun A B f m =>
  match m with Ok a => Ok (f a) | Err e => Err e | Panic s => Panic s end.

(** [Option::unwrap] and [Option::ok_or_else]. *)
Definition unwrap {E A} (msg : string) (o : option A) : outcome E A :=
  match o with Some a => Ok a | None => Panic msg end.

Definition ok_or {E A} (e : E) (o : option A) : outcome E A :=
  match o with Some a => Ok a | None => Err e end.

(** A computation that has no error to return. *)
Definition lift {E A} (m : outcome Empty_set A) : outcome E A :=
  match m with Ok a => Ok a | Err e => match e with end | Panic s => Panic s end.

(** [assert!(b)]. *)
Definition assert_that {E} (msg : string) (b : bool) : outcome E unit :=
  if b then Ok tt else Panic msg.

(** The first error or panic of a list of outcomes wins, as in
    [collect::<Result<Vec<_>, _>>()]. *)
Fixpoint collect {E A B} (f : A -> outcome E B) (l : list A) : outcome E (list B) :=
  match l with
  | [] => Ok []
  | x :: l => y ← f x; ys ← collect f l; Ok (y :: ys)
  end.

Section outcome_lemmas.
Context {E : Type}.

Lemma bind_Ok_inv {A B} (m : outcome E A) (f : A -> outcome E B) b :
  m ≫= f = Ok b -> exists a, m = Ok a /\ f a = Ok b.
Proof. destruct m; simpl; intros; simplify_eq; eauto. Qed.

Lemma fmap_Ok_inv {A B} (f : A -> B) (m : outcome E A) b :
  f <$> m = Ok b -> exists a, m = Ok a /\ f a = b.
Proof. destruct m; simpl; intros; simplify_eq; eauto. Qed.

Lemma unwrap_Ok_inv {A} msg (o : option A) a :
  @unwrap E A msg o = Ok a -> o = Some a.
Proof. destruct o; simpl; congruence. Qed.

Lemma assert_that_Ok_inv msg b u : @assert_that E msg b = Ok u -> b = true.
Proof. destruct b; simpl; congruence. Qed.

Lemma collect_Ok {A B} (f : A -> outcome E B) l ys :
  collect f l = Ok ys <-> Forall2 (fun x y => f x = Ok y) l ys.
Proof.
  revert ys; induction l as [|x l IH]; intros ys; simpl.
  - split; [intros [= <-]; constructor | inversion 1; done].
  - split.
    + intros (y & Hy & (ys' & Hys & [= <-])%bind_Ok_inv)%bind_Ok_inv.
      constructor; [done | by apply IH].
    + inversion 1 as [|? y ? ys' Hy Hys]; subst. rewrite Hy; simpl.
      apply IH in Hys as ->. done.
Qed.

Lemma collect_ext {A B} (f g : A -> outcome E B) l :
  (forall x, x ∈ l -> f x = g x) -> collect f l = collect g l.
Proof.
  induction l as [|x l IH]; intros Hfg; simpl; [done|].
  rewrite Hfg by set_solver. rewrite IH; [done | set_solver].
Qed.
End outcome_lemmas.

(** ** Lists *)
Section filters.
Context {A : Type} (P : A -> Prop) `{forall x, Decision (P x)}.

Lemma filter_all l : Forall P l -> filter P l = l.
Proof.
  induction 1 as [|x l Hx _ IH]; [done|]. rewrite filter_cons, decide_True by done. by rewrite IH.
Qed.

Lemma filter_none l : Forall (fun x => ~ P x) l -> filter P l = [].
Proof.
  induction 1 as [|x l Hx _ IH]; [done|]. by rewrite filter_cons, decide_False.
Qed.
End filters.

(** ** Proof automation *)

(** [inv_outcome] turns every hypothesis [m ≫= f = Ok b] (and the derived
    forms) into its parts. *)
Ltac inv_outcome :=
  repeat match goal with
  | H : mbind _ _ = Ok _ |- _ => apply bind_Ok_inv in H as (? & ? & ?)
  | H : fmap _ _ = Ok _ |- _ => apply fmap_Ok_inv in H as (? & ? & ?)
  | H : unwrap _ _ = Ok _ |- _ => apply unwrap_Ok_inv in H
  | H : assert_that _ _ = Ok _ |- _ => apply assert_that_Ok_inv in H
  | H : Ok _ = Ok _ |- _ => injection H as H
  | H : Err _ = Ok _ |- _ => discriminate H
  | H : Panic _ = Ok _ |- _ => discriminate H
  | _ => progress subst
  end.

Create HintDb prusti.
#[export] Hint Resolve lookup_insert_eq lookup_delete_eq : prusti.
