(* ===== verification/Names.v ===== *)
(** * Numbers in names

    The names that encoders format out of indices determine the indices: decimal
    representations can be split off a string where a non-digit follows. *)
From Stdlib Require Import Ascii.
From stdpp Require Import pretty.
From S2P Require Import Prelude.

(** ** Decimal numbers in strings *)
Definition is_dec (c : ascii) : bool :=
  (48 <=? nat_of_ascii c) && (nat_of_ascii c <=? 57).

Fixpoint all_dec (s : string) : bool :=
  match s with EmptyString => true | String c s => is_dec c && all_dec s end.

Lemma pretty_N_char_dec x : is_dec (pretty_N_char x) = true.
Proof. unfold pretty_N_char. by repeat case_match. Qed.

Lemma pretty_N_go_dec x s : all_dec s = true -> all_dec (pretty_N_go x s) = true.
Proof.
  revert s. induction (N.lt_wf_0 x) as [x _ IH]; intros s Hs.
  destruct (decide (x = 0%N)) as [->|Hx]; [by rewrite pretty_N_go_0|].
  rewrite pretty_N_go_step by lia. apply IH; [apply N.div_lt; lia|]. simpl. by rewrite pretty_N_char_dec.
Qed.

Lemma pretty_nat_dec (n : nat) : all_dec (pretty n) = true.
Proof.
  unfold pretty, pretty_nat, pretty, pretty_N. destruct (decide (N.of_nat n = 0%N)); [done|].
  by apply pretty_N_go_dec.
Qed.

(** A number ends where its digits end. *)
Lemma dec_split a b c s c' s' :
  all_dec a = true -> all_dec b = true -> is_dec c = false -> is_dec c' = false ->
  a +:+ String c s = b +:+ String c' s' -> a = b /\ String c s = String c' s'.
Proof.
  revert b. induction a as [|x a IH]; intros [|y b]; simpl; try done.
  - intros _ [Hy _]%andb_true_iff Hc _ [= -> _]. congruence.
  - intros [Hx _]%andb_true_iff _ _ Hc' [= -> _]. congruence.
  - intros [_ Ha]%andb_true_iff [_ Hb]%andb_true_iff Hc Hc' [= -> Heq].
    by destruct (IH b Ha Hb Hc Hc' Heq) as [-> ->].
Qed.

Lemma pretty_split (n n' : nat) c s c' s' :
  is_dec c = false -> is_dec c' = false ->
  pretty n +:+ String c s = pretty n' +:+ String c' s' -> n = n' /\ String c s = String c' s'.
Proof.
  intros Hc Hc' Heq. apply dec_split in Heq as [Hn Hs]; try done; try apply pretty_nat_dec.
  by apply (inj pretty) in Hn.
Qed.

Lemma str_app_assoc (s1 s2 s3 : string) : (s1 +:+ s2) +:+ s3 = s1 +:+ s2 +:+ s3.
Proof.
  induction s1 as [|c s1 IH]; [done|]. change (String c ((s1 +:+ s2) +:+ s3) = String c (s1 +:+ s2 +:+ s3)).
  by rewrite IH.
Qed.

Lemma pretty_head (n : nat) s : exists c r, is_dec c = true /\ pretty n +:+ s = String c r.
Proof.
  pose proof (pretty_nat_dec n) as Hd. destruct (pretty n) as [|c r] eqn:Hp.
  - unfold pretty, pretty_nat, pretty, pretty_N in Hp. destruct (decide _); [done|].
    exfalso. apply (f_equal String.length) in Hp.
    assert (forall x s, String.length s <= String.length (pretty_N_go x s)) as Hlen.
    { clear. intros x. induction (N.lt_wf_0 x) as [x _ IH]; intros s.
      destruct (decide (x = 0%N)) as [->|Hx]; [by rewrite pretty_N_go_0|].
      rewrite pretty_N_go_step by lia. etrans; [|apply IH; apply N.div_lt; lia]. simpl. lia. }
    rewrite pretty_N_go_step in Hp by lia.
    specialize (Hlen (N.of_nat n `div` 10)%N (String (pretty_N_char (N.of_nat n `mod` 10)) EmptyString)).
    simpl in Hlen, Hp. lia.
  - simpl in Hd. apply andb_true_iff in Hd as [Hc _]. exists c, (r +:+ s). done.
Qed.
