(* ===== verification/Vir.v ===== *)
(** * VIR: Prusti's intermediate representation of Viper programs

    Types and expressions of [vir/src/data.rs] and [vir/src/gendata.rs], their
    type computation, and the expression builders of [vir/src/make.rs]:
    literals, operators, balanced conjunctions, the debug-build check of local
    bindings, and the integer helpers every builtin encoder relies on. *)
From S2P Require Import Prelude.

(** ** Types *)

Inductive TypeKind :=
| TInt
| TBool
| TDomainTypeParam (name : string) (index : nat)
| TDomain (name : string) (args : list TypeKind)
| TRef
| TPerm
| TSet (elem : TypeKind)
| TMultiset (elem : TypeKind)
| TSeq (elem : TypeKind)
| TMap (key val : TypeKind)
| TUnsupported (name : string)
| TErr.

(** Structural equality of types ([#[derive(PartialEq, Eq)]]). *)
Fixpoint TypeKind_eqb (t u : TypeKind) : bool :=
  match t, u with
  | TInt, TInt | TBool, TBool | TRef, TRef | TPerm, TPerm | TErr, TErr => true
  | TDomainTypeParam n i, TDomainTypeParam n' i' =>
      bool_decide (n = n') && bool_decide (i = i')
  | TDomain n args, TDomain n' args' =>
      bool_decide (n = n') &&
      (fix go l l' := match l, l' with
         | [], [] => true
         | x :: l, x' :: l' => TypeKind_eqb x x' && go l l'
         | _, _ => false
         end) args args'
  | TSet t, TSet u | TMultiset t, TMultiset u | TSeq t, TSeq u => TypeKind_eqb t u
  | TMap k v, TMap k' v' => TypeKind_eqb k k' && TypeKind_eqb v v'
  | TUnsupported n, TUnsupported n' => bool_decide (n = n')
  | _, _ => false
  end.

Lemma TypeKind_eqb_eq t u : TypeKind_eqb t u = true <-> t = u.
Proof.
  revert u. induction t as [| |n i|n l Hl| | |a IH|a IH|a IH|k IHk v IHv|n|];
    intros [| |n' i'|n' l'| | |a'|a'|a'|k' v'|n'|]; simpl;
    rewrite ?andb_true_iff, ?bool_decide_eq_true, ?IH, ?IHk, ?IHv;
    try naive_solver.
  enough (forall l', (fix go l l' := match l, l' with
         | [], [] => true
         | x :: l, x' :: l' => TypeKind_eqb x x' && go l l'
         | _, _ => false
         end) l l' = true <-> l = l') as ->.
  { split; [intros [-> ->]; done | intros [= -> ->]; done]. }
  clear l'. induction Hl as [|x Hx l Hl IH]; intros [|x' l']; try (split; done).
  rewrite andb_true_iff, Hx, IH. split; [intros [-> ->]; done | intros [= -> ->]; done].
Qed.

#[export] Instance TypeKind_eq_dec : EqDecision TypeKind.
Proof.
  intros t u. destruct (TypeKind_eqb t u) eqn:E.
  - left. by apply TypeKind_eqb_eq.
  - right. intros Heq. apply TypeKind_eqb_eq in Heq. congruence.
Defined.

Definition is_unsupported (t : TypeKind) : bool :=
  match t with TUnsupported _ => true | _ => false end.

(** ** Operators *)

Inductive UnOpKind := Neg | PermNeg | Not.

Inductive BinOpKind :=
| CmpEq | CmpNe | CmpGt | CmpLt | CmpGe | CmpLe
| And | Or | Implies
| Add | Sub | Mul | Div
| PermAdd | PermSub | PermMul | PermPermDiv
| Mod.

#[export] Instance BinOpKind_eq_dec : EqDecision BinOpKind.
Proof. solve_decision. Defined.

Inductive CollectionBinOpKind :=
| Contains | Union | Intersection | Difference | Subset | Concat | Index | Take | Drop.

(** [ConstData]; the payload of [CInt] is a [u128]. *)
Inductive ConstData := CBool (b : bool) | CInt (n : Z) | CWildcard | CNull.

Definition ConstData_ty (c : ConstData) : TypeKind :=
  match c with
  | CBool _ => TBool | CInt _ => TInt | CWildcard => TPerm | CNull => TRef
  end.

Inductive CfgBlockLabelData :=
| Start
| End_
| BasicBlock (idx : nat)
| BasicBlockTerminator (idx : nat)
| PreLoopBasicBlock (idx : nat) (pres : list nat)
| PreLoopBasicBlockTerminator (idx : nat) (pres : list nat).

Inductive OldLabel :=
| OldNone | OldLhs | OldBlock (b : CfgBlockLabelData) | OldLabelled (name : string).

Record LocalDecl := { decl_name : string; decl_ty : TypeKind }.

(** ** Expressions

    One constructor per variant of [ExprKindGenData]. Debug information and
    source spans are dropped; a [Lazy] node keeps its name and type, its
    closure is opaque to every function below. *)
Inductive Expr :=
| Local (name : string) (ty : TypeKind)
| Field (recv : Expr) (fname : string) (fty : TypeKind)
| Old (e : Expr) (label : OldLabel)
| Const (c : ConstData)
| Result_ (ty : TypeKind)
| AccField (recv : Expr) (fname : string) (fty : TypeKind) (perm : option Expr)
| Unfolding (target : string) (args : list Expr) (perm : option Expr) (e : Expr)
| UnOp (kind : UnOpKind) (e : Expr)
| BinOp (kind : BinOpKind) (lhs rhs : Expr)
| CollectionBinOp (kind : CollectionBinOpKind) (lhs rhs : Expr)
| CollectionLiteral (values : list Expr) (ty : TypeKind)
| CollectionUpdate (target key val : Expr)
| CollectionLen (c : Expr)
| MapDomain (m : Expr)
| MapRange (m : Expr)
| Ternary (cond then_ else_ : Expr)
| Exists_ (qvars : list LocalDecl) (triggers : list (list Expr)) (body : Expr)
| Forall_ (qvars : list LocalDecl) (triggers : list (list Expr)) (body : Expr)
| Let (name : string) (val e : Expr)
| FuncApp (target : string) (args : list Expr) (result_ty : TypeKind)
    (typ_var_map : list TypeKind)
| PredicateApp (target : string) (args : list Expr) (perm : option Expr)
| Wand (lhs rhs : Expr)
| InhaleExhale (inhale exhale : Expr)
| Lazy (name : string) (ty : TypeKind)
| AdtDestructor (e : Expr) (name : string) (input ty : TypeKind)
| AdtDiscriminator (e : Expr) (name : string)
| Todo (msg : string).

Definition BinOpKind_ty (kind : BinOpKind) : TypeKind :=
  match kind with
  | CmpEq | CmpNe | CmpGt | CmpLt | CmpGe | CmpLe => TBool
  | And | Or | Implies => TBool
  | Add | Sub | Mul | Div | Mod => TInt
  | PermAdd | PermSub | PermMul | PermPermDiv => TPerm
  end.

(** The result type of a collection operation from the operand types; the
    [typecheck_error!] calls of the source only log. *)
Definition CollectionBinOpKind_ty (kind : CollectionBinOpKind) (l r : TypeKind) : TypeKind :=
  match kind with
  | Contains =>
      match r with
      | TMultiset _ => TInt
      | TSet _ | TSeq _ | TMap _ _ => TBool
      | _ => TErr
      end
  | Subset => TBool
  | Union | Intersection | Difference => l
  | Concat | Take | Drop => l
  | Index => match l with TSeq elem => elem | TMap _ val => val | _ => TErr end
  end.

Fixpoint Expr_ty (e : Expr) : TypeKind :=
  match e with
  | Local _ ty => ty
  | Field _ _ fty => fty
  | Old e _ => Expr_ty e
  | Const c => ConstData_ty c
  | Result_ ty => ty
  | AccField _ _ _ _ => TBool
  | Unfolding _ _ _ e => Expr_ty e
  | UnOp _ e => Expr_ty e
  | BinOp kind _ _ => BinOpKind_ty kind
  | CollectionBinOp kind l r => CollectionBinOpKind_ty kind (Expr_ty l) (Expr_ty r)
  | CollectionLiteral _ ty => ty
  | CollectionUpdate target _ _ => Expr_ty target
  | CollectionLen _ => TInt
  | MapDomain m => match Expr_ty m with TMap key _ => TSet key | _ => TErr end
  | MapRange m => match Expr_ty m with TMap _ val => TSet val | _ => TErr end
  | Ternary _ t _ => Expr_ty t
  | Forall_ _ _ _ => TBool
  | Exists_ _ _ _ => TBool
  | Let _ _ e => Expr_ty e
  | FuncApp _ _ ty _ => ty
  | PredicateApp _ _ _ => TBool
  | Wand _ _ => TBool
  | InhaleExhale _ _ => TBool
  | Lazy _ ty => ty
  | AdtDestructor _ _ _ ty => ty
  | AdtDiscriminator _ _ => TBool
  | Todo _ => TErr
  end.
