(* ===== verification/VirMake.v ===== *)
(** * VIR builders

    The expression and statement builders of [vir/src/make.rs] and the
    debug-build check that locals are used at the type their binder gives
    them. *)
From S2P Require Import Prelude Vir.

(** ** Literals and operators *)

Definition mk_bool (v : bool) : Expr := Const (CBool v).

(** [mk_int::<VALUE>] for an [i128]: a negative literal is the negation of
    its absolute value, since [ConstData::Int] holds a [u128]. *)
Definition mk_int (v : Z) : Expr :=
  if (v <? 0)%Z then UnOp Neg (Const (CInt (Z.abs v))) else Const (CInt v).

Definition mk_uint (v : Z) : Expr := Const (CInt v).

Definition mk_local_ex (d : LocalDecl) : Expr := Local (decl_name d) (decl_ty d).

Definition mk_ternary_expr (cond then_ else_ : Expr) : Expr := Ternary cond then_ else_.

Definition mk_unary_op_expr (kind : UnOpKind) (e : Expr) : Expr := UnOp kind e.

(** A type mismatch of the operands is logged by the source and otherwise
    ignored. *)
Definition mk_bin_op_expr_inner (kind : BinOpKind) (lhs rhs : Expr) : Expr :=
  BinOp kind lhs rhs.

Definition mk_bin_op_expr {E} (kind : BinOpKind) (lhs rhs : Expr) : outcome E Expr :=
  _ ← assert_that "Use mk_eq_expr instead" (negb (bool_decide (kind = CmpEq)));
  Ok (mk_bin_op_expr_inner kind lhs rhs).

Definition mk_eq_expr (lhs rhs : Expr) : Expr := mk_bin_op_expr_inner CmpEq lhs rhs.

Definition mk_old (e : Expr) (label : OldLabel) : Expr := Old e label.

Definition maybe_apply_label (e : Expr) (label : option OldLabel) : Expr :=
  match label with
  | Some (OldBlock b) => mk_old e (OldBlock b)
  | Some (OldLabelled l) => mk_old e (OldLabelled l)
  | Some OldNone => mk_old e OldNone
  | Some OldLhs => mk_old e OldLhs
  | None => e
  end.

(** ** Statements *)

Inductive Stmt :=
| LocalDeclStmt (d : LocalDecl) (e : option Expr)
| PureAssign (lhs rhs : Expr)
| Inhale (e : Expr)
| Exhale (e : Expr)
| Refute (e : Expr)
| Unfold_ (target : string) (args : list Expr) (perm : option Expr)
| Fold_ (target : string) (args : list Expr) (perm : option Expr)
| Package (lhs rhs : Expr) (stmts : list Stmt)
| Apply (lhs rhs : Expr)
| MethodCall (targets : list Expr) (method : string) (args : list Expr)
| IfStmt (cond : Expr) (thn els : list Stmt)
| LabelStmt (name : string)
| Comment (msg : string)
| Dummy (msg : string).

(** ** Checking local bindings

    [m : &mut HashMap<&str, TypeDyn>] is threaded explicitly; the check has no
    error value, a mismatch panics. *)
Abbreviation scope := (gmap string TypeKind).

Definition check_local (m : scope) (name : string) (ty : TypeKind) : outcome Empty_set scope :=
  match m !! name with
  | Some bound_ty =>
      if negb (is_unsupported bound_ty) && negb (is_unsupported ty)
         && negb (bool_decide (bound_ty = ty))
      then Panic "Type mismatch for local variable"
      else Ok m
  | None => Ok m
  end.

Definition insert_decls (qvars : list LocalDecl) (m : scope) : scope :=
  foldl (fun m d => <[decl_name d := decl_ty d]> m) m qvars.

Definition remove_decls (qvars : list LocalDecl) (m : scope) : scope :=
  foldl (fun m d => delete (decl_name d) m) m qvars.

Definition is_lazy (e : Expr) : bool := match e with Lazy _ _ => true | _ => false end.

Fixpoint check_expr_bindings (m : scope) (e : Expr) {struct e} : outcome Empty_set scope :=
  let check_list := fix go (m : scope) (es : list Expr) : outcome Empty_set scope :=
    match es with
    | [] => Ok m
    | e :: es => m ← check_expr_bindings m e; go m es
    end in
  let check_lists := fix go (m : scope) (ess : list (list Expr)) : outcome Empty_set scope :=
    match ess with
    | [] => Ok m
    | es :: ess => m ← check_list m es; go m ess
    end in
  let check_opt (m : scope) (o : option Expr) : outcome Empty_set scope :=
    match o with Some e => check_expr_bindings m e | None => Ok m end in
  match e with
  | Local name ty => check_local m name ty
  | Let name val e =>
      m ← check_expr_bindings m val;
      let m := if is_lazy val then m else <[name := Expr_ty val]> m in
      m ← check_expr_bindings m e;
      Ok (delete name m)
  | FuncApp _ args _ _ => check_list m args
  | CollectionLiteral values _ => check_list m values
  | CollectionUpdate target key val =>
      m ← check_expr_bindings m target;
      m ← check_expr_bindings m key;
      check_expr_bindings m val
  | CollectionLen c => check_expr_bindings m c
  | MapDomain c => check_expr_bindings m c
  | MapRange c => check_expr_bindings m c
  | Old e _ => check_expr_bindings m e
  | Const _ => Ok m
  | Lazy _ _ => Ok m
  | PredicateApp _ args perm => m ← check_list m args; check_opt m perm
  | AccField recv _ _ perm => m ← check_expr_bindings m recv; check_opt m perm
  | Field recv _ _ => check_expr_bindings m recv
  | AdtDestructor e _ _ _ => check_expr_bindings m e
  | AdtDiscriminator e _ => check_expr_bindings m e
  | Unfolding _ args perm e =>
      m ← check_list m args;
      m ← check_opt m perm;
      check_expr_bindings m e
  | BinOp _ lhs rhs => m ← check_expr_bindings m lhs; check_expr_bindings m rhs
  | CollectionBinOp _ lhs rhs => m ← check_expr_bindings m lhs; check_expr_bindings m rhs
  | UnOp _ e => check_expr_bindings m e
  | Ternary cond t el =>
      m ← check_expr_bindings m cond;
      m ← check_expr_bindings m t;
      check_expr_bindings m el
  | Forall_ qvars triggers body
  | Exists_ qvars triggers body =>
      let m := insert_decls qvars m in
      m ← check_lists m triggers;
      m ← check_expr_bindings m body;
      Ok (remove_decls qvars m)
  | InhaleExhale inhale exhale =>
      m ← check_expr_bindings m inhale; check_expr_bindings m exhale
  | Wand lhs rhs => m ← check_expr_bindings m lhs; check_expr_bindings m rhs
  | Result_ _ | Todo _ => Panic "not yet implemented"
  end.

Fixpoint check_exprs_bindings (m : scope) (es : list Expr) : outcome Empty_set scope :=
  match es with
  | [] => Ok m
  | e :: es => m ← check_expr_bindings m e; check_exprs_bindings m es
  end.

Fixpoint check_triggers_bindings (m : scope) (ess : list (list Expr)) : outcome Empty_set scope :=
  match ess with
  | [] => Ok m
  | es :: ess => m ← check_exprs_bindings m es; check_triggers_bindings m ess
  end.

Definition check_opt_bindings (m : scope) (o : option Expr) : outcome Empty_set scope :=
  match o with Some e => check_expr_bindings m e | None => Ok m end.

Definition check_predicate_app_bindings (m : scope) (args : list Expr) (perm : option Expr) :
    outcome Empty_set scope :=
  m ← check_exprs_bindings m args; check_opt_bindings m perm.

Fixpoint check_stmt_bindings (m : scope) (s : Stmt) {struct s} : outcome Empty_set scope :=
  let check_stmts := fix go (m : scope) (ss : list Stmt) : outcome Empty_set scope :=
    match ss with
    | [] => Ok m
    | s :: ss => m ← check_stmt_bindings m s; go m ss
    end in
  match s with
  | LocalDeclStmt d e =>
      m ← check_opt_bindings m e;
      Ok (<[decl_name d := decl_ty d]> m)
  | PureAssign lhs rhs => m ← check_expr_bindings m lhs; check_expr_bindings m rhs
  | Inhale e | Exhale e | Refute e => check_expr_bindings m e
  | Unfold_ _ args perm | Fold_ _ args perm => check_predicate_app_bindings m args perm
  | Package _ _ stmts => check_stmts m stmts
  | Apply _ _ => Ok m
  | MethodCall _ _ args => check_exprs_bindings m args
  | IfStmt cond thn els =>
      m ← check_expr_bindings m cond;
      m ← check_stmts m thn;
      check_stmts m els
  | LabelStmt _ => Ok m
  | Comment _ => Ok m
  | Dummy _ => Panic "not yet implemented"
  end.

(** ** Lexical scoping as the reference for the binding check

    [well_bound] passes the scope down the tree as lexical scoping does, in
    place of the mutable map of the source; [checkable] says that no binder
    rebinds a name already in scope and that the two node kinds the source
    leaves unimplemented do not occur. *)
Definition local_agrees (m : scope) (name : string) (ty : TypeKind) : bool :=
  match m !! name with
  | Some b => is_unsupported b || is_unsupported ty || bool_decide (b = ty)
  | None => true
  end.

Definition let_scope (name : string) (val : Expr) (m : scope) : scope :=
  if is_lazy val then m else <[name := Expr_ty val]> m.

Definition opt_forallb {A} (f : A -> bool) (o : option A) : bool :=
  match o with Some a => f a | None => true end.

Fixpoint well_bound (m : scope) (e : Expr) {struct e} : bool :=
  match e with
  | Local name ty => local_agrees m name ty
  | Let name val e => well_bound m val && well_bound (let_scope name val m) e
  | FuncApp _ args _ _ => forallb (well_bound m) args
  | CollectionLiteral values _ => forallb (well_bound m) values
  | CollectionUpdate target key val =>
      well_bound m target && (well_bound m key && well_bound m val)
  | CollectionLen e | MapDomain e | MapRange e | Old e _ | Field e _ _
  | AdtDestructor e _ _ _ | AdtDiscriminator e _ | UnOp _ e => well_bound m e
  | Const _ | Lazy _ _ | Result_ _ | Todo _ => true
  | PredicateApp _ args perm =>
      forallb (well_bound m) args && opt_forallb (well_bound m) perm
  | AccField recv _ _ perm => well_bound m recv && opt_forallb (well_bound m) perm
  | Unfolding _ args perm e =>
      forallb (well_bound m) args && (opt_forallb (well_bound m) perm && well_bound m e)
  | BinOp _ l r | CollectionBinOp _ l r | InhaleExhale l r | Wand l r =>
      well_bound m l && well_bound m r
  | Ternary c t e => well_bound m c && (well_bound m t && well_bound m e)
  | Forall_ qvars triggers body | Exists_ qvars triggers body =>
      forallb (forallb (well_bound (insert_decls qvars m))) triggers
      && well_bound (insert_decls qvars m) body
  end.

Fixpoint checkable (m : scope) (e : Expr) {struct e} : bool :=
  match e with
  | Local _ _ | Const _ | Lazy _ _ => true
  | Result_ _ | Todo _ => false
  | Let name val e =>
      bool_decide (m !! name = None)
      && (checkable m val && checkable (let_scope name val m) e)
  | FuncApp _ args _ _ => forallb (checkable m) args
  | CollectionLiteral values _ => forallb (checkable m) values
  | CollectionUpdate target key val =>
      checkable m target && (checkable m key && checkable m val)
  | CollectionLen e | MapDomain e | MapRange e | Old e _ | Field e _ _
  | AdtDestructor e _ _ _ | AdtDiscriminator e _ | UnOp _ e => checkable m e
  | PredicateApp _ args perm =>
      forallb (checkable m) args && opt_forallb (checkable m) perm
  | AccField recv _ _ perm => checkable m recv && opt_forallb (checkable m) perm
  | Unfolding _ args perm e =>
      forallb (checkable m) args && (opt_forallb (checkable m) perm && checkable m e)
  | BinOp _ l r | CollectionBinOp _ l r | InhaleExhale l r | Wand l r =>
      checkable m l && checkable m r
  | Ternary c t e => checkable m c && (checkable m t && checkable m e)
  | Forall_ qvars triggers body | Exists_ qvars triggers body =>
      forallb (fun d => bool_decide (m !! decl_name d = None)) qvars
      && (forallb (forallb (checkable (insert_decls qvars m))) triggers
          && checkable (insert_decls qvars m) body)
  end.

Section binding_check.
Definition verdict (m : scope) (b : bool) : outcome Empty_set scope :=
  if b then Ok m else Panic "Type mismatch for local variable".
#[local] Arguments verdict _ !_ /.

Lemma verdict_bind m c b (k : scope -> outcome Empty_set scope) b' :
  c = verdict m b -> k m = verdict m b' -> c ≫= k = verdict m (b && b').
Proof. intros -> H. destruct b; simpl; done. Qed.

Definition checks_lexically (e : Expr) : Prop :=
  forall m, checkable m e = true -> check_expr_bindings m e = verdict m (well_bound m e).

Lemma check_exprs_lexically es m :
  Forall checks_lexically es -> forallb (checkable m) es = true ->
  check_exprs_bindings m es = verdict m (forallb (well_bound m) es).
Proof.
  induction 1 as [|e es He Hes IH]; simpl; [done|].
  intros [Hc Hcs]%andb_true_iff.
  apply verdict_bind; [by apply He | by apply IH].
Qed.

Lemma check_triggers_lexically ess m :
  Forall (Forall checks_lexically) ess -> forallb (forallb (checkable m)) ess = true ->
  check_triggers_bindings m ess = verdict m (forallb (forallb (well_bound m)) ess).
Proof.
  induction 1 as [|es ess He Hes IH]; simpl; [done|].
  intros [Hc Hcs]%andb_true_iff.
  apply verdict_bind; [by apply check_exprs_lexically | by apply IH].
Qed.

Lemma check_opt_lexically o m :
  (forall e, o = Some e -> checks_lexically e) -> opt_forallb (checkable m) o = true ->
  check_opt_bindings m o = verdict m (opt_forallb (well_bound m) o).
Proof. destruct o; simpl; intros H Hc; [by apply H | done]. Qed.

Lemma remove_decls_in qvars x m :
  x ∈ decl_name <$> qvars \/ m !! x = None -> remove_decls qvars m !! x = None.
Proof.
  revert m. induction qvars as [|d qvars IH]; intros m; simpl; [set_solver|].
  intros Hx. apply IH. rewrite lookup_delete. case_decide; [by right | set_solver].
Qed.

Lemma remove_decls_notin qvars x m :
  x ∉ decl_name <$> qvars -> remove_decls qvars m !! x = m !! x.
Proof.
  revert m. induction qvars as [|d qvars IH]; intros m; simpl; [done|].
  intros Hx. rewrite IH by set_solver. apply lookup_delete_ne. set_solver.
Qed.

Lemma insert_decls_notin qvars x m :
  x ∉ decl_name <$> qvars -> insert_decls qvars m !! x = m !! x.
Proof.
  revert m. induction qvars as [|d qvars IH]; intros m; simpl; [done|].
  intros Hx. rewrite IH by set_solver. apply lookup_insert_ne. set_solver.
Qed.

Lemma remove_insert_decls qvars m :
  forallb (fun d => bool_decide (m !! decl_name d = None)) qvars = true ->
  remove_decls qvars (insert_decls qvars m) = m.
Proof.
  rewrite forallb_forall. intros Hfresh. apply map_eq; intros x.
  destruct (decide (x ∈ decl_name <$> qvars)) as [Hin|Hout].
  - rewrite remove_decls_in by auto.
    apply list_elem_of_fmap in Hin as (d & -> & Hd).
    symmetry. apply (bool_decide_eq_true_1 (m !! decl_name d = None)).
    apply Hfresh. by apply list_elem_of_In.
  - by rewrite remove_decls_notin, insert_decls_notin.
Qed.

Lemma delete_let_scope name val m :
  m !! name = None -> delete name (let_scope name val m) = m.
Proof.
  intros Hm. unfold let_scope. destruct (is_lazy val).
  - by apply delete_id.
  - by apply delete_insert_id.
Qed.

Lemma check_local_verdict m name ty :
  check_local m name ty = verdict m (local_agrees m name ty).
Proof.
  unfold check_local, local_agrees. destruct (m !! name) as [b|]; [|done].
  destruct (is_unsupported b), (is_unsupported ty), (bool_decide (b = ty)); done.
Qed.

Lemma check_binder_lexically qvars triggers body m :
  Forall (Forall checks_lexically) triggers -> checks_lexically body ->
  forallb (fun d => bool_decide (m !! decl_name d = None)) qvars = true ->
  forallb (forallb (checkable (insert_decls qvars m))) triggers = true ->
  checkable (insert_decls qvars m) body = true ->
  (m' ← check_triggers_bindings (insert_decls qvars m) triggers;
   m' ← check_expr_bindings m' body; Ok (remove_decls qvars m'))
  = verdict m (forallb (forallb (well_bound (insert_decls qvars m))) triggers
               && well_bound (insert_decls qvars m) body).
Proof.
  intros Htr Hbody Hfresh Hct Hcb. rewrite check_triggers_lexically by done.
  destruct (forallb (forallb (well_bound _)) triggers); simpl; [|done].
  rewrite Hbody by done.
  destruct (well_bound _ body); simpl; [|done]. by rewrite remove_insert_decls.
Qed.

End binding_check.

#[local] Hint Resolve check_exprs_lexically check_opt_lexically check_triggers_lexically
  check_local_verdict verdict_bind : prusti.

(** The map-threading check of the source is lexical scoping. *)
Lemma checks_lexically_all e : checks_lexically e.
Proof.
  induction e; intros m Hc; simpl in Hc;
    repeat match goal with
    | H : _ && _ = true |- _ => apply andb_true_iff in H as [? H]
    | H : list_all _ (list_all _ _) _ |- _ =>
        apply (list_all2_Forall checks_lexically) in H
    | H : list_all _ _ _ |- _ => apply list_all_Forall in H
    end; rewrite ?bool_decide_eq_true in *.
  all: try discriminate.
  all: try (apply check_binder_lexically; assumption).
  all: try (simpl; repeat apply verdict_bind;
    first [ by auto with prusti
          | by apply check_exprs_lexically
          | apply check_opt_lexically; [by intros; eapply option_all_Some | done] ]; fail).
  (* Let *)
  simpl. fold (let_scope name e1 m). rewrite IHe1 by done.
  destruct (well_bound m e1); simpl; [|done]. fold (let_scope name e1 m). rewrite IHe2 by done.
  destruct (well_bound _ e2); simpl; [|done]. by rewrite delete_let_scope.
Qed.

(** ** Balanced conjunctions and disjunctions *)

(** The recursion halves the slice, so its depth is bounded by the number of
    elements: [fuel] is that number. *)
Fixpoint mk_assoc_op_fuel {E} (fuel : nat) (kind : BinOpKind) (default : option Expr)
    (elems : list Expr) : outcome E Expr :=
  match elems with
  | [] => unwrap "called `Option::unwrap()` on a `None` value" default
  | [e] => Ok e
  | _ =>
      match fuel with
      | 0 => Panic "out of fuel"
      | S fuel =>
          let mid := length elems / 2 in
          lhs ← mk_assoc_op_fuel fuel kind None (take mid elems);
          rhs ← mk_assoc_op_fuel fuel kind None (drop mid elems);
          mk_bin_op_expr kind lhs rhs
      end
  end.

Definition mk_assoc_op {E} (kind : BinOpKind) (default : option Expr) (elems : list Expr) :
    outcome E Expr :=
  mk_assoc_op_fuel (length elems) kind default elems.

Definition mk_conj {E} (elems : list Expr) : outcome E Expr :=
  mk_assoc_op And (Some (mk_bool true)) elems.

Definition mk_disj {E} (elems : list Expr) : outcome E Expr :=
  mk_assoc_op Or (Some (mk_bool false)) elems.

(** [balanced kind es e]: [e] is a binary [kind]-tree whose leaves, left to
    right, are [es], split in halves at every node. *)
Inductive balanced (kind : BinOpKind) : list Expr -> Expr -> Prop :=
| balanced_leaf e : balanced kind [e] e
| balanced_node es1 es2 l r :
    length es1 = length (es1 ++ es2) / 2 -> es1 <> [] -> es2 <> [] ->
    balanced kind es1 l -> balanced kind es2 r ->
    balanced kind (es1 ++ es2) (BinOp kind l r).

Lemma mk_assoc_op_balanced {E} fuel kind default elems :
  kind <> CmpEq -> elems <> [] -> length elems <= fuel ->
  exists e, @mk_assoc_op_fuel E fuel kind default elems = Ok e /\ balanced kind elems e.
Proof.
  intros Hk. revert default elems.
  induction fuel as [|fuel IH]; intros default elems Hne Hlen.
  { destruct elems; simpl in *; [done | lia]. }
  destruct elems as [|e1 [|e2 elems]]; [done | by eauto using balanced |].
  set (es := e1 :: e2 :: elems) in *.
  change (exists e, (lhs ← mk_assoc_op_fuel fuel kind None (take (length es / 2) es);
           rhs ← mk_assoc_op_fuel fuel kind None (drop (length es / 2) es);
           @mk_bin_op_expr E kind lhs rhs) = Ok e /\ balanced kind es e).
  assert (2 <= length es) as H2 by (simpl; lia).
  assert (1 <= length es / 2 < length es) as Hmid.
  { split; [by apply Nat.div_le_lower_bound | by apply Nat.div_lt; lia]. }
  destruct (IH None (take (length es / 2) es)) as (l & -> & Hl).
  { rewrite <- length_zero_iff_nil, length_take. lia. } { rewrite length_take. lia. }
  destruct (IH None (drop (length es / 2) es)) as (r & -> & Hr).
  { rewrite <- length_zero_iff_nil, length_drop. lia. } { rewrite length_drop. lia. }
  simpl. unfold mk_bin_op_expr. rewrite bool_decide_eq_false_2 by done. simpl.
  eexists; split; [done|]. rewrite <- (take_drop (length es / 2) es) at 1.
  constructor; try done.
  - rewrite take_drop, length_take. lia.
  - rewrite <- length_zero_iff_nil, length_take. lia.
  - rewrite <- length_zero_iff_nil, length_drop. lia.
Qed.

(** The depth of the operator spine above the leaves. *)
Inductive spine_depth (kind : BinOpKind) (leaves : list Expr) : Expr -> nat -> Prop :=
| spine_leaf e : e ∈ leaves -> spine_depth kind leaves e 0
| spine_node l r dl dr :
    spine_depth kind leaves l dl -> spine_depth kind leaves r dr ->
    spine_depth kind leaves (BinOp kind l r) (S (dl `max` dr)).

Lemma spine_depth_mono kind ls ls' e d :
  ls ⊆ ls' -> spine_depth kind ls e d -> spine_depth kind ls' e d.
Proof. intros H; induction 1; constructor; auto. Qed.

Lemma log2_up_halves n1 n2 :
  1 <= n1 -> n1 <= n2 -> n2 <= S n1 -> S (Nat.log2_up n2) <= Nat.log2_up (n1 + n2).
Proof.
  intros H1 H2 H3. apply Nat.log2_up_lt_pow2; [lia|].
  destruct (decide (n2 = 1)) as [->|Hne]; [simpl; lia|].
  destruct (Nat.log2_up_spec n2) as [Hlt _]; [lia|].
  assert (0 < Nat.log2_up n2) by (apply Nat.log2_up_pos; lia).
  destruct (Nat.log2_up n2) as [|k]; [lia|]. simpl in *. lia.
Qed.

Lemma balanced_spine_depth kind es e :
  balanced kind es e -> exists d, spine_depth kind es e d /\ d <= Nat.log2_up (length es).
Proof.
  induction 1 as [e|es1 es2 l r Hlen Hn1 Hn2 _ (dl & Hdl & Hl) _ (dr & Hdr & Hr)].
  { exists 0. split; [constructor; set_solver | simpl; lia]. }
  exists (S (dl `max` dr)). split.
  { constructor; eapply spine_depth_mono; [|done| |done]; set_solver. }
  rewrite length_app in *. destruct es1 as [|x es1], es2 as [|y es2]; try done.
  set (n1 := length (x :: es1)) in *. set (n2 := length (y :: es2)) in *.
  assert (n1 <= n2 /\ n2 <= S n1) as [Hle1 Hle2].
  { pose proof (Nat.div_mod_eq (n1 + n2) 2). pose proof (Nat.mod_upper_bound (n1 + n2) 2). lia. }
  assert (Nat.log2_up n1 <= Nat.log2_up n2) by (apply Nat.log2_up_le_mono; lia).
  assert (1 <= n1) by (unfold n1; simpl; lia).
  pose proof (log2_up_halves n1 n2). lia.
Qed.

(** ** Checked and well-bound expressions

    The builders run the check on what they build; an expression that is
    [fine] for a scope passes it and leaves the scope as it was. *)
Definition fine (m : scope) (e : Expr) : bool := checkable m e && well_bound m e.

Lemma fine_check m e : fine m e = true -> check_expr_bindings m e = Ok m.
Proof.
  intros [Hc Hw]%andb_true_iff. rewrite (checks_lexically_all e) by done. by rewrite Hw.
Qed.

Lemma fine_bin_op m kind l r :
  fine m l = true -> fine m r = true -> fine m (BinOp kind l r) = true.
Proof. unfold fine. simpl. rewrite !andb_true_iff. tauto. Qed.

Lemma fine_un_op m kind e : fine m e = true -> fine m (UnOp kind e) = true.
Proof. done. Qed.

Lemma fine_ternary m c t e :
  fine m c = true -> fine m t = true -> fine m e = true -> fine m (Ternary c t e) = true.
Proof. unfold fine. simpl. rewrite !andb_true_iff. tauto. Qed.

Lemma fine_mk_int m z : fine m (mk_int z) = true.
Proof. unfold mk_int. destruct (Z.ltb z 0); done. Qed.

Lemma fine_const m c : fine m (Const c) = true.
Proof. done. Qed.

#[export] Hint Resolve fine_bin_op fine_un_op fine_ternary fine_mk_int fine_const : prusti.

(** ** Properties *)

(** The debug check of local bindings, which threads one mutable map
    through the traversal, inserts binders and removes them afterwards,
    decides lexical scoping: when no binder shadows a name in scope, the check
    succeeds exactly on well-bound expressions, panics with the type mismatch
    otherwise, and leaves the map as it was. *)
Theorem check_expr_bindings_lexical m e :
  checkable m e = true ->
  check_expr_bindings m e
  = if well_bound m e then Ok m else Panic "Type mismatch for local variable".
Proof. intros Hc. by rewrite (checks_lexically_all e m Hc). Qed.

Lemma check_expr_bindings_lexical_witness :
  check_expr_bindings {["x" := TInt]}
    (Forall_ [{| decl_name := "y"; decl_ty := TBool |}] []
       (BinOp CmpEq (Local "x" TInt) (Local "y" TInt)))
  = Panic "Type mismatch for local variable".
Proof.
  exact (check_expr_bindings_lexical {["x" := TInt]}
    (Forall_ [{| decl_name := "y"; decl_ty := TBool |}] []
       (BinOp CmpEq (Local "x" TInt) (Local "y" TInt))) eq_refl).
Defined.

(** C19: [mk_conj] and [mk_disj] on a non-empty list give a balanced tree over
    exactly the given expressions in order, of depth at most the logarithm of
    their number; on the empty list they give the unit. *)
Theorem mk_assoc_balanced {E} elems :
  match elems with
  | [] => @mk_conj E elems = Ok (mk_bool true) /\ @mk_disj E elems = Ok (mk_bool false)
  | _ => exists c d nc nd, @mk_conj E elems = Ok c /\ @mk_disj E elems = Ok d
      /\ balanced And elems c /\ balanced Or elems d
      /\ spine_depth And elems c nc /\ nc <= Nat.log2_up (length elems)
      /\ spine_depth Or elems d nd /\ nd <= Nat.log2_up (length elems)
  end.
Proof.
  destruct elems as [|e es]; [done|].
  destruct (mk_assoc_op_balanced (E:=E) (length (e :: es)) And (Some (mk_bool true)) (e :: es))
    as (c & Hc & Hbc); [done..|].
  destruct (mk_assoc_op_balanced (E:=E) (length (e :: es)) Or (Some (mk_bool false)) (e :: es))
    as (d & Hd & Hbd); [done..|].
  destruct (balanced_spine_depth _ _ _ Hbc) as (nc & ? & ?).
  destruct (balanced_spine_depth _ _ _ Hbd) as (nd & ? & ?).
  exists c, d, nc, nd. repeat split; done.
Qed.
