(* ===== verification/VirProgram.v ===== *)
(** * VIR programs

    The members of a VIR program ([vir/src/gendata.rs], [vir/src/data.rs]): fields,
    domains, algebraic data types, predicates, functions and methods with their
    control-flow graphs, the builders of [vir/src/make.rs] for them, and the names
    of the labels of blocks. Statements are in [VirMake]. *)
From Stdlib Require Import Ascii.
From stdpp Require Import pretty.
From S2P Require Import Prelude Names Vir VirMake.

(** ** Declarations *)
Record DomainParamData := { param_name : string; param_index : nat }.
Record FieldData := { field_name : string; field_ty : TypeKind }.
(** A [BackendInterpretationPair] as its [to_tuple]. *)
Abbreviation BackendInterpretationPair := (string * string)%type.

Record DomainFunctionData := {
  dfun_unique : bool;
  dfun_name : string;
  dfun_args : list TypeKind;
  dfun_ret : TypeKind;
  dfun_interpretation : option string;
}.

Record DomainAxiomGenData := { axiom_name : string; axiom_expr : Expr }.

Record DomainGenData := {
  domain_name : string;
  domain_typarams : list DomainParamData;
  domain_axioms : list DomainAxiomGenData;
  domain_functions : list DomainFunctionData;
  domain_interpretation : option (list BackendInterpretationPair);
}.

(** The optional axiom of a constructor is never set nor read. *)
Record AdtConstructorGenData := { constructor_name : string; constructor_args : list LocalDecl }.

Record AdtGenData := {
  adt_name : string;
  adt_typarams : list DomainParamData;
  adt_constructors_of : list AdtConstructorGenData;
}.

Record PredicateGenData := {
  predicate_name : string;
  predicate_args : list LocalDecl;
  predicate_expr : option Expr;
}.

Inductive DecreasesGenData :=
| DecNone
| DecTuple (es : list Expr) (cond : option Expr)
| DecWildcard (cond : option Expr)
| DecStar.

Record FunctionGenData := {
  function_name : string;
  function_args : list LocalDecl;
  function_ret : TypeKind;
  function_pres : list Expr;
  function_posts : list Expr;
  function_decreases : DecreasesGenData;
  function_expr : option Expr;
}.

(** ** Control-flow graphs *)
Record GotoIfTargetGenData := {
  target_value : Expr;
  target_label : CfgBlockLabelData;
  target_statements : list Stmt;
}.

Record GotoIfGenData := {
  goto_value : Expr;
  goto_targets : list GotoIfTargetGenData;
  goto_otherwise : CfgBlockLabelData;
  goto_otherwise_statements : list Stmt;
}.

Inductive TerminatorStmtGenData :=
| AssumeFalse
| TermGoto (label : CfgBlockLabelData)
| TermGotoIf (g : GotoIfGenData)
| TermExit
| TermDummy (msg : string).

Record CfgBlockGenData := {
  block_label : CfgBlockLabelData;
  block_invariants : list Expr;
  block_stmts : list Stmt;
  block_terminator : TerminatorStmtGenData;
}.

Record MethodGenData := {
  method_name : string;
  method_args : list LocalDecl;
  method_rets : list LocalDecl;
  method_pres : list Expr;
  method_posts : list Expr;
  (** the blocks of the body, the first one is the entry point *)
  method_body : option (list CfgBlockGenData);
}.

Record ProgramGenData := {
  program_fields : list FieldData;
  program_adts : list AdtGenData;
  program_domains : list DomainGenData;
  program_predicates : list PredicateGenData;
  program_functions : list FunctionGenData;
  program_methods : list MethodGenData;
}.

(** ** Builders *)

(** A block inside an unrolled loop head is told apart by the loops it precedes. *)
Definition mk_block_label (block : nat) (pres : list nat) : CfgBlockLabelData :=
  match pres with [] => BasicBlock block | _ => PreLoopBasicBlock block pres end.

Definition mk_terminator_label (block : nat) (pres : list nat) : CfgBlockLabelData :=
  match pres with [] => BasicBlockTerminator block | _ => PreLoopBasicBlockTerminator block pres end.

Definition mk_assume_false_stmt : TerminatorStmtGenData := AssumeFalse.
Definition mk_goto_stmt (block : CfgBlockLabelData) : TerminatorStmtGenData := TermGoto block.
Definition mk_dummy_stmt (msg : string) : TerminatorStmtGenData := TermDummy msg.

Definition mk_goto_if_target (value : Expr) (label : CfgBlockLabelData) (statements : list Stmt) :
    GotoIfTargetGenData :=
  {| target_value := value; target_label := label; target_statements := statements |}.

Definition mk_goto_if_stmt (value : Expr) (targets : list GotoIfTargetGenData)
    (otherwise : CfgBlockLabelData) (otherwise_statements : list Stmt) : TerminatorStmtGenData :=
  TermGotoIf {| goto_value := value; goto_targets := targets; goto_otherwise := otherwise;
                goto_otherwise_statements := otherwise_statements |}.

Definition mk_cfg_block (label : CfgBlockLabelData) (invariants : list Expr) (stmts : list Stmt)
    (terminator : TerminatorStmtGenData) : CfgBlockGenData :=
  {| block_label := label; block_invariants := invariants; block_stmts := stmts;
     block_terminator := terminator |}.

(** The statements of all blocks are checked with one scope, in a debug build. *)
Fixpoint check_stmts_bindings (m : scope) (ss : list Stmt) : outcome Empty_set scope :=
  match ss with
  | [] => Ok m
  | s :: ss => m ← check_stmt_bindings m s; check_stmts_bindings m ss
  end.

Definition mk_method_unchecked (name : string) (args rets : list LocalDecl) (pres posts : list Expr)
    (blocks : option (list CfgBlockGenData)) : outcome Empty_set MethodGenData :=
  _ ← match blocks with
      | Some blocks =>
          check_stmts_bindings (insert_decls args ∅) (mjoin (block_stmts <$> blocks))
      | None => Ok ∅
      end;
  Ok {| method_name := name; method_args := args; method_rets := rets; method_pres := pres;
        method_posts := posts; method_body := blocks |}.

(** The type of the body is compared with the declared one, which only logs. *)
Definition mk_function (name : string) (ret : TypeKind) (args : list LocalDecl) (pres posts : list Expr)
    (decreases : option DecreasesGenData) (expr : option Expr) : outcome Empty_set FunctionGenData :=
  _ ← match expr with
      | Some body => check_expr_bindings (insert_decls args ∅) body
      | None => Ok ∅
      end;
  Ok {| function_name := name; function_args := args; function_ret := ret; function_pres := pres;
        function_posts := posts; function_decreases := default DecNone decreases;
        function_expr := expr |}.

Definition mk_adt (name : string) (typarams : list DomainParamData)
    (constructors : list AdtConstructorGenData) : AdtGenData :=
  {| adt_name := name; adt_typarams := typarams; adt_constructors_of := constructors |}.

Definition mk_domain {E} (name : string) (typarams : list DomainParamData)
    (axioms : list DomainAxiomGenData) (functions : list DomainFunctionData)
    (interpretation : option (list BackendInterpretationPair)) : outcome E DomainGenData :=
  _ ← assert_that "Domain type parameters are not yet supported" (bool_decide (length typarams = 0));
  Ok {| domain_name := name; domain_typarams := typarams; domain_axioms := axioms;
        domain_functions := functions; domain_interpretation := interpretation |}.

Definition mk_program (fields : list FieldData) (adts : list AdtGenData) (domains : list DomainGenData)
    (predicates : list PredicateGenData) (functions : list FunctionGenData)
    (methods : list MethodGenData) : ProgramGenData :=
  {| program_fields := fields; program_adts := adts; program_domains := domains;
     program_predicates := predicates; program_functions := functions; program_methods := methods |}.

(** ** Names of labels *)
Definition pres_name (pres : list nat) : string :=
  foldr (fun l s => "_pre" +:+ pretty l +:+ s) EmptyString pres.

(** [CfgBlockLabelData::name] *)
Definition cfg_label_name (l : CfgBlockLabelData) : string :=
  match l with
  | Start => "start"
  | End_ => "end"
  | BasicBlock idx => "bb_" +:+ pretty idx
  | BasicBlockTerminator idx => "bb_term_" +:+ pretty idx
  | PreLoopBasicBlock idx pres => "bb_" +:+ pretty idx +:+ pres_name pres
  | PreLoopBasicBlockTerminator idx pres => "bb_term_" +:+ pretty idx +:+ pres_name pres
  end.

#[export] Instance CfgBlockLabelData_eq_dec : EqDecision CfgBlockLabelData.
Proof. solve_decision. Defined.

(** Labels as the builders make them: no empty list of loops. *)
Definition wf_label (l : CfgBlockLabelData) : bool :=
  match l with
  | PreLoopBasicBlock _ pres | PreLoopBasicBlockTerminator _ pres => negb (bool_decide (pres = []))
  | _ => true
  end.

Lemma mk_block_label_wf block pres : wf_label (mk_block_label block pres) = true.
Proof. by destruct pres. Qed.

Lemma mk_terminator_label_wf block pres : wf_label (mk_terminator_label block pres) = true.
Proof. by destruct pres. Qed.

(** The index with the loops of a label: every label but the two special ones is
    such a pair behind a prefix. *)
Definition indexed (idx : nat) (pres : list nat) : string := pretty idx +:+ pres_name pres +:+ ".".

Lemma pres_name_dot pres : exists c s, is_dec c = false /\ pres_name pres +:+ "." = String c s.
Proof.
  destruct pres as [|l pres]; [exists "."%char | exists "_"%char]; eexists; split; reflexivity.
Qed.

Lemma indexed_inj pres : forall idx idx' pres',
  indexed idx pres = indexed idx' pres' -> idx = idx' /\ pres = pres'.
Proof.
  unfold indexed. induction pres as [|l pres IH]; intros idx idx' pres' Heq;
    destruct (pres_name_dot pres') as (c' & s' & Hc' & Hs').
  - rewrite Hs' in Heq. apply pretty_split in Heq as [-> Heq]; [|done..]. split; [done|].
    rewrite <- Hs' in Heq. by destruct pres'.
  - rewrite Hs' in Heq. apply pretty_split in Heq as [-> Heq]; [|done..]. split; [done|].
    rewrite <- Hs' in Heq. destruct pres' as [|l' pres']; [done|].
    cbn [pres_name foldr] in Heq. rewrite !str_app_assoc in Heq. cbn [String.append] in Heq.
    injection Heq as Heq. by destruct (IH _ _ _ Heq) as [-> ->].
Qed.

(** The prefix of a label's name, with the index and the loops where it has them. *)
Definition label_shape (l : CfgBlockLabelData) : option (bool * nat * list nat) :=
  match l with
  | Start | End_ => None
  | BasicBlock idx => Some (false, idx, [])
  | BasicBlockTerminator idx => Some (true, idx, [])
  | PreLoopBasicBlock idx pres => Some (false, idx, pres)
  | PreLoopBasicBlockTerminator idx pres => Some (true, idx, pres)
  end.

Lemma cfg_label_name_shape l term idx pres :
  label_shape l = Some (term, idx, pres) ->
  cfg_label_name l +:+ "." = "bb_" +:+ (if term : bool then "term_" else EmptyString) +:+ indexed idx pres.
Proof.
  assert (forall s : string, s +:+ EmptyString = s) as Hnil.
  { induction s as [|c s IH]; [done|]. change (String c (s +:+ EmptyString) = String c s). by rewrite IH. }
  destruct l; simpl; try discriminate; intros [= <- <- <-]; unfold indexed;
    cbn [pres_name foldr]; by rewrite ?str_app_assoc, ?Hnil.
Qed.

(** Distinct labels have distinct names. *)
Lemma cfg_label_name_inj l l' :
  wf_label l = true -> wf_label l' = true -> cfg_label_name l = cfg_label_name l' -> l = l'.
Proof.
  intros Hl Hl' Heq.
  destruct (label_shape l) as [[[t i] p]|] eqn:Hs, (label_shape l') as [[[t' i'] p']|] eqn:Hs'.
  - assert (t = t' /\ i = i' /\ p = p') as (-> & -> & ->).
    { apply (f_equal (fun s => s +:+ ".")) in Heq.
      rewrite (cfg_label_name_shape _ _ _ _ Hs), (cfg_label_name_shape _ _ _ _ Hs') in Heq.
      cbn [String.append] in Heq. injection Heq as Heq.
      destruct (pretty_head i (pres_name p +:+ ".")) as (c & r & Hc & Hr).
      destruct (pretty_head i' (pres_name p' +:+ ".")) as (c' & r' & Hc' & Hr').
      destruct t, t'; cbn [String.append] in Heq.
      - injection Heq as Heq. by destruct (indexed_inj _ _ _ _ Heq).
      - unfold indexed in Heq. rewrite Hr' in Heq. injection Heq as <- _. done.
      - unfold indexed in Heq. rewrite Hr in Heq. injection Heq as -> _. done.
      - by destruct (indexed_inj _ _ _ _ Heq). }
    destruct l, l'; simplify_eq/=; done.
  - by destruct l, l'.
  - by destruct l, l'.
  - by destruct l, l'.
Qed.
