(* ===== verification/VirSem.v ===== *)
(** * Meaning of the primitive fragment of VIR

    Prusti hands its VIR program to Viper through the node-by-node lowering of
    [prusti-viper/src/lib.rs]. What Viper does with it is not part of the
    repository: a [ViperModel] collects what the encoders rely on, a carrier of
    domain values, an interpretation of domain functions, and the integer
    division of Viper, which is Euclidean. *)
From S2P Require Import Prelude Vir VirMake.
Local Open Scope Z_scope.

(** Values of the quantifier- and heap-free fragment: native integers and
    booleans, the null reference, and elements of the domains and algebraic
    data types the encoders declare. *)
Inductive value (D : Type) : Type :=
| VInt (z : Z)
| VBool (b : bool)
| VDom (d : D)
| VNull.
Arguments VInt {D} z.
Arguments VBool {D} b.
Arguments VDom {D} d.
Arguments VNull {D}.

#[export] Instance value_eq_dec {D} `{EqDecision D} : EqDecision (value D).
Proof. solve_decision. Defined.

Class ViperModel := {
  domain_value : Type;
  domain_value_eq_dec :: EqDecision domain_value;
  (** the type a domain value inhabits *)
  domain_value_ty : domain_value -> TypeKind;
  (** the interpretation of function applications and destructors *)
  viper_fun : string -> list (value domain_value) -> option (value domain_value);
  viper_div : Z -> Z -> Z;
  viper_mod : Z -> Z -> Z;
  (** Viper's [\ ] and [%] are Euclidean *)
  viper_div_mod a b : b <> 0 -> a = b * viper_div a b + viper_mod a b;
  viper_mod_bound a b : b <> 0 -> 0 <= viper_mod a b < Z.abs b;
}.

Section semantics.
Context {VM : ViperModel}.

Abbreviation val := (value domain_value).
Abbreviation env := (gmap string val).

Definition value_ty (v : val) : TypeKind :=
  match v with VInt _ => TInt | VBool _ => TBool | VDom d => domain_value_ty d | VNull => TRef end.

Definition eval_unop (kind : UnOpKind) (v : val) : option val :=
  match kind, v with
  | Neg, VInt z => Some (VInt (- z))
  | Not, VBool b => Some (VBool (negb b))
  | _, _ => None
  end.

(** Strict operators; division by zero is not well defined in Viper. *)
Definition eval_binop (kind : BinOpKind) (l r : val) : option val :=
  match kind, l, r with
  | CmpEq, _, _ => Some (VBool (bool_decide (l = r)))
  | CmpNe, _, _ => Some (VBool (negb (bool_decide (l = r))))
  | CmpGt, VInt a, VInt b => Some (VBool (b <? a))
  | CmpLt, VInt a, VInt b => Some (VBool (a <? b))
  | CmpGe, VInt a, VInt b => Some (VBool (b <=? a))
  | CmpLe, VInt a, VInt b => Some (VBool (a <=? b))
  | Add, VInt a, VInt b => Some (VInt (a + b))
  | Sub, VInt a, VInt b => Some (VInt (a - b))
  | Mul, VInt a, VInt b => Some (VInt (a * b))
  | Div, VInt a, VInt b => if b =? 0 then None else Some (VInt (viper_div a b))
  | Mod, VInt a, VInt b => if b =? 0 then None else Some (VInt (viper_mod a b))
  | _, _, _ => None
  end.

(** [eval ρ e] is [None] when [e] is not well defined in [ρ] or leaves the
    fragment. Boolean connectives and conditionals are short-circuiting. *)
Fixpoint eval (ρ : env) (e : Expr) {struct e} : option val :=
  let eval_list := fix go (es : list Expr) : option (list val) :=
    match es with
    | [] => Some []
    | e :: es => v ← eval ρ e; vs ← go es; Some (v :: vs)
    end in
  match e with
  | Local name _ => ρ !! name
  | Const (CBool b) => Some (VBool b)
  | Const (CInt n) => Some (VInt n)
  | Const CNull => Some VNull
  | UnOp kind e => v ← eval ρ e; eval_unop kind v
  | BinOp And l r =>
      match eval ρ l with
      | Some (VBool true) =>
          match eval ρ r with Some (VBool b) => Some (VBool b) | _ => None end
      | Some (VBool false) => Some (VBool false)
      | _ => None
      end
  | BinOp Or l r =>
      match eval ρ l with
      | Some (VBool false) =>
          match eval ρ r with Some (VBool b) => Some (VBool b) | _ => None end
      | Some (VBool true) => Some (VBool true)
      | _ => None
      end
  | BinOp Implies l r =>
      match eval ρ l with
      | Some (VBool true) =>
          match eval ρ r with Some (VBool b) => Some (VBool b) | _ => None end
      | Some (VBool false) => Some (VBool true)
      | _ => None
      end
  | BinOp kind l r => a ← eval ρ l; b ← eval ρ r; eval_binop kind a b
  | Ternary c t e =>
      match eval ρ c with
      | Some (VBool true) => eval ρ t
      | Some (VBool false) => eval ρ e
      | _ => None
      end
  | Let name v e => x ← eval ρ v; eval (<[name := x]> ρ) e
  | FuncApp f args _ _ => vs ← eval_list args; viper_fun f vs
  | AdtDestructor e name _ _ => v ← eval ρ e; viper_fun name [v]
  | _ => None
  end.

Fixpoint eval_list (ρ : env) (es : list Expr) : option (list val) :=
  match es with
  | [] => Some []
  | e :: es => v ← eval ρ e; vs ← eval_list ρ es; Some (v :: vs)
  end.

(** A universally quantified axiom over one variable holds when its body is
    true for every value of the quantified type. *)
Definition axiom_holds (ax : Expr) : Prop :=
  match ax with
  | Forall_ [d] _ body =>
      forall v, value_ty v = decl_ty d ->
        eval {[decl_name d := v]} body = Some (VBool true)
  | _ => eval ∅ ax = Some (VBool true)
  end.
End semantics.

(** ** Meaning of the associative builders *)
Section assoc_meaning.
Context {VM : ViperModel}.

(** The list connective, left to right and short-circuiting. *)
Fixpoint eval_nary (kind : BinOpKind) (ρ : gmap string (value domain_value)) (es : list Expr) :
    option (value domain_value) :=
  match es with
  | [] => None
  | [e] => eval ρ e
  | e :: es =>
      match kind, eval ρ e with
      | And, Some (VBool false) => Some (VBool false)
      | Or, Some (VBool true) => Some (VBool true)
      | _, Some (VBool _) =>
          match eval_nary kind ρ es with Some (VBool b) => Some (VBool b) | _ => None end
      | _, _ => None
      end
  end.

Definition eval_connective (kind : BinOpKind) (l r : option (value domain_value)) :
    option (value domain_value) :=
  match kind, l with
  | And, Some (VBool false) => Some (VBool false)
  | Or, Some (VBool true) => Some (VBool true)
  | _, Some (VBool _) => match r with Some (VBool b) => Some (VBool b) | _ => None end
  | _, _ => None
  end.

Lemma eval_nary_cons kind ρ e es :
  es <> [] -> eval_nary kind ρ (e :: es) = eval_connective kind (eval ρ e) (eval_nary kind ρ es).
Proof. by destruct es. Qed.

Lemma eval_nary_app kind ρ es1 es2 :
  kind = And \/ kind = Or -> es1 <> [] -> es2 <> [] ->
  eval_nary kind ρ (es1 ++ es2)
  = eval_connective kind (eval_nary kind ρ es1) (eval_nary kind ρ es2).
Proof.
  intros Hk H1 H2. induction es1 as [|e es1 IH]; [done|].
  destruct es1 as [|e' es1]; [by apply eval_nary_cons|].
  rewrite <- app_comm_cons, !eval_nary_cons, IH by done.
  generalize (eval ρ e) (eval_nary kind ρ (e' :: es1)) (eval_nary kind ρ es2).
  destruct Hk as [->| ->]; intros [[|[]| |]|] [[|[]| |]|] [[|[]| |]|]; done.
Qed.

Lemma balanced_eval kind ρ es e :
  kind = And \/ kind = Or -> balanced kind es e -> eval ρ e = eval_nary kind ρ es.
Proof.
  intros Hk. induction 1 as [e|es1 es2 l r _ H1 H2 _ IHl _ IHr]; [done|].
  rewrite eval_nary_app, <- IHl, <- IHr by done.
  destruct Hk as [->| ->]; simpl; destruct (eval ρ l) as [[|[]| |]|]; done.
Qed.

(** whatever the shape of the tree, [mk_conj] evaluates its operands from
    left to right like a chain of [&&] (stopping at the first [false], not
    well defined as soon as an operand before it is not), [mk_disj] like a
    chain of [||]; on the empty list they are [true] and [false]. *)
Theorem mk_conj_disj_meaning {E} ρ elems :
  exists c d, @mk_conj E elems = Ok c /\ @mk_disj E elems = Ok d /\
    match elems with
    | [] => eval ρ c = Some (VBool true) /\ eval ρ d = Some (VBool false)
    | _ => eval ρ c = eval_nary And ρ elems /\ eval ρ d = eval_nary Or ρ elems
    end.
Proof.
  destruct elems as [|e es]; [by eexists _, _|].
  destruct (mk_assoc_op_balanced (E:=E) (length (e :: es)) And (Some (mk_bool true)) (e :: es))
    as (c & Hc & Hbc); [done..|].
  destruct (mk_assoc_op_balanced (E:=E) (length (e :: es)) Or (Some (mk_bool false)) (e :: es))
    as (d & Hd & Hbd); [done..|].
  exists c, d. repeat split; try done; apply balanced_eval; auto.
Qed.
End assoc_meaning.
