(* ===== verification/VirInt.v ===== *)
(** * Machine integers in VIR

    The integer helpers of [vir/src/make.rs]: width and signedness of a Rust
    integer type, its bounds as VIR literals, and the wrapping of an unbounded
    Viper integer into the type's two's complement range. *)
From S2P Require Import Prelude Vir VirMake VirSem.
Local Open Scope Z_scope.

(** ** Rust types, as far as the primitive encoders inspect them *)

Inductive IntTy := Isize | I8 | I16 | I32 | I64 | I128.
Inductive UintTy := Usize | U8 | U16 | U32 | U64 | U128.
Inductive FloatTy := F16 | F32 | F64 | F128.

Inductive TyKind :=
| TyBool
| TyChar
| TyInt (t : IntTy)
| TyUint (t : UintTy)
| TyFloat (t : FloatTy)
| TyOther (name : string).

(** [std::mem::size_of::<usize>() * 8] of the host Prusti was built for. *)
Class Host := {
  pointer_bits : Z;
  pointer_bits_supported : pointer_bits = 16 \/ pointer_bits = 32 \/ pointer_bits = 64;
}.

Definition unreachable {E A} : outcome E A :=
  Panic "internal error: entered unreachable code".

Section ints.
Context {H : Host} {E : Type}.

Definition get_int_data (k : TyKind) : outcome E (Z * bool) :=
  match k with
  | TyInt Isize => Ok (pointer_bits, true)
  | TyInt I8 => Ok (8, true)
  | TyInt I16 => Ok (16, true)
  | TyInt I32 => Ok (32, true)
  | TyInt I64 => Ok (64, true)
  | TyInt I128 => Ok (128, true)
  | TyUint Usize => Ok (pointer_bits, false)
  | TyUint U8 => Ok (8, false)
  | TyUint U16 => Ok (16, false)
  | TyUint U32 => Ok (32, false)
  | TyUint U64 => Ok (64, false)
  | TyUint U128 => Ok (128, false)
  | TyChar => Ok (32, false)
  | _ => unreachable
  end.

Definition get_min_int (k : TyKind) : outcome E Expr :=
  d ← get_int_data k;
  match d with
  | (_, false) => Ok (mk_uint 0)
  | (8, true) => Ok (mk_int (-128))
  | (16, true) => Ok (mk_int (-32768))
  | (32, true) => Ok (mk_int (-2147483648))
  | (64, true) => Ok (mk_int (-9223372036854775808))
  | (128, true) => Ok (mk_int (-170141183460469231731687303715884105728))
  | (_, true) => unreachable
  end.

Definition get_max_int (k : TyKind) : outcome E Expr :=
  d ← get_int_data k;
  match d with
  | (8, false) => Ok (mk_uint 255)
  | (16, false) => Ok (mk_uint 65535)
  | (32, false) => Ok (mk_uint 4294967295)
  | (64, false) => Ok (mk_uint 18446744073709551615)
  | (128, false) => Ok (mk_uint 340282366920938463463374607431768211455)
  | (8, true) => Ok (mk_int 127)
  | (16, true) => Ok (mk_int 32767)
  | (32, true) => Ok (mk_int 2147483647)
  | (64, true) => Ok (mk_int 9223372036854775807)
  | (128, true) => Ok (mk_int 170141183460469231731687303715884105727)
  | _ => unreachable
  end.

Definition get_modulo_int (k : TyKind) : outcome E Expr :=
  d ← get_int_data k;
  match d with
  | (8, _) => Ok (mk_uint (Z.shiftl 1 8))
  | (16, _) => Ok (mk_uint (Z.shiftl 1 16))
  | (32, _) => Ok (mk_uint (Z.shiftl 1 32))
  | (64, _) => Ok (mk_uint (Z.shiftl 1 64))
  | (128, _) =>
      let half := mk_uint (Z.shiftl 1 127) in
      mk_bin_op_expr Add half half
  | _ => unreachable
  end.

Definition get_signed_shift_int (k : TyKind) : outcome E (option Expr) :=
  d ← get_int_data k;
  match d with
  | (_, false) => Ok None
  | (8, true) => Ok (Some (mk_uint (Z.shiftl 1 7)))
  | (16, true) => Ok (Some (mk_uint (Z.shiftl 1 15)))
  | (32, true) => Ok (Some (mk_uint (Z.shiftl 1 31)))
  | (64, true) => Ok (Some (mk_uint (Z.shiftl 1 63)))
  | (128, true) => Ok (Some (mk_uint (Z.shiftl 1 127)))
  | (_, true) => unreachable
  end.

Definition get_bit_width_int (k : TyKind) : outcome E Expr :=
  d ← get_int_data k;
  match d with
  | (8, _) => Ok (mk_uint 8)
  | (16, _) => Ok (mk_uint 16)
  | (32, _) => Ok (mk_uint 32)
  | (64, _) => Ok (mk_uint 64)
  | (128, _) => Ok (mk_uint 128)
  | _ => unreachable
  end.

Definition get_wrapped_val (exp : Expr) (k : TyKind) : outcome E Expr :=
  shift_amount ← get_signed_shift_int k;
  exp ← match shift_amount with
        | Some half => mk_bin_op_expr Add exp half
        | None => Ok exp
        end;
  modulo_val ← get_modulo_int k;
  exp ← mk_bin_op_expr Mod exp modulo_val;
  match shift_amount with
  | Some half => mk_bin_op_expr Sub exp half
  | None => Ok exp
  end.
End ints.

(** ** The ranges the helpers stand for *)

Definition int_min (d : Z * bool) : Z := if d.2 then - 2 ^ (d.1 - 1) else 0.
Definition int_max (d : Z * bool) : Z := if d.2 then 2 ^ (d.1 - 1) - 1 else 2 ^ d.1 - 1.
Definition in_range (d : Z * bool) (z : Z) : Prop := int_min d <= z <= int_max d.

(** Two's complement reading of the low [d.1] bits of [z]. *)
Definition wrap (d : Z * bool) (z : Z) : Z :=
  if d.2 then (z + 2 ^ (d.1 - 1)) mod 2 ^ d.1 - 2 ^ (d.1 - 1) else z mod 2 ^ d.1.

Section int_lemmas.
Context {H : Host} {E : Type}.

Definition supported (d : Z * bool) : Prop :=
  d.1 = 8 \/ d.1 = 16 \/ d.1 = 32 \/ d.1 = 64 \/ d.1 = 128.

Lemma get_int_data_supported k d : @get_int_data H E k = Ok d -> supported d.
Proof.
  pose proof pointer_bits_supported. unfold supported.
  destruct k as [| |[]|[]| |]; simpl; intros; simplify_eq; simpl; lia.
Qed.

Lemma wrap_in_range d z : supported d -> in_range d (wrap d z).
Proof.
  destruct d as [b s]. unfold supported, in_range, wrap, int_min, int_max; simpl.
  intros Hb. assert (2 ^ b = 2 * 2 ^ (b - 1) /\ 0 < 2 ^ (b - 1)) as [He Hp].
  { split; [rewrite <- Z.pow_succ_r by lia; f_equal; lia | apply Z.pow_pos_nonneg; lia]. }
  destruct s.
  - pose proof (Z.mod_pos_bound (z + 2 ^ (b - 1)) (2 ^ b)). lia.
  - pose proof (Z.mod_pos_bound z (2 ^ b)). lia.
Qed.

Lemma wrap_congruent d z : supported d -> exists q, wrap d z = z + q * 2 ^ d.1.
Proof.
  destruct d as [b s]. unfold supported, wrap; simpl. intros Hb.
  assert (0 < 2 ^ b) by (apply Z.pow_pos_nonneg; lia).
  destruct s.
  - exists (- ((z + 2 ^ (b - 1)) / 2 ^ b)). rewrite Z.mod_eq by lia. lia.
  - exists (- (z / 2 ^ b)). rewrite Z.mod_eq by lia. lia.
Qed.

(** The range determines the representative of a residue class. *)
Lemma in_range_unique d x y q :
  supported d -> in_range d x -> in_range d y -> x = y + q * 2 ^ d.1 -> x = y.
Proof.
  destruct d as [b s]. unfold supported, in_range, int_min, int_max; simpl.
  intros Hb Hx Hy ->. assert (2 ^ b = 2 * 2 ^ (b - 1) /\ 0 < 2 ^ (b - 1)) as [He Hp].
  { split; [rewrite <- Z.pow_succ_r by lia; f_equal; lia | apply Z.pow_pos_nonneg; lia]. }
  enough (q = 0) by lia. destruct s; nia.
Qed.

Lemma wrap_id d z : supported d -> in_range d z -> wrap d z = z.
Proof.
  intros Hd Hz. destruct (wrap_congruent d z Hd) as [q Hq].
  eapply in_range_unique; eauto using wrap_in_range.
Qed.
End int_lemmas.

(** ** Evaluation of the literals and of the wrapping *)
Section eval_ints.
Context {H : Host} {E : Type} {VM : ViperModel}.
Implicit Types (ρ : gmap string (value domain_value)).

Lemma viper_mod_pos a b : 0 < b -> viper_mod a b = a mod b.
Proof.
  intros Hb. pose proof (viper_mod_bound a b). pose proof (viper_div_mod a b).
  apply (Z.mod_unique_pos _ _ (viper_div a b)); lia.
Qed.

Lemma eval_mk_int ρ z : eval ρ (mk_int z) = Some (VInt z).
Proof.
  unfold mk_int. destruct (Z.ltb_spec z 0); simpl; [|done]. do 2 f_equal. lia.
Qed.

Lemma eval_mk_uint ρ z : eval ρ (mk_uint z) = Some (VInt z).
Proof. done. Qed.

Ltac int_cases k :=
  destruct k as [| |[]|[]| |]; simpl; intros; simplify_eq;
  try (pose proof pointer_bits_supported as [->|[->| ->]]).

Lemma get_min_int_eval k d :
  @get_int_data H E k = Ok d ->
  exists e, @get_min_int H E k = Ok e /\ forall ρ, eval ρ e = Some (VInt (int_min d)).
Proof.
  unfold get_min_int, int_min. int_cases k;
    (eexists; split; [reflexivity | intros; rewrite ?eval_mk_int; reflexivity]).
Qed.

Lemma get_max_int_eval k d :
  @get_int_data H E k = Ok d ->
  exists e, @get_max_int H E k = Ok e /\ forall ρ, eval ρ e = Some (VInt (int_max d)).
Proof.
  unfold get_max_int, int_max. int_cases k;
    (eexists; split; [reflexivity | intros; rewrite ?eval_mk_int; reflexivity]).
Qed.

Lemma get_modulo_int_eval k d :
  @get_int_data H E k = Ok d ->
  exists e, @get_modulo_int H E k = Ok e /\ forall ρ, eval ρ e = Some (VInt (2 ^ d.1)).
Proof.
  unfold get_modulo_int. int_cases k; (eexists; split; [reflexivity | intros; reflexivity]).
Qed.

Lemma get_signed_shift_int_eval k d :
  @get_int_data H E k = Ok d ->
  exists o, @get_signed_shift_int H E k = Ok o /\
    match o with
    | Some e => d.2 = true /\ forall ρ, eval ρ e = Some (VInt (2 ^ (d.1 - 1)))
    | None => d.2 = false
    end.
Proof.
  unfold get_signed_shift_int. int_cases k;
    (eexists; split; [reflexivity | simpl; try split; reflexivity]).
Qed.

Lemma get_bit_width_int_eval k d :
  @get_int_data H E k = Ok d ->
  exists e, @get_bit_width_int H E k = Ok e /\ forall ρ, eval ρ e = Some (VInt d.1).
Proof.
  unfold get_bit_width_int. int_cases k; (eexists; split; [reflexivity | intros; reflexivity]).
Qed.

Lemma get_wrapped_val_eval e k d :
  @get_int_data H E k = Ok d ->
  exists e', @get_wrapped_val H E e k = Ok e' /\
    forall ρ z, eval ρ e = Some (VInt z) -> eval ρ e' = Some (VInt (wrap d z)).
Proof.
  intros Hk. pose proof (get_int_data_supported k d Hk) as Hd.
  assert (0 < 2 ^ d.1) by (apply Z.pow_pos_nonneg; unfold supported in Hd; lia).
  unfold get_wrapped_val, wrap.
  destruct (get_signed_shift_int_eval k d Hk) as (o & -> & Ho).
  destruct (get_modulo_int_eval k d Hk) as (m & Hm & Hme).
  destruct o as [half|]; simpl; rewrite Hm; simpl.
  - destruct Ho as [-> Hhalf]. eexists; split; [done|]. intros ρ z Hz. simpl.
    rewrite Hz, Hhalf, Hme; simpl. destruct (Z.eqb_spec (2 ^ d.1) 0); [lia|].
    simpl. by rewrite viper_mod_pos.
  - rewrite Ho. eexists; split; [done|]. intros ρ z Hz. simpl.
    rewrite Hz, Hme; simpl. destruct (Z.eqb_spec (2 ^ d.1) 0); [lia|].
    by rewrite viper_mod_pos.
Qed.
End eval_ints.

(** ** The helpers build well-bound expressions *)
Section fine_ints.
Context {H : Host} {E : Type}.

Ltac fine_cases k :=
  destruct k as [| |[]|[]| |]; simpl;
  try (pose proof pointer_bits_supported as [->|[->| ->]]);
  intros; simplify_eq/=; first [reflexivity | auto with prusti].

Lemma get_min_int_fine m k e : @get_min_int H E k = Ok e -> fine m e = true.
Proof. unfold get_min_int. fine_cases k. Qed.

Lemma get_max_int_fine m k e : @get_max_int H E k = Ok e -> fine m e = true.
Proof. unfold get_max_int. fine_cases k. Qed.

Lemma mk_bin_op_expr_fine m kind l r e :
  @mk_bin_op_expr E kind l r = Ok e -> fine m l = true -> fine m r = true -> fine m e = true.
Proof. unfold mk_bin_op_expr. intros. inv_outcome. by apply fine_bin_op. Qed.

Lemma get_modulo_int_fine m k e : @get_modulo_int H E k = Ok e -> fine m e = true.
Proof. unfold get_modulo_int. fine_cases k; by eapply mk_bin_op_expr_fine. Qed.

Lemma get_signed_shift_int_fine m k e :
  @get_signed_shift_int H E k = Ok (Some e) -> fine m e = true.
Proof. unfold get_signed_shift_int. fine_cases k. Qed.

Lemma get_wrapped_val_fine m k e e' :
  fine m e = true -> @get_wrapped_val H E e k = Ok e' -> fine m e' = true.
Proof.
  unfold get_wrapped_val. intros He Hw. inv_outcome.
  destruct x as [half|]; inv_outcome; eauto using mk_bin_op_expr_fine, get_modulo_int_fine,
    get_signed_shift_int_fine.
  eapply mk_bin_op_expr_fine; [done| |by eapply get_signed_shift_int_fine].
  eauto 10 using mk_bin_op_expr_fine, get_modulo_int_fine, get_signed_shift_int_fine.
Qed.
End fine_ints.

#[export] Hint Resolve get_min_int_fine get_max_int_fine get_wrapped_val_fine : prusti.
