(* ===== verification/VirReify.v ===== *)
(** * Reification, free variables and closed evaluation

    [vir/src/reify.rs]: an encoder may leave lazy nodes in an expression, whose
    closures receive the inputs of the expression later. Reification runs all
    of them with one context. A lazy node is represented by its name, so a
    context is a map from names of lazy nodes to what their closures return. *)
From S2P Require Import Prelude Vir VirMake VirSem.

(** [Reify::reify] on expressions: the node is rebuilt, a lazy node is replaced
    and what replaces it is not visited again. *)
Fixpoint reify (m : gmap string Expr) (e : Expr) {struct e} : Expr :=
  match e with
  | Local _ _ | Const _ | Result_ _ | Todo _ => e
  | Lazy name _ => default e (m !! name)
  | Field v f ty => Field (reify m v) f ty
  | Old v label => Old (reify m v) label
  | AccField v f ty perm => AccField (reify m v) f ty (option_map (reify m) perm)
  | Unfolding target args perm e =>
      Unfolding target (map (reify m) args) (option_map (reify m) perm) (reify m e)
  | UnOp kind e => UnOp kind (reify m e)
  | BinOp kind l r => BinOp kind (reify m l) (reify m r)
  | CollectionBinOp kind l r => CollectionBinOp kind (reify m l) (reify m r)
  | CollectionLiteral values ty => CollectionLiteral (map (reify m) values) ty
  | CollectionUpdate target key val => CollectionUpdate (reify m target) (reify m key) (reify m val)
  | CollectionLen c => CollectionLen (reify m c)
  | MapDomain c => MapDomain (reify m c)
  | MapRange c => MapRange (reify m c)
  | Ternary c t e => Ternary (reify m c) (reify m t) (reify m e)
  | Exists_ qvars triggers body => Exists_ qvars (map (map (reify m)) triggers) (reify m body)
  | Forall_ qvars triggers body => Forall_ qvars (map (map (reify m)) triggers) (reify m body)
  | Let name val e => Let name (reify m val) (reify m e)
  | FuncApp target args ty tys => FuncApp target (map (reify m) args) ty tys
  | PredicateApp target args perm =>
      PredicateApp target (map (reify m) args) (option_map (reify m) perm)
  | Wand l r => Wand (reify m l) (reify m r)
  | InhaleExhale l r => InhaleExhale (reify m l) (reify m r)
  | AdtDestructor e name input ty => AdtDestructor (reify m e) name input ty
  | AdtDiscriminator e name => AdtDiscriminator (reify m e) name
  end.

(** The variables of an expression that no binder of it binds. *)
Definition unions (l : list (gset string)) : gset string := foldr (∪) ∅ l.

Definition bound_names (qvars : list LocalDecl) : gset string := list_to_set (decl_name <$> qvars).

Fixpoint free_vars (e : Expr) {struct e} : gset string :=
  match e with
  | Local name _ => {[name]}
  | Const _ | Result_ _ | Todo _ | Lazy _ _ => ∅
  | Field e _ _ | Old e _ | UnOp _ e | CollectionLen e | MapDomain e | MapRange e
  | AdtDestructor e _ _ _ | AdtDiscriminator e _ => free_vars e
  | AccField e _ _ perm => free_vars e ∪ from_option free_vars ∅ perm
  | Unfolding _ args perm e =>
      unions (map free_vars args) ∪ from_option free_vars ∅ perm ∪ free_vars e
  | BinOp _ l r | CollectionBinOp _ l r | Wand l r | InhaleExhale l r => free_vars l ∪ free_vars r
  | CollectionLiteral values _ => unions (map free_vars values)
  | CollectionUpdate target key val => free_vars target ∪ free_vars key ∪ free_vars val
  | Ternary c t e => free_vars c ∪ free_vars t ∪ free_vars e
  | Exists_ qvars triggers body | Forall_ qvars triggers body =>
      (unions (map (fun es => unions (map free_vars es)) triggers) ∪ free_vars body) ∖ bound_names qvars
  | Let name val e => free_vars val ∪ free_vars e ∖ {[name]}
  | FuncApp _ args _ _ => unions (map free_vars args)
  | PredicateApp _ args perm => unions (map free_vars args) ∪ from_option free_vars ∅ perm
  end.

Abbreviation free_vars_list es := (unions (map free_vars es)).

Lemma elem_of_unions x l : x ∈ unions l <-> exists s, s ∈ l /\ x ∈ s.
Proof.
  induction l as [|s l IH]; simpl; [set_solver|]. rewrite elem_of_union, IH. set_solver.
Qed.

Lemma unions_app l1 l2 : unions (l1 ++ l2) = unions l1 ∪ unions l2.
Proof. apply set_eq. intros x. rewrite elem_of_union, !elem_of_unions. set_solver. Qed.

(** The names of the lazy nodes of an expression. *)
Fixpoint lazy_names (e : Expr) {struct e} : gset string :=
  match e with
  | Local _ _ | Const _ | Result_ _ | Todo _ => ∅
  | Lazy name _ => {[name]}
  | Field e _ _ | Old e _ | UnOp _ e | CollectionLen e | MapDomain e | MapRange e
  | AdtDestructor e _ _ _ | AdtDiscriminator e _ => lazy_names e
  | AccField e _ _ perm => lazy_names e ∪ from_option lazy_names ∅ perm
  | Unfolding _ args perm e =>
      unions (map lazy_names args) ∪ from_option lazy_names ∅ perm ∪ lazy_names e
  | BinOp _ l r | CollectionBinOp _ l r | Wand l r | InhaleExhale l r | Let _ l r =>
      lazy_names l ∪ lazy_names r
  | CollectionLiteral values _ => unions (map lazy_names values)
  | CollectionUpdate target key val => lazy_names target ∪ lazy_names key ∪ lazy_names val
  | Ternary c t e => lazy_names c ∪ lazy_names t ∪ lazy_names e
  | Exists_ _ triggers body | Forall_ _ triggers body =>
      unions (map (fun es => unions (map lazy_names es)) triggers) ∪ lazy_names body
  | FuncApp _ args _ _ => unions (map lazy_names args)
  | PredicateApp _ args perm => unions (map lazy_names args) ∪ from_option lazy_names ∅ perm
  end.

(** An expression without lazy nodes. *)
Fixpoint ground (e : Expr) {struct e} : bool :=
  match e with
  | Local _ _ | Const _ | Result_ _ | Todo _ => true
  | Lazy _ _ => false
  | Field e _ _ | Old e _ | UnOp _ e | CollectionLen e | MapDomain e | MapRange e
  | AdtDestructor e _ _ _ | AdtDiscriminator e _ => ground e
  | AccField e _ _ perm => ground e && opt_forallb ground perm
  | Unfolding _ args perm e => forallb ground args && opt_forallb ground perm && ground e
  | BinOp _ l r | CollectionBinOp _ l r | Wand l r | InhaleExhale l r | Let _ l r => ground l && ground r
  | CollectionLiteral values _ => forallb ground values
  | CollectionUpdate target key val => ground target && ground key && ground val
  | Ternary c t e => ground c && ground t && ground e
  | Exists_ _ triggers body | Forall_ _ triggers body => forallb (forallb ground) triggers && ground body
  | FuncApp _ args _ _ => forallb ground args
  | PredicateApp _ args perm => forallb ground args && opt_forallb ground perm
  end.

Lemma map_id_forallb (p : Expr -> bool) (f : Expr -> Expr) es :
  Forall (fun e => p e = true -> f e = e) es -> forallb p es = true -> map f es = es.
Proof.
  induction 1 as [|e es He _ IH]; simpl; [done|]. intros [Hp Hps]%andb_true_iff. by rewrite He, IH.
Qed.

Lemma map_map_id_forallb (p : Expr -> bool) (f : Expr -> Expr) ess :
  Forall (Forall (fun e => p e = true -> f e = e)) ess -> forallb (forallb p) ess = true ->
  map (map f) ess = ess.
Proof.
  induction 1 as [|es ess He _ IH]; simpl; [done|]. intros [Hp Hps]%andb_true_iff.
  by rewrite (map_id_forallb p), IH.
Qed.

Lemma opt_id_forallb (p : Expr -> bool) (f : Expr -> Expr) o :
  option_all Expr (fun e => p e = true -> f e = e) o -> opt_forallb p o = true -> option_map f o = o.
Proof. intros [e He|]; simpl; [|done]. intros Hp. by rewrite He. Qed.

(** Reification does nothing where there is nothing lazy. *)
Lemma reify_ground m e : ground e = true -> reify m e = e.
Proof.
  induction e; simpl; intros Hg;
    repeat match goal with
    | H : _ && _ = true |- _ => apply andb_true_iff in H as [? H]
    | H : list_all _ (list_all _ _) _ |- _ =>
        apply (list_all2_Forall (fun e => ground e = true -> reify m e = e)) in H
    | H : list_all _ _ _ |- _ => apply list_all_Forall in H
    end; try done; f_equal;
    first [ by auto | by apply (map_id_forallb ground) | by apply (map_map_id_forallb ground)
          | by apply (opt_id_forallb ground) ].
Qed.

(** ** Evaluation *)
Section eval_facts.
Context {VM : ViperModel}.
Abbreviation val := (value domain_value).
Abbreviation env := (gmap string val).

Lemma eval_FuncApp (ρ : env) f args ty tys :
  eval ρ (FuncApp f args ty tys) = vs ← eval_list ρ args; viper_fun f vs.
Proof. simpl. f_equal. induction args as [|e es IH]; simpl; [done|]. by rewrite IH. Qed.

Lemma eval_list_app (ρ : env) es1 es2 :
  eval_list ρ (es1 ++ es2) = vs ← eval_list ρ es1; ws ← eval_list ρ es2; Some (vs ++ ws).
Proof.
  induction es1 as [|e es IH]; simpl; [by destruct (eval_list ρ es2)|].
  destruct (eval ρ e); simpl; [|done]. rewrite IH. destruct (eval_list ρ es); simpl; [|done].
  by destruct (eval_list ρ es2).
Qed.

Lemma eval_list_Forall2 (ρ : env) es vs :
  eval_list ρ es = Some vs <-> Forall2 (fun e v => eval ρ e = Some v) es vs.
Proof.
  revert vs. induction es as [|e es IH]; intros vs; simpl.
  - split; [intros [= <-]; constructor|by inversion 1].
  - split.
    + destruct (eval ρ e) as [v|] eqn:He; simpl; [|done]. destruct (eval_list ρ es) as [ws|] eqn:Hes; simpl; [|done].
      intros [= <-]. constructor; [done|]. by apply IH.
    + inversion 1 as [|? v ? ws Hv Hws]; subst. rewrite Hv. simpl. apply IH in Hws. by rewrite Hws.
Qed.

Definition grows (e : Expr) : Prop :=
  forall (ρ ρ' : env) v, ρ ⊆ ρ' -> eval ρ e = Some v -> eval ρ' e = Some v.

Lemma eval_list_grows es : Forall grows es ->
  forall (ρ ρ' : env) vs, ρ ⊆ ρ' -> eval_list ρ es = Some vs -> eval_list ρ' es = Some vs.
Proof.
  intros Hes ρ ρ' vs Hρ. rewrite !eval_list_Forall2. intros Hvs. revert Hes.
  induction Hvs as [|e v es vs He _ IH]; intros Hes; constructor.
  - apply Forall_cons in Hes as [Hg _]. by apply (Hg ρ).
  - apply IH. by apply Forall_cons in Hes as [_ Hes].
Qed.

(** What an expression evaluates to depends on no more than it needs. *)
Lemma eval_grows e : grows e.
Proof.
  induction e as [| | |c| | | |kind e IH|kind l IHl r IHr| | | | | | |c IHc t IHt e IHe| | |name e1 IH1 e2 IH2
    |f args Hargs ty tys| | | | |e IH name input ty| |]; intros ρ ρ' v Hρ; try done.
  - simpl. intros Hl. by eapply lookup_weaken.
  - simpl. destruct (eval ρ e) as [x|] eqn:He; simpl; [|done]. by rewrite (IH ρ ρ' x Hρ He).
  - simpl. specialize (IHl ρ ρ'). specialize (IHr ρ ρ').
    destruct (eval ρ l) as [x|]; [rewrite (IHl x Hρ eq_refl)|by destruct kind].
    destruct (eval ρ r) as [y|]; [rewrite (IHr y Hρ eq_refl); done|].
    destruct kind; try done; destruct x as [|[]| |]; done.
  - simpl. specialize (IHc ρ ρ'). destruct (eval ρ c) as [x|]; [rewrite (IHc x Hρ eq_refl)|done].
    destruct x as [|[]| |]; try done; [by apply IHt|by apply IHe].
  - simpl. destruct (eval ρ e1) as [x|] eqn:He; simpl; [|done]. rewrite (IH1 ρ ρ' x Hρ He). simpl.
    apply IH2. by apply insert_mono.
  - rewrite !eval_FuncApp. apply list_all_Forall in Hargs.
    destruct (eval_list ρ args) as [vs|] eqn:Hvs; simpl; [|done].
    by rewrite (eval_list_grows args Hargs ρ ρ' vs Hρ Hvs).
  - simpl. destruct (eval ρ e) as [x|] eqn:He; simpl; [|done]. by rewrite (IH ρ ρ' x Hρ He).
Qed.

Lemma eval_list_weaken es (ρ ρ' : env) vs : ρ ⊆ ρ' -> eval_list ρ es = Some vs -> eval_list ρ' es = Some vs.
Proof. apply eval_list_grows, Forall_forall. intros e _. apply eval_grows. Qed.
End eval_facts.

(** ** The value of an expression after reification *)
Section denotes.
Context {VM : ViperModel}.
Abbreviation val := (value domain_value).
Abbreviation env := (gmap string val).
Variable m : gmap string Expr.

Definition denotes (ρ : env) (e : Expr) (v : val) : Prop := eval ρ (reify m e) = Some v.
Definition denote_all (ρ : env) (es : list Expr) (vs : list val) : Prop := Forall2 (denotes ρ) es vs.

(** Every variable of the reified expression is bound in [ρ]. *)
Definition in_scope (ρ : env) (e : Expr) : Prop := free_vars (reify m e) ⊆ dom ρ.

Lemma denotes_grows ρ ρ' e v : ρ ⊆ ρ' -> denotes ρ e v -> denotes ρ' e v.
Proof. apply eval_grows. Qed.

Lemma eval_reified_list ρ es :
  Forall (fun e => forall ρ v, eval ρ e = Some v -> eval ρ (reify m e) = Some v) es ->
  forall vs, eval_list ρ es = Some vs -> eval_list ρ (map (reify m) es) = Some vs.
Proof.
  induction 1 as [|e es He _ IH]; simpl; intros vs; [done|].
  destruct (eval ρ e) as [v|] eqn:Hv; simpl; [|done]. rewrite (He _ _ Hv). simpl.
  destruct (eval_list ρ es) as [ws|] eqn:Hws; simpl; [|done]. by rewrite (IH ws eq_refl).
Qed.

(** A lazy node has no value, so reification keeps the values there are. *)
Lemma eval_denotes e : forall ρ v, eval ρ e = Some v -> denotes ρ e v.
Proof.
  unfold denotes. induction e as [| | |c| | | |kind e IH|kind l IHl r IHr| | | | | | |c IHc t IHt e IHe| | |name e1 IH1 e2 IH2
    |f args Hargs ty tys| | | | |e IH name input ty| |]; intros ρ v; try done.
  - simpl. destruct (eval ρ e) as [x|] eqn:He; simpl; [|done]. by rewrite (IH ρ x He).
  - simpl. specialize (IHl ρ). specialize (IHr ρ).
    destruct (eval ρ l) as [x|]; [rewrite (IHl x eq_refl)|by destruct kind].
    destruct (eval ρ r) as [y|]; [rewrite (IHr y eq_refl); done|].
    destruct kind; try done; destruct x as [|[]| |]; done.
  - simpl. specialize (IHc ρ). destruct (eval ρ c) as [x|]; [rewrite (IHc x eq_refl)|done].
    destruct x as [|[]| |]; try done; [by apply IHt|by apply IHe].
  - simpl. destruct (eval ρ e1) as [x|] eqn:He; simpl; [|done]. rewrite (IH1 ρ x He). simpl. apply IH2.
  - cbn [reify]. rewrite !eval_FuncApp. apply list_all_Forall in Hargs.
    destruct (eval_list ρ args) as [vs|] eqn:Hvs; simpl; [|done].
    by rewrite (eval_reified_list ρ args Hargs vs Hvs).
  - simpl. destruct (eval ρ e) as [x|] eqn:He; simpl; [|done]. by rewrite (IH ρ x He).
Qed.

Lemma eval_list_denote_all ρ es vs : eval_list ρ es = Some vs -> denote_all ρ es vs.
Proof.
  rewrite eval_list_Forall2. intros H. eapply Forall2_impl; [exact H|]. intros. by apply eval_denotes.
Qed.

Lemma denotes_FuncApp ρ f args ty tys vs w :
  denote_all ρ args vs -> viper_fun f vs = Some w -> denotes ρ (FuncApp f args ty tys) w.
Proof.
  intros Hargs Hf. unfold denotes. cbn [reify]. rewrite eval_FuncApp.
  assert (eval_list ρ (map (reify m) args) = Some vs) as ->; [|done].
  apply eval_list_Forall2. by apply Forall2_fmap_l.
Qed.

Lemma denotes_AdtDestructor ρ e name input ty v w :
  denotes ρ e v -> viper_fun name [v] = Some w -> denotes ρ (AdtDestructor e name input ty) w.
Proof. unfold denotes. intros He Hf. simpl. by rewrite He. Qed.

Lemma denotes_Let ρ name e1 e2 v w :
  denotes ρ e1 v -> denotes (<[name := v]> ρ) e2 w -> denotes ρ (Let name e1 e2) w.
Proof. unfold denotes. intros H1 H2. simpl. by rewrite H1. Qed.

Lemma denotes_Ternary ρ c t e (b : bool) w :
  denotes ρ c (VBool b) -> denotes ρ (if b then t else e) w -> denotes ρ (Ternary c t e) w.
Proof. unfold denotes. intros Hc Hw. simpl. rewrite Hc. by destruct b. Qed.

Lemma denotes_eq ρ l r v w :
  denotes ρ l v -> denotes ρ r w -> denotes ρ (mk_eq_expr l r) (VBool (bool_decide (v = w))).
Proof. unfold denotes. intros Hl Hr. simpl. by rewrite Hl, Hr. Qed.

Lemma in_scope_args ρ f args ty tys : in_scope ρ (FuncApp f args ty tys) <-> Forall (in_scope ρ) args.
Proof.
  unfold in_scope. cbn [reify free_vars]. rewrite map_map, Forall_forall. split.
  - intros H e He x Hx. apply H, elem_of_unions. exists (free_vars (reify m e)). split; [|done].
    apply list_elem_of_fmap. by exists e.
  - intros H x (s & (e & -> & He)%list_elem_of_fmap & Hx)%elem_of_unions. by apply (H e He).
Qed.

Lemma in_scope_Let ρ name e1 e2 v :
  in_scope ρ (Let name e1 e2) <-> in_scope ρ e1 /\ in_scope (<[name := v]> ρ) e2.
Proof.
  unfold in_scope. cbn [reify free_vars]. rewrite dom_insert. split.
  - intros H. split; [set_solver|]. intros x Hx. destruct (decide (x = name)); set_solver.
  - intros [H1 H2] x. rewrite elem_of_union, elem_of_difference, elem_of_singleton.
    intros [Hx|[Hx Hne]]; [by apply H1|]. specialize (H2 x Hx). set_solver.
Qed.

Lemma in_scope_Ternary ρ c t e :
  in_scope ρ (Ternary c t e) <-> in_scope ρ c /\ in_scope ρ t /\ in_scope ρ e.
Proof. unfold in_scope. cbn [reify free_vars]. set_solver. Qed.

Lemma in_scope_BinOp ρ k l r : in_scope ρ (BinOp k l r) <-> in_scope ρ l /\ in_scope ρ r.
Proof. unfold in_scope. cbn [reify free_vars]. set_solver. Qed.
End denotes.
