(* ===== verification/TyDomain.v ===== *)
(** * Functions and domains of type encoders

    Function names with their result types, and [DomainBuilder] of
    [prusti-encoder/src/encoders/ty/pure.rs], which collects the functions and
    axioms of the domain of a type; [prusti-encoder/src/encoders/ty/interpretation]:
    [bitvec.rs], the domains of bit vectors that floats are made from, and [float.rs],
    the functions of a float type with their interpretation in the solver. *)
From S2P Require Import Prelude Vir VirMake VirProgram VirInt.

(** [FunctionIdn]: a function name with its result type. *)
Record FunctionIdn := { idn_name : string; idn_result : TypeKind }.

Definition call (f : FunctionIdn) (args : list Expr) : Expr :=
  FuncApp (idn_name f) args (idn_result f) [].

(** A destructor of an algebraic data type. *)
Record AdtDestructorData := { destr_name : string; destr_input : TypeKind; destr_ty : TypeKind }.

Definition destr_call (d : AdtDestructorData) (e : Expr) : Expr :=
  AdtDestructor e (destr_name d) (destr_input d) (destr_ty d).

Definition mk_domain_function (f : FunctionIdn) (args : list TypeKind) (unique : bool)
    (interpretation : option string) : DomainFunctionData :=
  {| dfun_unique := unique; dfun_name := idn_name f; dfun_args := args; dfun_ret := idn_result f;
     dfun_interpretation := interpretation |}.

(** The name and the type of the encoded type, and what was pushed so far. *)
Record DomainBuilder := {
  builder_name : string;
  builder_self_type : TypeKind;
  builder_axioms : list DomainAxiomGenData;
  builder_functions : list DomainFunctionData;
  builder_interpretation : option (list BackendInterpretationPair);
}.

(** A function without interpretation, or one of the solver. *)
Definition backend_func (name : string) (args : list TypeKind) (ret : TypeKind) (interpretation : option string)
    (b : DomainBuilder) : FunctionIdn * DomainBuilder :=
  let ident := {| idn_name := builder_name b +:+ "_" +:+ name; idn_result := ret |} in
  (ident,
   {| builder_name := builder_name b; builder_self_type := builder_self_type b;
      builder_axioms := builder_axioms b;
      builder_functions := builder_functions b ++ [mk_domain_function ident args false interpretation];
      builder_interpretation := builder_interpretation b |}).

Definition builder_function (name : string) (args : list TypeKind) (ret : TypeKind) (b : DomainBuilder) :
    FunctionIdn * DomainBuilder :=
  backend_func name args ret None b.

Definition builder_axiom (name : string) (e : Expr) (b : DomainBuilder) : DomainBuilder :=
  {| builder_name := builder_name b; builder_self_type := builder_self_type b;
     builder_axioms := builder_axioms b
       ++ [{| axiom_name := builder_name b +:+ "_ax_" +:+ name; axiom_expr := e |}];
     builder_functions := builder_functions b; builder_interpretation := builder_interpretation b |}.

Definition set_interpretation (interp : list BackendInterpretationPair) (b : DomainBuilder) : DomainBuilder :=
  {| builder_name := builder_name b; builder_self_type := builder_self_type b;
     builder_axioms := builder_axioms b; builder_functions := builder_functions b;
     builder_interpretation := Some interp |}.

(** ** Bit vectors *)
Inductive BitVecSize := BitVec16 | BitVec32 | BitVec64 | BitVec128.

Record BitVecDomain := { bv_domain : TypeKind; bv_from_int : FunctionIdn }.

Definition bitvec_domain_name (size : BitVecSize) : string :=
  match size with
  | BitVec16 => "s_BitVec_16"
  | BitVec32 => "s_BitVec_32"
  | BitVec64 => "s_BitVec_64"
  | BitVec128 => "s_BitVec_128"
  end.

Definition bitvec_encode {E} (size : BitVecSize) : outcome E (DomainGenData * BitVecDomain) :=
  let domain_name := bitvec_domain_name size in
  let self_type := TDomain domain_name [] in
  let from_int := {| idn_name := domain_name +:+ "_from_int"; idn_result := self_type |} in
  let from_int_data := mk_domain_function from_int [TInt] false
    (Some match size with
          | BitVec16 => "(_ int2bv 16)"
          | BitVec32 => "(_ int2bv 32)"
          | BitVec64 => "(_ int2bv 64)"
          | BitVec128 => "(_ int2bv 128)"
          end) in
  domain ← mk_domain domain_name [] [] [from_int_data]
    (Some match size with
          | BitVec16 => [("SMTLIB", "(_ BitVec 16)"); ("Boogie", "bv16")]
          | BitVec32 => [("SMTLIB", "(_ BitVec 32)"); ("Boogie", "bv32")]
          | BitVec64 => [("SMTLIB", "(_ BitVec 64)"); ("Boogie", "bv64")]
          | BitVec128 => [("SMTLIB", "(_ BitVec 128)"); ("Boogie", "bv128")]
          end);
  Ok (domain, {| bv_domain := self_type; bv_from_int := from_int |}).

(** ** Floats *)
Record FloatDomainData := {
  float_prim_to_snap : FunctionIdn;
  from_bv : FunctionIdn;
  fp_eq : FunctionIdn; fp_add : FunctionIdn; fp_sub : FunctionIdn; fp_mul : FunctionIdn;
  fp_div : FunctionIdn; fp_trunc : FunctionIdn; fp_is_nan : FunctionIdn; fp_is_infinite : FunctionIdn;
  fp_lt : FunctionIdn; fp_leq : FunctionIdn; fp_gt : FunctionIdn; fp_geq : FunctionIdn;
  fp_neg : FunctionIdn; fp_abs : FunctionIdn; fp_to_real : FunctionIdn;
}.

Definition float_interpretation (float : FloatTy) : list BackendInterpretationPair :=
  match float with
  | F16 => [("SMTLIB", "(_ FloatingPoint 5 11)"); ("Boogie", "float11e5")]
  | F32 => [("SMTLIB", "(_ FloatingPoint 8 24)"); ("Boogie", "float24e8")]
  | F64 => [("SMTLIB", "(_ FloatingPoint 11 53)"); ("Boogie", "float53e11")]
  | F128 => [("SMTLIB", "(_ FloatingPoint 15 113)"); ("Boogie", "float113e15")]
  end%string.

Definition float_bits (float : FloatTy) : BitVecSize :=
  match float with F16 => BitVec16 | F32 => BitVec32 | F64 => BitVec64 | F128 => BitVec128 end.

Definition to_fp (float : FloatTy) : string :=
  match float with
  | F16 => "(_ to_fp 5 11)"
  | F32 => "(_ to_fp 8 24)"
  | F64 => "(_ to_fp 11 53)"
  | F128 => "(_ to_fp 15 113)"
  end.

(** [forall i :: {snap(i)} snap(i) == bv(i) && to_real(snap(i)) == to_real(bv(i))] *)
Definition prim_to_snap_axiom (prim_to_snap from_bv from_int fp_to_real : FunctionIdn) : Expr :=
  let i := {| decl_name := "i"; decl_ty := TInt |} in
  let snap := call prim_to_snap [mk_local_ex i] in
  let bv := call from_bv [call from_int [mk_local_ex i]] in
  Forall_ [i] [[snap]] (BinOp And (mk_eq_expr snap bv) (mk_eq_expr (call fp_to_real [snap]) (call fp_to_real [bv]))).

Definition ty_pure_float {E} (float : FloatTy) (prim_to_snap : FunctionIdn) (b : DomainBuilder) :
    outcome E (FloatDomainData * DomainBuilder) :=
  let self := builder_self_type b in
  let b := set_interpretation (float_interpretation float) b in
  let '(fp_eq, b) := backend_func "eq" [self; self] TBool (Some "fp.eq") b in
  let '(fp_add, b) := backend_func "add" [self; self] self (Some "fp.add RNE") b in
  let '(fp_sub, b) := backend_func "sub" [self; self] self (Some "fp.sub RNE") b in
  let '(fp_mul, b) := backend_func "mul" [self; self] self (Some "fp.mul RNE") b in
  let '(fp_div, b) := backend_func "div" [self; self] self (Some "fp.div RNE") b in
  let '(fp_trunc, b) := backend_func "trunc" [self] self (Some "fp.roundToIntegral RTZ") b in
  let '(fp_is_nan, b) := backend_func "is_nan" [self] TBool (Some "fp.isNaN") b in
  let '(fp_is_infinite, b) := backend_func "is_infinite" [self] TBool (Some "fp.isInfinite") b in
  let '(fp_lt, b) := backend_func "lt" [self; self] TBool (Some "fp.lt") b in
  let '(fp_leq, b) := backend_func "leq" [self; self] TBool (Some "fp.leq") b in
  let '(fp_geq, b) := backend_func "geq" [self; self] TBool (Some "fp.geq") b in
  let '(fp_gt, b) := backend_func "gt" [self; self] TBool (Some "fp.gt") b in
  let '(fp_neg, b) := backend_func "neg" [self] self (Some "fp.neg") b in
  let '(fp_abs, b) := backend_func "abs" [self] self (Some "fp.abs") b in
  '(_, bit_vec) ← bitvec_encode (float_bits float);
  let '(from_bv, b) := backend_func "from_bv" [bv_domain bit_vec] self (Some (to_fp float)) b in
  let '(fp_to_real, b) := backend_func "to_real" [self] TPerm (Some "fp.to_real") b in
  let b := builder_axiom "prim_to_snap"
             (prim_to_snap_axiom prim_to_snap from_bv (bv_from_int bit_vec) fp_to_real) b in
  Ok ({| float_prim_to_snap := prim_to_snap; from_bv := from_bv; fp_eq := fp_eq; fp_add := fp_add;
         fp_sub := fp_sub; fp_mul := fp_mul; fp_div := fp_div; fp_trunc := fp_trunc;
         fp_is_nan := fp_is_nan; fp_is_infinite := fp_is_infinite; fp_lt := fp_lt; fp_leq := fp_leq;
         fp_gt := fp_gt; fp_geq := fp_geq; fp_neg := fp_neg; fp_abs := fp_abs; fp_to_real := fp_to_real |}, b).
