(* ===== verification/TyData.v ===== *)
(** * Types by their kind

    [prusti-encoder/src/encoders/ty/data.rs]: every encoder of types produces a
    [TyData], a tree with one constructor per kind of type, whose data the encoder
    chooses; [zip] pairs the trees that two encoders made of the same type.
    [ty/rust_ty.rs]: the types of the compiler in this form, with their generic
    parameters ([ty/generics/params.rs]). *)
From S2P Require Import Prelude Names Vir VirMake VirProgram VirInt TyDomain.

(** ** The data of an encoder *)
Record TyDatas := {
  TyD : Type;
  ParamD : Type;
  OpaqueD : Type;
  ArrayD : Type;
  PrimitiveD : Type;
  ImmRefD : Type;
  MutRefD : Type;
  RawD : Type;
  StructD : Type;
  FieldD : Type;
  EnumD : Type;
  VariantD : Type;
  BuiltinD : Type;
}.

Record ArrayData (D : TyDatas) := { array_data : ArrayD D; slice : bool }.
Record StructData (D : TyDatas) := { struct_data : StructD D; fields : list (FieldD D) }.
Record VariantData (D : TyDatas) := { variant_data : VariantD D; inner : StructData D }.
Record EnumData (D : TyDatas) := { enum_data : EnumD D; variants : list (VariantData D) }.
Arguments array_data {D} _. Arguments slice {D} _.
Arguments struct_data {D} _. Arguments fields {D} _.
Arguments variant_data {D} _. Arguments inner {D} _.
Arguments enum_data {D} _. Arguments variants {D} _.

Module Ty.
Inductive TySpecifics (D : TyDatas) :=
| ArrayLike (a : ArrayData D)
| Param (d : ParamD D)
| Opaque (d : OpaqueD D)
| Primitive (d : PrimitiveD D)
| ImmRef (d : ImmRefD D)
| MutRef (d : MutRefD D)
| Raw (d : RawD D)
| StructLike (s : StructData D)
| EnumLike (e : EnumData D)
| Builtin (d : BuiltinD D).
Arguments ArrayLike {D} a. Arguments Param {D} d. Arguments Opaque {D} d.
Arguments Primitive {D} d. Arguments ImmRef {D} d. Arguments MutRef {D} d.
Arguments Raw {D} d. Arguments StructLike {D} s. Arguments EnumLike {D} e.
Arguments Builtin {D} d.
End Ty.

Record TyData (D : TyDatas) := { ty_data : TyD D; ty_specifics : Ty.TySpecifics D }.
Arguments ty_data {D} _. Arguments ty_specifics {D} _.

Definition is_param {D} (s : Ty.TySpecifics D) : bool :=
  match s with Ty.Param _ => true | _ => false end.

Definition expect_prim {E D} (t : TyData D) : outcome E (PrimitiveD D) :=
  match ty_specifics t with Ty.Primitive d => Ok d | _ => Panic "expected primitive" end.

(** ** Zipping *)
Definition zip_datas (D1 D2 : TyDatas) : TyDatas :=
  {| TyD := TyD D1 * TyD D2; ParamD := ParamD D1 * ParamD D2; OpaqueD := OpaqueD D1 * OpaqueD D2;
     ArrayD := ArrayD D1 * ArrayD D2; PrimitiveD := PrimitiveD D1 * PrimitiveD D2;
     ImmRefD := ImmRefD D1 * ImmRefD D2; MutRefD := MutRefD D1 * MutRefD D2; RawD := RawD D1 * RawD D2;
     StructD := StructD D1 * StructD D2; FieldD := FieldD D1 * FieldD D2; EnumD := EnumD D1 * EnumD D2;
     VariantD := VariantD D1 * VariantD D2; BuiltinD := BuiltinD D1 * BuiltinD D2 |}.

Section zips.
Context {E : Type} {D1 D2 : TyDatas}.
Abbreviation D12 := (zip_datas D1 D2).

Definition array_zip (a1 : ArrayData D1) (a2 : ArrayData D2) : outcome E (ArrayData D12) :=
  _ ← assert_that "assertion `left == right` failed" (Bool.eqb (slice a1) (slice a2));
  Ok {| array_data := (array_data a1, array_data a2) : ArrayD D12; slice := slice a1 |}.

Definition struct_zip (s1 : StructData D1) (s2 : StructData D2) : outcome E (StructData D12) :=
  _ ← assert_that "assertion `left == right` failed" (length (fields s1) =? length (fields s2))%nat;
  Ok {| struct_data := (struct_data s1, struct_data s2) : StructD D12;
        fields := zip (fields s1) (fields s2) : list (FieldD D12) |}.

Definition variant_zip (v1 : VariantData D1) (v2 : VariantData D2) : outcome E (VariantData D12) :=
  s ← struct_zip (inner v1) (inner v2);
  Ok {| variant_data := (variant_data v1, variant_data v2) : VariantD D12; inner := s |}.

Definition enum_zip (e1 : EnumData D1) (e2 : EnumData D2) : outcome E (EnumData D12) :=
  _ ← assert_that "assertion `left == right` failed" (length (variants e1) =? length (variants e2))%nat;
  vs ← collect (fun v => variant_zip v.1 v.2) (zip (variants e1) (variants e2));
  Ok {| enum_data := (enum_data e1, enum_data e2) : EnumD D12; variants := vs |}.

Definition specifics_zip (s1 : Ty.TySpecifics D1) (s2 : Ty.TySpecifics D2) :
    outcome E (Ty.TySpecifics D12) :=
  match s1, s2 with
  | Ty.Param d1, Ty.Param d2 => Ok (Ty.Param (D:=D12) (d1, d2))
  | Ty.Opaque d1, Ty.Opaque d2 => Ok (Ty.Opaque (D:=D12) (d1, d2))
  | Ty.ArrayLike a1, Ty.ArrayLike a2 => Ty.ArrayLike <$> array_zip a1 a2
  | Ty.Primitive d1, Ty.Primitive d2 => Ok (Ty.Primitive (D:=D12) (d1, d2))
  | Ty.ImmRef d1, Ty.ImmRef d2 => Ok (Ty.ImmRef (D:=D12) (d1, d2))
  | Ty.MutRef d1, Ty.MutRef d2 => Ok (Ty.MutRef (D:=D12) (d1, d2))
  | Ty.Raw d1, Ty.Raw d2 => Ok (Ty.Raw (D:=D12) (d1, d2))
  | Ty.StructLike s1, Ty.StructLike s2 => Ty.StructLike <$> struct_zip s1 s2
  | Ty.EnumLike e1, Ty.EnumLike e2 => Ty.EnumLike <$> enum_zip e1 e2
  | Ty.Builtin d1, Ty.Builtin d2 => Ok (Ty.Builtin (D:=D12) (d1, d2))
  | _, _ => Panic "Mismatched TySpecifics variants"
  end.

Definition ty_zip (t1 : TyData D1) (t2 : TyData D2) : outcome E (TyData D12) :=
  s ← specifics_zip (ty_specifics t1) (ty_specifics t2);
  Ok {| ty_data := (ty_data t1, ty_data t2) : TyD D12; ty_specifics := s |}.
End zips.

(** Two trees have the same shape: the same kinds, the same numbers of variants and
    fields. *)
Definition struct_like {D1 D2} (s1 : StructData D1) (s2 : StructData D2) : Prop :=
  length (fields s1) = length (fields s2).

Definition same_shape {D1 D2} (s1 : Ty.TySpecifics D1) (s2 : Ty.TySpecifics D2) : Prop :=
  match s1, s2 with
  | Ty.Param _, Ty.Param _ | Ty.Opaque _, Ty.Opaque _ | Ty.Primitive _, Ty.Primitive _
  | Ty.ImmRef _, Ty.ImmRef _ | Ty.MutRef _, Ty.MutRef _ | Ty.Raw _, Ty.Raw _
  | Ty.Builtin _, Ty.Builtin _ => True
  | Ty.ArrayLike a1, Ty.ArrayLike a2 => slice a1 = slice a2
  | Ty.StructLike s1, Ty.StructLike s2 => struct_like s1 s2
  | Ty.EnumLike e1, Ty.EnumLike e2 =>
      Forall2 (fun v1 v2 => struct_like (inner v1) (inner v2)) (variants e1) (variants e2)
  | _, _ => False
  end.

Section zip_lemmas.
Context {E : Type} {D1 D2 : TyDatas}.

Lemma struct_zip_Ok (s1 : StructData D1) (s2 : StructData D2) :
  struct_like s1 s2 -> struct_zip (E:=E) s1 s2
    = Ok {| struct_data := (struct_data s1, struct_data s2) : StructD (zip_datas D1 D2);
            fields := zip (fields s1) (fields s2) : list (FieldD (zip_datas D1 D2)) |}.
Proof. intros Hl. unfold struct_zip. by rewrite Hl, Nat.eqb_refl. Qed.

Lemma variant_zip_Ok (v1 : VariantData D1) (v2 : VariantData D2) :
  struct_like (inner v1) (inner v2) -> variant_zip (E:=E) v1 v2
    = Ok {| variant_data := (variant_data v1, variant_data v2) : VariantD (zip_datas D1 D2);
            inner := {| struct_data := (struct_data (inner v1), struct_data (inner v2)) : StructD (zip_datas D1 D2);
                        fields := zip (fields (inner v1)) (fields (inner v2)) : list (FieldD (zip_datas D1 D2)) |} |}.
Proof. intros Hl. unfold variant_zip. by rewrite struct_zip_Ok. Qed.

(** Two variants of the same shape zipped. *)
Definition zipped_variant (v1 : VariantData D1) (v2 : VariantData D2) : VariantData (zip_datas D1 D2) :=
  {| variant_data := (variant_data v1, variant_data v2) : VariantD (zip_datas D1 D2);
     inner := {| struct_data := (struct_data (inner v1), struct_data (inner v2)) : StructD (zip_datas D1 D2);
                 fields := zip (fields (inner v1)) (fields (inner v2)) : list (FieldD (zip_datas D1 D2)) |} |}.

Lemma enum_zip_Ok (e1 : EnumData D1) (e2 : EnumData D2) :
  Forall2 (fun v1 v2 => struct_like (inner v1) (inner v2)) (variants e1) (variants e2) ->
  enum_zip (E:=E) e1 e2
    = Ok {| enum_data := (enum_data e1, enum_data e2) : EnumD (zip_datas D1 D2);
            variants := zip_with zipped_variant (variants e1) (variants e2) |}.
Proof.
  intros Hl. unfold enum_zip. rewrite (Forall2_length _ _ _ Hl), Nat.eqb_refl. simpl.
  enough (collect (fun v => variant_zip (E:=E) v.1 v.2) (zip (variants e1) (variants e2))
    = Ok (zip_with zipped_variant (variants e1) (variants e2))) as -> by done.
  induction Hl as [|v1 v2 l1 l2 Hv _ IH]; [done|]. cbn [zip zip_with collect fst snd].
  rewrite variant_zip_Ok by done. cbn. by rewrite IH.
Qed.

Lemma specifics_zip_Ok (s1 : Ty.TySpecifics D1) (s2 : Ty.TySpecifics D2) :
  same_shape s1 s2 <-> exists s, specifics_zip (E:=E) s1 s2 = Ok s.
Proof.
  destruct s1 as [a1| | | | | | |s1|e1|], s2 as [a2| | | | | | |s2|e2|]; simpl;
    try (split; [done|by intros []]); try (split; [by eauto|done]).
  - unfold array_zip. destruct (Bool.eqb_spec (slice a1) (slice a2)); simpl; [naive_solver|].
    split; [done|by intros []].
  - split; [by intros ->%struct_zip_Ok; eauto|]. unfold struct_zip, struct_like.
    destruct (Nat.eqb_spec (length (fields s1)) (length (fields s2))); [done|by intros []].
  - split.
    + intros Hl%enum_zip_Ok. rewrite Hl. by eexists.
    + unfold enum_zip. generalize (variants e1) (variants e2); intros l1 l2. intros [s Hs]. inv_outcome.
      match goal with H : (_ =? _)%nat = true |- _ => apply Nat.eqb_eq in H; rename H into Hlen end.
      match goal with H : collect _ _ = Ok ?a |- _ =>
        rename a into vs; apply collect_Ok in H; rename H into Hc end.
      clear -Hlen Hc. revert l2 vs Hlen Hc.
      induction l1 as [|v1 l1 IH]; intros [|v2 l2] vs; try done.
      simpl. intros [= Hlen] Hc. inversion Hc as [|? ? ? ? Hv Hvs]; subst.
      constructor; [|eapply IH; [done|exact Hvs]].
      unfold variant_zip, struct_zip in Hv. inv_outcome. by apply Nat.eqb_eq.
Qed.
End zip_lemmas.
