(* ===== verification/Primitive.v ===== *)
(** * Snapshots of primitive types

    [prusti-encoder/src/encoders/ty/kinds/primitive.rs] and the primitive part
    of [ty/pure.rs]: the snapshot domain of an integer type with its
    constructor [cons], its projection [value] and the axioms emitted for
    them, the conversions between snapshots and native Viper values, and the
    encoding of constants from their bits. *)
From S2P Require Import Prelude Vir VirMake VirProgram VirSem VirInt TyDomain.
Local Open Scope Z_scope.

Record TyPurePrimDataInt := { int_prim_to_snap : FunctionIdn; int_snap_to_prim : FunctionIdn }.

Inductive TyPurePrimDataKind :=
| PrimBool
| PrimInt (i : TyPurePrimDataInt)
| PrimFloat (f : FloatDomainData).

Definition prim_type (k : TyPurePrimDataKind) : TypeKind :=
  match k with PrimBool => TBool | PrimInt _ | PrimFloat _ => TInt end.

Definition prim_to_snap (k : TyPurePrimDataKind) (prim : Expr) : Expr :=
  match k with
  | PrimBool => prim
  | PrimInt i => call (int_prim_to_snap i) [prim]
  | PrimFloat f => call (float_prim_to_snap f) [prim]
  end.

Definition snap_to_prim {E} (k : TyPurePrimDataKind) (snap : Expr) : outcome E Expr :=
  match k with
  | PrimBool => Ok snap
  | PrimInt i => Ok (call (int_snap_to_prim i) [snap])
  | PrimFloat _ => Panic "float snapshots have no primitive value"
  end.

(** ** The domain of a primitive type *)

Definition in_bounds (min max e : Expr) : Expr :=
  BinOp And (BinOp CmpLe min e) (BinOp CmpLe e max).

Section axioms.
Variables (cons_ident value_ident : FunctionIdn) (self : TypeKind) (min max : Expr).

Definition s_decl : LocalDecl := {| decl_name := "s"; decl_ty := self |}.
Definition value_decl : LocalDecl := {| decl_name := "value"; decl_ty := TInt |}.
Definition value_of_s : Expr := call value_ident [mk_local_ex s_decl].
Definition cons_of_value : Expr := call cons_ident [mk_local_ex value_decl].
Definition value_round_trip : Expr :=
  mk_eq_expr (call value_ident [cons_of_value]) (mk_local_ex value_decl).

(** [forall s :: {value(s)} cons(value(s)) == s] *)
Definition cons_axiom : Expr :=
  Forall_ [s_decl] [[value_of_s]]
    (mk_eq_expr (call cons_ident [value_of_s]) (mk_local_ex s_decl)).

(** [forall s :: {value(s)} min <= value(s) && value(s) <= max] *)
Definition bounds_axiom : Expr :=
  Forall_ [s_decl] [[value_of_s]] (in_bounds min max value_of_s).

(** [forall value :: {cons(value)} (min <= value && value <= max) ==>
    value(cons(value)) == value] *)
Definition value_axiom : Expr :=
  Forall_ [value_decl] [[cons_of_value]]
    (BinOp Implies (in_bounds min max (mk_local_ex value_decl)) value_round_trip).

(** [forall value :: {cons(value)} value(cons(value)) == value], for [char] *)
Definition char_value_axiom : Expr :=
  Forall_ [value_decl] [[cons_of_value]] value_round_trip.
End axioms.

Section ty_pure.
Context {H : Host} {E : Type}.
Definition ty_pure (k : TyKind) (b : DomainBuilder) :
    outcome E (TyPurePrimDataKind * DomainBuilder) :=
  match k with
  | TyBool => Ok (PrimBool, b)
  | _ =>
    let self := builder_self_type b in
    let '(cons_ident, b) := builder_function "cons" [TInt] self b in
    match k with
    | TyFloat float => '(data, b) ← ty_pure_float float cons_ident b; Ok (PrimFloat data, b)
    | TyChar | TyInt _ | TyUint _ =>
        let '(value_ident, b) := builder_function "value" [self] TInt b in
        let b := builder_axiom "cons" (cons_axiom cons_ident value_ident self) b in
        b ← match k with
            | TyInt _ | TyUint _ =>
                min ← get_min_int k;
                max ← get_max_int k;
                let b := builder_axiom "bounds" (bounds_axiom value_ident self min max) b in
                Ok (builder_axiom "value" (value_axiom cons_ident value_ident min max) b)
            | _ => Ok (builder_axiom "value" (char_value_axiom cons_ident value_ident) b)
            end;
        Ok (PrimInt {| int_prim_to_snap := cons_ident; int_snap_to_prim := value_ident |}, b)
    | _ => unreachable
    end
  end.
End ty_pure.

(** ** What the axioms give *)
Section represents.
Context {VM : ViperModel}.

Definition axioms_hold (b : DomainBuilder) : Prop :=
  Forall (fun ax => axiom_holds (axiom_expr ax)) (builder_axioms b).

(** Domain functions are total and typed. *)
Definition fun_typed (f : FunctionIdn) (arg_ty : TypeKind) : Prop :=
  forall v, value_ty v = arg_ty ->
    exists w, viper_fun (idn_name f) [v] = Some w /\ value_ty w = idn_result f.

(** [represents i v z]: [v] is the snapshot of the machine integer [z]. *)
Definition represents (i : TyPurePrimDataInt) (v : value domain_value) (z : Z) : Prop :=
  value_ty v = idn_result (int_prim_to_snap i)
  /\ viper_fun (idn_name (int_snap_to_prim i)) [v] = Some (VInt z).

(** The interface the operator encoders rely on: [cons] builds a snapshot of
    every integer of the type, and a snapshot stands for exactly one. *)
Class IntSnapshots (i : TyPurePrimDataInt) (ok : Z -> Prop) : Prop := {
  snap_of_prim ρ e z :
    eval ρ e = Some (VInt z) -> ok z ->
    exists v, eval ρ (prim_to_snap (PrimInt i) e) = Some v /\ represents i v z;
  represents_ok v z : represents i v z -> ok z;
  represents_inj v w z : represents i v z -> represents i w z -> v = w;
}.

Lemma eval_call ρ f e v : eval ρ e = Some v -> eval ρ (call f [e]) = viper_fun (idn_name f) [v].
Proof. intros He. simpl. by rewrite He. Qed.

Lemma eval_snap_to_prim ρ i e v z :
  eval ρ e = Some v -> represents i v z ->
  eval ρ (call (int_snap_to_prim i) [e]) = Some (VInt z).
Proof. intros He [_ Hz]. by rewrite (eval_call _ _ _ _ He). Qed.

Lemma eval_eq_true ρ a b :
  eval ρ (mk_eq_expr a b) = Some (VBool true) ->
  exists v, eval ρ a = Some v /\ eval ρ b = Some v.
Proof.
  simpl. destruct (eval ρ a) as [v|], (eval ρ b) as [w|]; simpl; try done.
  intros [= Heq%bool_decide_eq_true]. subst. eauto.
Qed.

Lemma eval_in_bounds ρ min max e lo hi z b :
  eval ρ min = Some (VInt lo) -> eval ρ max = Some (VInt hi) -> eval ρ e = Some (VInt z) ->
  eval ρ (in_bounds min max e) = Some (VBool b) <-> b = ((lo <=? z) && (z <=? hi)).
Proof.
  intros Hlo Hhi He. simpl. rewrite Hlo, Hhi, He; simpl.
  destruct (lo <=? z); simpl; split; congruence.
Qed.
End represents.

Section axiom_meaning.
Context {VM : ViperModel} (cons_ident value_ident : FunctionIdn) (self : TypeKind).

Lemma cons_axiom_meaning v :
  axiom_holds (cons_axiom cons_ident value_ident self) -> value_ty v = self ->
  exists w, viper_fun (idn_name value_ident) [v] = Some w
         /\ viper_fun (idn_name cons_ident) [w] = Some v.
Proof.
  intros Hax Hv. apply Hax in Hv. simpl in Hv. rewrite lookup_singleton_eq in Hv. simpl in Hv.
  destruct (viper_fun _ [v]) as [w|] eqn:Ew; simpl in Hv; [|done]. exists w. split; [done|].
  destruct (viper_fun (idn_name cons_ident) [w]) as [u|]; simpl in Hv; [|done].
  by injection Hv as ->%bool_decide_eq_true.
Qed.

Lemma bounds_axiom_meaning v z min max lo hi :
  (forall ρ, eval ρ min = Some (VInt lo)) -> (forall ρ, eval ρ max = Some (VInt hi)) ->
  axiom_holds (bounds_axiom value_ident self min max) -> value_ty v = self ->
  viper_fun (idn_name value_ident) [v] = Some (VInt z) -> lo <= z <= hi.
Proof.
  intros Hlo Hhi Hax Hv Hz. apply Hax in Hv.
  apply (eval_in_bounds _ _ _ _ lo hi z) in Hv; [lia|done|done|].
  simpl. by rewrite lookup_singleton_eq.
Qed.

Lemma value_axiom_meaning z min max lo hi v :
  (forall ρ, eval ρ min = Some (VInt lo)) -> (forall ρ, eval ρ max = Some (VInt hi)) ->
  axiom_holds (value_axiom cons_ident value_ident min max) -> lo <= z <= hi ->
  viper_fun (idn_name cons_ident) [VInt z] = Some v ->
  viper_fun (idn_name value_ident) [v] = Some (VInt z).
Proof.
  intros Hlo Hhi Hax Hz Hv. specialize (Hax (VInt z) eq_refl).
  change (decl_name _) with "value" in Hax.
  assert (eval {["value" := VInt z]} (in_bounds min max (mk_local_ex value_decl))
          = Some (VBool true)) as Hb.
  { apply (eval_in_bounds _ _ _ _ lo hi z); [done | done | | lia].
    apply lookup_singleton_eq. }
  cbn [eval] in Hax. rewrite Hb in Hax.
  destruct (eval _ (value_round_trip _ _)) as [[|[]| |]|] eqn:Heq; try done.
  apply eval_eq_true in Heq as (w & Hw1 & Hw2).
  simpl in Hw1, Hw2. rewrite lookup_singleton_eq in Hw1, Hw2. simpl in Hw1.
  rewrite Hv in Hw1. simpl in Hw1. congruence.
Qed.
End axiom_meaning.

(** The axioms emitted for an integer type make its snapshots faithful. *)
Section ty_pure_sound.
Context {H : Host} {VM : ViperModel} {E : Type}.

Lemma ty_pure_int k d b b' i :
  @get_int_data H E k = Ok d -> k <> TyChar ->
  ty_pure (E:=E) k b = Ok (PrimInt i, b') ->
  idn_result (int_prim_to_snap i) = builder_self_type b /\
  exists min max, (forall ρ, eval ρ min = Some (VInt (int_min d))) /\
    (forall ρ, eval ρ max = Some (VInt (int_max d))) /\
    (axiom_expr <$> builder_axioms b') = (axiom_expr <$> builder_axioms b) ++
      [cons_axiom (int_prim_to_snap i) (int_snap_to_prim i) (builder_self_type b);
       bounds_axiom (int_snap_to_prim i) (builder_self_type b) min max;
       value_axiom (int_prim_to_snap i) (int_snap_to_prim i) min max].
Proof.
  intros Hk Hchar Hty.
  destruct (get_min_int_eval k d Hk) as (min & Hmin & Hmin_e).
  destruct (get_max_int_eval k d Hk) as (max & Hmax & Hmax_e).
  unfold ty_pure in Hty. rewrite Hmin, Hmax in Hty.
  destruct k; try discriminate; try done; simpl in Hty; injection Hty as <- <-; simpl;
    (split; [done|]); exists min, max; rewrite !fmap_app, <- !app_assoc; done.
Qed.

Lemma ty_pure_faithful k d b b' i :
  @get_int_data H E k = Ok d -> k <> TyChar ->
  ty_pure (E:=E) k b = Ok (PrimInt i, b') ->
  fun_typed (int_prim_to_snap i) TInt ->
  axioms_hold b' -> IntSnapshots i (in_range d).
Proof.
  intros Hk Hchar Hty Hcons Hax.
  destruct (ty_pure_int _ _ _ _ _ Hk Hchar Hty) as (Hself & min & max & Hmin & Hmax & Haxs).
  apply (Forall_fmap axiom_expr axiom_holds) in Hax. rewrite Haxs in Hax.
  rewrite Forall_app, !Forall_cons in Hax. destruct Hax as (_ & Hc & Hbd & Hv & _).
  split.
  - intros ρ e z He Hz. simpl. rewrite He; simpl.
    destruct (Hcons (VInt z) eq_refl) as (v & Hv' & Hvty). rewrite Hv'.
    exists v. split; [done|]. split; [done|].
    eapply value_axiom_meaning; [exact Hmin|exact Hmax| | |]; done.
  - intros v z [Hvty Hz]. rewrite Hself in Hvty.
    eapply bounds_axiom_meaning; [exact Hmin|exact Hmax| | |]; done.
  - intros v w z [Hvty Hz] [Hwty Hw]. rewrite Hself in Hvty, Hwty.
    destruct (cons_axiom_meaning _ _ _ v Hc Hvty) as (x & Hx1 & Hx2).
    destruct (cons_axiom_meaning _ _ _ w Hc Hwty) as (y & Hy1 & Hy2). congruence.
Qed.
End ty_pure_sound.

(** Applications of a function to fine arguments are fine. *)
Lemma fine_call m f args : forallb (fine m) args = true -> fine m (call f args) = true.
Proof.
  unfold fine, call. simpl. intros Hargs.
  assert (forallb (checkable m) args = true /\ forallb (well_bound m) args = true) as [-> ->];
    [|done]. rewrite !forallb_forall in *.
  split; intros e He; apply Hargs, andb_true_iff in He as [??]; done.
Qed.

Lemma fine_prim_to_snap m k e : fine m e = true -> fine m (prim_to_snap k e) = true.
Proof. intros He. destruct k; simpl; [done|apply fine_call; simpl; by rewrite He..]. Qed.
#[export] Hint Resolve fine_prim_to_snap : prusti.

(** ** A concrete model

    The snapshot domain of [i32] interpreted by the [i32] range itself, with
    one tuple domain: the axioms and interfaces above are satisfiable. *)
Module i32_model.
Definition data : Z * bool := (32, true).

#[export] Instance in_range_dec d z : Decision (in_range d z).
Proof. unfold in_range. apply _. Defined.

Definition i32_value : Type := { n : Z | bool_decide (in_range data n) = true }.

#[export] Instance i32_value_eq_dec : EqDecision i32_value.
Proof.
  intros [x Hx] [y Hy]. destruct (decide (x = y)) as [->|Hne].
  - left. by rewrite (proof_irrel Hx Hy).
  - right. by intros [=].
Defined.

Lemma wrap_ok z : bool_decide (in_range data (wrap data z)) = true.
Proof. apply bool_decide_eq_true, wrap_in_range. unfold supported. simpl. lia. Qed.

Definition of_Z (z : Z) : i32_value := wrap data z ↾ wrap_ok z.

Definition int_prim : TyPurePrimDataInt :=
  {| int_prim_to_snap := {| idn_name := "s_Int_i32_cons"; idn_result := TDomain "s_Int_i32" [] |};
     int_snap_to_prim := {| idn_name := "s_Int_i32_value"; idn_result := TInt |} |}.

Definition interp (f : string) (args : list (value (i32_value + Z * bool))) :
    option (value (i32_value + Z * bool)) :=
  match args with
  | [VInt z] => if decide (f = "s_Int_i32_cons") then Some (VDom (inl (of_Z z))) else None
  | [VDom (inl s)] => if decide (f = "s_Int_i32_value") then Some (VInt (`s)) else None
  | [VDom (inl s); VBool b] =>
      if decide (f = "s_Tuple2_cons") then Some (VDom (inr (`s, b))) else None
  | _ => None
  end.

(** Euclidean division from the floored division of the standard library. *)
Definition ediv (a b : Z) : Z := Z.sgn b * (a / Z.abs b).

#[export] Instance model : ViperModel.
Proof.
  refine {| domain_value := i32_value + Z * bool;
            domain_value_ty v := match v with inl _ => TDomain "s_Int_i32" []
                                 | inr _ => TDomain "s_Tuple2" [] end;
            viper_fun := interp; viper_div := ediv; viper_mod a b := a mod Z.abs b |}.
  - intros a b Hb. unfold ediv. pose proof (Z.div_mod a (Z.abs b)). nia.
  - intros a b Hb. apply Z.mod_pos_bound. lia.
Defined.

#[export] Instance host : Host := {| pointer_bits := 64; pointer_bits_supported := or_intror (or_intror eq_refl) |}.

#[export] Instance snapshots : IntSnapshots int_prim (in_range data).
Proof.
  split.
  - intros ρ e z He Hz. simpl. rewrite He. simpl. eexists; split; [done|]. split; [done|].
    simpl. rewrite wrap_id; [done | unfold supported; simpl; lia | done].
  - intros [n|c|[[s Hs]|]|] z [Hty Hv]; try discriminate. simpl in Hv. injection Hv as <-.
    exact (bool_decide_eq_true_1 _ Hs).
  - intros [n|c|[[s Hs]|]|] [n'|c'|[[s' Hs']|]|] z [Hty Hv] [Hty' Hv']; try discriminate.
    simpl in Hv, Hv'. assert (s = s') as -> by congruence. by rewrite (proof_irrel Hs Hs').
Qed.
End i32_model.
