(* ===== verification/TyRust.v ===== *)
(** * Rust types and their generic parameters

    [prusti-encoder/src/encoders/ty/rust_ty.rs]: a type of the compiler, decomposed
    into the definition that is encoded and the arguments of the use;
    [ty/generics/params.rs]: the parameters of a definition as declarations of Viper
    ([GenericParamsEnc]); [vir/src/viper_ident.rs]: identifiers of Viper. Types of the
    compiler, their environments and how it normalizes and decomposes them are the
    classes [RustcTypes] and [Decompose]. *)
From Stdlib Require Import Ascii.
From stdpp Require Import pretty.
From S2P Require Import Prelude Names Vir VirMake VirProgram VirInt TyDomain TyData.

(** ** Identifiers *)
Definition sanitize_char (c : ascii) : option string :=
  match c with
  | "<"%char => Some "$lt$" | ">"%char => Some "$gt$" | " "%char => Some "$sp$" | ","%char => Some "$com$"
  | ":"%char => Some "$col$" | "'"%char => Some "$sq$" | "&"%char => Some "$amp$" | "-"%char => Some "$hyp$"
  | "("%char => Some "$lp$" | ")"%char => Some "$rp$" | "["%char => Some "$lb$" | "]"%char => Some "$rb$"
  | "{"%char => Some "$lc$" | "}"%char => Some "$rc$" | "?"%char => Some "$qm$" | ";"%char => Some "$sc$"
  | "#"%char => Some "$oc$" | "/"%char => Some "$fs$" | "*"%char => Some "$as$" | "="%char => Some "$eq$"
  | "+"%char => Some "$pl$" | "!"%char => Some "$ex$"
  | _ => None
  end.

Fixpoint sanitize_str (s : string) : string :=
  match s with
  | EmptyString => EmptyString
  | String c s => default (String c EmptyString) (sanitize_char c) +:+ sanitize_str s
  end.

Fixpoint is_valid_identifier (s : string) : bool :=
  match s with
  | EmptyString => true
  | String c s => match sanitize_char c with None => true | Some _ => false end && is_valid_identifier s
  end.

(** [ViperIdent::new] and [ViperIdent::sanitize] *)
Definition ViperIdent_new {E} (ident : string) : outcome E string :=
  _ ← assert_that "assertion failed: is_valid_identifier(ident)" (is_valid_identifier ident); Ok ident.

Definition sanitize {E} (ident : string) : outcome E string :=
  let ident := sanitize_str ident in
  _ ← assert_that "assertion failed: is_valid_identifier(ident.as_str())" (is_valid_identifier ident);
  Ok ident.

(** ** Types of the compiler *)
Class RustcTypes := {
  LazyRustTy : Type;
  ParamEnv : Type;
  empty_env : ParamEnv;
  GArgs : Type;
}.

Definition TYPE_PSNAP : TypeKind := TDomain "s_Param" [].
Definition TYPE_TYVAL : TypeKind := TDomain "Type" [].

Inductive RustParamData := Generic | Dyn.

Section rust_types.
Context {RT : RustcTypes}.

(** A [ParamTy] or [ParamConst]. *)
Record ParamIdx := { p_name : string; p_index : nat }.

(** A generic argument in the position of a parameter: a type or a constant that is
    not a parameter has no [ParamIdx]. The type of a constant is the one that the
    environment gives it. *)
Inductive GenericParam :=
| PLifetime
| PType (p : option ParamIdx)
| PConst (p : option ParamIdx) (ty : LazyRustTy).

Record GParams := {
  params : list GenericParam;
  params_env : ParamEnv;
  is_trait_extern_spec : bool;
  suffix : option string;
}.

Definition GParams_new (params : list GenericParam) (env : ParamEnv) (is_trait_extern_spec : bool) : GParams :=
  {| params := params; params_env := env; is_trait_extern_spec := is_trait_extern_spec; suffix := None |}.
Definition GParams_empty_env (params : list GenericParam) : GParams := GParams_new params empty_env false.
Definition GParams_empty : GParams := GParams_empty_env [].

Record RefData := { metadata : LazyRustTy; referent : LazyRustTy }.
Record RustFieldData := { rust_field_name : string; fid : nat; field_lazy : LazyRustTy }.
(** [discr_val] is a [u128]. *)
Record RustVariantData := { variant_name : string; vid : nat; discr_val : Z }.
Record RustEnumData := { discr : TyKind }.

Inductive RustBuiltinData :=
| BuiltinInt
| BuiltinReal
| BuiltinSet (elem : LazyRustTy)
| BuiltinMultiset (elem : LazyRustTy)
| BuiltinSeq (elem : LazyRustTy)
| BuiltinMap (key val : LazyRustTy).

Record RustTyData := { rust_name : string; rust_params : GParams }.

Definition RustTyDatas : TyDatas :=
  {| TyD := RustTyData; ParamD := RustParamData; OpaqueD := unit; ArrayD := LazyRustTy;
     PrimitiveD := TyKind; ImmRefD := RefData; MutRefD := RefData; RawD := RefData;
     StructD := unit; FieldD := RustFieldData; EnumD := RustEnumData; VariantD := RustVariantData;
     BuiltinD := RustBuiltinData |}.

Definition RustTy : Type := TyData RustTyDatas.

Record RustTyDecomposition := {
  decomp_ty : RustTy;
  decomp_args : GArgs;
  maybe_inhabited : option bool;
}.
End rust_types.

(** How the compiler decomposes a type in the context of parameters. *)
Class Decompose {RT : RustcTypes} := {
  decompose : LazyRustTy -> GParams -> RustTyDecomposition;
  (** the arguments of a type without parameters *)
  no_args : GArgs;
}.

(** ** Primitive types *)
Definition int_name_str (t : IntTy) : string :=
  match t with
  | Isize => "isize" | I8 => "i8" | I16 => "i16" | I32 => "i32" | I64 => "i64" | I128 => "i128"
  end.
Definition uint_name_str (t : UintTy) : string :=
  match t with
  | Usize => "usize" | U8 => "u8" | U16 => "u16" | U32 => "u32" | U64 => "u64" | U128 => "u128"
  end.
Definition float_name_str (t : FloatTy) : string :=
  match t with F16 => "f16" | F32 => "f32" | F64 => "f64" | F128 => "f128" end.

Section types.
Context {RT : RustcTypes} {DC : Decompose} {E : Type}.

Definition prim_ty_name (ty : TyKind) : outcome E string :=
  match ty with
  | TyBool => Ok "Bool"%string
  | TyChar => Ok "Char"%string
  | TyInt kind => Ok ("Int_" +:+ int_name_str kind)
  | TyUint kind => Ok ("UInt_" +:+ uint_name_str kind)
  | TyFloat kind => Ok ("Float_" +:+ float_name_str kind)
  | TyOther _ => Panic "assertion failed: ty.is_primitive()"
  end.

Definition from_prim_ty (ty : TyKind) : outcome E RustTyDecomposition :=
  name ← prim_ty_name ty;
  Ok {| decomp_ty :=
          {| ty_data := {| rust_name := name; rust_params := GParams_empty |} : TyD RustTyDatas;
             ty_specifics := Ty.Primitive (D:=RustTyDatas) ty |};
        decomp_args := no_args; maybe_inhabited := Some true |}.

(** ** The snapshot type

    The type of snapshots that [TyPureBuilder::new] decides on: collections are encoded
    at their most generic instantiation, so their elements are parameters. *)
Definition assert_param (inner : LazyRustTy) (ps : GParams) : outcome E unit :=
  assert_that "assertion failed: inner.decompose(ty.params).ty.specifics.is_param()"
    (is_param (ty_specifics (decomp_ty (decompose inner ps)))).

Definition rust_ty_name (ty : RustTy) : string := rust_name (ty_data ty).
Definition ty_params_of (ty : RustTy) : GParams := rust_params (ty_data ty).

Definition self_type (ty : RustTy) : outcome E TypeKind :=
  name ← ViperIdent_new ("s_" +:+ rust_ty_name ty);
  match ty_specifics ty with
  | Ty.Builtin BuiltinInt => Ok TInt
  | Ty.Builtin BuiltinReal => Ok TPerm
  | Ty.Builtin (BuiltinSet elem) => _ ← assert_param elem (ty_params_of ty); Ok (TSet TYPE_PSNAP)
  | Ty.Builtin (BuiltinMultiset elem) => _ ← assert_param elem (ty_params_of ty); Ok (TMultiset TYPE_PSNAP)
  | Ty.Builtin (BuiltinSeq elem) => _ ← assert_param elem (ty_params_of ty); Ok (TSeq TYPE_PSNAP)
  | Ty.Builtin (BuiltinMap key val) =>
      _ ← assert_param key (ty_params_of ty); _ ← assert_param val (ty_params_of ty);
      Ok (TMap TYPE_PSNAP TYPE_PSNAP)
  | Ty.Primitive TyBool => Ok TBool
  | _ => Ok (TDomain name [])
  end.

(** [require_ref::<TyUsePureEnc>(ty.decompose(params))?.snapshot] *)
Definition use_snapshot (ty : LazyRustTy) (ps : GParams) : outcome E TypeKind :=
  self_type (decomp_ty (decompose ty ps)).

(** ** Declarations of generic parameters *)
Record GenericParams := {
  ty_decls : list LocalDecl;
  const_decls : list LocalDecl;
  (** the index among the types or the constants; a lifetime has none *)
  indices : list (option (nat + nat));
}.

Definition ty_exprs (g : GenericParams) : list Expr := mk_local_ex <$> ty_decls g.
Definition const_exprs (g : GenericParams) : list Expr := mk_local_ex <$> const_decls g.
Definition ty_args (g : GenericParams) : list TypeKind := decl_ty <$> ty_decls g.

Definition map_idx (g : GenericParams) (index : nat) : outcome E (nat + nat) :=
  i ← unwrap "index out of bounds" (indices g !! index);
  unwrap "trying to map invalid generic param index" i.

(** The parameters of one sort with their positions. *)
Definition params_where {T} (f : GenericParam -> option T) (ps : list GenericParam) : list (nat * T) :=
  omap (fun x => x) (imap (fun i p => (fun t => (i, t)) <$> f p) ps).

Definition as_ty (p : GenericParam) : option (option ParamIdx) :=
  match p with PType p => Some p | _ => None end.
Definition as_const (p : GenericParam) : option (option ParamIdx * LazyRustTy) :=
  match p with PConst p ty => Some (p, ty) | _ => None end.

(** The synthetic parameter of an external specification stands for [Self]. *)
Definition rename_self (g : GParams) (p : ParamIdx) : ParamIdx :=
  if is_trait_extern_spec g && bool_decide (p_name p = "Prusti_T_Self")
  then {| p_name := "Self"; p_index := p_index p |} else p.

Definition param_string (g : GParams) (p : ParamIdx) : string :=
  p_name p +:+ "$" +:+ pretty (p_index p)
  +:+ match suffix g with Some s => "_" +:+ s | None => EmptyString end.

Definition ty_decl (g : GParams) (p : option ParamIdx) : outcome E LocalDecl :=
  p ← unwrap "expected type parameter" p;
  name ← sanitize (param_string g (rename_self g p));
  Ok {| decl_name := name; decl_ty := TYPE_TYVAL |}.

Definition const_decl (g : GParams) (p : option ParamIdx * LazyRustTy) : outcome E LocalDecl :=
  q ← unwrap "internal error: entered unreachable code" p.1;
  snapshot ← use_snapshot p.2 GParams_empty;
  name ← sanitize (param_string g q);
  Ok {| decl_name := name; decl_ty := snapshot |}.

(** [indices[gi] = idx(i)] for the [i]-th parameter of a sort, at position [gi]. *)
Definition fill_indices {T} (idx : nat -> nat + nat) (ps : list (nat * T)) (l : list (option (nat + nat))) :
    list (option (nat + nat)) :=
  foldl (fun l x => <[x.2 := Some (idx x.1)]> l) l (imap (fun i p => (i, p.1)) ps).

Definition GenericParamsEnc (g : GParams) : outcome E GenericParams :=
  let tys := params_where as_ty (params g) in
  let consts := params_where as_const (params g) in
  ty_decls ← collect (fun p => ty_decl g p.2) tys;
  const_decls ← collect (fun p => const_decl g p.2) consts;
  Ok {| ty_decls := ty_decls; const_decls := const_decls;
        indices := fill_indices inr consts (fill_indices inl tys ((fun _ => None) <$> params g)) |}.
End types.
