(* ===== verification/BinOpEnc.v ===== *)
(** * Encoding of MIR binary operators

    [prusti-encoder/src/encoders/builtin/bin_op.rs]: every MIR binary operator
    becomes a Viper function over snapshots, with the preconditions that rule
    out undefined behaviour and a body that computes the Rust result. *)
From S2P Require Import Prelude Vir VirMake VirProgram VirSem VirInt TyDomain Primitive.
Local Open Scope Z_scope.

(** ** MIR operators *)
Module mir.
Inductive BinOp :=
| Add | AddUnchecked | AddWithOverflow
| Sub | SubUnchecked | SubWithOverflow
| Mul | MulUnchecked | MulWithOverflow
| Div | Rem
| BitXor | BitAnd | BitOr
| Shl | ShlUnchecked | Shr | ShrUnchecked
| Eq | Lt | Le | Ne | Ge | Gt | Cmp | Offset.

Inductive UnOp := Not | Neg | PtrMetadata.

(** [rustc]'s [BinOp::is_overflowing]. *)
Definition is_overflowing (op : BinOp) : bool :=
  match op with AddWithOverflow | SubWithOverflow | MulWithOverflow => true | _ => false end.
End mir.

Definition todo {E A} (what : string) : outcome E A := Panic ("not yet implemented: " +:+ what).

(** [impl From<mir::BinOp> for BinOpKind]. *)
Definition BinOpKind_from {E} (op : mir.BinOp) : outcome E BinOpKind :=
  match op with
  | mir.Add | mir.AddUnchecked | mir.AddWithOverflow => Ok Add
  | mir.Sub | mir.SubUnchecked | mir.SubWithOverflow => Ok Sub
  | mir.Mul | mir.MulUnchecked | mir.MulWithOverflow => Ok Mul
  | mir.Div => Ok Div
  | mir.Rem => Ok Mod
  | mir.BitXor => Ok CmpNe
  | mir.BitAnd => Ok And
  | mir.BitOr => Ok Or
  | mir.Shl | mir.ShlUnchecked | mir.Shr | mir.ShrUnchecked => todo "bitwise operations"
  | mir.Eq => Ok CmpEq
  | mir.Lt => Ok CmpLt
  | mir.Le => Ok CmpLe
  | mir.Ne => Ok CmpNe
  | mir.Ge => Ok CmpGe
  | mir.Gt => Ok CmpGt
  | mir.Offset => todo ""
  | mir.Cmp => todo ""
  end.

(** [Ty::is_signed]. *)
Definition is_signed (k : TyKind) : bool := match k with TyInt _ => true | _ => false end.

Section handle_bin_op.
Context {H : Host} {E : Type}.

Definition handle_bin_op_native (lhs rhs : Expr) (res_ty : TyKind) (op : mir.BinOp)
    (in_ty : TyKind) : outcome E (list Expr * Expr) :=
  rhs ← match op with
        | mir.Shl | mir.Shr => w ← get_bit_width_int in_ty; mk_bin_op_expr Mod rhs w
        | _ => Ok rhs
        end;
  match op with
  | mir.Cmp =>
      (* a > b ? 1 : (b > a ? -1 : 0) *)
      a_gt_b ← mk_bin_op_expr CmpGt lhs rhs;
      b_gt_a ← mk_bin_op_expr CmpGt rhs lhs;
      Ok ([], mk_ternary_expr a_gt_b (mk_int 1)
                (mk_ternary_expr b_gt_a (mk_int (-1)) (mk_int 0)))
  | _ =>
      op_kind ← BinOpKind_from op;
      let viper_val := mk_bin_op_expr_inner op_kind lhs rhs in
      match op with
      (* wrapping is implicit *)
      | mir.Add | mir.Sub | mir.Mul | mir.Shl | mir.Shr =>
          val ← get_wrapped_val viper_val res_ty; Ok ([], val)
      (* overflow is undefined behaviour *)
      | mir.AddUnchecked | mir.SubUnchecked | mir.MulUnchecked =>
          min ← get_min_int res_ty;
          lower_bound ← mk_bin_op_expr CmpGe viper_val min;
          max ← get_max_int res_ty;
          upper_bound ← mk_bin_op_expr CmpLe viper_val max;
          Ok ([lower_bound; upper_bound], viper_val)
      | mir.ShlUnchecked | mir.ShrUnchecked =>
          lower_bound ← mk_bin_op_expr CmpGe rhs (mk_int 0);
          max ← get_bit_width_int in_ty;
          upper_bound ← mk_bin_op_expr CmpLt rhs max;
          val ← get_wrapped_val viper_val res_ty;
          Ok ([lower_bound; upper_bound], val)
      (* division by zero, and overflow when dividing by -1 *)
      | mir.Div | mir.Rem =>
          pre ← mk_bin_op_expr CmpNe (mk_int 0) rhs;
          if is_signed res_ty then
            min ← get_min_int res_ty;
            arg1_cond ← mk_bin_op_expr CmpNe lhs min;
            arg2_cond ← mk_bin_op_expr CmpNe (mk_int (-1)) rhs;
            pre2 ← mk_bin_op_expr Or arg1_cond arg2_cond;
            let neg_lhs := mk_unary_op_expr Neg lhs in
            neg_op ← mk_bin_op_expr op_kind neg_lhs rhs;
            let neg_result := mk_unary_op_expr Neg neg_op in
            let lhs_zero := mk_eq_expr lhs (mk_int 0) in
            let zero_or_neg := mk_ternary_expr lhs_zero (mk_int 0) neg_result in
            lhs_pos ← mk_bin_op_expr CmpGt lhs (mk_int 0);
            Ok ([pre; pre2], mk_ternary_expr lhs_pos viper_val zero_or_neg)
          else Ok ([pre], viper_val)
      | mir.BitXor | mir.BitAnd | mir.BitOr | mir.Eq | mir.Lt | mir.Le | mir.Ne | mir.Ge
      | mir.Gt | mir.Offset => Ok ([], viper_val)
      | mir.AddWithOverflow | mir.SubWithOverflow | mir.MulWithOverflow => unreachable
      | mir.Cmp => unreachable
      end
  end.

Definition handle_bin_op_float (lhs rhs : Expr) (op : mir.BinOp) (float : FloatDomainData) :
    outcome E Expr :=
  match op with
  | mir.Add => Ok (call (fp_add float) [lhs; rhs])
  | mir.AddUnchecked | mir.AddWithOverflow => unreachable
  | mir.Sub => Ok (call (fp_sub float) [lhs; rhs])
  | mir.SubUnchecked | mir.SubWithOverflow => unreachable
  | mir.Mul => Ok (call (fp_mul float) [lhs; rhs])
  | mir.MulUnchecked | mir.MulWithOverflow => unreachable
  | mir.Div => Ok (call (fp_div float) [lhs; rhs])
  | mir.Rem =>
      let div_res := call (fp_div float) [lhs; rhs] in
      let div_trunc := call (fp_trunc float) [div_res] in
      let mul_res := call (fp_mul float) [div_trunc; rhs] in
      Ok (call (fp_sub float) [lhs; mul_res])
  | mir.BitXor | mir.BitAnd | mir.BitOr | mir.Shl | mir.ShlUnchecked | mir.Shr
  | mir.ShrUnchecked => unreachable
  | mir.Eq => Ok (call (fp_eq float) [lhs; rhs])
  | mir.Lt => Ok (call (fp_lt float) [lhs; rhs])
  | mir.Le => Ok (call (fp_leq float) [lhs; rhs])
  | mir.Ne => Ok (mk_unary_op_expr Not (call (fp_eq float) [lhs; rhs]))
  | mir.Ge => Ok (call (fp_geq float) [lhs; rhs])
  | mir.Gt => Ok (call (fp_gt float) [lhs; rhs])
  | mir.Cmp => todo ""
  | mir.Offset => unreachable
  end.
End handle_bin_op.

(** ** Struct snapshots and let bindings, as far as checked operators use them *)

(** [mk_let_expr] of a debug build, which checks the bindings of the result. *)
Definition mk_let_expr {E} (decl : LocalDecl) (val e : Expr) : outcome E Expr :=
  let let_expr := Let (decl_name decl) val e in
  _ ← lift (check_expr_bindings ∅ let_expr); Ok let_expr.

(** [GArgCaster]: the function making a field generic with its type arguments,
    or nothing when the field is not generic. *)
Abbreviation caster := (option (FunctionIdn * list Expr)).

Definition cast_to_callee_ctx (c : caster) (e : Expr) : Expr :=
  match c with Some (make_generic, ty_args) => call make_generic (e :: ty_args) | None => e end.

Record TyUsePureStruct := { struct_cons : FunctionIdn; struct_fields : list caster }.

Definition field_snaps_to_snap {E} (s : TyUsePureStruct) (snaps : list Expr) : outcome E Expr :=
  _ ← assert_that "assertion `left == right` failed"
        (bool_decide (length snaps = length (struct_fields s)));
  Ok (call (struct_cons s) (zip_with cast_to_callee_ctx (struct_fields s) snaps)).

Section handle_overflowing.
Context {H : Host} {E : Type}.

(** [res_ty_int]: the first component type of the result tuple;
    [e_res_ty], [e_res_ty_int]: the encodings of the tuple and of that
    component, obtained from their own encoders. *)
Definition handle_bin_op_overflowing (e_res_ty : TyUsePureStruct)
    (e_res_ty_int : TyPurePrimDataKind) (res_ty_int : TyKind) (op : mir.BinOp)
    (lhs rhs : Expr) : outcome E Expr :=
  _ ← assert_that "assertion failed: op.is_overflowing()" (mir.is_overflowing op);
  _ ← assert_that "assertion `left == right` failed"
        (bool_decide (prim_type e_res_ty_int = TInt));
  kind ← BinOpKind_from op;
  val_exp ← mk_bin_op_expr kind lhs rhs;
  let val_decl := {| decl_name := "val"; decl_ty := TInt |} in
  let val := mk_local_ex val_decl in
  let wrapped_val_decl := {| decl_name := "wrapped_val"; decl_ty := TInt |} in
  wrapped_val_exp ← get_wrapped_val val res_ty_int;
  let wrapped_val := mk_local_ex wrapped_val_decl in
  let wrapped_val_snap := prim_to_snap e_res_ty_int wrapped_val in
  overflowed ← mk_bin_op_expr CmpNe wrapped_val val;
  tuple ← field_snaps_to_snap e_res_ty [wrapped_val_snap; overflowed];
  inner_let ← mk_let_expr wrapped_val_decl wrapped_val_exp tuple;
  mk_let_expr val_decl val_exp inner_let.
End handle_overflowing.

(** ** The encoder *)

(** A primitive operand type with the output of its type encoder. *)
Record PrimTy := {
  pt_kind : TyKind; pt_prim : TyPurePrimDataKind; pt_snap : TypeKind; pt_name : string;
}.

(** The result type: primitive, or the tuple [(T, bool)] of a checked operator. *)
Inductive ResultTy :=
| ResPrim (t : PrimTy)
| ResTuple (snap : TypeKind) (s : TyUsePureStruct) (int : PrimTy).

Definition result_snap (r : ResultTy) : TypeKind :=
  match r with ResPrim t => pt_snap t | ResTuple snap _ _ => snap end.

Definition BinOp_debug (op : mir.BinOp) : string :=
  match op with
  | mir.Add => "Add" | mir.AddUnchecked => "AddUnchecked"
  | mir.AddWithOverflow => "AddWithOverflow"
  | mir.Sub => "Sub" | mir.SubUnchecked => "SubUnchecked"
  | mir.SubWithOverflow => "SubWithOverflow"
  | mir.Mul => "Mul" | mir.MulUnchecked => "MulUnchecked"
  | mir.MulWithOverflow => "MulWithOverflow"
  | mir.Div => "Div" | mir.Rem => "Rem"
  | mir.BitXor => "BitXor" | mir.BitAnd => "BitAnd" | mir.BitOr => "BitOr"
  | mir.Shl => "Shl" | mir.ShlUnchecked => "ShlUnchecked"
  | mir.Shr => "Shr" | mir.ShrUnchecked => "ShrUnchecked"
  | mir.Eq => "Eq" | mir.Lt => "Lt" | mir.Le => "Le" | mir.Ne => "Ne" | mir.Ge => "Ge"
  | mir.Gt => "Gt" | mir.Cmp => "Cmp" | mir.Offset => "Offset"
  end.

Definition expect_primitive {E} (r : ResultTy) : outcome E PrimTy :=
  match r with ResPrim t => Ok t | ResTuple _ _ _ => Panic "expected primitive" end.

Section encode.
Context {H : Host} {E : Type}.

Definition bin_op_body (result_ty : ResultTy) (op : mir.BinOp) (lhs_ty rhs_ty : PrimTy)
    (lhs rhs : Expr) : outcome E (list Expr * Expr) :=
  match pt_prim lhs_ty with
  | PrimBool | PrimInt _ =>
      lhs ← snap_to_prim (pt_prim lhs_ty) lhs;
      rhs ← snap_to_prim (pt_prim rhs_ty) rhs;
      if mir.is_overflowing op then
        match result_ty with
        | ResTuple _ s int =>
            val ← handle_bin_op_overflowing s (pt_prim int) (pt_kind int) op lhs rhs;
            Ok ([], val)
        | ResPrim _ => Panic "assertion `left == right` failed"
        end
      else
        res ← expect_primitive result_ty;
        r ← handle_bin_op_native lhs rhs (pt_kind res) op (pt_kind lhs_ty);
        Ok (fst r, prim_to_snap (pt_prim res) (snd r))
  | PrimFloat float =>
      _ ← assert_that "assertion failed"
            (match pt_prim rhs_ty with PrimFloat _ => true | _ => false end);
      body ← handle_bin_op_float lhs rhs op float;
      Ok ([], body)
  end.

Definition bin_op_do_encode_full (result_ty : ResultTy) (op : mir.BinOp)
    (lhs_ty rhs_ty : PrimTy) : outcome E FunctionGenData :=
  let name := "mir_binop_" +:+ BinOp_debug op +:+ "_" +:+ pt_name lhs_ty
              +:+ "_" +:+ pt_name rhs_ty in
  let lhs_decl := {| decl_name := "arg1"; decl_ty := pt_snap lhs_ty |} in
  let rhs_decl := {| decl_name := "arg2"; decl_ty := pt_snap rhs_ty |} in
  r ← bin_op_body result_ty op lhs_ty rhs_ty (mk_local_ex lhs_decl) (mk_local_ex rhs_decl);
  lift (mk_function name (result_snap result_ty) [lhs_decl; rhs_decl] (fst r) [] None (Some (snd r))).
End encode.

(** ** Rust's meaning of the operators

    [None] is undefined behaviour or a panic of the operator itself. *)
Definition rust_binop (op : mir.BinOp) (d : Z * bool) (a b : Z) : option (Z + bool) :=
  let checked z := if (int_min d <=? z) && (z <=? int_max d) then Some (inl z) else None in
  let divides := negb (b =? 0) && negb (d.2 && (a =? int_min d) && (b =? -1)) in
  match op with
  | mir.Add => Some (inl (wrap d (a + b)))
  | mir.Sub => Some (inl (wrap d (a - b)))
  | mir.Mul => Some (inl (wrap d (a * b)))
  | mir.AddUnchecked => checked (a + b)
  | mir.SubUnchecked => checked (a - b)
  | mir.MulUnchecked => checked (a * b)
  | mir.Div => if divides then Some (inl (Z.quot a b)) else None
  | mir.Rem => if divides then Some (inl (Z.rem a b)) else None
  | mir.Eq => Some (inr (a =? b))
  | mir.Ne => Some (inr (negb (a =? b)))
  | mir.Lt => Some (inr (a <? b))
  | mir.Le => Some (inr (a <=? b))
  | mir.Gt => Some (inr (b <? a))
  | mir.Ge => Some (inr (b <=? a))
  | mir.Cmp => Some (inl (match a ?= b with Datatypes.Lt => -1 | Datatypes.Eq => 0 | Gt => 1 end))
  | _ => None
  end.

(** The operators [rust_binop] covers on integers of one type. *)
Definition arithmetic (op : mir.BinOp) : bool :=
  match op with
  | mir.Add | mir.Sub | mir.Mul | mir.AddUnchecked | mir.SubUnchecked | mir.MulUnchecked
  | mir.Div | mir.Rem | mir.Eq | mir.Ne | mir.Lt | mir.Le | mir.Gt | mir.Ge | mir.Cmp => true
  | _ => false
  end.

Definition comparison (op : mir.BinOp) : bool :=
  match op with
  | mir.Eq | mir.Ne | mir.Lt | mir.Le | mir.Gt | mir.Ge | mir.Cmp => true
  | _ => false
  end.

Definition prim_value {D} (r : Z + bool) : value D :=
  match r with inl z => VInt z | inr b => VBool b end.

Section soundness.
Context {H : Host} {VM : ViperModel} {E : Type}.

(** Euclidean and truncating division agree on a non-negative dividend. *)
Lemma viper_quot_rem a b :
  0 <= a -> b <> 0 -> viper_div a b = Z.quot a b /\ viper_mod a b = Z.rem a b.
Proof.
  intros Ha Hb. pose proof (viper_div_mod a b Hb). pose proof (viper_mod_bound a b Hb).
  pose proof (Z.quot_rem' a b). pose proof (Z.rem_bound_abs a b Hb).
  pose proof (Z.rem_nonneg a b Hb Ha).
  assert (viper_div a b = Z.quot a b) as Hq by nia. split; [done|]. rewrite Hq in *. lia.
Qed.

Lemma quot_neg a b : b <> 0 -> - Z.quot (- a) b = Z.quot a b.
Proof. intros Hb. rewrite Z.quot_opp_l by done. lia. Qed.

Lemma rem_neg a b : b <> 0 -> - Z.rem (- a) b = Z.rem a b.
Proof. intros Hb. rewrite Z.rem_opp_l by done. lia. Qed.

Definition pres_hold (ρ : gmap string (value domain_value)) (pres : list Expr) : Prop :=
  Forall (fun p => eval ρ p = Some (VBool true)) pres.

Lemma bool_decide_VInt x y :
  bool_decide (@VInt domain_value x = VInt y) = (x =? y).
Proof. destruct (Z.eqb_spec x y); [apply bool_decide_eq_true_2 | apply bool_decide_eq_false_2];
  congruence. Qed.

Lemma is_signed_data k d : @get_int_data H E k = Ok d -> is_signed k = d.2.
Proof. destruct k as [| |[]|[]| |]; simpl; intros; by simplify_eq. Qed.

Context (ρ : gmap string (value domain_value)) (lhs rhs : Expr) (a b : Z).
Context (Hl : eval ρ lhs = Some (VInt a)) (Hr : eval ρ rhs = Some (VInt b)).

(** [implements op d r]: the preconditions of [r] hold exactly when Rust
    defines the operator, and then its value is Rust's. *)
Definition implements (op : mir.BinOp) (d : Z * bool) (r : outcome E (list Expr * Expr)) : Prop :=
  exists pres val, r = Ok (pres, val) /\
    (pres_hold ρ pres <-> is_Some (rust_binop op d a b)) /\
    (forall v, rust_binop op d a b = Some v -> eval ρ val = Some (prim_value v)).

Lemma no_pres pres v (o : option (Z + bool)) :
  pres = [] -> o = Some v -> pres_hold ρ pres <-> is_Some o.
Proof. intros -> ->. split; [eauto | constructor]. Qed.

(** Comparisons and three-way comparison. *)
Lemma native_comparison op res_ty in_ty d :
  comparison op = true ->
  implements op d (handle_bin_op_native lhs rhs res_ty op in_ty).
Proof using Hl Hr.
  intros Hop. destruct op; try discriminate;
    (eexists _, _; split; [reflexivity|]; split; [by eapply no_pres|]);
    intros v [= <-]; simpl; rewrite Hl, Hr; simpl; rewrite ?bool_decide_VInt; try done.
  destruct (Z.compare_spec a b); destruct (Z.ltb_spec b a), (Z.ltb_spec a b); try lia; done.
Qed.

Lemma native_wrapping op k d :
  @get_int_data H E k = Ok d -> op = mir.Add \/ op = mir.Sub \/ op = mir.Mul ->
  implements op d (handle_bin_op_native lhs rhs k op k).
Proof using Hl Hr.
  intros Hk Hop. unfold handle_bin_op_native.
  destruct Hop as [->|[->| ->]]; simpl;
    match goal with |- context [get_wrapped_val ?e k] =>
      destruct (get_wrapped_val_eval (E:=E) e k d Hk) as (w & -> & Hw) end;
    (eexists _, _; split; [reflexivity|]; split; [by eapply no_pres|]);
    intros v [= <-]; apply Hw; simpl; by rewrite Hl, Hr.
Qed.

Lemma native_unchecked op k d :
  @get_int_data H E k = Ok d ->
  op = mir.AddUnchecked \/ op = mir.SubUnchecked \/ op = mir.MulUnchecked ->
  implements op d (handle_bin_op_native lhs rhs k op k).
Proof using Hl Hr.
  intros Hk Hop. unfold handle_bin_op_native.
  destruct (get_min_int_eval (E:=E) k d Hk) as (min & Hmin & Hmin_e).
  destruct (get_max_int_eval (E:=E) k d Hk) as (max & Hmax & Hmax_e).
  destruct Hop as [->|[->| ->]]; simpl; rewrite Hmin; simpl; rewrite Hmax; simpl;
    (eexists _, _; split; [reflexivity|]; unfold pres_hold; rewrite !Forall_cons; simpl;
     rewrite Hl, Hr, Hmin_e, Hmax_e; simpl; split;
     [ destruct (_ <=? _), (_ <=? _); simpl; rewrite ?is_Some_alt; naive_solver
     | intros v Hv; destruct (_ && _); by simplify_eq/= ]).
Qed.

(** The conditional the source builds around Euclidean division computes
    truncating division, for either sign of the operands. *)
Lemma truncating_conditional op kind f :
  b <> 0 ->
  (kind = Div /\ f = Z.quot \/ kind = Mod /\ f = Z.rem) ->
  op = Ternary (BinOp CmpGt lhs (mk_int 0)) (BinOp kind lhs rhs)
         (Ternary (mk_eq_expr lhs (mk_int 0)) (mk_int 0)
            (UnOp Neg (BinOp kind (UnOp Neg lhs) rhs))) ->
  eval ρ op = Some (VInt (f a b)).
Proof using Hl Hr.
  intros Hb Hkind ->. simpl. rewrite Hl, Hr; simpl. rewrite bool_decide_VInt.
  destruct (Z.ltb_spec 0 a), (Z.eqb_spec a 0); try lia; simpl.
  - destruct (viper_quot_rem a b) as [Hq Hm]; [lia|done|].
    destruct Hkind as [[-> ->]|[-> ->]]; simpl; destruct (Z.eqb_spec b 0); congruence.
  - subst a. destruct Hkind as [[_ ->]|[_ ->]];
      by rewrite ?Z.quot_0_l, ?Z.rem_0_l.
  - destruct (viper_quot_rem (- a) b) as [Hq Hm]; [lia|done|].
    destruct Hkind as [[-> ->]|[-> ->]]; simpl; destruct (Z.eqb_spec b 0); try done; simpl.
    + by rewrite Hq, quot_neg.
    + by rewrite Hm, rem_neg.
Qed.

(** The preconditions of signed division rule out exactly the two cases
    Rust panics on. *)
Lemma signed_div_pres min m :
  (forall ρ, eval ρ min = Some (VInt m)) ->
  pres_hold ρ [BinOp CmpNe (mk_int 0) rhs;
               BinOp Or (BinOp CmpNe lhs min) (BinOp CmpNe (mk_int (-1)) rhs)]
  <-> negb (b =? 0) && negb (true && (a =? m) && (b =? -1)) = true.
Proof using Hl Hr.
  intros Hm. unfold pres_hold. rewrite !Forall_cons. simpl.
  rewrite Hl, Hr, Hm; simpl. rewrite !bool_decide_VInt.
  rewrite (Z.eqb_sym 0 b), (Z.eqb_sym _ b). change (- Z.abs (-1)) with (-1).
  destruct (b =? 0), (a =? m), (b =? -1); simpl; naive_solver.
Qed.

Lemma unsigned_div_pres :
  pres_hold ρ [BinOp CmpNe (mk_int 0) rhs] <-> negb (b =? 0) && negb false = true.
Proof using Hr.
  unfold pres_hold. rewrite !Forall_cons. simpl. rewrite Hr; simpl.
  rewrite bool_decide_VInt, (Z.eqb_sym 0 b). destruct (b =? 0); simpl; naive_solver.
Qed.

Lemma unsigned_division kind f :
  0 <= a -> b <> 0 -> (kind = Div /\ f = Z.quot \/ kind = Mod /\ f = Z.rem) ->
  eval ρ (BinOp kind lhs rhs) = Some (VInt (f a b)).
Proof using Hl Hr.
  intros Ha Hb Hkind. destruct (viper_quot_rem a b) as [Hq Hm]; [done|done|].
  destruct Hkind as [[-> ->]|[-> ->]]; simpl; rewrite Hl, Hr; simpl;
    destruct (Z.eqb_spec b 0); congruence.
Qed.

Lemma divides_cases c val z :
  (b <> 0 -> eval ρ val = Some (VInt z)) ->
  (negb (b =? 0) && c = true <->
     is_Some (if negb (b =? 0) && c then Some (@inl Z bool z) else None)) /\
  (forall v, (if negb (b =? 0) && c then Some (inl z) else None) = Some v ->
             eval ρ val = Some (prim_value v)).
Proof.
  intros Hval. destruct (Z.eqb_spec b 0), c; simpl; split;
    rewrite ?is_Some_alt; naive_solver.
Qed.

Lemma native_div_rem op k d :
  @get_int_data H E k = Ok d -> in_range d a -> op = mir.Div \/ op = mir.Rem ->
  implements op d (handle_bin_op_native lhs rhs k op k).
Proof using Hl Hr.
  intros Hk Ha Hop. pose proof (is_signed_data k d Hk) as Hsig.
  destruct (get_min_int_eval (E:=E) k d Hk) as (min & Hmin & Hmin_e).
  assert (exists kind f, (kind = Div /\ f = Z.quot \/ kind = Mod /\ f = Z.rem) /\
    rust_binop op d a b = (if negb (b =? 0) && negb (d.2 && (a =? int_min d) && (b =? -1))
                           then Some (inl (f a b)) else None) /\
    @BinOpKind_from E op = Ok kind) as (kind & f & Hkf & Hrust & Hfrom)
    by (destruct Hop as [->| ->]; [exists Div, Z.quot | exists Mod, Z.rem]; auto).
  unfold implements. rewrite Hrust. clear Hrust.
  destruct d as [bits []]; cbn [snd] in *.
  - exists [BinOp CmpNe (mk_int 0) rhs;
            BinOp Or (BinOp CmpNe lhs min) (BinOp CmpNe (mk_int (-1)) rhs)],
      (Ternary (BinOp CmpGt lhs (mk_int 0)) (BinOp kind lhs rhs)
         (Ternary (mk_eq_expr lhs (mk_int 0)) (mk_int 0)
            (UnOp Neg (BinOp kind (UnOp Neg lhs) rhs)))).
    split; [by destruct Hop as [->| ->]; injection Hfrom as <-; unfold handle_bin_op_native; cbn -[is_signed get_min_int]; rewrite Hsig, Hmin|].
    rewrite (signed_div_pres min _ Hmin_e). apply divides_cases.
    intros Hb. by eapply truncating_conditional.
  - exists [BinOp CmpNe (mk_int 0) rhs], (BinOp kind lhs rhs).
    split; [by destruct Hop as [->| ->]; injection Hfrom as <-; unfold handle_bin_op_native; cbn -[is_signed get_min_int]; rewrite Hsig|].
    rewrite unsigned_div_pres. apply divides_cases.
    intros Hb. apply unsigned_division; [|done..]. destruct Ha as [Ha _].
    unfold int_min in Ha. simpl in Ha. lia.
Qed.

Lemma native_implements op k d :
  @get_int_data H E k = Ok d -> in_range d a -> arithmetic op = true ->
  implements op d (handle_bin_op_native lhs rhs k op k).
Proof using Hl Hr.
  intros Hk Ha Hop. destruct op; try discriminate;
    solve [ apply native_comparison; done | apply native_wrapping; naive_solver
          | apply native_unchecked; naive_solver | apply native_div_rem; naive_solver ].
Qed.
End soundness.

(** ** Properties *)

(** the same operators on integers are encoded as well, but [&] and [|]
    become Viper's logical connectives applied to two integers: the body has
    no value, whatever the arguments, where Rust computes a bitwise result. *)
Theorem bitwise_int_has_no_value {H : Host} {VM : ViperModel} {E : Type} k op ρ lhs rhs a pres val :
  op = mir.BitAnd \/ op = mir.BitOr ->
  eval ρ lhs = Some (VInt a) ->
  @handle_bin_op_native H E lhs rhs k op k = Ok (pres, val) ->
  pres = [] /\ eval ρ val = None.
Proof.
  intros [->| ->] Hl Hn; simpl in Hn; injection Hn as <- <-; simpl; by rewrite Hl.
Qed.
Lemma bitand_witness :
  eval (VM := i32_model.model) ∅ (BinOp And (Const (CInt 6)) (Const (CInt 3))) = None.
Proof.
  exact (proj2 (bitwise_int_has_no_value (H := i32_model.host) (E:=unit) (TyInt I32) mir.BitAnd ∅
    (Const (CInt 6)) (Const (CInt 3)) 6 [] _ (or_introl eq_refl) eq_refl eq_refl)).
Defined.
