(* ===== verification/BinOpSound.v ===== *)
(** * Soundness of the binary operator encoding

    The Viper functions that [BinOpEnc] builds, evaluated on snapshots:
    their preconditions hold exactly when Rust defines the operator, and
    their bodies are snapshots of the Rust result. The snapshots enter only
    through the interface [IntSnapshots]. *)
From S2P Require Import Prelude Vir VirMake VirProgram VirSem VirInt TyDomain Primitive BinOpEnc.
Local Open Scope Z_scope.

(** ** Results stay in the range of the type *)

Lemma rem_in_range d a b : in_range d a -> b <> 0 -> in_range d (Z.rem a b).
Proof.
  unfold in_range, int_min, int_max. destruct d as [bits []]; simpl; intros Ha Hb.
  - pose proof (Z.rem_le a b). pose proof (Z.rem_nonneg a b Hb). pose proof (Z.rem_nonpos a b Hb).
    pose proof (Z.quot_rem' a b). pose proof (Z.rem_bound_abs a b Hb).
    assert (Z.abs (Z.rem a b) <= Z.abs a); [|destruct (Z.le_gt_cases 0 a); lia].
    rewrite <- Z.rem_abs by done. apply Z.rem_le; lia.
  - pose proof (Z.rem_nonneg a b Hb). rewrite <- (Z.abs_eq (Z.rem a b)) by lia.
    rewrite <- Z.rem_abs by done. pose proof (Z.rem_le (Z.abs a) (Z.abs b)).
    pose proof (Z.rem_nonneg (Z.abs a) (Z.abs b)). lia.
Qed.

Lemma quot_in_range d a b :
  in_range d a -> b <> 0 -> (d.2 = false -> 0 <= b) ->
  negb (d.2 && (a =? int_min d) && (b =? -1)) = true ->
  in_range d (Z.quot a b).
Proof.
  unfold in_range, int_min, int_max. destruct d as [bits []]; simpl; intros Ha Hb Hpos Hc.
  - assert (Z.abs (Z.quot a b) = Z.quot (Z.abs a) (Z.abs b)) as Habs
      by (symmetry; by apply Z.quot_abs).
    destruct (decide (Z.abs b = 1)) as [H1|H1].
    + rewrite H1, Z.quot_1_r in Habs.
      destruct (Z.eqb_spec b (-1)) as [->|Hb1].
      * rewrite andb_true_r in Hc. apply negb_true_iff, Z.eqb_neq in Hc.
        replace (-1) with (- (1)) in * by lia. rewrite Z.quot_opp_r, Z.quot_1_r by lia. lia.
      * assert (b = 1) as -> by lia. rewrite Z.quot_1_r. lia.
    + destruct (decide (a = 0)) as [->|Ha0]; [rewrite Z.quot_0_l by done; lia|].
      pose proof (Z.quot_lt (Z.abs a) (Z.abs b)). lia.
  - pose proof (Z.quot_pos a b). pose proof (Z.quot_le_upper_bound a b (2 ^ bits - 1)).
    assert (Z.quot a b <= a); [|lia]. apply Z.quot_le_upper_bound; nia.
Qed.

Lemma rust_binop_in_range op d a b z :
  supported d -> in_range d a -> in_range d b -> op <> mir.Cmp ->
  rust_binop op d a b = Some (inl z) -> in_range d z.
Proof.
  intros Hd Ha Hb Hcmp. unfold rust_binop. intros Hz.
  assert (d.2 = false -> 0 <= b) as Hpos.
  { intros Hs. destruct Hb as [Hb _]. unfold int_min in Hb. rewrite Hs in Hb. done. }
  destruct op; simplify_eq; try (by apply wrap_in_range);
    try (match goal with H : (if ?c then _ else _) = _ |- _ => destruct c eqn:Hc end;
         simplify_eq; apply andb_true_iff in Hc as [Hc1 Hc2]).
  1-3: unfold in_range; lia.
  - apply quot_in_range; [done|lia|done|done].
  - apply rem_in_range; [done|lia].
Qed.

(** ** The encoding is closed under the argument declarations *)
Section closed.
Context {H : Host} {E : Type}.

Lemma native_fine m lhs rhs k op in_ty pres val :
  fine m lhs = true -> fine m rhs = true -> arithmetic op = true ->
  @handle_bin_op_native H E lhs rhs k op in_ty = Ok (pres, val) -> fine m val = true.
Proof.
  intros Hl Hr Hop Hn. unfold handle_bin_op_native in Hn.
  destruct op; try discriminate; simpl in Hn; try (destruct (is_signed k)); inv_outcome;
    repeat match goal with
    | H : mk_bin_op_expr _ _ _ = Ok _ |- _ =>
        unfold mk_bin_op_expr in H; simpl in H; injection H as <-
    end; simplify_eq/=;
    repeat first [ assumption | apply fine_const | apply fine_ternary | apply fine_bin_op | apply fine_un_op
                 | apply fine_mk_int | (eapply get_wrapped_val_fine; [|eassumption]) ].
Qed.
End closed.

(** ** The encoder on snapshots *)
Section encoder_sound.
Context {H : Host} {VM : ViperModel} {E : Type}.

(** The operators whose result type is primitive: [Cmp] yields an
    [Ordering], which is an enum. *)
Definition encodable (op : mir.BinOp) : bool :=
  arithmetic op && negb (match op with mir.Cmp => true | _ => false end).

Definition bool_result (op : mir.BinOp) : bool :=
  match op with
  | mir.Eq | mir.Ne | mir.Lt | mir.Le | mir.Gt | mir.Ge => true
  | _ => false
  end.

Definition bool_ty : PrimTy :=
  {| pt_kind := TyBool; pt_prim := PrimBool; pt_snap := TBool; pt_name := "Bool" |}.

(** [snapshot_of i v r]: [v] is the snapshot of the Rust result [r]. *)
Definition snapshot_of (i : TyPurePrimDataInt) (v : value domain_value) (r : Z + bool) : Prop :=
  match r with inl z => represents i v z | inr b => v = VBool b end.

Lemma rust_binop_result op d a b r :
  encodable op = true -> rust_binop op d a b = Some r ->
  (exists z, bool_result op = false /\ r = inl z) \/ (exists c, bool_result op = true /\ r = inr c).
Proof.
  intros Hop. unfold rust_binop.
  destruct op; try discriminate; try (destruct (_ && _)); intros; simplify_eq; eauto.
Qed.

(** Arithmetic needs the type of its result, comparison does not. *)
Lemma native_result_ty lhs rhs k op k' :
  bool_result op = true ->
  @handle_bin_op_native H E lhs rhs k' op k = handle_bin_op_native lhs rhs k op k.
Proof. by destruct op. Qed.

(** Whether the encoding succeeds depends on the operator and the type only. *)
Lemma native_total lhs rhs lhs' rhs' k op r :
  arithmetic op = true -> @handle_bin_op_native H E lhs rhs k op k = Ok r ->
  exists pres val, @handle_bin_op_native H E lhs' rhs' k op k = Ok (pres, val).
Proof.
  intros Hop. unfold handle_bin_op_native, get_wrapped_val.
  destruct op; try discriminate; simpl; try (by eauto);
    repeat match goal with
    | |- context [get_signed_shift_int ?k] => destruct (get_signed_shift_int k) as [[]| |]; simpl
    | |- context [get_modulo_int ?k] => destruct (get_modulo_int k); simpl
    | |- context [get_min_int ?k] => destruct (get_min_int k); simpl
    | |- context [get_max_int ?k] => destruct (get_max_int k); simpl
    | |- context [is_signed ?k] => destruct (is_signed k); simpl
    end; try done; eauto.
Qed.

Lemma encode_native (t res : PrimTy) i op pres val :
  pt_prim t = PrimInt i -> arithmetic op = true ->
  let arg x := call (int_snap_to_prim i) [mk_local_ex {| decl_name := x; decl_ty := pt_snap t |}] in
  @handle_bin_op_native H E (arg "arg1") (arg "arg2") (pt_kind res) op (pt_kind t)
    = Ok (pres, val) ->
  exists f, @bin_op_do_encode_full H E (ResPrim res) op t t = Ok f /\
    function_pres f = pres /\ function_expr f = Some (prim_to_snap (pt_prim res) val) /\
    function_ret f = pt_snap res.
Proof.
  intros Ht Hop arg Hn. unfold bin_op_do_encode_full, bin_op_body. rewrite Ht. cbn -[call].
  replace (mir.is_overflowing op) with false by (by destruct op).
  cbn -[call]. unfold arg in Hn. rewrite Hn. cbn [mbind outcome_bind fst snd].
  unfold mk_function. rewrite fine_check.
  { eexists; repeat split; reflexivity. }
  apply fine_prim_to_snap. eapply native_fine; [| |done|exact Hn];
    apply fine_call; simpl; unfold fine; simpl; unfold local_agrees.
  - rewrite lookup_insert_ne, lookup_insert_eq by done.
    rewrite bool_decide_true, !orb_true_r by done. done.
  - rewrite lookup_insert_eq, bool_decide_true, !orb_true_r by done. done.
Qed.

(** [encodes_operator i op d f]: called on snapshots of [a] and [b], the Viper
    function [f] may be called exactly when Rust defines [a op b], and then
    its body is the snapshot of that value. *)
Definition encodes_operator (i : TyPurePrimDataInt) (op : mir.BinOp) (d : Z * bool)
    (f : FunctionGenData) : Prop :=
  forall (ρ : gmap string (value domain_value)) v w a b,
    ρ !! "arg1" = Some v -> represents i v a ->
    ρ !! "arg2" = Some w -> represents i w b ->
    (pres_hold ρ (function_pres f) <-> is_Some (rust_binop op d a b)) /\
    (forall r, rust_binop op d a b = Some r ->
       exists body u, function_expr f = Some body /\ eval ρ body = Some u /\ snapshot_of i u r).

Lemma encode_sound k d i op t :
  @get_int_data H E k = Ok d -> encodable op = true ->
  pt_kind t = k -> pt_prim t = PrimInt i -> IntSnapshots i (in_range d) ->
  let res := if bool_result op then bool_ty else t in
  exists f, @bin_op_do_encode_full H E (ResPrim res) op t t = Ok f /\ encodes_operator i op d f.
Proof.
  intros Hk Hop Htk Htp Hi res.
  assert (arithmetic op = true) as Har by (by apply andb_true_iff in Hop as [? _]).
  set (arg x := call (int_snap_to_prim i) [mk_local_ex {| decl_name := x; decl_ty := pt_snap t |}]).
  assert (@handle_bin_op_native H E (arg "arg1") (arg "arg2") (pt_kind res) op (pt_kind t)
          = handle_bin_op_native (arg "arg1") (arg "arg2") k op k) as Hres.
  { subst res k. destruct (bool_result op) eqn:Hb; [by apply native_result_ty | done]. }
  assert (forall ρ x v a, ρ !! x = Some v -> represents i v a ->
            eval ρ (arg x) = Some (VInt a)) as Harg.
  { intros ρ x v a Hx Hv. by eapply eval_snap_to_prim. }
  assert (exists pres val, @handle_bin_op_native H E (arg "arg1") (arg "arg2") k op k = Ok (pres, val))
    as (pres & val & Hn).
  { assert (in_range d 0) as H0.
    { pose proof (get_int_data_supported _ _ Hk) as Hd.
      unfold in_range, int_min, int_max. destruct Hd as [Hd|[Hd|[Hd|[Hd|Hd]]]];
        rewrite Hd; destruct d as [? []]; simpl; lia. }
    destruct (native_implements (E:=E) (<["arg1":=VInt 0]> (<["arg2":=VInt 0]> ∅))
      (Const (CInt 0)) (Const (CInt 0)) 0 0 eq_refl eq_refl op k d Hk H0 Har) as (? & ? & Hx & _).
    by eapply native_total. }
  rewrite Hn in Hres. destruct (encode_native t res i op pres val Htp Har Hres)
    as (f & Hf & Hpres & Hbody & _).
  exists f. split; [done|]. intros ρ v w a b Hv Hra Hw Hrb.
  destruct (native_implements (E:=E) ρ (arg "arg1") (arg "arg2") a b
    (Harg _ _ _ _ Hv Hra) (Harg _ _ _ _ Hw Hrb) op k d Hk (represents_ok v a Hra) Har)
    as (pres' & val' & Hn' & Hp & Hval).
  rewrite Hn in Hn'. injection Hn' as <- <-. rewrite Hpres. split; [done|].
  intros r Hr. exists (prim_to_snap (pt_prim res) val). specialize (Hval r Hr).
  destruct (rust_binop_result _ _ _ _ _ Hop Hr) as [(z & Hb & ->)|(c & Hb & ->)];
    unfold res; rewrite Hb; simpl in Hval |- *.
  - rewrite Htp. destruct (snap_of_prim ρ val z Hval) as (u & Hu & Hru).
    { eapply (rust_binop_in_range op d a b); [by eapply get_int_data_supported
        | by apply (represents_ok v) | by apply (represents_ok w) | by intros -> | done]. }
    exists u. rewrite Hbody. unfold res. rewrite Hb, Htp. done.
  - exists (VBool c). rewrite Hbody. unfold res. rewrite Hb. done.
Qed.
End encoder_sound.

(** ** Checked operators *)
Section overflowing.
Context {H : Host} {VM : ViperModel} {E : Type}.

(** The mathematical operation behind a checked operator. *)
Definition exact_op (op : mir.BinOp) : option (Z -> Z -> Z) :=
  match op with
  | mir.AddWithOverflow => Some Z.add
  | mir.SubWithOverflow => Some Z.sub
  | mir.MulWithOverflow => Some Z.mul
  | _ => None
  end.

(** Expressions over the arguments alone do not see the let-bound locals. *)
Definition args_only (e : Expr) : Prop :=
  forall (ρ ρ' : gmap string (value domain_value)),
    ρ !! "arg1" = ρ' !! "arg1" -> ρ !! "arg2" = ρ' !! "arg2" -> eval ρ e = eval ρ' e.

Lemma let_fine decl val e m :
  decl_ty decl = Expr_ty val -> is_lazy val = false -> m !! decl_name decl = None ->
  fine m val = true -> fine (<[decl_name decl := decl_ty decl]> m) e = true ->
  fine m (Let (decl_name decl) val e) = true.
Proof.
  unfold fine. simpl. unfold let_scope. intros -> -> -> [-> ->]%andb_true_iff Hf.
  by rewrite bool_decide_true.
Qed.

Lemma get_wrapped_val_ty e k e' :
  @get_wrapped_val H E e k = Ok e' -> Expr_ty e' = TInt /\ is_lazy e' = false.
Proof.
  unfold get_wrapped_val, mk_bin_op_expr. intros Hw. inv_outcome.
  destruct x as [half|]; inv_outcome; done.
Qed.

Lemma mk_let_fine decl val e :
  fine ∅ (Let (decl_name decl) val e) = true ->
  @mk_let_expr E decl val e = Ok (Let (decl_name decl) val e).
Proof. intros Hf. unfold mk_let_expr. by rewrite fine_check. Qed.

Lemma fine_local m x t : m !! x = None \/ m !! x = Some t -> fine m (Local x t) = true.
Proof.
  unfold fine; simpl; unfold local_agrees. intros [->| ->]; [done|].
  by rewrite bool_decide_true, orb_true_r by done.
Qed.

(** The pair of the wrapped value and the overflow flag. *)
Definition overflow_pair (s : TyUsePureStruct) (prim : TyPurePrimDataKind) : Expr :=
  call (struct_cons s)
    [prim_to_snap prim (Local "wrapped_val" TInt);
     BinOp CmpNe (Local "wrapped_val" TInt) (Local "val" TInt)].

Lemma overflow_pair_fine s prim k w m :
  @get_wrapped_val H E (Local "val" TInt) k = Ok w ->
  m !! "wrapped_val" = None -> m !! "val" = None \/ m !! "val" = Some TInt ->
  fine m (Let "wrapped_val" w (overflow_pair s prim)) = true.
Proof.
  intros Hw Hm1 Hm2. destruct (get_wrapped_val_ty _ _ _ Hw) as [Hwty Hwl].
  apply (let_fine {| decl_name := "wrapped_val"; decl_ty := TInt |}); [done|done|done| |].
  - eapply get_wrapped_val_fine; [|exact Hw]. by apply fine_local.
  - apply fine_call. cbn [forallb decl_name decl_ty].
    rewrite fine_prim_to_snap, fine_bin_op; [done| | |].
    all: apply fine_local; rewrite ?lookup_insert_eq, ?lookup_insert_ne by done; auto.
Qed.

Lemma checked_body_fine s prim k kind lhs rhs w m :
  BinOpKind_ty kind = TInt -> @get_wrapped_val H E (Local "val" TInt) k = Ok w ->
  m !! "val" = None -> m !! "wrapped_val" = None -> fine m lhs = true -> fine m rhs = true ->
  fine m (Let "val" (BinOp kind lhs rhs) (Let "wrapped_val" w (overflow_pair s prim))) = true.
Proof.
  intros Hty Hw Hm1 Hm2 Hl Hr.
  apply (let_fine {| decl_name := "val"; decl_ty := TInt |});
    [by simpl|done|done|by apply fine_bin_op|].
  eapply overflow_pair_fine; [done | by rewrite lookup_insert_ne
    | right; apply lookup_insert_eq].
Qed.

Lemma overflowing_shape s prim k op kind d lhs rhs :
  mir.is_overflowing op = true -> @BinOpKind_from E op = Ok kind -> prim_type prim = TInt ->
  @get_int_data H E k = Ok d -> struct_fields s = [None; None] ->
  fine ∅ lhs = true -> fine ∅ rhs = true ->
  exists w, @get_wrapped_val H E (Local "val" TInt) k = Ok w /\
    @handle_bin_op_overflowing H E s prim k op lhs rhs =
    Ok (Let "val" (BinOp kind lhs rhs) (Let "wrapped_val" w (overflow_pair s prim))).
Proof.
  intros Hov Hkind Hprim Hk Hs Hfl Hfr.
  destruct (get_wrapped_val_eval (E:=E) (Local "val" TInt) k d Hk) as (w & Hw & _).
  exists w. split; [done|]. unfold handle_bin_op_overflowing, field_snaps_to_snap.
  rewrite Hov, Hprim, Hkind, Hs, bool_decide_true by done.
  cbn [assert_that mbind outcome_bind].
  assert (kind <> CmpEq /\ BinOpKind_ty kind = TInt) as [Hne Hty]
    by (destruct op; simpl in *; by simplify_eq).
  unfold mk_bin_op_expr. rewrite (bool_decide_false (kind = CmpEq)) by done.
  cbn -[call prim_to_snap mk_let_expr get_wrapped_val bool_decide].
  unfold mk_local_ex, mk_bin_op_expr_inner. cbn [decl_name decl_ty]. rewrite Hw.
  cbn -[call prim_to_snap mk_let_expr get_wrapped_val bool_decide].
  rewrite (bool_decide_false (CmpNe = CmpEq)), bool_decide_true by done.
  cbn -[call prim_to_snap mk_let_expr]. fold (overflow_pair s prim).
  rewrite (mk_let_fine {| decl_name := "wrapped_val"; decl_ty := TInt |})
    by (eapply overflow_pair_fine; eauto).
  apply (mk_let_fine {| decl_name := "val"; decl_ty := TInt |}).
  by eapply checked_body_fine.
Qed.

(** [encodes_checked i s op d f]: on snapshots of [a] and [b] the body of
    [f] is the tuple of the snapshot of the wrapped result and of the flag
    that says whether the exact result is out of range. *)
Definition encodes_checked (i : TyPurePrimDataInt) (s : TyUsePureStruct) (op : mir.BinOp)
    (d : Z * bool) (f : FunctionGenData) : Prop :=
  function_pres f = [] /\
  forall (ρ : gmap string (value domain_value)) v w a b g,
    ρ !! "arg1" = Some v -> represents i v a ->
    ρ !! "arg2" = Some w -> represents i w b -> exact_op op = Some g ->
    exists body u, function_expr f = Some body /\ represents i u (wrap d (g a b)) /\
      eval ρ body = viper_fun (idn_name (struct_cons s))
                      [u; VBool (negb (bool_decide (in_range d (g a b))))].

Lemma overflow_flag d z :
  supported d ->
  negb (bool_decide (@VInt domain_value (wrap d z) = VInt z))
  = negb (bool_decide (in_range d z)).
Proof.
  intros Hd. f_equal. apply bool_decide_ext. split.
  - intros [= Heq]. rewrite <- Heq. by apply wrap_in_range.
  - intros Hz. by rewrite wrap_id.
Qed.

Lemma exact_op_eval op kind g ρ lhs rhs a b :
  @BinOpKind_from E op = Ok kind -> exact_op op = Some g ->
  eval ρ lhs = Some (VInt a) -> eval ρ rhs = Some (VInt b) ->
  eval ρ (BinOp kind lhs rhs) = Some (VInt (g a b)).
Proof.
  intros Hk Hg Hl Hr. destruct op; try discriminate; simplify_eq/=; by rewrite Hl, Hr.
Qed.

Lemma eval_arg (ρ : gmap string (value domain_value)) i x ty v a :
  ρ !! x = Some v -> represents i v a ->
  eval ρ (call (int_snap_to_prim i) [mk_local_ex {| decl_name := x; decl_ty := ty |}])
  = Some (VInt a).
Proof. intros Hx Hv. by eapply eval_snap_to_prim. Qed.

Lemma eval_let ρ x e v body :
  eval ρ e = Some v -> eval ρ (Let x e body) = eval (<[x := v]> ρ) body.
Proof. intros He. simpl. by rewrite He. Qed.

Lemma eval_call2 ρ f e1 e2 v1 v2 :
  eval ρ e1 = Some v1 -> eval ρ e2 = Some v2 ->
  eval ρ (call f [e1; e2]) = viper_fun (idn_name f) [v1; v2].
Proof. intros H1 H2. simpl. by rewrite H1, H2. Qed.

Lemma eval_overflowed (ρ : gmap string (value domain_value)) x y :
  ρ !! "wrapped_val" = Some x -> ρ !! "val" = Some y ->
  eval ρ (BinOp CmpNe (Local "wrapped_val" TInt) (Local "val" TInt))
  = Some (VBool (negb (bool_decide (x = y)))).
Proof. intros Hx Hy. simpl. by rewrite Hx, Hy. Qed.

Lemma encode_checked k d i s op kind t tuple_snap :
  @get_int_data H E k = Ok d -> mir.is_overflowing op = true ->
  @BinOpKind_from E op = Ok kind -> pt_kind t = k -> pt_prim t = PrimInt i ->
  struct_fields s = [None; None] ->
  let arg x := call (int_snap_to_prim i) [mk_local_ex {| decl_name := x; decl_ty := pt_snap t |}] in
  exists f w, @bin_op_do_encode_full H E (ResTuple tuple_snap s t) op t t = Ok f /\
    function_pres f = [] /\ @get_wrapped_val H E (Local "val" TInt) k = Ok w /\
    function_expr f = Some (Let "val" (BinOp kind (arg "arg1") (arg "arg2"))
                        (Let "wrapped_val" w (overflow_pair s (PrimInt i)))).
Proof.
  intros Hk Hop Hkind Htk Htp Hs arg.
  assert (forall m x, m !! x = None \/ m !! x = Some (pt_snap t) -> fine m (arg x) = true) as Harg.
  { intros m x Hx. apply fine_call. cbn [forallb]. unfold mk_local_ex. by rewrite fine_local. }
  destruct (overflowing_shape s (PrimInt i) k op kind d (arg "arg1") (arg "arg2"))
    as (w & Hw & Hshape); [done..|by auto|by auto|].
  unfold bin_op_do_encode_full, bin_op_body. rewrite Htp, Hop, Htk.
  cbn -[call handle_bin_op_overflowing mk_function]. unfold arg in Hshape. rewrite Hshape.
  cbn -[call mk_function]. unfold mk_function.
  rewrite fine_check.
  { eexists _, w. repeat split; done. }
  eapply checked_body_fine; [by destruct op; simpl in *; simplify_eq|done|done|done|..];
    apply Harg; right; [|by apply lookup_insert_eq].
  simpl. by rewrite lookup_insert_ne, lookup_insert_eq.
Qed.

Lemma encode_checked_sound k d i s op t tuple_snap :
  @get_int_data H E k = Ok d -> mir.is_overflowing op = true ->
  pt_kind t = k -> pt_prim t = PrimInt i -> IntSnapshots i (in_range d) ->
  struct_fields s = [None; None] ->
  exists f, @bin_op_do_encode_full H E (ResTuple tuple_snap s t) op t t = Ok f /\
    encodes_checked i s op d f.
Proof.
  intros Hk Hop Htk Htp Hi Hs.
  assert (exists kind, @BinOpKind_from E op = Ok kind) as [kind Hkind]
    by (destruct op; try discriminate; simpl; eauto).
  destruct (encode_checked k d i s op kind t tuple_snap) as (f & w & Hf & Hpres & Hw & Hbody);
    [done..|].
  exists f. split; [done|]. split; [done|]. intros ρ v1 v2 a b g Hv Hra Hw2 Hrb Hg.
  pose proof (get_int_data_supported _ _ Hk) as Hd.
  destruct (get_wrapped_val_eval (E:=E) (Local "val" TInt) k d Hk) as (w' & Hw' & Hwe).
  assert (w' = w) as -> by congruence.
  set (ρ1 := <["val" := VInt (g a b)]> ρ).
  assert (eval ρ1 w = Some (VInt (wrap d (g a b)))) as Hwv
    by (apply Hwe; apply lookup_insert_eq).
  set (ρ2 := <["wrapped_val" := VInt (wrap d (g a b))]> ρ1).
  destruct (snap_of_prim ρ2 (Local "wrapped_val" TInt) (wrap d (g a b))) as (u & Hu & Hru);
    [apply lookup_insert_eq | by apply wrap_in_range |].
  assert (ρ2 !! "wrapped_val" = Some (VInt (wrap d (g a b)))) as Hρ2 by apply lookup_insert_eq.
  assert (ρ2 !! "val" = Some (VInt (g a b))) as Hρ1
    by (unfold ρ2; rewrite lookup_insert_ne by done; apply lookup_insert_eq).
  eexists _, u. split; [exact Hbody|]. split; [done|].
  rewrite (eval_let _ _ _ _ _ (exact_op_eval _ _ _ _ _ _ a b Hkind Hg
    (eval_arg _ i _ _ _ _ Hv Hra) (eval_arg _ i _ _ _ _ Hw2 Hrb))).
  fold ρ1. rewrite (eval_let _ _ _ _ _ Hwv). fold ρ2. unfold overflow_pair.
  rewrite (eval_call2 _ _ _ _ _ _ Hu (eval_overflowed ρ2 _ _ Hρ2 Hρ1)).
  by rewrite overflow_flag.
Qed.
End overflowing.

(** ** Operators on booleans *)
Definition rust_bool_op (op : mir.BinOp) (a b : bool) : option bool :=
  match op with
  | mir.BitAnd => Some (a && b)
  | mir.BitOr => Some (a || b)
  | mir.BitXor | mir.Ne => Some (xorb a b)
  | mir.Eq => Some (eqb a b)
  | _ => None
  end.

Section bools.
Context {H : Host} {VM : ViperModel} {E : Type}.

Lemma encode_bool op c :
  rust_bool_op op true true = Some c ->
  exists f, @bin_op_do_encode_full H E (ResPrim bool_ty) op bool_ty bool_ty = Ok f /\
    function_pres f = [] /\
    forall (ρ : gmap string (value domain_value)) a b,
      ρ !! "arg1" = Some (VBool a) -> ρ !! "arg2" = Some (VBool b) ->
      exists body r, function_expr f = Some body /\ rust_bool_op op a b = Some r /\
        eval ρ body = Some (VBool r).
Proof.
  intros Hop. destruct op; try discriminate;
    (eexists; split; [vm_compute; reflexivity|]; split; [done|]);
    intros ρ a b Ha Hb; eexists _, _; (split; [reflexivity|]); (split; [reflexivity|]);
    simpl; rewrite Ha, ?Hb; destruct a, b; simpl;
    rewrite ?bool_decide_true, ?bool_decide_false by congruence; done.
Qed.
End bools.

(** ** Properties *)
Section claims.
Context {H : Host} {VM : ViperModel} {E : Type}.



(** On booleans, [&], [|], [^], [==] and [!=] are encoded without
    preconditions and compute Rust's result. *)
Theorem bool_op_encoding_correct op c :
  rust_bool_op op true true = Some c ->
  exists f, @bin_op_do_encode_full H E (ResPrim bool_ty) op bool_ty bool_ty = Ok f /\
    function_pres f = [] /\
    forall (ρ : gmap string (value domain_value)) a b,
      ρ !! "arg1" = Some (VBool a) -> ρ !! "arg2" = Some (VBool b) ->
      exists body r, function_expr f = Some body /\ rust_bool_op op a b = Some r /\
        eval ρ body = Some (VBool r).
Proof. apply encode_bool. Qed.

End claims.

(** ** Witnesses: [i32] in the concrete model *)
Module i32_witness.
Import i32_model.

Definition builder : DomainBuilder :=
  {| builder_name := "s_Int_i32"; builder_self_type := TDomain "s_Int_i32" [];
     builder_axioms := []; builder_functions := []; builder_interpretation := None |}.

Definition encoded : DomainBuilder :=
  match ty_pure (E:=unit) (TyInt I32) builder with Ok (_, b) => b | _ => builder end.

Definition i32_ty : PrimTy :=
  {| pt_kind := TyInt I32; pt_prim := PrimInt int_prim;
     pt_snap := TDomain "s_Int_i32" []; pt_name := "Int_i32" |}.

Definition pair_struct : TyUsePureStruct :=
  {| struct_cons := {| idn_name := "s_Tuple2_cons"; idn_result := TDomain "s_Tuple2" [] |};
     struct_fields := [None; None] |}.

Lemma cons_typed : fun_typed (int_prim_to_snap int_prim) TInt.
Proof. intros [z| |[]|] Hv; try discriminate. simpl. eauto. Qed.

Lemma of_Z_proj (s : i32_value) : of_Z (`s) = s.
Proof.
  destruct s as [s Hs]. assert (wrap data s = s) as Hw.
  { apply wrap_id; [unfold supported; simpl; lia|]. exact (bool_decide_eq_true_1 _ Hs). }
  unfold of_Z. simpl. generalize (wrap_ok s). rewrite Hw. intros Hs'.
  by rewrite (proof_irrel Hs' Hs).
Qed.

Lemma encoded_axioms : axioms_hold encoded.
Proof.
  unfold axioms_hold, encoded. cbn [ty_pure].
  repeat constructor; simpl.
  - intros [z|c|[s|[]]|] Hv; try discriminate.
    rewrite lookup_singleton_eq. simpl. rewrite of_Z_proj. by rewrite bool_decide_true.
  - intros [z|c|[s|[]]|] Hv; try discriminate.
    destruct (bool_decide_eq_true_1 _ (proj2_sig s)) as [Hlo Hhi].
    rewrite lookup_singleton_eq. simpl. unfold int_min, int_max in *; simpl in *.
    change (- Z.abs (-2147483648)) with (-2147483648).
    destruct (Z.leb_spec (-2147483648) (`s)); [|lia].
    by destruct (Z.leb_spec (`s) 2147483647); [|lia].
  - intros [z|c|[s|[]]|] Hv; try discriminate.
    rewrite lookup_singleton_eq. simpl.
    change (- Z.abs (-2147483648)) with (-2147483648).
    destruct (Z.leb_spec (-2147483648) z); simpl; [|done].
    destruct (Z.leb_spec z 2147483647); simpl; [|done].
    rewrite wrap_id; [by rewrite bool_decide_true | unfold supported; simpl; lia |].
    unfold in_range, int_min, int_max; simpl; lia.
Qed.



Lemma bool_xor_witness :
  exists f, @bin_op_do_encode_full host unit (ResPrim bool_ty) mir.BitXor bool_ty bool_ty = Ok f
            /\ function_pres f = [].
Proof.
  destruct (bool_op_encoding_correct (E:=unit) mir.BitXor false eq_refl) as (f & Hf & Hp & _).
  exists f. exact (conj Hf Hp).
Defined.

End i32_witness.
