(* ===== verification/UnOpCast.v ===== *)
(** * Encoding of unary operators and integer casts

    [prusti-encoder/src/encoders/builtin/un_op.rs] and the integer casts of
    [builtin/cast.rs], against the same interfaces as the binary operators. *)
From S2P Require Import Prelude Vir VirMake VirProgram VirSem VirInt TyDomain Primitive BinOpEnc BinOpSound.
Local Open Scope Z_scope.

(** [impl From<mir::UnOp> for UnOpKind]. *)
Definition UnOpKind_from {E} (op : mir.UnOp) : outcome E UnOpKind :=
  match op with
  | mir.Not => Ok Not
  | mir.Neg => Ok Neg
  | mir.PtrMetadata => unreachable
  end.

Definition UnOp_debug (op : mir.UnOp) : string :=
  match op with mir.Not => "Not" | mir.Neg => "Neg" | mir.PtrMetadata => "PtrMetadata" end.

Section encode.
Context {H : Host} {E : Type}.

(** The read of pointer metadata goes through the caster of the operand's
    type and is a parameter. *)
Variable cast_metadata : PrimTy -> PrimTy -> Expr -> outcome E Expr.

Definition un_op_body (result_ty : PrimTy) (op : mir.UnOp) (operand_ty : PrimTy)
    (snap_arg : Expr) : outcome E Expr :=
  match op with
  | mir.PtrMetadata => cast_metadata result_ty operand_ty snap_arg
  | mir.Neg | mir.Not =>
      _ ← assert_that "assertion `left == right` failed"
            (bool_decide (pt_name result_ty = pt_name operand_ty));
      match pt_prim operand_ty with
      | PrimBool | PrimInt _ =>
          prim_arg ← snap_to_prim (pt_prim operand_ty) snap_arg;
          kind ← UnOpKind_from op;
          let val := prim_to_snap (pt_prim operand_ty) (mk_unary_op_expr kind prim_arg) in
          if (match op with mir.Neg => true | _ => false end) && is_signed (pt_kind operand_ty)
          then
            bound ← get_min_int (pt_kind operand_ty);
            let cond := mk_eq_expr prim_arg bound in
            Ok (mk_ternary_expr cond snap_arg val)
          else Ok val
      | PrimFloat float =>
          _ ← assert_that "assertion failed: matches!(op, mir::UnOp::Neg)"
                (match op with mir.Neg => true | _ => false end);
          Ok (call (fp_neg float) [snap_arg])
      end
  end.

Definition un_op_do_encode_full (result_ty : PrimTy) (op : mir.UnOp) (operand_ty : PrimTy) :
    outcome E FunctionGenData :=
  let name := "mir_unop_" +:+ UnOp_debug op +:+ "_" +:+ pt_name operand_ty in
  let name := match op with
              | mir.PtrMetadata => name +:+ "_" +:+ pt_name result_ty
              | _ => name
              end in
  let snap_arg_decl := {| decl_name := "arg"; decl_ty := pt_snap operand_ty |} in
  body ← un_op_body result_ty op operand_ty (mk_local_ex snap_arg_decl);
  lift (mk_function name (pt_snap result_ty) [snap_arg_decl] [] [] None (Some body)).

(** Every value of the source type is one of the target type. *)
Definition lossless (from to : Z * bool) : bool :=
  match from.2, to.2 with
  | false, false | true, true => from.1 <=? to.1
  | false, true => from.1 <? to.1
  | true, false => false
  end.

(** The [IntToInt] arm of the cast encoder. *)
Definition int_to_int_body (result_ty operand_ty : PrimTy) (arg_ex : Expr) : outcome E Expr :=
  wrapped ←
    match pt_kind operand_ty with
    | TyBool => Ok (mk_ternary_expr arg_ex (mk_int 1) (mk_int 0))
    | _ =>
        to ← get_int_data (pt_kind result_ty);
        from ← get_int_data (pt_kind operand_ty);
        arg_prim ← snap_to_prim (pt_prim operand_ty) arg_ex;
        if lossless from to then Ok arg_prim
        else get_wrapped_val arg_prim (pt_kind result_ty)
    end;
  Ok (prim_to_snap (pt_prim result_ty) wrapped).

Definition int_to_int_do_encode_full (result_ty operand_ty : PrimTy) : outcome E FunctionGenData :=
  let name := "mir_cast_i2i_" +:+ pt_name operand_ty +:+ "_to_" +:+ pt_name result_ty in
  let arg_decl := {| decl_name := "arg"; decl_ty := pt_snap operand_ty |} in
  expr ← int_to_int_body result_ty operand_ty (mk_local_ex arg_decl);
  lift (mk_function name (pt_snap result_ty) [arg_decl] [] [] None (Some expr)).
End encode.

Lemma lossless_in_range from to z :
  supported from -> supported to -> lossless from to = true -> in_range from z -> in_range to z.
Proof.
  destruct from as [fb fs], to as [tb ts]. unfold lossless, supported, in_range, int_min, int_max.
  simpl. intros Hf Ht Hl Hz.
  destruct fs, ts; try discriminate.
  - assert (2 ^ (fb - 1) <= 2 ^ (tb - 1)) by (apply Z.pow_le_mono_r; lia). lia.
  - assert (2 ^ fb <= 2 ^ (tb - 1)) by (apply Z.pow_le_mono_r; lia). 
    assert (0 < 2 ^ (tb - 1)) by (apply Z.pow_pos_nonneg; lia). lia.
  - assert (2 ^ fb <= 2 ^ tb) by (apply Z.pow_le_mono_r; lia). lia.
Qed.

Section soundness.
Context {H : Host} {VM : ViperModel} {E : Type}.
Variable cast_metadata : PrimTy -> PrimTy -> Expr -> outcome E Expr.

(** [encodes_unary i j g f]: [f] has no precondition, and on a snapshot of
    [a] its body is a snapshot of [g a]. *)
Definition encodes_unary (i j : TyPurePrimDataInt) (g : Z -> Z) (f : FunctionGenData) : Prop :=
  function_pres f = [] /\
  forall (ρ : gmap string (value domain_value)) v a,
    ρ !! "arg" = Some v -> represents i v a ->
    exists body u, function_expr f = Some body /\ eval ρ body = Some u /\ represents j u (g a).

Lemma mk_function_unary name ret (t : PrimTy) body :
  fine {["arg" := pt_snap t]} body = true ->
  lift (E:=E) (mk_function name ret [{| decl_name := "arg"; decl_ty := pt_snap t |}] [] [] None (Some body))
  = Ok {| function_name := name; function_args := [{| decl_name := "arg"; decl_ty := pt_snap t |}];
          function_ret := ret; function_pres := []; function_posts := []; function_decreases := DecNone; function_expr := Some body |}.
Proof. intros Hf. unfold mk_function. by rewrite fine_check. Qed.

Lemma fine_arg (t : PrimTy) i :
  fine {["arg" := pt_snap t]}
    (call (int_snap_to_prim i) [mk_local_ex {| decl_name := "arg"; decl_ty := pt_snap t |}]) = true.
Proof.
  apply fine_call. cbn [forallb]. unfold mk_local_ex. rewrite fine_local; [done|].
  right. apply lookup_singleton_eq.
Qed.

Lemma neg_min d : supported d -> d.2 = true -> wrap d (- int_min d) = int_min d.
Proof.
  intros Hd Hs. pose proof (wrap_in_range d (- int_min d) Hd).
  destruct (wrap_congruent d (- int_min d) Hd) as [q Hq].
  apply (in_range_unique d _ _ (q + 1)); try done.
  - unfold in_range, int_min, int_max in *. rewrite Hs in *. 
    assert (0 < 2 ^ (d.1 - 1)) by (apply Z.pow_pos_nonneg; unfold supported in Hd; lia). lia.
  - rewrite Hq. unfold int_min. rewrite Hs.
    assert (2 ^ d.1 = 2 * 2 ^ (d.1 - 1)); [|lia].
    rewrite <- Z.pow_succ_r by (unfold supported in Hd; lia). f_equal. lia.
Qed.

Lemma encode_neg_sound k d i t :
  @get_int_data H E k = Ok d -> is_signed k = true -> pt_kind t = k -> pt_prim t = PrimInt i ->
  IntSnapshots i (in_range d) ->
  exists f, @un_op_do_encode_full H E cast_metadata t mir.Neg t = Ok f /\
    encodes_unary i i (fun a => wrap d (- a)) f.
Proof.
  intros Hk Hs Htk Htp Hi.
  pose proof (get_int_data_supported _ _ Hk) as Hd.
  assert (d.2 = true) as Hds by (by rewrite <- (is_signed_data k d Hk)).
  destruct (get_min_int_eval (E:=E) k d Hk) as (min & Hmin & Hmin_e).
  unfold un_op_do_encode_full, un_op_body. rewrite bool_decide_true by done.
  rewrite Htp, Htk, Hs. cbn -[call mk_function get_min_int]. rewrite Hmin.
  cbn -[call mk_function]. unfold mk_local_ex. cbn [decl_name decl_ty].
  rewrite mk_function_unary.
  2:{ apply fine_ternary; [apply fine_bin_op; [apply fine_arg | by eapply get_min_int_fine]
      | apply fine_local; right; apply lookup_singleton_eq
      | apply fine_call; cbn [forallb]; rewrite fine_un_op; [done | apply fine_arg]]. }
  eexists; split; [done|]. split; [done|]. intros ρ v a Hv Hra.
  assert (in_range d a) as Ha by (by eapply represents_ok).
  pose proof (eval_arg ρ i "arg" (pt_snap t) v a Hv Hra) as Hprim.
  unfold mk_local_ex in Hprim. cbn [decl_name decl_ty] in Hprim.
  set (p := call (int_snap_to_prim i) [Local "arg" (pt_snap t)]) in *.
  eexists. cbn [function_expr].
  assert (eval ρ (mk_eq_expr p min) = Some (VBool (a =? int_min d))) as Hcond.
  { cbn [mk_eq_expr eval]. unfold mk_eq_expr, mk_bin_op_expr_inner. cbn [eval].
    rewrite Hprim, Hmin_e. simpl. by rewrite bool_decide_VInt. }
  destruct (Z.eqb_spec a (int_min d)) as [->|Hne].
  - exists v. split; [done|]. split; [|by rewrite neg_min].
    unfold mk_ternary_expr. cbn [eval]. by rewrite Hcond.
  - assert (eval ρ (UnOp Neg p) = Some (VInt (- a))) as Hneg
      by (cbn [eval]; by rewrite Hprim).
    assert (in_range d (- a)) as Hra'.
    { unfold in_range, int_min, int_max in *. rewrite Hds in *. lia. }
    destruct (snap_of_prim ρ (UnOp Neg p) (- a) Hneg Hra') as (u & Hu & Hru).
    exists u. split; [done|]. split; [|by rewrite wrap_id].
    unfold mk_ternary_expr. cbn [eval]. rewrite Hcond. exact Hu.
Qed.

(** The body of a cast: the source integer itself or its wrapping. *)
Lemma int_to_int_shape k1 k2 d1 d2 i j t1 t2 :
  @get_int_data H E k1 = Ok d1 -> @get_int_data H E k2 = Ok d2 ->
  pt_kind t1 = k1 -> pt_kind t2 = k2 -> pt_prim t1 = PrimInt i -> pt_prim t2 = PrimInt j ->
  let arg := mk_local_ex {| decl_name := "arg"; decl_ty := pt_snap t1 |} in
  exists w, fine {["arg" := pt_snap t1]} w = true /\
    @int_to_int_body H E t2 t1 arg = Ok (prim_to_snap (PrimInt j) w) /\
    forall ρ a, in_range d1 a -> eval ρ (call (int_snap_to_prim i) [arg]) = Some (VInt a) ->
                eval ρ w = Some (VInt (wrap d2 a)).
Proof.
  intros Hk1 Hk2 Ht1 Ht2 Hp1 Hp2 arg.
  pose proof (get_int_data_supported _ _ Hk1) as Hd1.
  pose proof (get_int_data_supported _ _ Hk2) as Hd2.
  set (p := call (int_snap_to_prim i) [arg]).
  assert (@int_to_int_body H E t2 t1 arg =
    (wrapped ← if lossless d1 d2 then Ok p else get_wrapped_val p k2;
     Ok (prim_to_snap (PrimInt j) wrapped))) as ->.
  { unfold int_to_int_body. rewrite Hp1, Hp2, Ht1, Ht2.
    destruct k1; try done; cbn -[call get_int_data]; rewrite Hk2; cbn -[call get_int_data];
      rewrite Hk1; done. }
  destruct (lossless d1 d2) eqn:Hl.
  - exists p. split; [apply fine_arg|]. split; [done|].
    intros ρ a Ha Hp. rewrite wrap_id; [done|done|exact (lossless_in_range d1 d2 a Hd1 Hd2 Hl Ha)].
  - destruct (get_wrapped_val_eval (E:=E) p k2 d2 Hk2) as (w & Hw & Hwe). exists w.
    split; [eapply get_wrapped_val_fine; [apply fine_arg | exact Hw]|].
    rewrite Hw. split; [done | by eauto].
Qed.

Lemma encode_cast_sound k1 k2 d1 d2 i j t1 t2 :
  @get_int_data H E k1 = Ok d1 -> @get_int_data H E k2 = Ok d2 ->
  pt_kind t1 = k1 -> pt_kind t2 = k2 -> pt_prim t1 = PrimInt i -> pt_prim t2 = PrimInt j ->
  IntSnapshots i (in_range d1) -> IntSnapshots j (in_range d2) ->
  exists f, @int_to_int_do_encode_full H E t2 t1 = Ok f /\ encodes_unary i j (wrap d2) f.
Proof.
  intros Hk1 Hk2 Ht1 Ht2 Hp1 Hp2 Hi Hj.
  destruct (int_to_int_shape k1 k2 d1 d2 i j t1 t2) as (w & Hfine & Hbody & Heval); [done..|].
  unfold int_to_int_do_encode_full. rewrite Hbody. cbn [mbind outcome_bind].
  rewrite mk_function_unary by (by apply fine_prim_to_snap).
  eexists; split; [done|]. split; [done|]. intros ρ v a Hv Hra.
  assert (in_range d1 a) as Ha by (by eapply represents_ok).
  destruct (snap_of_prim ρ w (wrap d2 a)) as (u & Hu & Hru).
  { apply Heval; [done|]. by eapply eval_arg. }
  { apply wrap_in_range. by eapply get_int_data_supported. }
  exists (prim_to_snap (PrimInt j) w), u. done.
Qed.
End soundness.

(** ** Properties *)
Section claims.
Context {H : Host} {VM : ViperModel} {E : Type}.
Variable cast_metadata : PrimTy -> PrimTy -> Expr -> outcome E Expr.

(** C18: an [as] cast between integer types is encoded, for every pair of
    types, as a function without preconditions that maps the snapshot of [a]
    to the snapshot of [a] truncated to the target's width and read with the
    target's signedness; the branch that omits the wrapping is taken only
    when the value is kept. *)
Theorem int_cast_encoding_correct k1 k2 d1 d2 b1 b1' b2 b2' i j t1 t2 :
  @get_int_data H E k1 = Ok d1 -> @get_int_data H E k2 = Ok d2 ->
  k1 <> TyChar -> k2 <> TyChar ->
  ty_pure (E:=E) k1 b1 = Ok (PrimInt i, b1') ->
  ty_pure (E:=E) k2 b2 = Ok (PrimInt j, b2') ->
  fun_typed (int_prim_to_snap i) TInt -> fun_typed (int_prim_to_snap j) TInt ->
  axioms_hold b1' -> axioms_hold b2' ->
  pt_kind t1 = k1 -> pt_kind t2 = k2 -> pt_prim t1 = PrimInt i -> pt_prim t2 = PrimInt j ->
  exists f, @int_to_int_do_encode_full H E t2 t1 = Ok f /\ encodes_unary i j (wrap d2) f.
Proof.
  intros. eapply (encode_cast_sound k1 k2 d1 d2); try done; by eapply ty_pure_faithful.
Qed.

(** negation of a signed integer is encoded as a total function with
    two's complement meaning, [-MIN] being [MIN] again. *)
Theorem neg_encoding_correct k d b b' i t :
  @get_int_data H E k = Ok d -> is_signed k = true ->
  ty_pure (E:=E) k b = Ok (PrimInt i, b') ->
  fun_typed (int_prim_to_snap i) TInt -> axioms_hold b' ->
  pt_kind t = k -> pt_prim t = PrimInt i ->
  exists f, @un_op_do_encode_full H E cast_metadata t mir.Neg t = Ok f /\
    encodes_unary i i (fun a => wrap d (- a)) f.
Proof.
  intros Hk Hs Hty. intros. eapply (encode_neg_sound _ k d); try done.
  eapply ty_pure_faithful; try done. by intros ->.
Qed.
End claims.

Module cast_witness.
Import i32_model i32_witness.

Lemma i32_to_i32_witness :
  exists f, @int_to_int_do_encode_full host unit i32_ty i32_ty = Ok f
            /\ encodes_unary int_prim int_prim (wrap data) f.
Proof.
  exact (int_cast_encoding_correct (E:=unit) (TyInt I32) (TyInt I32) data data
    builder encoded builder encoded int_prim int_prim i32_ty i32_ty eq_refl eq_refl
    ltac:(discriminate) ltac:(discriminate) eq_refl eq_refl cons_typed cons_typed
    encoded_axioms encoded_axioms eq_refl eq_refl eq_refl eq_refl).
Defined.

Lemma neg_witness :
  exists f, @un_op_do_encode_full host unit (fun _ _ e => Ok e) i32_ty mir.Neg i32_ty = Ok f
            /\ encodes_unary int_prim int_prim (fun a => wrap data (- a)) f.
Proof.
  exact (neg_encoding_correct (E:=unit) (fun _ _ e => Ok e) (TyInt I32) data
    builder encoded int_prim i32_ty eq_refl eq_refl eq_refl cons_typed
    encoded_axioms eq_refl eq_refl).
Defined.
End cast_witness.
