(* ===== verification/TyUse.v ===== *)
(** * Uses of types in pure code

    [prusti-encoder/src/encoders/ty/use_pure.rs] with the data types of
    [ty/data.rs], the generic casters of [ty/generics/use_casters.rs], the
    tuples of [ty/viper_tuple.rs] and the constants of [ty/pure.rs]: what an
    encoder gets for a Rust type, and the expressions it builds from it. *)
From S2P Require Import Prelude Vir VirMake VirSem VirInt VirReify TyDomain Primitive.
Local Open Scope Z_scope.

(** ** Generic arguments and casters *)
Record GArgsTy := { get_ty : list Expr; get_const : list Expr }.
Definition garg_exprs (a : GArgsTy) : list Expr := get_ty a ++ get_const a.

Record Casters := { make_generic : FunctionIdn; make_concrete : FunctionIdn; cast_ty_args : GArgsTy }.

Inductive GArgCaster := SomeCasters (c : Casters) | NoCast.

Definition cast_to_callee_ctx (c : GArgCaster) (e : Expr) : Expr :=
  match c with
  | SomeCasters c => call (make_generic c) (e :: garg_exprs (cast_ty_args c))
  | NoCast => e
  end.

Definition cast_to_caller_ctx (c : GArgCaster) (e : Expr) : Expr :=
  match c with
  | SomeCasters c => call (make_concrete c) (e :: garg_exprs (cast_ty_args c))
  | NoCast => e
  end.

(** ** Data of a type *)
Record TyUsePureField := {
  field_caster : GArgCaster;
  field_args : GArgsTy;
  field_read : AdtDestructorData;
  ref_to_field_ref : FunctionIdn;
}.

Record TyUsePureStruct := { struct_cons : FunctionIdn; struct_fields : list TyUsePureField }.

Record TyUsePureEnum := { enum_snap_to_discr_snap : FunctionIdn; enum_variants : list TyUsePureStruct }.

(** [TyUsePureImmRef] and [TyUsePureMutRef], which have the same fields. *)
Record TyUsePureReference := {
  referent_caster : GArgCaster;
  reference_metadata_caster : GArgCaster;
  reference_prim_to_snap : FunctionIdn;
  reference_deref_access : AdtDestructorData;
  reference_metadata_access : AdtDestructorData;
  reference_value_access : AdtDestructorData;
}.

Record TyUsePureRaw := {
  raw_metadata_caster : GArgCaster;
  raw_prim_to_snap : FunctionIdn;
  raw_metadata_access : AdtDestructorData;
}.

Record TyUsePureArray := {
  array_caster : GArgCaster;
  array_args : GArgsTy;
  array_index_access : FunctionIdn;
  array_ref_to_index_ref : FunctionIdn;
  array_slice : bool;
}.

Inductive TyPureBuiltinData := PureInt | PureReal | PureSet | PureMultiset | PureSeq | PureMap.

(** The elements of a collection are generic snapshots: a caster for the elements of
    a set, a multiset and a sequence, two for the keys and values of a map. *)
Record TyUsePureBuiltinData := { builtin_pure : TyPureBuiltinData; builtin_casters : GArgCaster * GArgCaster }.

Inductive TySpecifics :=
| ArrayLike (d : TyUsePureArray)
| Param
| Opaque_
| Primitive_ (k : TyPurePrimDataKind)
| ImmRef (d : TyUsePureReference)
| MutRef (d : TyUsePureReference)
| Raw (d : TyUsePureRaw)
| StructLike (d : TyUsePureStruct)
| EnumLike (d : TyUsePureEnum)
| Builtin (d : TyUsePureBuiltinData).

Record TyUsePure := {
  snapshot : TypeKind;
  use_args : GArgsTy;
  unreachable_fn : FunctionIdn;
  specifics : TySpecifics;
}.

(** ** Access to the data *)
Section access.
Context {E : Type}.

Definition expect_primitive (t : TyUsePure) : outcome E TyPurePrimDataKind :=
  match specifics t with Primitive_ k => Ok k | _ => Panic "expected primitive" end.
Definition expect_array (t : TyUsePure) : outcome E TyUsePureArray :=
  match specifics t with ArrayLike d => Ok d | _ => Panic "expected array" end.
Definition expect_immref (t : TyUsePure) : outcome E TyUsePureReference :=
  match specifics t with ImmRef d => Ok d | _ => Panic "expected immref" end.
Definition expect_mutref (t : TyUsePure) : outcome E TyUsePureReference :=
  match specifics t with MutRef d => Ok d | _ => Panic "expected mutref" end.
Definition expect_raw (t : TyUsePure) : outcome E TyUsePureRaw :=
  match specifics t with Raw d => Ok d | _ => Panic "expected raw" end.
Definition get_structlike (t : TyUsePure) : option TyUsePureStruct :=
  match specifics t with StructLike d => Some d | _ => None end.
Definition expect_structlike (t : TyUsePure) : outcome E TyUsePureStruct :=
  match specifics t with StructLike d => Ok d | _ => Panic "expected struct-like" end.
Definition get_enumlike (t : TyUsePure) : option TyUsePureEnum :=
  match specifics t with EnumLike d => Some d | _ => None end.
Definition expect_enumlike (t : TyUsePure) : outcome E TyUsePureEnum :=
  match specifics t with EnumLike d => Ok d | _ => Panic "expected enum-like" end.

Definition get_variant_any (t : TyUsePure) (vid : nat) : outcome E TyUsePureStruct :=
  match specifics t with
  | StructLike s => _ ← assert_that "assertion `left == right` failed" (vid =? 0)%nat; Ok s
  | EnumLike e => unwrap "index out of bounds" (enum_variants e !! vid)
  | _ => Panic "expected structlike or enumlike type"
  end.

Definition expect_variant (t : TyUsePure) (vid : nat) : outcome E TyUsePureStruct :=
  e ← expect_enumlike t; unwrap "index out of bounds" (enum_variants e !! vid).

Definition get_variant_opt (t : TyUsePure) (vid : option nat) : outcome E (option TyUsePureStruct) :=
  match vid with
  | None => Ok (get_structlike t)
  | Some vid => Some <$> expect_variant t vid
  end.

Definition expect_variant_opt (t : TyUsePure) (vid : option nat) : outcome E TyUsePureStruct :=
  s ← get_variant_opt t vid; unwrap "expected structlike or enumlike type" s.

Definition elem_caster (d : TyUsePureBuiltinData) : outcome E GArgCaster :=
  match builtin_pure d with
  | PureSet | PureMultiset | PureSeq => Ok (fst (builtin_casters d))
  | _ => Panic "assertion failed: matches!(self.pure, Set | Multiset | Seq)"
  end.
Definition map_casters (d : TyUsePureBuiltinData) : outcome E (GArgCaster * GArgCaster) :=
  match builtin_pure d with
  | PureMap => Ok (builtin_casters d)
  | _ => Panic "assertion failed: matches!(self.pure, Map)"
  end.

(** Indexing a structure by a field. *)
Definition struct_field (s : TyUsePureStruct) (i : nat) : outcome E TyUsePureField :=
  unwrap "index out of bounds" (struct_fields s !! i).

(** ** Expressions *)
Definition read (f : TyUsePureField) (snap : Expr) : Expr :=
  cast_to_caller_ctx (field_caster f) (destr_call (field_read f) snap).
Definition field_ref (f : TyUsePureField) (self_ref : Expr) : Expr :=
  call (ref_to_field_ref f) (self_ref :: garg_exprs (field_args f)).

(** The zip of the snapshots with the fields. *)
Definition cast_fields (fields : list TyUsePureField) (snaps : list Expr) : list Expr :=
  zip_with (fun f snap => cast_to_callee_ctx (field_caster f) snap) fields snaps.

Definition field_snaps_to_snap (s : TyUsePureStruct) (snaps : list Expr) : outcome E Expr :=
  _ ← assert_that "assertion `left == right` failed" (length snaps =? length (struct_fields s))%nat;
  Ok (call (struct_cons s) (cast_fields (struct_fields s) snaps)).

Definition snap_to_discr_snap (e : TyUsePureEnum) (snap : Expr) : Expr :=
  call (enum_snap_to_discr_snap e) [snap].

Definition index (a : TyUsePureArray) (snap idx : Expr) : Expr :=
  cast_to_caller_ctx (array_caster a) (call (array_index_access a) [snap; idx]).
Definition ref_to_index_ref (a : TyUsePureArray) (self_ref idx : Expr) : Expr :=
  call (array_ref_to_index_ref a) ([self_ref; idx] ++ get_ty (array_args a)).

Definition reference_to_snap (r : TyUsePureReference) (ref_ metadata inner : Expr) : Expr :=
  call (reference_prim_to_snap r)
    [ref_; cast_to_callee_ctx (reference_metadata_caster r) metadata;
     cast_to_callee_ctx (referent_caster r) inner].
Definition deref_access (r : TyUsePureReference) (snap : Expr) : Expr :=
  destr_call (reference_deref_access r) snap.
Definition metadata_access (r : TyUsePureReference) (snap : Expr) : Expr :=
  cast_to_caller_ctx (reference_metadata_caster r) (destr_call (reference_metadata_access r) snap).
Definition value_access (r : TyUsePureReference) (snap : Expr) : Expr :=
  cast_to_caller_ctx (referent_caster r) (destr_call (reference_value_access r) snap).
Definition raw_to_snap (r : TyUsePureRaw) (ref_ metadata : Expr) : Expr :=
  call (raw_prim_to_snap r) [ref_; cast_to_callee_ctx (raw_metadata_caster r) metadata].

Definition unreachable_to_snap (t : TyUsePure) : Expr :=
  call (unreachable_fn t) (garg_exprs (use_args t)).

Definition zst_to_snap (t : TyUsePure) : outcome E (option Expr) :=
  match specifics t with
  | StructLike s => if bool_decide (struct_fields s = []) then Some <$> field_snaps_to_snap s [] else Ok None
  | _ => Ok None
  end.

(** ** Tuples of Viper: [ViperTupleEncOutput] *)
Definition mk_cons (tuple : TyUsePure) (elems : list Expr) : outcome E Expr :=
  s ← expect_structlike tuple; field_snaps_to_snap s elems.
Definition mk_elem (tuple : TyUsePure) (e : Expr) (i : nat) : outcome E Expr :=
  s ← expect_structlike tuple; f ← struct_field s i; Ok (read f e).
Definition mk_unreachable (tuple : TyUsePure) : Expr := unreachable_to_snap tuple.

End access.

(** ** Constants from their bits *)
Section bits.
Context {H : Host} {E : Type}.

(** The width and signedness by which the bits are read; a float stands for its
    raw bits. *)
Definition bits_of_kind (k : TyKind) : outcome E (Z * bool) :=
  match k with TyFloat _ => Ok (0, false) | _ => get_int_data k end.

(** [value] is a [u128]; [Size::sign_extend] truncates it to the width and reads
    it as a two's complement number. *)
Definition expr_from_bits (k : TyPurePrimDataKind) (ty : TyKind) (value : Z) : outcome E Expr :=
  match k with
  | PrimBool => Ok (Const (CBool (negb (value =? 0))))
  | PrimInt _ | PrimFloat _ =>
      d ← bits_of_kind ty;
      let extended := wrap (d.1, true) value in
      if d.2 && (extended <? 0) then Ok (mk_unary_op_expr Neg (Const (CInt (Z.abs extended))))
      else Ok (Const (CInt value))
  end.

Context {VM : ViperModel}.

(** The bits of an integer of the type evaluate to that integer. *)
Lemma expr_from_bits_int ρ i ty d value :
  @get_int_data H E ty = Ok d -> 0 <= value < 2 ^ d.1 ->
  exists e, expr_from_bits (PrimInt i) ty value = Ok e /\ ground e = true /\ free_vars e = ∅ /\
    eval ρ e = Some (VInt (wrap d value)).
Proof.
  intros Hd Hv. pose proof (get_int_data_supported _ _ Hd) as Hs. unfold expr_from_bits.
  assert (bits_of_kind ty = Ok d) as -> by (by destruct ty). cbn [mbind outcome_bind].
  assert (0 < 2 ^ (d.1 - 1) /\ 2 ^ d.1 = 2 * 2 ^ (d.1 - 1)) as [Hp He].
  { unfold supported in Hs. rewrite <- Z.pow_succ_r by lia. split; [apply Z.pow_pos_nonneg; lia|f_equal; lia]. }
  destruct d as [w []]; cbn [fst snd andb] in *.
  - destruct (Z.ltb_spec (wrap (w, true) value) 0) as [Hneg|Hpos].
    + eexists. do 3 (split; [done|]). simpl. do 2 f_equal. lia.
    + eexists. do 3 (split; [done|]). simpl. do 2 f_equal. unfold wrap in *. cbn [fst snd] in *.
      destruct (Z.lt_ge_cases value (2 ^ (w - 1))); [rewrite Z.mod_small; lia|].
      replace (value + 2 ^ (w - 1)) with (value - 2 ^ (w - 1) + 1 * 2 ^ w) in * by lia.
      rewrite Z.mod_add, Z.mod_small in * by lia. lia.
  - eexists. do 3 (split; [done|]). simpl. do 2 f_equal. unfold wrap. simpl. by rewrite Z.mod_small.
Qed.
End bits.

(** ** Values of the expressions

    The functions and destructors act on values as their interpretation says;
    generic arguments have the values that the environment [base] of the
    parameters gives them. *)
Section values.
Context {VM : ViperModel} {E : Type}.
Abbreviation val := (value domain_value).
Abbreviation env := (gmap string val).
Variable base : env.

Definition call_sem (f : FunctionIdn) (args : list Expr) (vs : list val) : option val :=
  ws ← eval_list base args; viper_fun (idn_name f) (vs ++ ws).
Definition destr_sem (d : AdtDestructorData) (v : val) : option val := viper_fun (destr_name d) [v].
Definition callee_sem (c : GArgCaster) (v : val) : option val :=
  match c with
  | SomeCasters c => call_sem (make_generic c) (garg_exprs (cast_ty_args c)) [v]
  | NoCast => Some v
  end.
Definition caller_sem (c : GArgCaster) (v : val) : option val :=
  match c with
  | SomeCasters c => call_sem (make_concrete c) (garg_exprs (cast_ty_args c)) [v]
  | NoCast => Some v
  end.
Definition read_sem (f : TyUsePureField) (v : val) : option val :=
  w ← destr_sem (field_read f) v; caller_sem (field_caster f) w.
Fixpoint cast_fields_sem (fields : list TyUsePureField) (vs : list val) : option (list val) :=
  match fields, vs with
  | [], [] => Some []
  | f :: fields, v :: vs => w ← callee_sem (field_caster f) v; ws ← cast_fields_sem fields vs; Some (w :: ws)
  | _, _ => None
  end.
Definition struct_sem (s : TyUsePureStruct) (vs : list val) : option val :=
  ws ← cast_fields_sem (struct_fields s) vs; viper_fun (idn_name (struct_cons s)) ws.
Definition index_sem (a : TyUsePureArray) (v i : val) : option val :=
  w ← viper_fun (idn_name (array_index_access a)) [v; i]; caller_sem (array_caster a) w.
Definition reference_sem (r : TyUsePureReference) (metadata inner : val) : option val :=
  md ← callee_sem (reference_metadata_caster r) metadata;
  v ← callee_sem (referent_caster r) inner;
  viper_fun (idn_name (reference_prim_to_snap r)) [VNull; md; v].
Definition raw_sem (r : TyUsePureRaw) (metadata : val) : option val :=
  md ← callee_sem (raw_metadata_caster r) metadata; viper_fun (idn_name (raw_prim_to_snap r)) [VNull; md].
Definition metadata_sem (r : TyUsePureReference) (v : val) : option val :=
  w ← destr_sem (reference_metadata_access r) v; caller_sem (reference_metadata_caster r) w.
Definition value_sem (r : TyUsePureReference) (v : val) : option val :=
  w ← destr_sem (reference_value_access r) v; caller_sem (referent_caster r) w.

Variables (m : gmap string Expr) (ρ : env).
Hypothesis base_sub : base ⊆ ρ.

Lemma call_denotes f es args vs w :
  denote_all m ρ es vs -> call_sem f args vs = Some w -> denotes m ρ (call f (es ++ args)) w.
Proof.
  unfold call_sem. intros Hes (ws & Hws & Hw)%bind_Some. eapply denotes_FuncApp; [|exact Hw].
  apply Forall2_app; [done|]. apply eval_list_denote_all. by eapply eval_list_weaken.
Qed.

Lemma callee_denotes c e v w :
  denotes m ρ e v -> callee_sem c v = Some w -> denotes m ρ (cast_to_callee_ctx c e) w.
Proof.
  destruct c as [c|]; simpl; [|by intros ? [= <-]]. intros He Hw.
  apply (call_denotes (make_generic c) [e] _ [v] w); [by repeat constructor|done].
Qed.

Lemma caller_denotes c e v w :
  denotes m ρ e v -> caller_sem c v = Some w -> denotes m ρ (cast_to_caller_ctx c e) w.
Proof.
  destruct c as [c|]; simpl; [|by intros ? [= <-]]. intros He Hw.
  apply (call_denotes (make_concrete c) [e] _ [v] w); [by repeat constructor|done].
Qed.

Lemma destr_denotes d e v w : denotes m ρ e v -> destr_sem d v = Some w -> denotes m ρ (destr_call d e) w.
Proof. apply denotes_AdtDestructor. Qed.

Lemma read_denotes f e v w : denotes m ρ e v -> read_sem f v = Some w -> denotes m ρ (read f e) w.
Proof. intros He (u & Hu & Hw)%bind_Some. eapply caller_denotes; [|exact Hw]. by eapply destr_denotes. Qed.

Lemma cast_fields_denote fields es vs ws :
  denote_all m ρ es vs -> cast_fields_sem fields vs = Some ws -> denote_all m ρ (cast_fields fields es) ws.
Proof.
  revert es vs ws. unfold cast_fields.
  induction fields as [|f fields IH]; intros es vs ws Hes; destruct Hes as [|e v es vs He Hes]; simpl; try done.
  - intros [= <-]. constructor.
  - intros (w & Hw & (us & Hus & [= <-])%bind_Some)%bind_Some. constructor; [by eapply callee_denotes|].
    by eapply IH.
Qed.

Lemma field_snaps_denotes s es e vs w :
  @field_snaps_to_snap E s es = Ok e -> denote_all m ρ es vs -> struct_sem s vs = Some w -> denotes m ρ e w.
Proof.
  unfold field_snaps_to_snap. intros He Hes (ws & Hws & Hw)%bind_Some. inv_outcome.
  eapply denotes_FuncApp; [|exact Hw]. by eapply cast_fields_denote.
Qed.

Lemma index_denotes a e i v j w :
  denotes m ρ e v -> denotes m ρ i j -> index_sem a v j = Some w -> denotes m ρ (index a e i) w.
Proof.
  intros He Hi (u & Hu & Hw)%bind_Some. eapply caller_denotes; [|exact Hw].
  eapply denotes_FuncApp; [|exact Hu]. repeat constructor; done.
Qed.

Lemma metadata_denotes r e v w :
  denotes m ρ e v -> metadata_sem r v = Some w -> denotes m ρ (metadata_access r e) w.
Proof. intros He (u & Hu & Hw)%bind_Some. eapply caller_denotes; [|exact Hw]. by eapply destr_denotes. Qed.

Lemma value_denotes r e v w :
  denotes m ρ e v -> value_sem r v = Some w -> denotes m ρ (value_access r e) w.
Proof. intros He (u & Hu & Hw)%bind_Some. eapply caller_denotes; [|exact Hw]. by eapply destr_denotes. Qed.

Lemma reference_denotes r md e mv v w :
  denotes m ρ md mv -> denotes m ρ e v -> reference_sem r mv v = Some w ->
  denotes m ρ (reference_to_snap r (Const CNull) md e) w.
Proof.
  intros Hmd He (x & Hx & (y & Hy & Hw)%bind_Some)%bind_Some. eapply denotes_FuncApp; [|exact Hw].
  repeat constructor; by try eapply callee_denotes.
Qed.

Lemma raw_denotes r md mv w :
  denotes m ρ md mv -> raw_sem r mv = Some w -> denotes m ρ (raw_to_snap r (Const CNull) md) w.
Proof.
  intros Hmd (x & Hx & Hw)%bind_Some. eapply denotes_FuncApp; [|exact Hw].
  repeat constructor; by try eapply callee_denotes.
Qed.
End values.

(** The variables of the parts are variables of the whole. *)
Section scopes.
Context {VM : ViperModel} {E : Type}.
Variables (m : gmap string Expr) (ρ : gmap string (value domain_value)).

Lemma callee_scope c e : in_scope m ρ (cast_to_callee_ctx c e) -> in_scope m ρ e.
Proof. destruct c as [c|]; simpl; [|done]. intros H%in_scope_args. by apply Forall_cons in H as [? _]. Qed.

Lemma caller_scope c e : in_scope m ρ (cast_to_caller_ctx c e) -> in_scope m ρ e.
Proof. destruct c as [c|]; simpl; [|done]. intros H%in_scope_args. by apply Forall_cons in H as [? _]. Qed.

Lemma read_scope f e : in_scope m ρ (read f e) -> in_scope m ρ e.
Proof. by intros H%caller_scope. Qed.

Lemma cast_fields_scope fields es :
  length es = length fields -> Forall (in_scope m ρ) (cast_fields fields es) -> Forall (in_scope m ρ) es.
Proof.
  unfold cast_fields. revert es. induction fields as [|f fields IH]; intros [|e es] Hl; cbn [length zip_with] in *; try done.
  rewrite !Forall_cons. intros [He Hes]. split; [by eapply callee_scope|]. apply IH; [lia|done].
Qed.

Lemma field_snaps_scope s es e :
  @field_snaps_to_snap E s es = Ok e -> in_scope m ρ e -> Forall (in_scope m ρ) es.
Proof.
  unfold field_snaps_to_snap. intros He Hs. inv_outcome.
  match goal with H : (_ =? _)%nat = true |- _ => apply Nat.eqb_eq in H end.
  apply in_scope_args in Hs. by eapply cast_fields_scope.
Qed.

Lemma index_scope a e i : in_scope m ρ (index a e i) -> in_scope m ρ e /\ in_scope m ρ i.
Proof. intros H%caller_scope%in_scope_args. rewrite !Forall_cons in H. by destruct H as (? & ? & _). Qed.

Lemma metadata_scope r e : in_scope m ρ (metadata_access r e) -> in_scope m ρ e.
Proof. by intros H%caller_scope. Qed.

Lemma value_scope r e : in_scope m ρ (value_access r e) -> in_scope m ρ e.
Proof. by intros H%caller_scope. Qed.

Lemma reference_scope r ref_ md e :
  in_scope m ρ (reference_to_snap r ref_ md e) -> in_scope m ρ md /\ in_scope m ρ e.
Proof.
  intros H%in_scope_args. rewrite !Forall_cons in H. destruct H as (_ & H1%callee_scope & H2%callee_scope & _). done.
Qed.

Lemma raw_scope r ref_ md : in_scope m ρ (raw_to_snap r ref_ md) -> in_scope m ρ md.
Proof. intros H%in_scope_args. rewrite !Forall_cons in H. by destruct H as (_ & H%callee_scope & _). Qed.
End scopes.
