(* ===== verification/TyPure.v ===== *)
(** * Snapshots of types

    [prusti-encoder/src/encoders/ty/pure.rs] and the [ty_pure] of [ty/kinds]: the
    snapshot of every kind of type, a domain or an algebraic data type with the
    functions around it. [TyPureBuilder] collects them, [TyPureEnc] is the task. *)
From stdpp Require Import pretty.
From S2P Require Import Prelude Names Vir VirMake VirProgram VirInt TyDomain TyData Primitive TyRust TyUse.

(** ** Data of the pure encoder *)
Record TyPureRawData := {
  raw_data_prim_to_snap : FunctionIdn;
  raw_data_address_access : AdtDestructorData;
  raw_data_metadata_access : AdtDestructorData;
}.

Record TyPureArrayData := { index_access : FunctionIdn; pure_ref_to_index_ref : FunctionIdn }.

(** [TyPureImmRefData] and [TyPureMutRefData], which have the same fields. *)
Record TyPureRefData := {
  ref_prim_to_snap : FunctionIdn;
  ref_deref_access : AdtDestructorData;
  ref_metadata_access : AdtDestructorData;
  ref_value_access : AdtDestructorData;
}.

Record TyPureFieldData := { field_read_access : AdtDestructorData; pure_ref_to_field_ref : FunctionIdn }.

Record TyPureEnumData := {
  discr_ty : TypeKind;
  discr_prim : TyPurePrimDataKind;
  enum_discr_fn : FunctionIdn;
}.

Record TyPureRef := { pure_snapshot : TypeKind; pure_unreachable : FunctionIdn }.

(** The data of a structure is its constructor [field_snaps_to_snap], the data of a
    variant its discriminant. *)
Definition PureTyDatas : TyDatas :=
  {| TyD := TyPureRef; ParamD := unit; OpaqueD := unit; ArrayD := TyPureArrayData;
     PrimitiveD := TyPurePrimDataKind; ImmRefD := TyPureRefData; MutRefD := TyPureRefData;
     RawD := TyPureRawData; StructD := FunctionIdn; FieldD := TyPureFieldData; EnumD := TyPureEnumData;
     VariantD := Expr; BuiltinD := TyPureBuiltinData |}.

Definition TyPure : Type := TyData PureTyDatas.

(** ** Builders *)
Inductive DiscrFnBuilder :=
| Building (param : LocalDecl) (recv acc : Expr)
| Built (f : FunctionGenData).

Section builders.
Context {RT : RustcTypes} {E : Type}.

(** [AdtBuilder]: the name and the type of the encoded type, and what was pushed so
    far ([AdtBuilderData]). *)
Record AdtBuilder := {
  adt_builder_name : string;
  adt_self_type : TypeKind;
  adt_params : GenericParams;
  adt_constructors : list AdtConstructorGenData;
  adt_discr_fn : option DiscrFnBuilder;
  adt_functions : list FunctionGenData;
}.

Definition push_constructor (c : AdtConstructorGenData) (b : AdtBuilder) : AdtBuilder :=
  {| adt_builder_name := adt_builder_name b; adt_self_type := adt_self_type b; adt_params := adt_params b;
     adt_constructors := adt_constructors b ++ [c]; adt_discr_fn := adt_discr_fn b;
     adt_functions := adt_functions b |}.
Definition set_discr_fn (d : option DiscrFnBuilder) (b : AdtBuilder) : AdtBuilder :=
  {| adt_builder_name := adt_builder_name b; adt_self_type := adt_self_type b; adt_params := adt_params b;
     adt_constructors := adt_constructors b; adt_discr_fn := d; adt_functions := adt_functions b |}.
Definition push_function (f : FunctionGenData) (b : AdtBuilder) : AdtBuilder :=
  {| adt_builder_name := adt_builder_name b; adt_self_type := adt_self_type b; adt_params := adt_params b;
     adt_constructors := adt_constructors b; adt_discr_fn := adt_discr_fn b;
     adt_functions := adt_functions b ++ [f] |}.

(** The discriminant function tests the constructors added later first; the value of
    the first one is its last alternative. *)
Definition extend_discr_fn (self_ty : TypeKind) (name : string) (discr : Expr)
    (df : option DiscrFnBuilder) : outcome E DiscrFnBuilder :=
  match df with
  | Some (Building param recv acc) =>
      Ok (Building param recv (mk_ternary_expr (AdtDiscriminator recv name) discr acc))
  | Some (Built _) => Panic "discriminant function was already built"
  | None =>
      let param := {| decl_name := "self"; decl_ty := self_ty |} in
      Ok (Building param (mk_local_ex param) discr)
  end.

Definition constructor_name_of (self_name prefix : string) : string := self_name +:+ "_" +:+ prefix +:+ "cons".
Definition constructor_arg (self_name prefix : string) (i : nat) (ty : TypeKind) : LocalDecl :=
  {| decl_name := self_name +:+ "_" +:+ prefix +:+ pretty i; decl_ty := ty |}.

(** [AdtBuilder::constructor] *)
Definition adt_constructor (prefix : string) (tys : list TypeKind) (discr : option Expr) (b : AdtBuilder) :
    outcome E (FunctionIdn * list AdtDestructorData * AdtBuilder) :=
  let self_ty := adt_self_type b in
  _ ← assert_that "discr was passed previously, but now it wasn't"
        (bool_decide (adt_discr_fn b = None) || bool_decide (discr <> None));
  let self_name := adt_builder_name b in
  let name := constructor_name_of self_name prefix in
  let locals := imap (constructor_arg self_name prefix) tys in
  let b := push_constructor {| constructor_name := name; constructor_args := locals |} b in
  name ← ViperIdent_new name;
  let ident := {| idn_name := name; idn_result := self_ty |} in
  b ← match discr with
      | Some discr => df ← extend_discr_fn self_ty name discr (adt_discr_fn b); Ok (set_discr_fn (Some df) b)
      | None => Ok b
      end;
  Ok (ident,
      (fun arg => {| destr_name := decl_name arg; destr_input := self_ty; destr_ty := decl_ty arg |}) <$> locals,
      b).

(** An enum without variants gets a constructor that nothing uses, and a discriminant
    function that promises [false]. *)
Definition build_discr_fn (ty : TypeKind) (b : AdtBuilder) : outcome E (FunctionIdn * AdtBuilder) :=
  let self_ty := adt_self_type b in
  let param := {| decl_name := "self"; decl_ty := self_ty |} in
  name ← ViperIdent_new (adt_builder_name b +:+ "_discr");
  let ident := {| idn_name := name; idn_result := ty |} in
  '(expr, posts, b) ← match adt_discr_fn b with
    | Some (Building _ _ acc) => Ok (Some acc, [], b)
    | Some (Built _) => Panic "discriminant function already built"
    | None =>
        let name := adt_builder_name b +:+ "_DummyConstructor" in
        let b := push_constructor {| constructor_name := name; constructor_args := [] |} b in
        Ok (None, [mk_bool false], b)
    end;
  built_fn ← lift (mk_function (idn_name ident) ty [param] [] posts None expr);
  Ok (ident, set_discr_fn (Some (Built built_fn)) b).

(** [AdtBuilder::function] *)
Definition adt_function (name : string) (ret : TypeKind) (ps : list LocalDecl) (pres posts : list Expr)
    (expr : option Expr) (b : AdtBuilder) : outcome E (FunctionIdn * AdtBuilder) :=
  name ← ViperIdent_new (adt_builder_name b +:+ "_" +:+ name);
  function ← lift (mk_function name ret ps pres posts None expr);
  Ok ({| idn_name := name; idn_result := ret |}, push_function function b).
End builders.

(** ** The encoder *)
Inductive BuilderData {RT : RustcTypes} :=
| DataAdt (b : AdtBuilder)
| DataDomain (b : DomainBuilder)
| DataNone.

(** What is emitted for a type. *)
Inductive TyPureEncLocalKind :=
| LocalDomain (domain : DomainGenData)
| LocalAdt (adt : AdtGenData) (discr_fn : option FunctionGenData)
| LocalNone.

Record TyPureEncLocal := {
  local_unreachable : FunctionGenData;
  local_functions : list FunctionGenData;
  local_kind : TyPureEncLocalKind;
}.

Section encoder.
Context {RT : RustcTypes} {DC : Decompose} {HO : Host} {E : Type}.

Record TyPureBuilder := {
  pure_name : string;
  pure_self_type : TypeKind;
  unreachable_to_snap_fn : FunctionIdn;
  pure_params : GenericParams;
  pure_data : BuilderData;
}.

(** [TyPureBuilder::new] *)
Definition TyPureBuilder_new (ty : RustTy) : outcome E TyPureBuilder :=
  ps ← GenericParamsEnc (ty_params_of ty);
  name ← ViperIdent_new ("s_" +:+ rust_ty_name ty);
  self ← self_type ty;
  unreachable ← ViperIdent_new (name +:+ "_unreachable");
  Ok {| pure_name := name; pure_self_type := self;
        unreachable_to_snap_fn := {| idn_name := unreachable; idn_result := self |};
        pure_params := ps; pure_data := DataNone |}.

Definition output_ref (b : TyPureBuilder) : TyPureRef :=
  {| pure_snapshot := pure_self_type b; pure_unreachable := unreachable_to_snap_fn b |}.

Definition with_data (d : BuilderData) (b : TyPureBuilder) : TyPureBuilder :=
  {| pure_name := pure_name b; pure_self_type := pure_self_type b;
     unreachable_to_snap_fn := unreachable_to_snap_fn b; pure_params := pure_params b; pure_data := d |}.

Definition set_domain_builder (b : TyPureBuilder) : outcome E DomainBuilder :=
  match pure_data b with
  | DataAdt _ => Panic "already an ADT builder"
  | DataDomain d => Ok d
  | DataNone =>
      Ok {| builder_name := pure_name b; builder_self_type := pure_self_type b; builder_axioms := [];
            builder_functions := []; builder_interpretation := None |}
  end.

Definition set_adt_builder (b : TyPureBuilder) : outcome E AdtBuilder :=
  match pure_data b with
  | DataDomain _ => Panic "already a Domain builder"
  | DataAdt d => Ok d
  | DataNone =>
      Ok {| adt_builder_name := pure_name b; adt_self_type := pure_self_type b; adt_params := pure_params b;
            adt_constructors := []; adt_discr_fn := None; adt_functions := [] |}
  end.

Definition build_kind (b : TyPureBuilder) : outcome E TyPureEncLocalKind :=
  match pure_data b with
  | DataDomain d =>
      LocalDomain <$> mk_domain (pure_name b) [] (builder_axioms d) (builder_functions d)
                        (builder_interpretation d)
  | DataAdt d =>
      let adt := mk_adt (pure_name b) [] (adt_constructors d) in
      discr_fn ← match adt_discr_fn d with
                 | None => Ok None
                 | Some (Built df) => Ok (Some df)
                 | Some (Building _ _ _) => Panic "discriminant function not built"
                 end;
      Ok (LocalAdt adt discr_fn)
  | DataNone => Ok LocalNone
  end.

Definition gen_decls (g : GenericParams) : list LocalDecl := ty_decls g ++ const_decls g.
Definition gen_exprs (g : GenericParams) : list Expr := ty_exprs g ++ const_exprs g.

Definition pure_build (b : TyPureBuilder) : outcome E TyPureEncLocal :=
  unreachable ← lift (mk_function (idn_name (unreachable_to_snap_fn b)) (idn_result (unreachable_to_snap_fn b))
                        (gen_decls (pure_params b)) [] [mk_bool false] None None);
  let functions := match pure_data b with DataAdt d => adt_functions d | _ => [] end in
  kind ← build_kind b;
  Ok {| local_unreachable := unreachable; local_functions := functions; local_kind := kind |}.

(** ** The kinds of types

    Every [ty_pure] gets the builder and returns its data with the builder after it. *)

Definition ref_self_decl : LocalDecl := {| decl_name := "self"; decl_ty := TRef |}.
Definition ref_self : Expr := mk_local_ex ref_self_decl.

(** [(self == null) == (result == null)] *)
Definition null_iff : Expr :=
  mk_eq_expr (mk_eq_expr ref_self (Const CNull)) (mk_eq_expr (Result_ TRef) (Const CNull)).

(** [kinds/structlike.rs]: the functions from a reference to those of the fields. *)
Fixpoint field_refs (prefix : string) (idx : nat) (des : list AdtDestructorData) (b : AdtBuilder) :
    outcome E (list TyPureFieldData * AdtBuilder) :=
  match des with
  | [] => Ok ([], b)
  | read :: des =>
      '(f, b) ← adt_function (prefix +:+ "field_" +:+ pretty idx) TRef
                  (ref_self_decl :: gen_decls (adt_params b)) [] [null_iff] None b;
      '(fs, b) ← field_refs prefix (S idx) des b;
      Ok ({| field_read_access := read; pure_ref_to_field_ref := f |} :: fs, b)
  end.

Definition struct_ty_pure_variant (prefix : string) (discr : option Expr) (task_key : RustTy)
    (data : StructData RustTyDatas) (b : AdtBuilder) : outcome E (StructData PureTyDatas * AdtBuilder) :=
  tys ← collect (fun f => use_snapshot (field_lazy f) (ty_params_of task_key)) (fields data);
  '(ctor, des, b) ← adt_constructor prefix tys discr b;
  _ ← assert_that "assertion `left == right` failed" (length des =? length (fields data))%nat;
  '(fs, b) ← field_refs prefix 0 des b;
  Ok ({| struct_data := ctor : StructD PureTyDatas; fields := fs : list (FieldD PureTyDatas) |}, b).

Definition struct_ty_pure := struct_ty_pure_variant EmptyString None.

(** [kinds/enumlike.rs] *)
Fixpoint enum_ty_pure_variants (prim : TyPurePrimDataKind) (discr : TyKind) (task_key : RustTy)
    (vs : list (VariantData RustTyDatas)) (b : AdtBuilder) :
    outcome E (list (VariantData PureTyDatas) * AdtBuilder) :=
  match vs with
  | [] => Ok ([], b)
  | v :: vs =>
      bits ← expr_from_bits prim discr (discr_val (variant_data v));
      let discr_snap := prim_to_snap prim bits in
      '(s, b) ← struct_ty_pure_variant (pretty (vid (variant_data v)) +:+ "_") (Some discr_snap) task_key
                  (inner v) b;
      '(vs, b) ← enum_ty_pure_variants prim discr task_key vs b;
      Ok ({| variant_data := discr_snap : VariantD PureTyDatas; inner := s |} :: vs, b)
  end.

(** [kinds/primitive.rs] with the choice of the builder *)
Definition primitive_ty_pure (prim : TyKind) (b : TyPureBuilder) :
    outcome E (TyPurePrimDataKind * TyPureBuilder) :=
  match prim with
  | TyBool => Ok (PrimBool, b)
  | _ =>
      d ← set_domain_builder b;
      '(data, d) ← ty_pure prim d;
      Ok (data, with_data (DataDomain d) b)
  end.

(** The encoding of a primitive type, which needs no other one. *)
Definition encode_prim (k : TyKind) : outcome E (TyPureEncLocal * TypeKind * TyPurePrimDataKind) :=
  t ← from_prim_ty k;
  b ← TyPureBuilder_new (decomp_ty t);
  '(data, b) ← primitive_ty_pure k b;
  l ← pure_build b;
  Ok (l, pure_snapshot (output_ref b), data).

Definition enum_ty_pure (task_key : RustTy) (data : EnumData RustTyDatas) (b : AdtBuilder) :
    outcome E (EnumData PureTyDatas * AdtBuilder) :=
  '(_, snapshot, prim) ← encode_prim (discr (enum_data data));
  '(vs, b) ← enum_ty_pure_variants prim (discr (enum_data data)) task_key (variants data) b;
  '(f, b) ← build_discr_fn snapshot b;
  Ok ({| enum_data := {| discr_ty := snapshot; discr_prim := prim; enum_discr_fn := f |} : EnumD PureTyDatas;
         variants := vs |}, b).

Definition nth_access (des : list AdtDestructorData) (i : nat) : outcome E AdtDestructorData :=
  unwrap "index out of bounds" (des !! i).

(** [kinds/immref.rs] and [kinds/mutref.rs], which agree. *)
Definition ref_ty_pure (task_key : RustTy) (data : RefData) (b : AdtBuilder) :
    outcome E (TyPureRefData * AdtBuilder) :=
  metadata ← use_snapshot (metadata data) (ty_params_of task_key);
  referent ← use_snapshot (referent data) (ty_params_of task_key);
  '(ctor, des, b) ← adt_constructor EmptyString [TRef; metadata; referent] None b;
  deref ← nth_access des 0;
  metadata_access ← nth_access des 1;
  value ← nth_access des 2;
  Ok ({| ref_prim_to_snap := ctor; ref_deref_access := deref; ref_metadata_access := metadata_access;
         ref_value_access := value |}, b).

(** [kinds/raw.rs] *)
Definition raw_ty_pure (task_key : RustTy) (data : RefData) (b : AdtBuilder) :
    outcome E (TyPureRawData * AdtBuilder) :=
  metadata ← use_snapshot (metadata data) (ty_params_of task_key);
  '(ctor, des, b) ← adt_constructor EmptyString [TRef; metadata] None b;
  address ← nth_access des 0;
  metadata_access ← nth_access des 1;
  Ok ({| raw_data_prim_to_snap := ctor; raw_data_address_access := address;
         raw_data_metadata_access := metadata_access |}, b).

(** [kinds/arraylike.rs] *)
Definition array_ty_pure (g : GenericParams) (data : ArrayData RustTyDatas) (b : DomainBuilder) :
    ArrayData PureTyDatas * DomainBuilder :=
  let '(index_access, b) := builder_function "index" [builder_self_type b; TInt] TYPE_PSNAP b in
  let '(index_ref, b) := builder_function "index_ref" (TRef :: TInt :: ty_args g) TRef b in
  ({| array_data := {| index_access := index_access; pure_ref_to_index_ref := index_ref |} : ArrayD PureTyDatas;
      slice := slice data |}, b).

(** [kinds/builtin.rs] *)
Definition builtin_ty_pure (data : RustBuiltinData) : TyPureBuiltinData :=
  match data with
  | BuiltinInt => PureInt | BuiltinReal => PureReal | BuiltinSet _ => PureSet
  | BuiltinMultiset _ => PureMultiset | BuiltinSeq _ => PureSeq | BuiltinMap _ _ => PureMap
  end.

(** [do_encode_full], without the requests to the cache. *)
Definition TyPureEnc (task_key : RustTy) : outcome E (TyPureEncLocal * TyPure) :=
  builder ← TyPureBuilder_new task_key;
  let output := output_ref builder in
  '(specifics, builder) ← match ty_specifics task_key with
    | Ty.Param _ =>
        d ← set_domain_builder builder;
        Ok (Ty.Param (D:=PureTyDatas) tt, with_data (DataDomain d) builder)
    | Ty.Opaque _ =>
        d ← set_domain_builder builder;
        Ok (Ty.Opaque (D:=PureTyDatas) tt, with_data (DataDomain d) builder)
    | Ty.ArrayLike array =>
        d ← set_domain_builder builder;
        let '(array, d) := array_ty_pure (pure_params builder) array d in
        Ok (Ty.ArrayLike array, with_data (DataDomain d) builder)
    | Ty.Primitive prim =>
        '(prim, builder) ← primitive_ty_pure prim builder;
        Ok (Ty.Primitive (D:=PureTyDatas) prim, builder)
    | Ty.ImmRef data =>
        d ← set_adt_builder builder;
        '(data, d) ← ref_ty_pure task_key data d;
        Ok (Ty.ImmRef (D:=PureTyDatas) data, with_data (DataAdt d) builder)
    | Ty.MutRef data =>
        d ← set_adt_builder builder;
        '(data, d) ← ref_ty_pure task_key data d;
        Ok (Ty.MutRef (D:=PureTyDatas) data, with_data (DataAdt d) builder)
    | Ty.Raw data =>
        d ← set_adt_builder builder;
        '(data, d) ← raw_ty_pure task_key data d;
        Ok (Ty.Raw (D:=PureTyDatas) data, with_data (DataAdt d) builder)
    | Ty.StructLike data =>
        d ← set_adt_builder builder;
        '(data, d) ← struct_ty_pure task_key data d;
        Ok (Ty.StructLike data, with_data (DataAdt d) builder)
    | Ty.EnumLike data =>
        d ← set_adt_builder builder;
        '(data, d) ← enum_ty_pure task_key data d;
        Ok (Ty.EnumLike data, with_data (DataAdt d) builder)
    | Ty.Builtin data => Ok (Ty.Builtin (D:=PureTyDatas) (builtin_ty_pure data), builder)
    end;
  local ← pure_build builder;
  Ok (local, {| ty_data := output : TyD PureTyDatas; ty_specifics := specifics |}).
End encoder.

(** [emit_outputs] for one type *)
Definition emit_pure (o : TyPureEncLocal) (p : ProgramGenData) : ProgramGenData :=
  let fs := program_functions p ++ local_unreachable o :: local_functions o in
  match local_kind o with
  | LocalDomain domain =>
      mk_program (program_fields p) (program_adts p) (program_domains p ++ [domain]) (program_predicates p) fs
        (program_methods p)
  | LocalAdt adt discr_fn =>
      mk_program (program_fields p) (program_adts p ++ [adt]) (program_domains p) (program_predicates p)
        (fs ++ option_list discr_fn) (program_methods p)
  | LocalNone =>
      mk_program (program_fields p) (program_adts p) (program_domains p) (program_predicates p) fs
        (program_methods p)
  end.
