(* ===== verification/TyImpure.v ===== *)
(** * Memory of types

    [prusti-encoder/src/encoders/ty/impure.rs] and the [ty_impure] of [ty/kinds]: for
    every type a predicate that owns the memory of a value, a function that reads its
    snapshot, and a method that assigns it; [ty/use_impure.rs]: their uses with
    generic arguments. *)
From stdpp Require Import pretty.
From S2P Require Import Prelude Names Vir VirMake VirProgram VirInt TyDomain TyData Primitive TyRust TyUse TyPure.

(** ** Data of the impure encoder

    A predicate and a method are identified by their names. *)
Record TyImpureRef := {
  ref_to_pred : string;
  ref_to_snap : FunctionIdn;
  method_assign : string;
}.

Record TyImpureMutRefData := { mutref_pure : TyPureRefData; arbitrary_value : FunctionIdn }.

Record TyImpureArrayData := {
  impure_ref_to_index_ref : FunctionIdn;
  index_frame : FunctionIdn;
  index_predicate : string;
  method_fold : string;
  method_unfold : string;
}.

(** [TyUseImpureData]: a type with the arguments of its use. *)
Record TyUseImpureData := { impure_args : GArgsTy; impure : TyImpureRef; use_maybe_inhabited : bool }.

Record TyImpureEnumData := { enum_discr_ref : FunctionIdn; enum_discr_ty : TyUseImpureData }.

Definition ImpureTyDatas : TyDatas :=
  {| TyD := TyImpureRef; ParamD := unit; OpaqueD := unit; ArrayD := TyImpureArrayData; PrimitiveD := unit;
     ImmRefD := unit; MutRefD := TyImpureMutRefData; RawD := unit; StructD := unit; FieldD := FunctionIdn;
     EnumD := TyImpureEnumData; VariantD := string; BuiltinD := unit |}.

Definition TyImpure : Type := TyData ImpureTyDatas.

Record TyImpureEncLocal := {
  impure_fields : list FieldData;
  impure_predicates : list PredicateGenData;
  impure_function_snap : FunctionGenData;
  impure_functions : list FunctionGenData;
  impure_method_assign : MethodGenData;
  impure_methods : list MethodGenData;
}.

(** ** The builder *)
Section builder.
Context {E : Type}.

(** [PredicateBuilder] with its [PredicateBuilderInner]. *)
Record PredicateBuilder := {
  im_params : GenericParams;
  im_snapshot : TypeKind;
  im_ref_to_pred : string;
  im_ref_to_snap : FunctionIdn;
  im_name : string;
  im_fields : list FieldData;
  im_predicates : list PredicateGenData;
  im_functions : list FunctionGenData;
  im_methods : list MethodGenData;
  im_function_snap : option FunctionGenData;
}.

(** The builder with more members. *)
Definition push_members (fs : list FieldData) (ps : list PredicateGenData) (fns : list FunctionGenData)
    (ms : list MethodGenData) (b : PredicateBuilder) : PredicateBuilder :=
  {| im_params := im_params b; im_snapshot := im_snapshot b; im_ref_to_pred := im_ref_to_pred b;
     im_ref_to_snap := im_ref_to_snap b; im_name := im_name b; im_fields := im_fields b ++ fs;
     im_predicates := im_predicates b ++ ps; im_functions := im_functions b ++ fns;
     im_methods := im_methods b ++ ms; im_function_snap := im_function_snap b |}.

Definition set_function_snap (f : FunctionGenData) (b : PredicateBuilder) : PredicateBuilder :=
  {| im_params := im_params b; im_snapshot := im_snapshot b; im_ref_to_pred := im_ref_to_pred b;
     im_ref_to_snap := im_ref_to_snap b; im_name := im_name b; im_fields := im_fields b;
     im_predicates := im_predicates b; im_functions := im_functions b; im_methods := im_methods b;
     im_function_snap := Some f |}.

Definition ident_str (prefix name : string) : string :=
  if bool_decide (name = EmptyString) then prefix else prefix +:+ "_" +:+ name.

Definition im_ident (name : string) (b : PredicateBuilder) : outcome E string :=
  ViperIdent_new (ident_str (im_name b) name).

Definition mk_field (name : string) (ty : TypeKind) : FieldData := {| field_name := name; field_ty := ty |}.
Definition mk_predicate (name : string) (args : list LocalDecl) (expr : option Expr) : PredicateGenData :=
  {| predicate_name := name; predicate_args := args; predicate_expr := expr |}.

Definition im_field (name : string) (ty : TypeKind) (b : PredicateBuilder) : FieldData * PredicateBuilder :=
  let f := mk_field (ident_str (im_name b) name) ty in (f, push_members [f] [] [] [] b).

Definition im_predicate (name : string) (ps : list LocalDecl) (expr : option Expr) (b : PredicateBuilder) :
    outcome E (string * PredicateBuilder) :=
  ident ← im_ident name b;
  Ok (ident, push_members [] [mk_predicate ident ps expr] [] [] b).

Definition im_function (name : string) (ret : TypeKind) (ps : list LocalDecl) (pres posts : list Expr)
    (expr : option Expr) (b : PredicateBuilder) : outcome E (FunctionIdn * PredicateBuilder) :=
  ident ← im_ident name b;
  f ← lift (mk_function ident ret ps pres posts None expr);
  Ok ({| idn_name := ident; idn_result := ret |}, push_members [] [] [f] [] b).

Definition im_method (name : string) (ps rets : list LocalDecl) (pres posts : list Expr)
    (b : PredicateBuilder) : outcome E (string * PredicateBuilder) :=
  ident ← im_ident name b;
  m ← lift (mk_method_unchecked ident ps rets pres posts None);
  Ok (ident, push_members [] [] [] [m] b).

(** The declarations and the expressions of [self] with the generic parameters. *)
Definition self_decls (b : PredicateBuilder) : list LocalDecl := ref_self_decl :: gen_decls (im_params b).
Definition self_exprs (g : GenericParams) (r : Expr) : list Expr := r :: gen_exprs g.

Definition mk_self_predicate (name : string) (expr : option Expr) (b : PredicateBuilder) :
    outcome E (string * PredicateBuilder) :=
  im_predicate name (self_decls b) expr b.

(** The application of a predicate of the builder to [self]. *)
Definition self_pred (pred : string) (b : PredicateBuilder) : Expr :=
  PredicateApp pred (self_exprs (im_params b) ref_self) None.

Definition unfolding_self (pred : string) (b : PredicateBuilder) (e : Expr) : Expr :=
  Unfolding pred (self_exprs (im_params b) ref_self) None e.

Definition mk_snap_function (inner : option Expr) (b : PredicateBuilder) : outcome E PredicateBuilder :=
  let expr := unfolding_self (im_ref_to_pred b) b <$> inner in
  f ← lift (mk_function (idn_name (im_ref_to_snap b)) (idn_result (im_ref_to_snap b)) (self_decls b)
              [self_pred (im_ref_to_pred b) b] [] None expr);
  Ok (set_function_snap f b).

Definition im_build (b : PredicateBuilder) : outcome E TyImpureEncLocal :=
  method_assign ← unwrap "removal index (is 0) should be < len (is 0)" (im_methods b !! 0);
  snap ← unwrap "called `Option::unwrap()` on a `None` value" (im_function_snap b);
  Ok {| impure_fields := im_fields b; impure_predicates := im_predicates b; impure_function_snap := snap;
        impure_functions := im_functions b; impure_method_assign := method_assign;
        impure_methods := drop 1 (im_methods b) |}.
End builder.

(** ** Uses *)
Section uses.
(** [TyUseImpureData::ref_to_pred]: nothing owns the memory of an uninhabited type. *)
Definition use_pred_app (u : TyUseImpureData) (r : Expr) (perm : option Expr) : Expr :=
  PredicateApp (ref_to_pred (impure u)) (r :: garg_exprs (impure_args u)) perm.

Definition use_ref_to_pred (u : TyUseImpureData) (r : Expr) (perm : option Expr) : Expr :=
  if use_maybe_inhabited u then use_pred_app u r perm else mk_bool false.

Definition use_ref_to_snap (u : TyUseImpureData) (r : Expr) : Expr :=
  call (ref_to_snap (impure u)) (r :: garg_exprs (impure_args u)).

Definition apply_method_assign (u : TyUseImpureData) (self_ref self_new_snap : Expr) : Stmt :=
  MethodCall [] (method_assign (impure u)) (self_ref :: garg_exprs (impure_args u) ++ [self_new_snap]).

Definition use_impure_snapshot (u : TyUseImpureData) : TypeKind := idn_result (ref_to_snap (impure u)).
End uses.

(** How the arguments of a use are encoded ([GArgsTyEnc]). *)
Class EncodeArgs {RT : RustcTypes} := { GArgsTyEnc {E} : GArgs -> outcome E GArgsTy }.

(** The types of the compiler zipped with their snapshots. *)
Abbreviation RustPure := (zip_datas RustTyDatas PureTyDatas).
Abbreviation RustPureTy := (TyData (zip_datas RustTyDatas PureTyDatas)).

Section encoder.
Context {RT : RustcTypes} {DC : Decompose} {EA : EncodeArgs} {HO : Host} {E : Type}.

(** [PredicateBuilder::new] *)
Definition PredicateBuilder_new (ty : RustTy) (snapshot : TypeKind) : outcome E PredicateBuilder :=
  ps ← GenericParamsEnc (ty_params_of ty);
  let name := "p_" +:+ rust_ty_name ty in
  ref_to_pred ← ViperIdent_new (ident_str name EmptyString);
  ref_to_snap ← ViperIdent_new (ident_str name "snap");
  Ok {| im_params := ps; im_snapshot := snapshot; im_ref_to_pred := ref_to_pred;
        im_ref_to_snap := {| idn_name := ref_to_snap; idn_result := snapshot |}; im_name := name;
        im_fields := []; im_predicates := []; im_functions := []; im_methods := [];
        im_function_snap := None |}.

(** The reference that [TyImpureEnc] emits before it looks at the kind of the type:
    the names of the predicate, the function and the method. *)
Definition impure_ref (ty : RustTy) : outcome E TyImpureRef :=
  snapshot ← self_type ty;
  b ← PredicateBuilder_new ty snapshot;
  assign ← im_ident "assign" b;
  Ok {| ref_to_pred := im_ref_to_pred b; ref_to_snap := im_ref_to_snap b; method_assign := assign |}.

(** [require_dep::<TyUseImpureEnc>(ty)]; what a field uses of it. *)
Definition TyUseImpureEnc (d : RustTyDecomposition) : outcome E TyUseImpureData :=
  r ← impure_ref (decomp_ty d);
  args ← GArgsTyEnc (decomp_args d);
  inhabited ← unwrap "impure type encoding requires a decomposition with known inhabitedness" (maybe_inhabited d);
  Ok {| impure_args := args; impure := r; use_maybe_inhabited := inhabited |}.

Definition rp_rust_params (t : RustPureTy) : GParams := rust_params (fst (ty_data t)).

(** ** The kinds of types *)

(** [kinds/opaque.rs]: a predicate and a snapshot without definitions. *)
Definition set_opaque (b : PredicateBuilder) : outcome E PredicateBuilder :=
  '(_, b) ← mk_self_predicate EmptyString None b;
  mk_snap_function None b.

(** [kinds/primitive.rs], and the references of [kinds/immref.rs], [kinds/mutref.rs]
    and [kinds/raw.rs]: one field that holds the snapshot. *)
Definition set_primitive (b : PredicateBuilder) : outcome E PredicateBuilder :=
  let '(f, b) := im_field "val" (im_snapshot b) b in
  '(_, b) ← mk_self_predicate EmptyString (Some (AccField ref_self (field_name f) (field_ty f) None)) b;
  mk_snap_function (Some (Field ref_self (field_name f) (field_ty f))) b.

(** [kinds/structlike.rs] *)
Definition field_at (g : GenericParams) (f : TyPureFieldData) : Expr :=
  call (pure_ref_to_field_ref f) (self_exprs g ref_self).

Definition struct_pred_expr (g : GenericParams) (us : list TyUseImpureData) (fs : list TyPureFieldData) :
    outcome E Expr :=
  mk_conj (zip_with (fun u f => use_ref_to_pred u (field_at g f) None) us fs).

Definition struct_snap_expr (g : GenericParams) (ctor : FunctionIdn) (us : list TyUseImpureData)
    (fs : list TyPureFieldData) : Expr :=
  call ctor (zip_with (fun u f => use_ref_to_snap u (field_at g f)) us fs).

Definition field_uses (ps : GParams) (fs : list RustFieldData) : outcome E (list TyUseImpureData) :=
  collect (fun f => TyUseImpureEnc (decompose (field_lazy f) ps)) fs.

Definition struct_ty_impure_variant (prefix : string) (task_key : RustPureTy) (data : StructData RustPure)
    (b : PredicateBuilder) : outcome E (StructData ImpureTyDatas * string * Expr * PredicateBuilder) :=
  us ← field_uses (rp_rust_params task_key) ((fields data : list (RustFieldData * TyPureFieldData)).*1);
  let fs := (fields data : list (RustFieldData * TyPureFieldData)).*2 in
  let pred_name := if bool_decide (prefix = EmptyString) then EmptyString else prefix +:+ "owned" in
  pred_expr ← struct_pred_expr (im_params b) us fs;
  '(pred_owned, b) ← mk_self_predicate pred_name (Some pred_expr) b;
  let snap_expr := struct_snap_expr (im_params b) (snd (struct_data data)) us fs in
  Ok ({| struct_data := tt : StructD ImpureTyDatas;
         fields := pure_ref_to_field_ref <$> fs : list (FieldD ImpureTyDatas) |}, pred_owned, snap_expr, b).

Definition struct_ty_impure (task_key : RustPureTy) (data : StructData RustPure) (b : PredicateBuilder) :
    outcome E (StructData ImpureTyDatas * PredicateBuilder) :=
  '(data, _, snap_expr, b) ← struct_ty_impure_variant EmptyString task_key data b;
  b ← mk_snap_function (Some snap_expr) b;
  Ok (data, b).

(** [kinds/enumlike.rs] *)
Record VariantImpure := {
  vi_snap_expr : Expr;
  vi_pred_expr : Expr;
  vi_discr : Expr;
  vi_data : VariantData ImpureTyDatas;
}.

Definition variant_prefix (v : nat) : string := pretty v +:+ "_".

Fixpoint enum_ty_impure_variants (task_key : RustPureTy) (snap_disc : Expr) (vs : list (VariantData RustPure))
    (b : PredicateBuilder) : outcome E (list VariantImpure * PredicateBuilder) :=
  match vs with
  | [] => Ok ([], b)
  | v :: vs =>
      let discr := snd (variant_data v) in
      '(inner, pred, snap_expr, b) ←
        struct_ty_impure_variant (variant_prefix (vid (fst (variant_data v)))) task_key (inner v) b;
      pred_expr ← mk_bin_op_expr Implies (mk_eq_expr snap_disc discr) (self_pred pred b);
      let variant :=
        {| vi_snap_expr := unfolding_self pred b snap_expr; vi_pred_expr := pred_expr; vi_discr := discr;
           vi_data := {| variant_data := pred : VariantD ImpureTyDatas; inner := inner |} |} in
      '(vs, b) ← enum_ty_impure_variants task_key snap_disc vs b;
      Ok (variant :: vs, b)
  end.

(** The predicate of the enum: the memory of the discriminant, one of the
    discriminants, and for every discriminant the memory of its variant. *)
Definition enum_pred_expr (discr_ty : TyUseImpureData) (ref_disc snap_disc : Expr) (vs : list VariantImpure) :
    outcome E Expr :=
  variant_values ← mk_disj ((fun v => mk_eq_expr snap_disc (vi_discr v)) <$> vs);
  variant_predicates ← mk_conj (vi_pred_expr <$> vs);
  inner ← mk_conj [variant_values; variant_predicates];
  mk_conj [use_ref_to_pred discr_ty ref_disc None; inner].

Definition enum_snap_expr (base snap_disc : Expr) (vs : list VariantImpure) : Expr :=
  foldl (fun else_ v => mk_ternary_expr (mk_eq_expr snap_disc (vi_discr v)) (vi_snap_expr v) else_) base vs.

Definition enum_ty_impure (task_key : RustPureTy) (data : EnumData RustPure) (b : PredicateBuilder) :
    outcome E (EnumData ImpureTyDatas * PredicateBuilder) :=
  task ← from_prim_ty (discr (fst (enum_data data)));
  discr_ty ← TyUseImpureEnc task;
  '(fdisc, b) ← im_function "field_discr" TRef [ref_self_decl] [] [null_iff] None b;
  let ref_disc := call fdisc [ref_self] in
  let snap_disc := use_ref_to_snap discr_ty ref_disc in
  '(vs, b) ← enum_ty_impure_variants task_key snap_disc (variants data) b;
  pred ← enum_pred_expr discr_ty ref_disc snap_disc vs;
  '(_, b) ← mk_self_predicate EmptyString (Some pred) b;
  let base := call (pure_unreachable (snd (ty_data task_key))) (gen_exprs (im_params b)) in
  b ← mk_snap_function (Some (enum_snap_expr base snap_disc vs)) b;
  Ok ({| enum_data := {| enum_discr_ref := fdisc; enum_discr_ty := discr_ty |} : EnumD ImpureTyDatas;
         variants := vi_data <$> vs |}, b).

(** The types behind a reference are requested, but not used. *)
Definition require_refs (task_key : RustPureTy) (data : RefData) : outcome E unit :=
  _ ← TyUseImpureEnc (decompose (metadata data) (rp_rust_params task_key));
  _ ← TyUseImpureEnc (decompose (referent data) (rp_rust_params task_key));
  Ok tt.

Definition immref_ty_impure (task_key : RustPureTy) (data : RefData * TyPureRefData) (b : PredicateBuilder) :
    outcome E PredicateBuilder :=
  _ ← require_refs task_key (fst data);
  set_primitive b.

Definition raw_ty_impure (task_key : RustPureTy) (data : RefData * TyPureRawData) (b : PredicateBuilder) :
    outcome E PredicateBuilder :=
  _ ← TyUseImpureEnc (decompose (metadata (fst data)) (rp_rust_params task_key));
  set_primitive b.

(** [kinds/mutref.rs]: a function that makes up the value behind a mutable reference,
    of which the address and the metadata are known. *)
Definition mutref_ty_impure (task_key : RustPureTy) (data : RefData * TyPureRefData) (b : PredicateBuilder) :
    outcome E (TyImpureMutRefData * PredicateBuilder) :=
  let snap_type := im_snapshot b in
  let ref_param := {| decl_name := "r"; decl_ty := TRef |} in
  _ ← require_refs task_key (fst data);
  metadata_type ← use_snapshot (metadata (fst data)) (rp_rust_params task_key);
  let metadata_param := {| decl_name := "metadata"; decl_ty := metadata_type |} in
  '(arbitrary_value, b) ← im_function "arbitrary_value" snap_type [ref_param; metadata_param] []
    [mk_eq_expr (destr_call (ref_deref_access (snd data)) (Result_ snap_type)) (mk_local_ex ref_param);
     mk_eq_expr (destr_call (ref_metadata_access (snd data)) (Result_ snap_type)) (mk_local_ex metadata_param)]
    None b;
  b ← set_primitive b;
  Ok ({| mutref_pure := snd data; arbitrary_value := arbitrary_value |}, b).

(** [kinds/arraylike.rs]: the memory of an array is opaque; methods exchange it for
    the memory of one element with the memory of the others, [index_predicate]. *)
Definition mk_old_expr (e : Expr) : Expr := mk_old e OldNone.

Definition array_ty_impure (task_key : RustPureTy) (data : ArrayData RustPure) (b : PredicateBuilder) :
    outcome E (ArrayData ImpureTyDatas * PredicateBuilder) :=
  b ← set_opaque b;
  let g := im_params b in
  let index_decl := {| decl_name := "index"; decl_ty := TInt |} in
  let index := mk_local_ex index_decl in
  let pure := snd (array_data data) in
  '(index_predicate, b) ← im_predicate "index" (ref_self_decl :: index_decl :: gen_decls g) None b;
  let index_pred := PredicateApp index_predicate (ref_self :: index :: gen_exprs g) None in
  let index_ref := call (pure_ref_to_index_ref pure) (ref_self :: index :: ty_exprs g) in
  '(index_frame, b) ← im_function "index_frame" (pure_snapshot (snd (ty_data task_key)))
                        (ref_self_decl :: index_decl :: gen_decls g) [index_pred] [] None b;
  let frame := call index_frame (ref_self :: index :: gen_exprs g) in
  element_ty ← TyUseImpureEnc (decompose (fst (array_data data)) (rp_rust_params task_key));
  let element_pred := use_ref_to_pred element_ty index_ref None in
  let element_snap := use_ref_to_snap element_ty index_ref in
  let array_snap := call (im_ref_to_snap b) (self_exprs g ref_self) in
  let array_index := call (index_access pure) [array_snap; index] in
  let idx_decl := {| decl_name := "idx"; decl_ty := TInt |} in
  let idx := mk_local_ex idx_decl in
  let decls := index_decl :: ref_self_decl :: gen_decls g in
  '(fold, b) ← im_method "fold_index" decls [] [element_pred; index_pred]
    [self_pred (im_ref_to_pred b) b;
     Forall_ [idx_decl] [[call (index_access pure) [array_snap; idx]]]
       (mk_eq_expr (call (index_access pure) [array_snap; idx])
          (mk_ternary_expr (mk_eq_expr idx index) (mk_old_expr element_snap)
             (mk_old_expr (call (index_access pure) [frame; idx]))))] b;
  '(unfold, b) ← im_method "unfold_index" decls [] [self_pred (im_ref_to_pred b) b]
    [element_pred; index_pred; mk_eq_expr element_snap (mk_old_expr array_index);
     mk_eq_expr frame (mk_old_expr array_snap)] b;
  Ok ({| array_data :=
           {| impure_ref_to_index_ref := pure_ref_to_index_ref pure; index_frame := index_frame;
              index_predicate := index_predicate; method_fold := fold; method_unfold := unfold |}
           : ArrayD ImpureTyDatas;
         slice := slice data |}, b).

(** [do_encode_full] for a type and its snapshot. The method that assigns a snapshot
    comes first. *)
Definition assign_method (snapshot : TypeKind) (b : PredicateBuilder) : outcome E (string * PredicateBuilder) :=
  let value_decl := {| decl_name := "value"; decl_ty := snapshot |} in
  im_method "assign" (self_decls b ++ [value_decl]) [] []
    [self_pred (im_ref_to_pred b) b;
     mk_eq_expr (call (im_ref_to_snap b) (self_exprs (im_params b) ref_self)) (mk_local_ex value_decl)] b.

Definition specifics_ty_impure (ty : RustPureTy) (b : PredicateBuilder) :
    outcome E (Ty.TySpecifics ImpureTyDatas * PredicateBuilder) :=
  match ty_specifics ty with
  | Ty.Param _ => b ← set_opaque b; Ok (Ty.Param (D:=ImpureTyDatas) tt, b)
  | Ty.Opaque _ => b ← set_opaque b; Ok (Ty.Opaque (D:=ImpureTyDatas) tt, b)
  | Ty.ArrayLike array => '(array, b) ← array_ty_impure ty array b; Ok (Ty.ArrayLike array, b)
  | Ty.Primitive _ => b ← set_primitive b; Ok (Ty.Primitive (D:=ImpureTyDatas) tt, b)
  | Ty.ImmRef data => b ← immref_ty_impure ty data b; Ok (Ty.ImmRef (D:=ImpureTyDatas) tt, b)
  | Ty.MutRef data => '(m, b) ← mutref_ty_impure ty data b; Ok (Ty.MutRef (D:=ImpureTyDatas) m, b)
  | Ty.Raw data => b ← raw_ty_impure ty data b; Ok (Ty.Raw (D:=ImpureTyDatas) tt, b)
  | Ty.StructLike data => '(s, b) ← struct_ty_impure ty data b; Ok (Ty.StructLike s, b)
  | Ty.EnumLike data => '(e, b) ← enum_ty_impure ty data b; Ok (Ty.EnumLike e, b)
  | Ty.Builtin _ => b ← set_primitive b; Ok (Ty.Builtin (D:=ImpureTyDatas) tt, b)
  end.

Definition TyImpureEnc (task_key : RustTy) : outcome E (TyImpureEncLocal * TyImpure) :=
  '(_, snap) ← TyPureEnc task_key;
  let snapshot := pure_snapshot (ty_data (D:=PureTyDatas) snap) in
  ty ← ty_zip task_key snap;
  b ← PredicateBuilder_new task_key snapshot;
  '(assign, b) ← assign_method snapshot b;
  let data := {| ref_to_pred := im_ref_to_pred b; ref_to_snap := im_ref_to_snap b; method_assign := assign |} in
  '(specifics, b) ← specifics_ty_impure ty b;
  local ← im_build b;
  Ok (local, {| ty_data := data : TyD ImpureTyDatas; ty_specifics := specifics |}).
End encoder.

(** [emit_outputs] for one type *)
Definition emit_impure (o : TyImpureEncLocal) (p : ProgramGenData) : ProgramGenData :=
  mk_program (program_fields p ++ impure_fields o) (program_adts p) (program_domains p)
    (program_predicates p ++ impure_predicates o)
    (program_functions p ++ impure_functions o ++ [impure_function_snap o])
    (program_methods p ++ impure_method_assign o :: impure_methods o).
