(* ===== verification/TyHeap.v ===== *)
(** * Memory and assertions

    What the predicates and the heap-dependent functions of a VIR program mean. A heap
    gives fields of references their values; an assertion owns a footprint, the fields
    it has permission to; the conjunction of two assertions separates their footprints.
    Predicates and functions are interpreted by the bodies the program declares, to a
    depth: [Own], [Snap] hold if some depth suffices (the least fixpoint of recursive
    predicates). The second part says what they mean for composed expressions and
    assertions, without depths: unfolding of predicates and functions, calls,
    conditionals, separating conjunctions and the balanced conjunctions of [mk_conj]. *)
From S2P Require Import Prelude Vir VirMake VirProgram VirSem TyDomain.

(** What Viper interprets but the program does not define: discriminators of algebraic
    data types, abstract predicates and abstract functions with preconditions. *)
Class HeapModel {VM : ViperModel} := {
  viper_is : string -> value domain_value -> option bool;
  abs_pred : string -> list (value domain_value) -> (value domain_value -> string -> option (value domain_value)) ->
             option (list (value domain_value * string));
  abs_fun : string -> list (value domain_value) -> (value domain_value -> string -> option (value domain_value)) ->
            option (value domain_value);
}.

Section assertions.
Context {VM : ViperModel} {HM : HeapModel}.
Abbreviation val := (value domain_value).
Abbreviation env := (gmap string val).
Abbreviation heap := (val -> string -> option val).
Abbreviation footprint := (list (val * string)).

#[export] Instance footprint_disjoint_dec (F G : footprint) : Decision (F ## G).
Proof.
  refine (cast_if (decide (Forall (fun l => l ∉ G) F))).
  - abstract (intros x HF HG; match goal with H : Forall _ _ |- _ => rewrite Forall_forall in H; by apply (H x) end).
  - abstract (intros Hd; match goal with H : ~ Forall _ _ |- _ => apply H end; apply Forall_forall; intros x HF HG;
      by apply (Hd x)).
Defined.

(** Two footprints that an assertion owns separately. *)
Definition sep_union (F G : footprint) : option footprint :=
  if decide (F ## G) then Some (F ++ G) else None.

(** ** Evaluation under an interpretation of predicates and functions *)
Section interpretation.
Variables (pred : string -> list val -> option footprint) (fn : string -> list val -> option val) (h : heap).

Fixpoint heval (ρ : env) (e : Expr) {struct e} : option val :=
  let heval_list := fix go (es : list Expr) : option (list val) :=
    match es with
    | [] => Some []
    | e :: es => v ← heval ρ e; vs ← go es; Some (v :: vs)
    end in
  match e with
  | Local name _ => ρ !! name
  | Field recv f _ => r ← heval ρ recv; h r f
  | Const (CBool b) => Some (VBool b)
  | Const (CInt n) => Some (VInt n)
  | Const CNull => Some VNull
  | Unfolding p args None e => vs ← heval_list args; _ ← pred p vs; heval ρ e
  | UnOp kind e => v ← heval ρ e; eval_unop kind v
  | BinOp And l r =>
      match heval ρ l with
      | Some (VBool true) => match heval ρ r with Some (VBool b) => Some (VBool b) | _ => None end
      | Some (VBool false) => Some (VBool false)
      | _ => None
      end
  | BinOp Or l r =>
      match heval ρ l with
      | Some (VBool false) => match heval ρ r with Some (VBool b) => Some (VBool b) | _ => None end
      | Some (VBool true) => Some (VBool true)
      | _ => None
      end
  | BinOp Implies l r =>
      match heval ρ l with
      | Some (VBool true) => match heval ρ r with Some (VBool b) => Some (VBool b) | _ => None end
      | Some (VBool false) => Some (VBool true)
      | _ => None
      end
  | BinOp kind l r => a ← heval ρ l; b ← heval ρ r; eval_binop kind a b
  | Ternary c t e =>
      match heval ρ c with
      | Some (VBool true) => heval ρ t
      | Some (VBool false) => heval ρ e
      | _ => None
      end
  | Let name v e => x ← heval ρ v; heval (<[name := x]> ρ) e
  | FuncApp f args _ _ => vs ← heval_list args; fn f vs
  | AdtDestructor e name _ _ => v ← heval ρ e; viper_fun name [v]
  | AdtDiscriminator e name => v ← heval ρ e; VBool <$> viper_is name v
  | _ => None
  end.

Fixpoint heval_list (ρ : env) (es : list Expr) : option (list val) :=
  match es with
  | [] => Some []
  | e :: es => v ← heval ρ e; vs ← heval_list ρ es; Some (v :: vs)
  end.

Lemma heval_FuncApp ρ f args ty tys :
  heval ρ (FuncApp f args ty tys) = vs ← heval_list ρ args; fn f vs.
Proof.
  cbn [heval]. f_equal. induction args as [|e args IH]; [done|]. cbn [heval_list]. by rewrite <- IH.
Qed.

Lemma heval_Unfolding ρ p args e :
  heval ρ (Unfolding p args None e) = vs ← heval_list ρ args; _ ← pred p vs; heval ρ e.
Proof.
  cbn [heval]. f_equal. induction args as [|a args IH]; [done|]. cbn [heval_list]. by rewrite <- IH.
Qed.

(** [owns ρ e] is the footprint of the assertion [e], if it holds. *)
Fixpoint owns (ρ : env) (e : Expr) {struct e} : option footprint :=
  match e with
  | PredicateApp p args None => vs ← heval_list ρ args; pred p vs
  | AccField recv f _ None =>
      r ← heval ρ recv;
      match r, h r f with VNull, _ | _, None => None | _, Some _ => Some [(r, f)] end
  | BinOp And l r => F ← owns ρ l; G ← owns ρ r; sep_union F G
  | BinOp Implies c e =>
      match heval ρ c with
      | Some (VBool true) => owns ρ e
      | Some (VBool false) => Some []
      | _ => None
      end
  | Ternary c t e =>
      match heval ρ c with
      | Some (VBool true) => owns ρ t
      | Some (VBool false) => owns ρ e
      | _ => None
      end
  | Unfolding p args None e => vs ← heval_list ρ args; _ ← pred p vs; owns ρ e
  | _ => match heval ρ e with Some (VBool true) => Some [] | _ => None end
  end.
End interpretation.

(** ** Programs *)
Section program.
Variable P : ProgramGenData.

Definition prog_pred (name : string) : option PredicateGenData :=
  list_find (fun d => predicate_name d = name) (program_predicates P) ≫= fun x => Some x.2.
Definition prog_fun (name : string) : option FunctionGenData :=
  list_find (fun d => function_name d = name) (program_functions P) ≫= fun x => Some x.2.

Definition bind_args (ds : list LocalDecl) (vs : list val) : env :=
  list_to_map (zip (decl_name <$> ds) vs).

Variable h : heap.

(** One unfolding of a predicate and of a function, which is evaluated where its
    preconditions hold. *)
Definition unfold_pred (pred : string -> list val -> option footprint) (fn : string -> list val -> option val)
    (p : string) (vs : list val) : option footprint :=
  d ← prog_pred p;
  match predicate_expr d with
  | Some body =>
      if decide (length vs = length (predicate_args d))
      then owns pred fn h (bind_args (predicate_args d) vs) body else None
  | None => abs_pred p vs h
  end.

Definition unfold_fun (pred : string -> list val -> option footprint) (fn : string -> list val -> option val)
    (f : string) (vs : list val) : option val :=
  match prog_fun f with
  | None => viper_fun f vs
  | Some d =>
      if decide (length vs = length (function_args d)) then
        _ ← mapM (owns pred fn h (bind_args (function_args d) vs)) (function_pres d);
        match function_expr d, function_pres d with
        | Some body, _ => heval pred fn h (bind_args (function_args d) vs) body
        | None, [] => viper_fun f vs
        | None, _ => abs_fun f vs h
        end
      else None
  end.

(** Depth [n]: predicates and functions may be unfolded [n] times. *)
Fixpoint interp (n : nat) : (string -> list val -> option footprint) * (string -> list val -> option val) :=
  match n with
  | O => (fun _ _ => None, fun _ _ => None)
  | S n => (unfold_pred (interp n).1 (interp n).2, unfold_fun (interp n).1 (interp n).2)
  end.

Definition pred_at (n : nat) := (interp n).1.
Definition fun_at (n : nat) := (interp n).2.

(** The predicate instance [p(vs)] owns [F]; the function [f(vs)] has the value [v]. *)
Definition Own (p : string) (vs : list val) (F : footprint) : Prop := exists n, pred_at n p vs = Some F.
Definition Snap (f : string) (vs : list val) (v : val) : Prop := exists n, fun_at n f vs = Some v.

(** Assertions and expressions in an environment. *)
Definition Owns (ρ : env) (e : Expr) (F : footprint) : Prop :=
  exists n, owns (pred_at n) (fun_at n) h ρ e = Some F.
Definition Evals (ρ : env) (e : Expr) (v : val) : Prop :=
  exists n, heval (pred_at n) (fun_at n) h ρ e = Some v.
End program.

(** ** More depth keeps results *)
Section monotone.
Variables (pred pred' : string -> list val -> option footprint).
Variables (fn fn' : string -> list val -> option val) (h : heap).
Hypothesis pred_le : forall p vs F, pred p vs = Some F -> pred' p vs = Some F.
Hypothesis fn_le : forall f vs v, fn f vs = Some v -> fn' f vs = Some v.

Definition heval_keeps (e : Expr) : Prop :=
  forall ρ v, heval pred fn h ρ e = Some v -> heval pred' fn' h ρ e = Some v.

Lemma heval_list_keeps es : Forall heval_keeps es -> forall ρ vs,
  heval_list pred fn h ρ es = Some vs -> heval_list pred' fn' h ρ es = Some vs.
Proof.
  induction 1 as [|e es He _ IH]; intros ρ vs; [done|]. cbn [heval_list].
  intros (v & Hv & (ws & Hws & [= <-])%bind_Some)%bind_Some.
  by rewrite (He _ _ Hv), (IH _ _ Hws).
Qed.

Lemma heval_mono e : heval_keeps e.
Proof.
  induction e as [name ty|r IHr f fty|e IH label|c|ty|r IHr f fty perm Hp|p args Hargs perm Hp e IHe|kind e IHe
    |kind l IHl r IHr|k l IHl r IHr|es Hes ty|t IHt k IHk w IHw|e IH|e IH|e IH|c IHc t IHt e IHe
    |q tr Htr b IHb|q tr Htr b IHb|name x IHx e IHe|f args Hargs ty tys|t args Ha perm Hp|l IHl r IHr
    |l IHl r IHr|name ty|e IHe name i t|e IHe name|msg];
    intros ρ v; try done.
  - cbn [heval]. intros (w & Hw & Hv)%bind_Some. by rewrite (IHr _ _ Hw).
  - destruct perm; [done|]. rewrite !heval_Unfolding.
    intros (vs & Hvs & (F & HF & Hv)%bind_Some)%bind_Some.
    rewrite (heval_list_keeps args (list_all_Forall _ _ Hargs) _ _ Hvs). simpl.
    rewrite (pred_le _ _ _ HF). simpl. by apply IHe.
  - cbn [heval]. intros (w & Hw & Hv)%bind_Some. by rewrite (IHe _ _ Hw).
  - destruct (heval pred fn h ρ l) as [x|] eqn:Hl; [|destruct kind; cbn [heval]; by rewrite Hl].
    pose proof (IHl _ _ Hl) as Hl'. destruct (heval pred fn h ρ r) as [y|] eqn:Hr.
    + pose proof (IHr _ _ Hr) as Hr'. destruct kind; cbn [heval]; by rewrite Hl, Hr, Hl', Hr'.
    + destruct kind; cbn [heval]; rewrite Hl, Hr, ?Hl'; try done; by destruct x as [|[]| |].
  - cbn [heval]. destruct (heval pred fn h ρ c) as [[|[]| |]|] eqn:Hc; try done; rewrite (IHc _ _ Hc); auto.
  - cbn [heval]. intros (w & Hw & Hv)%bind_Some. rewrite (IHx _ _ Hw). by apply IHe.
  - rewrite !heval_FuncApp. intros (vs & Hvs & Hv)%bind_Some.
    rewrite (heval_list_keeps args (list_all_Forall _ _ Hargs) _ _ Hvs). by apply fn_le.
  - cbn [heval]. intros (w & Hw & Hv)%bind_Some. by rewrite (IHe _ _ Hw).
  - cbn [heval]. intros (w & Hw & Hv)%bind_Some. by rewrite (IHe _ _ Hw).
Qed.

Lemma heval_list_mono es ρ vs :
  heval_list pred fn h ρ es = Some vs -> heval_list pred' fn' h ρ es = Some vs.
Proof. apply heval_list_keeps. induction es; constructor; [apply heval_mono|done]. Qed.

(** A pure assertion owns nothing. *)
Lemma pure_keeps e ρ (F : footprint) :
  match heval pred fn h ρ e with Some (VBool true) => Some [] | _ => None end = Some F ->
  match heval pred' fn' h ρ e with Some (VBool true) => Some [] | _ => None end = Some F.
Proof. destruct (heval pred fn h ρ e) eqn:He; [|done]. by rewrite (heval_mono _ _ _ He). Qed.

Lemma owns_mono e ρ F : owns pred fn h ρ e = Some F -> owns pred' fn' h ρ e = Some F.
Proof.
  revert ρ F. induction e as [name ty|r _ f fty|e _ label|c|ty|r _ f fty perm _|p args _ perm _ e IHe|kind e _
    |kind l IHl r IHr|k l _ r _|es _ ty|t _ k _ w _|e _|e _|e _|c _ t IHt e IHe
    |q tr _ b _|q tr _ b _|name x _ e _|f args _ ty tys|t args _ perm _|l _ r _
    |l _ r _|name ty|e _ name i t|e _ name|msg]; intros ρ F; try apply pure_keeps.
  - destruct perm; [apply pure_keeps|]. cbn [owns]. intros (v & Hv & HF)%bind_Some.
    by rewrite (heval_mono _ _ _ Hv).
  - destruct perm; [apply pure_keeps|]. cbn [owns].
    intros (vs & Hvs & (G & HG & HF)%bind_Some)%bind_Some. rewrite (heval_list_mono _ _ _ Hvs). simpl.
    rewrite (pred_le _ _ _ HG). simpl. by apply IHe.
  - destruct kind; try apply pure_keeps; cbn [owns].
    + intros (G1 & HG1 & (G2 & HG2 & HF)%bind_Some)%bind_Some. by rewrite (IHl _ _ HG1), (IHr _ _ HG2).
    + destruct (heval pred fn h ρ l) as [[|[]| |]|] eqn:Hl; try done; rewrite (heval_mono _ _ _ Hl); auto.
  - cbn [owns]. destruct (heval pred fn h ρ c) as [[|[]| |]|] eqn:Hc; try done;
      rewrite (heval_mono _ _ _ Hc); auto.
  - destruct perm; [apply pure_keeps|]. cbn [owns]. intros (vs & Hvs & HF)%bind_Some.
    rewrite (heval_list_mono _ _ _ Hvs). by apply pred_le.
Qed.
End monotone.

(** Deeper interpretations keep what shallower ones say. *)
Section depth.
Variables (P : ProgramGenData) (h : heap).

Lemma mapM_keeps {A B} (f g : A -> option B) l k :
  (forall x y, f x = Some y -> g x = Some y) -> mapM f l = Some k -> mapM g l = Some k.
Proof.
  intros Hfg. rewrite !mapM_Some. intros Hl. induction Hl; constructor; auto.
Qed.

Lemma unfold_mono pred pred' fn fn' :
  (forall p vs F, pred p vs = Some F -> pred' p vs = Some F) ->
  (forall f vs v, fn f vs = Some v -> fn' f vs = Some v) ->
  (forall p vs F, unfold_pred P h pred fn p vs = Some F -> unfold_pred P h pred' fn' p vs = Some F) /\
  (forall f vs v, unfold_fun P h pred fn f vs = Some v -> unfold_fun P h pred' fn' f vs = Some v).
Proof.
  intros Hp Hf. split.
  - intros p vs F. unfold unfold_pred. destruct (prog_pred P p) as [d|]; [|done]. simpl.
    destruct (predicate_expr d); [|done]. case_decide; [|done]. by apply owns_mono.
  - intros f vs v. unfold unfold_fun. destruct (prog_fun P f) as [d|]; [|done]. case_decide; [|done].
    intros (Fs & HFs & Hv)%bind_Some.
    rewrite (mapM_keeps _ (owns pred' fn' h (bind_args (function_args d) vs)) _ _
               ltac:(intros; by eapply owns_mono) HFs). simpl.
    destruct (function_expr d); [|done]. by eapply heval_mono.
Qed.

Lemma interp_step n :
  (forall p vs F, pred_at P h n p vs = Some F -> pred_at P h (S n) p vs = Some F) /\
  (forall f vs v, fun_at P h n f vs = Some v -> fun_at P h (S n) f vs = Some v).
Proof. induction n as [|n [IHp IHf]]; [done|]. by apply unfold_mono. Qed.

Lemma interp_le n m : n <= m ->
  (forall p vs F, pred_at P h n p vs = Some F -> pred_at P h m p vs = Some F) /\
  (forall f vs v, fun_at P h n f vs = Some v -> fun_at P h m f vs = Some v).
Proof.
  induction 1 as [|m _ [IHp IHf]]; [done|]. destruct (interp_step m) as [Hp Hf]. split; auto.
Qed.

Lemma heval_deeper n m ρ e v : n <= m ->
  heval (pred_at P h n) (fun_at P h n) h ρ e = Some v ->
  heval (pred_at P h m) (fun_at P h m) h ρ e = Some v.
Proof. intros [Hp Hf]%interp_le. by apply heval_mono. Qed.

Lemma owns_deeper n m ρ e F : n <= m ->
  owns (pred_at P h n) (fun_at P h n) h ρ e = Some F ->
  owns (pred_at P h m) (fun_at P h m) h ρ e = Some F.
Proof. intros [Hp Hf]%interp_le. by apply owns_mono. Qed.
End depth.
End assertions.

(** ** Rules for memory *)
Section rules.
Context {VM : ViperModel} {HM : HeapModel} (P : ProgramGenData).
Abbreviation val := (value domain_value).
Abbreviation env := (gmap string val).
Abbreviation footprint := (list (val * string)).
Variable h : val -> string -> option val.

Abbreviation Own := (Own P h).
Abbreviation Snap := (Snap P h).
Abbreviation Owns := (Owns P h).
Abbreviation Evals := (Evals P h).

(** All footprints are separate. *)
Fixpoint separate (Fs : list footprint) : Prop :=
  match Fs with [] => True | F :: Fs => F ## concat Fs /\ separate Fs end.

(** ** Common depths *)
Lemma Evals_at n ρ e v : heval (pred_at P h n) (fun_at P h n) h ρ e = Some v -> Evals ρ e v.
Proof. by exists n. Qed.

Lemma Evals_list ρ es vs :
  Forall2 (Evals ρ) es vs <-> exists n, heval_list (pred_at P h n) (fun_at P h n) h ρ es = Some vs.
Proof.
  split.
  - induction 1 as [|e v es vs [n Hv] _ [m Hvs]]; [by exists 0|]. exists (n `max` m). cbn [heval_list].
    rewrite (heval_deeper _ _ n (n `max` m) _ _ _ ltac:(lia) Hv).
    destruct (interp_le P h m (n `max` m) ltac:(lia)) as [Hp Hf].
    by rewrite (heval_list_mono _ _ _ _ _ Hp Hf _ _ _ Hvs).
  - intros [n Hn]. revert vs Hn. induction es as [|e es IH]; intros vs.
    + intros [= <-]. constructor.
    + cbn [heval_list]. intros (v & Hv & (ws & Hws & [= <-])%bind_Some)%bind_Some.
      constructor; [by exists n|by apply IH].
Qed.

Lemma heval_list_deeper n m ρ es vs : n <= m ->
  heval_list (pred_at P h n) (fun_at P h n) h ρ es = Some vs ->
  heval_list (pred_at P h m) (fun_at P h m) h ρ es = Some vs.
Proof. intros [Hp Hf]%(interp_le P h). by apply heval_list_mono. Qed.

Lemma Evals_det ρ e v w : Evals ρ e v -> Evals ρ e w -> v = w.
Proof.
  intros [n Hn] [m Hm]. apply (heval_deeper _ _ n (n `max` m)) in Hn; [|lia].
  apply (heval_deeper _ _ m (n `max` m)) in Hm; [|lia]. congruence.
Qed.

Lemma Owns_det ρ e F G : Owns ρ e F -> Owns ρ e G -> F = G.
Proof.
  intros [n Hn] [m Hm]. apply (owns_deeper _ _ n (n `max` m)) in Hn; [|lia].
  apply (owns_deeper _ _ m (n `max` m)) in Hm; [|lia]. congruence.
Qed.

Lemma Own_det p vs F G : Own p vs F -> Own p vs G -> F = G.
Proof.
  intros [n Hn] [m Hm]. destruct (interp_le P h n (n `max` m) ltac:(lia)) as [Hp _].
  destruct (interp_le P h m (n `max` m) ltac:(lia)) as [Hp' _]. apply Hp in Hn. apply Hp' in Hm. congruence.
Qed.

Lemma Snap_det f vs v w : Snap f vs v -> Snap f vs w -> v = w.
Proof.
  intros [n Hn] [m Hm]. destruct (interp_le P h n (n `max` m) ltac:(lia)) as [_ Hf].
  destruct (interp_le P h m (n `max` m) ltac:(lia)) as [_ Hf']. apply Hf in Hn. apply Hf' in Hm. congruence.
Qed.

Lemma Evals_list_det ρ es vs ws : Forall2 (Evals ρ) es vs -> Forall2 (Evals ρ) es ws -> vs = ws.
Proof.
  intros Hvs. revert ws. induction Hvs as [|e v es vs Hv _ IH]; inversion 1; subst; [done|].
  f_equal; [by eapply Evals_det|by apply IH].
Qed.

(** ** Expressions *)
Lemma Evals_Local ρ x ty v : Evals ρ (Local x ty) v <-> ρ !! x = Some v.
Proof. split; [by intros [n Hn]|]. intros Hx. by exists 0. Qed.

Lemma Evals_bool ρ b v : Evals ρ (Const (CBool b)) v <-> v = VBool b.
Proof. split; [by intros [n [= <-]]|]. intros ->. by exists 0. Qed.

Lemma Evals_int ρ z v : Evals ρ (Const (CInt z)) v <-> v = VInt z.
Proof. split; [by intros [n [= <-]]|]. intros ->. by exists 0. Qed.

Lemma Evals_unop ρ kind e v : Evals ρ (UnOp kind e) v <-> exists w, Evals ρ e w /\ eval_unop kind w = Some v.
Proof.
  split.
  - intros (n & (w & Hw & Hv)%bind_Some). exists w. split; [by exists n|done].
  - intros (w & [n Hw] & Hv). exists n. cbn [heval]. by rewrite Hw.
Qed.

Lemma Evals_Field ρ r f ty v : Evals ρ (Field r f ty) v <-> exists x, Evals ρ r x /\ h x f = Some v.
Proof.
  split.
  - intros (n & (x & Hx & Hv)%bind_Some). exists x. split; [by exists n|done].
  - intros (x & [n Hx] & Hv). exists n. cbn [heval]. by rewrite Hx.
Qed.

Lemma Evals_destr ρ e name i ty v :
  Evals ρ (AdtDestructor e name i ty) v <-> exists x, Evals ρ e x /\ viper_fun name [x] = Some v.
Proof.
  split.
  - intros (n & (x & Hx & Hv)%bind_Some). exists x. split; [by exists n|done].
  - intros (x & [n Hx] & Hv). exists n. cbn [heval]. by rewrite Hx.
Qed.

Lemma Evals_is ρ e name v :
  Evals ρ (AdtDiscriminator e name) v <-> exists x b, Evals ρ e x /\ viper_is name x = Some b /\ v = VBool b.
Proof.
  split.
  - intros (n & (x & Hx & (b & Hb & ->)%fmap_Some)%bind_Some). exists x, b. split; [by exists n|done].
  - intros (x & b & [n Hx] & Hb & ->). exists n. cbn [heval]. rewrite Hx. simpl. by rewrite Hb.
Qed.

Lemma Evals_call ρ f args v :
  Evals ρ (call f args) v <-> exists vs, Forall2 (Evals ρ) args vs /\ Snap (idn_name f) vs v.
Proof.
  unfold call. split.
  - intros [n Hn]. rewrite heval_FuncApp in Hn. apply bind_Some in Hn as (vs & Hvs & Hv).
    exists vs. split; [apply Evals_list; by exists n|by exists n].
  - intros (vs & [n Hvs]%Evals_list & [m Hv]). exists (n `max` m). rewrite heval_FuncApp.
    rewrite (heval_list_deeper n (n `max` m) _ _ _ ltac:(lia) Hvs). simpl.
    destruct (interp_le P h m (n `max` m) ltac:(lia)) as [_ Hf]. by apply Hf.
Qed.

Lemma Evals_eq ρ a b v :
  Evals ρ (mk_eq_expr a b) v <-> exists x y, Evals ρ a x /\ Evals ρ b y /\ v = VBool (bool_decide (x = y)).
Proof.
  split.
  - intros (n & (x & Hx & (y & Hy & [= <-])%bind_Some)%bind_Some). exists x, y. repeat split; by exists n.
  - intros (x & y & [n Hx] & [m Hy] & ->). exists (n `max` m).
    cbn -[interp pred_at fun_at]. rewrite (heval_deeper _ _ n (n `max` m) _ _ _ ltac:(lia) Hx).
    by rewrite (heval_deeper _ _ m (n `max` m) _ _ _ ltac:(lia) Hy).
Qed.

Lemma Evals_ternary ρ c t e v :
  Evals ρ (mk_ternary_expr c t e) v <->
  (Evals ρ c (VBool true) /\ Evals ρ t v) \/ (Evals ρ c (VBool false) /\ Evals ρ e v).
Proof.
  split.
  - intros [n Hn]. cbn [heval mk_ternary_expr] in Hn.
    destruct (heval _ _ h ρ c) as [[|[]| |]|] eqn:Hc; try done; [left|right]; split; by exists n.
  - intros [[[n Hc] [m Hv]]|[[n Hc] [m Hv]]]; exists (n `max` m); cbn [heval mk_ternary_expr];
      rewrite (heval_deeper _ _ n (n `max` m) _ _ _ ltac:(lia) Hc);
      by apply (heval_deeper _ _ m (n `max` m) _ _ _ ltac:(lia)).
Qed.

Lemma Evals_or ρ l r v :
  Evals ρ (BinOp Or l r) v <->
  (Evals ρ l (VBool true) /\ v = VBool true) \/
  (Evals ρ l (VBool false) /\ exists b, Evals ρ r (VBool b) /\ v = VBool b).
Proof.
  split.
  - intros [n Hn]. cbn [heval] in Hn.
    destruct (heval _ _ h ρ l) as [[|[]| |]|] eqn:Hl; try done.
    + left. split; [by exists n|congruence].
    + right. split; [by exists n|]. destruct (heval _ _ h ρ r) as [[|b| |]|] eqn:Hr; try done.
      exists b. split; [by exists n|congruence].
  - intros [[[n Hl] ->]|[[n Hl] (b & [m Hr] & ->)]].
    + exists n. cbn [heval]. by rewrite Hl.
    + exists (n `max` m). cbn [heval]. rewrite (heval_deeper _ _ n (n `max` m) _ _ _ ltac:(lia) Hl).
      by rewrite (heval_deeper _ _ m (n `max` m) _ _ _ ltac:(lia) Hr).
Qed.

Lemma Evals_unfolding ρ p args e v :
  Evals ρ (Unfolding p args None e) v <->
  (exists vs F, Forall2 (Evals ρ) args vs /\ Own p vs F) /\ Evals ρ e v.
Proof.
  split.
  - intros [n Hn]. rewrite heval_Unfolding in Hn. apply bind_Some in Hn as (vs & Hvs & Hn).
    apply bind_Some in Hn as (F & HF & Hv).
    split; [exists vs, F; split; [apply Evals_list; by exists n|by exists n]|by exists n].
  - intros ((vs & F & [n Hvs]%Evals_list & [m HF]) & [k Hv]). set (d := n `max` (m `max` k)).
    exists d. rewrite heval_Unfolding. rewrite (heval_list_deeper n d _ _ _ ltac:(unfold d; lia) Hvs).
    simpl. destruct (interp_le P h m d ltac:(unfold d; lia)) as [Hp _]. rewrite (Hp _ _ _ HF). simpl.
    by apply (heval_deeper _ _ k d _ _ _ ltac:(unfold d; lia)).
Qed.

(** ** Assertions *)
Lemma Owns_app ρ p args F :
  Owns ρ (PredicateApp p args None) F <-> exists vs, Forall2 (Evals ρ) args vs /\ Own p vs F.
Proof.
  split.
  - intros (n & (vs & Hvs & HF)%bind_Some). exists vs. split; [apply Evals_list; by exists n|by exists n].
  - intros (vs & [n Hvs]%Evals_list & [m HF]). exists (n `max` m). cbn [owns].
    rewrite (heval_list_deeper n (n `max` m) _ _ _ ltac:(lia) Hvs). simpl.
    destruct (interp_le P h m (n `max` m) ltac:(lia)) as [Hp _]. by apply Hp.
Qed.

Lemma Owns_acc ρ r f ty F :
  Owns ρ (AccField r f ty None) F <->
  exists x, Evals ρ r x /\ x <> VNull /\ is_Some (h x f) /\ F = [(x, f)].
Proof.
  split.
  - intros (n & (x & Hx & HF)%bind_Some). exists x. split; [by exists n|].
    destruct x, (h _ f) eqn:Hf; try done; injection HF as <-; eauto.
  - intros (x & [n Hx] & Hnull & [v Hv] & ->). exists n. cbn [owns]. rewrite Hx. simpl.
    destruct x; by rewrite ?Hv.
Qed.

Lemma Owns_and ρ l r F :
  Owns ρ (BinOp And l r) F <->
  exists G1 G2, Owns ρ l G1 /\ Owns ρ r G2 /\ G1 ## G2 /\ F = G1 ++ G2.
Proof.
  split.
  - intros (n & (G1 & HG1 & (G2 & HG2 & HF)%bind_Some)%bind_Some). exists G1, G2.
    unfold sep_union in HF. case_decide; [|done]. injection HF as <-. repeat split; [by exists n..|done].
  - intros (G1 & G2 & [n HG1] & [m HG2] & Hd & ->). exists (n `max` m). cbn [owns].
    rewrite (owns_deeper _ _ n (n `max` m) _ _ _ ltac:(lia) HG1). simpl.
    rewrite (owns_deeper _ _ m (n `max` m) _ _ _ ltac:(lia) HG2). simpl.
    unfold sep_union. by rewrite decide_True.
Qed.

Lemma Owns_implies ρ c e F :
  Owns ρ (BinOp Implies c e) F <->
  (Evals ρ c (VBool true) /\ Owns ρ e F) \/ (Evals ρ c (VBool false) /\ F = []).
Proof.
  split.
  - intros [n Hn]. cbn [owns] in Hn. destruct (heval _ _ h ρ c) as [[|[]| |]|] eqn:Hc; try done.
    + left. split; by exists n.
    + right. split; [by exists n|congruence].
  - intros [[[n Hc] [m HF]]|[[n Hc] ->]].
    + exists (n `max` m). cbn [owns]. rewrite (heval_deeper _ _ n (n `max` m) _ _ _ ltac:(lia) Hc).
      by apply (owns_deeper _ _ m (n `max` m) _ _ _ ltac:(lia)).
    + exists n. cbn [owns]. by rewrite Hc.
Qed.

(** Assertions without permissions own nothing. *)
Definition pure_expr (e : Expr) : bool :=
  match e with
  | Const _ | BinOp Or _ _ | BinOp CmpEq _ _ => true
  | _ => false
  end.

Lemma Owns_pure ρ e F : pure_expr e = true -> Owns ρ e F <-> Evals ρ e (VBool true) /\ F = [].
Proof.
  intros He. assert (forall n, owns (pred_at P h n) (fun_at P h n) h ρ e
    = match heval (pred_at P h n) (fun_at P h n) h ρ e with Some (VBool true) => Some [] | _ => None end) as Heq.
  { intros n. destruct e; try done. by destruct kind. }
  split.
  - intros [n Hn]. rewrite Heq in Hn. destruct (heval _ _ h ρ e) as [[|[]| |]|] eqn:Hv; try done.
    split; [by exists n|congruence].
  - intros [[n Hn] ->]. exists n. by rewrite Heq, Hn.
Qed.

(** ** Balanced conjunctions and disjunctions *)
Lemma disjoint_app_l (F G K : footprint) : (F ++ G) ## K <-> F ## K /\ G ## K.
Proof.
  split.
  - intros Hd. split; intros x Hx Hx'; apply (Hd x); try done; apply elem_of_app; auto.
  - intros [H1 H2] x [Hx|Hx]%elem_of_app Hx'; [by apply (H1 x)|by apply (H2 x)].
Qed.

Lemma disjoint_app_r (F G K : footprint) : K ## (F ++ G) <-> K ## F /\ K ## G.
Proof.
  split.
  - intros Hd. split; intros x Hx Hx'; apply (Hd x); try done; apply elem_of_app; auto.
  - intros [H1 H2] x Hx [Hx'|Hx']%elem_of_app; [by apply (H1 x)|by apply (H2 x)].
Qed.

Lemma separate_app Fs Gs : separate (Fs ++ Gs) <-> separate Fs /\ separate Gs /\ concat Fs ## concat Gs.
Proof.
  induction Fs as [|F Fs IH]; simpl.
  - split; [|naive_solver]. intros HG. repeat split; [done|]. intros x Hx. by apply elem_of_nil in Hx.
  - rewrite concat_app, disjoint_app_r, disjoint_app_l, IH. tauto.
Qed.

Lemma Owns_balanced ρ es e : balanced And es e -> forall F,
  Owns ρ e F <-> exists Fs, Forall2 (Owns ρ) es Fs /\ separate Fs /\ F = concat Fs.
Proof.
  induction 1 as [e|es1 es2 l r _ H1 H2 _ IHl _ IHr]; intros F.
  - split.
    + intros HF. exists [F]. repeat split; [by repeat constructor| |simpl; by rewrite app_nil_r].
      simpl. intros x _ Hx. by apply elem_of_nil in Hx.
    + intros (Fs & HFs & _ & ->). inversion HFs as [|? G ? ? HG Hnil]; subst. inversion Hnil; subst.
      simpl. by rewrite app_nil_r.
  - rewrite Owns_and. split.
    + intros (G1 & G2 & (Fs1 & HF1 & Hs1 & ->)%IHl & (Fs2 & HF2 & Hs2 & ->)%IHr & Hd & ->).
      exists (Fs1 ++ Fs2). rewrite separate_app, concat_app. split; [by apply Forall2_app|done].
    + intros (Fs & (Fs1 & Fs2 & HF1 & HF2 & ->)%Forall2_app_inv_l & (Hs1 & Hs2 & Hd)%separate_app & ->).
      exists (concat Fs1), (concat Fs2). rewrite IHl, IHr, concat_app. eauto 10.
Qed.

(** The empty conjunction is [true]. *)
Lemma Owns_conj {E} ρ es e F : @mk_conj E es = Ok e ->
  Owns ρ e F <-> exists Fs, Forall2 (Owns ρ) es Fs /\ separate Fs /\ F = concat Fs.
Proof.
  intros He. destruct es as [|a es].
  - injection He as <-. unfold mk_bool. rewrite Owns_pure, Evals_bool by done. split.
    + intros [_ ->]. exists []. repeat split. constructor.
    + intros (Fs & HFs & _ & ->). by inversion HFs.
  - destruct (mk_assoc_op_balanced (E:=E) (length (a :: es)) And (Some (mk_bool true)) (a :: es))
      as (c & Hc & Hb); [done..|].
    assert (c = e) as -> by (unfold mk_conj, mk_assoc_op in He; congruence). by apply Owns_balanced.
Qed.

(** A disjunction of expressions with boolean values. *)
Lemma Evals_disj {E} ρ es e bs : @mk_disj E es = Ok e ->
  Forall2 (fun e b => Evals ρ e (VBool b)) es bs -> Evals ρ e (VBool (existsb id bs)).
Proof.
  intros He Hbs. destruct es as [|a es].
  - injection He as <-. inversion Hbs. by apply Evals_bool.
  - destruct (mk_assoc_op_balanced (E:=E) (length (a :: es)) Or (Some (mk_bool false)) (a :: es))
      as (c & Hc & Hb); [done..|].
    assert (c = e) as -> by (unfold mk_disj, mk_assoc_op in He; congruence). clear He Hc.
    revert bs Hbs. induction Hb as [e|es1 es2 l r _ H1 H2 _ IHl _ IHr]; intros bs Hbs.
    + inversion Hbs as [|? b ? ? Hv Hnil]; subst. inversion Hnil; subst. simpl. by rewrite orb_false_r.
    + apply Forall2_app_inv_l in Hbs as (bs1 & bs2 & Hb1 & Hb2 & ->).
      apply IHl in Hb1. apply IHr in Hb2. rewrite existsb_app. apply Evals_or.
      destruct (existsb id bs1); [by left|right]. eauto.
Qed.

(** ** Predicates and functions of the program *)
Lemma Own_unfold p d body vs F : prog_pred P p = Some d -> predicate_expr d = Some body ->
  Own p vs F <-> length vs = length (predicate_args d) /\ Owns (bind_args (predicate_args d) vs) body F.
Proof.
  intros Hd Hbody. split.
  - intros [[|n] Hn]; [done|]. unfold pred_at in Hn. cbn [interp fst] in Hn. unfold unfold_pred in Hn.
    rewrite Hd in Hn. simpl in Hn. rewrite Hbody in Hn. case_decide; [|done]. split; [done|by exists n].
  - intros [Hl [n Hn]]. exists (S n). unfold pred_at. cbn [interp fst]. unfold unfold_pred.
    rewrite Hd. simpl. by rewrite Hbody, decide_True.
Qed.

Lemma Snap_undefined f vs v : prog_fun P f = None -> Snap f vs v <-> viper_fun f vs = Some v.
Proof.
  intros Hf. split.
  - intros [[|n] Hn]; [done|]. unfold fun_at in Hn. cbn [interp snd] in Hn. unfold unfold_fun in Hn.
    by rewrite Hf in Hn.
  - intros Hv. exists 1. unfold fun_at. cbn [interp snd]. unfold unfold_fun. by rewrite Hf.
Qed.

(** An abstract function without preconditions. *)
Lemma Snap_abstract f d vs v : prog_fun P f = Some d -> function_pres d = [] -> function_expr d = None ->
  Snap f vs v <-> length vs = length (function_args d) /\ viper_fun f vs = Some v.
Proof.
  intros Hf Hpre Hexpr. split.
  - intros [[|n] Hn]; [done|]. unfold fun_at in Hn. cbn [interp snd] in Hn. unfold unfold_fun in Hn.
    rewrite Hf in Hn. case_decide; [|done]. rewrite Hpre, Hexpr in Hn. done.
  - intros [Hl Hv]. exists 1. unfold fun_at. cbn [interp snd]. unfold unfold_fun.
    by rewrite Hf, decide_True, Hpre, Hexpr.
Qed.

Lemma mapM_deeper n m ρ es Fs : n <= m ->
  mapM (owns (pred_at P h n) (fun_at P h n) h ρ) es = Some Fs ->
  mapM (owns (pred_at P h m) (fun_at P h m) h ρ) es = Some Fs.
Proof. intros Hle. apply mapM_keeps. intros e F. by apply owns_deeper. Qed.

(** A function with a body has its value where the preconditions hold. *)
Lemma Snap_unfold f d body vs v : prog_fun P f = Some d -> function_expr d = Some body ->
  Snap f vs v <->
  length vs = length (function_args d) /\
  (exists Fs, Forall2 (Owns (bind_args (function_args d) vs)) (function_pres d) Fs) /\
  Evals (bind_args (function_args d) vs) body v.
Proof.
  intros Hf Hbody. split.
  - intros [[|n] Hn]; [done|]. unfold fun_at in Hn. cbn [interp snd] in Hn. unfold unfold_fun in Hn.
    rewrite Hf in Hn. case_decide; [|done]. apply bind_Some in Hn as (Fs & HFs%mapM_Some & Hv).
    rewrite Hbody in Hv. split; [done|]. split; [|by exists n]. exists Fs.
    eapply Forall2_impl; [exact HFs|]. intros e F HF. by exists n.
  - intros (Hl & (Fs & HFs) & [m Hm]).
    assert (exists n, mapM (owns (pred_at P h n) (fun_at P h n) h (bind_args (function_args d) vs))
                        (function_pres d) = Some Fs) as [n Hn].
    { clear -HFs. induction HFs as [|e F es Fs [n Hn] _ [m Hm]]; [by exists 0|]. exists (n `max` m).
      cbn [mapM]. rewrite (owns_deeper _ _ n (n `max` m) _ _ _ ltac:(lia) Hn). simpl.
      by rewrite (mapM_deeper m (n `max` m) _ _ _ ltac:(lia) Hm). }
    exists (S (n `max` m)). unfold fun_at. cbn [interp snd].
    fold (pred_at P h (n `max` m)). fold (fun_at P h (n `max` m)). unfold unfold_fun.
    rewrite Hf, decide_True by done.
    rewrite (mapM_deeper n (n `max` m) _ _ _ ltac:(lia) Hn). simpl. rewrite Hbody.
    by apply (heval_deeper _ _ m (n `max` m) _ _ _ ltac:(lia)).
Qed.
End rules.
