(* ===== verification/TySpec.v ===== *)
(** * What the type encoders build

    The outcome of every step of [TyPure] in closed form: constructors with their
    destructors, functions to the references of fields, the discriminant function of an
    enum; the shape of the result is that of the type. The predicates, functions and
    methods of [TyImpure] in closed form. *)
From stdpp Require Import pretty.
From S2P Require Import Prelude Names Vir VirMake VirProgram VirInt TyDomain TyData Primitive TyRust TyUse TyPure TyImpure.

(** Inverts a chain of steps that return pairs. *)
Ltac inv_steps :=
  repeat (inv_outcome;
    match goal with
    | H : match ?x with (_, _) => _ end = Ok _ |- _ => is_var x; destruct x; cbn beta iota in H
    end); inv_outcome; simplify_eq.

Section outcomes.
Context {E : Type}.

Lemma ViperIdent_new_inv s t : ViperIdent_new (E:=E) s = Ok t -> t = s.
Proof. unfold ViperIdent_new. intros H. inv_outcome. congruence. Qed.

Lemma lift_inv {A} (m : outcome Empty_set A) a : lift (E:=E) m = Ok a -> m = Ok a.
Proof. destruct m as [|[]|]; simpl; congruence. Qed.

Lemma mk_function_inv name ret args pres posts expr f :
  lift (E:=E) (mk_function name ret args pres posts None expr) = Ok f ->
  f = {| function_name := name; function_args := args; function_ret := ret; function_pres := pres;
         function_posts := posts; function_decreases := DecNone; function_expr := expr |}.
Proof. intros H%lift_inv. unfold mk_function in H. inv_outcome. by simplify_eq. Qed.

End outcomes.

Ltac inv_built :=
  repeat match goal with
  | H : ViperIdent_new _ = Ok _ |- _ => apply ViperIdent_new_inv in H
  | H : lift (mk_function _ _ _ _ _ None _) = Ok _ |- _ => apply mk_function_inv in H
  end; simplify_eq.

Section adt.
Context {RT : RustcTypes} {DC : Decompose} {HO : Host} {E : Type}.

(** Builders that differ in what was pushed. *)
Definition same_builder (b b' : AdtBuilder) : Prop :=
  adt_builder_name b' = adt_builder_name b /\ adt_self_type b' = adt_self_type b /\ adt_params b' = adt_params b.

(** The name of the [i]-th field's function and the function. *)
Definition field_ref_name (self_name prefix : string) (i : nat) : string :=
  self_name +:+ "_" +:+ prefix +:+ "field_" +:+ pretty i.

Definition field_ref_fn (b : AdtBuilder) (prefix : string) (i : nat) : FunctionGenData :=
  {| function_name := field_ref_name (adt_builder_name b) prefix i;
     function_args := ref_self_decl :: gen_decls (adt_params b); function_ret := TRef;
     function_pres := []; function_posts := [null_iff]; function_decreases := DecNone;
     function_expr := None |}.

Definition field_of (b : AdtBuilder) (prefix : string) (i : nat) (read : AdtDestructorData) : TyPureFieldData :=
  {| field_read_access := read;
     pure_ref_to_field_ref := {| idn_name := field_ref_name (adt_builder_name b) prefix i; idn_result := TRef |} |}.

Lemma field_refs_inv prefix des : forall i b fs b',
  field_refs (E:=E) prefix i des b = Ok (fs, b') ->
  same_builder b b' /\ adt_constructors b' = adt_constructors b /\ adt_discr_fn b' = adt_discr_fn b /\
  fs = imap (fun j => field_of b prefix (i + j)) des /\
  adt_functions b' = adt_functions b ++ (field_ref_fn b prefix <$> seq i (length des)).
Proof.
  induction des as [|read des IH]; intros i b fs b' H; cbn [field_refs] in H.
  - injection H as <- <-. split_and!; [done..|by rewrite app_nil_r].
  - inv_steps. unfold adt_function in *. inv_steps. inv_built.
    match goal with H : field_refs _ _ _ _ = Ok _ |- _ =>
      apply IH in H as ((Hn & Hs & Hp) & Hc & Hd & -> & Hf) end.
    split_and!; [done..| |].
    + cbn [imap]. unfold field_of at 1, field_ref_name. rewrite Nat.add_0_r. f_equal.
      apply imap_ext. intros j read' _. simpl. by rewrite Nat.add_succ_r.
    + rewrite Hf. cbn. by rewrite <- app_assoc.
Qed.

Definition destructor_of (self_ty : TypeKind) (arg : LocalDecl) : AdtDestructorData :=
  {| destr_name := decl_name arg; destr_input := self_ty; destr_ty := decl_ty arg |}.

(** The arguments of a constructor. *)
Definition constructor_args_of (b : AdtBuilder) (prefix : string) (tys : list TypeKind) : list LocalDecl :=
  imap (constructor_arg (adt_builder_name b) prefix) tys.

Definition constructor_of (b : AdtBuilder) (prefix : string) (tys : list TypeKind) : AdtConstructorGenData :=
  {| constructor_name := constructor_name_of (adt_builder_name b) prefix;
     constructor_args := constructor_args_of b prefix tys |}.

Definition constructor_idn (b : AdtBuilder) (prefix : string) : FunctionIdn :=
  {| idn_name := constructor_name_of (adt_builder_name b) prefix; idn_result := adt_self_type b |}.

(** What a constructor makes of the discriminant function. *)
Definition extended (self_ty : TypeKind) (name : string) (discr : option Expr) (df df' : option DiscrFnBuilder) : Prop :=
  match discr with
  | None => df = None /\ df' = None
  | Some d => exists x, extend_discr_fn (E:=E) self_ty name d df = Ok x /\ df' = Some x
  end.

Lemma adt_constructor_inv prefix tys discr b ctor des b' :
  adt_constructor (E:=E) prefix tys discr b = Ok (ctor, des, b') ->
  same_builder b b' /\ ctor = constructor_idn b prefix /\
  des = destructor_of (adt_self_type b) <$> constructor_args_of b prefix tys /\
  adt_constructors b' = adt_constructors b ++ [constructor_of b prefix tys] /\
  adt_functions b' = adt_functions b /\
  extended (adt_self_type b) (constructor_name_of (adt_builder_name b) prefix) discr (adt_discr_fn b) (adt_discr_fn b').
Proof.
  unfold adt_constructor. intros H. inv_steps. inv_built.
  destruct discr as [d|].
  - inv_steps. simpl in *. repeat split; eauto.
  - inv_steps. simpl. repeat split; try done;
    match goal with H : _ || _ = true |- _ => apply orb_true_iff in H as [H|H]; apply bool_decide_eq_true in H end; done.
Qed.

(** The fields of a structure or of a variant. *)
Definition fields_of (b : AdtBuilder) (prefix : string) (tys : list TypeKind) : list TyPureFieldData :=
  imap (field_of b prefix) (destructor_of (adt_self_type b) <$> constructor_args_of b prefix tys).

Lemma struct_variant_inv prefix discr task_key (data : StructData RustTyDatas) b (s : StructData PureTyDatas) b' :
  struct_ty_pure_variant (E:=E) prefix discr task_key data b = Ok (s, b') ->
  exists tys,
    collect (fun f => use_snapshot (E:=E) (field_lazy f) (ty_params_of task_key)) (fields data) = Ok tys /\
    same_builder b b' /\ struct_data s = constructor_idn b prefix /\ fields s = fields_of b prefix tys /\
    length tys = length (fields data) /\
    adt_constructors b' = adt_constructors b ++ [constructor_of b prefix tys] /\
    adt_functions b' = adt_functions b ++ (field_ref_fn b prefix <$> seq 0 (length tys)) /\
    extended (adt_self_type b) (constructor_name_of (adt_builder_name b) prefix) discr (adt_discr_fn b) (adt_discr_fn b').
Proof.
  unfold struct_ty_pure_variant. intros H. inv_steps.
  match goal with H : adt_constructor _ _ _ _ = Ok _ |- _ =>
    apply adt_constructor_inv in H as ((Hn & Hs & Hp) & -> & -> & Hc & Hf & Hd) end.
  match goal with H : field_refs _ _ _ _ = Ok _ |- _ =>
    apply field_refs_inv in H as ((Hn' & Hs' & Hp') & Hc' & Hd' & -> & Hf') end.
  match goal with H : (_ =? _)%nat = true |- _ => apply Nat.eqb_eq in H; rename H into Hl end.
  unfold constructor_args_of in Hl. rewrite length_fmap, length_imap in Hl.
  exists x. simpl. split_and!; try done.
  - unfold same_builder. by rewrite Hn', Hs', Hp'.
  - unfold fields_of. apply imap_ext. intros i d _. unfold field_of. by rewrite Hn.
  - by rewrite Hc'.
  - rewrite Hf', Hf. unfold constructor_args_of. rewrite length_fmap, length_imap. f_equal.
    apply list_fmap_ext. intros ? ? _. unfold field_ref_fn. by rewrite Hn, Hp.
  - by rewrite Hd'.
Qed.

(** ** Enums *)
Definition pure_prefix (v : VariantData RustTyDatas) : string := pretty (vid (variant_data v)) +:+ "_".

(** The data of a variant: its discriminant, its fields and its constructor. *)
Record variant_built (prim : TyPurePrimDataKind) (discr : TyKind) (task_key : RustTy) (b : AdtBuilder)
    (v : VariantData RustTyDatas) (pv : VariantData PureTyDatas) (tys : list TypeKind) : Prop := {
  vb_tys : collect (fun f => use_snapshot (E:=E) (field_lazy f) (ty_params_of task_key)) (fields (inner v)) = Ok tys;
  vb_discr : prim_to_snap prim <$> expr_from_bits (E:=E) prim discr (discr_val (variant_data v)) = Ok (variant_data pv);
  vb_ctor : struct_data (inner pv) = constructor_idn b (pure_prefix v);
  vb_fields : fields (inner pv) = fields_of b (pure_prefix v) tys;
  vb_length : length tys = length (fields (inner v));
}.

(** The discriminant function while it is built. *)
Fixpoint discr_chain (self_ty : TypeKind) (cs : list (string * Expr)) (acc : option Expr) : option Expr :=
  match cs with
  | [] => acc
  | (name, d) :: cs =>
      discr_chain self_ty cs
        (Some match acc with
              | None => d
              | Some acc => mk_ternary_expr (AdtDiscriminator (Local "self" self_ty) name) d acc
              end)
  end.

Definition building (self_ty : TypeKind) (acc : option Expr) : option DiscrFnBuilder :=
  Building {| decl_name := "self"; decl_ty := self_ty |} (Local "self" self_ty) <$> acc.

Lemma enum_variants_inv prim discr task_key vs : forall b pvs b' acc,
  enum_ty_pure_variants (E:=E) prim discr task_key vs b = Ok (pvs, b') ->
  adt_discr_fn b = building (adt_self_type b) acc ->
  same_builder b b' /\
  exists tyss,
    Forall3 (variant_built prim discr task_key b) vs pvs tyss /\
    adt_constructors b' = adt_constructors b ++ zip_with (fun v => constructor_of b (pure_prefix v)) vs tyss /\
    adt_functions b' = adt_functions b ++
      concat (zip_with (fun v tys => field_ref_fn b (pure_prefix v) <$> seq 0 (length tys)) vs tyss) /\
    adt_discr_fn b' = building (adt_self_type b)
      (discr_chain (adt_self_type b)
         (zip_with (fun v (pv : VariantData PureTyDatas) =>
            (constructor_name_of (adt_builder_name b) (pure_prefix v), variant_data pv : Expr)) vs pvs) acc).
Proof.
  induction vs as [|v vs IH]; intros b pvs b' acc H Hacc; cbn [enum_ty_pure_variants] in H.
  - injection H as <- <-. split; [done|]. exists []. split_and!; [constructor|by rewrite app_nil_r..|done].
  - inv_steps.
    match goal with H : expr_from_bits _ _ _ = Ok ?a |- _ => rename a into bits, H into Hbits end.
    match goal with H : struct_ty_pure_variant _ _ _ _ _ = Ok (_, ?a) |- _ => rename a into b1 end.
    match goal with H : struct_ty_pure_variant _ _ _ _ _ = Ok _ |- _ =>
      apply struct_variant_inv in H as (tys & Htys & (Hn & Hs & Hp) & Hctor & Hfields & Hlen & Hc & Hf & y & Hy & Hd) end.
    assert (Hd1 : adt_discr_fn b1 = building (adt_self_type b1)
      (Some match acc with
            | None => prim_to_snap prim bits
            | Some acc => mk_ternary_expr (AdtDiscriminator (Local "self" (adt_self_type b))
                (constructor_name_of (adt_builder_name b) (pure_prefix v))) (prim_to_snap prim bits) acc end)).
    { rewrite Hd, Hs. rewrite Hacc in Hy. destruct acc; simpl in Hy; injection Hy as <-; reflexivity. }
    match goal with H : enum_ty_pure_variants _ _ _ _ _ = Ok _ |- _ =>
      destruct (IH _ _ _ _ H Hd1) as ((Hn' & Hs' & Hp') & tyss & Hvs & Hc' & Hf' & Hd') end.
    split; [unfold same_builder; by rewrite Hn', Hs', Hp'|].
    assert (forall prefix tys, constructor_of b1 prefix tys = constructor_of b prefix tys) as Eq1.
    { intros. unfold constructor_of, constructor_args_of. by rewrite Hn. }
    assert (forall prefix i, field_ref_fn b1 prefix i = field_ref_fn b prefix i) as Eq2.
    { intros. unfold field_ref_fn. by rewrite Hn, Hp. }
    exists (tys :: tyss). split_and!.
    + constructor.
      * split; try done. simpl. by rewrite Hbits.
      * eapply Forall3_impl; [exact Hvs|]. intros v' pv' tys' [? ? Hct Hfd ?]. split; try done.
        -- rewrite Hct. unfold constructor_idn. by rewrite Hn, Hs.
        -- rewrite Hfd. unfold fields_of, constructor_args_of. rewrite Hn, Hs. apply imap_ext.
           intros i d _. unfold field_of. by rewrite Hn.
    + rewrite Hc', Hc, <- app_assoc. simpl. do 2 f_equal. clear -Eq1.
      generalize tyss. induction vs as [|v' vs IH]; intros [|tys' tyss']; simpl; try done. by rewrite Eq1, IH.
    + rewrite Hf', Hf, <- app_assoc. simpl. do 2 f_equal. clear -Eq2.
      generalize tyss. induction vs as [|v' vs IH]; intros [|tys' tyss']; simpl; try done.
      rewrite IH. f_equal. apply list_fmap_ext. intros ? ? _. apply Eq2.
    + rewrite Hd', Hs, Hn. by destruct acc.
Qed.

Lemma build_discr_fn_inv ty b f b' acc :
  build_discr_fn (E:=E) ty b = Ok (f, b') -> adt_discr_fn b = building (adt_self_type b) acc ->
  same_builder b b' /\ adt_functions b' = adt_functions b /\
  f = {| idn_name := adt_builder_name b +:+ "_discr"; idn_result := ty |} /\
  adt_constructors b' = adt_constructors b ++
    match acc with
    | Some _ => []
    | None => [{| constructor_name := adt_builder_name b +:+ "_DummyConstructor"; constructor_args := [] |}]
    end /\
  adt_discr_fn b' = Some (Built
    {| function_name := idn_name f; function_args := [{| decl_name := "self"; decl_ty := adt_self_type b |}];
       function_ret := ty; function_pres := [];
       function_posts := match acc with Some _ => [] | None => [mk_bool false] end;
       function_decreases := DecNone; function_expr := acc |}).
Proof.
  unfold build_discr_fn. intros H Hacc. rewrite Hacc in H.
  destruct acc as [acc|]; cbn [building fmap option_fmap option_map mbind outcome_bind] in *;
    inv_steps; inv_built; simpl; by rewrite ?app_nil_r.
Qed.
End adt.

(** ** Whole types *)
Section types.
Context {RT : RustcTypes} {DC : Decompose} {HO : Host} {E : Type}.

Definition snap_name (ty : RustTy) : string := "s_" +:+ rust_ty_name ty.

(** The builder of an algebraic data type before anything is pushed. *)
Definition adt_init (ty : RustTy) (g : GenericParams) : AdtBuilder :=
  {| adt_builder_name := snap_name ty; adt_self_type := TDomain (snap_name ty) []; adt_params := g;
     adt_constructors := []; adt_discr_fn := None; adt_functions := [] |}.

Definition unreachable_idn (ty : RustTy) (self : TypeKind) : FunctionIdn :=
  {| idn_name := snap_name ty +:+ "_unreachable"; idn_result := self |}.

Lemma self_type_total ty (self : TypeKind) : self_type (E:=E) ty = Ok self ->
  match ty_specifics ty with
  | Ty.StructLike _ | Ty.EnumLike _ => self = TDomain (snap_name ty) []
  | _ => True
  end.
Proof.
  unfold self_type. intros H. inv_steps. inv_built. by destruct (ty_specifics ty); simplify_eq.
Qed.

Lemma TyPureBuilder_new_inv ty b : TyPureBuilder_new (E:=E) ty = Ok b ->
  exists self g, self_type (E:=E) ty = Ok self /\ GenericParamsEnc (E:=E) (ty_params_of ty) = Ok g /\
    b = {| pure_name := snap_name ty; pure_self_type := self; unreachable_to_snap_fn := unreachable_idn ty self;
           pure_params := g; pure_data := DataNone |}.
Proof.
  unfold TyPureBuilder_new. intros H. inv_steps. inv_built. eauto.
Qed.

Lemma pure_build_adt_inv b d l : pure_data b = DataAdt d -> pure_build (E:=E) b = Ok l ->
  local_functions l = adt_functions d /\
  local_unreachable l =
    {| function_name := idn_name (unreachable_to_snap_fn b); function_args := gen_decls (pure_params b);
       function_ret := idn_result (unreachable_to_snap_fn b); function_pres := [];
       function_posts := [mk_bool false]; function_decreases := DecNone; function_expr := None |} /\
  exists df, local_kind l = LocalAdt (mk_adt (pure_name b) [] (adt_constructors d)) df /\
    adt_discr_fn d = Built <$> df.
Proof.
  unfold pure_build, build_kind. intros Hd H. rewrite Hd in H. inv_steps. inv_built. simpl.
  split_and!; [done..|]. destruct (adt_discr_fn d) as [[]|]; simplify_eq; eauto.
Qed.

Lemma TyPureEnc_struct ty s po (pure : TyPure) :
  ty_specifics ty = Ty.StructLike s -> TyPureEnc (E:=E) ty = Ok (po, pure) ->
  exists g tys,
    GenericParamsEnc (E:=E) (ty_params_of ty) = Ok g /\
    collect (fun f => use_snapshot (E:=E) (field_lazy f) (ty_params_of ty)) (fields s) = Ok tys /\
    length tys = length (fields s) /\
    ty_data pure = {| pure_snapshot := TDomain (snap_name ty) [];
                      pure_unreachable := unreachable_idn ty (TDomain (snap_name ty) []) |} /\
    ty_specifics pure = Ty.StructLike
      {| struct_data := constructor_idn (adt_init ty g) EmptyString : StructD PureTyDatas;
         fields := fields_of (adt_init ty g) EmptyString tys : list (FieldD PureTyDatas) |} /\
    local_kind po = LocalAdt (mk_adt (snap_name ty) [] [constructor_of (adt_init ty g) EmptyString tys]) None /\
    local_functions po = field_ref_fn (adt_init ty g) EmptyString <$> seq 0 (length tys).
Proof.
  intros Hs H. unfold TyPureEnc in H. rewrite Hs in H. inv_steps.
  match goal with H : TyPureBuilder_new _ = Ok _ |- _ =>
    apply TyPureBuilder_new_inv in H as (self & g & Hself & Hg & ->) end.
  apply self_type_total in Hself. rewrite Hs in Hself. subst self.
  cbn [set_adt_builder pure_data] in *. inv_steps. unfold struct_ty_pure in *.
  match goal with H : struct_ty_pure_variant _ _ _ _ _ = Ok (?s, _) |- _ =>
    destruct s as [sd fs]; apply struct_variant_inv in H
      as (tys & Htys & (Hn & Hst & Hp) & Hctor & Hfields & Hlen & Hc & Hf & Hd & Hd') end.
  match goal with H : pure_build _ = Ok _ |- _ =>
    eapply pure_build_adt_inv in H as (Hfn & _ & df & Hk & Hdf); [|done] end.
  exists g, tys. simpl in Hctor, Hfields. subst. split_and!; try done.
  - rewrite Hk, Hc. rewrite Hd' in Hdf. destruct df; [done|]. done.
  - by rewrite Hfn, Hf.
Qed.

Lemma TyPureEnc_enum ty e po (pure : TyPure) :
  ty_specifics ty = Ty.EnumLike e -> TyPureEnc (E:=E) ty = Ok (po, pure) ->
  exists g lp snapshot prim pvs tyss discr_fn,
    GenericParamsEnc (E:=E) (ty_params_of ty) = Ok g /\
    encode_prim (E:=E) (discr (enum_data e)) = Ok (lp, snapshot, prim) /\
    Forall3 (variant_built (E:=E) prim (discr (enum_data e)) ty (adt_init ty g)) (variants e) pvs tyss /\
    ty_data pure = {| pure_snapshot := TDomain (snap_name ty) [];
                      pure_unreachable := unreachable_idn ty (TDomain (snap_name ty) []) |} /\
    ty_specifics pure = Ty.EnumLike
      {| enum_data := {| discr_ty := snapshot; discr_prim := prim;
                         enum_discr_fn := {| idn_name := snap_name ty +:+ "_discr"; idn_result := snapshot |} |}
                      : EnumD PureTyDatas;
         variants := pvs |} /\
    (let acc := discr_chain (TDomain (snap_name ty) [])
         (zip_with (fun v (pv : VariantData PureTyDatas) =>
            (constructor_name_of (snap_name ty) (pure_prefix v), variant_data pv : Expr)) (variants e) pvs) None in
     local_kind po = LocalAdt (mk_adt (snap_name ty) []
         (zip_with (fun v => constructor_of (adt_init ty g) (pure_prefix v)) (variants e) tyss ++
          match acc with
          | Some _ => []
          | None => [{| constructor_name := snap_name ty +:+ "_DummyConstructor"; constructor_args := [] |}]
          end)) (Some discr_fn) /\
     discr_fn = {| function_name := snap_name ty +:+ "_discr";
                   function_args := [{| decl_name := "self"; decl_ty := TDomain (snap_name ty) [] |}];
                   function_ret := snapshot; function_pres := [];
                   function_posts := match acc with Some _ => [] | None => [mk_bool false] end;
                   function_decreases := DecNone; function_expr := acc |}) /\
    local_functions po =
      concat (zip_with (fun v tys => field_ref_fn (adt_init ty g) (pure_prefix v) <$> seq 0 (length tys))
        (variants e) tyss).
Proof.
  intros Hs H. unfold TyPureEnc in H. rewrite Hs in H. inv_steps.
  match goal with H : TyPureBuilder_new _ = Ok _ |- _ =>
    apply TyPureBuilder_new_inv in H as (self & g & Hself & Hg & ->) end.
  apply self_type_total in Hself. rewrite Hs in Hself. subst self.
  cbn [set_adt_builder pure_data] in *. inv_steps. unfold enum_ty_pure in *. inv_steps.
  match goal with H : enum_ty_pure_variants _ _ _ _ _ = Ok _ |- _ =>
    eapply (enum_variants_inv _ _ _ _ _ _ _ None) in H as ((Hn & Hst & Hp) & tyss & Hvs & Hc & Hf & Hd); [|done] end.
  rewrite <- Hst in Hd.
  match goal with H : build_discr_fn _ _ = Ok _ |- _ =>
    eapply build_discr_fn_inv in H as ((Hn' & Hst' & Hp') & Hf' & -> & Hc' & Hd'); [|exact Hd] end.
  match goal with H : pure_build _ = Ok _ |- _ =>
    eapply pure_build_adt_inv in H as (Hfn & _ & df & Hk & Hdf); [|done] end.
  simpl in *. rewrite Hn, ?Hst in *.
  destruct df as [df|]; [|by rewrite Hd' in Hdf]. rewrite Hd' in Hdf. injection Hdf as <-.
  do 7 eexists. split_and!; try done; try exact Hvs.
  - rewrite Hk, Hc', Hc. done.
  - by rewrite Hfn, Hf', Hf.
Qed.

Lemma length_fields_of (b : AdtBuilder) prefix tys : length (fields_of b prefix tys) = length tys.
Proof. unfold fields_of, constructor_args_of. by rewrite length_imap, length_fmap, length_imap. Qed.

(** The encoding has the shape of the type. *)
Lemma TyPureEnc_shape ty po (pure : TyPure) :
  TyPureEnc (E:=E) ty = Ok (po, pure) -> same_shape (ty_specifics ty) (ty_specifics pure).
Proof.
  intros H. destruct (ty_specifics ty) as [a| | | | | | |s|e|] eqn:Hs;
    try (unfold TyPureEnc in H; rewrite Hs in H; inv_steps; done).
  - unfold TyPureEnc in H. rewrite Hs in H. inv_steps. cbn in *. by simplify_eq.
  - destruct (TyPureEnc_struct _ _ _ _ Hs H) as (g & tys & _ & _ & Hl & _ & -> & _). simpl.
    unfold struct_like. simpl. by rewrite length_fields_of.
  - destruct (TyPureEnc_enum _ _ _ _ Hs H) as (g & lp & sn & prim & pvs & tyss & df & _ & _ & Hvs & _ & -> & _).
    simpl. clear -Hvs. induction Hvs as [|v pv tys vs pvs tyss Hv _ IH]; constructor; [|done].
    unfold struct_like. rewrite (vb_fields _ _ _ _ _ _ _ Hv), length_fields_of. symmetry. apply Hv.
Qed.
End types.

(** ** Predicates, functions and methods *)
Section members.
Context {RT : RustcTypes} {DC : Decompose} {EA : EncodeArgs} {HO : Host} {E : Type}.

Definition pred_name (ty : RustTy) : string := "p_" +:+ rust_ty_name ty.

(** The builder before anything is pushed. *)
Definition im_init (ty : RustTy) (g : GenericParams) (snapshot : TypeKind) : PredicateBuilder :=
  {| im_params := g; im_snapshot := snapshot; im_ref_to_pred := pred_name ty;
     im_ref_to_snap := {| idn_name := pred_name ty +:+ "_snap"; idn_result := snapshot |};
     im_name := pred_name ty; im_fields := []; im_predicates := []; im_functions := [];
     im_methods := []; im_function_snap := None |}.

Lemma PredicateBuilder_new_inv ty snapshot b : PredicateBuilder_new (E:=E) ty snapshot = Ok b ->
  exists g, GenericParamsEnc (E:=E) (ty_params_of ty) = Ok g /\ b = im_init ty g snapshot.
Proof.
  unfold PredicateBuilder_new. intros H. inv_steps. inv_built. eauto.
Qed.

(** Steps keep the parameters and the names of the builder. *)
Definition same_im (b b' : PredicateBuilder) : Prop :=
  im_params b' = im_params b /\ im_snapshot b' = im_snapshot b /\ im_ref_to_pred b' = im_ref_to_pred b /\
  im_ref_to_snap b' = im_ref_to_snap b /\ im_name b' = im_name b.

Lemma im_method_inv name ps rets pres posts b m b' :
  im_method (E:=E) name ps rets pres posts b = Ok (m, b') ->
  m = ident_str (im_name b) name /\
  b' = push_members [] [] [] [{| method_name := m; method_args := ps; method_rets := rets; method_pres := pres;
                                 method_posts := posts; method_body := None |}] b.
Proof.
  unfold im_method, im_ident. intros H. inv_steps. inv_built.
  match goal with H : lift _ = Ok _ |- _ => apply lift_inv in H; unfold mk_method_unchecked in H end.
  inv_steps. done.
Qed.

Lemma mk_self_predicate_inv name e b p b' : mk_self_predicate (E:=E) name e b = Ok (p, b') ->
  p = ident_str (im_name b) name /\ b' = push_members [] [mk_predicate p (self_decls b) e] [] [] b.
Proof.
  unfold mk_self_predicate, im_predicate, im_ident. intros H. inv_steps. inv_built. done.
Qed.

Definition snap_function (b : PredicateBuilder) (inner : option Expr) : FunctionGenData :=
  {| function_name := idn_name (im_ref_to_snap b); function_args := self_decls b;
     function_ret := idn_result (im_ref_to_snap b); function_pres := [self_pred (im_ref_to_pred b) b];
     function_posts := []; function_decreases := DecNone;
     function_expr := unfolding_self (im_ref_to_pred b) b <$> inner |}.

Lemma mk_snap_function_inv inner b b' : mk_snap_function (E:=E) inner b = Ok b' ->
  b' = set_function_snap (snap_function b inner) b.
Proof. unfold mk_snap_function. intros H. inv_steps. inv_built. done. Qed.

Lemma im_function_inv name ret ps pres posts expr b f b' :
  im_function (E:=E) name ret ps pres posts expr b = Ok (f, b') ->
  f = {| idn_name := ident_str (im_name b) name; idn_result := ret |} /\
  b' = push_members [] []
         [{| function_name := idn_name f; function_args := ps; function_ret := ret; function_pres := pres;
             function_posts := posts; function_decreases := DecNone; function_expr := expr |}] [] b.
Proof. unfold im_function, im_ident. intros H. inv_steps. inv_built. done. Qed.

Lemma im_build_inv b o : im_build (E:=E) b = Ok o ->
  impure_predicates o = im_predicates b /\ impure_functions o = im_functions b /\
  im_function_snap b = Some (impure_function_snap o) /\ impure_fields o = im_fields b.
Proof. unfold im_build. intros H. inv_steps. done. Qed.

(** ** Structures and variants *)
Definition owned_name (prefix : string) : string :=
  if bool_decide (prefix = EmptyString) then EmptyString else prefix +:+ "owned".

Lemma struct_impure_inv prefix (task : TyData RustPure) (data : StructData RustPure) b sd p se b' :
  struct_ty_impure_variant (E:=E) prefix task data b = Ok (sd, p, se, b') ->
  exists us pe,
    let fs := (fields data : list (RustFieldData * TyPureFieldData)).*2 in
    field_uses (E:=E) (rp_rust_params task) ((fields data : list (RustFieldData * TyPureFieldData)).*1) = Ok us /\
    struct_pred_expr (E:=E) (im_params b) us fs = Ok pe /\
    p = ident_str (im_name b) (owned_name prefix) /\
    b' = push_members [] [mk_predicate p (self_decls b) (Some pe)] [] [] b /\
    se = struct_snap_expr (im_params b) (snd (struct_data data)) us fs /\
    sd = {| struct_data := tt : StructD ImpureTyDatas;
            fields := pure_ref_to_field_ref <$> fs : list (FieldD ImpureTyDatas) |}.
Proof.
  unfold struct_ty_impure_variant. intros H. inv_steps.
  match goal with H : mk_self_predicate _ _ _ = Ok _ |- _ => apply mk_self_predicate_inv in H as [-> ->] end.
  do 2 eexists. split_and!; eauto.
Qed.

(** The task: the type zipped with its snapshot, and the members pushed by the kind. *)
Lemma TyImpureEnc_inv ty o (imp : TyImpure) :
  TyImpureEnc (E:=E) ty = Ok (o, imp) ->
  exists po (pure : TyPure) g z b spec b',
    TyPureEnc (E:=E) ty = Ok (po, pure) /\
    specifics_zip (E:=E) (ty_specifics ty) (ty_specifics pure) = Ok z /\
    GenericParamsEnc (E:=E) (ty_params_of ty) = Ok g /\
    same_im (im_init ty g (pure_snapshot (ty_data (D:=PureTyDatas) pure))) b /\
    im_predicates b = [] /\ im_functions b = [] /\ im_function_snap b = None /\
    specifics_ty_impure (E:=E) {| ty_data := (ty_data ty, ty_data pure) : TyD RustPure; ty_specifics := z |} b
      = Ok (spec, b') /\
    im_build (E:=E) b' = Ok o /\
    ref_to_pred (ty_data (D:=ImpureTyDatas) imp) = pred_name ty /\
    idn_name (ref_to_snap (ty_data (D:=ImpureTyDatas) imp)) = pred_name ty +:+ "_snap" /\
    ty_specifics imp = spec.
Proof.
  unfold TyImpureEnc, ty_zip. intros H. inv_steps.
  match goal with H : PredicateBuilder_new _ _ = Ok _ |- _ => apply PredicateBuilder_new_inv in H as (g & Hg & ->) end.
  match goal with H : assign_method _ _ = Ok _ |- _ => apply im_method_inv in H as [-> ->] end.
  do 7 eexists. split_and!; eauto; done.
Qed.

(** The names of the members of a type. *)
Definition names_of (ty : RustTy) (imp : TyImpure) : Prop :=
  ref_to_pred (ty_data (D:=ImpureTyDatas) imp) = pred_name ty /\
  idn_name (ref_to_snap (ty_data (D:=ImpureTyDatas) imp)) = pred_name ty +:+ "_snap".

Definition builds_for (ty : RustTy) (g : GenericParams) (b : PredicateBuilder) : Prop :=
  im_params b = g /\ im_ref_to_pred b = pred_name ty /\
  idn_name (im_ref_to_snap b) = pred_name ty +:+ "_snap" /\ im_name b = pred_name ty.

Lemma TyImpureEnc_struct ty s po (pure : TyPure) o (imp : TyImpure) :
  ty_specifics ty = Ty.StructLike s ->
  TyPureEnc (E:=E) ty = Ok (po, pure) -> TyImpureEnc (E:=E) ty = Ok (o, imp) ->
  exists g us sd pe b,
    GenericParamsEnc (E:=E) (ty_params_of ty) = Ok g /\ builds_for ty g b /\ names_of ty imp /\
    ty_specifics pure = Ty.StructLike sd /\ length (fields sd) = length (fields s) /\
    field_uses (E:=E) (ty_params_of ty) (fields s) = Ok us /\
    struct_pred_expr (E:=E) g us (fields sd) = Ok pe /\
    mk_predicate (pred_name ty) (ref_self_decl :: gen_decls g) (Some pe) ∈ impure_predicates o /\
    impure_function_snap o = snap_function b (Some (struct_snap_expr g (struct_data sd) us (fields sd))).
Proof.
  intros Hs Hpure Himp.
  assert (exists sd, ty_specifics pure = Ty.StructLike sd /\ length (fields sd) = length (fields s))
    as (sd & Hsd & Hlen).
  { destruct (TyPureEnc_struct _ _ _ _ Hs Hpure) as (g & tys & _ & _ & Hl & _ & Hsd & _).
    eexists. split; [exact Hsd|]. simpl. by rewrite length_fields_of. }
  destruct (TyImpureEnc_inv _ _ _ Himp)
    as (po' & pure' & g & z & b & spec & b' & Hpure' & Hz & Hg & Hb & Hbp & _ & _ & Hspec & Hbuild & Hn1 & Hn2 & _).
  assert (po' = po /\ pure' = pure) as [-> ->] by (split; congruence).
  destruct Hb as (Hbg & _ & Hbr & Hbs & Hbn). cbn [im_params im_init im_ref_to_pred im_ref_to_snap im_name] in *.
  rewrite Hs, Hsd in Hz. cbn [specifics_zip] in Hz.
  rewrite struct_zip_Ok in Hz by (unfold struct_like; by rewrite Hlen).
  injection Hz as <-. unfold specifics_ty_impure, struct_ty_impure in Hspec. cbn [ty_specifics] in Hspec. inv_steps.
  match goal with H : struct_ty_impure_variant _ _ _ _ = Ok _ |- _ =>
    apply struct_impure_inv in H as (us & pe & Hus & Hpe & -> & -> & -> & _) end.
  match goal with H : mk_snap_function _ _ = Ok _ |- _ => apply mk_snap_function_inv in H as -> end.
  apply im_build_inv in Hbuild as (Hpreds & _ & Hsnap & _).
  cbn [fields struct_data snd] in *. rewrite fst_zip in Hus by (apply Nat.eq_le_incl; symmetry; exact Hlen).
  rewrite snd_zip in Hpe, Hsnap by (apply Nat.eq_le_incl; exact Hlen).
  exists (im_params b), us, sd, pe, b. split_and!; try done.
  - unfold builds_for. rewrite Hbs. done.
  - rewrite Hpreds. cbn [set_function_snap push_members im_predicates]. apply elem_of_app. right.
    apply list_elem_of_singleton. unfold self_decls. by rewrite Hbn.
  - cbn in Hsnap. by injection Hsnap as <-.
Qed.

(** ** Enums *)
Record variant_impure (ps : GParams) (b b' : PredicateBuilder) (snap_disc : Expr) (v : VariantData RustTyDatas)
    (pv : VariantData PureTyDatas) (vi : VariantImpure) (us : list TyUseImpureData) (pe : Expr) : Prop := {
  vm_uses : field_uses (E:=E) ps (fields (inner v)) = Ok us;
  vm_pred : struct_pred_expr (E:=E) (im_params b) us (fields (inner pv)) = Ok pe;
  vm_in : mk_predicate (variant_data (vi_data vi)) (self_decls b) (Some pe) ∈ im_predicates b';
  vm_discr : vi_discr vi = variant_data pv;
  vm_implies : vi_pred_expr vi
    = BinOp Implies (mk_eq_expr snap_disc (variant_data pv)) (self_pred (variant_data (vi_data vi)) b);
  vm_snap : vi_snap_expr vi = unfolding_self (variant_data (vi_data vi)) b
    (struct_snap_expr (im_params b) (struct_data (inner pv)) us (fields (inner pv)));
}.

(** A step that pushes only predicates. *)
Definition pushes_predicates (b b' : PredicateBuilder) : Prop :=
  same_im b b' /\ im_functions b' = im_functions b /\ im_function_snap b' = im_function_snap b /\
  (forall d, d ∈ im_predicates b -> d ∈ im_predicates b').

Lemma variant_impure_later ps b b1 b2 b' snap_disc v pv vi us pe :
  same_im b b1 -> (forall d, d ∈ im_predicates b2 -> d ∈ im_predicates b') ->
  variant_impure ps b1 b2 snap_disc v pv vi us pe -> variant_impure ps b b' snap_disc v pv vi us pe.
Proof.
  intros (Hp & _) Hin [H1 H2 H3 H4 H5 H6]. unfold self_decls, self_pred, unfolding_self in *.
  rewrite Hp in *. split; auto.
Qed.

Lemma enum_impure_variants_inv (task : TyData RustPure) snap_disc vs pvs :
  Forall2 (fun v pv => struct_like (inner v) (inner pv)) vs pvs -> forall b vis b',
  enum_ty_impure_variants (E:=E) task snap_disc (zip_with zipped_variant vs pvs) b = Ok (vis, b') ->
  pushes_predicates b b' /\
  exists uss, Forall3 (fun vpv vi upe => variant_impure (rp_rust_params task) b b' snap_disc vpv.1 vpv.2 vi upe.1 upe.2)
    (zip vs pvs) vis uss.
Proof.
  induction 1 as [|v pv vs pvs Hv _ IH]; intros b vis b' H; cbn [zip_with enum_ty_impure_variants] in H.
  - injection H as <- <-. split; [by split_and!|]. exists []. constructor.
  - inv_steps.
    match goal with H : mk_bin_op_expr _ _ _ = Ok _ |- _ => unfold mk_bin_op_expr in H end. inv_steps.
    match goal with H : struct_ty_impure_variant _ _ _ _ = Ok _ |- _ =>
      apply struct_impure_inv in H as (us & pe & Hus & Hpe & -> & -> & -> & ->) end.
    match goal with H : enum_ty_impure_variants _ _ _ _ = Ok _ |- _ =>
      apply IH in H as ((Hsame & Hf & Hs & Hin) & uss & Hvs) end.
    cbn [zipped_variant inner fields struct_data variant_data fst snd] in *.
    rewrite fst_zip in Hus by (apply Nat.eq_le_incl; exact Hv).
    rewrite snd_zip in Hpe by (apply Nat.eq_le_incl; symmetry; exact Hv).
    rewrite snd_zip by (apply Nat.eq_le_incl; symmetry; exact Hv).
    split.
    + split_and!; [done|rewrite Hf; apply app_nil_r|done|]. intros d Hd. apply Hin. cbn. set_solver.
    + exists ((us, pe) :: uss). cbn [zip zip_with]. constructor.
      * split; try done. cbn. apply Hin. cbn. set_solver.
      * eapply Forall3_impl; [exact Hvs|]. intros vpv vi upe Hvi.
        eapply variant_impure_later; [|by intros ?|exact Hvi]. done.
Qed.

Definition discr_ref (ty : RustTy) : FunctionIdn := {| idn_name := pred_name ty +:+ "_field_discr"; idn_result := TRef |}.

Lemma TyImpureEnc_enum ty e po (pure : TyPure) o (imp : TyImpure) :
  ty_specifics ty = Ty.EnumLike e ->
  TyPureEnc (E:=E) ty = Ok (po, pure) -> TyImpureEnc (E:=E) ty = Ok (o, imp) ->
  exists g ed ei t du b b' vis uss pe,
    let ref_disc := call (discr_ref ty) [ref_self] in
    let snap_disc := use_ref_to_snap du ref_disc in
    GenericParamsEnc (E:=E) (ty_params_of ty) = Ok g /\ builds_for ty g b /\ names_of ty imp /\
    ty_specifics pure = Ty.EnumLike ed /\ ty_specifics imp = Ty.EnumLike ei /\
    enum_data ei = {| enum_discr_ref := discr_ref ty; enum_discr_ty := du |} /\
    Forall2 (fun v pv => struct_like (inner v) (inner pv)) (variants e) (variants ed) /\
    from_prim_ty (E:=E) (discr (enum_data e)) = Ok t /\ TyUseImpureEnc (E:=E) t = Ok du /\
    {| function_name := idn_name (discr_ref ty); function_args := [ref_self_decl]; function_ret := TRef;
       function_pres := []; function_posts := [null_iff]; function_decreases := DecNone;
       function_expr := None |} ∈ impure_functions o /\
    Forall3 (fun vpv vi upe => variant_impure (ty_params_of ty) b b' snap_disc vpv.1 vpv.2 vi upe.1 upe.2)
      (zip (variants e) (variants ed)) vis uss /\
    (forall d, d ∈ im_predicates b' -> d ∈ impure_predicates o) /\
    enum_pred_expr (E:=E) du ref_disc snap_disc vis = Ok pe /\
    mk_predicate (pred_name ty) (ref_self_decl :: gen_decls g) (Some pe) ∈ impure_predicates o /\
    impure_function_snap o = snap_function b (Some (enum_snap_expr
      (call (unreachable_idn ty (TDomain (snap_name ty) [])) (gen_exprs g)) snap_disc vis)).
Proof.
  intros Hs Hpure Himp.
  assert (exists ed, ty_specifics pure = Ty.EnumLike ed /\
    Forall2 (fun v pv => struct_like (inner v) (inner pv)) (variants e) (variants ed)) as (ed & Hed & Hlen).
  { pose proof (TyPureEnc_shape _ _ _ Hpure) as Hsh. rewrite Hs in Hsh.
    destruct (ty_specifics pure); try done. eauto. }
  destruct (TyPureEnc_enum _ _ _ _ Hs Hpure) as (_ & _ & _ & _ & _ & _ & _ & _ & _ & _ & Hdata & _).
  destruct (TyImpureEnc_inv _ _ _ Himp)
    as (po' & pure' & g & z & b & spec & b' & Hpure' & Hz & Hg & Hb & Hbp & _ & _ & Hspec & Hbuild & Hn1 & Hn2 & Himp').
  assert (po' = po /\ pure' = pure) as [-> ->] by (split; congruence).
  destruct Hb as (Hbg & _ & Hbr & Hbs & Hbn). cbn [im_params im_init im_ref_to_pred im_ref_to_snap im_name] in *.
  rewrite Hs, Hed in Hz. cbn [specifics_zip] in Hz. rewrite enum_zip_Ok in Hz by done.
  injection Hz as <-. unfold specifics_ty_impure, enum_ty_impure in Hspec.
  cbn [ty_specifics enum_data variants fst snd ty_data] in Hspec. rewrite Hdata in Hspec.
  cbn [pure_unreachable] in Hspec. inv_steps.
  match goal with H : im_function _ _ _ _ _ _ _ = Ok _ |- _ => apply im_function_inv in H as [-> ->] end.
  match goal with H : enum_ty_impure_variants _ _ _ _ = Ok _ |- _ =>
    apply enum_impure_variants_inv in H as (((Hg' & Hsn & Hr & Hrs & Hn) & Hf & _ & Hin) & uss & Hvs); [|done] end.
  match goal with H : mk_self_predicate _ _ _ = Ok _ |- _ => apply mk_self_predicate_inv in H as [-> ->] end.
  match goal with H : mk_snap_function _ _ = Ok _ |- _ => apply mk_snap_function_inv in H as -> end.
  apply im_build_inv in Hbuild as (Hpreds & Hfns & Hsnap & _).
  cbn in *. rewrite ?Hn, ?Hbn, ?Hr, ?Hbr, ?Hrs, ?Hbs, ?Hg' in *.
  match goal with H : _ = ty_specifics imp |- _ => symmetry in H; rename H into Himp' end.
  do 10 eexists. split_and!; [exact Hg| | | |exact Himp'|..|exact Hvs| | | |]; try done.
  - unfold builds_for. cbn. by rewrite Hbs.
  - rewrite Hfns, Hf, app_nil_r. set_solver.
  - intros d Hd. rewrite Hpreds. set_solver.
  - rewrite Hpreds. unfold self_decls. rewrite Hg'. set_solver.
  - injection Hsnap as <-. unfold snap_function, self_decls, self_pred, unfolding_self. cbn.
    by rewrite ?Hg', ?Hrs, ?Hr, ?Hbr, ?Hbs.
Qed.
End members.
