(* ===== verification/TyMemory.v ===== *)
(** * The memory of structures and enums

    What the predicates and snapshot functions of [TyImpure] mean in a program that
    declares them: the memory of a structure is the separate memory of its fields, the
    memory of an enum that of its discriminant and of the variant the discriminant
    selects; the snapshot is put together by the constructor. *)
From S2P Require Import Prelude Names Vir VirMake VirProgram VirSem VirInt TyDomain TyData Primitive TyRust TyUse TyPure TyImpure TyHeap TySpec.

(** ** Programs that declare what was encoded *)
Definition constructor_names (P : ProgramGenData) : list string :=
  mjoin ((fun a => constructor_name <$> adt_constructors_of a) <$> program_adts P).
Definition domain_function_names (P : ProgramGenData) : list string :=
  mjoin ((fun d => dfun_name <$> domain_functions d) <$> program_domains P).

(** Viper rejects programs in which two members have the same name. *)
Definition names_distinct (P : ProgramGenData) : Prop :=
  NoDup (predicate_name <$> program_predicates P) /\
  NoDup ((function_name <$> program_functions P) ++ constructor_names P ++ domain_function_names P).

Definition declares_impure (o : TyImpureEncLocal) (P : ProgramGenData) : Prop :=
  (forall d, d ∈ impure_predicates o -> d ∈ program_predicates P) /\
  (forall f, f ∈ impure_function_snap o :: impure_functions o -> f ∈ program_functions P).

Definition declares_pure (o : TyPureEncLocal) (P : ProgramGenData) : Prop :=
  (forall f, f ∈ local_functions o -> f ∈ program_functions P) /\
  match local_kind o with
  | LocalAdt adt df => adt ∈ program_adts P /\ (forall f, df = Some f -> f ∈ program_functions P)
  | LocalDomain d => d ∈ program_domains P
  | LocalNone => True
  end.

Section programs.
Variable P : ProgramGenData.
Hypothesis distinct : names_distinct P.

Lemma list_find_named {A} (name : A -> string) (l : list A) x :
  NoDup (name <$> l) -> x ∈ l -> list_find (fun y => name y = name x) l ≫= (fun r => Some r.2) = Some x.
Proof.
  induction l as [|y l IH]; [by intros _ ?%elem_of_nil|]. rewrite fmap_cons, NoDup_cons.
  intros [Hy Hl] Hx. cbn [list_find]. case_decide as Heq.
  - apply elem_of_cons in Hx as [->|Hx]; [done|]. exfalso. apply Hy. rewrite Heq.
    by apply (list_elem_of_fmap_2 name).
  - apply elem_of_cons in Hx as [->|Hx]; [done|]. specialize (IH Hl Hx).
    by destruct (list_find _ l) as [[]|].
Qed.

Lemma prog_pred_in d : d ∈ program_predicates P -> prog_pred P (predicate_name d) = Some d.
Proof. apply list_find_named, distinct. Qed.

Lemma prog_fun_in f : f ∈ program_functions P -> prog_fun P (function_name f) = Some f.
Proof.
  apply list_find_named. destruct distinct as [_ Hf]. by apply NoDup_app in Hf as [? _].
Qed.

Lemma prog_fun_other name : name ∈ constructor_names P ++ domain_function_names P -> prog_fun P name = None.
Proof.
  intros Hn. unfold prog_fun. destruct (list_find _ _) as [[i f]|] eqn:Hf; [|done]. exfalso.
  apply list_find_Some in Hf as (Hf & Heq & _). apply list_elem_of_lookup_2 in Hf.
  destruct distinct as [_ (_ & Hd & _)%NoDup_app]. apply (Hd name); [|done].
  rewrite <- Heq. by apply (list_elem_of_fmap_2 function_name).
Qed.

Lemma constructor_undefined adt c : adt ∈ program_adts P -> c ∈ adt_constructors_of adt ->
  prog_fun P (constructor_name c) = None.
Proof.
  intros Ha Hc. apply prog_fun_other, elem_of_app. left. apply list_elem_of_join.
  eexists. split; [|by apply (list_elem_of_fmap_2 (fun a => constructor_name <$> adt_constructors_of a))].
  by apply (list_elem_of_fmap_2 constructor_name).
Qed.

Lemma domain_function_undefined d f : d ∈ program_domains P -> f ∈ domain_functions d ->
  prog_fun P (dfun_name f) = None.
Proof.
  intros Hd Hf. apply prog_fun_other, elem_of_app. right. apply list_elem_of_join.
  eexists. split; [|by apply (list_elem_of_fmap_2 (fun d => dfun_name <$> domain_functions d))].
  by apply (list_elem_of_fmap_2 dfun_name).
Qed.
End programs.

(** ** Parameters *)
Definition params_ok (g : GenericParams) : Prop := NoDup ("self"%string :: (decl_name <$> gen_decls g)).

Section memory.
Context {VM : ViperModel} {HM : HeapModel} (P : ProgramGenData).
Abbreviation val := (value domain_value).
Abbreviation env := (gmap string val).
Abbreviation footprint := (list (val * string)).
Variable h : val -> string -> option val.
Hypothesis distinct : names_distinct P.

(** The environment of the members of a type: the reference and the parameters. *)
Definition self_env (g : GenericParams) (r : val) (gs : list val) : env :=
  bind_args (ref_self_decl :: gen_decls g) (r :: gs).

Lemma bind_args_lookup ds : forall vs i d v,
  NoDup (decl_name <$> ds) -> ds !! i = Some d -> vs !! i = Some v ->
  bind_args ds vs !! decl_name d = Some v.
Proof.
  unfold bind_args. induction ds as [|d0 ds IH]; intros [|w vs] i d v; try done.
  rewrite fmap_cons, NoDup_cons. intros [Hd0 Hnd]. cbn [zip zip_with list_to_map].
  destruct i as [|i]; simpl.
  - intros [= ->] [= ->]. apply lookup_insert_eq.
  - intros Hd Hv. rewrite lookup_insert_ne; [by eapply IH|]. intros Heq. apply Hd0. rewrite Heq.
    apply (list_elem_of_fmap_2 decl_name). by eapply list_elem_of_lookup_2.
Qed.

Lemma Evals_decls ds vs : NoDup (decl_name <$> ds) -> length vs = length ds ->
  Forall2 (Evals P h (bind_args ds vs)) (mk_local_ex <$> ds) vs.
Proof.
  intros Hnd Hl. apply Forall2_same_length_lookup. rewrite length_fmap. split; [done|].
  intros i e v He Hv. apply list_lookup_fmap_Some in He as (d & -> & Hd).
  apply Evals_Local. by eapply bind_args_lookup.
Qed.

Section self.
Context (g : GenericParams) (r : val) (gs : list val).
Hypothesis g_ok : params_ok g.
Hypothesis gs_length : length gs = length (gen_decls g).

Lemma Evals_self_exprs vs :
  Forall2 (Evals P h (self_env g r gs)) (self_exprs g ref_self) vs <-> vs = r :: gs.
Proof.
  assert (Forall2 (Evals P h (self_env g r gs)) (self_exprs g ref_self) (r :: gs)) as Hev.
  { unfold self_env, self_exprs, gen_exprs, ty_exprs, const_exprs. rewrite <- fmap_app.
    change (ref_self :: (mk_local_ex <$> ty_decls g ++ const_decls g))
      with (mk_local_ex <$> (ref_self_decl :: gen_decls g)).
    apply Evals_decls; [done|]. simpl. by rewrite gs_length. }
  split; [|by intros ->]. intros Hvs. by eapply Evals_list_det.
Qed.

Lemma Evals_ref_self : Evals P h (self_env g r gs) ref_self r.
Proof.
  destruct (Evals_self_exprs (r :: gs)) as [_ Hev]. specialize (Hev eq_refl). by inversion Hev.
Qed.

Lemma Evals_gen_exprs vs : Forall2 (Evals P h (self_env g r gs)) (gen_exprs g) vs <-> vs = gs.
Proof.
  destruct (Evals_self_exprs (r :: gs)) as [_ Hev]. specialize (Hev eq_refl). inversion Hev; subst.
  split; [|by intros ->]. intros Hvs. by eapply Evals_list_det.
Qed.

(** ** The memory of one field

    The predicate and the snapshot of a use of a type at the reference [x]; the
    arguments of the use are evaluated in the environment of the definition. *)
Definition use_owns (u : TyUseImpureData) (x : val) (F : footprint) : Prop :=
  use_maybe_inhabited u = true /\
  exists gs', Forall2 (Evals P h (self_env g r gs)) (garg_exprs (impure_args u)) gs' /\
    Own P h (ref_to_pred (impure u)) (x :: gs') F.

Definition use_snaps (u : TyUseImpureData) (x : val) (v : val) : Prop :=
  exists gs', Forall2 (Evals P h (self_env g r gs)) (garg_exprs (impure_args u)) gs' /\
    Snap P h (idn_name (ref_to_snap (impure u))) (x :: gs') v.

Lemma Owns_use u e x F : Evals P h (self_env g r gs) e x ->
  Owns P h (self_env g r gs) (use_ref_to_pred u e None) F <-> use_owns u x F.
Proof.
  intros He. unfold use_ref_to_pred, use_owns, use_pred_app. destruct (use_maybe_inhabited u).
  - rewrite Owns_app. split.
    + intros (vs & Hvs & HF). inversion Hvs as [|? y ? gs' Hy Hgs]; subst.
      rewrite (Evals_det _ _ _ _ _ _ He Hy). eauto.
    + intros (_ & gs' & Hgs & HF). eauto.
  - unfold mk_bool. rewrite Owns_pure, Evals_bool by done. naive_solver.
Qed.

Lemma Evals_use_snap u e x v : Evals P h (self_env g r gs) e x ->
  Evals P h (self_env g r gs) (use_ref_to_snap u e) v <-> use_snaps u x v.
Proof.
  intros He. unfold use_ref_to_snap, use_snaps. rewrite Evals_call. split.
  - intros (vs & Hvs & HF). inversion Hvs as [|? y ? gs' Hy Hgs]; subst.
    rewrite (Evals_det _ _ _ _ _ _ He Hy). eauto.
  - intros (gs' & Hgs & HF). eauto.
Qed.

(** The functions to the references of fields are abstract: Viper only knows that they
    are functions. *)
Definition addresses (fs : list TyPureFieldData) (xs : list val) : Prop :=
  Forall2 (fun f x => viper_fun (idn_name (pure_ref_to_field_ref f)) (r :: gs) = Some x) fs xs.

Definition field_declared (f : TyPureFieldData) : Prop :=
  exists d, prog_fun P (idn_name (pure_ref_to_field_ref f)) = Some d /\
    function_args d = ref_self_decl :: gen_decls g /\ function_pres d = [] /\ function_expr d = None.

Lemma Evals_field_at f x : field_declared f ->
  Evals P h (self_env g r gs) (field_at g f) x <->
  viper_fun (idn_name (pure_ref_to_field_ref f)) (r :: gs) = Some x.
Proof.
  intros (d & Hd & Hargs & Hpre & Hexpr). unfold field_at. rewrite Evals_call.
  setoid_rewrite Evals_self_exprs. setoid_rewrite (Snap_abstract P h _ _ _ _ Hd Hpre Hexpr).
  rewrite Hargs. simpl. split; [by intros (? & -> & _ & ?)|].
  intros Hx. exists (r :: gs). simpl. by rewrite gs_length.
Qed.
Lemma Owns_field u f F : field_declared f ->
  Owns P h (self_env g r gs) (use_ref_to_pred u (field_at g f) None) F <->
  exists x, viper_fun (idn_name (pure_ref_to_field_ref f)) (r :: gs) = Some x /\ use_owns u x F.
Proof.
  intros Hf. split.
  - intros HF. assert (exists x, Evals P h (self_env g r gs) (field_at g f) x) as [x Hx].
    { unfold use_ref_to_pred, use_pred_app in HF. destruct (use_maybe_inhabited u).
      - apply Owns_app in HF as (vs & Hvs & _). inversion Hvs; subst. eauto.
      - by apply Owns_pure in HF as [[=]%Evals_bool _]. }
    exists x. split; [by apply Evals_field_at|]. by apply (Owns_use _ (field_at g f)).
  - intros (x & Hx & HF). apply (Owns_use _ _ x); [|done]. by apply Evals_field_at.
Qed.

Lemma Evals_field u f v : field_declared f ->
  Evals P h (self_env g r gs) (use_ref_to_snap u (field_at g f)) v <->
  exists x, viper_fun (idn_name (pure_ref_to_field_ref f)) (r :: gs) = Some x /\ use_snaps u x v.
Proof.
  intros Hf. split.
  - intros HF. assert (exists x, Evals P h (self_env g r gs) (field_at g f) x) as [x Hx].
    { apply Evals_call in HF as (vs & Hvs & _). inversion Hvs; subst. eauto. }
    exists x. split; [by apply Evals_field_at|]. by apply (Evals_use_snap _ (field_at g f)).
  - intros (x & Hx & HF). apply (Evals_use_snap _ _ x); [|done]. by apply Evals_field_at.
Qed.

(** Of the fields of a structure, or of a variant. *)
Definition fields_own (us : list TyUseImpureData) (fs : list TyPureFieldData) (Fs : list footprint) : Prop :=
  exists xs, addresses fs xs /\ Forall3 use_owns us xs Fs.
Definition fields_snap (us : list TyUseImpureData) (fs : list TyPureFieldData) (vs : list val) : Prop :=
  exists xs, addresses fs xs /\ Forall3 use_snaps us xs vs.

(** Assertions made for pairs of a use and a field. *)
Lemma Forall2_fields {A} (R : Expr -> A -> Prop) (Q : TyUseImpureData -> val -> A -> Prop)
    (mk : TyUseImpureData -> TyPureFieldData -> Expr) us fs ys :
  Forall field_declared fs ->
  (forall u f y, field_declared f -> R (mk u f) y <->
     exists x, viper_fun (idn_name (pure_ref_to_field_ref f)) (r :: gs) = Some x /\ Q u x y) ->
  length us = length fs ->
  Forall2 R (zip_with mk us fs) ys <-> exists xs, addresses fs xs /\ Forall3 Q us xs ys.
Proof.
  intros Hfs HR Hl. revert us ys Hl. induction Hfs as [|f fs Hf _ IH]; intros [|u us] ys; try done; simpl; intros Hl.
  - split.
    + inversion 1. exists []. split; constructor.
    + intros (xs & Hxs & Hys). inversion Hxs; subst. inversion Hys. constructor.
  - injection Hl as Hl. split.
    + inversion 1 as [|? y ? ys' Hy Hys]; subst. apply HR in Hy as (x & Hx & HQ); [|done].
      apply (IH us) in Hys as (xs & Hxs & HQs); [|done]. exists (x :: xs). by split; constructor.
    + intros (xs & Hxs & Hys). inversion Hxs as [|? x ? xs' Hx Hxs']; subst.
      inversion Hys as [|? ? ? ? y ys' HQ HQs]; subst. constructor; [apply HR; eauto|]. apply IH; eauto.
Qed.

Lemma Owns_struct {E} us fs pe F : struct_pred_expr (E:=E) g us fs = Ok pe -> length us = length fs ->
  Forall field_declared fs ->
  Owns P h (self_env g r gs) pe F <->
  exists Fs, fields_own us fs Fs /\ separate Fs /\ F = concat Fs.
Proof.
  intros Hpe Hl Hfs. rewrite (Owns_conj P h _ _ _ _ Hpe). unfold fields_own.
  split; intros (Fs & HFs & Hsep); exists Fs; (split; [|done]);
    by eapply (Forall2_fields _ use_owns _ us fs Fs Hfs (fun u f y => Owns_field u f y) Hl).
Qed.

Lemma Evals_struct ctor us fs v : length us = length fs -> Forall field_declared fs ->
  Evals P h (self_env g r gs) (struct_snap_expr g ctor us fs) v <->
  exists vs, fields_snap us fs vs /\ Snap P h (idn_name ctor) vs v.
Proof.
  intros Hl Hfs. unfold struct_snap_expr, fields_snap. rewrite Evals_call.
  split; intros (vs & Hvs & Hv); exists vs; (split; [|done]);
    by eapply (Forall2_fields _ use_snaps _ us fs vs Hfs (fun u f y => Evals_field u f y) Hl).
Qed.
End self.
(** ** Members of a type *)
Section members.
Context (g : GenericParams) (r : val) (gs : list val).
Hypothesis g_ok : params_ok g.
Hypothesis gs_length : length gs = length (gen_decls g).

Lemma Own_self p pe F : mk_predicate p (ref_self_decl :: gen_decls g) (Some pe) ∈ program_predicates P ->
  Own P h p (r :: gs) F <-> Owns P h (self_env g r gs) pe F.
Proof.
  intros Hin%(prog_pred_in P distinct). rewrite (Own_unfold P h _ _ pe _ _ Hin eq_refl). simpl.
  split; [by intros [_ ?]|]. intros HF. by rewrite gs_length.
Qed.

Lemma Owns_self_pred b p F : im_params b = g ->
  Owns P h (self_env g r gs) (self_pred p b) F <-> Own P h p (r :: gs) F.
Proof.
  intros Hb. unfold self_pred. rewrite Owns_app, Hb. setoid_rewrite (Evals_self_exprs g r gs g_ok gs_length).
  split; [by intros (? & -> & ?)|eauto].
Qed.

Lemma Evals_unfolding_self b p e v : im_params b = g ->
  Evals P h (self_env g r gs) (unfolding_self p b e) v <->
  (exists F, Own P h p (r :: gs) F) /\ Evals P h (self_env g r gs) e v.
Proof.
  intros Hb. unfold unfolding_self. rewrite Evals_unfolding, Hb.
  setoid_rewrite (Evals_self_exprs g r gs g_ok gs_length).
  split; [intros [(? & F & -> & ?) ?]; eauto|intros [[F ?] ?]; eauto 6].
Qed.

Lemma Snap_self b inner v : im_params b = g -> snap_function b (Some inner) ∈ program_functions P ->
  Snap P h (idn_name (im_ref_to_snap b)) (r :: gs) v <->
  (exists F, Own P h (im_ref_to_pred b) (r :: gs) F) /\ Evals P h (self_env g r gs) inner v.
Proof.
  intros Hb Hin%(prog_fun_in P distinct). simpl in Hin.
  rewrite (Snap_unfold P h _ _ _ _ _ Hin eq_refl). simpl. unfold self_decls. rewrite Hb.
  change (bind_args (ref_self_decl :: gen_decls g) (r :: gs)) with (self_env g r gs).
  rewrite (Evals_unfolding_self b _ _ _ Hb). split.
  - by intros (_ & _ & ?).
  - intros [[F HF] Hv]. split; [simpl; by rewrite gs_length|]. split; [|by eauto].
    exists [F]. constructor; [|constructor]. by apply Owns_self_pred.
Qed.

(** The functions of the fields are declared. *)
Lemma fields_declared b prefix tys : adt_params b = g ->
  (forall f, f ∈ (field_ref_fn b prefix <$> seq 0 (length tys)) -> f ∈ program_functions P) ->
  Forall (field_declared g) (fields_of b prefix tys).
Proof.
  clear gs_length g_ok.
  intros Hb Hin. apply Forall_lookup. intros i f Hf. unfold fields_of in Hf.
  rewrite list_lookup_imap in Hf. apply fmap_Some in Hf as (d & Hd & ->).
  assert (field_ref_fn b prefix i ∈ program_functions P) as Hfn.
  { apply Hin. apply (list_elem_of_fmap_2 (field_ref_fn b prefix)). apply elem_of_seq.
    apply lookup_lt_Some in Hd. unfold constructor_args_of in Hd. rewrite length_fmap, length_imap in Hd. lia. }
  apply (prog_fun_in P distinct) in Hfn. eexists. split; [exact Hfn|]. simpl. by rewrite Hb.
Qed.
End members.
End memory.

Section types.
Context {RT : RustcTypes} {DC : Decompose} {EA : EncodeArgs} {HO : Host} {E : Type}.
Context {VM : ViperModel} {HM : HeapModel}.
Abbreviation val := (value domain_value).
Abbreviation footprint := (list (val * string)).

Lemma length_field_uses ps fs us : field_uses (E:=E) ps fs = Ok us -> length us = length fs.
Proof. unfold field_uses. intros H%collect_Ok%Forall2_length. done. Qed.

(** C9: the memory of a structure. In a program that declares what the encoders emit for
    a structure, its predicate owns a footprint exactly if the footprint is the disjoint
    union of footprints that the predicates of its fields own at the references of the
    fields; where the predicate holds, the snapshot is the constructor applied to the
    snapshots of the fields. *)
Theorem struct_memory P h ty s po (pure : TyPure) o (imp : TyImpure) g r gs :
  ty_specifics ty = Ty.StructLike s ->
  TyPureEnc (E:=E) ty = Ok (po, pure) -> TyImpureEnc (E:=E) ty = Ok (o, imp) ->
  GenericParamsEnc (E:=E) (ty_params_of ty) = Ok g -> params_ok g -> length gs = length (gen_decls g) ->
  names_distinct P -> declares_pure po P -> declares_impure o P ->
  exists us sd,
    field_uses (E:=E) (ty_params_of ty) (fields s) = Ok us /\
    ty_specifics pure = Ty.StructLike sd /\ length (fields sd) = length (fields s) /\
    (forall F, Own P h (ref_to_pred (ty_data imp)) (r :: gs) F <->
       exists Fs, fields_own P h g r gs us (fields sd) Fs /\ separate Fs /\ F = concat Fs) /\
    (forall v, Snap P h (idn_name (ref_to_snap (ty_data imp))) (r :: gs) v <->
       (exists F, Own P h (ref_to_pred (ty_data imp)) (r :: gs) F) /\
       exists vs, fields_snap P h g r gs us (fields sd) vs /\
         viper_fun (idn_name (struct_data sd)) vs = Some v).
Proof.
  intros Hs Hpure Himp Hg Hok Hgs HP Hdp Hdi.
  destruct (TyPureEnc_struct _ _ _ _ Hs Hpure) as (g' & tys & Hg' & _ & _ & _ & Hsd' & Hk & Hfn).
  destruct (TyImpureEnc_struct _ _ _ _ _ _ Hs Hpure Himp)
    as (g'' & us & sd & pe & b & Hg'' & (Hbg & Hbr & Hbs & _) & [Hn1 Hn2] & Hsd & Hl & Hus & Hpe & Hpred & Hsnap).
  assert (g' = g) as -> by congruence. assert (g'' = g) as -> by congruence.
  rewrite Hsd in Hsd'. injection Hsd' as Hsd'.
  assert (Forall (field_declared P g) (fields sd)) as Hfs.
  { rewrite Hsd'. eapply fields_declared; [done..|]. rewrite <- Hfn. apply Hdp. }
  assert (length us = length (fields sd)) as Hlen by (rewrite Hl; by eapply length_field_uses).
  apply Hdi in Hpred. exists us, sd. split_and!; try done.
  - intros F. rewrite Hn1, (Own_self P h HP g r gs Hgs _ _ _ Hpred). by eapply Owns_struct.
  - intros v. rewrite Hn1, Hn2, <- Hbs, <- Hbr.
    rewrite (Snap_self P h HP g r gs Hok Hgs b _ v Hbg) by (rewrite <- Hsnap; apply Hdi; by left).
    rewrite Evals_struct by done. apply and_iff_compat_l.
    destruct Hdp as [_ Hadt]. rewrite Hk in Hadt. destruct Hadt as [Hadt _].
    assert (prog_fun P (idn_name (struct_data sd)) = None) as Hnone.
    { rewrite Hsd'. apply (constructor_undefined P HP _ (constructor_of (adt_init ty g) EmptyString tys) Hadt). by left. }
    by setoid_rewrite (Snap_undefined P h _ _ _ Hnone).
Qed.
End types.
