(* ===== verification/TyEnum.v ===== *)
(** * Algebraic data types and discriminants

    What the algebraic data type of a structure or an enum gives: constructors are read
    back by their destructors, and the discriminant function, a chain of tests, has for
    every variant the snapshot of its discriminant. The predicate of an enum owns the
    memory of the discriminant and that of the variant the stored discriminant selects;
    its snapshot is made by the constructor of this variant. *)
From S2P Require Import Prelude Names Vir VirMake VirProgram VirSem VirInt TyDomain TyData Primitive TyRust TyUse TyPure TyImpure TyHeap TySpec TyMemory.

(** ** Algebraic data types of Viper

    A value made by a constructor is recognized by its discriminator alone, and its
    destructors give the arguments back. *)
Record adt_laws {VM : ViperModel} {HM : HeapModel} (adt : AdtGenData) : Prop := {
  adt_is c c' vs w :
    c ∈ adt_constructors_of adt -> c' ∈ adt_constructors_of adt ->
    viper_fun (constructor_name c) vs = Some w ->
    viper_is (constructor_name c') w = Some (bool_decide (constructor_name c' = constructor_name c));
  adt_destr c vs w i a v :
    c ∈ adt_constructors_of adt -> viper_fun (constructor_name c) vs = Some w ->
    constructor_args c !! i = Some a -> vs !! i = Some v -> viper_fun (decl_name a) [w] = Some v;
}.

Section adt.
Context {VM : ViperModel} {HM : HeapModel} (P : ProgramGenData).
Abbreviation val := (value domain_value).
Variable h : val -> string -> option val.

(** ** Chains of tests

    Conditionals on keys, the last one outermost: the body of the key that is met. *)
Section select.
Context {A K : Type} `{EqDecision K} (cond body : A -> Expr) (key : A -> K) (k0 : K) (ρ : gmap string val).

Definition select (base : Expr) (cs : list A) : Expr :=
  foldl (fun acc c => mk_ternary_expr (cond c) (body c) acc) base cs.

Lemma Evals_tested c acc v : Evals P h ρ (cond c) (VBool (bool_decide (key c = k0))) ->
  Evals P h ρ (mk_ternary_expr (cond c) (body c) acc) v <->
  if decide (key c = k0) then Evals P h ρ (body c) v else Evals P h ρ acc v.
Proof.
  intros Hc. rewrite Evals_ternary. case_decide as Hk.
  - rewrite bool_decide_true in Hc by done. split; [|auto]. intros [[_ ?]|[Hf _]]; [done|].
    by pose proof (Evals_det _ _ _ _ _ _ Hc Hf).
  - rewrite bool_decide_false in Hc by done. split; [|auto]. intros [[Hf _]|[_ ?]]; [|done].
    by pose proof (Evals_det _ _ _ _ _ _ Hc Hf).
Qed.

Lemma Evals_select cs : forall acc v,
  Forall (fun c => Evals P h ρ (cond c) (VBool (bool_decide (key c = k0)))) cs -> NoDup (key <$> cs) ->
  (k0 ∉ key <$> cs -> Evals P h ρ (select acc cs) v <-> Evals P h ρ acc v) /\
  (forall c, c ∈ cs -> key c = k0 -> Evals P h ρ (select acc cs) v <-> Evals P h ρ (body c) v).
Proof.
  induction cs as [|c cs IH]; intros acc v Hcs Hnd.
  - split; [done|]. intros c Hc. by apply elem_of_nil in Hc.
  - apply Forall_cons in Hcs as [Hc Hcs]. rewrite fmap_cons, NoDup_cons in Hnd. destruct Hnd as [Hn Hnd].
    destruct (IH (mk_ternary_expr (cond c) (body c) acc) v Hcs Hnd) as [Hout Hin]. cbn [select foldl] in *.
    pose proof (Evals_tested c acc v Hc) as Ht. split.
    + rewrite fmap_cons, not_elem_of_cons. intros [Hne Hnot]. rewrite (Hout Hnot), Ht.
      by rewrite decide_False by congruence.
    + intros c' [->|Hc']%elem_of_cons Hk; [|by apply Hin]. rewrite Hout by congruence. rewrite Ht.
      by rewrite decide_True.
Qed.
End select.

(** The discriminant function, the first constructor of which needs no test. *)
Definition is_ctor (self_ty : TypeKind) (c : string * Expr) : Expr := AdtDiscriminator (Local "self" self_ty) c.1.

Lemma discr_chain_select self_ty cs : forall acc,
  discr_chain self_ty cs (Some acc) = Some (select (is_ctor self_ty) snd acc cs).
Proof. induction cs as [|[name d] cs IH]; intros acc; [done|]. apply IH. Qed.

Lemma Evals_discr_chain self_ty w n0 cs d v :
  Forall (fun c => viper_is c.1 w = Some (bool_decide (c.1 = n0))) cs -> NoDup cs.*1 -> (n0, d) ∈ cs ->
  exists e, discr_chain self_ty cs None = Some e /\
    (Evals P h {["self"%string := w]} e v <-> Evals P h {["self"%string := w]} d v).
Proof.
  destruct cs as [|[name d0] cs]; [by intros _ _ ?%elem_of_nil|]. intros His Hnd Hin.
  apply Forall_cons in His as [_ His]. rewrite fmap_cons, NoDup_cons in Hnd. destruct Hnd as [Hn Hnd].
  cbn [fst snd discr_chain] in *. rewrite discr_chain_select. eexists. split; [done|].
  destruct (Evals_select (is_ctor self_ty) snd fst n0 {["self"%string := w]} cs d0 v) as [Hout Hsel]; [|done|].
  - eapply Forall_impl; [exact His|]. intros c Hc. apply Evals_is. exists w, (bool_decide (c.1 = n0)).
    by rewrite Evals_Local, lookup_singleton_eq.
  - apply elem_of_cons in Hin as [[= -> ->]|Hin]; [by apply Hout|]. by apply (Hsel (n0, d)).
Qed.
End adt.

(** ** Discriminants are snapshots of integers *)
Section discriminants.
Context {RT : RustcTypes} {DC : Decompose} {EA : EncodeArgs} {HO : Host} {E : Type}.
Context {VM : ViperModel} {HM : HeapModel} (P : ProgramGenData).
Abbreviation val := (value domain_value).
Variable h : val -> string -> option val.
Hypothesis distinct : names_distinct P.

(** The domain that a primitive integer type declares. *)
Lemma primitive_inv k b i b' : pure_data b = DataNone -> primitive_ty_pure (E:=E) k b = Ok (PrimInt i, b') ->
  exists d d', set_domain_builder (E:=E) b = Ok d /\ ty_pure (E:=E) k d = Ok (PrimInt i, d') /\
    b' = with_data (DataDomain d') b.
Proof.
  unfold primitive_ty_pure. intros Hb H.
  assert (k = TyBool \/ k <> TyBool) as [->|Hk] by (destruct k; auto). { done. }
  assert ((d ← set_domain_builder (E:=E) b; '(data, d) ← ty_pure (E:=E) k d;
           Ok (data, with_data (DataDomain d) b)) = Ok (PrimInt i, b')) as H' by (by destruct k). clear H.
  destruct (set_domain_builder b) as [d| |]; [|done..]. cbn [mbind outcome_bind] in H'.
  destruct (ty_pure k d) as [[data d']| |] eqn:Hd; [|done..]. cbn [mbind outcome_bind] in H'.
  injection H' as -> <-. eauto.
Qed.

Lemma encode_prim_domain k lp sn i :
  encode_prim (E:=E) k = Ok (lp, sn, PrimInt i) ->
  exists b b' dom, ty_pure (E:=E) k b = Ok (PrimInt i, b') /\ local_kind lp = LocalDomain dom /\
    domain_axioms dom = builder_axioms b' /\ domain_functions dom = builder_functions b' /\
    sn = builder_self_type b.
Proof.
  unfold encode_prim. intros H.
  destruct (from_prim_ty k) as [t| |]; [|done..]. cbn [mbind outcome_bind] in H.
  destruct (TyPureBuilder_new (decomp_ty t)) as [b| |] eqn:Hb; [|done..]. cbn [mbind outcome_bind] in H.
  apply TyPureBuilder_new_inv in Hb as (self & g & _ & _ & ->).
  destruct (primitive_ty_pure k _) as [[data b']| |] eqn:Hp; [|done..]. cbn [mbind outcome_bind] in H.
  destruct (pure_build b') as [l| |] eqn:Hl; [|done..]. cbn [mbind outcome_bind] in H.
  injection H as -> <- ->. apply primitive_inv in Hp as (d & d' & Hd & Hty & ->); [|done].
  cbn [set_domain_builder pure_data] in Hd. injection Hd as <-.
  unfold pure_build, build_kind in Hl. cbn [with_data pure_data pure_name] in Hl.
  apply bind_Ok_inv in Hl as (unr & _ & Hl). apply bind_Ok_inv in Hl as (kind & Hk & Hl).
  injection Hl as <-. unfold mk_domain in Hk.
  do 3 eexists. split; [exact Hty|]. clear Hty. inv_outcome. done.
Qed.

Lemma ty_pure_cons k b i b' : ty_pure (E:=E) k b = Ok (PrimInt i, b') ->
  exists f, f ∈ builder_functions b' /\ dfun_name f = idn_name (int_prim_to_snap i).
Proof.
  unfold ty_pure. generalize (get_min_int (E:=E) k) (get_max_int (E:=E) k) (ty_pure_float (E:=E)).
  intros min max float H.
  assert (forall f l, f ∈ (l ++ [f] : list DomainFunctionData)) as Hlast by set_solver.
  assert (forall f g l, f ∈ ((l ++ [f]) ++ [g] : list DomainFunctionData)) as Hlast2 by set_solver.
  destruct k as [| |t|t|f|n]; [done| | | | |done]; simpl in H; inv_outcome; simplify_eq;
    try (eexists; split; [apply Hlast2|reflexivity]).
  by repeat case_match.
Qed.

Lemma prim_cons_undefined k lp sn i :
  encode_prim (E:=E) k = Ok (lp, sn, PrimInt i) -> declares_pure lp P ->
  prog_fun P (idn_name (int_prim_to_snap i)) = None.
Proof.
  intros (b & b' & dom & (f & Hf & <-)%ty_pure_cons & Hk & _ & Hfn & _)%encode_prim_domain [_ Hd]. rewrite Hk in Hd.
  eapply domain_function_undefined; [done|exact Hd|by rewrite Hfn].
Qed.

Lemma encode_prim_faithful k lp sn i d dom :
  encode_prim (E:=E) k = Ok (lp, sn, PrimInt i) -> @get_int_data HO E k = Ok d -> k <> TyChar ->
  local_kind lp = LocalDomain dom -> Forall (fun ax => axiom_holds (axiom_expr ax)) (domain_axioms dom) ->
  fun_typed (int_prim_to_snap i) TInt -> IntSnapshots i (in_range d).
Proof.
  intros (b & b' & dom' & Hty & Hk & Hax & _)%encode_prim_domain Hd Hc Hk' Haxs Hf.
  assert (dom' = dom) as -> by congruence. rewrite Hax in Haxs. by eapply ty_pure_faithful.
Qed.

(** The discriminant of a variant is the snapshot of the integer with its bits. *)
Lemma discr_value i ok d k value e : IntSnapshots i ok -> (forall z, in_range d z -> ok z) ->
  prog_fun P (idn_name (int_prim_to_snap i)) = None ->
  @get_int_data HO E k = Ok d -> (0 <= value < 2 ^ d.1)%Z ->
  prim_to_snap (PrimInt i) <$> expr_from_bits (E:=E) (PrimInt i) k value = Ok e ->
  exists v, represents i v (wrap d value) /\ forall ρ w, Evals P h ρ e w <-> w = v.
Proof.
  intros Hi Hok Hnone Hd Hv He. pose proof (get_int_data_supported _ _ Hd) as Hs.
  destruct (expr_from_bits_int (E:=E) ∅ i k d value Hd Hv) as (bits & Hbits & _ & _ & Heval).
  rewrite Hbits in He. injection He as <-.
  destruct (snap_of_prim (i:=i) ∅ bits (wrap d value) Heval) as (v & Hcons & Hrep); [by apply Hok, wrap_in_range|].
  exists v. split; [done|]. intros ρ w. cbn [prim_to_snap]. rewrite Evals_call.
  simpl in Hcons. rewrite Heval in Hcons. simpl in Hcons.
  assert (forall x, Evals P h ρ bits x <-> x = VInt (wrap d value)) as Hb.
  { intros x. assert (Evals P h ρ bits (VInt (wrap d value))) as Hx.
    { unfold expr_from_bits in Hbits. inv_outcome. repeat case_match; simplify_eq; simpl in Heval; simplify_eq.
      - apply Evals_unop. eexists. split; [by apply Evals_int|]. simpl. by rewrite Heval.
      - apply Evals_int. by rewrite <- Heval. }
    split; [|by intros ->]. intros Hx'. by eapply Evals_det. }
  split.
  - intros (vs & Hvs & Hsnap). inversion Hvs as [|? x ? xs Hx Hnil]; subst. inversion Hnil; subst.
    apply Hb in Hx. subst. apply (Snap_undefined P h _ _ _ Hnone) in Hsnap. congruence.
  - intros ->. exists [VInt (wrap d value)]. split; [repeat constructor; by apply Hb|].
    by apply (Snap_undefined P h _ _ _ Hnone).
Qed.

(** What is known of the discriminants of an enum: their type is an integer type whose
    snapshots are faithful, and the compiler gives every variant another value. *)
Record discr_ints (e : EnumData RustTyDatas) (i : TyPurePrimDataInt) (d : Z * bool) : Prop := {
  di_prim : exists lp sn, encode_prim (E:=E) (discr (enum_data e)) = Ok (lp, sn, PrimInt i) /\ declares_pure lp P;
  di_data : @get_int_data HO E (discr (enum_data e)) = Ok d;
  di_snap : IntSnapshots i (in_range d);
  di_values : Forall (fun v : VariantData RustTyDatas => 0 <= discr_val (variant_data v) < 2 ^ d.1)%Z (variants e);
  di_distinct : NoDup ((fun v : VariantData RustTyDatas => discr_val (variant_data v)) <$> variants e);
}.

Lemma wrap_inj d a b : supported d -> (0 <= a < 2 ^ d.1)%Z -> (0 <= b < 2 ^ d.1)%Z -> wrap d a = wrap d b -> a = b.
Proof.
  intros Hd Ha Hb Heq. destruct (wrap_congruent d a Hd) as [p Hp]. destruct (wrap_congruent d b Hd) as [q Hq].
  assert (a = b + (q - p) * 2 ^ d.1)%Z as -> by lia.
  assert (q - p = 0)%Z as -> by nia. lia.
Qed.

(** The snapshot of the discriminant of a variant, which its expression evaluates to. *)
Definition discr_snap (i : TyPurePrimDataInt) (d : Z * bool) (v : VariantData RustTyDatas) (x : val) : Prop :=
  represents i x (wrap d (discr_val (variant_data v))).

Lemma discr_snap_key e i d v v' x : discr_ints e i d -> v ∈ variants e -> v' ∈ variants e ->
  discr_snap i d v x -> discr_snap i d v' x -> v = v'.
Proof.
  intros [_ Hd _ Hval Hnd] Hv Hv' [_ Hx] [_ Hx']. rewrite Hx in Hx'. injection Hx' as Heq.
  rewrite Forall_forall in Hval.
  apply wrap_inj in Heq; [|by eapply get_int_data_supported|by apply Hval..].
  apply list_elem_of_lookup in Hv as [j Hj]. apply list_elem_of_lookup in Hv' as [j' Hj'].
  assert (j = j') as -> by (eapply (NoDup_lookup _ j j' (discr_val (variant_data v)) Hnd);
    rewrite list_lookup_fmap, ?Hj, ?Hj'; simpl; congruence). congruence.
Qed.

Lemma discr_snap_det e i d v x y : discr_ints e i d -> discr_snap i d v x -> discr_snap i d v y -> x = y.
Proof. intros [_ _ Hs _ _]. apply Hs. Qed.

(** Every variant of the encoding has its discriminant. *)
Lemma variant_discrs ty e i d b pvs tyss : discr_ints e i d ->
  Forall3 (variant_built (E:=E) (PrimInt i) (discr (enum_data e)) ty b) (variants e) pvs tyss ->
  Forall2 (fun v (pv : VariantData PureTyDatas) => exists x, discr_snap i d v x /\ forall ρ w, Evals P h ρ (variant_data pv) w <-> w = x)
    (variants e) pvs.
Proof.
  intros [(lp & sn & Hprim & Hlp) Hd Hs Hval _] Hvs. revert Hvs Hval. generalize (variants e). intros vs Hvs.
  induction Hvs as [|v pv tys vs pvs tyss Hv _ IH]; intros Hval; constructor.
  - apply Forall_cons in Hval as [Hv0 _]. eapply discr_value; [exact Hs|done|by eapply prim_cons_undefined|done..|].
    apply (vb_discr _ _ _ _ _ _ _ Hv).
  - apply IH. by apply Forall_cons in Hval as [_ ?].
Qed.
End discriminants.

(** ** The algebraic data type of an enum *)
Section enums.
Context {RT : RustcTypes} {DC : Decompose} {EA : EncodeArgs} {HO : Host} {E : Type}.
Context {VM : ViperModel} {HM : HeapModel}.
Abbreviation val := (value domain_value).

Lemma constructors_NoDup P adt : names_distinct P -> adt ∈ program_adts P ->
  NoDup (constructor_name <$> adt_constructors_of adt).
Proof.
  intros [_ (_ & _ & (Hnd & _)%NoDup_app)%NoDup_app] Hadt. unfold constructor_names in Hnd.
  induction (program_adts P) as [|a l IH]; [by apply elem_of_nil in Hadt|].
  cbn in Hnd. apply NoDup_app in Hnd as (Ha & _ & Hl).
  apply elem_of_cons in Hadt as [->|Hadt]; auto.
Qed.

(** The constructors of the variants and the chain that distinguishes them. *)
Definition variant_ctor (ty : RustTy) (v : VariantData RustTyDatas) : string :=
  constructor_name_of (snap_name ty) (pure_prefix v).

Lemma enum_constructor_names ty g vs (tyss : list (list TypeKind)) : length tyss = length vs ->
  constructor_name <$> zip_with (fun v => constructor_of (adt_init ty g) (pure_prefix v)) vs tyss
    = variant_ctor ty <$> vs.
Proof.
  revert tyss. induction vs as [|v vs IH]; intros [|tys tyss]; try done. simpl. intros [= Hl]. by rewrite IH.
Qed.

(** The test of a constructor for a value that another one made. *)
Definition adt_tests (P : ProgramGenData) (ty : RustTy) (e : EnumData RustTyDatas) : Prop :=
  NoDup (variant_ctor ty <$> variants e) /\
  forall v v' vs w, v ∈ variants e -> v' ∈ variants e -> viper_fun (variant_ctor ty v) vs = Some w ->
    viper_is (variant_ctor ty v') w = Some (bool_decide (variant_ctor ty v' = variant_ctor ty v)).

Lemma enum_adt_tests P ty e po (pure : TyPure) adt df :
  ty_specifics ty = Ty.EnumLike e -> TyPureEnc (E:=E) ty = Ok (po, pure) ->
  names_distinct P -> declares_pure po P -> local_kind po = LocalAdt adt df -> adt_laws adt ->
  adt_tests P ty e.
Proof.
  intros Hs H HP [_ Hd] Hk Hlaws.
  destruct (TyPureEnc_enum _ _ _ _ Hs H)
    as (g & lp & sn & prim & pvs & tyss & fn & _ & _ & Hvs & _ & _ & [Hk' _] & _).
  rewrite Hk in Hd. destruct Hd as [Hadt _]. pose proof (constructors_NoDup P adt HP Hadt) as Hnd.
  assert (forall v, v ∈ variants e -> exists c, c ∈ adt_constructors_of adt /\ constructor_name c = variant_ctor ty v)
    as Hc.
  { intros v Hv. rewrite Hk in Hk'. injection Hk' as -> _. cbn [adt_constructors_of mk_adt].
    apply (list_elem_of_fmap_2 (variant_ctor ty)) in Hv.
    rewrite <- (enum_constructor_names ty g (variants e) tyss) in Hv
      by (symmetry; by eapply Forall3_length_lr).
    apply list_elem_of_fmap_1 in Hv as (c & Hc & Hin). exists c. split; [|done]. apply elem_of_app. by left. }
  split.
  - rewrite Hk in Hk'. injection Hk' as -> _. cbn [adt_constructors_of mk_adt] in Hnd.
    rewrite fmap_app in Hnd. apply NoDup_app in Hnd as [Hnd _].
    by rewrite enum_constructor_names in Hnd by (symmetry; by eapply Forall3_length_lr).
  - intros v v' vs w Hv Hv' Hw. destruct (Hc v Hv) as (c & Hin & Hn), (Hc v' Hv') as (c' & Hin' & Hn').
    rewrite <- Hn in Hw. rewrite <- Hn, <- Hn'. by eapply adt_is.
Qed.

(** The values of the discriminant function. *)
Lemma enum_discr_value P h ty e po (pure : TyPure) adt df i d :
  ty_specifics ty = Ty.EnumLike e -> TyPureEnc (E:=E) ty = Ok (po, pure) ->
  names_distinct P -> declares_pure po P -> local_kind po = LocalAdt adt df -> adt_laws adt ->
  discr_ints (E:=E) P e i d ->
  exists ed, ty_specifics pure = Ty.EnumLike ed /\ length (variants ed) = length (variants e) /\
    forall j v pv vs w, variants e !! j = Some v -> variants ed !! j = Some pv ->
      viper_fun (idn_name (struct_data (inner pv))) vs = Some w ->
      exists x, discr_snap i d v x /\
        forall y, Snap P h (idn_name (enum_discr_fn (enum_data ed))) [w] y <-> y = x.
Proof.
  intros Hs H HP Hdp Hk Hlaws Hints.
  destruct (enum_adt_tests P ty e po pure adt df Hs H HP Hdp Hk Hlaws) as [Hnd Htests].
  destruct (TyPureEnc_enum _ _ _ _ Hs H)
    as (g & lp & sn & prim & pvs & tyss & fn & _ & Hprim & Hvs & _ & Hed & [Hk' Hfn] & _).
  eexists. split; [exact Hed|]. cbn [variants enum_data enum_discr_fn].
  split; [symmetry; by eapply Forall3_length_lm|]. intros j v pv vs w Hv Hpv Hw.
  destruct (di_prim _ _ _ _ Hints) as (lp' & sn' & Hprim' & _).
  assert (prim = PrimInt i) as -> by congruence.
  pose proof (variant_discrs P h HP ty e i d _ _ _ Hints Hvs) as Hds.
  destruct (Forall2_lookup_lr _ _ _ _ _ _ Hds Hv Hpv) as (x & Hx & Heval). exists x. split; [done|]. intros y.
  destruct (Forall3_lookup_l _ _ _ _ _ _ Hvs Hv) as (pv' & tys & Hpv' & _ & Hb).
  assert (pv' = pv) as -> by congruence. rewrite (vb_ctor _ _ _ _ _ _ _ Hb) in Hw. cbn in Hw.
  fold (variant_ctor ty v) in Hw.
  set (cs := zip_with _ (variants e) pvs) in Hk', Hfn.
  assert (cs.*1 = variant_ctor ty <$> variants e) as Hcs1.
  { unfold cs. clear -Hvs. induction Hvs; simpl; [done|]. by f_equal. }
  assert ((variant_ctor ty v, variant_data pv : Expr) ∈ cs) as Hin.
  { apply list_elem_of_lookup. exists j. unfold cs. rewrite lookup_zip_with, Hv, Hpv. done. }
  destruct (Evals_discr_chain P h (TDomain (snap_name ty) []) w (variant_ctor ty v) cs (variant_data pv : Expr) y)
    as (body & Hbody & Hiff); [|by rewrite Hcs1|done|].
  { apply Forall_forall. intros c Hc. apply (list_elem_of_fmap_2 fst) in Hc. rewrite Hcs1 in Hc.
    apply list_elem_of_fmap_1 in Hc as (v' & -> & Hv'). eapply Htests; [by eapply list_elem_of_lookup_2|done..]. }
  rewrite Hbody in Hfn.
  assert (prog_fun P (snap_name ty +:+ "_discr") = Some fn) as Hprog.
  { destruct Hdp as [_ Hd]. rewrite Hk' in Hd. destruct Hd as [_ Hd].
    assert (snap_name ty +:+ "_discr" = function_name fn) as -> by (by rewrite Hfn).
    apply (prog_fun_in P HP), Hd. done. }
  cbn [idn_name]. rewrite (Snap_unfold P h _ fn body) by (done || by rewrite Hfn). rewrite Hfn.
  cbn [function_args function_pres length]. change (bind_args _ _) with ({["self"%string := w]} : gmap string val).
  rewrite Hiff, Heval. split; [by intros (_ & _ & ?)|]. intros ->. split; [done|]. split; [|done].
  exists []. constructor.
Qed.

(** The fields of a variant are read back. *)
Lemma enum_fields_read ty e po (pure : TyPure) adt df :
  ty_specifics ty = Ty.EnumLike e -> TyPureEnc (E:=E) ty = Ok (po, pure) -> local_kind po = LocalAdt adt df -> adt_laws adt ->
  exists ed, ty_specifics pure = Ty.EnumLike ed /\
    forall pv vs w k fd a, pv ∈ variants ed -> viper_fun (idn_name (struct_data (inner pv))) vs = Some w ->
      fields (inner pv) !! k = Some fd -> vs !! k = Some a -> viper_fun (destr_name (field_read_access fd)) [w] = Some a.
Proof.
  intros Hs H Hk Hlaws.
  destruct (TyPureEnc_enum _ _ _ _ Hs H)
    as (g & lp & sn & prim & pvs & tyss & fn & _ & _ & Hvs & _ & Hed & [Hk' _] & _).
  eexists. split; [exact Hed|]. cbn [variants]. intros pv vs w k fd a Hpv Hw Hfd Ha.
  apply list_elem_of_lookup in Hpv as [j Hpv].
  destruct (Forall3_lookup_m _ _ _ _ _ _ Hvs Hpv) as (v & tys & Hv & Htys & Hb).
  rewrite (vb_ctor _ _ _ _ _ _ _ Hb) in Hw. rewrite (vb_fields _ _ _ _ _ _ _ Hb) in Hfd.
  unfold fields_of in Hfd. rewrite list_lookup_imap, list_lookup_fmap in Hfd.
  destruct (constructor_args_of _ _ tys !! k) as [arg|] eqn:Harg; [|done]. injection Hfd as <-.
  apply (adt_destr adt Hlaws (constructor_of (adt_init ty g) (pure_prefix v) tys) vs w k arg a); try done.
  rewrite Hk in Hk'. injection Hk' as -> _. cbn [adt_constructors_of mk_adt]. apply elem_of_app. left.
  apply list_elem_of_lookup. exists j. by rewrite lookup_zip_with, Hv, Htys.
Qed.

(** C11: discriminants of enums. In a program that declares what the encoder emits for an
    enum, the constructor of a variant makes values of which the discriminant function
    gives the snapshot of the discriminant of this variant, read from its bits as an
    integer of the discriminant type, and of which the destructors of the variant give
    the fields back. *)
Theorem enum_discriminant P h ty e po (pure : TyPure) adt df i d :
  ty_specifics ty = Ty.EnumLike e -> TyPureEnc (E:=E) ty = Ok (po, pure) ->
  names_distinct P -> declares_pure po P -> local_kind po = LocalAdt adt df -> adt_laws adt ->
  discr_ints (E:=E) P e i d ->
  exists ed, ty_specifics pure = Ty.EnumLike ed /\ length (variants ed) = length (variants e) /\
    forall j v pv vs w, variants e !! j = Some v -> variants ed !! j = Some pv ->
      viper_fun (idn_name (struct_data (inner pv))) vs = Some w ->
      (exists x, represents i x (wrap d (discr_val (variant_data v))) /\
         forall y, Snap P h (idn_name (enum_discr_fn (enum_data ed))) [w] y <-> y = x) /\
      forall k fd a, fields (inner pv) !! k = Some fd -> vs !! k = Some a ->
        viper_fun (destr_name (field_read_access fd)) [w] = Some a.
Proof.
  intros Hs H HP Hdp Hk Hlaws Hints.
  destruct (enum_discr_value P h ty e po pure adt df i d) as (ed & Hed & Hl & Hdiscr); [done..|].
  destruct (enum_fields_read ty e po pure adt df) as (ed' & Hed' & Hread); [done..|].
  assert (ed' = ed) as -> by congruence. exists ed. split_and!; [done..|].
  intros j v pv vs w Hv Hpv Hw. split; [by eapply Hdiscr|]. intros k fd a. eapply Hread; [|done].
  by eapply list_elem_of_lookup_2.
Qed.
End enums.

(** ** The memory of enums *)
Section rules.
Context {VM : ViperModel} {HM : HeapModel} (P : ProgramGenData).
Abbreviation val := (value domain_value).
Abbreviation footprint := (list (val * string)).
Variable h : val -> string -> option val.

(** ** Disjunctions of tests *)
Lemma mk_disj_pure {E} es e : @mk_disj E es = Ok e -> Forall (fun e => pure_expr e = true) es -> pure_expr e = true.
Proof.
  intros He Hes. destruct es as [|a es]; [by injection He as <-|].
  destruct (mk_assoc_op_balanced (E:=E) (length (a :: es)) Or (Some (mk_bool false)) (a :: es))
    as (c & Hc & Hb); [done..|].
  assert (c = e) as -> by (unfold mk_disj, mk_assoc_op in He; congruence).
  destruct Hb as [e|]; [|done]. by apply Forall_cons in Hes as [? _].
Qed.

Lemma Evals_disj_inv {E} ρ es e : @mk_disj E es = Ok e -> Evals P h ρ e (VBool true) ->
  exists e1, e1 ∈ es /\ Evals P h ρ e1 (VBool true).
Proof.
  intros He Hv. destruct es as [|a es]; [injection He as <-; by apply Evals_bool in Hv|].
  destruct (mk_assoc_op_balanced (E:=E) (length (a :: es)) Or (Some (mk_bool false)) (a :: es))
    as (c & Hc & Hb); [done..|].
  assert (c = e) as -> by (unfold mk_disj, mk_assoc_op in He; congruence). clear He Hc.
  induction Hb as [e|es1 es2 l r _ H1 H2 _ IHl _ IHr]; [exists e; set_solver|].
  apply Evals_or in Hv as [[Hl _]|[_ (b & Hr & [= <-])]].
  - destruct (IHl Hl) as (e1 & ? & ?). exists e1. set_solver.
  - destruct (IHr Hr) as (e1 & ? & ?). exists e1. set_solver.
Qed.

(** ** Implications from tests

    The memory of the key that is met. *)
Section selected.
Context {A K : Type} `{EqDecision K} (assertion : A -> Expr) (memory : A -> footprint -> Prop) (key : A -> K) (k0 : K).
Variable ρ : gmap string val.

Definition guarded (c : A) : Prop :=
  forall F, Owns P h ρ (assertion c) F <-> if decide (key c = k0) then memory c F else F = [].

Lemma Owns_unselected cs : Forall guarded cs -> k0 ∉ key <$> cs -> forall Fs,
  Forall2 (Owns P h ρ) (assertion <$> cs) Fs <-> Fs = (fun _ => []) <$> cs.
Proof.
  induction 1 as [|c cs Hc _ IH]; intros Hk Fs.
  - split; [by inversion 1|]. intros ->. constructor.
  - rewrite fmap_cons, not_elem_of_cons in Hk. destruct Hk as [Hne Hk]. specialize (Hc []) as Hc0.
    rewrite decide_False in Hc0 by congruence. split.
    + rewrite fmap_cons. inversion 1 as [|? F ? Fs' HF HFs]; subst. apply Hc in HF.
      rewrite decide_False in HF by congruence. subst. simpl. f_equal. by apply IH.
    + intros ->. simpl. constructor; [by apply Hc0|]. by apply IH.
Qed.

Lemma concat_nils {B} (cs : list B) : concat ((fun _ => [] : footprint) <$> cs) = [].
Proof. by induction cs. Qed.
Lemma separate_nils {B} (cs : list B) : separate ((fun _ => [] : footprint) <$> cs).
Proof. induction cs as [|c cs IH]; [done|]. split; [|done]. intros x Hx. by apply elem_of_nil in Hx. Qed.

Lemma Owns_selected cs c F : Forall guarded cs -> NoDup (key <$> cs) -> c ∈ cs -> key c = k0 ->
  (exists Fs, Forall2 (Owns P h ρ) (assertion <$> cs) Fs /\ separate Fs /\ F = concat Fs) <-> memory c F.
Proof.
  intros Hcs Hnd Hc Hk. revert Hnd Hc F.
  induction Hcs as [|c' cs Hc' Hcs IH]; [by intros _ ?%elem_of_nil|].
  rewrite fmap_cons, NoDup_cons. intros [Hn Hnd] Hin F. rewrite fmap_cons.
  destruct (decide (key c' = k0)) as [Heq|Hne].
  - assert (k0 ∉ key <$> cs) as Hk0 by congruence.
    assert (c = c') as ->.
    { apply elem_of_cons in Hin as [->|Hin]; [done|]. exfalso. apply Hk0. rewrite <- Hk.
      by apply (list_elem_of_fmap_2 key). }
    specialize (Hc' F) as HcF. rewrite decide_True in HcF by done. split.
    + intros (Fs & HFs & _ & ->). inversion HFs as [|? G ? Gs HG HGs]; subst.
      apply Owns_unselected in HGs as ->; [|done..]. apply Hc' in HG. rewrite decide_True in HG by done.
      simpl. by rewrite concat_nils, app_nil_r.
    + intros HF. exists (F :: ((fun _ => []) <$> cs)). simpl. rewrite concat_nils, app_nil_r. split_and!; try done.
      * constructor; [by apply HcF|]. by apply Owns_unselected.
      * intros x _ Hx. by apply elem_of_nil in Hx.
      * apply separate_nils.
  - assert (c ∈ cs) as Hin' by (apply elem_of_cons in Hin as [->|?]; [congruence|done]).
    rewrite <- (IH Hnd Hin' F). split.
    + intros (Fs & HFs & Hsep & ->). inversion HFs as [|? G ? Gs HG HGs]; subst. apply Hc' in HG.
      rewrite decide_False in HG by done. subst. exists Gs. split_and!; [done|apply Hsep|done].
    + intros (Fs & HFs & Hsep & ->). exists ([] :: Fs). split_and!; [|split; [|done]|done].
      * constructor; [|done]. apply Hc'. by rewrite decide_False.
      * intros x Hx. by apply elem_of_nil in Hx.
Qed.
End selected.

Lemma separate_two (F G : footprint) : F ## G -> separate [F; G].
Proof.
  intros Hd. simpl. rewrite app_nil_r. split_and!; [done| |done]. intros x _ Hx. by apply elem_of_nil in Hx.
Qed.
Lemma separate_nil_one (G : footprint) : separate [[]; G].
Proof. apply separate_two. intros x Hx. by apply elem_of_nil in Hx. Qed.
End rules.

(** ** The predicate and the snapshot of an enum *)
Section enum.
Context {RT : RustcTypes} {DC : Decompose} {EA : EncodeArgs} {HO : Host} {E : Type}.
Context {VM : ViperModel} {HM : HeapModel} (P : ProgramGenData).
Abbreviation val := (value domain_value).
Abbreviation footprint := (list (val * string)).
Variable h : val -> string -> option val.
Hypothesis distinct : names_distinct P.

Context (g : GenericParams) (r : val) (gs : list val).
Hypothesis g_ok : params_ok g.
Hypothesis gs_length : length gs = length (gen_decls g).

Context (e : EnumData RustTyDatas) (i : TyPurePrimDataInt) (d : Z * bool).
Hypothesis ints : discr_ints (E:=E) P e i d.

(** A variant with its snapshot and its memory. *)
Abbreviation item := (VariantData RustTyDatas * VariantData PureTyDatas * VariantImpure)%type.
Definition item_key (c : item) : Z := discr_val (variant_data c.1.1).
Definition item_pred (c : item) : string := variant_data (vi_data c.2).

Context (du : TyUseImpureData) (ref_disc : Expr) (b : PredicateBuilder) (items : list item).
Hypothesis b_params : im_params b = g.
Definition read_discr : Expr := use_ref_to_snap du ref_disc.

Definition has_discr (discr : Expr) (v : VariantData RustTyDatas) : Prop :=
  exists y, discr_snap i d v y /\ forall ρ w, Evals P h ρ discr w <-> w = y.

Definition item_ok (c : item) : Prop :=
  c.1.1 ∈ variants e /\ has_discr (vi_discr c.2) c.1.1 /\
  vi_pred_expr c.2 = BinOp Implies (mk_eq_expr read_discr (vi_discr c.2)) (self_pred (item_pred c) b).

Hypothesis items_ok : Forall item_ok items.
Hypothesis items_keys : item_key <$> items = (fun v : VariantData RustTyDatas => discr_val (variant_data v)) <$> variants e.

Lemma items_NoDup : NoDup (item_key <$> items).
Proof. rewrite items_keys. apply ints. Qed.

Lemma same_key v v' : v ∈ variants e -> v' ∈ variants e ->
  discr_val (variant_data v) = discr_val (variant_data v') -> v = v'.
Proof.
  intros [j Hj]%list_elem_of_lookup [j' Hj']%list_elem_of_lookup Heq.
  assert (j = j') as ->; [|congruence].
  eapply (NoDup_lookup _ j j' (discr_val (variant_data v)) (di_distinct _ _ _ _ ints));
    rewrite list_lookup_fmap, ?Hj, ?Hj'; simpl; congruence.
Qed.

(** The test of a variant when the discriminant of [v0] is stored. *)
Lemma Evals_discr_test ρ c v0 x : item_ok c -> v0 ∈ variants e -> discr_snap i d v0 x -> Evals P h ρ read_discr x ->
  Evals P h ρ (mk_eq_expr read_discr (vi_discr c.2)) (VBool (bool_decide (item_key c = discr_val (variant_data v0)))).
Proof.
  intros (Hc & (y & Hy & Hev) & _) Hv0 Hx Hread. apply Evals_eq. exists x, y.
  split; [done|]. split; [by apply Hev|]. f_equal. apply bool_decide_ext. unfold item_key. split.
  - intros Heq. apply same_key in Heq; [|done..]. rewrite Heq in Hy. by eapply discr_snap_det.
  - intros ->. f_equal. f_equal. by eapply discr_snap_key.
Qed.

(** A test that holds gives the stored discriminant. *)
Lemma Evals_discr_test_inv ρ c : item_ok c -> Evals P h ρ (mk_eq_expr read_discr (vi_discr c.2)) (VBool true) ->
  exists x, Evals P h ρ read_discr x /\ discr_snap i d c.1.1 x.
Proof.
  intros (_ & (y & Hy & Hev) & _) (x & y' & Hx & Hy' & [= Heq])%Evals_eq. apply Hev in Hy' as ->.
  symmetry in Heq. apply bool_decide_eq_true in Heq as ->. eauto.
Qed.

Abbreviation ρ := (self_env g r gs).

Lemma items_guarded v0 x : v0 ∈ variants e -> discr_snap i d v0 x -> Evals P h ρ read_discr x ->
  Forall (guarded P h (fun c : item => vi_pred_expr c.2) (fun c F => Own P h (item_pred c) (r :: gs) F) item_key
    (discr_val (variant_data v0)) ρ) items.
Proof.
  intros Hv0 Hx Hread. eapply Forall_impl; [exact items_ok|]. intros c Hc F.
  pose proof (Evals_discr_test ρ c v0 x Hc Hv0 Hx Hread) as Ht. destruct Hc as (_ & _ & ->).
  rewrite Owns_implies. case_decide as Hk.
  - rewrite bool_decide_true in Ht by done. rewrite (Owns_self_pred P h g r gs g_ok gs_length b _ F b_params).
    split; [|auto]. intros [[_ ?]|[Hf _]]; [done|]. by pose proof (Evals_det _ _ _ _ _ _ Ht Hf).
  - rewrite bool_decide_false in Ht by done.
    split; [|auto]. intros [[Hf _]|[_ ?]]; [|done]. by pose proof (Evals_det _ _ _ _ _ _ Ht Hf).
Qed.

(** The variants that the predicate distinguishes, when a test holds. *)
Lemma Owns_variants values preds F :
  mk_disj (E:=E) ((fun c : item => mk_eq_expr read_discr (vi_discr c.2)) <$> items) = Ok values ->
  mk_conj (E:=E) ((fun c : item => vi_pred_expr c.2) <$> items) = Ok preds ->
  (Evals P h ρ values (VBool true) /\ Owns P h ρ preds F) <->
  exists c x, c ∈ items /\ Evals P h ρ read_discr x /\ discr_snap i d c.1.1 x /\ Own P h (item_pred c) (r :: gs) F.
Proof.
  intros Hvalues Hpreds. rewrite (Owns_conj P h _ _ _ _ Hpreds).
  assert (forall c, c ∈ items -> item_ok c) as Hok by (by apply Forall_forall).
  assert (forall c x, c ∈ items -> Evals P h ρ read_discr x -> discr_snap i d c.1.1 x ->
    (exists Fs, Forall2 (Owns P h ρ) ((fun c : item => vi_pred_expr c.2) <$> items) Fs /\ separate Fs /\ F = concat Fs)
      <-> Own P h (item_pred c) (r :: gs) F) as Hsel.
  { intros c x Hc Hread Hx. apply (Owns_selected P h _ (fun c F => Own P h (item_pred c) (r :: gs) F) item_key
      (item_key c)); [|apply items_NoDup|done..]. eapply items_guarded; [by apply Hok|done..]. }
  split.
  - intros [Hv HF]. apply (Evals_disj_inv P h _ _ _ Hvalues) in Hv as (t & Ht & Hv).
    apply list_elem_of_fmap_1 in Ht as (c & -> & Hc).
    apply Evals_discr_test_inv in Hv as (x & Hread & Hx); [|by apply Hok].
    exists c, x. split_and!; try done. by eapply Hsel.
  - intros (c & x & Hc & Hread & Hx & HF). split; [|by eapply Hsel].
    assert (existsb id ((fun c' => bool_decide (item_key c' = item_key c)) <$> items) = true) as <-.
    { apply existsb_exists. exists true. split; [|done]. apply list_elem_of_In.
      apply list_elem_of_fmap. exists c. by rewrite bool_decide_true. }
    eapply Evals_disj; [exact Hvalues|]. apply Forall2_fmap, Forall_Forall2_diag, Forall_forall.
    intros c' Hc'. eapply Evals_discr_test; [by apply Hok| |exact Hx|done]. by apply Hok.
Qed.

Lemma Owns_enum pe F : enum_pred_expr (E:=E) du ref_disc read_discr (items.*2) = Ok pe ->
  Owns P h ρ pe F <->
  exists c x Fd Fv, c ∈ items /\ Evals P h ρ read_discr x /\ discr_snap i d c.1.1 x /\
    Owns P h ρ (use_ref_to_pred du ref_disc None) Fd /\ Own P h (item_pred c) (r :: gs) Fv /\
    Fd ## Fv /\ F = Fd ++ Fv.
Proof.
  unfold enum_pred_expr. rewrite <- !list_fmap_compose. intros H.
  apply bind_Ok_inv in H as (values & Hvalues & H). apply bind_Ok_inv in H as (preds & Hpreds & H).
  apply bind_Ok_inv in H as (both & Hboth & H).
  pose proof (Owns_variants values preds) as Hvs. specialize (fun F => Hvs F Hvalues Hpreds).
  assert (pure_expr values = true) as Hpure.
  { eapply mk_disj_pure; [exact Hvalues|]. apply Forall_fmap, Forall_forall. done. }
  assert (forall G, Owns P h ρ both G <-> Evals P h ρ values (VBool true) /\ Owns P h ρ preds G) as Hb.
  { intros G. rewrite (Owns_conj P h _ _ _ _ Hboth). split.
    - intros (Fs & HFs & _ & ->). inversion HFs as [|? F1 ? Fs' H1 H2]; subst.
      inversion H2 as [|? F2 ? Fs'' H3 H4]; subst. inversion H4; subst.
      apply (Owns_pure P h _ _ _ Hpure) in H1 as [Hv ->]. simpl. by rewrite app_nil_r.
    - intros [Hv HG]. exists [[]; G]. split_and!; [|by apply separate_nil_one|simpl; by rewrite app_nil_r].
      repeat constructor; [by apply (Owns_pure P h _ _ _ Hpure)|done]. }
  rewrite (Owns_conj P h _ _ _ _ H). split.
  - intros (Fs & HFs & Hsep & ->). inversion HFs as [|? Fd ? Fs' H1 H2]; subst.
    inversion H2 as [|? Fv ? Fs'' H3 H4]; subst. inversion H4; subst.
    apply Hb, Hvs in H3 as (c & x & Hc & Hread & Hx & HFv). simpl in *. rewrite app_nil_r in *.
    destruct Hsep as [Hsep _]. eauto 15.
  - intros (c & x & Fd & Fv & Hc & Hread & Hx & HFd & HFv & Hd & ->). exists [Fd; Fv].
    split_and!; [|by apply separate_two|simpl; by rewrite app_nil_r].
    repeat constructor; [done|]. apply Hb, Hvs. eauto 10.
Qed.

(** Without the tests: the snapshot of the enum is that of the variant whose
    discriminant is stored. *)
Lemma Evals_enum_snap base v c x : c ∈ items -> Evals P h ρ read_discr x -> discr_snap i d c.1.1 x ->
  Evals P h ρ (enum_snap_expr base read_discr (items.*2)) v <-> Evals P h ρ (vi_snap_expr c.2) v.
Proof.
  intros Hc Hread Hx.
  assert (forall c, c ∈ items -> item_ok c) as Hok by (by apply Forall_forall).
  assert (forall base, enum_snap_expr base read_discr (items.*2)
    = select (fun c : item => mk_eq_expr read_discr (vi_discr c.2)) (fun c => vi_snap_expr c.2) base items) as ->.
  { unfold enum_snap_expr, select. clear. induction items as [|c l IH]; intros base; [done|]. simpl. apply IH. }
  refine (proj2 (Evals_select P h _ _ item_key (item_key c) ρ items base v _ items_NoDup) c Hc eq_refl).
  apply Forall_forall. intros c' Hc'. eapply Evals_discr_test; [by apply Hok|by apply Hok|exact Hx|done].
Qed.
End enum.

(** ** The encoded enum *)
Section enums.
Context {RT : RustcTypes} {DC : Decompose} {EA : EncodeArgs} {HO : Host} {E : Type}.
Context {VM : ViperModel} {HM : HeapModel} (P : ProgramGenData).
Abbreviation val := (value domain_value).
Abbreviation footprint := (list (val * string)).
Abbreviation item := (VariantData RustTyDatas * VariantData PureTyDatas * VariantImpure)%type.
Variable h : val -> string -> option val.

(** The memory of the discriminant is [Fd] and the discriminant of [v] is stored there. *)
Definition discr_stored (g : GenericParams) (r : val) (gs : list val) (ei : EnumData ImpureTyDatas)
    (i : TyPurePrimDataInt) (d : Z * bool) (v : VariantData RustTyDatas) (Fd : footprint) : Prop :=
  let discr := enum_data ei : TyImpureEnumData in
  exists a x, viper_fun (idn_name (enum_discr_ref discr)) [r] = Some a /\
    use_owns P h g r gs (enum_discr_ty discr) a Fd /\ use_snaps P h g r gs (enum_discr_ty discr) a x /\
    discr_snap i d v x.

(** The separate memory of the fields of a variant, and the value its constructor makes of
    their snapshots. *)
Definition variant_owns (ps : GParams) (g : GenericParams) (r : val) (gs : list val) (v : VariantData RustTyDatas)
    (pv : VariantData PureTyDatas) (F : footprint) : Prop :=
  exists us Fs, field_uses (E:=E) ps (fields (inner v)) = Ok us /\
    fields_own P h g r gs us (fields (inner pv)) Fs /\ separate Fs /\ F = concat Fs.

Definition variant_snaps (ps : GParams) (g : GenericParams) (r : val) (gs : list val) (v : VariantData RustTyDatas)
    (pv : VariantData PureTyDatas) (w : val) : Prop :=
  exists us vs, field_uses (E:=E) ps (fields (inner v)) = Ok us /\
    fields_snap P h g r gs us (fields (inner pv)) vs /\
    viper_fun (idn_name (struct_data (inner pv))) vs = Some w.

Section reference.
Context (g : GenericParams) (r : val) (gs : list val) (f : FunctionIdn) (du : TyUseImpureData).
Hypothesis g_ok : params_ok g.
Hypothesis gs_length : length gs = length (gen_decls g).
Hypothesis f_declared : exists fd, prog_fun P (idn_name f) = Some fd /\ function_args fd = [ref_self_decl] /\
  function_pres fd = [] /\ function_expr fd = None.

Lemma Evals_discr_ref a :
  Evals P h (self_env g r gs) (call f [ref_self]) a <-> viper_fun (idn_name f) [r] = Some a.
Proof.
  destruct f_declared as (fd & Hfd & Hargs & Hpre & Hexpr). rewrite Evals_call.
  setoid_rewrite (Snap_abstract P h _ _ _ _ Hfd Hpre Hexpr). rewrite Hargs. split.
  - intros (vs & Hvs & _ & Hv). inversion Hvs as [|? x ? xs Hx Hnil]; subst. inversion Hnil; subst.
    by rewrite (Evals_det _ _ _ _ _ _ (Evals_ref_self P h g r gs g_ok gs_length) Hx).
  - intros Hv. exists [r]. split; [|done]. repeat constructor. by apply Evals_ref_self.
Qed.

Lemma discr_memory Fd x :
  (Evals P h (self_env g r gs) (read_discr du (call f [ref_self])) x /\
   Owns P h (self_env g r gs) (use_ref_to_pred du (call f [ref_self]) None) Fd) <->
  exists a, viper_fun (idn_name f) [r] = Some a /\ use_owns P h g r gs du a Fd /\ use_snaps P h g r gs du a x.
Proof.
  unfold read_discr. split.
  - intros [Hx HF]. assert (exists a, Evals P h (self_env g r gs) (call f [ref_self]) a) as [a Ha].
    { apply Evals_call in Hx as (vs & Hvs & _). inversion Hvs; subst. eauto. }
    exists a. split; [by apply Evals_discr_ref|]. split; [by eapply Owns_use|by eapply Evals_use_snap].
  - intros (a & Ha%Evals_discr_ref & HF & Hx). split; [by eapply Evals_use_snap|by eapply Owns_use].
Qed.
End reference.

(** ** The items of the encoding *)
Lemma Forall3_zip_l {A B C} (R : A -> B -> C -> Prop) l k m : Forall3 R l k m ->
  Forall (fun c => exists z, R c.1 c.2 z) (zip l k).
Proof. induction 1; constructor; eauto. Qed.

Lemma zip_zip_keys {A B C K} (f : A -> K) (l : list A) (k : list B) (m : list C) :
  length l = length k -> length l = length m -> (fun c : A * B * C => f c.1.1) <$> zip (zip l k) m = f <$> l.
Proof. revert k m. induction l as [|x l IH]; intros [|y k] [|z m]; try done. simpl. intros [=] [=]. f_equal. auto. Qed.

Hypothesis distinct : names_distinct P.

(** What both encoders say of the variants of an enum, together. *)
Record enum_encoded (ty : RustTy) (e : EnumData RustTyDatas) (g : GenericParams) (ed : EnumData PureTyDatas)
    (ei : EnumData ImpureTyDatas) (b : PredicateBuilder) (items : list item)
    (i : TyPurePrimDataInt) (d : Z * bool) (imp : TyImpure) : Prop := {
  ee_params : im_params b = g;
  ee_zip : items.*1 = zip (variants e) (variants ed);
  ee_keys : item_key <$> items = (fun v : VariantData RustTyDatas => discr_val (variant_data v)) <$> variants e;
  ee_ref : exists fd, prog_fun P (idn_name (enum_discr_ref (enum_data ei))) = Some fd /\
    function_args fd = [ref_self_decl] /\ function_pres fd = [] /\ function_expr fd = None;
  ee_fields : Forall (fun pv : VariantData PureTyDatas => Forall (field_declared P g) (fields (inner pv)) /\
    prog_fun P (idn_name (struct_data (inner pv))) = None) (variants ed);
  ee_items : Forall (item_ok P h e i d (enum_discr_ty (enum_data ei))
    (call (enum_discr_ref (enum_data ei)) [ref_self]) b) items;
  ee_impure : Forall (fun c : item => exists us pe,
    field_uses (E:=E) (ty_params_of ty) (fields (inner c.1.1)) = Ok us /\
    length us = length (fields (inner c.1.2)) /\
    struct_pred_expr (E:=E) g us (fields (inner c.1.2)) = Ok pe /\
    mk_predicate (item_pred c) (ref_self_decl :: gen_decls g) (Some pe) ∈ program_predicates P /\
    vi_snap_expr c.2 = unfolding_self (item_pred c) b
      (struct_snap_expr g (struct_data (inner c.1.2)) us (fields (inner c.1.2)))) items;
  ee_pred : exists pe,
    enum_pred_expr (E:=E) (enum_discr_ty (enum_data ei)) (call (enum_discr_ref (enum_data ei)) [ref_self])
      (read_discr (enum_discr_ty (enum_data ei)) (call (enum_discr_ref (enum_data ei)) [ref_self])) (items.*2) = Ok pe /\
    mk_predicate (ref_to_pred (ty_data imp)) (ref_self_decl :: gen_decls g) (Some pe) ∈ program_predicates P;
  ee_snap : im_ref_to_pred b = ref_to_pred (ty_data imp) /\
    idn_name (im_ref_to_snap b) = idn_name (ref_to_snap (ty_data imp)) /\
    exists base, snap_function b (Some (enum_snap_expr base
      (read_discr (enum_discr_ty (enum_data ei)) (call (enum_discr_ref (enum_data ei)) [ref_self])) (items.*2)))
      ∈ program_functions P;
}.

(** The functions of the fields are declared, the constructors are not functions. *)
Lemma enum_fields_declared ty e po (pure : TyPure) ed g :
  ty_specifics ty = Ty.EnumLike e -> TyPureEnc (E:=E) ty = Ok (po, pure) ->
  ty_specifics pure = Ty.EnumLike ed -> GenericParamsEnc (E:=E) (ty_params_of ty) = Ok g -> declares_pure po P ->
  Forall (fun pv : VariantData PureTyDatas => Forall (field_declared P g) (fields (inner pv)) /\
    prog_fun P (idn_name (struct_data (inner pv))) = None) (variants ed).
Proof.
  intros Hs Hpure Hed Hg [Hdpf Hdpk].
  destruct (TyPureEnc_enum _ _ _ _ Hs Hpure)
    as (g' & lp & sn & prim & pvs & tyss & fn & Hg' & _ & Hvs & _ & Hed' & [Hk _] & Hfns).
  assert (g' = g) as -> by congruence. rewrite Hed in Hed'. injection Hed' as ->. cbn [variants].
  apply Forall_lookup. intros j pv Hpv.
  destruct (Forall3_lookup_m _ _ _ _ _ _ Hvs Hpv) as (v & tys & Hv & Htys & Hb).
  rewrite (vb_ctor _ _ _ _ _ _ _ Hb), (vb_fields _ _ _ _ _ _ _ Hb). split.
  - apply (fields_declared P distinct g (adt_init ty g) (pure_prefix v) tys); [done|].
    intros f Hf. apply Hdpf. rewrite Hfns. apply list_elem_of_In, in_concat. eexists.
    split; [|by apply list_elem_of_In]. apply list_elem_of_In, list_elem_of_lookup. exists j.
    by rewrite lookup_zip_with, Hv, Htys.
  - rewrite Hk in Hdpk. destruct Hdpk as [Hadt _].
    apply (constructor_undefined P distinct _ (constructor_of (adt_init ty g) (pure_prefix v) tys) Hadt).
    cbn [adt_constructors_of mk_adt]. apply elem_of_app. left.
    apply list_elem_of_lookup. exists j. by rewrite lookup_zip_with, Hv, Htys.
Qed.

Lemma enum_encodes ty e po (pure : TyPure) o (imp : TyImpure) g i d :
  ty_specifics ty = Ty.EnumLike e ->
  TyPureEnc (E:=E) ty = Ok (po, pure) -> TyImpureEnc (E:=E) ty = Ok (o, imp) ->
  GenericParamsEnc (E:=E) (ty_params_of ty) = Ok g ->
  declares_pure po P -> declares_impure o P -> discr_ints (E:=E) P e i d ->
  exists ed ei b items, ty_specifics pure = Ty.EnumLike ed /\ ty_specifics imp = Ty.EnumLike ei /\
    length (variants ed) = length (variants e) /\ enum_encoded ty e g ed ei b items i d imp.
Proof.
  intros Hs Hpure Himp Hg Hdp [Hdip Hdif] Hints.
  destruct (TyPureEnc_enum _ _ _ _ Hs Hpure)
    as (g1 & lp & sn & prim & pvs & tyss & fn & Hg1 & Hprim & Hvs & _ & Hed & _).
  destruct (TyImpureEnc_enum _ _ _ _ _ _ Hs Hpure Himp)
    as (g2 & ed & ei & t & du & b & b' & vis & uss & pe & Hg2 & (Hbg & Hbr & Hbs & _) & [Hn1 Hn2] & Hed' & Hei & Heq
        & Hshape & _ & _ & Hdisc & Hvis & Hin & Hpe & Hpred & Hsnap).
  assert (g1 = g) as -> by congruence. assert (g2 = g) as -> by congruence.
  pose proof (enum_fields_declared _ _ _ _ _ _ Hs Hpure Hed' Hg Hdp) as Hfields.
  rewrite Hed in Hed'. injection Hed' as <-. cbn [variants] in *.
  destruct (di_prim _ _ _ _ Hints) as (lp' & sn' & Hprim' & _). assert (prim = PrimInt i) as -> by congruence.
  pose proof (variant_discrs P h distinct ty e i d _ _ _ Hints Hvs) as Hds.
  pose proof (Forall2_length _ _ _ Hshape) as Hl. pose proof (Forall3_length_lm _ _ _ _ Hvis) as Hl'.
  rewrite length_zip_with, <- Hl, Nat.min_id in Hl'.
  eexists _, ei, b, (zip (zip (variants e) pvs) vis). split_and!; [exact Hed|done|done|].
  assert (length (zip (variants e) pvs) = length vis) as Hlz by (by eapply Forall3_length_lm).
  split; rewrite ?Heq; cbn [enum_discr_ref enum_discr_ty variants]; try done.
  - rewrite fst_zip by lia. done.
  - apply (zip_zip_keys (fun v : VariantData RustTyDatas => discr_val (variant_data v))); lia.
  - eexists. split; [exact (prog_fun_in P distinct _ (Hdif _ (list_elem_of_further _ _ _ Hdisc)))|done].
  - apply Forall3_zip_l in Hvis. apply Forall_lookup. intros j [[v pv] vi] Hc.
    pose proof (Forall_lookup_1 _ _ _ _ Hvis Hc) as [upe Hvi].
    apply lookup_zip_Some in Hc as [Hc _]. apply lookup_zip_Some in Hc as [Hv Hpv].
    split; [by eapply list_elem_of_lookup_2|]. unfold has_discr. rewrite (vm_discr _ _ _ _ _ _ _ _ _ Hvi).
    split; [exact (Forall2_lookup_lr _ _ _ _ _ _ Hds Hv Hpv)|]. apply Hvi.
  - apply Forall3_zip_l in Hvis. apply Forall_lookup. intros j [[v pv] vi] Hc.
    pose proof (Forall_lookup_1 _ _ _ _ Hvis Hc) as [upe Hvi].
    apply lookup_zip_Some in Hc as [Hc _]. apply lookup_zip_Some in Hc as [Hv Hpv].
    pose proof (Forall2_lookup_lr _ _ _ _ _ _ Hshape Hv Hpv) as Hlf.
    destruct Hvi as [Hus Hpe' Hin' _ _ Hsn]. exists upe.1, upe.2. rewrite <- Hbg. split_and!; try done.
    + rewrite (length_field_uses _ _ _ Hus). exact Hlf.
    + by apply Hdip, Hin.
  - exists pe. rewrite snd_zip by lia. split; [done|]. rewrite Hn1. by apply Hdip.
  - rewrite Hbr, Hbs, Hn1, Hn2. split_and!; [done..|]. eexists. rewrite snd_zip by lia.
    unfold read_discr. rewrite <- Hsnap. apply Hdif. by left.
Qed.

(** ** The memory of an encoded enum *)
Section encoded.
Context (ty : RustTy) (e : EnumData RustTyDatas) (g : GenericParams) (ed : EnumData PureTyDatas)
  (ei : EnumData ImpureTyDatas) (b : PredicateBuilder) (items : list item) (i : TyPurePrimDataInt) (d : Z * bool)
  (imp : TyImpure).
Hypothesis enc : enum_encoded ty e g ed ei b items i d imp.
Hypothesis ints : discr_ints (E:=E) P e i d.
Context (r : val) (gs : list val).
Hypothesis g_ok : params_ok g.
Hypothesis gs_length : length gs = length (gen_decls g).

Lemma item_variant v pv : (v, pv) ∈ zip (variants e) (variants ed) <-> exists vi, (v, pv, vi) ∈ items.
Proof.
  rewrite <- (ee_zip _ _ _ _ _ _ _ _ _ _ enc), list_elem_of_fmap. split.
  - intros ([vpv vi] & Heq & Hin). simpl in Heq. subst. eauto.
  - intros [vi Hin]. by exists (v, pv, vi).
Qed.

Lemma item_memory v pv vi : (v, pv, vi) ∈ items ->
  (forall F, Own P h (item_pred (v, pv, vi)) (r :: gs) F <-> variant_owns (ty_params_of ty) g r gs v pv F) /\
  (forall w, Evals P h (self_env g r gs) (vi_snap_expr vi) w <->
    (exists F, Own P h (item_pred (v, pv, vi)) (r :: gs) F) /\ variant_snaps (ty_params_of ty) g r gs v pv w).
Proof.
  intros Hin. pose proof (ee_impure _ _ _ _ _ _ _ _ _ _ enc) as Himp. rewrite Forall_forall in Himp.
  destruct (Himp _ Hin) as (us & pe & Hus & Hl & Hpe & Hpred & Hsnap). cbn [fst snd] in *.
  assert (pv ∈ variants ed) as Hpv.
  { assert ((v, pv) ∈ zip (variants e) (variants ed)) as Hz by (apply item_variant; eauto).
    by apply elem_of_zip_r in Hz. }
  pose proof (ee_fields _ _ _ _ _ _ _ _ _ _ enc) as Hfs. rewrite Forall_forall in Hfs.
  destruct (Hfs _ Hpv) as [Hdecl Hnone]. split.
  - intros F. rewrite (Own_self P h distinct g r gs gs_length _ _ _ Hpred).
    rewrite (Owns_struct P h g r gs g_ok gs_length us _ pe F Hpe Hl Hdecl). unfold variant_owns. split.
    + intros (Fs & HFs & Hsep). eauto.
    + intros (us' & Fs & Hus' & HFs & Hsep). assert (us' = us) as -> by congruence. eauto.
  - intros w. rewrite Hsnap.
    rewrite (Evals_unfolding_self P h g r gs g_ok gs_length b _ _ _ (ee_params _ _ _ _ _ _ _ _ _ _ enc)).
    apply and_iff_compat_l. rewrite Evals_struct by done. unfold variant_snaps. split.
    + intros (vs & Hvs & Hw%(Snap_undefined P h _ _ _ Hnone)). eauto.
    + intros (us' & vs & Hus' & Hvs & Hw). assert (us' = us) as -> by congruence. exists vs.
      split; [done|]. by apply Snap_undefined.
Qed.

Lemma encoded_owns F : Own P h (ref_to_pred (ty_data imp)) (r :: gs) F <->
  exists v pv Fd Fv, (v, pv) ∈ zip (variants e) (variants ed) /\ discr_stored g r gs ei i d v Fd /\
    variant_owns (ty_params_of ty) g r gs v pv Fv /\ Fd ## Fv /\ F = Fd ++ Fv.
Proof.
  destruct (ee_pred _ _ _ _ _ _ _ _ _ _ enc) as (pe & Hpe & Hpred).
  rewrite (Own_self P h distinct g r gs gs_length _ _ _ Hpred).
  rewrite (Owns_enum P h g r gs g_ok gs_length e i d ints _ _ b items (ee_params _ _ _ _ _ _ _ _ _ _ enc)
    (ee_items _ _ _ _ _ _ _ _ _ _ enc) (ee_keys _ _ _ _ _ _ _ _ _ _ enc) _ F Hpe).
  pose proof (discr_memory g r gs _ (enum_discr_ty (enum_data ei)) g_ok gs_length (ee_ref _ _ _ _ _ _ _ _ _ _ enc))
    as Hmem. unfold discr_stored. split.
  - intros ([[v pv] vi] & x & Fd & Fv & Hin & Hread & Hx & HFd & HFv & Hd & ->).
    destruct (proj1 (Hmem Fd x) (conj Hread HFd)) as (a & Ha & Hown & Hsnap).
    apply (proj1 (item_memory v pv vi Hin)) in HFv. exists v, pv, Fd, Fv.
    split_and!; [by apply item_variant; eauto|by eauto 10|done..].
  - intros (v & pv & Fd & Fv & [vi Hin]%item_variant & (a & x & Ha & Hown & Hsnap & Hx) & HFv & Hd & ->).
    destruct (proj2 (Hmem Fd x)) as [Hread HFd]; [by eauto|].
    apply (proj1 (item_memory v pv vi Hin)) in HFv. exists (v, pv, vi), x, Fd, Fv. done.
Qed.

Lemma encoded_snap w : Snap P h (idn_name (ref_to_snap (ty_data imp))) (r :: gs) w <->
  exists v pv Fd Fv, (v, pv) ∈ zip (variants e) (variants ed) /\ discr_stored g r gs ei i d v Fd /\
    variant_owns (ty_params_of ty) g r gs v pv Fv /\ Fd ## Fv /\
    variant_snaps (ty_params_of ty) g r gs v pv w.
Proof.
  destruct (ee_snap _ _ _ _ _ _ _ _ _ _ enc) as (Hp & Hs & base & Hin).
  pose proof (ee_params _ _ _ _ _ _ _ _ _ _ enc) as Hb.
  rewrite <- Hs, (Snap_self P h distinct g r gs g_ok gs_length b _ w Hb Hin), Hp.
  pose proof (discr_memory g r gs _ (enum_discr_ty (enum_data ei)) g_ok gs_length (ee_ref _ _ _ _ _ _ _ _ _ _ enc))
    as Hmem.
  assert (forall v pv Fd Fv, (v, pv) ∈ zip (variants e) (variants ed) -> discr_stored g r gs ei i d v Fd ->
    variant_owns (ty_params_of ty) g r gs v pv Fv ->
    Evals P h (self_env g r gs) (enum_snap_expr base (read_discr (enum_discr_ty (enum_data ei))
      (call (enum_discr_ref (enum_data ei)) [ref_self])) (items.*2)) w <->
    variant_snaps (ty_params_of ty) g r gs v pv w) as Hsnap.
  { intros v pv Fd Fv [vi Hi]%item_variant (a & x & Ha & Hown & Hsnap & Hx) HFv.
    destruct (proj2 (Hmem Fd x)) as [Hread HFd]; [by eauto|].
    rewrite (Evals_enum_snap P h g r gs e i d ints _ _ b items (ee_items _ _ _ _ _ _ _ _ _ _ enc)
      (ee_keys _ _ _ _ _ _ _ _ _ _ enc) base w (v, pv, vi) x Hi Hread Hx).
    destruct (item_memory v pv vi Hi) as [Ho Hv]. cbn [snd]. rewrite Hv. split; [by intros [_ ?]|].
    intros ?. split; [|done]. exists Fv. by apply Ho. }
  split.
  - intros [[F HF] Hw]. apply encoded_owns in HF as (v & pv & Fd & Fv & Hz & Hd & HFv & Hsep & _).
    exists v, pv, Fd, Fv. split_and!; try done. by eapply Hsnap.
  - intros (v & pv & Fd & Fv & Hz & Hd & HFv & Hsep & Hw). split; [|by eapply Hsnap].
    exists (Fd ++ Fv). apply encoded_owns. eauto 10.
Qed.
End encoded.
End enums.

Section theorems.
Context {RT : RustcTypes} {DC : Decompose} {EA : EncodeArgs} {HO : Host} {E : Type}.
Context {VM : ViperModel} {HM : HeapModel}.
Abbreviation val := (value domain_value).

(** C8: the memory of an enum. In a program that declares what the encoders emit for an
    enum, its predicate owns a footprint exactly if a discriminant is stored in one part
    of it, and the other part, disjoint from the first, is the memory of the fields of
    the variant with this discriminant; the snapshot of the enum is then the constructor
    of the same variant applied to the snapshots of the fields. *)
Theorem enum_memory P h ty e po (pure : TyPure) o (imp : TyImpure) g r gs i d :
  ty_specifics ty = Ty.EnumLike e ->
  TyPureEnc (E:=E) ty = Ok (po, pure) -> TyImpureEnc (E:=E) ty = Ok (o, imp) ->
  GenericParamsEnc (E:=E) (ty_params_of ty) = Ok g -> params_ok g -> length gs = length (gen_decls g) ->
  names_distinct P -> declares_pure po P -> declares_impure o P -> discr_ints (E:=E) P e i d ->
  exists ed ei,
    ty_specifics pure = Ty.EnumLike ed /\ ty_specifics imp = Ty.EnumLike ei /\
    length (variants ed) = length (variants e) /\
    (forall F, Own P h (ref_to_pred (ty_data imp)) (r :: gs) F <->
       exists v pv Fd Fv, (v, pv) ∈ zip (variants e) (variants ed) /\ discr_stored P h g r gs ei i d v Fd /\
         variant_owns (E:=E) P h (ty_params_of ty) g r gs v pv Fv /\ Fd ## Fv /\ F = Fd ++ Fv) /\
    (forall w, Snap P h (idn_name (ref_to_snap (ty_data imp))) (r :: gs) w <->
       exists v pv Fd Fv, (v, pv) ∈ zip (variants e) (variants ed) /\ discr_stored P h g r gs ei i d v Fd /\
         variant_owns (E:=E) P h (ty_params_of ty) g r gs v pv Fv /\ Fd ## Fv /\
         variant_snaps (E:=E) P h (ty_params_of ty) g r gs v pv w).
Proof.
  intros Hs Hpure Himp Hg Hok Hgs HP Hdp Hdi Hints.
  destruct (enum_encodes (E:=E) P h HP ty e po pure o imp g i d) as (ed & ei & b & items & Hed & Hei & Hl & Henc); [done..|].
  exists ed, ei. split_and!; [done..| |].
  - intros F. by eapply encoded_owns.
  - intros w. by eapply encoded_snap.
Qed.

(** C10: the discriminant of a snapshot is the one in memory. Where an enum has a snapshot,
    its memory holds the discriminant of some variant, and the discriminant function
    applied to the snapshot gives exactly this value. *)
Theorem enum_read_discriminant P h ty e po (pure : TyPure) adt df o (imp : TyImpure) g r gs i d w :
  ty_specifics ty = Ty.EnumLike e ->
  TyPureEnc (E:=E) ty = Ok (po, pure) -> TyImpureEnc (E:=E) ty = Ok (o, imp) ->
  GenericParamsEnc (E:=E) (ty_params_of ty) = Ok g -> params_ok g -> length gs = length (gen_decls g) ->
  names_distinct P -> declares_pure po P -> declares_impure o P -> discr_ints (E:=E) P e i d ->
  local_kind po = LocalAdt adt df -> adt_laws adt ->
  Snap P h (idn_name (ref_to_snap (ty_data imp))) (r :: gs) w ->
  exists ed ei v a Fd x,
    ty_specifics pure = Ty.EnumLike ed /\ ty_specifics imp = Ty.EnumLike ei /\ v ∈ variants e /\
    viper_fun (idn_name (enum_discr_ref (enum_data ei))) [r] = Some a /\
    use_owns P h g r gs (enum_discr_ty (enum_data ei)) a Fd /\
    use_snaps P h g r gs (enum_discr_ty (enum_data ei)) a x /\
    represents i x (wrap d (discr_val (variant_data v))) /\
    forall y, Snap P h (idn_name (enum_discr_fn (enum_data ed))) [w] y <-> y = x.
Proof.
  intros Hs Hpure Himp Hg Hok Hgs HP Hdp Hdi Hints Hk Hlaws Hw.
  destruct (enum_encodes (E:=E) P h HP ty e po pure o imp g i d) as (ed & ei & b & items & Hed & Hei & Hl & Henc); [done..|].
  destruct (enum_discr_value (E:=E) P h ty e po pure adt df i d) as (ed' & Hed' & _ & Hdiscr); [done..|].
  assert (ed' = ed) as -> by congruence.
  eapply encoded_snap in Hw as (v & pv & Fd & Fv & Hz & (a & x & Ha & Hown & Hsn & Hx) & _ & _ & us & vs & _ & _ & Hw);
    [|done..].
  apply list_elem_of_lookup in Hz as [j [Hv Hpv]%lookup_zip_Some].
  destruct (Hdiscr j v pv vs w Hv Hpv Hw) as (x' & Hx' & Hy).
  assert (x' = x) as -> by (by eapply discr_snap_det).
  exists ed, ei, v, a, Fd, x. split_and!; try done. by eapply list_elem_of_lookup_2.
Qed.
End theorems.
