(* ===== verification/TyExample.v ===== *)
(** * Encoded types: examples

    A structure with two fields of type [i32] and an enum with the discriminant type
    [i32], one variant of which has a field: the program that the encoders emit for them,
    a model of its functions, and memory that holds a value of each. *)
From S2P Require Import Prelude Names Vir VirMake VirProgram VirSem VirInt TyDomain TyData Primitive TyRust TyUse TyPure TyImpure TyHeap TySpec TyMemory TyEnum.

(** ** The compiler

    The only type of fields is [i32]. *)
#[export] Instance rustc_types : RustcTypes :=
  {| LazyRustTy := unit; ParamEnv := unit; empty_env := tt; GArgs := unit |}.

Definition i32_ty : RustTy :=
  {| ty_data := {| rust_name := "Int_i32"; rust_params := GParams_empty |} : TyD RustTyDatas;
     ty_specifics := Ty.Primitive (D:=RustTyDatas) (TyInt I32) |}.

#[export] Instance rustc_decompose : Decompose :=
  {| decompose _ _ := {| decomp_ty := i32_ty; decomp_args := tt; maybe_inhabited := Some true |}; no_args := tt |}.

#[export] Instance no_arguments : EncodeArgs := {| GArgsTyEnc _ _ := Ok {| get_ty := []; get_const := [] |} |}.

#[export] Instance host : Host := {| pointer_bits := 64; pointer_bits_supported := or_intror (or_intror eq_refl) |}.

Definition field (n : nat) : RustFieldData := {| rust_field_name := EmptyString; fid := n; field_lazy := tt |}.

Definition pair_fields : StructData RustTyDatas :=
  {| struct_data := tt : StructD RustTyDatas; fields := [field 0; field 1] : list (FieldD RustTyDatas) |}.
Definition pair_ty : RustTy :=
  {| ty_data := {| rust_name := "Pair"; rust_params := GParams_empty |} : TyD RustTyDatas;
     ty_specifics := Ty.StructLike pair_fields |}.

Definition variant (name : string) (n : nat) (discr : Z) (fs : list RustFieldData) : VariantData RustTyDatas :=
  {| variant_data := {| variant_name := name; vid := n; discr_val := discr |} : VariantD RustTyDatas;
     inner := {| struct_data := tt : StructD RustTyDatas; fields := fs : list (FieldD RustTyDatas) |} |}.

(** The second discriminant is negative: the bits of -1. *)
Definition opt_variants : EnumData RustTyDatas :=
  {| enum_data := {| discr := TyInt I32 |} : EnumD RustTyDatas;
     variants := [variant "None" 0 0 []; variant "Some" 1 4294967295 [field 0]] |}.
Definition opt_ty : RustTy :=
  {| ty_data := {| rust_name := "Opt"; rust_params := GParams_empty |} : TyD RustTyDatas;
     ty_specifics := Ty.EnumLike opt_variants |}.

(** ** The program *)
Definition add_pure (ty : RustTy) (p : ProgramGenData) : ProgramGenData :=
  match TyPureEnc (E:=unit) ty with Ok (o, _) => emit_pure o p | _ => p end.
Definition add_impure (ty : RustTy) (p : ProgramGenData) : ProgramGenData :=
  match TyImpureEnc (E:=unit) ty with Ok (o, _) => emit_impure o p | _ => p end.

Definition types_program : ProgramGenData :=
  foldr (fun ty p => add_impure ty (add_pure ty p)) (mk_program [] [] [] [] [] []) [opt_ty; pair_ty; i32_ty].

(** ** A model of its functions

    A snapshot is an integer or a constructor with the integers of its fields; a reference
    is the path of functions that leads to it. *)
Definition in_i32 (z : Z) : bool := (z <=? 2147483647)%Z && (- z <=? 2147483648)%Z.

Lemma in_i32_spec z : in_i32 z = true <-> in_range (32, true)%Z z.
Proof. unfold in_i32, in_range. rewrite andb_true_iff, !Z.leb_le. change (int_min (32%Z, true)) with (-2147483648)%Z. change (int_max (32%Z, true)) with 2147483647%Z. lia. Qed.

Lemma wrap_in_i32 z : in_i32 (wrap (32, true)%Z z) = true.
Proof. apply in_i32_spec, wrap_in_range. unfold supported. simpl. lia. Qed.

Definition int32 : Type := { z : Z | in_i32 z = true }.
#[export] Instance int32_eq_dec : EqDecision int32.
Proof.
  intros [x Hx] [y Hy]. destruct (decide (x = y)) as [->|Hne].
  - left. by rewrite (proof_irrel Hx Hy).
  - right. by intros [=].
Defined.
Definition to_int32 (z : Z) : int32 := wrap (32, true)%Z z ↾ wrap_in_i32 z.

Definition snap_value : Type := int32 + string * list int32 + list string.
Abbreviation VI32 z := (VDom (inl (inl z))).
Abbreviation VAdt c zs := (VDom (inl (inr (c, zs)))).
Abbreviation VPath p := (VDom (inr p)).

Definition constructors : list (string * nat) := [("s_Pair_cons", 2); ("s_Opt_0_cons", 0); ("s_Opt_1_cons", 1)].
(** destructors: the constructor and the position *)
Definition destructors : list (string * (string * nat)) :=
  [("s_Pair_0", ("s_Pair_cons", 0)); ("s_Pair_1", ("s_Pair_cons", 1)); ("s_Opt_1_0", ("s_Opt_1_cons", 0))].
Definition references : list string := ["s_Pair_field_0"; "s_Pair_field_1"; "s_Opt_1_field_0"; "p_Opt_field_discr"].

Definition find {A} (name : string) (l : list (string * A)) : option A :=
  snd <$> (snd <$> list_find (fun x => x.1 = name) l).

Definition as_int32 (v : value snap_value) : option int32 := match v with VI32 z => Some z | _ => None end.

Definition build (name : string) (args : list (value snap_value)) : option (value snap_value) :=
  n ← find name constructors; zs ← mapM as_int32 args;
  if decide (length zs = n) then Some (VAdt name zs) else None.

Definition interp_fun (name : string) (args : list (value snap_value)) : option (value snap_value) :=
  match find name destructors, args with
  | Some (c, i), [VAdt c' zs] => if decide (c = c') then (fun z => VI32 z) <$> zs !! i else None
  | Some _, _ => None
  | None, [VInt z] => if decide (name = "s_Int_i32_cons") then Some (VI32 (to_int32 z)) else None
  | None, [VPath p] => if decide (name ∈ references) then Some (VPath (name :: p)) else None
  | None, [VI32 z] => if decide (name = "s_Int_i32_value") then Some (VInt (`z)) else build name args
  | None, _ => build name args
  end.

Definition snap_ty (v : snap_value) : TypeKind :=
  match v with
  | inl (inl _) => TDomain "s_Int_i32" []
  | inl (inr (c, _)) => TDomain (if decide (c = "s_Pair_cons") then "s_Pair" else "s_Opt") []
  | inr _ => TRef
  end.

#[export] Instance types_model : ViperModel.
Proof.
  refine {| domain_value := snap_value; domain_value_ty := snap_ty; viper_fun := interp_fun;
            viper_div := i32_model.ediv; viper_mod a b := (a mod Z.abs b)%Z |}.
  - intros a b Hb. unfold i32_model.ediv. pose proof (Z.div_mod a (Z.abs b)). nia.
  - intros a b Hb. apply Z.mod_pos_bound. lia.
Defined.

#[export] Instance heap_model : HeapModel :=
  {| viper_is name v := match v with VAdt c _ => Some (bool_decide (name = c)) | _ => None end;
     abs_pred _ _ _ := None; abs_fun _ _ _ := None |}.

(** The pair (1, 2) at the reference [pair], the variant [Some(3)] at [opt]. *)
Definition pair : list string := ["pair"].
Definition opt : list string := ["opt"].
Definition memory (r : value snap_value) (f : string) : option (value snap_value) :=
  if decide (f = "p_Int_i32_val") then
    match r with
    | VPath p =>
        if decide (p = "s_Pair_field_0" :: pair) then Some (VI32 (to_int32 1))
        else if decide (p = "s_Pair_field_1" :: pair) then Some (VI32 (to_int32 2))
        else if decide (p = "p_Opt_field_discr" :: opt) then Some (VI32 (to_int32 (-1)))
        else if decide (p = "s_Opt_1_field_0" :: opt) then Some (VI32 (to_int32 3))
        else None
    | _ => None
    end
  else None.

(** ** The laws *)
Definition int_prim : TyPurePrimDataInt :=
  {| int_prim_to_snap := {| idn_name := "s_Int_i32_cons"; idn_result := TDomain "s_Int_i32" [] |};
     int_snap_to_prim := {| idn_name := "s_Int_i32_value"; idn_result := TInt |} |}.

#[export] Instance i32_snapshots : IntSnapshots int_prim (in_range (32, true)%Z).
Proof.
  split.
  - intros ρ e z He Hz. simpl. rewrite He. simpl. eexists. split; [done|]. split; [done|].
    change (Some (VInt (D:=snap_value) (wrap (32, true)%Z z)) = Some (VInt z)). do 2 f_equal. apply wrap_id; [by unfold supported; simpl; lia|done].
  - intros v z [_ Hv]. destruct v as [n|c|[[[s Hs]|[c zs]]|p]|]; try discriminate.
    change (Some (VInt (D:=snap_value) s) = Some (VInt z)) in Hv. injection Hv as <-. by apply in_i32_spec.
  - intros v w z [_ Hv] [_ Hw].
    destruct v as [n|c|[[[s Hs]|[c zs]]|p]|]; try discriminate.
    destruct w as [n|c|[[[t Ht]|[c zs]]|p]|]; try discriminate.
    change (Some (VInt (D:=snap_value) s) = Some (VInt z)) in Hv.
    change (Some (VInt (D:=snap_value) t) = Some (VInt z)) in Hw. assert (s = t) as -> by congruence. by rewrite (proof_irrel Hs Ht).
Qed.

Definition result {A} (o : outcome unit (TyPureEncLocal * A)) : option AdtGenData :=
  match o with Ok (l, _) => match local_kind l with LocalAdt adt _ => Some adt | _ => None end | _ => None end.

Lemma interp_constructor n k vs w :
  find n constructors = Some k -> find n destructors = None -> n ∉ references ->
  n <> "s_Int_i32_cons" -> n <> "s_Int_i32_value" -> interp_fun n vs = Some w ->
  exists zs, mapM as_int32 vs = Some zs /\ length zs = k /\ w = VAdt n zs.
Proof.
  intros Hn Hd Hr H1 H2 Hw. unfold interp_fun in Hw. rewrite Hd in Hw.
  assert (build n vs = Some w) as Hb.
  { destruct vs as [|[z|?|[[z|[]]|p]|] []]; try done; by rewrite decide_False in Hw by done. }
  unfold build in Hb. rewrite Hn in Hb. simpl in Hb. apply bind_Some in Hb as (zs & Hzs & Hb).
  case_decide; [|done]. injection Hb as <-. eauto.
Qed.

Lemma opt_constructor c vs w : c = "s_Opt_0_cons" \/ c = "s_Opt_1_cons" -> interp_fun c vs = Some w ->
  exists zs, mapM as_int32 vs = Some zs /\ find c constructors = Some (length zs) /\ w = VAdt c zs.
Proof.
  intros Hc Hw. assert (exists k, find c constructors = Some k) as [k Hk] by (destruct Hc as [->| ->]; by eexists).
  assert (exists zs, mapM as_int32 vs = Some zs /\ length zs = k /\ w = VAdt c zs) as (zs & Hzs & <- & ->).
  { apply interp_constructor; try done; by destruct Hc as [->| ->]; try done; apply (bool_decide_unpack _); vm_compute. }
  eauto.
Qed.

(** What the encoder emits for the enum obeys the laws of algebraic data types. *)
Lemma opt_laws : exists adt, result (TyPureEnc opt_ty) = Some adt /\ adt_laws adt.
Proof.
  eexists. split; [vm_compute; reflexivity|]. split.
  - intros c c' vs w Hc Hc' Hw. apply list_elem_of_In in Hc.
    apply opt_constructor in Hw as (zs & _ & _ & ->); [done|].
    destruct Hc as [<-|[<-|[]]]; [by left|by right].
  - intros c vs w i a v Hc Hw Ha Hv. apply list_elem_of_In in Hc.
    destruct Hc as [<-|[<-|[]]]; [done|]. destruct i; [|done]. injection Ha as <-.
    apply opt_constructor in Hw as (zs & Hzs & Hl & ->); [|by right].
    destruct zs as [|z [|]]; try done. apply mapM_Some in Hzs. inversion Hzs as [|v0 ? ? ? Hv0 _]; subst.
    injection Hv as <-. destruct v0 as [| |[[]|]|]; try done. by injection Hv0 as <-.
Qed.

(** ** The program declares what was emitted *)
Ltac list_member := vm_compute; repeat constructor.
Ltac list_members := let f := fresh "f" in let Hf := fresh "Hf" in intros f Hf; vm_compute in Hf;
  repeat (apply elem_of_cons in Hf as [->|Hf]; [list_member|]); by apply elem_of_nil in Hf.

Lemma types_distinct : names_distinct types_program.
Proof. split; apply (bool_decide_unpack _); vm_compute; exact I. Qed.

Lemma types_declared ty : ty ∈ [i32_ty; pair_ty; opt_ty] ->
  (forall o (pure : TyPure), TyPureEnc (E:=unit) ty = Ok (o, pure) -> declares_pure o types_program) /\
  (forall o (imp : TyImpure), TyImpureEnc (E:=unit) ty = Ok (o, imp) -> declares_impure o types_program).
Proof.
  intros Hty. apply list_elem_of_In in Hty.
  split; intros o x Ho; destruct Hty as [<-|[<-|[<-|[]]]]; vm_compute in Ho; injection Ho as <- <-.
  - split; [list_members|list_member].
  - split; [list_members|]. split; [list_member|done].
  - split; [list_members|]. split; [list_member|]. intros f [= <-]. list_member.
  - split; list_members.
  - split; list_members.
  - split; list_members.
Qed.

Lemma types_encoded ty : ty ∈ [i32_ty; pair_ty; opt_ty] ->
  exists po (pure : TyPure) o (imp : TyImpure),
    TyPureEnc (E:=unit) ty = Ok (po, pure) /\ TyImpureEnc (E:=unit) ty = Ok (o, imp).
Proof.
  intros Hty. apply list_elem_of_In in Hty.
  destruct Hty as [<-|[<-|[<-|[]]]]; do 4 eexists; (split; vm_compute; reflexivity).
Qed.

Lemma opt_discr_ints : discr_ints (E:=unit) types_program opt_variants int_prim (32, true)%Z.
Proof.
  split; [|done|apply _|..].
  - do 2 eexists. split; [vm_compute; reflexivity|]. split; [list_members|list_member].
  - repeat constructor; simpl; lia.
  - apply (bool_decide_unpack _). vm_compute. exact I.
Qed.

Definition no_generics : GenericParams := {| ty_decls := []; const_decls := []; indices := [] |}.

Lemma no_generics_ok : params_ok no_generics.
Proof. apply (bool_decide_unpack _). vm_compute. exact I. Qed.

(** ** Witnesses

    Predicates and functions evaluated to a depth. *)
Lemma Own_at n p vs k : (length <$> pred_at types_program memory n p vs) = Some k ->
  exists F, Own types_program memory p vs F /\ length F = k.
Proof. intros (F & HF & Hl)%fmap_Some. exists F. split; [by exists n|done]. Qed.

Lemma Snap_at n f vs v : bool_decide (fun_at types_program memory n f vs = Some v) = true ->
  Snap types_program memory f vs v.
Proof. intros Hv%bool_decide_eq_true. by exists n. Qed.

Lemma struct_memory_witness :
  (exists F, Own types_program memory "p_Pair" [VPath pair] F /\ length F = 2) /\
  exists po (pure : TyPure) o (imp : TyImpure) us sd,
    TyPureEnc (E:=unit) pair_ty = Ok (po, pure) /\ TyImpureEnc (E:=unit) pair_ty = Ok (o, imp) /\
    field_uses (E:=unit) (ty_params_of pair_ty) (fields pair_fields) = Ok us /\
    ty_specifics pure = Ty.StructLike sd /\ length (fields sd) = length (fields pair_fields) /\
    (forall F, Own types_program memory (ref_to_pred (ty_data imp)) [VPath pair] F <->
       exists Fs, fields_own types_program memory no_generics (VPath pair) [] us (fields sd) Fs /\ separate Fs /\
         F = concat Fs) /\
    (forall v, Snap types_program memory (idn_name (ref_to_snap (ty_data imp))) [VPath pair] v <->
       (exists F, Own types_program memory (ref_to_pred (ty_data imp)) [VPath pair] F) /\
       exists vs, fields_snap types_program memory no_generics (VPath pair) [] us (fields sd) vs /\
         viper_fun (idn_name (struct_data sd)) vs = Some v).
Proof.
  split; [apply (Own_at 3); vm_compute; reflexivity|].
  destruct (types_encoded pair_ty) as (po & pure & o & imp & Hpure & Himp); [list_member|].
  destruct (struct_memory (E:=unit) (VM:=types_model) types_program memory pair_ty pair_fields po pure o imp no_generics (VPath pair) [])
    as (us & sd & H);
    [reflexivity|exact Hpure|exact Himp|vm_compute; reflexivity|apply no_generics_ok|reflexivity|apply types_distinct
    |eapply types_declared; [|exact Hpure]; list_member|eapply types_declared; [|exact Himp]; list_member|].
  exists po, pure, o, imp, us, sd. split; [exact Hpure|]. split; [exact Himp|exact H].
Defined.

Lemma enum_discriminant_witness :
  exists po (pure : TyPure) adt df ed,
    TyPureEnc (E:=unit) opt_ty = Ok (po, pure) /\ local_kind po = LocalAdt adt df /\
    ty_specifics pure = Ty.EnumLike ed /\ length (variants ed) = 2 /\
    forall j v pv vs w, variants opt_variants !! j = Some v -> variants ed !! j = Some pv ->
      viper_fun (idn_name (struct_data (inner pv))) vs = Some w ->
      (exists x, represents int_prim x (wrap (32, true)%Z (discr_val (variant_data v))) /\
         forall y, Snap types_program memory (idn_name (enum_discr_fn (enum_data ed))) [w] y <-> y = x) /\
      forall k fd a, fields (inner pv) !! k = Some fd -> vs !! k = Some a ->
        viper_fun (destr_name (field_read_access fd)) [w] = Some a.
Proof.
  destruct opt_laws as (adt & Hadt & Hlaws).
  destruct (types_encoded opt_ty) as (po & pure & o & imp & Hpure & _); [list_member|].
  rewrite Hpure in Hadt. unfold result in Hadt. destruct (local_kind po) as [|adt' df|] eqn:Hk; [discriminate Hadt| |discriminate Hadt].
  injection Hadt as ->.
  destruct (enum_discriminant (E:=unit) (VM:=types_model) types_program memory opt_ty opt_variants po pure adt df int_prim (32, true)%Z)
    as (ed & H);
    [reflexivity|exact Hpure|apply types_distinct|eapply types_declared; [|exact Hpure]; list_member|exact Hk
    |exact Hlaws|apply opt_discr_ints|].
  exists po, pure, adt, df, ed. split; [exact Hpure|]. split; [exact Hk|exact H].
Defined.

Lemma opt_snap_name o (imp : TyImpure) : TyImpureEnc (E:=unit) opt_ty = Ok (o, imp) ->
  idn_name (ref_to_snap (ty_data imp)) = "p_Opt_snap".
Proof. intros H. vm_compute in H. injection H as <- <-. reflexivity. Qed.

Lemma opt_snapshot : Snap types_program memory "p_Opt_snap" [VPath opt] (VAdt "s_Opt_1_cons" [to_int32 3]).
Proof. apply (Snap_at 5). vm_compute. reflexivity. Qed.

Lemma enum_memory_witness :
  (exists F, Own types_program memory "p_Opt" [VPath opt] F /\ length F = 2) /\
  Snap types_program memory "p_Opt_snap" [VPath opt] (VAdt "s_Opt_1_cons" [to_int32 3]) /\
  exists po (pure : TyPure) o (imp : TyImpure) ed ei,
    TyPureEnc (E:=unit) opt_ty = Ok (po, pure) /\ TyImpureEnc (E:=unit) opt_ty = Ok (o, imp) /\
    ty_specifics pure = Ty.EnumLike ed /\ ty_specifics imp = Ty.EnumLike ei /\ length (variants ed) = 2 /\
    (forall F, Own types_program memory (ref_to_pred (ty_data imp)) [VPath opt] F <->
       exists v pv Fd Fv, (v, pv) ∈ zip (variants opt_variants) (variants ed) /\
         discr_stored types_program memory no_generics (VPath opt) [] ei int_prim (32, true)%Z v Fd /\
         variant_owns (E:=unit) types_program memory (ty_params_of opt_ty) no_generics (VPath opt) [] v pv Fv /\
         Fd ## Fv /\ F = Fd ++ Fv) /\
    (forall w, Snap types_program memory (idn_name (ref_to_snap (ty_data imp))) [VPath opt] w <->
       exists v pv Fd Fv, (v, pv) ∈ zip (variants opt_variants) (variants ed) /\
         discr_stored types_program memory no_generics (VPath opt) [] ei int_prim (32, true)%Z v Fd /\
         variant_owns (E:=unit) types_program memory (ty_params_of opt_ty) no_generics (VPath opt) [] v pv Fv /\
         Fd ## Fv /\ variant_snaps (E:=unit) types_program memory (ty_params_of opt_ty) no_generics (VPath opt) [] v pv w).
Proof.
  split; [apply (Own_at 3); vm_compute; reflexivity|].
  split; [apply opt_snapshot|].
  destruct (types_encoded opt_ty) as (po & pure & o & imp & Hpure & Himp); [list_member|].
  destruct (enum_memory (E:=unit) (VM:=types_model) types_program memory opt_ty opt_variants po pure o imp no_generics (VPath opt) []
    int_prim (32, true)%Z) as (ed & ei & H);
    [reflexivity|exact Hpure|exact Himp|vm_compute; reflexivity|apply no_generics_ok|reflexivity|apply types_distinct
    |eapply types_declared; [|exact Hpure]; list_member|eapply types_declared; [|exact Himp]; list_member
    |apply opt_discr_ints|].
  exists po, pure, o, imp, ed, ei. split; [exact Hpure|]. split; [exact Himp|exact H].
Defined.

Lemma enum_read_discriminant_witness :
  exists po (pure : TyPure) ed v x,
    TyPureEnc (E:=unit) opt_ty = Ok (po, pure) /\ ty_specifics pure = Ty.EnumLike ed /\ v ∈ variants opt_variants /\
    represents int_prim x (wrap (32, true)%Z (discr_val (variant_data v))) /\
    forall y, Snap types_program memory (idn_name (enum_discr_fn (enum_data ed))) [VAdt "s_Opt_1_cons" [to_int32 3]] y
      <-> y = x.
Proof.
  destruct opt_laws as (adt & Hadt & Hlaws).
  destruct (types_encoded opt_ty) as (po & pure & o & imp & Hpure & Himp); [list_member|].
  rewrite Hpure in Hadt. unfold result in Hadt. destruct (local_kind po) as [|adt' df|] eqn:Hk; [discriminate Hadt| |discriminate Hadt].
  injection Hadt as ->.
  destruct (enum_read_discriminant (E:=unit) (VM:=types_model) types_program memory opt_ty opt_variants po pure adt df
    o imp no_generics (VPath opt) [] int_prim (32, true)%Z (VAdt "s_Opt_1_cons" [to_int32 3]))
    as (ed & ei & v & a & Fd & x & Hed & _ & Hv & _ & _ & _ & Hx & Hy);
    [reflexivity|exact Hpure|exact Himp|vm_compute; reflexivity|apply no_generics_ok|reflexivity|apply types_distinct
    |eapply types_declared; [|exact Hpure]; list_member|eapply types_declared; [|exact Himp]; list_member
    |apply opt_discr_ints|exact Hk|exact Hlaws| |].
  { rewrite (opt_snap_name _ _ Himp). apply opt_snapshot. }
  exists po, pure, ed, v, x. split; [exact Hpure|]. split; [exact Hed|]. split; [exact Hv|]. split; [exact Hx|exact Hy].
Defined.
