(* ===== verification/TyCast.v ===== *)
(** * Casts between generic and concrete types

    [prusti-encoder/src/encoders/ty/lifted]: the types of Rust as values of Viper, one
    constructor of the data type [Type] for every type ([ty_constructor.rs]), and the
    type of a snapshot ([typeof.rs]); [ty/generics/casters.rs]: the functions and methods
    that take a snapshot or the memory of a concrete type to that of a type parameter and
    back; [ty/generics/use_casters.rs]: their uses; [ty/use_pure.rs],
    [ty/use_impure.rs]: the walk over a type that finds the casts of its parts, and
    folding and unfolding with casts. *)
From S2P Require Import Prelude Names Vir VirMake VirProgram VirInt TyDomain TyData Primitive TyRust TyUse TyPure TyImpure.

(** ** Types as values *)
Record TyConstructor := {
  ty_constructor : FunctionIdn;
  ty_param_accessors : list AdtDestructorData;
  const_param_accessors : list AdtDestructorData;
}.

Definition UNKNOWN_TYPE_NAME : string := "Unknown_type".
Definition UNKNOWN_TYPE_ID : string := "id".

Definition unknown_type_id_accessor : AdtDestructorData :=
  {| destr_name := UNKNOWN_TYPE_ID; destr_input := TYPE_TYVAL; destr_ty := TInt |}.

(** The data type of types and the domain of the functions that give a snapshot its
    type: [emit_outputs] of both encoders. *)
Definition type_adt (constructors : list AdtConstructorGenData) : AdtGenData :=
  mk_adt "Type" []
    (constructors ++
     [{| constructor_name := UNKNOWN_TYPE_NAME;
         constructor_args := [{| decl_name := UNKNOWN_TYPE_ID; decl_ty := TInt |}] |}]).

Definition typeof_domain {E} (typeof_fns : list DomainFunctionData) : outcome E DomainGenData :=
  name ← ViperIdent_new "TypeOf";
  mk_domain name [] [] typeof_fns None.

(** ** Casters *)

(** [GArgCasters] of pure code: two functions. *)
Record GArgCasters := { cast_make_generic : FunctionIdn; cast_make_concrete : FunctionIdn }.

(** [GArgCasters] of impure code: two methods. *)
Record ImpureCasters := { method_make_generic : string; method_make_concrete : string }.

Record UsedImpureCasters := { used_cast : ImpureCasters; used_cast_args : GArgsTy }.
Inductive ImpureCaster := SomeImpureCasters (c : UsedImpureCasters) | ImpureNoCast.

Definition impure_get (c : ImpureCaster) : option UsedImpureCasters :=
  match c with SomeImpureCasters c => Some c | ImpureNoCast => None end.

Definition cast_stmt (method : string) (args : GArgsTy) (e : Expr) : Stmt :=
  MethodCall [] method (e :: garg_exprs args).

Definition impure_cast_to_callee_ctx (c : ImpureCaster) (e : Expr) : option Stmt :=
  (fun c => cast_stmt (method_make_generic (used_cast c)) (used_cast_args c) e) <$> impure_get c.
Definition impure_cast_to_caller_ctx (c : ImpureCaster) (e : Expr) : option Stmt :=
  (fun c => cast_stmt (method_make_concrete (used_cast c)) (used_cast_args c) e) <$> impure_get c.

(** How the compiler substitutes generic arguments, in the context of which they are. *)
Class Normalize {RT : RustcTypes} := {
  args_context : GArgs -> GParams;
  args_normalize : GArgs -> LazyRustTy -> LazyRustTy;
}.

Section casters.
Context {RT : RustcTypes} {DC : Decompose} {HO : Host} {E : Type}.

(** [require_ref::<TyPureEnc>(ty)?] *)
Definition require_pure_ref (ty : RustTy) : outcome E TyPureRef := output_ref <$> TyPureBuilder_new ty.

Definition TypeOfEnc (ty : RustTy) : outcome E (FunctionIdn * DomainFunctionData) :=
  domain ← require_pure_ref ty;
  name ← sanitize ("s_" +:+ rust_ty_name ty +:+ "_typeof");
  let typeof := {| idn_name := name; idn_result := TYPE_TYVAL |} in
  Ok (typeof, mk_domain_function typeof [pure_snapshot domain] false None).

Definition is_generic_param (ty : RustTy) : bool :=
  match ty_specifics ty with Ty.Param Generic => true | _ => false end.

Definition ty_accessor (base kind : string) (param : LocalDecl) : AdtDestructorData :=
  {| destr_name := "s_" +:+ base +:+ kind +:+ decl_name param; destr_input := TYPE_TYVAL;
     destr_ty := decl_ty param |}.

Definition accessor_arg (d : AdtDestructorData) : LocalDecl :=
  {| decl_name := destr_name d; decl_ty := destr_ty d |}.

Definition TyConstructorEnc (ty : RustTy) : outcome E (TyConstructor * AdtConstructorGenData) :=
  _ ← assert_that "assertion failed: !matches!(&task_key.specifics, TySpecifics::Param(RustParamData::Generic))"
        (negb (is_generic_param ty));
  let base := rust_ty_name ty in
  g ← GenericParamsEnc (ty_params_of ty);
  name ← sanitize ("s_" +:+ base +:+ "_type");
  let tys := ty_accessor base "_typaram_" <$> ty_decls g in
  let consts := ty_accessor base "_constparam_" <$> const_decls g in
  Ok ({| ty_constructor := {| idn_name := name; idn_result := TYPE_TYVAL |};
         ty_param_accessors := tys; const_param_accessors := consts |},
      {| constructor_name := name; constructor_args := accessor_arg <$> tys ++ consts |}).

(** The parameters of the type of a snapshot. *)
Definition ty_param_from_snap (c : TyConstructor) (idx : nat) (typeof : FunctionIdn) (snap : Expr) :
    outcome E Expr :=
  d ← unwrap "index out of bounds" (ty_param_accessors c !! idx); Ok (destr_call d (call typeof [snap])).
Definition const_param_from_snap (c : TyConstructor) (idx : nat) (typeof : FunctionIdn) (snap : Expr) :
    outcome E Expr :=
  d ← unwrap "index out of bounds" (const_param_accessors c !! idx); Ok (destr_call d (call typeof [snap])).

Definition casters_task_ok (param concrete : RustTy) : bool :=
  is_param (ty_specifics param) && negb (is_param (ty_specifics concrete)).

(** The reference that the pure casters emit: their names. *)
Definition casters_ref (param concrete : RustTy) : outcome E GArgCasters :=
  _ ← assert_that "assertion failed: param.specifics.is_param() && !concrete.specifics.is_param()"
        (casters_task_ok param concrete);
  domain ← require_pure_ref concrete;
  make_generic ← sanitize ("make_generic_s_" +:+ rust_ty_name concrete);
  make_concrete ← sanitize ("make_concrete_s_" +:+ rust_ty_name concrete);
  Ok {| cast_make_generic := {| idn_name := make_generic; idn_result := TYPE_PSNAP |};
        cast_make_concrete := {| idn_name := make_concrete; idn_result := pure_snapshot domain |} |}.

(** A generic snapshot is that of the type [c] with the arguments [args]. *)
Definition mk_type_spec (typeof : FunctionIdn) (c : TyConstructor) (param : Expr) (args : list Expr) : Expr :=
  mk_eq_expr (call typeof [param]) (call (ty_constructor c) args).

Definition make_generic_arg (concrete : TypeKind) : LocalDecl := {| decl_name := "self"; decl_ty := concrete |}.
Definition make_concrete_arg : LocalDecl := {| decl_name := "snap"; decl_ty := TYPE_PSNAP |}.

(** [CastersEnc<Pure>] *)
Definition CastersEnc_pure (param concrete : RustTy) : outcome E (GArgCasters * list FunctionGenData) :=
  casters ← casters_ref param concrete;
  '(generic_typeof, _) ← TypeOfEnc param;
  '(concrete_typeof, _) ← TypeOfEnc concrete;
  '(c, _) ← TyConstructorEnc concrete;
  g ← GenericParamsEnc (ty_params_of concrete);
  let make_generic := cast_make_generic casters in
  let make_concrete := cast_make_concrete casters in
  let self_ty := idn_result make_concrete in
  let arg := make_generic_arg self_ty in
  let result := Result_ TYPE_PSNAP in
  ty_params_from_snap ← collect (fun idx => ty_param_from_snap c idx concrete_typeof (mk_local_ex arg))
    (seq 0 (length (ty_decls g)));
  const_params_from_snap ← collect (fun idx => const_param_from_snap c idx concrete_typeof (mk_local_ex arg))
    (seq 0 (length (const_decls g)));
  let params_from_snap := ty_params_from_snap ++ const_params_from_snap in
  make_generic_fn ← lift (mk_function (idn_name make_generic) TYPE_PSNAP (arg :: gen_decls g) []
    [mk_type_spec generic_typeof c result params_from_snap;
     mk_eq_expr (call make_concrete (result :: params_from_snap)) (mk_local_ex arg)] None None);
  let snap := mk_local_ex make_concrete_arg in
  make_concrete_fn ← lift (mk_function (idn_name make_concrete) self_ty (make_concrete_arg :: gen_decls g) []
    [mk_eq_expr (call make_generic (Result_ self_ty :: gen_exprs g)) snap] None None);
  Ok (casters, [make_generic_fn; make_concrete_fn]).

(** [CastersEnc<Impure>] *)
Definition impure_casters_ref (param concrete : RustTy) : outcome E ImpureCasters :=
  _ ← assert_that "assertion failed: param.specifics.is_param() && !concrete.specifics.is_param()"
        (casters_task_ok param concrete);
  make_generic ← sanitize ("make_generic_" +:+ rust_ty_name concrete);
  make_concrete ← sanitize ("make_concrete_" +:+ rust_ty_name concrete);
  Ok {| method_make_generic := make_generic; method_make_concrete := make_concrete |}.

Definition CastersEnc_impure (param concrete : RustTy) : outcome E (ImpureCasters * list MethodGenData) :=
  casters ← impure_casters_ref param concrete;
  '(c, _) ← TyConstructorEnc concrete;
  g ← GenericParamsEnc (ty_params_of concrete);
  pure ← casters_ref param concrete;
  let make_generic_pure := cast_make_generic pure in
  predicate_ref ← impure_ref concrete;
  generic_ref ← impure_ref param;
  let decls := ref_self_decl :: gen_decls g in
  let concrete_snap := call (ref_to_snap predicate_ref) (self_exprs g ref_self) in
  let concrete_predicate := PredicateApp (ref_to_pred predicate_ref) (self_exprs g ref_self) None in
  let lifted_ty_expr := call (ty_constructor c) (gen_exprs g) in
  let generic_predicate := PredicateApp (ref_to_pred generic_ref) [ref_self; lifted_ty_expr] None in
  let generic_snap := call (ref_to_snap generic_ref) [ref_self; lifted_ty_expr] in
  let as_generic := call make_generic_pure (concrete_snap :: gen_exprs g) in
  make_generic ← lift (mk_method_unchecked (method_make_generic casters) decls [] [concrete_predicate]
    [generic_predicate; mk_eq_expr (mk_old_expr as_generic) generic_snap] None);
  make_concrete ← lift (mk_method_unchecked (method_make_concrete casters) decls [] [generic_predicate]
    [concrete_predicate; mk_eq_expr (mk_old_expr generic_snap) as_generic] None);
  Ok (casters, [make_generic; make_concrete]).

(** ** Casts of a use *)
Record RustTyNormalized := { norm_param : RustTy; norm_concrete : RustTyDecomposition }.

Context {NO : Normalize} {EA : EncodeArgs}.

Definition decompose_normalize (ty : LazyRustTy) (args : GArgs) : RustTyDecomposition :=
  decompose (args_normalize args ty) (args_context args).

Definition decompose_compare_normalize (ty : LazyRustTy) (ps : GParams) (args : GArgs) :
    option RustTyNormalized :=
  let param := decomp_ty (decompose ty ps) in
  if is_param (ty_specifics param) then
    let concrete := decompose_normalize ty args in
    if is_param (ty_specifics (decomp_ty concrete)) then None
    else Some {| norm_param := param; norm_concrete := concrete |}
  else None.

Definition GArgsCastEnc_pure (task_key : option RustTyNormalized) : outcome E GArgCaster :=
  match task_key with
  | None => Ok NoCast
  | Some ty =>
      cast ← casters_ref (norm_param ty) (decomp_ty (norm_concrete ty));
      ty_args ← GArgsTyEnc (decomp_args (norm_concrete ty));
      Ok (SomeCasters {| make_generic := cast_make_generic cast; make_concrete := cast_make_concrete cast;
                         cast_ty_args := ty_args |})
  end.

Definition GArgsCastEnc_impure (task_key : option RustTyNormalized) : outcome E ImpureCaster :=
  match task_key with
  | None => Ok ImpureNoCast
  | Some ty =>
      cast ← impure_casters_ref (norm_param ty) (decomp_ty (norm_concrete ty));
      ty_args ← GArgsTyEnc (decomp_args (norm_concrete ty));
      Ok (SomeImpureCasters {| used_cast := cast; used_cast_args := ty_args |})
  end.
End casters.

(** [emit_outputs] of the casters of one type *)
Definition emit_pure_casters (o : list FunctionGenData) (p : ProgramGenData) : ProgramGenData :=
  mk_program (program_fields p) (program_adts p) (program_domains p) (program_predicates p)
    (program_functions p ++ o) (program_methods p).
Definition emit_impure_casters (o : list MethodGenData) (p : ProgramGenData) : ProgramGenData :=
  mk_program (program_fields p) (program_adts p) (program_domains p) (program_predicates p)
    (program_functions p) (program_methods p ++ o).

(** ** The walk over a type: pure code *)
Section pure_walker.
Context {RT : RustcTypes} {DC : Decompose} {HO : Host} {NO : Normalize} {EA : EncodeArgs} {E : Type}.
Variables (args_t : GArgsTy) (args : GArgs).

Definition encode_normalized (inner : LazyRustTy) (ps : GParams) : outcome E GArgCaster :=
  GArgsCastEnc_pure (decompose_compare_normalize inner ps args).

Definition encode_field (ps : GParams) (f : RustFieldData * TyPureFieldData) : outcome E TyUsePureField :=
  caster ← encode_normalized (field_lazy (fst f)) ps;
  Ok {| field_caster := caster; field_args := args_t; field_read := field_read_access (snd f);
        ref_to_field_ref := pure_ref_to_field_ref (snd f) |}.

Definition encode_structlike (data : StructData RustPure) (ps : GParams) : outcome E TyUsePureStruct :=
  fs ← collect (encode_field ps) (fields data);
  Ok {| struct_cons := snd (struct_data data); struct_fields := fs |}.

Definition encode_enumlike (data : EnumData RustPure) (ps : GParams) : outcome E TyUsePureEnum :=
  vs ← collect (fun v => encode_structlike (inner v) ps) (variants data);
  Ok {| enum_snap_to_discr_snap := enum_discr_fn (snd (enum_data data)); enum_variants := vs |}.

Definition encode_array (data : ArrayData RustPure) (ps : GParams) : outcome E TyUsePureArray :=
  caster ← encode_normalized (fst (array_data data)) ps;
  let pure := snd (array_data data) in
  Ok {| array_caster := caster; array_args := args_t; array_index_access := index_access pure;
        array_ref_to_index_ref := pure_ref_to_index_ref pure; array_slice := slice data |}.

Definition encode_reference (data : RefData * TyPureRefData) (ps : GParams) : outcome E TyUsePureReference :=
  referent_caster ← encode_normalized (referent (fst data)) ps;
  metadata_caster ← encode_normalized (metadata (fst data)) ps;
  let pure := snd data in
  Ok {| referent_caster := referent_caster; reference_metadata_caster := metadata_caster;
        reference_prim_to_snap := ref_prim_to_snap pure; reference_deref_access := ref_deref_access pure;
        reference_metadata_access := ref_metadata_access pure; reference_value_access := ref_value_access pure |}.

Definition encode_raw (data : RefData * TyPureRawData) (ps : GParams) : outcome E TyUsePureRaw :=
  metadata_caster ← encode_normalized (metadata (fst data)) ps;
  Ok {| raw_metadata_caster := metadata_caster; raw_prim_to_snap := raw_data_prim_to_snap (snd data);
        TyUse.raw_metadata_access := raw_data_metadata_access (snd data) |}.

Definition encode_builtin (data : RustBuiltinData) (ps : GParams) : outcome E (GArgCaster * GArgCaster) :=
  match data with
  | BuiltinInt | BuiltinReal => Ok (NoCast, NoCast)
  | BuiltinSet elem | BuiltinMultiset elem | BuiltinSeq elem =>
      c ← encode_normalized elem ps; Ok (c, NoCast)
  | BuiltinMap key val => k ← encode_normalized key ps; v ← encode_normalized val ps; Ok (k, v)
  end.

Definition encode_ty (ty : RustPureTy) : outcome E TySpecifics :=
  let ps := rp_rust_params ty in
  match ty_specifics ty with
  | Ty.Param _ => Ok Param
  | Ty.Opaque _ => Ok Opaque_
  | Ty.Raw data => Raw <$> encode_raw data ps
  | Ty.Primitive data => Ok (Primitive_ (snd data))
  | Ty.ImmRef data => ImmRef <$> encode_reference data ps
  | Ty.MutRef data => MutRef <$> encode_reference data ps
  | Ty.ArrayLike data => ArrayLike <$> encode_array data ps
  | Ty.StructLike data => StructLike <$> encode_structlike data ps
  | Ty.EnumLike data => EnumLike <$> encode_enumlike data ps
  | Ty.Builtin data =>
      casters ← encode_builtin (fst data) ps;
      Ok (Builtin {| builtin_pure := snd data; builtin_casters := casters |})
  end.
End pure_walker.

(** [TyUsePureEnc] *)
Definition TyUsePureEnc {RT : RustcTypes} {DC : Decompose} {HO : Host} {NO : Normalize} {EA : EncodeArgs} {E}
    (task_key : RustTyDecomposition) : outcome E TyUsePure :=
  ty_pure_ref ← require_pure_ref (decomp_ty task_key);
  args ← GArgsTyEnc (decomp_args task_key);
  '(_, ty_pure) ← TyPureEnc (decomp_ty task_key);
  ty ← ty_zip (decomp_ty task_key) ty_pure;
  s ← encode_ty args (decomp_args task_key) ty;
  Ok {| snapshot := pure_snapshot ty_pure_ref; use_args := args; unreachable_fn := pure_unreachable ty_pure_ref;
        specifics := s |}.

(** ** The walk over a type: impure code *)
Record TyUseImpureRef := { iref_referent_caster : ImpureCaster; iref_metadata_caster : GArgCaster }.
Record TyUseImpureMutRef := {
  mref_referent_caster : ImpureCaster;
  mref_metadata_caster : GArgCaster;
  mref_args : GArgsTy;
  mref_impure : TyImpureMutRefData;
  mref_ref_to_snap : FunctionIdn;
}.
Record TyUseImpureRaw := { iraw_metadata_caster : GArgCaster }.
Record TyUseImpureArrayData := { iarray_args : GArgsTy; iarray_impure : TyImpureArrayData; element_caster : ImpureCaster }.
Record TyUseImpureStructData := { istruct_args : GArgsTy; istruct_pred : string }.
Record TyUseImpureField := { ifield_caster : ImpureCaster; ifield_args : GArgsTy; ifield_ref : FunctionIdn }.

(** [TyUseImpureImmRef] and the data of a raw pointer keep only their casters, the
    data of an enum its discriminant. *)
Definition UseImpureTyDatas : TyDatas :=
  {| TyD := TyUseImpureData; ParamD := unit; OpaqueD := unit; ArrayD := TyUseImpureArrayData; PrimitiveD := unit;
     ImmRefD := TyUseImpureRef; MutRefD := TyUseImpureMutRef; RawD := TyUseImpureRaw;
     StructD := TyUseImpureStructData; FieldD := TyUseImpureField; EnumD := TyImpureEnumData; VariantD := unit;
     BuiltinD := unit |}.

Definition TyUseImpure : Type := TyData UseImpureTyDatas.

(** The types of the compiler zipped with their memory. *)
Abbreviation RustImpure := (zip_datas RustTyDatas ImpureTyDatas).

Section impure_walker.
Context {RT : RustcTypes} {DC : Decompose} {HO : Host} {NO : Normalize} {EA : EncodeArgs} {E : Type}.
Variables (args_t : GArgsTy) (args : GArgs).

Definition impure_encode_normalized (inner : LazyRustTy) (ps : GParams) : outcome E ImpureCaster :=
  GArgsCastEnc_impure (decompose_compare_normalize inner ps args).

Definition impure_encode_array (data : ArrayData RustImpure) (ps : GParams) :
    outcome E (ArrayData UseImpureTyDatas) :=
  caster ← impure_encode_normalized (fst (array_data data)) ps;
  Ok {| array_data := {| iarray_args := args_t; iarray_impure := snd (array_data data); element_caster := caster |}
          : ArrayD UseImpureTyDatas; slice := slice data |}.

Definition impure_encode_field (ps : GParams) (f : RustFieldData * FunctionIdn) : outcome E TyUseImpureField :=
  caster ← impure_encode_normalized (field_lazy (fst f)) ps;
  Ok {| ifield_caster := caster; ifield_args := args_t; ifield_ref := snd f |}.

Definition impure_encode_structlike (data : StructData RustImpure) (pred : string) (ps : GParams) :
    outcome E (StructData UseImpureTyDatas) :=
  fs ← collect (impure_encode_field ps) (fields data);
  Ok {| struct_data := {| istruct_args := args_t; istruct_pred := pred |} : StructD UseImpureTyDatas;
        fields := fs : list (FieldD UseImpureTyDatas) |}.

Definition impure_encode_enumlike (data : EnumData RustImpure) (ps : GParams) :
    outcome E (EnumData UseImpureTyDatas) :=
  vs ← collect (fun v => s ← impure_encode_structlike (inner v) (snd (variant_data v)) ps;
                         Ok {| variant_data := tt : VariantD UseImpureTyDatas; inner := s |}) (variants data);
  Ok {| enum_data := snd (enum_data data) : EnumD UseImpureTyDatas; variants := vs |}.

Definition impure_encode_specifics (ty : TyData RustImpure) : outcome E (Ty.TySpecifics UseImpureTyDatas) :=
  let ps := rust_params (fst (ty_data ty)) in
  let impure := snd (ty_data ty) in
  match ty_specifics ty with
  | Ty.Param _ => Ok (Ty.Param (D:=UseImpureTyDatas) tt)
  | Ty.Opaque _ => Ok (Ty.Opaque (D:=UseImpureTyDatas) tt)
  | Ty.Primitive _ => Ok (Ty.Primitive (D:=UseImpureTyDatas) tt)
  | Ty.ImmRef data =>
      referent ← impure_encode_normalized (referent (fst data)) ps;
      metadata ← encode_normalized args (metadata (fst data)) ps;
      Ok (Ty.ImmRef (D:=UseImpureTyDatas) {| iref_referent_caster := referent; iref_metadata_caster := metadata |})
  | Ty.MutRef data =>
      referent ← impure_encode_normalized (referent (fst data)) ps;
      metadata ← encode_normalized args (metadata (fst data)) ps;
      Ok (Ty.MutRef (D:=UseImpureTyDatas)
            {| mref_referent_caster := referent; mref_metadata_caster := metadata; mref_args := args_t;
               mref_impure := snd data; mref_ref_to_snap := ref_to_snap impure |})
  | Ty.Raw data =>
      metadata ← encode_normalized args (metadata (fst data)) ps;
      Ok (Ty.Raw (D:=UseImpureTyDatas) {| iraw_metadata_caster := metadata |})
  | Ty.ArrayLike data => Ty.ArrayLike <$> impure_encode_array data ps
  | Ty.StructLike data => Ty.StructLike <$> impure_encode_structlike data (ref_to_pred impure) ps
  | Ty.EnumLike data => Ty.EnumLike <$> impure_encode_enumlike data ps
  | Ty.Builtin _ => Ok (Ty.Builtin (D:=UseImpureTyDatas) tt)
  end.

Definition impure_encode_ty (ty : TyData RustImpure) (maybe_inhabited : bool) : outcome E TyUseImpure :=
  specifics ← impure_encode_specifics ty;
  Ok {| ty_data := {| impure_args := args_t; impure := snd (ty_data ty); use_maybe_inhabited := maybe_inhabited |}
          : TyD UseImpureTyDatas;
        ty_specifics := specifics |}.
End impure_walker.

(** [TyUseImpureEnc]; [TyImpure.TyUseImpureEnc] is the part of its result that types
    need of their fields. *)
Definition encode_use_impure {RT : RustcTypes} {DC : Decompose} {HO : Host} {NO : Normalize} {EA : EncodeArgs} {E}
    (task_key : RustTyDecomposition) : outcome E TyUseImpure :=
  '(_, ty_impure) ← TyImpureEnc (decomp_ty task_key);
  args ← GArgsTyEnc (decomp_args task_key);
  inhabited ← unwrap "impure type encoding requires a decomposition with known inhabitedness" (maybe_inhabited task_key);
  ty ← ty_zip (decomp_ty task_key) ty_impure;
  impure_encode_ty args (decomp_args task_key) ty inhabited.

(** ** Folding and unfolding *)
Definition pred_app (target : string) (args : GArgsTy) (r : Expr) : string * list Expr :=
  (target, r :: garg_exprs args).

Definition use_field_ref (f : TyUseImpureField) (self_ref : Expr) : Expr :=
  call (ifield_ref f) (self_ref :: garg_exprs (ifield_args f)).
Definition field_to_caller (self_ref : Expr) (f : TyUseImpureField) : option Stmt :=
  impure_cast_to_caller_ctx (ifield_caster f) (use_field_ref f self_ref).
Definition field_to_callee (self_ref : Expr) (f : TyUseImpureField) : option Stmt :=
  impure_cast_to_callee_ctx (ifield_caster f) (use_field_ref f self_ref).

Definition struct_app (s : StructData UseImpureTyDatas) (self_ref : Expr) : string * list Expr :=
  pred_app (istruct_pred (struct_data s)) (istruct_args (struct_data s)) self_ref.

Definition struct_fold (s : StructData UseImpureTyDatas) (self_ref : Expr) (perm : option Expr) : list Stmt :=
  let '(p, es) := struct_app s self_ref in omap (field_to_callee self_ref) (fields s) ++ [Fold_ p es perm].
Definition struct_unfold (s : StructData UseImpureTyDatas) (self_ref : Expr) (perm : option Expr) : list Stmt :=
  let '(p, es) := struct_app s self_ref in Unfold_ p es perm :: omap (field_to_caller self_ref) (fields s).

Definition array_index_ref (a : ArrayData UseImpureTyDatas) (self_ref index : Expr) : Expr :=
  call (impure_ref_to_index_ref (iarray_impure (array_data a)))
    ([self_ref; index] ++ get_ty (iarray_args (array_data a))).

Definition mutref_deref (m : TyUseImpureMutRef) (self_ref : Expr) (label : option OldLabel) : Expr :=
  let snap := call (mref_ref_to_snap m) (self_ref :: garg_exprs (mref_args m)) in
  maybe_apply_label (destr_call (ref_deref_access (mutref_pure (mref_impure m))) snap) label.

Definition prim_to_snap_assign (m : TyUseImpureMutRef) (self_ref metadata : Expr) : Expr :=
  call (arbitrary_value (mref_impure m)) [self_ref; cast_to_callee_ctx (mref_metadata_caster m) metadata].

Definition mutref_fold (m : TyUseImpureMutRef) (self_ref : Expr) (label : option OldLabel) : option Stmt :=
  impure_cast_to_callee_ctx (mref_referent_caster m) (mutref_deref m self_ref label).
Definition mutref_unfold (m : TyUseImpureMutRef) (self_ref : Expr) (label : option OldLabel) : option Stmt :=
  impure_cast_to_caller_ctx (mref_referent_caster m) (mutref_deref m self_ref label).

Definition enum_discr (e : EnumData UseImpureTyDatas) (self_ref : Expr) : Expr :=
  call (enum_discr_ref (enum_data e)) [self_ref].

Section folding.
Context {E : Type}.

Definition use_variant (t : TyUseImpure) (vid : nat) : outcome E (StructData UseImpureTyDatas) :=
  match ty_specifics t with
  | Ty.EnumLike e => v ← unwrap "index out of bounds" (variants e !! vid); Ok (inner v)
  | _ => Panic "expected enum-like"
  end.

(** The call of a method of an array with the arguments of the use. *)
Definition array_method (t : TyUseImpure) (method : string) (index self_ref : Expr) : Stmt :=
  MethodCall [] method (index :: self_ref :: garg_exprs (impure_args (ty_data t))).

Definition use_fold (t : TyUseImpure) (variant : option nat) (self_ref : Expr) (index : option Expr)
    (perm : option Expr) (label : option OldLabel) : outcome E (list Stmt) :=
  match variant with
  | Some vid => s ← use_variant t vid; Ok (struct_fold s self_ref perm)
  | None =>
      match ty_specifics t with
      | Ty.Param _ | Ty.Primitive _ | Ty.Builtin _ => Panic "internal error: entered unreachable code"
      | Ty.Opaque _ => Panic "cannot fold opaque type"
      | Ty.ArrayLike a =>
          index ← unwrap "cannot fold array type without index" index;
          Ok (option_list (impure_cast_to_callee_ctx (element_caster (array_data a)) (array_index_ref a self_ref index))
              ++ [array_method t (method_fold (iarray_impure (array_data a))) index self_ref])
      | Ty.ImmRef _ | Ty.Raw _ => Ok []
      | Ty.MutRef m => Ok (option_list (mutref_fold m self_ref label))
      | Ty.StructLike s => Ok (struct_fold s self_ref perm)
      | Ty.EnumLike _ => Ok [Fold_ (ref_to_pred (impure (ty_data t))) (self_ref :: garg_exprs (impure_args (ty_data t))) perm]
      end
  end.

Definition use_unfold (t : TyUseImpure) (variant : option nat) (self_ref : Expr) (index : option Expr)
    (perm : option Expr) (old : option OldLabel) : outcome E (list Stmt) :=
  match variant with
  | Some vid => s ← use_variant t vid; Ok (struct_unfold s self_ref perm)
  | None =>
      match ty_specifics t with
      | Ty.Param _ | Ty.Primitive _ | Ty.Builtin _ => Panic "internal error: entered unreachable code"
      | Ty.Opaque _ => Panic "cannot unfold opaque type"
      | Ty.ArrayLike a =>
          index ← unwrap "cannot unfold array type without index" index;
          Ok (array_method t (method_unfold (iarray_impure (array_data a))) index self_ref
              :: option_list (impure_cast_to_caller_ctx (element_caster (array_data a))
                                (array_index_ref a self_ref index)))
      | Ty.ImmRef _ | Ty.Raw _ => Ok []
      | Ty.MutRef m => Ok (option_list (mutref_unfold m self_ref old))
      | Ty.StructLike s => Ok (struct_unfold s self_ref perm)
      | Ty.EnumLike _ => Ok [Unfold_ (ref_to_pred (impure (ty_data t))) (self_ref :: garg_exprs (impure_args (ty_data t))) perm]
      end
  end.
End folding.
