(* ===== verification/TyCastSound.v ===== *)
(** * Casts between generic and concrete types: correctness

    What the contracts that [CastersEnc] emits say of the functions and methods they
    describe. A contract of a function holds if the postconditions are true of every value
    of the function ([contract]); the contract of a method relates two heaps ([called]).
    From the contracts and the laws of the data type of types: the pure casters are inverse
    to each other whatever the generic arguments, reading a field of a structure gives back
    what it was built from, the methods keep the snapshot of the memory they cast, and no
    generic snapshot is in the domain of the casters of two types. *)
From S2P Require Import Prelude Names Vir VirMake VirProgram VirSem VirInt VirReify TyDomain TyData Primitive TyRust TyUse TyPure TyImpure TyHeap TySpec TyMemory TyEnum TyCast.

(** ** Contracts of functions *)

(** A postcondition, with the result as a variable that no parameter is called like. *)
Fixpoint result_local (e : Expr) : Expr :=
  match e with
  | Result_ ty => Local "result" ty
  | UnOp k e => UnOp k (result_local e)
  | BinOp k l r => BinOp k (result_local l) (result_local r)
  | Ternary c t e => Ternary (result_local c) (result_local t) (result_local e)
  | FuncApp f args ty tys => FuncApp f (List.map result_local args) ty tys
  | AdtDestructor e name i t => AdtDestructor (result_local e) name i t
  | AdtDiscriminator e name => AdtDiscriminator (result_local e) name
  | e => e
  end.

Section contracts.
Context {VM : ViperModel}.
Abbreviation val := (value domain_value).
Abbreviation env := (gmap string val).

Definition result_env (f : FunctionGenData) (vs : list val) (v : val) : env :=
  <["result" := v]> (bind_args (function_args f) vs).

Definition contract (f : FunctionGenData) : Prop :=
  forall vs v, viper_fun (function_name f) vs = Some v ->
    length vs = length (function_args f) /\
    Forall (fun post => eval (result_env f vs v) (result_local post) = Some (VBool true)) (function_posts f).

(** The parameters have different names, which are not those of the other variables. *)
Definition cast_params_ok (g : GenericParams) : Prop :=
  NoDup ("result"%string :: "self"%string :: "snap"%string :: (decl_name <$> gen_decls g)).

Lemma eval_equation (ρ : env) a b :
  eval ρ (mk_eq_expr a b) = Some (VBool true) <-> exists v, eval ρ a = Some v /\ eval ρ b = Some v.
Proof.
  split; [apply eval_eq_true|]. intros (v & Ha & Hb). simpl. rewrite Ha, Hb. simpl.
  by rewrite bool_decide_eq_true_2.
Qed.

Lemma eval_call_list (ρ : env) f es : eval ρ (call f es) = vs ← eval_list ρ es; viper_fun (idn_name f) vs.
Proof. apply eval_FuncApp. Qed.

(** The variables of a contract. *)
Lemma eval_decls (d : LocalDecl) ds v x ts :
  "result"%string ∉ (decl_name <$> ds) -> NoDup (decl_name <$> ds) -> length ts = length ds ->
  eval_list (<["result" := v]> (bind_args (d :: ds) (x :: ts))) (mk_local_ex <$> ds) = Some ts \/
  decl_name d ∈ (decl_name <$> ds).
Proof.
  intros Hr Hnd Hl. destruct (decide (decl_name d ∈ (decl_name <$> ds))) as [|Hd]; [by right|left].
  apply eval_list_Forall2, Forall2_same_length_lookup. rewrite length_fmap. split; [done|].
  intros i e w He Hw. apply list_lookup_fmap_Some in He as (c & -> & Hc). simpl.
  rewrite lookup_insert_ne.
  - apply (bind_args_lookup (d :: ds) (x :: ts) (S i)); [by constructor|done..].
  - intros Heq. apply Hr. rewrite Heq. apply (list_elem_of_fmap_2 decl_name). by eapply list_elem_of_lookup_2.
Qed.

Lemma cast_env g (d : LocalDecl) v x ts :
  cast_params_ok g -> decl_name d = "self"%string \/ decl_name d = "snap"%string ->
  length ts = length (gen_decls g) ->
  let ρ := <["result" := v]> (bind_args (d :: gen_decls g) (x :: ts)) in
  ρ !! "result" = Some v /\ ρ !! decl_name d = Some x /\ eval_list ρ (gen_exprs g) = Some ts.
Proof.
  unfold cast_params_ok. rewrite !NoDup_cons, !not_elem_of_cons.
  intros ((_ & _ & Hr) & (_ & Hself) & Hsnap & Hnd) Hd Hl.
  split_and!.
  - apply lookup_insert_eq.
  - rewrite lookup_insert_ne by (by destruct Hd as [->| ->]). unfold bind_args. simpl. apply lookup_insert_eq.
  - unfold gen_exprs, ty_exprs, const_exprs. rewrite <- fmap_app.
    destruct (eval_decls d (gen_decls g) v x ts) as [He|He]; [done..|exact He|].
    exfalso. by destruct Hd as [Hd|Hd]; rewrite Hd in He.
Qed.

Lemma result_local_decls ds : List.map result_local (mk_local_ex <$> ds) = mk_local_ex <$> ds.
Proof. induction ds as [|d ds IH]; [done|]. rewrite fmap_cons. cbn [List.map]. by rewrite IH. Qed.

Lemma result_local_gen g : List.map result_local (gen_exprs g) = gen_exprs g.
Proof. unfold gen_exprs, ty_exprs, const_exprs. rewrite <- fmap_app. apply result_local_decls. Qed.
End contracts.

(** ** What the encoders emit *)
Section emitted.
Context {RT : RustcTypes} {DC : Decompose} {HO : Host} {E : Type}.

(** The accessors of a type constructor, which are the arguments of its declaration. *)
Definition accessors (c : TyConstructor) : list AdtDestructorData :=
  ty_param_accessors c ++ const_param_accessors c.

Lemma TyConstructorEnc_inv ty c ctor : TyConstructorEnc (E:=E) ty = Ok (c, ctor) ->
  exists g, GenericParamsEnc (E:=E) (ty_params_of ty) = Ok g /\
    length (ty_param_accessors c) = length (ty_decls g) /\
    length (const_param_accessors c) = length (const_decls g) /\
    constructor_name ctor = idn_name (ty_constructor c) /\
    constructor_args ctor = accessor_arg <$> accessors c.
Proof.
  unfold TyConstructorEnc. intros H. inv_outcome. simplify_eq/=. eexists. split; [done|].
  by rewrite !length_fmap.
Qed.

Lemma collect_lookup {A B} msg (f : A -> B) (l : list A) n : n = length l ->
  collect (E:=E) (fun i => x ← unwrap msg (l !! i); Ok (f x)) (seq 0 n) = Ok (f <$> l).
Proof.
  intros ->. apply collect_Ok, Forall2_same_length_lookup. rewrite length_seq, length_fmap. split; [done|].
  intros i j y [-> Hi]%lookup_seq Hy. apply list_lookup_fmap_Some in Hy as (x & -> & Hx). simpl.
  by rewrite Hx.
Qed.

(** The parameters of the type of the snapshot [e]. *)
Definition params_from_snap (c : TyConstructor) (typeof : FunctionIdn) (e : Expr) : list Expr :=
  (fun d => destr_call d (call typeof [e])) <$> accessors c.

(** The contracts of the two functions. *)
Record casters_emitted (cs : GArgCasters) (generic_typeof concrete_typeof : FunctionIdn) (c : TyConstructor)
    (g : GenericParams) (mg mc : FunctionGenData) : Prop := {
  ce_generic : mg = {|
    function_name := idn_name (cast_make_generic cs);
    function_args := make_generic_arg (idn_result (cast_make_concrete cs)) :: gen_decls g;
    function_ret := TYPE_PSNAP; function_pres := [];
    function_posts :=
      let self := mk_local_ex (make_generic_arg (idn_result (cast_make_concrete cs))) in
      let args := params_from_snap c concrete_typeof self in
      [mk_type_spec generic_typeof c (Result_ TYPE_PSNAP) args;
       mk_eq_expr (call (cast_make_concrete cs) (Result_ TYPE_PSNAP :: args)) self];
    function_decreases := DecNone; function_expr := None |};
  ce_concrete : mc = {|
    function_name := idn_name (cast_make_concrete cs);
    function_args := make_concrete_arg :: gen_decls g;
    function_ret := idn_result (cast_make_concrete cs); function_pres := [];
    function_posts :=
      [mk_eq_expr (call (cast_make_generic cs) (Result_ (idn_result (cast_make_concrete cs)) :: gen_exprs g))
         (mk_local_ex make_concrete_arg)];
    function_decreases := DecNone; function_expr := None |};
}.

Lemma CastersEnc_pure_inv param concrete cs fns : CastersEnc_pure (E:=E) param concrete = Ok (cs, fns) ->
  exists gt gd ct cd c ctor g mg mc,
    TypeOfEnc (E:=E) param = Ok (gt, gd) /\ TypeOfEnc (E:=E) concrete = Ok (ct, cd) /\
    TyConstructorEnc (E:=E) concrete = Ok (c, ctor) /\ GenericParamsEnc (E:=E) (ty_params_of concrete) = Ok g /\
    casters_ref (E:=E) param concrete = Ok cs /\ fns = [mg; mc] /\ casters_emitted cs gt ct c g mg mc.
Proof.
  unfold CastersEnc_pure. intros H.
  destruct (casters_ref param concrete) as [cs'| |] eqn:Hcs; [|done..]. cbn [mbind outcome_bind] in H.
  destruct (TypeOfEnc param) as [[gt gd]| |]; [|done..]. cbn [mbind outcome_bind] in H.
  destruct (TypeOfEnc concrete) as [[ct cd]| |]; [|done..]. cbn [mbind outcome_bind] in H.
  destruct (TyConstructorEnc concrete) as [[c ctor]| |] eqn:Hc; [|done..]. cbn [mbind outcome_bind] in H.
  destruct (GenericParamsEnc (ty_params_of concrete)) as [g| |] eqn:Hg; [|done..]. cbn [mbind outcome_bind] in H.
  destruct (TyConstructorEnc_inv _ _ _ Hc) as (g' & Hg' & Ht & Hk & _). assert (g' = g) as -> by congruence.
  unfold ty_param_from_snap, const_param_from_snap in H.
  rewrite (collect_lookup _ (fun d => destr_call d _)) in H by done. cbn [mbind outcome_bind] in H.
  rewrite (collect_lookup _ (fun d => destr_call d _)) in H by done. cbn [mbind outcome_bind] in H.
  rewrite <- fmap_app in H. cbn in H. injection H as <- <-.
  do 9 eexists. do 6 (split; [done|]). split; reflexivity.
Qed.
End emitted.

(** ** The pure casters *)
Section pure_casters.
Context {VM : ViperModel} {HM : HeapModel}.
Abbreviation val := (value domain_value).
Abbreviation env := (gmap string val).
Context (cs : GArgCasters) (gt ct : FunctionIdn) (c : TyConstructor) (g : GenericParams) (mg mc : FunctionGenData).
Hypothesis emitted : casters_emitted cs gt ct c g mg mc.
Hypothesis g_ok : cast_params_ok g.
Hypothesis mg_ok : contract mg.
Hypothesis mc_ok : contract mc.

(** The arguments of the type of a concrete snapshot. *)
Definition snap_args (x : val) : option (list val) :=
  mapM (fun d => t ← viper_fun (idn_name ct) [x]; viper_fun (destr_name d) [t]) (accessors c).

Lemma eval_params_from_snap (ρ : env) ty x : ρ !! "self"%string = Some x ->
  eval_list ρ (List.map result_local (params_from_snap c ct (Local "self" ty))) = snap_args x.
Proof.
  intros Hx. unfold params_from_snap, snap_args. induction (accessors c) as [|d l IH]; [done|].
  rewrite fmap_cons. cbn -[eval]. rewrite IH. cbn. rewrite Hx. simpl.
  by destruct (viper_fun (idn_name ct) [x]).
Qed.

Lemma mg_post x ts r : viper_fun (idn_name (cast_make_generic cs)) (x :: ts) = Some r ->
  exists us t, snap_args x = Some us /\ viper_fun (idn_name gt) [r] = Some t /\
    viper_fun (idn_name (ty_constructor c)) us = Some t /\
    viper_fun (idn_name (cast_make_concrete cs)) (r :: us) = Some x.
Proof.
  intros Hr. destruct emitted as [-> _]. destruct (mg_ok (x :: ts) r Hr) as [Hl Hposts]. simpl in Hl.
  destruct (cast_env g (make_generic_arg (idn_result (cast_make_concrete cs))) r x ts)
    as (Hres & Hself & _); [done|by left|lia|].
  apply Forall_cons in Hposts as [Hspec [Hback _]%Forall_cons].
  unfold result_env in *. cbn [function_args] in *.
  set (ρ := <["result" := r]> _) in *. cbn [make_generic_arg decl_name] in Hself.
  unfold mk_type_spec, mk_eq_expr, mk_bin_op_expr_inner in *. cbn [result_local call List.map] in *.
  apply eval_equation in Hspec as (t & Hg & Hc). apply eval_equation in Hback as (x' & Hb & Hx').
  rewrite eval_FuncApp in Hg, Hc, Hb. unfold mk_local_ex in *. cbn [decl_name make_generic_arg] in *.
  cbn [eval_list] in Hg, Hb. simpl in Hx'. rewrite Hself in Hx'. injection Hx' as ->.
  rewrite eval_params_from_snap with (x := x') in Hc, Hb by done.
  cbn [eval] in Hg, Hb. rewrite Hres in Hg, Hb. cbn [mbind option_bind] in Hg, Hb.
  apply bind_Some in Hc as (us & Hus & Hc). rewrite Hus in Hb. eauto 10.
Qed.

Lemma mc_post r ts y : viper_fun (idn_name (cast_make_concrete cs)) (r :: ts) = Some y ->
  viper_fun (idn_name (cast_make_generic cs)) (y :: ts) = Some r.
Proof.
  intros Hy. destruct emitted as [_ ->]. destruct (mc_ok (r :: ts) y Hy) as [Hl Hposts]. simpl in Hl.
  destruct (cast_env g make_concrete_arg y r ts) as (Hres & Hsnap & Hgen); [done|by right|lia|].
  apply Forall_cons in Hposts as [Hback _].
  unfold result_env in *. cbn [function_args] in *.
  set (ρ := <["result" := y]> _) in *. cbn [make_concrete_arg decl_name] in Hsnap.
  unfold mk_eq_expr, mk_bin_op_expr_inner in *. cbn [result_local call List.map] in *.
  apply eval_equation in Hback as (r' & Hb & Hr').
  rewrite eval_FuncApp, result_local_gen in Hb. cbn [eval_list eval] in Hb, Hr'.
  unfold mk_local_ex in Hr'. cbn [result_local eval decl_name make_concrete_arg] in Hr'.
  rewrite Hsnap in Hr'. injection Hr' as ->. rewrite Hres in Hb. cbn [mbind option_bind] in Hb.
  by rewrite Hgen in Hb.
Qed.

(** The constructors of the data type of types. *)
Context (outs : list AdtConstructorGenData) (ctor : AdtConstructorGenData).
Hypothesis laws : adt_laws (type_adt outs).
Hypothesis ctor_out : ctor ∈ outs.
Hypothesis ctor_name : constructor_name ctor = idn_name (ty_constructor c).
Hypothesis ctor_args : constructor_args ctor = accessor_arg <$> accessors c.

Lemma ctor_declared : ctor ∈ adt_constructors_of (type_adt outs).
Proof. apply elem_of_app. by left. Qed.

Lemma snap_args_length x us : snap_args x = Some us -> length us = length (accessors c).
Proof. intros Hus%mapM_Some. symmetry. by eapply Forall2_length. Qed.

(** The constructor of a type is injective. *)
Lemma ctor_inj us ws t : viper_fun (idn_name (ty_constructor c)) us = Some t ->
  viper_fun (idn_name (ty_constructor c)) ws = Some t ->
  length us = length (accessors c) -> length ws = length (accessors c) -> us = ws.
Proof.
  intros Hus Hws Hlu Hlw. apply list_eq_same_length with (length (accessors c)); [done..|].
  intros i u w Hi Hu Hw. destruct (lookup_lt_is_Some_2 (accessors c) i Hi) as [d Hd].
  assert (constructor_args ctor !! i = Some (accessor_arg d)) as Harg.
  { rewrite ctor_args. by rewrite list_lookup_fmap, Hd. }
  rewrite <- ctor_name in Hus, Hws.
  pose proof (adt_destr _ laws _ _ _ _ _ _ ctor_declared Hus Harg Hu).
  pose proof (adt_destr _ laws _ _ _ _ _ _ ctor_declared Hws Harg Hw). congruence.
Qed.

(** The generic snapshot determines the concrete one, whatever the generic arguments. *)
Lemma mg_inj x y ts us r : viper_fun (idn_name (cast_make_generic cs)) (x :: ts) = Some r ->
  viper_fun (idn_name (cast_make_generic cs)) (y :: us) = Some r -> x = y.
Proof.
  intros (xs & t & Hxs & Ht & Hc & Hx)%mg_post (ys & t' & Hys & Ht' & Hc' & Hy)%mg_post.
  assert (t' = t) as -> by congruence. assert (xs = ys) as ->; [|congruence].
  eapply ctor_inj; [done..|by eapply snap_args_length|by eapply snap_args_length].
Qed.

Lemma cast_back x ts r us y : viper_fun (idn_name (cast_make_generic cs)) (x :: ts) = Some r ->
  viper_fun (idn_name (cast_make_concrete cs)) (r :: us) = Some y -> y = x.
Proof. intros Hr Hy%mc_post. by eapply mg_inj. Qed.
End pure_casters.

Section claims.
Context {VM : ViperModel} {HM : HeapModel} {RT : RustcTypes} {DC : Decompose} {HO : Host} {E : Type}.
Abbreviation val := (value domain_value).

(** The contracts of the casters between a type parameter and [concrete] hold, and the
    constructor of [concrete] is one of the data type of types. *)
Record casts_hold (outs : list AdtConstructorGenData) (param concrete : RustTy) (cs : GArgCasters)
    (gt ct : FunctionIdn) (c : TyConstructor) : Prop := {
  ch_casters : exists fns, CastersEnc_pure (E:=E) param concrete = Ok (cs, fns) /\ Forall contract fns;
  ch_generic : exists d, TypeOfEnc (E:=E) param = Ok (gt, d);
  ch_concrete : exists d, TypeOfEnc (E:=E) concrete = Ok (ct, d);
  ch_constructor : exists ctor, TyConstructorEnc (E:=E) concrete = Ok (c, ctor) /\ ctor ∈ outs;
  ch_params : exists g, GenericParamsEnc (E:=E) (ty_params_of concrete) = Ok g /\ cast_params_ok g;
}.

Lemma casts_hold_inv outs param concrete cs gt ct c : casts_hold outs param concrete cs gt ct c ->
  exists g mg mc ctor, casters_emitted cs gt ct c g mg mc /\ cast_params_ok g /\ contract mg /\ contract mc /\
    casters_ref (E:=E) param concrete = Ok cs /\
    ctor ∈ outs /\ constructor_name ctor = idn_name (ty_constructor c) /\
    constructor_args ctor = accessor_arg <$> accessors c.
Proof.
  intros [(fns & Henc & Hok) (gd & Hgt) (cd & Hct) (ctor & Hctor & Hin) (g & Hg & Hgok)].
  destruct (CastersEnc_pure_inv _ _ _ _ Henc)
    as (gt' & gd' & ct' & cd' & c' & ctor' & g' & mg & mc & Hgt' & Hct' & Hc' & Hg' & Href & -> & Hem).
  apply Forall_cons in Hok as [Hmg [Hmc _]%Forall_cons].
  destruct (TyConstructorEnc_inv _ _ _ Hctor) as (g'' & _ & _ & _ & Hname & Hargs). simplify_eq.
  exists g, mg, mc, ctor. split_and!; congruence || done.
Qed.

(** C14: Pure casters. If the contracts that are emitted for the casters of a type
    hold and types are a data type, the casters are inverse to each other: a generic
    snapshot made from a concrete one has the type of the concrete one and is turned back
    into it by the arguments of that type, no other arguments turn it into anything else;
    and a concrete snapshot made from a generic one, of the type that the generic one has,
    is turned back into it. *)
Theorem pure_casters_inverse outs param concrete cs gt ct c :
  casts_hold outs param concrete cs gt ct c -> adt_laws (type_adt outs) ->
  (forall x ts r, viper_fun (idn_name (cast_make_generic cs)) (x :: ts) = Some r ->
     (exists us t, snap_args ct c x = Some us /\ viper_fun (idn_name gt) [r] = Some t /\
        viper_fun (idn_name (ty_constructor c)) us = Some t /\
        viper_fun (idn_name (cast_make_concrete cs)) (r :: us) = Some x) /\
     (forall us y, viper_fun (idn_name (cast_make_concrete cs)) (r :: us) = Some y -> y = x)) /\
  (forall r ts y, viper_fun (idn_name (cast_make_concrete cs)) (r :: ts) = Some y ->
     viper_fun (idn_name (cast_make_generic cs)) (y :: ts) = Some r /\
     exists us t, snap_args ct c y = Some us /\ viper_fun (idn_name gt) [r] = Some t /\
       viper_fun (idn_name (ty_constructor c)) us = Some t).
Proof.
  intros Hh Hlaws. destruct (casts_hold_inv _ _ _ _ _ _ _ Hh)
    as (g & mg & mc & ctor & Hem & Hg & Hmg & Hmc & _ & Hin & Hname & Hargs).
  pose proof (mg_post cs gt ct c g mg mc Hem Hg Hmg) as Hpost. split.
  - intros x ts r Hr. split; [by eapply Hpost|]. intros us y Hy. by eapply cast_back.
  - intros r ts y Hy. assert (viper_fun (idn_name (cast_make_generic cs)) (y :: ts) = Some r) as Hr by (by eapply mc_post).
    split; [done|]. destruct (Hpost _ _ _ Hr) as (us & t & Hus & Ht & Hc & _). eauto.
Qed.

(** C15: The casters of two types exclude each other. The precondition of the cast to a
    concrete type is left out of what is emitted; if the contracts hold for two types with
    different constructors, a generic snapshot that is in the domain of the cast to the one
    is not in that of the cast to the other: the contracts have no model in which both
    functions are total and there is a generic snapshot. *)
Theorem concrete_casts_exclude outs param a b csa csb gt ta tb ca cb r ts us y :
  casts_hold outs param a csa gt ta ca -> casts_hold outs param b csb gt tb cb -> adt_laws (type_adt outs) ->
  idn_name (ty_constructor ca) <> idn_name (ty_constructor cb) ->
  viper_fun (idn_name (cast_make_concrete csa)) (r :: ts) = Some y ->
  viper_fun (idn_name (cast_make_concrete csb)) (r :: us) = None.
Proof.
  intros Ha Hb Hlaws Hne Hy. destruct (viper_fun _ (r :: us)) as [z|] eqn:Hz; [exfalso|done].
  destruct (casts_hold_inv _ _ _ _ _ _ _ Ha) as (ga & mga & mca & ka & Hema & Hga & Hmga & Hmca & _ & Hka & Hna & _).
  destruct (casts_hold_inv _ _ _ _ _ _ _ Hb) as (gb & mgb & mcb & kb & Hemb & Hgb & Hmgb & Hmcb & _ & Hkb & Hnb & _).
  assert (viper_fun (idn_name (cast_make_generic csa)) (y :: ts) = Some r) as Hya by (by eapply mc_post).
  assert (viper_fun (idn_name (cast_make_generic csb)) (z :: us) = Some r) as Hzb by (by eapply mc_post).
  eapply mg_post in Hya as (xs & t & _ & Ht & Hca & _); [|done..].
  eapply mg_post in Hzb as (ws & t' & _ & Ht' & Hcb & _); [|done..].
  assert (t' = t) as -> by congruence. rewrite <- Hna in Hca. rewrite <- Hnb in Hcb.
  pose proof (adt_is _ Hlaws ka ka _ _ (ctor_declared outs ka Hka) (ctor_declared outs ka Hka) Hca) as H1.
  pose proof (adt_is _ Hlaws kb ka _ _ (ctor_declared outs kb Hkb) (ctor_declared outs ka Hka) Hcb) as H2.
  rewrite H1 in H2. injection H2 as H2. rewrite bool_decide_eq_true_2, bool_decide_eq_false_2 in H2 by congruence. done.
Qed.
End claims.

(** ** Uses of the pure casters *)
Section uses.
Context {VM : ViperModel} {HM : HeapModel} {RT : RustcTypes} {DC : Decompose} {HO : Host} {NO : Normalize}
  {EA : EncodeArgs} {E : Type}.
Abbreviation val := (value domain_value).
Variable base : gmap string val.

(** What a cast to the definition makes of a value, the cast to its use takes back. *)
Definition caster_sound (c : GArgCaster) : Prop :=
  forall v w v', callee_sem base c v = Some w -> caller_sem base c w = Some v' -> v' = v.

Definition normalized_holds (outs : list AdtConstructorGenData) (n : RustTyNormalized) : Prop :=
  exists cs gt ct c, casts_hold (E:=E) outs (norm_param n) (decomp_ty (norm_concrete n)) cs gt ct c.

Lemma GArgsCastEnc_sound outs n c : adt_laws (type_adt outs) ->
  GArgsCastEnc_pure (E:=E) n = Ok c -> (forall m, n = Some m -> normalized_holds outs m) -> caster_sound c.
Proof.
  intros Hlaws Hc Hn v w v'. destruct n as [n|]; [|injection Hc as <-; simpl; congruence].
  destruct (Hn n eq_refl) as (cs & gt & ct & tc & Hh).
  destruct (casts_hold_inv _ _ _ _ _ _ _ Hh)
    as (g & mg & mc & ctor & Hem & Hg & Hmg & Hmc & Href & Hin & Hname & Hargs).
  unfold GArgsCastEnc_pure in Hc. rewrite Href in Hc. cbn [mbind outcome_bind] in Hc. inv_outcome.
  cbn [callee_sem caller_sem make_generic make_concrete cast_ty_args]. unfold call_sem. cbn [app].
  intros (ts & Hts & Hw)%bind_Some (us & Hus & Hv')%bind_Some. by eapply cast_back.
Qed.

Lemma eval_callee c e v : eval base e = Some v -> eval base (cast_to_callee_ctx c e) = callee_sem base c v.
Proof.
  intros He. destruct c as [c|]; [|done]. cbn [cast_to_callee_ctx callee_sem]. rewrite eval_call_list.
  cbn [eval_list]. rewrite He. unfold call_sem. simpl. by destruct (eval_list base _).
Qed.

Lemma eval_caller c e v : eval base e = Some v -> eval base (cast_to_caller_ctx c e) = caller_sem base c v.
Proof.
  intros He. destruct c as [c|]; [|done]. cbn [cast_to_caller_ctx caller_sem]. rewrite eval_call_list.
  cbn [eval_list]. rewrite He. unfold call_sem. simpl. by destruct (eval_list base _).
Qed.

(** A structure whose destructors read what its constructor got. *)
Definition reads_back (s : TyUsePureStruct) : Prop :=
  forall vs w k f a, viper_fun (idn_name (struct_cons s)) vs = Some w -> struct_fields s !! k = Some f ->
    vs !! k = Some a -> viper_fun (destr_name (field_read f)) [w] = Some a.

Lemma struct_read s es e vs w k f v :
  reads_back s -> Forall (fun f => caster_sound (field_caster f)) (struct_fields s) ->
  field_snaps_to_snap (E:=E) s es = Ok e -> eval_list base es = Some vs -> eval base e = Some w ->
  struct_fields s !! k = Some f -> eval base (read f e) = Some v -> vs !! k = Some v.
Proof.
  unfold field_snaps_to_snap. intros Hread Hsound He Hes Hw Hf Hv. inv_outcome.
  match goal with H : (_ =? _) = true |- _ => apply Nat.eqb_eq in H; rename H into Hlen end.
  rewrite eval_call_list in Hw. apply bind_Some in Hw as (ws & Hws & Hw).
  apply eval_list_Forall2 in Hes, Hws.
  assert (k < length es) as Hk by (rewrite Hlen; by eapply lookup_lt_Some).
  destruct (lookup_lt_is_Some_2 es k Hk) as [ek Hek].
  destruct (Forall2_lookup_l _ _ _ _ _ Hes Hek) as (vk & Hvk & Hevk).
  assert (cast_fields (struct_fields s) es !! k = Some (cast_to_callee_ctx (field_caster f) ek)) as Hck.
  { apply lookup_zip_with_Some. eauto. }
  destruct (Forall2_lookup_l _ _ _ _ _ Hws Hck) as (wk & Hwk & Hewk).
  rewrite (eval_callee _ _ _ Hevk) in Hewk.
  pose proof (Hread _ _ _ _ _ Hw Hf Hwk) as Ha. unfold read in Hv.
  assert (eval base (destr_call (field_read f) (call (struct_cons s) (cast_fields (struct_fields s) es))) = Some wk)
    as Hd.
  { unfold destr_call. cbn [eval]. apply eval_list_Forall2 in Hws.
    change (eval base (call (struct_cons s) (cast_fields (struct_fields s) es)) ≫=
      (fun v => viper_fun (destr_name (field_read f)) [v]) = Some wk).
    rewrite eval_call_list, Hws. simpl. rewrite Hw. done. }
  rewrite (eval_caller _ _ _ Hd) in Hv. rewrite Hvk. f_equal. symmetry.
  rewrite Forall_lookup in Hsound. by eapply Hsound.
Qed.
End uses.

Section use_claims.
Context {VM : ViperModel} {HM : HeapModel} {RT : RustcTypes} {DC : Decompose} {HO : Host} {NO : Normalize}
  {EA : EncodeArgs} {E : Type}.
Abbreviation val := (value domain_value).

(** The structure, or the variant of an enum. *)
Definition struct_of {D} (t : TyData D) (vid : option nat) : option (StructData D) :=
  match vid, ty_specifics t with
  | None, Ty.StructLike s => Some s
  | Some i, Ty.EnumLike e => inner <$> variants e !! i
  | _, _ => None
  end.

(** A structure of the encoded type reads what its constructor got. *)
Definition pure_reads_back (s : StructData PureTyDatas) : Prop :=
  forall vs w k f a, viper_fun (idn_name (struct_data s)) vs = Some w -> fields s !! k = Some f ->
    vs !! k = Some a -> viper_fun (destr_name (field_read_access f)) [w] = Some a.

Lemma struct_fields_read ty s po (pure : TyPure) adt df :
  ty_specifics ty = Ty.StructLike s -> TyPureEnc (E:=E) ty = Ok (po, pure) ->
  local_kind po = LocalAdt adt df -> adt_laws adt ->
  exists sd, ty_specifics pure = Ty.StructLike sd /\ pure_reads_back sd.
Proof.
  intros Hs H Hk Hlaws. destruct (TyPureEnc_struct _ _ _ _ Hs H) as (g & tys & _ & _ & Hl & _ & Hsd & Hk' & _).
  eexists. split; [exact Hsd|]. intros vs w k f a Hw Hf Ha. cbn [fields struct_data] in *.
  unfold fields_of in Hf. rewrite list_lookup_imap, list_lookup_fmap in Hf.
  destruct (constructor_args_of _ _ tys !! k) as [arg|] eqn:Harg; [|done]. injection Hf as <-.
  rewrite Hk in Hk'. injection Hk' as -> _.
  apply (adt_destr _ Hlaws (constructor_of (adt_init ty g) EmptyString tys) vs w k arg a); try done. by left.
Qed.

Lemma encoded_reads_back ty po (pure : TyPure) adt df vid sd :
  TyPureEnc (E:=E) ty = Ok (po, pure) -> local_kind po = LocalAdt adt df -> adt_laws adt ->
  struct_of ty vid = Some sd ->
  exists pd, struct_of pure vid = Some pd /\ pure_reads_back pd /\ length (fields pd) = length (fields sd).
Proof.
  intros H Hk Hlaws Hsd. pose proof (TyPureEnc_shape ty po pure H) as Hshape.
  unfold struct_of in *. destruct vid as [i|], (ty_specifics ty) as [| | | | | | |s|e|] eqn:Hs; try done.
  - destruct (enum_fields_read (E:=E) ty e po pure adt df) as (ed & Hed & Hread); [done..|].
    rewrite Hed in *. simpl in Hshape. apply fmap_Some in Hsd as (v & Hv & ->).
    destruct (Forall2_lookup_l _ _ _ _ _ Hshape Hv) as (pv & Hpv & Hl). rewrite Hpv. simpl.
    eexists. split; [done|]. split; [|done]. intros vs w k f a. apply Hread. by eapply list_elem_of_lookup_2.
  - destruct (struct_fields_read ty s po pure adt df) as (pd & Hpd & Hread); [done..|].
    rewrite Hpd in *. injection Hsd as ->. eauto.
Qed.

Definition field_encoded (args : GArgs) (ps : GParams) (d : RustFieldData * TyPureFieldData) (f : TyUsePureField) :
    Prop :=
  encode_normalized (E:=E) args (field_lazy (fst d)) ps = Ok (field_caster f) /\
  field_read f = field_read_access (snd d).

Lemma encode_structlike_inv args_t args (data : StructData RustPure) ps s :
  encode_structlike (E:=E) args_t args data ps = Ok s ->
  struct_cons s = snd (struct_data data) /\ Forall2 (field_encoded args ps) (fields data) (struct_fields s).
Proof.
  unfold encode_structlike. intros H. inv_outcome. split; [done|]. cbn [struct_fields].
  match goal with H : collect _ _ = Ok _ |- _ => apply collect_Ok in H; rename H into Hc end.
  eapply Forall2_impl; [exact Hc|]. intros d f Hf. unfold encode_field in Hf. inv_outcome. done.
Qed.

(** The structure of a use, or of a variant, is found by the walk over it. *)
Lemma TyUsePureEnc_struct task u po (pure : TyPure) vid s sd pd :
  TyUsePureEnc (E:=E) task = Ok u -> expect_variant_opt (E:=E) u vid = Ok s ->
  TyPureEnc (E:=E) (decomp_ty task) = Ok (po, pure) ->
  struct_of (decomp_ty task) vid = Some sd -> struct_of pure vid = Some pd ->
  length (fields pd) = length (fields sd) ->
  struct_cons s = struct_data pd /\
  Forall2 (field_encoded (decomp_args task) (ty_params_of (decomp_ty task)))
    (zip (fields sd) (fields pd)) (struct_fields s).
Proof.
  unfold TyUsePureEnc. intros H Hs Hpure Hsd Hpd Hl. rewrite Hpure in H.
  destruct (require_pure_ref (decomp_ty task)) as [pr| |]; [|done..]. cbn [mbind outcome_bind] in H.
  destruct (GArgsTyEnc (decomp_args task)) as [at'| |]; [|done..]. cbn [mbind outcome_bind] in H.
  pose proof (TyPureEnc_shape _ _ _ Hpure) as Hshape.
  unfold ty_zip in H. destruct (specifics_zip _ _) as [sp| |] eqn:Hz; [|done..]. cbn [mbind outcome_bind] in H.
  unfold expect_variant_opt, get_variant_opt, get_structlike, expect_variant, expect_enumlike in Hs.
  unfold struct_of in Hsd, Hpd.
  destruct vid as [i|], (ty_specifics (decomp_ty task)) as [| | | | | | |sd'|e|] eqn:Hty; try done;
    destruct (ty_specifics pure) as [| | | | | | |pd'|pe|]; try done.
  - cbn [specifics_zip] in Hz. rewrite enum_zip_Ok in Hz by done. injection Hz as <-.
    unfold encode_ty in H. cbn [ty_specifics] in H. revert Hs. inv_outcome. cbn [specifics]. intros Hs. inv_outcome.
    match goal with H : encode_enumlike _ _ _ _ = Ok ?x |- _ => rename H into He; rename x into ue end.
    unfold encode_enumlike in He. inv_outcome. cbn [enum_variants variants] in *.
    match goal with H : collect _ _ = Ok _ |- _ => apply collect_Ok in H; rename H into Hc end.
    apply fmap_Some in Hsd as (v & Hv & ->). apply fmap_Some in Hpd as (pv & Hpv & ->).
    simplify_eq. match goal with H : ?l !! i = Some s |- _ => rename H into Hi end.
    destruct (Forall2_lookup_r _ _ _ _ _ Hc Hi) as (z & Hz & He).
    apply lookup_zip_with_Some in Hz as (v' & pv' & -> & Hv' & Hpv').
    assert (v' = v /\ pv' = pv) as [-> ->] by (split; congruence).
    apply encode_structlike_inv in He. exact He.
  - injection Hsd as ->. injection Hpd as ->.
    cbn [specifics_zip] in Hz. rewrite struct_zip_Ok in Hz by done. injection Hz as <-.
    unfold encode_ty in H. cbn [ty_specifics] in H. revert Hs. inv_outcome. cbn [specifics]. intros Hs. inv_outcome. simplify_eq.
    match goal with H : encode_structlike _ _ _ _ = Ok _ |- _ => apply encode_structlike_inv in H; exact H end.
Qed.

(** C12: Structures through casts. A use of a structure or of a variant of an enum
    casts the snapshots of fields whose type is a parameter of the definition when it
    builds a snapshot, and casts them back when it reads a field. If the contracts of
    these casters hold and types and the snapshot are data types, every field of the
    snapshot that is built reads as what it was built from. *)
Theorem use_struct_reads_back outs base task u po (pure : TyPure) adt df vid s sd es e vs w :
  TyUsePureEnc (E:=E) task = Ok u -> expect_variant_opt (E:=E) u vid = Ok s ->
  TyPureEnc (E:=E) (decomp_ty task) = Ok (po, pure) -> local_kind po = LocalAdt adt df ->
  adt_laws adt -> adt_laws (type_adt outs) -> struct_of (decomp_ty task) vid = Some sd ->
  (forall f n, f ∈ fields sd ->
     decompose_compare_normalize (field_lazy f) (ty_params_of (decomp_ty task)) (decomp_args task) = Some n ->
     normalized_holds (E:=E) outs n) ->
  field_snaps_to_snap (E:=E) s es = Ok e -> eval_list base es = Some vs -> eval base e = Some w ->
  length vs = length (fields sd) /\
  forall k f v, struct_fields s !! k = Some f -> eval base (read f e) = Some v -> vs !! k = Some v.
Proof.
  intros Hu Hs Hpure Hk Hlaws Htypes Hsd Hn He Hes Hw.
  destruct (encoded_reads_back _ _ _ _ _ _ _ Hpure Hk Hlaws Hsd) as (pd & Hpd & Hread & Hl).
  destruct (TyUsePureEnc_struct _ _ _ _ _ _ _ _ Hu Hs Hpure Hsd Hpd Hl) as [Hcons Hfields].
  assert (length (struct_fields s) = length (fields sd)) as Hls.
  { apply Forall2_length in Hfields. rewrite length_zip in Hfields.
    change (FieldD RustTyDatas) with RustFieldData in *. change (FieldD PureTyDatas) with TyPureFieldData in *. lia. }
  split.
  { apply eval_list_Forall2, Forall2_length in Hes. unfold field_snaps_to_snap in He. inv_outcome.
    match goal with H : (_ =? _) = true |- _ => apply Nat.eqb_eq in H end. congruence. }
  intros k f v. apply (struct_read (E:=E) base s es e vs w k f v); try done.
  - intros ws x j g a Hws Hg Ha. rewrite Hcons in Hws.
    destruct (Forall2_lookup_r _ _ _ _ _ Hfields Hg) as ([d pf] & Hd & _ & ->).
    apply lookup_zip_with_Some in Hd as (? & ? & [= <- <-] & _ & Hpf). by eapply Hread.
  - apply Forall_lookup. intros j g Hg.
    destruct (Forall2_lookup_r _ _ _ _ _ Hfields Hg) as ([d pf] & Hd & Hc & _).
    apply lookup_zip_with_Some in Hd as (? & ? & [= <- <-] & Hd & _).
    eapply GArgsCastEnc_sound; [exact Htypes|exact Hc|]. intros n. apply Hn. by eapply list_elem_of_lookup_2.
Qed.
End use_claims.

(** ** The methods that cast memory *)
Section methods.
Context {VM : ViperModel} {HM : HeapModel}.
Variable P : ProgramGenData.
Abbreviation val := (value domain_value).
Abbreviation heap := (val -> string -> option val).
Abbreviation footprint := (list (val * string)).

(** An operand of a postcondition: in the heap before the call under [old], else in the
    heap after it. *)
Definition evals_after (h0 h1 : heap) (ρ : gmap string val) (e : Expr) (v : val) : Prop :=
  match e with Old e OldNone => Evals P h0 ρ e v | e => Evals P h1 ρ e v end.

Definition holds_after (h0 h1 : heap) (ρ : gmap string val) (e : Expr) (F : footprint) : Prop :=
  match e with
  | BinOp CmpEq a b => F = [] /\ exists v, evals_after h0 h1 ρ a v /\ evals_after h0 h1 ρ b v
  | e => Owns P h1 ρ e F
  end.

(** A call of a method that returns takes a heap in which the preconditions hold to one
    in which the postconditions hold. *)
Record called (m : MethodGenData) (vs : list val) (h0 h1 : heap) : Prop := {
  called_args : length vs = length (method_args m);
  called_pre : exists Fs, Forall2 (Owns P h0 (bind_args (method_args m) vs)) (method_pres m) Fs /\ separate Fs;
  called_post : exists Fs,
    Forall2 (holds_after h0 h1 (bind_args (method_args m) vs)) (method_posts m) Fs /\ separate Fs;
}.
End methods.

Section method_claims.
Context {VM : ViperModel} {HM : HeapModel} {RT : RustcTypes} {DC : Decompose} {HO : Host} {E : Type}.
Abbreviation val := (value domain_value).

(** The two methods, for the predicates and snapshots of both types. *)
Definition cast_method (name : string) (g : GenericParams) (pre : Expr) (posts : list Expr) : MethodGenData :=
  {| method_name := name; method_args := ref_self_decl :: gen_decls g; method_rets := []; method_pres := [pre];
     method_posts := posts; method_body := None |}.

Definition as_generic (cs : GArgCasters) (pr : TyImpureRef) (g : GenericParams) : Expr :=
  call (cast_make_generic cs) (call (ref_to_snap pr) (self_exprs g ref_self) :: gen_exprs g).
Definition lifted_args (c : TyConstructor) (g : GenericParams) : list Expr :=
  [ref_self; call (ty_constructor c) (gen_exprs g)].

Lemma CastersEnc_impure_inv param concrete ics ms : CastersEnc_impure (E:=E) param concrete = Ok (ics, ms) ->
  exists cs c ctor g pr gr,
    casters_ref (E:=E) param concrete = Ok cs /\ TyConstructorEnc (E:=E) concrete = Ok (c, ctor) /\
    GenericParamsEnc (E:=E) (ty_params_of concrete) = Ok g /\
    impure_ref (E:=E) concrete = Ok pr /\ impure_ref (E:=E) param = Ok gr /\
    let concrete_predicate := PredicateApp (ref_to_pred pr) (self_exprs g ref_self) None in
    let generic_predicate := PredicateApp (ref_to_pred gr) (lifted_args c g) None in
    let generic_snap := call (ref_to_snap gr) (lifted_args c g) in
    ms = [cast_method (method_make_generic ics) g concrete_predicate
            [generic_predicate; mk_eq_expr (mk_old_expr (as_generic cs pr g)) generic_snap];
          cast_method (method_make_concrete ics) g generic_predicate
            [concrete_predicate; mk_eq_expr (mk_old_expr generic_snap) (as_generic cs pr g)]].
Proof.
  unfold CastersEnc_impure. intros H.
  destruct (impure_casters_ref param concrete) as [i| |]; [|done..]. cbn [mbind outcome_bind] in H.
  destruct (TyConstructorEnc concrete) as [[c ctor]| |]; [|done..]. cbn [mbind outcome_bind] in H.
  destruct (GenericParamsEnc (ty_params_of concrete)) as [g| |]; [|done..]. cbn [mbind outcome_bind] in H.
  destruct (casters_ref param concrete) as [cs| |]; [|done..]. cbn [mbind outcome_bind] in H.
  destruct (impure_ref concrete) as [pr| |]; [|done..]. cbn [mbind outcome_bind] in H.
  destruct (impure_ref param) as [gr| |]; [|done..]. cbn in H. injection H as <- <-.
  by do 6 eexists.
Qed.

Lemma cast_params_self g : cast_params_ok g -> params_ok g.
Proof.
  unfold cast_params_ok, params_ok. rewrite !NoDup_cons, !not_elem_of_cons.
  intros (_ & [_ ?] & _ & ?). done.
Qed.

Section round_trip.
Variables (P : ProgramGenData) (h : val -> string -> option val).
Hypothesis distinct : names_distinct P.
Context (cs : GArgCasters) (pr : TyImpureRef) (g : GenericParams) (mg : FunctionGenData) (r : val) (ts : list val).
Hypothesis g_ok : params_ok g.
Hypothesis ts_length : length ts = length (gen_decls g).
Hypothesis mg_declared : mg ∈ program_functions P.
Hypothesis mg_name : function_name mg = idn_name (cast_make_generic cs).
Hypothesis mg_abstract : function_pres mg = [] /\ function_expr mg = None.

Lemma Evals_as_generic v : Evals P h (self_env g r ts) (as_generic cs pr g) v ->
  exists x, Snap P h (idn_name (ref_to_snap pr)) (r :: ts) x /\
    viper_fun (idn_name (cast_make_generic cs)) (x :: ts) = Some v.
Proof.
  unfold as_generic. intros (vs & Hvs & Hv)%Evals_call. inversion Hvs as [|? x ? us Hx Hus]; subst.
  apply Evals_gen_exprs in Hus as ->; [|done..].
  apply Evals_call in Hx as (ws & Hws & Hx). apply Evals_self_exprs in Hws as ->; [|done..].
  exists x. split; [done|]. rewrite <- mg_name in Hv |- *. destruct mg_abstract as [Hpre Hexpr].
  by apply (Snap_abstract P h _ _ _ _ (prog_fun_in P distinct mg mg_declared) Hpre Hexpr) in Hv as [_ Hv].
Qed.
End round_trip.

(** C13: Casts of memory. After the memory of a concrete type is cast to that of a type
    parameter it can be cast back; then the predicate of the concrete type holds again and
    the snapshot is the one before both casts. *)
Theorem memory_casts_round_trip P outs param concrete cs fns gt ct c ics mg_method mc_method pr r ts h0 h1 :
  casts_hold (E:=E) outs param concrete cs gt ct c -> adt_laws (type_adt outs) ->
  CastersEnc_pure (E:=E) param concrete = Ok (cs, fns) -> (forall f, f ∈ fns -> f ∈ program_functions P) ->
  names_distinct P ->
  CastersEnc_impure (E:=E) param concrete = Ok (ics, [mg_method; mc_method]) ->
  impure_ref (E:=E) concrete = Ok pr ->
  called P mg_method (r :: ts) h0 h1 ->
  (exists Fs, Forall2 (Owns P h1 (bind_args (method_args mc_method) (r :: ts))) (method_pres mc_method) Fs) /\
  forall h2, called P mc_method (r :: ts) h1 h2 ->
    (exists F, Own P h2 (ref_to_pred pr) (r :: ts) F) /\
    exists x, Snap P h0 (idn_name (ref_to_snap pr)) (r :: ts) x /\
              Snap P h2 (idn_name (ref_to_snap pr)) (r :: ts) x.
Proof.
  intros Hh Hlaws Hpure Hdecl HP Himp Hpr Hcall.
  destruct (casts_hold_inv _ _ _ _ _ _ _ Hh)
    as (g & mg & mc & ctor & Hem & Hg & Hmg & Hmc & Href & Hin & Hname & Hargs).
  destruct (CastersEnc_pure_inv _ _ _ _ Hpure)
    as (gt' & gd' & ct' & cd' & c1 & ctor1 & g1 & mg1 & mc1 & _ & _ & _ & Hg1 & _ & -> & Hem1).
  destruct (CastersEnc_impure_inv _ _ _ _ Himp) as (cs' & c' & ctor' & g' & pr' & gr & Hcs' & _ & Hg' & Hpr' & _ & Hms).
  assert (cs' = cs) as -> by congruence. assert (pr' = pr) as -> by congruence.
  destruct (ch_params _ _ _ _ _ _ _ Hh) as (g2 & Hg2 & Hok). assert (g' = g2 /\ g1 = g2) as [-> ->] by (split; congruence).
  injection Hms as -> ->. apply cast_params_self in Hok. destruct Hcall as [Hl _ (Gs & Hposts & _)].
  cbn [cast_method method_args method_pres method_posts length] in *.
  change (bind_args (ref_self_decl :: gen_decls g2) (r :: ts)) with (self_env g2 r ts) in *.
  assert (length ts = length (gen_decls g2)) as Hts by lia.
  inversion Hposts as [|? G1 ? ? Hpred Hrest]; subst. inversion Hrest as [|? ? ? ? Heq _]; subst.
  destruct Heq as (_ & v & Hold & Hnew). split; [exists [G1]; by repeat constructor|].
  intros h2 [_ _ (Fs & Hposts2 & _)].
  cbn [cast_method method_args method_pres method_posts length] in *.
  change (bind_args (ref_self_decl :: gen_decls g2) (r :: ts)) with (self_env g2 r ts) in *.
  inversion Hposts2 as [|? F1 ? ? Hpred2 Hrest2]; subst. inversion Hrest2 as [|? ? ? ? Heq2 _]; subst.
  destruct Heq2 as (_ & w & Hold2 & Hnew2). cbn [evals_after mk_old_expr mk_old] in Hold, Hnew, Hold2, Hnew2.
  assert (w = v) as -> by (by eapply Evals_det).
  assert (mg1 ∈ program_functions P) as Hmg1 by (apply Hdecl; by left).
  destruct Hem1 as [Hem1 _].
  assert (function_name mg1 = idn_name (cast_make_generic cs) /\ function_pres mg1 = [] /\ function_expr mg1 = None)
    as (Hn1 & Hab1) by (by rewrite Hem1).
  destruct (Evals_as_generic P h0 HP cs pr g2 mg1 r ts Hok Hts Hmg1 Hn1 Hab1 v Hold) as (s0 & Hx & Hgx).
  destruct (Evals_as_generic P h2 HP cs pr g2 mg1 r ts Hok Hts Hmg1 Hn1 Hab1 v Hnew2) as (s2 & Hy & Hgy).
  split.
  - apply Owns_app in Hpred2 as (us & Hus & HF). apply Evals_self_exprs in Hus as ->; [|done..]. eauto.
  - exists s0. split; [done|]. assert (s0 = s2) as ->; [|done]. by eapply mg_inj.
Qed.
End method_claims.
