(* ===== verification/TyCastExample.v ===== *)
(** * Casts: an example

    The type [i32] and a structure [Wrap<T>] of a value of type [T] and an [i32]: the
    functions and methods that cast them to a type parameter and back, a model in which
    their contracts hold, and heaps before and after the casts. *)
From S2P Require Import Prelude Names Vir VirMake VirProgram VirSem VirInt VirReify TyDomain TyData Primitive TyRust TyUse TyPure TyImpure TyHeap TySpec TyMemory TyEnum TyCast TyCastSound.

(** ** The compiler

    Generic arguments are lists of types; the parameter [T] stands for the first one. *)
Inductive example_ty := ExParam | ExI32.

#[export] Instance rustc_types : RustcTypes :=
  {| LazyRustTy := example_ty; ParamEnv := unit; empty_env := tt; GArgs := list example_ty |}.

Definition T_params : GParams := GParams_empty_env [PType (Some {| p_name := "T"; p_index := 0 |})].

Definition param_ty : RustTy :=
  {| ty_data := {| rust_name := "Param"; rust_params := T_params |} : TyD RustTyDatas;
     ty_specifics := Ty.Param (D:=RustTyDatas) Generic |}.
Definition i32_ty : RustTy :=
  {| ty_data := {| rust_name := "Int_i32"; rust_params := GParams_empty |} : TyD RustTyDatas;
     ty_specifics := Ty.Primitive (D:=RustTyDatas) (TyInt I32) |}.

Definition field (n : nat) (ty : example_ty) : RustFieldData :=
  {| rust_field_name := EmptyString; fid := n; field_lazy := ty : LazyRustTy |}.
Definition wrap_fields : StructData RustTyDatas :=
  {| struct_data := tt : StructD RustTyDatas; fields := [field 0 ExParam; field 1 ExI32] : list (FieldD RustTyDatas) |}.
Definition wrap_ty : RustTy :=
  {| ty_data := {| rust_name := "Wrap"; rust_params := T_params |} : TyD RustTyDatas;
     ty_specifics := Ty.StructLike wrap_fields |}.

#[export] Instance rustc_decompose : Decompose :=
  {| decompose ty _ :=
       match (ty : example_ty) with
       | ExParam => {| decomp_ty := param_ty; decomp_args := [ExParam] : GArgs; maybe_inhabited := Some true |}
       | ExI32 => {| decomp_ty := i32_ty; decomp_args := [] : GArgs; maybe_inhabited := Some true |}
       end;
     no_args := [] : GArgs |}.

#[export] Instance rustc_normalize : Normalize :=
  {| args_context _ := GParams_empty;
     args_normalize args ty :=
       match (ty : example_ty), (args : list example_ty) with ExParam, a :: _ => a | _, _ => ty end |}.

Definition i32_type : FunctionIdn := {| idn_name := "s_Int_i32_type"; idn_result := TYPE_TYVAL |}.
Definition ty_expr (ty : example_ty) : Expr :=
  match ty with ExParam => Local "T$0" TYPE_TYVAL | ExI32 => call i32_type [] end.
#[export] Instance arguments : EncodeArgs :=
  {| GArgsTyEnc _ args := Ok {| get_ty := ty_expr <$> (args : list example_ty); get_const := [] |} |}.

#[export] Instance host : Host := {| pointer_bits := 64; pointer_bits_supported := or_intror (or_intror eq_refl) |}.

(** ** A model

    Types, snapshots of [i32] and of [Wrap], generic snapshots, and addresses. *)
Inductive type_value := TI32 | TWrap (t : type_value).
Inductive cast_value :=
| CTy (t : type_value)
| CInt (z : Z)
| CWrap (t : type_value) (a b : cast_value)
| CGen (c : cast_value)
| CAddr.

#[export] Instance type_value_eq_dec : EqDecision type_value.
Proof. solve_decision. Defined.
#[export] Instance cast_value_eq_dec : EqDecision cast_value.
Proof. solve_decision. Defined.

Abbreviation val := (value cast_value).

Definition type_of (c : cast_value) : option type_value :=
  match c with CInt _ => Some TI32 | CWrap t _ _ => Some (TWrap t) | _ => None end.

Definition sem_i32_type (vs : list val) : option val := match vs with [] => Some (VDom (CTy TI32)) | _ => None end.
Definition sem_wrap_type (vs : list val) : option val :=
  match vs with [VDom (CTy t)] => Some (VDom (CTy (TWrap t))) | _ => None end.
Definition sem_wrap_typaram (vs : list val) : option val :=
  match vs with [VDom (CTy (TWrap t))] => Some (VDom (CTy t)) | _ => None end.
Definition sem_param_typeof (vs : list val) : option val :=
  match vs with [VDom (CGen c)] => (fun t => VDom (CTy t)) <$> type_of c | _ => None end.
Definition sem_typeof (vs : list val) : option val :=
  match vs with [VDom c] => (fun t => VDom (CTy t)) <$> type_of c | _ => None end.
Definition sem_generic_i32 (vs : list val) : option val :=
  match vs with [VDom (CInt z)] => Some (VDom (CGen (CInt z))) | _ => None end.
Definition sem_concrete_i32 (vs : list val) : option val :=
  match vs with [VDom (CGen (CInt z))] => Some (VDom (CInt z)) | _ => None end.
Definition sem_generic_wrap (vs : list val) : option val :=
  match vs with [VDom (CWrap t a b); VDom (CTy _)] => Some (VDom (CGen (CWrap t a b))) | _ => None end.
Definition sem_concrete_wrap (vs : list val) : option val :=
  match vs with [VDom (CGen (CWrap t a b)); VDom (CTy _)] => Some (VDom (CWrap t a b)) | _ => None end.
Definition sem_wrap_cons (vs : list val) : option val :=
  match vs with
  | [VDom (CGen c); VDom (CInt z)] => (fun t => VDom (CWrap t (CGen c) (CInt z))) <$> type_of c
  | _ => None
  end.
Definition sem_wrap_0 (vs : list val) : option val := match vs with [VDom (CWrap _ a _)] => Some (VDom a) | _ => None end.
Definition sem_wrap_1 (vs : list val) : option val := match vs with [VDom (CWrap _ _ b)] => Some (VDom b) | _ => None end.

Definition functions : list (string * (list val -> option val)) :=
  [("s_Int_i32_type", sem_i32_type); ("s_Wrap_type", sem_wrap_type); ("s_Wrap_typaram_T$0", sem_wrap_typaram);
   ("s_Param_typeof", sem_param_typeof); ("s_Int_i32_typeof", sem_typeof); ("s_Wrap_typeof", sem_typeof);
   ("make_generic_s_Int_i32", sem_generic_i32); ("make_concrete_s_Int_i32", sem_concrete_i32);
   ("make_generic_s_Wrap", sem_generic_wrap); ("make_concrete_s_Wrap", sem_concrete_wrap);
   ("s_Wrap_cons", sem_wrap_cons); ("s_Wrap_0", sem_wrap_0); ("s_Wrap_1", sem_wrap_1)]%string.

Definition interp_fun (name : string) (args : list val) : option val :=
  match list_find (fun f => f.1 = name) functions with Some (_, f) => f.2 args | None => None end.

Definition cast_value_ty (c : cast_value) : TypeKind :=
  match c with
  | CTy _ => TYPE_TYVAL | CInt _ => TDomain "s_Int_i32" [] | CWrap _ _ _ => TDomain "s_Wrap" []
  | CGen _ => TYPE_PSNAP | CAddr => TRef
  end.

#[export] Instance cast_model : ViperModel.
Proof.
  refine {| domain_value := cast_value; domain_value_ty := cast_value_ty; viper_fun := interp_fun;
            viper_div := i32_model.ediv; viper_mod a b := (a mod Z.abs b)%Z |}.
  - intros a b Hb. unfold i32_model.ediv. pose proof (Z.div_mod a (Z.abs b)). nia.
  - intros a b Hb. apply Z.mod_pos_bound. lia.
Defined.

(** The memory of a type parameter is one field with a generic snapshot. *)
#[export] Instance cast_heap_model : HeapModel :=
  {| viper_is name v :=
       match v with
       | VDom (CTy TI32) => Some (bool_decide (name = "s_Int_i32_type"%string))
       | VDom (CTy (TWrap _)) => Some (bool_decide (name = "s_Wrap_type"%string))
       | VDom (CWrap _ _ _) => Some (bool_decide (name = "s_Wrap_cons"%string))
       | _ => None
       end;
     abs_pred p vs h :=
       match vs with [r; _] => (fun _ => [(r, "generic"%string)]) <$> h r "generic"%string | _ => None end;
     abs_fun f vs h := match vs with [r; _] => h r "generic"%string | _ => None end |}.

(** ** What is encoded *)
Definition casters (name : string) : GArgCasters :=
  {| cast_make_generic := {| idn_name := "make_generic_s_" +:+ name; idn_result := TYPE_PSNAP |};
     cast_make_concrete := {| idn_name := "make_concrete_s_" +:+ name; idn_result := TDomain ("s_" +:+ name) [] |} |}.
Definition typeof (name : string) : FunctionIdn :=
  {| idn_name := "s_" +:+ name +:+ "_typeof"; idn_result := TYPE_TYVAL |}.
Definition wrap_type : FunctionIdn := {| idn_name := "s_Wrap_type"; idn_result := TYPE_TYVAL |}.
Definition wrap_typaram : AdtDestructorData :=
  {| destr_name := "s_Wrap_typaram_T$0"; destr_input := TYPE_TYVAL; destr_ty := TYPE_TYVAL |}.

Definition i32_constructor : TyConstructor :=
  {| ty_constructor := i32_type; ty_param_accessors := []; const_param_accessors := [] |}.
Definition wrap_constructor : TyConstructor :=
  {| ty_constructor := wrap_type; ty_param_accessors := [wrap_typaram]; const_param_accessors := [] |}.

Definition type_constructors : list AdtConstructorGenData :=
  [{| constructor_name := "s_Int_i32_type"; constructor_args := [] |};
   {| constructor_name := "s_Wrap_type"; constructor_args := [{| decl_name := "s_Wrap_typaram_T$0"; decl_ty := TYPE_TYVAL |}] |}].

Lemma type_laws : adt_laws (type_adt type_constructors).
Proof.
  split.
  - intros c c' vs w Hc Hc' Hw. apply list_elem_of_In in Hc. apply list_elem_of_In in Hc'.
    destruct Hc as [<-|[<-|[<-|[]]]]; cbn [constructor_name] in *; [..|done].
    + destruct vs; [|done]. injection Hw as <-. by destruct Hc' as [<-|[<-|[<-|[]]]].
    + destruct vs as [|[| |[t| | | |]|] []]; try done. injection Hw as <-. by destruct Hc' as [<-|[<-|[<-|[]]]].
  - intros c vs w i a v Hc Hw Ha Hv. apply list_elem_of_In in Hc.
    destruct Hc as [<-|[<-|[<-|[]]]]; cbn [constructor_name constructor_args] in *; [done| |done].
    destruct vs as [|[| |[t| | | |]|] []]; try done. injection Hw as <-.
    destruct i; [|done]. injection Ha as <-. by injection Hv as <-.
Qed.

Definition emitted_casters (concrete : RustTy) : list FunctionGenData :=
  match CastersEnc_pure (E:=unit) param_ty concrete with Ok (_, fns) => fns | _ => [] end.

Ltac equation := apply eval_equation; eexists; split; vm_compute; reflexivity.

Lemma i32_contracts : Forall contract (emitted_casters i32_ty).
Proof.
  set (fns := emitted_casters i32_ty). vm_compute in fns. unfold fns. clear fns.
  constructor; [|constructor; [|constructor]]; intros vs v Hv; cbn [function_name] in Hv.
  - destruct vs as [|[| |[|z| | |]|] []]; try done. injection Hv as <-.
    split; [done|]. repeat constructor; equation.
  - destruct vs as [|[| |[| | |[|z| | |]|]|] []]; try done. injection Hv as <-.
    split; [done|]. repeat constructor; equation.
Qed.

Lemma wrap_contracts : Forall contract (emitted_casters wrap_ty).
Proof.
  set (fns := emitted_casters wrap_ty). vm_compute in fns. unfold fns. clear fns.
  constructor; [|constructor; [|constructor]]; intros vs v Hv; cbn [function_name] in Hv.
  - destruct vs as [|[| |[| |t a b| |]|] [|[| |[u| | | |]|] []]]; try done. injection Hv as <-.
    split; [done|]. repeat constructor; equation.
  - destruct vs as [|[| |[| | |[| |t a b| |]|]|] [|[| |[u| | | |]|] []]]; try done. injection Hv as <-.
    split; [done|]. repeat constructor; equation.
Qed.

Lemma i32_casts_hold :
  casts_hold (E:=unit) type_constructors param_ty i32_ty (casters "Int_i32") (typeof "Param") (typeof "Int_i32") i32_constructor.
Proof.
  split.
  - exists (emitted_casters i32_ty). split; [vm_compute; reflexivity|apply i32_contracts].
  - eexists. vm_compute. reflexivity.
  - eexists. vm_compute. reflexivity.
  - eexists. split; [vm_compute; reflexivity|]. by left.
  - eexists. split; [vm_compute; reflexivity|]. apply (bool_decide_unpack _). vm_compute. exact I.
Qed.

Lemma wrap_casts_hold :
  casts_hold (E:=unit) type_constructors param_ty wrap_ty (casters "Wrap") (typeof "Param") (typeof "Wrap") wrap_constructor.
Proof.
  split.
  - exists (emitted_casters wrap_ty). split; [vm_compute; reflexivity|apply wrap_contracts].
  - eexists. vm_compute. reflexivity.
  - eexists. vm_compute. reflexivity.
  - eexists. split; [vm_compute; reflexivity|]. right. by left.
  - eexists. split; [vm_compute; reflexivity|]. apply (bool_decide_unpack _). vm_compute. exact I.
Qed.

(** ** The program and its memory *)
Definition add_pure (ty : RustTy) (p : ProgramGenData) : ProgramGenData :=
  match TyPureEnc (E:=unit) ty with Ok (o, _) => emit_pure o p | _ => p end.
Definition add_impure (ty : RustTy) (p : ProgramGenData) : ProgramGenData :=
  match TyImpureEnc (E:=unit) ty with Ok (o, _) => emit_impure o p | _ => p end.
Definition add_casters (ty : RustTy) (p : ProgramGenData) : ProgramGenData :=
  let p := emit_pure_casters (emitted_casters ty) p in
  match CastersEnc_impure (E:=unit) param_ty ty with Ok (_, ms) => emit_impure_casters ms p | _ => p end.

Definition typeof_functions : list DomainFunctionData :=
  omap (fun ty => match TypeOfEnc (E:=unit) ty with Ok (_, d) => Some d | _ => None end) [param_ty; i32_ty; wrap_ty].

Definition cast_program : ProgramGenData :=
  let typeof := match typeof_domain (E:=unit) typeof_functions with Ok d => [d] | _ => [] end in
  let p := mk_program [] [type_adt type_constructors] typeof [] [] [] in
  let p := foldr (fun ty p => add_impure ty (add_pure ty p)) p [wrap_ty; i32_ty; param_ty] in
  foldr add_casters p [wrap_ty; i32_ty].

Lemma cast_program_distinct : names_distinct cast_program.
Proof. split; apply (bool_decide_unpack _); vm_compute; exact I. Qed.

(** An [i32] at the address, as its own type and as a type parameter. *)
Definition concrete_memory (r : val) (f : string) : option val :=
  if decide (r = VDom CAddr /\ f = "p_Int_i32_val"%string) then Some (VDom (CInt 5)) else None.
Definition generic_memory (r : val) (f : string) : option val :=
  if decide (r = VDom CAddr /\ f = "generic"%string) then Some (VDom (CGen (CInt 5))) else None.

Definition i32_methods : list MethodGenData :=
  match CastersEnc_impure (E:=unit) param_ty i32_ty with Ok (_, ms) => ms | _ => [] end.
Definition no_method : MethodGenData :=
  {| method_name := EmptyString; method_args := []; method_rets := []; method_pres := []; method_posts := [];
     method_body := None |}.
Definition to_generic : MethodGenData := nth 0 i32_methods no_method.
Definition to_concrete : MethodGenData := nth 1 i32_methods no_method.

Lemma separate_one F : separate (VM:=cast_model) [F].
Proof. split; [|done]. intros x _ Hx. by apply elem_of_nil in Hx. Qed.

Lemma separate_with_pure F : separate (VM:=cast_model) [F; []].
Proof. apply separate_two. intros x _ Hx. by apply elem_of_nil in Hx. Qed.

Ltac owned := exists 3; vm_compute; reflexivity.

Lemma cast_to_generic : called cast_program to_generic [VDom CAddr] concrete_memory generic_memory.
Proof.
  split; [done|..].
  - exists [[(VDom CAddr, "p_Int_i32_val"%string)]]. split; [|apply separate_one].
    constructor; [owned|constructor].
  - exists [[(VDom CAddr, "generic"%string)]; []]. split; [|apply separate_with_pure].
    constructor; [owned|]. constructor; [|constructor]. split; [done|]. exists (VDom (CGen (CInt 5))). split; owned.
Qed.

Lemma cast_to_concrete : called cast_program to_concrete [VDom CAddr] generic_memory concrete_memory.
Proof.
  split; [done|..].
  - exists [[(VDom CAddr, "generic"%string)]]. split; [|apply separate_one].
    constructor; [owned|constructor].
  - exists [[(VDom CAddr, "p_Int_i32_val"%string)]; []]. split; [|apply separate_with_pure].
    constructor; [owned|]. constructor; [|constructor]. split; [done|]. exists (VDom (CGen (CInt 5))). split; owned.
Qed.

(** ** Witnesses *)
Definition wrapped : cast_value := CWrap TI32 (CGen (CInt 1)) (CInt 2).

Lemma pure_casters_inverse_witness :
  viper_fun "make_generic_s_Wrap" [VDom wrapped; VDom (CTy TI32)] = Some (VDom (CGen wrapped)) /\
  (exists us t, snap_args (typeof "Wrap") wrap_constructor (VDom wrapped) = Some us /\
     viper_fun "s_Param_typeof" [VDom (CGen wrapped)] = Some t /\ viper_fun "s_Wrap_type" us = Some t /\
     viper_fun "make_concrete_s_Wrap" (VDom (CGen wrapped) :: us) = Some (VDom wrapped)) /\
  (forall us y, viper_fun "make_concrete_s_Wrap" (VDom (CGen wrapped) :: us) = Some y -> y = VDom wrapped) /\
  viper_fun "make_generic_s_Wrap" [VDom wrapped; VDom (CTy (TWrap TI32))] = Some (VDom (CGen wrapped)).
Proof.
  destruct (pure_casters_inverse (VM:=cast_model) type_constructors _ _ _ _ _ _ wrap_casts_hold type_laws) as [Hg Hc].
  split; [reflexivity|]. destruct (Hg (VDom wrapped) [VDom (CTy TI32)] (VDom (CGen wrapped)) eq_refl) as [H1 H2].
  split; [exact H1|]. split; [exact H2|].
  by destruct (Hc (VDom (CGen wrapped)) [VDom (CTy (TWrap TI32))] (VDom wrapped) eq_refl) as [H _].
Defined.

Lemma concrete_casts_exclude_witness :
  viper_fun "make_concrete_s_Wrap" [VDom (CGen wrapped); VDom (CTy TI32)] = Some (VDom wrapped) /\
  viper_fun "make_concrete_s_Int_i32" [VDom (CGen wrapped)] = None.
Proof.
  split; [reflexivity|].
  apply (concrete_casts_exclude (VM:=cast_model) _ _ _ _ _ _ _ _ _ _ _ (VDom (CGen wrapped)) [VDom (CTy TI32)] [] (VDom wrapped)
           wrap_casts_hold i32_casts_hold type_laws); [done|reflexivity].
Defined.

Lemma memory_casts_round_trip_witness :
  called cast_program to_generic [VDom CAddr] concrete_memory generic_memory /\
  called cast_program to_concrete [VDom CAddr] generic_memory concrete_memory /\
  (exists F, Own cast_program concrete_memory "p_Int_i32" [VDom CAddr] F) /\
  exists x, Snap cast_program concrete_memory "p_Int_i32_snap" [VDom CAddr] x.
Proof.
  split; [apply cast_to_generic|]. split; [apply cast_to_concrete|].
  destruct (memory_casts_round_trip (VM:=cast_model) (E:=unit) cast_program type_constructors param_ty i32_ty (casters "Int_i32")
    (emitted_casters i32_ty) (typeof "Param") (typeof "Int_i32") i32_constructor
    {| method_make_generic := "make_generic_Int_i32"; method_make_concrete := "make_concrete_Int_i32" |}
    to_generic to_concrete
    {| ref_to_pred := "p_Int_i32"; ref_to_snap := {| idn_name := "p_Int_i32_snap"; idn_result := TDomain "s_Int_i32" [] |};
       method_assign := "p_Int_i32_assign" |}
    (VDom CAddr) [] concrete_memory generic_memory) as [_ H];
    [apply i32_casts_hold|apply type_laws|vm_compute; reflexivity
    | |apply cast_program_distinct|vm_compute; reflexivity|vm_compute; reflexivity|apply cast_to_generic|].
  { intros f Hf. vm_compute in Hf. repeat (apply elem_of_cons in Hf as [->|Hf]; [vm_compute; repeat constructor|]).
    by apply elem_of_nil in Hf. }
  destruct (H concrete_memory cast_to_concrete) as [HF (x & _ & Hx)]. split; [exact HF|]. exists x. exact Hx.
Defined.

(** [Wrap<i32>] *)
Definition wrap_i32 : RustTyDecomposition :=
  {| decomp_ty := wrap_ty; decomp_args := [ExI32] : GArgs; maybe_inhabited := Some true |}.

Definition two_fields : gmap string val := {["a" := VDom (CInt 1); "b" := VDom (CInt 2)]}.
Definition field_exprs : list Expr := [Local "a" (TDomain "s_Int_i32" []); Local "b" (TDomain "s_Int_i32" [])].

Lemma wrap_laws : exists po (pure : TyPure) adt,
  TyPureEnc (E:=unit) wrap_ty = Ok (po, pure) /\ local_kind po = LocalAdt adt None /\ adt_laws adt.
Proof.
  do 3 eexists. split; [vm_compute; reflexivity|]. split; [reflexivity|]. split.
  - intros c c' vs w Hc Hc' Hw. apply list_elem_of_In in Hc, Hc'.
    destruct Hc as [<-|[]], Hc' as [<-|[]]. cbn [constructor_name] in *.
    destruct vs as [|[| |[| | |c|]|] [|[| |[|z| | |]|] []]]; try done.
    change ((fun t => VDom (CWrap t (CGen c) (CInt z))) <$> type_of c = Some w) in Hw.
    by apply fmap_Some in Hw as (t & _ & ->).
  - intros c vs w i a v Hc Hw Ha Hv. apply list_elem_of_In in Hc.
    destruct Hc as [<-|[]]. cbn [constructor_name constructor_args] in *.
    destruct vs as [|[| |[| | |c|]|] [|[| |[|z| | |]|] []]]; try done.
    change ((fun t => VDom (CWrap t (CGen c) (CInt z))) <$> type_of c = Some w) in Hw.
    apply fmap_Some in Hw as (t & _ & ->).
    destruct i as [|[|i]]; [| |done]; injection Ha as <-; by injection Hv as <-.
Qed.

Lemma use_struct_reads_back_witness :
  exists u s e, TyUsePureEnc (E:=unit) wrap_i32 = Ok u /\ expect_variant_opt (E:=unit) u None = Ok s /\
    field_snaps_to_snap (E:=unit) s field_exprs = Ok e /\ eval two_fields e = Some (VDom wrapped) /\
    (exists f, struct_fields s !! 0 = Some f /\ field_caster f <> NoCast /\
       eval two_fields (read f e) = Some (VDom (CInt 1))) /\
    forall k f v, struct_fields s !! k = Some f -> eval two_fields (read f e) = Some v ->
      [VDom (CInt 1); VDom (CInt 2)] !! k = Some v.
Proof.
  destruct wrap_laws as (po & pure & adt & Hpure & Hk & Hlaws).
  do 3 eexists. split; [vm_compute; reflexivity|]. split; [vm_compute; reflexivity|].
  split; [vm_compute; reflexivity|]. split; [vm_compute; reflexivity|].
  split; [eexists; split; [reflexivity|]; split; [done|vm_compute; reflexivity]|].
  refine (proj2 (use_struct_reads_back (VM:=cast_model) (E:=unit) type_constructors two_fields wrap_i32 _ po pure adt None
    None _ wrap_fields field_exprs _ [VDom (CInt 1); VDom (CInt 2)] (VDom wrapped) _ _ Hpure Hk Hlaws type_laws eq_refl _ _ _ _));
    [vm_compute; reflexivity|vm_compute; reflexivity| |vm_compute; reflexivity|vm_compute; reflexivity|vm_compute; reflexivity].
  intros f n Hf Hn. exists (casters "Int_i32"), (typeof "Param"), (typeof "Int_i32"), i32_constructor.
  apply list_elem_of_In in Hf. destruct Hf as [<-|[<-|[]]]; [|done].
  vm_compute in Hn. injection Hn as <-. apply i32_casts_hold.
Defined.
