(* ===== verification/SpecTyped.v ===== *)
(** * Typed specifications

    [prusti-interface/src/specs/typed.rs]: specification items with their
    provenance, procedure contracts, the graph of type-conditional contracts
    of a procedure, refinement of an implementation's contract by its trait's,
    and the map of all contracts of a crate. *)
From S2P Require Import Prelude.

(** ** Identifiers *)

Record DefId := { def_krate : nat; def_index : nat }.
Abbreviation LocalDefId := nat (only parsing).

#[export] Instance DefId_eq_dec : EqDecision DefId.
Proof. solve_decision. Defined.
#[export] Instance DefId_countable : Countable DefId.
Proof.
  refine (inj_countable' (fun d => (def_krate d, def_index d))
            (fun p => {| def_krate := p.1; def_index := p.2 |}) _).
  by intros [].
Defined.

(** The local crate has number 0 ([LOCAL_CRATE]). *)
Definition is_local (d : DefId) : bool := bool_decide (def_krate d = 0).
Definition to_def_id (l : LocalDefId) : DefId := {| def_krate := 0; def_index := l |}.
Definition as_local (d : DefId) : option LocalDefId :=
  if is_local d then Some (def_index d) else None.

(** ** Specification items *)

Inductive SpecificationItem (T : Type) : Type :=
| Empty
| Inherent (val : T)
| Inherited (val : T)
| Refined (from to : T).
Arguments Empty {T}.
Arguments Inherent {T} val.
Arguments Inherited {T} val.
Arguments Refined {T} from to.

#[export] Instance SpecificationItem_eq_dec {T} `{EqDecision T} : EqDecision (SpecificationItem T).
Proof. solve_decision. Defined.

Module SpecificationItem.
Section item.
Context {T : Type}.

Definition is_empty (s : SpecificationItem T) : bool :=
  match s with Empty => true | _ => false end.

Definition get (s : SpecificationItem T) : option (option T * T) :=
  match s with
  | Empty => None
  | Inherited val => Some (None, val)
  | Inherent val => Some (None, val)
  | Refined from to => Some (Some from, to)
  end.

Definition extract_with_strategy {R} (strategy : option T * T -> R)
    (s : SpecificationItem T) : option R :=
  strategy <$> get s.

Definition extract_with_selective_replacement (s : SpecificationItem T) : option T :=
  extract_with_strategy snd s.

Definition expect_empty_or_inherent {E} (s : SpecificationItem T) : outcome E (option T) :=
  match s with
  | Empty => Ok None
  | Inherent item => Ok (Some item)
  | _ => Panic "internal error: entered unreachable code"
  end.

Definition expect_inherent {E} (s : SpecificationItem T) : outcome E T :=
  match s with
  | Inherent item => Ok item
  | _ => Panic "internal error: entered unreachable code"
  end.

Definition expect_inherited {E} (s : SpecificationItem T) : outcome E T :=
  match s with
  | Inherited item => Ok item
  | _ => Panic "internal error: entered unreachable code"
  end.

Definition expect_refined {E} (s : SpecificationItem T) : outcome E (T * T) :=
  match s with
  | Refined a b => Ok (a, b)
  | _ => Panic "internal error: entered unreachable code"
  end.

Definition set (new_value : T) (s : SpecificationItem T) : SpecificationItem T :=
  match s with
  | Empty => Inherent new_value
  | Inherent _ => Inherent new_value
  | Refined from _ => Refined from new_value
  | Inherited inherited => Refined inherited new_value
  end.

Definition refine {E} `{EqDecision T} (s other : SpecificationItem T) :
    outcome E (SpecificationItem T) :=
  other_val ← match other with
              | Empty => Panic "Trait spec should never be empty"
              | Inherent val => Ok val
              | Inherited val => Ok val
              | Refined _ _ => Panic "Can not refine with a refined item"
              end;
  match s with
  | Empty => Ok (Inherited other_val)
  | Inherent val | Inherited val => Ok (Refined other_val val)
  | Refined from val =>
      if bool_decide (from = other_val) then Ok (Refined from val)
      else Panic "Can not refine this refined item"
  end.
End item.

(** [SpecificationItem<bool>] *)
Definition extract_inherit (s : SpecificationItem bool) : option bool :=
  extract_with_strategy (fun r => default false (fst r) || snd r) s.

(** [SpecificationItem<Vec<T>>] *)
Definition new {T} (vec : list T) : SpecificationItem (list T) :=
  match vec with [] => Empty | _ => Inherent vec end.

Definition extract_with_selective_replacement_iter {T} (s : SpecificationItem (list T)) : list T :=
  match extract_with_selective_replacement s with Some items => items | None => [] end.

Definition push {T} (value : T) (s : SpecificationItem (list T)) : SpecificationItem (list T) :=
  match s with
  | Empty => Inherent [value]
  | Inherent values => Inherent (values ++ [value])
  | Refined from values => Refined from (values ++ [value])
  | Inherited inherited => Refined inherited [value]
  end.
End SpecificationItem.
Import SpecificationItem.

(** ** Procedure kinds *)

Inductive ProcedureSpecificationKind :=
| Impure
| Pure
| Predicate (body : option DefId).

#[export] Instance ProcedureSpecificationKind_eq_dec : EqDecision ProcedureSpecificationKind.
Proof. solve_decision. Defined.

Inductive ProcedureSpecificationKindError :=
| InvalidSpecKindRefinement (base refined : ProcedureSpecificationKind).

Module ProcedureKind.
Abbreviation item := (SpecificationItem ProcedureSpecificationKind).
Abbreviation result := (outcome ProcedureSpecificationKindError).

Definition is_impure_kind (k : ProcedureSpecificationKind) : bool :=
  match k with Impure => true | _ => false end.

Definition validate (s : item) : result unit :=
  match s with
  | Refined base refined =>
      match base, refined with
      | Impure, Impure | Impure, Pure | Pure, Pure | Predicate _, Predicate _ => Ok tt
      | _, _ => Err (InvalidSpecKindRefinement base refined)
      end
  | _ => Ok tt
  end.

Definition is_pure (s : item) : result bool :=
  _ ← validate s;
  Ok (match extract_with_selective_replacement s with
      | Some Pure | Some (Predicate _) => true
      | _ => false
      end).

Definition is_impure (s : item) : result bool :=
  _ ← validate s;
  Ok (match extract_with_selective_replacement s with
      | Some refined => is_impure_kind refined
      | _ => true
      end).

Definition get_predicate_body (s : item) : result (option DefId) :=
  _ ← validate s;
  Ok (match extract_with_selective_replacement s with
      | Some (Predicate pred_id) => pred_id
      | _ => None
      end).
End ProcedureKind.

(** ** Contracts *)

Record Pledge := { pledge_reference : option unit; pledge_lhs : option DefId; pledge_rhs : DefId }.

#[export] Instance Pledge_eq_dec : EqDecision Pledge.
Proof. solve_decision. Defined.

Definition Pledge_new (lhs : option DefId) (rhs : DefId) : Pledge :=
  {| pledge_reference := None; pledge_lhs := lhs; pledge_rhs := rhs |}.

Inductive ExternSpecKind := InherentImpl | TraitImpl | Trait | Method.

Record ProcedureSpecification := {
  ps_source : DefId;
  ps_extern_spec : option ExternSpecKind;
  ps_kind : SpecificationItem ProcedureSpecificationKind;
  ps_pres : SpecificationItem (list DefId);
  ps_posts : SpecificationItem (list DefId);
  ps_pledges : SpecificationItem (list Pledge);
  ps_trusted : SpecificationItem bool;
  ps_terminates : SpecificationItem (option LocalDefId);
  ps_purity : SpecificationItem (option DefId);
}.

Module ProcedureSpecification.
Definition empty (source : DefId) : ProcedureSpecification :=
  {| ps_source := source; ps_extern_spec := None; ps_kind := Inherent Impure;
     ps_pres := Empty; ps_posts := Empty; ps_pledges := Empty;
     ps_trusted := Inherent false; ps_terminates := Inherent None;
     ps_purity := Inherent None |}.

Definition empty_inheriting (source : DefId) : ProcedureSpecification :=
  {| ps_source := source; ps_extern_spec := None; ps_kind := Empty;
     ps_pres := Empty; ps_posts := Empty; ps_pledges := Empty;
     ps_trusted := Empty; ps_terminates := Empty; ps_purity := Empty |}.

Definition replace_empty {T} (spec : SpecificationItem (list T)) : SpecificationItem (list T) :=
  match spec with Empty => Inherent [] | other => other end.

Definition refine {E} (self other : ProcedureSpecification) : outcome E ProcedureSpecification :=
  pres ← refine (ps_pres self) (replace_empty (ps_pres other));
  posts ← refine (ps_posts self) (replace_empty (ps_posts other));
  pledges ← refine (ps_pledges self) (replace_empty (ps_pledges other));
  kind ← refine (ps_kind self) (ps_kind other);
  trusted ← refine (ps_trusted self) (ps_trusted other);
  terminates ← refine (ps_terminates self) (ps_terminates other);
  purity ← refine (ps_purity self) (ps_purity other);
  Ok {| ps_source := ps_source self;
        ps_extern_spec := match ps_extern_spec self with
                          | Some k => Some k
                          | None => ps_extern_spec other
                          end;
        ps_kind := kind; ps_pres := pres; ps_posts := posts; ps_pledges := pledges;
        ps_trusted := trusted; ps_terminates := terminates; ps_purity := purity |}.

Definition with_kind f (s : ProcedureSpecification) : ProcedureSpecification :=
  {| ps_source := ps_source s; ps_extern_spec := ps_extern_spec s; ps_kind := f (ps_kind s);
     ps_pres := ps_pres s; ps_posts := ps_posts s; ps_pledges := ps_pledges s;
     ps_trusted := ps_trusted s; ps_terminates := ps_terminates s; ps_purity := ps_purity s |}.
Definition with_pres f (s : ProcedureSpecification) : ProcedureSpecification :=
  {| ps_source := ps_source s; ps_extern_spec := ps_extern_spec s; ps_kind := ps_kind s;
     ps_pres := f (ps_pres s); ps_posts := ps_posts s; ps_pledges := ps_pledges s;
     ps_trusted := ps_trusted s; ps_terminates := ps_terminates s; ps_purity := ps_purity s |}.
Definition with_posts f (s : ProcedureSpecification) : ProcedureSpecification :=
  {| ps_source := ps_source s; ps_extern_spec := ps_extern_spec s; ps_kind := ps_kind s;
     ps_pres := ps_pres s; ps_posts := f (ps_posts s); ps_pledges := ps_pledges s;
     ps_trusted := ps_trusted s; ps_terminates := ps_terminates s; ps_purity := ps_purity s |}.
Definition with_pledges f (s : ProcedureSpecification) : ProcedureSpecification :=
  {| ps_source := ps_source s; ps_extern_spec := ps_extern_spec s; ps_kind := ps_kind s;
     ps_pres := ps_pres s; ps_posts := ps_posts s; ps_pledges := f (ps_pledges s);
     ps_trusted := ps_trusted s; ps_terminates := ps_terminates s; ps_purity := ps_purity s |}.
Definition with_trusted f (s : ProcedureSpecification) : ProcedureSpecification :=
  {| ps_source := ps_source s; ps_extern_spec := ps_extern_spec s; ps_kind := ps_kind s;
     ps_pres := ps_pres s; ps_posts := ps_posts s; ps_pledges := ps_pledges s;
     ps_trusted := f (ps_trusted s); ps_terminates := ps_terminates s; ps_purity := ps_purity s |}.
Definition with_terminates f (s : ProcedureSpecification) : ProcedureSpecification :=
  {| ps_source := ps_source s; ps_extern_spec := ps_extern_spec s; ps_kind := ps_kind s;
     ps_pres := ps_pres s; ps_posts := ps_posts s; ps_pledges := ps_pledges s;
     ps_trusted := ps_trusted s; ps_terminates := f (ps_terminates s); ps_purity := ps_purity s |}.
Definition with_purity f (s : ProcedureSpecification) : ProcedureSpecification :=
  {| ps_source := ps_source s; ps_extern_spec := ps_extern_spec s; ps_kind := ps_kind s;
     ps_pres := ps_pres s; ps_posts := ps_posts s; ps_pledges := ps_pledges s;
     ps_trusted := ps_trusted s; ps_terminates := ps_terminates s; ps_purity := f (ps_purity s) |}.
Definition with_extern_spec k (s : ProcedureSpecification) : ProcedureSpecification :=
  {| ps_source := ps_source s; ps_extern_spec := k; ps_kind := ps_kind s;
     ps_pres := ps_pres s; ps_posts := ps_posts s; ps_pledges := ps_pledges s;
     ps_trusted := ps_trusted s; ps_terminates := ps_terminates s; ps_purity := ps_purity s |}.
End ProcedureSpecification.
Import (hints) ProcedureSpecification.

(** ** Contract graphs *)

Inductive SpecConstraintKind := ResolveGenericParamTraitBounds.

#[export] Instance SpecConstraintKind_eq_dec : EqDecision SpecConstraintKind.
Proof. solve_decision. Defined.
#[export] Instance SpecConstraintKind_countable : Countable SpecConstraintKind.
Proof.
  refine (inj_countable' (fun _ => tt) (fun _ => ResolveGenericParamTraitBounds) _).
  by intros [].
Defined.

Record SpecGraph (T : Type) := {
  base_spec : T;
  specs_with_constraints : gmap SpecConstraintKind T;
}.
Arguments base_spec {T} _.
Arguments specs_with_constraints {T} _.
Arguments Build_SpecGraph {T} _ _.

Definition SpecGraph_new {T} (spec : T) : SpecGraph T :=
  {| base_spec := spec; specs_with_constraints := ∅ |}.

Module SpecGraph.
Import ProcedureSpecification.
Abbreviation graph := (SpecGraph ProcedureSpecification).

(** [values_mut().for_each] on the constrained specs and the base spec. *)
Definition on_all (f : ProcedureSpecification -> ProcedureSpecification) (g : graph) : graph :=
  {| base_spec := f (base_spec g);
     specs_with_constraints := f <$> specs_with_constraints g |}.

Definition on_base (f : ProcedureSpecification -> ProcedureSpecification) (g : graph) : graph :=
  {| base_spec := f (base_spec g); specs_with_constraints := specs_with_constraints g |}.

(** [get_constrained_spec_mut]: the entry, created from the base spec when
    it is missing, is updated in place by [f]. *)
Definition get_constrained_spec_mut (constraint : SpecConstraintKind)
    (f : ProcedureSpecification -> ProcedureSpecification) (g : graph) : graph :=
  let entry := default (base_spec g) (specs_with_constraints g !! constraint) in
  {| base_spec := base_spec g;
     specs_with_constraints := <[constraint := f entry]> (specs_with_constraints g) |}.

Section operations.
(** Whether the attributes of a spec function, which the compiler stores,
    make it type-conditional. *)
Variable type_cond : LocalDefId -> bool.

Definition get_constraint (spec : LocalDefId) : option SpecConstraintKind :=
  if type_cond spec then Some ResolveGenericParamTraitBounds else None.

Definition add_precondition (pre : LocalDefId) (g : graph) : graph :=
  match get_constraint pre with
  | None => on_base (with_pres (push (to_def_id pre))) g
  | Some constraint =>
      get_constrained_spec_mut constraint (with_pres (push (to_def_id pre))) g
  end.

Definition add_postcondition (post : LocalDefId) (g : graph) : graph :=
  match get_constraint post with
  | None => on_all (with_posts (push (to_def_id post))) g
  | Some obligation =>
      get_constrained_spec_mut obligation (with_posts (push (to_def_id post))) g
  end.

Definition add_purity {E} (purity : LocalDefId) (g : graph) : outcome E graph :=
  match get_constraint purity with
  | None => Panic "separate purity defs are only used for type-conditional spec refinements"
  | Some constraint =>
      Ok (get_constrained_spec_mut constraint
            (fun s => with_purity (set (Some (to_def_id purity)))
                        (with_kind (fun _ => Inherent Pure) s)) g)
  end.

Definition add_pledge (pledge : Pledge) (g : graph) : graph :=
  on_all (with_pledges (push pledge)) g.

Definition set_trusted (trusted : bool) (g : graph) : graph :=
  on_all (with_trusted (set trusted)) g.

Definition set_terminates (terminates : LocalDefId) (g : graph) : graph :=
  on_all (with_terminates (set (Some terminates))) g.

Definition set_kind (kind : ProcedureSpecificationKind) (g : graph) : graph :=
  on_all (with_kind (set kind)) g.

Definition set_extern_spec (extern_spec : ExternSpecKind) (g : graph) : graph :=
  on_all (with_extern_spec (Some extern_spec)) g.
End operations.
End SpecGraph.

(** ** The map of all contracts *)

Inductive LoopSpecification := Invariant (d : LocalDefId) | Variant (d : LocalDefId).

Record TypeSpecification := {
  ts_source : DefId;
  ts_invariant : SpecificationItem (list DefId);
  ts_trusted : SpecificationItem bool;
  ts_model : option (string * LocalDefId);
  ts_counterexample_print : list (option string * LocalDefId);
}.

Definition TypeSpecification_empty (source : DefId) : TypeSpecification :=
  {| ts_source := source; ts_invariant := Empty; ts_trusted := Inherent false;
     ts_model := None; ts_counterexample_print := [] |}.

Record DefSpecificationMap := {
  proc_specs : gmap DefId (SpecGraph ProcedureSpecification);
  loop_specs : gmap DefId LoopSpecification;
  type_specs : gmap DefId TypeSpecification;
  prusti_assertions : gmap DefId LocalDefId;
  prusti_assumptions : gmap DefId LocalDefId;
  prusti_refutations : gmap DefId LocalDefId;
}.

Module DefSpecificationMap.
Definition new : DefSpecificationMap :=
  {| proc_specs := ∅; loop_specs := ∅; type_specs := ∅; prusti_assertions := ∅;
     prusti_assumptions := ∅; prusti_refutations := ∅ |}.

Definition get_loop_spec (m : DefSpecificationMap) (d : DefId) := loop_specs m !! d.
Definition get_proc_spec (m : DefSpecificationMap) (d : DefId) := proc_specs m !! d.
Definition get_type_spec (m : DefSpecificationMap) (d : DefId) := type_specs m !! d.
Definition get_assertion (m : DefSpecificationMap) (d : DefId) := prusti_assertions m !! d.
Definition get_assumption (m : DefSpecificationMap) (d : DefId) := prusti_assumptions m !! d.
Definition get_refutation (m : DefSpecificationMap) (d : DefId) := prusti_refutations m !! d.

Definition with_proc_specs p (m : DefSpecificationMap) : DefSpecificationMap :=
  {| proc_specs := p; loop_specs := loop_specs m; type_specs := type_specs m;
     prusti_assertions := prusti_assertions m; prusti_assumptions := prusti_assumptions m;
     prusti_refutations := prusti_refutations m |}.
Definition with_type_specs t (m : DefSpecificationMap) : DefSpecificationMap :=
  {| proc_specs := proc_specs m; loop_specs := loop_specs m; type_specs := t;
     prusti_assertions := prusti_assertions m; prusti_assumptions := prusti_assumptions m;
     prusti_refutations := prusti_refutations m |}.

(** The three vectors [defid_for_export] fills. *)
Record Export := { ex_specs : list DefId; ex_pure_fns : list DefId; ex_predicates : list DefId }.

Definition Export_app (a b : Export) : Export :=
  {| ex_specs := ex_specs a ++ ex_specs b; ex_pure_fns := ex_pure_fns a ++ ex_pure_fns b;
     ex_predicates := ex_predicates a ++ ex_predicates b |}.

(** What one contract of [def_id] contributes. *)
Definition export_spec {E} (def_id : DefId) (spec : ProcedureSpecification) : outcome E Export :=
  let pledges := default [] (extract_with_selective_replacement (ps_pledges spec)) in
  let specs :=
    default [] (extract_with_selective_replacement (ps_pres spec))
    ++ default [] (extract_with_selective_replacement (ps_posts spec))
    ++ match extract_with_selective_replacement (ps_terminates spec) with
       | Some (Some term) => [to_def_id term]
       | _ => []
       end
    ++ omap pledge_lhs pledges ++ (pledge_rhs <$> pledges) in
  trusted ← unwrap "Expected trusted" (extract_inherit (ps_trusted spec));
  let is_trusted := trusted && (bool_decide (def_id = ps_source spec) || negb (is_local def_id)) in
  pure ← match ProcedureKind.is_pure (ps_kind spec) with
         | Ok b => Ok b
         | Err _ => Panic "Expected pure"
         | Panic s => Panic s
         end;
  Ok {| ex_specs := specs;
        ex_pure_fns := if pure && negb is_trusted then [def_id] else [];
        ex_predicates := match extract_with_selective_replacement (ps_kind spec) with
                         | Some (Predicate (Some d)) => [d]
                         | _ => []
                         end |}.

(** Hash maps are iterated in an unspecified order: the iteration sequences
    are arguments. The constrained specs of a graph are at most one. *)
Definition all_specs (g : SpecGraph ProcedureSpecification) : list ProcedureSpecification :=
  base_spec g :: (snd <$> map_to_list (specs_with_constraints g)).

Fixpoint export_specs {E} (def_id : DefId) (specs : list ProcedureSpecification) :
    outcome E Export :=
  match specs with
  | [] => Ok {| ex_specs := []; ex_pure_fns := []; ex_predicates := [] |}
  | s :: specs => a ← export_spec def_id s; b ← export_specs def_id specs; Ok (Export_app a b)
  end.

Fixpoint export_procs {E} (procs : list (DefId * SpecGraph ProcedureSpecification)) :
    outcome E Export :=
  match procs with
  | [] => Ok {| ex_specs := []; ex_pure_fns := []; ex_predicates := [] |}
  | (d, g) :: procs =>
      a ← export_specs d (all_specs g); b ← export_procs procs; Ok (Export_app a b)
  end.

Definition defid_for_export {E} (procs : list (DefId * SpecGraph ProcedureSpecification))
    (types : list (DefId * TypeSpecification)) : outcome E Export :=
  e ← export_procs procs;
  let invariants :=
    mjoin ((fun t => default [] (extract_with_selective_replacement (ts_invariant (snd t))))
             <$> types) in
  Ok {| ex_specs := ex_specs e ++ invariants; ex_pure_fns := ex_pure_fns e;
        ex_predicates := ex_predicates e |}.

(** A duplicate is reported with its key and the sources of the old and the
    new contract. *)
Fixpoint import_procs (procs : list (DefId * SpecGraph ProcedureSpecification))
    (m : gmap DefId (SpecGraph ProcedureSpecification)) :
    gmap DefId (SpecGraph ProcedureSpecification) * list (DefId * DefId * DefId) :=
  match procs with
  | [] => (m, [])
  | (k, v) :: procs =>
      let errs := match m !! k with
                  | Some other => [(k, ps_source (base_spec other), ps_source (base_spec v))]
                  | None => []
                  end in
      let r := import_procs procs (<[k := v]> m) in
      (fst r, errs ++ snd r)
  end.

Fixpoint import_types (types : list (DefId * TypeSpecification))
    (m : gmap DefId TypeSpecification) :
    gmap DefId TypeSpecification * list (DefId * DefId * DefId) :=
  match types with
  | [] => (m, [])
  | (k, v) :: types =>
      let errs := match m !! k with
                  | Some other => [(k, ts_source other, ts_source v)]
                  | None => []
                  end in
      let r := import_types types (<[k := v]> m) in
      (fst r, errs ++ snd r)
  end.

Definition import_external (procs : list (DefId * SpecGraph ProcedureSpecification))
    (types : list (DefId * TypeSpecification)) (m : DefSpecificationMap) :
    DefSpecificationMap * list (DefId * DefId * DefId) :=
  let p := import_procs procs (proc_specs m) in
  let t := import_types types (type_specs m) in
  (with_type_specs (fst t) (with_proc_specs (fst p) m), snd p ++ snd t).
End DefSpecificationMap.

(** ** Graphs stay consistent *)
Section consistency.
Import ProcedureSpecification SpecGraph.
Variable type_cond : LocalDefId -> bool.

(** One call of a constructor method of [SpecGraph]. *)
Inductive graph_step : graph -> graph -> Prop :=
| step_pre p g : graph_step g (add_precondition type_cond p g)
| step_post p g : graph_step g (add_postcondition type_cond p g)
| step_purity p g g' : @add_purity type_cond Empty_set p g = Ok g' -> graph_step g g'
| step_pledge p g : graph_step g (add_pledge p g)
| step_trusted b g : graph_step g (set_trusted b g)
| step_terminates t g : graph_step g (set_terminates t g)
| step_kind k g : graph_step g (set_kind k g)
| step_extern k g : graph_step g (set_extern_spec k g).

Definition built_from (source : DefId) (g : graph) : Prop :=
  rtc graph_step (SpecGraph_new (empty source)) g.

Definition posts_of (s : ProcedureSpecification) : list DefId :=
  extract_with_selective_replacement_iter (ps_posts s).

Definition local_item {T} (i : SpecificationItem T) : Prop :=
  match i with Empty | Inherent _ => True | _ => False end.

Definition local_spec (s : ProcedureSpecification) : Prop :=
  local_item (ps_pres s) /\ local_item (ps_posts s) /\ local_item (ps_pledges s) /\
  (exists k, ps_kind s = Inherent k) /\ (exists b, ps_trusted s = Inherent b) /\
  (exists t, ps_terminates s = Inherent t) /\ (exists p, ps_purity s = Inherent p).

(** A constrained contract [c] of a base contract [b]: at least its
    postconditions, the same pledges, flags and provenance. *)
Definition extends (b c : ProcedureSpecification) : Prop :=
  posts_of b `sublist_of` posts_of c /\ ps_pledges c = ps_pledges b /\
  ps_trusted c = ps_trusted b /\ ps_terminates c = ps_terminates b /\
  ps_extern_spec c = ps_extern_spec b /\ ps_source c = ps_source b.

Definition consistent (g : graph) : Prop :=
  local_spec (base_spec g) /\
  map_Forall (fun _ c => local_spec c /\ extends (base_spec g) c) (specs_with_constraints g).

Lemma local_set {T} (v : T) i : local_item i -> set v i = Inherent v.
Proof. by destruct i. Qed.

Lemma local_push {T} (v : T) i :
  local_item i -> push v i = Inherent (extract_with_selective_replacement_iter i ++ [v]).
Proof. by destruct i. Qed.

Lemma on_all_consistent f g :
  (forall s, local_spec s -> local_spec (f s)) ->
  (forall b c, local_spec b -> local_spec c -> extends b c -> extends (f b) (f c)) ->
  consistent g -> consistent (on_all f g).
Proof.
  intros Hl He [Hb Hc]. split; [by apply Hl|]. simpl.
  intros k c (c' & <- & Hc')%lookup_fmap_Some. apply Hc in Hc' as [? ?]. split; auto.
Qed.

Lemma constrained_consistent k f g :
  (forall s, local_spec s -> local_spec (f s)) ->
  (forall b c, local_spec c -> extends b c -> extends b (f c)) ->
  consistent g -> consistent (get_constrained_spec_mut k f g).
Proof.
  intros Hl He [Hb Hc]. split; [done|]. simpl. apply map_Forall_insert_2; [|done].
  assert (local_spec (default (base_spec g) (specs_with_constraints g !! k)) /\
          extends (base_spec g) (default (base_spec g) (specs_with_constraints g !! k))) as [? ?].
  { destruct (specs_with_constraints g !! k) as [c|] eqn:E; simpl; [by apply (Hc k)|].
    split; [done | by repeat split]. }
  split; auto.
Qed.

Lemma on_base_pres_consistent v g : consistent g -> consistent (on_base (with_pres (push v)) g).
Proof.
  intros [Hb Hc]. split; [|exact Hc].
  destruct Hb as (Hp & ?). split; [simpl; by rewrite local_push | done].
Qed.

Lemma push_posts_sublist v b c :
  local_spec b -> local_spec c -> posts_of b `sublist_of` posts_of c ->
  posts_of (with_posts (push v) b) `sublist_of` posts_of (with_posts (push v) c).
Proof.
  intros (_ & Hb & _) (_ & Hc & _) Hs. unfold posts_of in *. simpl.
  rewrite !local_push by done. by apply sublist_app.
Qed.

Lemma push_constrained_sublist v b c :
  local_spec c -> posts_of b `sublist_of` posts_of c ->
  posts_of b `sublist_of` posts_of (with_posts (push v) c).
Proof.
  intros (_ & Hc & _) Hs. unfold posts_of in *. simpl. rewrite local_push by done.
  by apply sublist_inserts_r.
Qed.

Ltac local_cases :=
  unfold local_spec, extends; simpl; intros;
  repeat match goal with
  | H : _ /\ _ |- _ => destruct H
  | H : exists _, _ |- _ => destruct H
  end; repeat split; simpl; eauto; try congruence;
  try (rewrite ?local_push, ?local_set by done; done);
  try (match goal with H : ?x = Inherent _ |- context [set _ ?x] => rewrite H end; simpl; eauto);
  try congruence.

Lemma graph_step_consistent g g' : graph_step g g' -> consistent g -> consistent g'.
Proof.
  intros Hs Hc. destruct Hs as [p g|p g|p g g' Hp|p g|b g|t g|k g|k g].
  - unfold add_precondition, get_constraint. destruct (type_cond p).
    + apply constrained_consistent; [local_cases..|done].
    + by apply on_base_pres_consistent.
  - unfold add_postcondition, get_constraint. destruct (type_cond p).
    + apply constrained_consistent; [local_cases| |done].
      intros b c Hlc (Hp & ?). split; [by apply push_constrained_sublist | done].
    + apply on_all_consistent; [local_cases| |done].
      intros b c Hlb Hlc (Hp & ?). split; [by apply push_posts_sublist | done].
  - unfold add_purity, get_constraint in Hp. destruct (type_cond p); simplify_eq.
    apply constrained_consistent; [local_cases..|done].
  - apply on_all_consistent; [local_cases..|done].
  - apply on_all_consistent; [local_cases..|done].
  - apply on_all_consistent; [local_cases..|done].
  - apply on_all_consistent; [local_cases..|done].
  - apply on_all_consistent; [local_cases..|done].
Qed.

Lemma built_consistent source g : built_from source g -> consistent g.
Proof.
  intros Hb. assert (consistent (SpecGraph_new (empty source))) as H0.
  { split; [|done]. unfold local_spec; simpl. repeat split; eauto. }
  revert H0. unfold built_from in Hb. induction Hb as [|g g1 g2 Hs _ IH]; [done|].
  intros H0. apply IH. by eapply graph_step_consistent.
Qed.
End consistency.

(** ** Refinement *)
Section refinement.
Abbreviation replace_empty := ProcedureSpecification.replace_empty.
Abbreviation empty_inheriting := ProcedureSpecification.empty_inheriting.

(** Refining with an [Empty] or [Inherent] trait item never panics. *)
Lemma refine_local {E T} `{EqDecision T} (s o : SpecificationItem T) :
  local_item s -> (exists v, o = Inherent v) -> exists r, @refine T E _ s o = Ok r.
Proof. intros Hs [v ->]. destruct s; simpl in *; eauto; done. Qed.

Lemma refine_local_vec {E T} `{EqDecision T} (s o : SpecificationItem (list T)) :
  local_item s -> local_item o -> exists r, @refine (list T) E _ s (replace_empty o) = Ok r.
Proof. intros Hs Ho. apply refine_local; [done|]. destruct o; simpl in *; eauto; done. Qed.

(** The value a refined item stands for: the implementation's own, else the
    trait's. *)
Lemma refine_extract {E T} `{EqDecision T} (s o r : SpecificationItem T) :
  @refine T E _ s o = Ok r ->
  extract_with_selective_replacement r
  = match extract_with_selective_replacement s with
    | Some v => Some v
    | None => extract_with_selective_replacement o
    end.
Proof.
  unfold refine. destruct o as [|v|v|]; simpl; try discriminate;
    destruct s as [|w|w|f w]; simpl; try (case_bool_decide); intros; by simplify_eq.
Qed.

Definition own {T} (s o : SpecificationItem T) : option T :=
  match extract_with_selective_replacement s with
  | Some v => Some v
  | None => extract_with_selective_replacement o
  end.

Definition inheriting_spec (s : ProcedureSpecification) : Prop :=
  exists src, s = empty_inheriting src.

Lemma refine_total {E} (s o : ProcedureSpecification) :
  local_spec s \/ inheriting_spec s -> local_spec o ->
  exists r, @ProcedureSpecification.refine E s o = Ok r.
Proof.
  intros Hs (Hpre & Hpost & Hpl & Hk & Ht & Hte & Hpu).
  assert (local_item (ps_pres s) /\ local_item (ps_posts s) /\ local_item (ps_pledges s) /\
    local_item (ps_kind s) /\ local_item (ps_trusted s) /\ local_item (ps_terminates s) /\
    local_item (ps_purity s)) as (S1 & S2 & S3 & S4 & S5 & S6 & S7).
  { destruct Hs as [(?&?&?&[? ->]&[? ->]&[? ->]&[? ->])|[src ->]]; repeat split; done. }
  unfold ProcedureSpecification.refine.
  destruct (refine_local_vec (E:=E) _ _ S1 Hpre) as [? ->].
  destruct (refine_local_vec (E:=E) _ _ S2 Hpost) as [? ->].
  destruct (refine_local_vec (E:=E) _ _ S3 Hpl) as [? ->].
  destruct (refine_local (E:=E) _ _ S4 Hk) as [? ->].
  destruct (refine_local (E:=E) _ _ S5 Ht) as [? ->].
  destruct (refine_local (E:=E) _ _ S6 Hte) as [? ->].
  destruct (refine_local (E:=E) _ _ S7 Hpu) as [? ->]. simpl. eauto.
Qed.

(** What a refined contract says. *)
Definition refines_to (s o r : ProcedureSpecification) : Prop :=
  ps_source r = ps_source s /\
  extract_with_selective_replacement (ps_pres r) = own (ps_pres s) (replace_empty (ps_pres o)) /\
  extract_with_selective_replacement (ps_posts r) = own (ps_posts s) (replace_empty (ps_posts o)) /\
  extract_with_selective_replacement (ps_pledges r)
    = own (ps_pledges s) (replace_empty (ps_pledges o)) /\
  extract_with_selective_replacement (ps_kind r) = own (ps_kind s) (ps_kind o) /\
  extract_with_selective_replacement (ps_trusted r) = own (ps_trusted s) (ps_trusted o) /\
  extract_with_selective_replacement (ps_terminates r) = own (ps_terminates s) (ps_terminates o) /\
  extract_with_selective_replacement (ps_purity r) = own (ps_purity s) (ps_purity o).

Lemma refine_spec_extract {E} (s o r : ProcedureSpecification) :
  @ProcedureSpecification.refine E s o = Ok r -> refines_to s o r.
Proof.
  unfold ProcedureSpecification.refine. intros Hr. inv_outcome.
  repeat split; simpl; by eapply refine_extract.
Qed.

(** The order of procedure kinds an override must respect. *)
Inductive kind_refines : ProcedureSpecificationKind -> ProcedureSpecificationKind -> Prop :=
| kr_impure k : (forall b, k <> Predicate b) -> kind_refines Impure k
| kr_pure : kind_refines Pure Pure
| kr_predicate b b' : kind_refines (Predicate b) (Predicate b').

Lemma validate_refined base refined :
  ProcedureKind.validate (Refined base refined) = Ok tt <-> kind_refines base refined.
Proof.
  split.
  - destruct base, refined; simpl; try discriminate; intros _; by constructor.
  - destruct 1 as [k Hk| |]; simpl; try done. destruct k; simpl; try done. by destruct (Hk body).
Qed.
End refinement.

(** ** Import of contracts of other crates *)
Section import.
Import DefSpecificationMap.

Lemma import_procs_union procs m :
  NoDup (fst <$> procs) ->
  fst (import_procs procs m) = list_to_map procs ∪ m.
Proof.
  revert m. induction procs as [|[k v] procs IH]; intros m Hnd; simpl.
  { by rewrite (left_id_L ∅ (∪)). }
  rewrite fmap_cons in Hnd. apply NoDup_cons in Hnd as [Hk Hnd]. rewrite IH by done.
  rewrite <- insert_union_l, insert_union_r; [done|].
  apply not_elem_of_list_to_map_1. done.
Qed.

Lemma import_procs_errors procs m k a b :
  NoDup (fst <$> procs) ->
  (k, a, b) ∈ snd (import_procs procs m) <->
  exists v other, (k, v) ∈ procs /\ m !! k = Some other /\
    a = ps_source (base_spec other) /\ b = ps_source (base_spec v).
Proof.
  revert m. induction procs as [|[k' v'] procs IH]; intros m Hnd; simpl.
  { set_solver. }
  rewrite fmap_cons in Hnd. apply NoDup_cons in Hnd as [Hk Hnd].
  rewrite elem_of_app, IH by done. split.
  - intros [He|(v & other & Hin & Hm & -> & ->)].
    + destruct (m !! k') as [other|] eqn:Em; [|set_solver].
      apply list_elem_of_singleton in He. simplify_eq. exists v', other. set_solver.
    + rewrite lookup_insert_ne in Hm.
      * exists v, other. set_solver.
      * intros ->. apply Hk. apply list_elem_of_fmap. exists (k, v). done.
  - intros (v & other & [Heq|Hin]%elem_of_cons & Hm & -> & ->).
    + simplify_eq. left. rewrite Hm. set_solver.
    + right. exists v, other. rewrite lookup_insert_ne; [done|].
      intros ->. apply Hk. apply list_elem_of_fmap. exists (k, v). done.
Qed.
End import.

(** ** Properties *)



(** the kind is the exception: a type-conditional [#[pure]] makes the
    constrained contract pure and leaves the base contract impure, although
    the documentation of the graph promises the same kind for both. *)
Theorem constrained_kind_differs type_cond source p :
  type_cond p = true ->
  exists g c, built_from type_cond source g /\
    specs_with_constraints g !! ResolveGenericParamTraitBounds = Some c /\
    ps_kind (base_spec g) = Inherent Impure /\ ps_kind c = Inherent Pure.
Proof.
  intros Hp. assert (exists g, @SpecGraph.add_purity type_cond Empty_set p
    (SpecGraph_new (ProcedureSpecification.empty source)) = Ok g) as [g Hg].
  { unfold SpecGraph.add_purity, SpecGraph.get_constraint. rewrite Hp. eauto. }
  exists g. unfold SpecGraph.add_purity, SpecGraph.get_constraint in Hg. rewrite Hp in Hg.
  injection Hg as <-. eexists. split.
  - eapply rtc_l; [apply (step_purity _ p)|apply rtc_refl].
    unfold SpecGraph.add_purity, SpecGraph.get_constraint. by rewrite Hp.
  - split; [apply lookup_insert_eq | done].
Qed.

Lemma constrained_kind_differs_witness :
  exists g c, built_from (fun _ => true) (to_def_id 0) g /\
    specs_with_constraints g !! ResolveGenericParamTraitBounds = Some c /\
    ps_kind (base_spec g) = Inherent Impure /\ ps_kind c = Inherent Pure.
Proof. exact (constrained_kind_differs (fun _ => true) (to_def_id 0) 7 eq_refl). Defined.

(** refining a collected contract, or the contract of an implementation
    without annotations, by a collected trait contract never panics, and in
    the result every item is the implementation's own where it has one and the
    trait's otherwise; a trait without pre- or postconditions or pledges
    counts as having the empty list of them. *)
Theorem refine_selects_own_or_trait {E} s o :
  local_spec s \/ inheriting_spec s -> local_spec o ->
  exists r, @ProcedureSpecification.refine E s o = Ok r /\ refines_to s o r.
Proof.
  intros Hs Ho. destruct (refine_total (E:=E) s o Hs Ho) as [r Hr].
  exists r. split; [done | by eapply refine_spec_extract].
Qed.

Lemma refine_selects_own_or_trait_witness :
  exists r, @ProcedureSpecification.refine unit
      (ProcedureSpecification.empty_inheriting (to_def_id 1))
      (ProcedureSpecification.with_posts (fun _ => Inherent [to_def_id 9])
         (ProcedureSpecification.empty (to_def_id 2))) = Ok r /\
    extract_with_selective_replacement (ps_posts r) = Some [to_def_id 9].
Proof.
  destruct (refine_selects_own_or_trait (E:=unit)
    (ProcedureSpecification.empty_inheriting (to_def_id 1))
    (ProcedureSpecification.with_posts (fun _ => Inherent [to_def_id 9])
         (ProcedureSpecification.empty (to_def_id 2)))) as (r & Hr & Hx).
  - right. by exists (to_def_id 1).
  - unfold local_spec; simpl. repeat split; eauto.
  - exists r. split; [exact Hr | exact (proj1 (proj2 (proj2 Hx)))].
Defined.

(** C22: purity of a refined kind is defined exactly when the override respects
    the order of kinds (impure to impure or pure, pure to pure, predicate to
    predicate); it is then the purity of the overriding kind, and otherwise
    the two kinds are reported. *)
Theorem is_pure_validates base refined :
  (kind_refines base refined ->
     ProcedureKind.is_pure (Refined base refined) = Ok (negb (bool_decide (refined = Impure)))) /\
  (~ kind_refines base refined ->
     ProcedureKind.is_pure (Refined base refined) = Err (InvalidSpecKindRefinement base refined)).
Proof.
  rewrite <- validate_refined. unfold ProcedureKind.is_pure.
  split; destruct base, refined; simpl; intros Hv; try discriminate; done.
Qed.

(** importing the contracts of other crates gives the union in which the
    imported contracts win, and reports exactly the items that had a contract
    before, with the sources of both. *)
Theorem import_external_union procs types m k a b :
  NoDup (fst <$> procs) ->
  proc_specs (fst (DefSpecificationMap.import_external procs types m))
    = list_to_map procs ∪ proc_specs m /\
  ((k, a, b) ∈ snd (DefSpecificationMap.import_procs procs (proc_specs m)) <->
     exists v other, (k, v) ∈ procs /\ proc_specs m !! k = Some other /\
       a = ps_source (base_spec other) /\ b = ps_source (base_spec v)).
Proof.
  intros Hnd. split; [by apply import_procs_union | by apply import_procs_errors].
Qed.

Lemma import_external_union_witness :
  let g i := SpecGraph_new (ProcedureSpecification.empty (to_def_id i)) in
  let d := {| def_krate := 2; def_index := 5 |} in
  proc_specs (fst (DefSpecificationMap.import_external [(d, g 1)] []
    (DefSpecificationMap.with_proc_specs {[d := g 0]} DefSpecificationMap.new)))
  = list_to_map [(d, g 1)] ∪ {[d := g 0]}.
Proof.
  intros g d.
  refine (proj1 (import_external_union [(d, g 1)] []
    (DefSpecificationMap.with_proc_specs {[d := g 0]} DefSpecificationMap.new) d d d _)).
  apply NoDup_singleton.
Defined.
