(* ===== verification/SpecCollect.v ===== *)
(** * Collection of specifications

    [prusti-interface/src/specs/mod.rs], [specs/external.rs] and the attribute
    readers of [utils.rs]: the collector visits every function of the crate,
    reads the attributes the specification macros left, and builds the map of
    typed contracts. What the compiler answers about an item is part of the
    visited item. *)
From Stdlib Require Import Ascii.
From S2P Require Import Prelude SpecTyped.

(** ** Attributes *)

(** A tool attribute keeps its path and, for [path = literal], the literal. *)
Inductive Attribute :=
| Parsed
| Unparsed (segments : list string) (value : option string).

Definition get_prusti_attrs (attrs : list Attribute) : list (string * option string) :=
  omap (fun a => match a with
                 | Unparsed [tool; name] value => if bool_decide (tool = "prusti")
                                                  then Some (name, value) else None
                 | _ => None
                 end) attrs.

Definition has_prusti_attr (attrs : list Attribute) (name : string) : bool :=
  existsb (fun item => bool_decide (fst item = name)) (get_prusti_attrs attrs).

(** [str::replace] of an escaped quote by a quote. *)
Fixpoint unescape_quotes (s : string) : string :=
  match s with
  | String "092"%char (String "034"%char s) => String "034"%char (unescape_quotes s)
  | String c s => String c (unescape_quotes s)
  | EmptyString => EmptyString
  end.

Definition read_prusti_attrs (name : string) (attrs : list Attribute) : list string :=
  omap (fun item => if bool_decide (fst item = name)
                    then unescape_quotes <$> snd item else None) (get_prusti_attrs attrs).

Definition read_prusti_attr (name : string) (attrs : list Attribute) : option string :=
  head (read_prusti_attrs name attrs).

(** The markers that stand for annotations of the user. *)
Definition prusti_annotations (attrs : list Attribute) : list string :=
  filter (fun n => n <> "specs_version") (fst <$> get_prusti_attrs attrs).

(** ** References from procedures to spec functions *)

Abbreviation SpecificationId := N (only parsing).

Inductive SpecIdRef :=
| PreconditionRef (id : SpecificationId)
| PostconditionRef (id : SpecificationId)
| PurityRef (id : SpecificationId)
| PledgeRef (lhs : option SpecificationId) (rhs : SpecificationId)
| PredicateRef (id : SpecificationId)
| TerminatesRef (id : SpecificationId).

Record ProcedureSpecRefs := {
  spec_id_refs : list SpecIdRef; refs_pure : bool; refs_abstract_predicate : bool;
  refs_trusted : bool;
}.

Definition kind_of_refs (refs : ProcedureSpecRefs) : ProcedureSpecificationKind :=
  if refs_abstract_predicate refs then Predicate None
  else if refs_pure refs then Pure else Impure.

Record TypeSpecRefs := {
  ty_invariants : list LocalDefId; ty_trusted : bool; ty_model : option (string * LocalDefId);
  ty_counterexample_print : list (option string * LocalDefId);
}.

Definition TypeSpecRefs_default : TypeSpecRefs :=
  {| ty_invariants := []; ty_trusted := false; ty_model := None; ty_counterexample_print := [] |}.

Section read_refs.
Context {E : Type}.
(** [Uuid::parse_str] and the configuration flag [opt_in_verification]. *)
Variable parse_uuid : string -> option SpecificationId.
Variable opt_in_verification : bool.

Definition parse_spec_id (raw : string) : outcome E SpecificationId :=
  unwrap "cannot parse the spec_id" (parse_uuid raw).

Definition read_refs (name : string) (mk : SpecificationId -> SpecIdRef)
    (attrs : list Attribute) : outcome E (list SpecIdRef) :=
  collect (fun raw => mk <$> parse_spec_id raw) (read_prusti_attrs name attrs).

Definition is_predicate_ref (r : SpecIdRef) : bool :=
  match r with PredicateRef _ => true | _ => false end.

Definition get_procedure_spec_ids (attrs : list Attribute) :
    outcome E (option ProcedureSpecRefs) :=
  pres ← read_refs "pre_spec_id_ref" PreconditionRef attrs;
  posts ← read_refs "post_spec_id_ref" PostconditionRef attrs;
  purity ← read_refs "pure_spec_id_ref" PurityRef attrs;
  terminates ← read_refs "terminates_spec_id_ref" TerminatesRef attrs;
  pledges ← read_refs "pledge_spec_id_ref" (PledgeRef None) attrs;
  assert_pledge ←
    match read_prusti_attr "assert_pledge_spec_id_ref_lhs" attrs,
          read_prusti_attr "assert_pledge_spec_id_ref_rhs" attrs with
    | Some lhs, Some rhs =>
        lhs ← parse_spec_id lhs; rhs ← parse_spec_id rhs; Ok [PledgeRef (Some lhs) rhs]
    | None, None => Ok []
    | _, _ => Panic "internal error: entered unreachable code"
    end;
  predicate ← match read_prusti_attr "pred_spec_id_ref" attrs with
              | Some raw => id ← parse_spec_id raw; Ok [PredicateRef id]
              | None => Ok []
              end;
  let refs := pres ++ posts ++ purity ++ terminates ++ pledges ++ assert_pledge ++ predicate in
  let is_predicate := match last refs with Some r => is_predicate_ref r | None => false end in
  let pure := has_prusti_attr attrs "pure" in
  let trusted := has_prusti_attr attrs "trusted"
    || (negb is_predicate && opt_in_verification && negb (has_prusti_attr attrs "verified")) in
  let abstract_predicate := has_prusti_attr attrs "abstract_predicate" in
  if abstract_predicate || pure || trusted || negb (bool_decide (refs = []))
  then Ok (Some {| spec_id_refs := refs; refs_pure := pure;
                   refs_abstract_predicate := abstract_predicate; refs_trusted := trusted |})
  else Ok None.
End read_refs.

(** ** From references to contract graphs *)

Section determine_procedures.
Context {E : Type}.
Variable type_cond : LocalDefId -> bool.
Variable spec_functions : gmap SpecificationId LocalDefId.
Import SpecGraph.

Definition spec_function (id : SpecificationId) : outcome E LocalDefId :=
  unwrap "called `Option::unwrap()` on a `None` value" (spec_functions !! id).

(** One iteration over [spec_id_refs]; the second component is
    [kind_override]. *)
Definition apply_ref (st : graph * option ProcedureSpecificationKind) (r : SpecIdRef) :
    outcome E (graph * option ProcedureSpecificationKind) :=
  let '(spec, kind_override) := st in
  match r with
  | PreconditionRef id =>
      f ← spec_function id; Ok (add_precondition type_cond f spec, kind_override)
  | PostconditionRef id =>
      f ← spec_function id; Ok (add_postcondition type_cond f spec, kind_override)
  | PurityRef id =>
      f ← spec_function id; spec ← add_purity type_cond f spec; Ok (spec, kind_override)
  | PledgeRef lhs rhs =>
      lhs ← match lhs with
            | Some id => f ← spec_function id; Ok (Some (to_def_id f))
            | None => Ok None
            end;
      rhs ← spec_function rhs;
      Ok (add_pledge (Pledge_new lhs (to_def_id rhs)) spec, kind_override)
  | PredicateRef id =>
      f ← spec_function id; Ok (spec, Some (Predicate (Some (to_def_id f))))
  | TerminatesRef id =>
      f ← spec_function id; Ok (set_terminates f spec, kind_override)
  end.

Fixpoint apply_refs (st : graph * option ProcedureSpecificationKind) (rs : list SpecIdRef) :
    outcome E (graph * option ProcedureSpecificationKind) :=
  match rs with
  | [] => Ok st
  | r :: rs => st ← apply_ref st r; apply_refs st rs
  end.

Definition graph_of_refs (local_id : LocalDefId) (refs : ProcedureSpecRefs) : outcome E graph :=
  let spec := SpecGraph_new (ProcedureSpecification.empty (to_def_id local_id)) in
  let spec := set_kind (kind_of_refs refs) spec in
  st ← apply_refs (spec, None) (spec_id_refs refs);
  let '(spec, kind_override) := st in
  let spec := set_trusted (refs_trusted refs) spec in
  Ok (match kind_override with Some kind => set_kind kind spec | None => spec end).

(** The errors are the procedures reported as unsupported. *)
Fixpoint determine_procedure_specs (entries : list (LocalDefId * ProcedureSpecRefs))
    (procs : gmap DefId graph) : outcome E (gmap DefId graph * list LocalDefId) :=
  match entries with
  | [] => Ok (procs, [])
  | (local_id, refs) :: entries =>
      spec ← graph_of_refs local_id refs;
      trusted ← SpecificationItem.expect_inherent (ps_trusted (base_spec spec));
      if negb (bool_decide (specs_with_constraints spec = ∅)) && negb trusted
      then r ← determine_procedure_specs entries procs; Ok (fst r, local_id :: snd r)
      else determine_procedure_specs entries (<[to_def_id local_id := spec]> procs)
  end.
End determine_procedures.

(** ** External specifications *)

Inductive ExternSpecDeclaration :=
| DeclInherent (d : DefId)
| DeclTraitImpl (trait_method impl_method : DefId)
| DeclTrait (d : DefId)
| DeclMethod (d : DefId).

#[export] Instance ExternSpecDeclaration_eq_dec : EqDecision ExternSpecDeclaration.
Proof. solve_decision. Defined.
#[export] Instance ExternSpecDeclaration_countable : Countable ExternSpecDeclaration.
Proof.
  refine (inj_countable' (fun d => match d with
      | DeclInherent d => inl (inl d) | DeclTraitImpl a b => inl (inr (a, b))
      | DeclTrait d => inr (inl d) | DeclMethod d => inr (inr d) end)
    (fun s => match s with
      | inl (inl d) => DeclInherent d | inl (inr (a, b)) => DeclTraitImpl a b
      | inr (inl d) => DeclTrait d | inr (inr d) => DeclMethod d end) _).
  by intros [].
Defined.

Definition get_target_def_id (d : ExternSpecDeclaration) : DefId :=
  match d with
  | DeclInherent did | DeclTraitImpl _ did | DeclTrait did | DeclMethod did => did
  end.

Definition ExternSpecKind_from (d : ExternSpecDeclaration) : ExternSpecKind :=
  match d with
  | DeclInherent _ => InherentImpl
  | DeclTraitImpl _ _ => TraitImpl
  | DeclTrait _ => Trait
  | DeclMethod _ => Method
  end.

Definition ExternSpecKind_try_from (s : string) : option ExternSpecKind :=
  if bool_decide (s = "inherent_impl") then Some InherentImpl
  else if bool_decide (s = "trait_impl") then Some TraitImpl
  else if bool_decide (s = "trait") then Some Trait
  else if bool_decide (s = "method") then Some Method
  else None.

(** The call the body of an extern spec function contains, with the
    compiler's answers about the callee. *)
Record ExternCall := {
  call_target : DefId;
  call_is_trait_method_impl : bool;
  call_is_trait_method : bool;
  call_impl : option DefId;  (** [find_impl_of_trait_method_call] *)
  call_resolved : DefId;     (** [resolve_method_call] *)
  call_resolved_generics : Z;
  call_current_generics : Z;
}.

Definition from_method_call (c : ExternCall) : ExternSpecDeclaration :=
  match call_is_trait_method c, call_impl c with
  | true, None => DeclTrait (call_target c)
  | true, Some impl => DeclTraitImpl (call_target c) impl
  | false, _ => if call_is_trait_method_impl c then DeclInherent (call_target c)
                else DeclMethod (call_target c)
  end.

Inductive ExternSpecResolverError :=
| InvalidExternSpecForTraitImpl (d : DefId)
| InvalidGenerics (diff : Z) (d : DefId)
| ResolvedToDefault (d : DefId).

Record ExternSpecResolver := {
  extern_fn_map : gmap ExternSpecDeclaration DefId;
  spec_duplicates : gmap DefId (list DefId);
  resolver_errors : list ExternSpecResolverError;
}.

Module ExternResolver.
Definition new : ExternSpecResolver :=
  {| extern_fn_map := ∅; spec_duplicates := ∅; resolver_errors := [] |}.

Definition push_error (e : ExternSpecResolverError) (r : ExternSpecResolver) :=
  {| extern_fn_map := extern_fn_map r; spec_duplicates := spec_duplicates r;
     resolver_errors := resolver_errors r ++ [e] |}.

Definition register_duplicate_spec (decl dup : DefId) (r : ExternSpecResolver) :=
  {| extern_fn_map := extern_fn_map r;
     spec_duplicates :=
       <[decl := default [] (spec_duplicates r !! decl) ++ [dup]]> (spec_duplicates r);
     resolver_errors := resolver_errors r |}.

Definition check_validity (kind : ExternSpecKind) (decl : ExternSpecDeclaration)
    (r : ExternSpecResolver) : ExternSpecResolver :=
  match kind, decl with
  | InherentImpl, DeclTraitImpl d _ => push_error (InvalidExternSpecForTraitImpl d) r
  | _, _ => r
  end.

(** The check that the spec can be called with the target's generics. *)
Definition check_resolution (kind : ExternSpecKind) (c : ExternCall) (r : ExternSpecResolver) :
    ExternSpecResolver :=
  match kind, bool_decide (call_resolved c = call_target c) with
  | TraitImpl, true => push_error (ResolvedToDefault (call_target c)) r
  | _, _ =>
      if bool_decide (call_resolved_generics c = call_current_generics c) then r
      else push_error (InvalidGenerics (call_resolved_generics c - call_current_generics c)
                         (call_resolved c)) r
  end.

Definition add_extern_fn {E} (local_id : LocalDefId) (kind : ExternSpecKind)
    (spec_found : option ExternCall) (r : ExternSpecResolver) : outcome E ExternSpecResolver :=
  match spec_found with
  | None => Ok r
  | Some c =>
      let decl := from_method_call c in
      _ ← match kind, decl with
          | Trait, DeclTrait _ => Ok tt
          | Trait, _ =>
              Panic "External specification declared on a trait did not resolve to a trait method"
          | TraitImpl, DeclTraitImpl _ _ => Ok tt
          | TraitImpl, _ =>
              Panic "External specification declared on a trait implementation did not resolve to a concrete type"
          | _, _ => Ok tt
          end;
      let r := check_resolution kind c r in
      match extern_fn_map r !! decl with
      | Some _ => Ok (register_duplicate_spec (call_target c) (to_def_id local_id) r)
      | None =>
          let r := check_validity kind decl r in
          Ok {| extern_fn_map := <[decl := to_def_id local_id]> (extern_fn_map r);
                spec_duplicates := spec_duplicates r; resolver_errors := resolver_errors r |}
      end
  end.
End ExternResolver.

(** Contracts move from the generated function to the function they are for;
    the errors are the targets that already had one. *)
Fixpoint determine_extern_specs {E} (entries : list (ExternSpecDeclaration * DefId))
    (procs : gmap DefId SpecGraph.graph) :
    outcome E (gmap DefId SpecGraph.graph * list DefId) :=
  match entries with
  | [] => Ok (procs, [])
  | (decl, spec_id) :: entries =>
      let target := get_target_def_id decl in
      let errs := match procs !! target with Some _ => [target] | None => [] end in
      spec ← unwrap "called `Option::unwrap()` on a `None` value" (procs !! spec_id);
      let spec := SpecGraph.set_extern_spec (ExternSpecKind_from decl) spec in
      r ← determine_extern_specs entries (<[target := spec]> (delete spec_id procs));
      Ok (fst r, errs ++ snd r)
  end.

(** ** The collector *)

Record SpecCollector := {
  extern_resolver : ExternSpecResolver;
  spec_functions : gmap SpecificationId LocalDefId;
  procedure_specs : gmap LocalDefId ProcedureSpecRefs;
  c_loop_specs : list LocalDefId;
  loop_variants : list LocalDefId;
  c_type_specs : gmap LocalDefId TypeSpecRefs;
  c_prusti_assertions : list LocalDefId;
  c_prusti_assumptions : list LocalDefId;
  c_prusti_refutations : list LocalDefId;
  (** methods reported by [check_trait_impl_refinement] *)
  impl_refinement_errors : list LocalDefId;
}.

(** A visited function: its attributes and what the compiler knows about the
    impl block it stands in. *)
Record FnItem := {
  fn_id : LocalDefId;
  fn_attrs : list Attribute;
  (** the type of the impl block around the first input *)
  fn_self_type : option DefId;
  (** the attributes of the impl block, when it is a local trait impl *)
  fn_trait_impl_attrs : option (list Attribute);
  (** the local type the return type resolves to *)
  fn_model_ty : option LocalDefId;
  fn_extern_call : option ExternCall;
}.

Module Collector.
Definition new : SpecCollector :=
  {| extern_resolver := ExternResolver.new; spec_functions := ∅; procedure_specs := ∅;
     c_loop_specs := []; loop_variants := []; c_type_specs := ∅; c_prusti_assertions := [];
     c_prusti_assumptions := []; c_prusti_refutations := []; impl_refinement_errors := [] |}.

Definition with_resolver r (c : SpecCollector) : SpecCollector :=
  {| extern_resolver := r; spec_functions := spec_functions c;
     procedure_specs := procedure_specs c; c_loop_specs := c_loop_specs c;
     loop_variants := loop_variants c; c_type_specs := c_type_specs c;
     c_prusti_assertions := c_prusti_assertions c;
     c_prusti_assumptions := c_prusti_assumptions c;
     c_prusti_refutations := c_prusti_refutations c;
     impl_refinement_errors := impl_refinement_errors c |}.
Definition with_procedure id refs errs (c : SpecCollector) : SpecCollector :=
  {| extern_resolver := extern_resolver c; spec_functions := spec_functions c;
     procedure_specs := <[id := refs]> (procedure_specs c); c_loop_specs := c_loop_specs c;
     loop_variants := loop_variants c; c_type_specs := c_type_specs c;
     c_prusti_assertions := c_prusti_assertions c;
     c_prusti_assumptions := c_prusti_assumptions c;
     c_prusti_refutations := c_prusti_refutations c;
     impl_refinement_errors := impl_refinement_errors c ++ errs |}.
Definition with_type_specs t (c : SpecCollector) : SpecCollector :=
  {| extern_resolver := extern_resolver c; spec_functions := spec_functions c;
     procedure_specs := procedure_specs c; c_loop_specs := c_loop_specs c;
     loop_variants := loop_variants c; c_type_specs := t;
     c_prusti_assertions := c_prusti_assertions c;
     c_prusti_assumptions := c_prusti_assumptions c;
     c_prusti_refutations := c_prusti_refutations c;
     impl_refinement_errors := impl_refinement_errors c |}.

(** [self.type_specs.entry(t).or_default()], updated by [f]. *)
Definition update_type (t : LocalDefId) (f : TypeSpecRefs -> TypeSpecRefs)
    (c : SpecCollector) : SpecCollector :=
  with_type_specs
    (<[t := f (default TypeSpecRefs_default (c_type_specs c !! t))]> (c_type_specs c)) c.

Definition self_type {E} (f : FnItem) : outcome E LocalDefId :=
  d ← unwrap "called `Option::unwrap()` on a `None` value" (fn_self_type f);
  unwrap "called `Option::unwrap()` on a `None` value" (as_local d).

(** A trait implementation may carry annotations only when its block is
    marked [#[refine_trait_spec]]. *)
Definition check_trait_impl_refinement (f : FnItem) : list LocalDefId :=
  match fn_trait_impl_attrs f with
  | None => []
  | Some impl_attrs =>
      if has_prusti_attr impl_attrs "refine_trait_spec" then []
      else if bool_decide (prusti_annotations (fn_attrs f) = []) then []
      else [fn_id f]
  end.

Section visit.
Context {E : Type}.
Variable parse_uuid : string -> option SpecificationId.
Variable opt_in_verification : bool.
Variable f : FnItem.

Definition attr (name : string) : bool := has_prusti_attr (fn_attrs f) name.
Definition when (b : bool) (l : list LocalDefId) : list LocalDefId :=
  if b then l ++ [fn_id f] else l.

Definition visit_type_marker (name : string) (g : TypeSpecRefs -> TypeSpecRefs)
    (c : SpecCollector) : outcome E SpecCollector :=
  if attr name then t ← self_type f; Ok (update_type t g c) else Ok c.

(** A function that carries a [spec_id] is a specification. *)
Definition visit_spec_fn (raw_spec_id : string) (c : SpecCollector) :
    outcome E SpecCollector :=
  spec_id ← parse_spec_id parse_uuid raw_spec_id;
  let c :=
    {| extern_resolver := extern_resolver c;
       spec_functions := <[spec_id := fn_id f]> (spec_functions c);
       procedure_specs := procedure_specs c;
       c_loop_specs := when (attr "loop_body_invariant_spec") (c_loop_specs c);
       loop_variants := when (attr "loop_body_variant_spec") (loop_variants c);
       c_type_specs := c_type_specs c;
       c_prusti_assertions := when (attr "prusti_assertion") (c_prusti_assertions c);
       c_prusti_assumptions := when (attr "prusti_assumption") (c_prusti_assumptions c);
       c_prusti_refutations := when (attr "prusti_refutation") (c_prusti_refutations c);
       impl_refinement_errors := impl_refinement_errors c |} in
  c ← visit_type_marker "type_invariant_spec"
        (fun t => {| ty_invariants := ty_invariants t ++ [fn_id f]; ty_trusted := ty_trusted t;
                     ty_model := ty_model t;
                     ty_counterexample_print := ty_counterexample_print t |}) c;
  c ← visit_type_marker "trusted_type"
        (fun t => {| ty_invariants := ty_invariants t; ty_trusted := true;
                     ty_model := ty_model t;
                     ty_counterexample_print := ty_counterexample_print t |}) c;
  visit_type_marker "counterexample_print"
        (fun t => {| ty_invariants := ty_invariants t; ty_trusted := ty_trusted t;
                     ty_model := ty_model t;
                     ty_counterexample_print := ty_counterexample_print t ++
                       [(read_prusti_attr "counterexample_print" (fn_attrs f), fn_id f)] |}) c.

Definition visit_model (c : SpecCollector) : outcome E SpecCollector :=
  if attr "type_models_to_model_fn" then
    match fn_model_ty f, read_prusti_attr "type_models_to_model_fn" (fn_attrs f) with
    | Some model_ty, Some a =>
        d ← unwrap "called `Option::unwrap()` on a `None` value" (fn_self_type f);
        Ok (match as_local d with
            | Some t =>
                update_type t
                  (fun s => {| ty_invariants := ty_invariants s; ty_trusted := ty_trusted s;
                               ty_model := Some (a, model_ty);
                               ty_counterexample_print := ty_counterexample_print s |}) c
            | None => c
            end)
    | _, _ => Ok c
    end
  else Ok c.

Definition visit_fn (c : SpecCollector) : outcome E SpecCollector :=
  match read_prusti_attr "spec_id" (fn_attrs f) with
  | Some raw_spec_id => visit_spec_fn raw_spec_id c
  | None =>
      c ← if attr "extern_spec" then
            kind ← unwrap "called `Result::unwrap()` on an `Err` value"
                     (ExternSpecKind_try_from
                        (default "" (read_prusti_attr "extern_spec" (fn_attrs f))));
            r ← ExternResolver.add_extern_fn (fn_id f) kind (fn_extern_call f)
                  (extern_resolver c);
            Ok (with_resolver r c)
          else Ok c;
      refs ← get_procedure_spec_ids parse_uuid opt_in_verification (fn_attrs f);
      let c := match refs with
               | Some refs => with_procedure (fn_id f) refs (check_trait_impl_refinement f) c
               | None => c
               end in
      visit_model c
  end.

(** [visit_trait_item], and the closure case of [visit_stmt]. *)
Definition visit_trait_item (c : SpecCollector) : outcome E SpecCollector :=
  refs ← get_procedure_spec_ids parse_uuid opt_in_verification (fn_attrs f);
  Ok (match refs with
      | Some refs => with_procedure (fn_id f) refs [] c
      | None => c
      end).

Definition visit_closure_stmt (c : SpecCollector) : outcome E SpecCollector :=
  if attr "closure" then visit_trait_item c else Ok c.
End visit.

(** The other maps of the result. *)
Definition determine_loop_specs (c : SpecCollector) : gmap DefId LoopSpecification :=
  foldl (fun m l => <[to_def_id l := Variant l]> m)
    (foldl (fun m l => <[to_def_id l := Invariant l]> m) ∅ (c_loop_specs c))
    (loop_variants c).

Definition type_spec_of_refs (t : LocalDefId) (r : TypeSpecRefs) : TypeSpecification :=
  {| ts_source := to_def_id t; ts_invariant := Inherent (to_def_id <$> ty_invariants r);
     ts_trusted := Inherent (ty_trusted r); ts_model := ty_model r;
     ts_counterexample_print := ty_counterexample_print r |}.

(** The errors are the types whose invariants the configuration disables. *)
Fixpoint determine_type_specs (enable_type_invariants : bool)
    (entries : list (LocalDefId * TypeSpecRefs)) (m : gmap DefId TypeSpecification) :
    gmap DefId TypeSpecification * list LocalDefId :=
  match entries with
  | [] => (m, [])
  | (t, r) :: entries =>
      let errs := if negb (bool_decide (ty_invariants r = [])) && negb enable_type_invariants
                  then [t] else [] in
      let rest := determine_type_specs enable_type_invariants entries
                    (<[to_def_id t := type_spec_of_refs t r]> m) in
      (fst rest, errs ++ snd rest)
  end.

Definition determine_prusti (l : list LocalDefId) : gmap DefId LocalDefId :=
  foldl (fun m l => <[to_def_id l := l]> m) ∅ l.

Record BuildErrors := {
  unsupported_type_cond : list LocalDefId;
  duplicate_extern : list DefId;
  disabled_invariants : list LocalDefId;
}.

(** [build_def_specs]; [procs], [externs] and [types] are the orders in which
    the hash maps of the collector are iterated. *)
Definition build_def_specs {E} (type_cond : LocalDefId -> bool) (enable_type_invariants : bool)
    (procs : list (LocalDefId * ProcedureSpecRefs))
    (externs : list (ExternSpecDeclaration * DefId))
    (types : list (LocalDefId * TypeSpecRefs)) (c : SpecCollector) :
    outcome E (DefSpecificationMap * BuildErrors) :=
  p ← determine_procedure_specs type_cond (spec_functions c) procs ∅;
  e ← determine_extern_specs externs (fst p);
  let t := determine_type_specs enable_type_invariants types ∅ in
  Ok ({| proc_specs := fst e; loop_specs := determine_loop_specs c; type_specs := fst t;
         prusti_assertions := determine_prusti (c_prusti_assertions c);
         prusti_assumptions := determine_prusti (c_prusti_assumptions c);
         prusti_refutations := determine_prusti (c_prusti_refutations c) |},
      {| unsupported_type_cond := snd p; duplicate_extern := snd e;
         disabled_invariants := snd t |}).
End Collector.

(** ** What the collected contracts say *)
Section graph_of_refs.
Context {E : Type}.
Variable type_cond : LocalDefId -> bool.
Variable fns : gmap SpecificationId LocalDefId.
Import SpecGraph.

(** The unconditional spec functions a list of references selects. *)
Definition select (sel : SpecIdRef -> option SpecificationId) (rs : list SpecIdRef) : list DefId :=
  omap (fun r => id ← sel r; f ← fns !! id;
                 if type_cond f then None else Some (to_def_id f)) rs.

Definition sel_pre (r : SpecIdRef) : option SpecificationId :=
  match r with PreconditionRef id => Some id | _ => None end.
Definition sel_post (r : SpecIdRef) : option SpecificationId :=
  match r with PostconditionRef id => Some id | _ => None end.

Definition override_of (ko : option ProcedureSpecificationKind) (r : SpecIdRef) :
    option ProcedureSpecificationKind :=
  match r with
  | PredicateRef id => (fun f => Predicate (Some (to_def_id f))) <$> fns !! id
  | _ => ko
  end.

Definition pres_of (s : ProcedureSpecification) : list DefId :=
  SpecificationItem.extract_with_selective_replacement_iter (ps_pres s).

Lemma push_iter {T} (v : T) i :
  local_item i ->
  SpecificationItem.extract_with_selective_replacement_iter (SpecificationItem.push v i)
  = SpecificationItem.extract_with_selective_replacement_iter i ++ [v].
Proof. intros Hi. by rewrite local_push. Qed.

Lemma apply_ref_step g ko r g' ko' :
  @apply_ref E type_cond fns (g, ko) r = Ok (g', ko') -> rtc (graph_step type_cond) g g'.
Proof.
  destruct r; simpl; intros Ha; inv_outcome; simplify_eq;
    try (apply rtc_once; by constructor); try apply rtc_refl.
  apply rtc_once. eapply (step_purity _ x). unfold add_purity in *.
  destruct (get_constraint _ _); by simplify_eq.
Qed.

(** What one reference does to the base contract. *)
Lemma apply_ref_base g ko r g' ko' :
  local_spec (base_spec g) ->
  @apply_ref E type_cond fns (g, ko) r = Ok (g', ko') ->
  pres_of (base_spec g') = pres_of (base_spec g) ++ select sel_pre [r] /\
  posts_of (base_spec g') = posts_of (base_spec g) ++ select sel_post [r] /\
  ps_kind (base_spec g') = ps_kind (base_spec g) /\ ko' = override_of ko r.
Proof.
  intros (Hpre & Hpost & _) Ha. unfold pres_of, posts_of, select.
  destruct r as [id|id|id|lhs id|id|id]; simpl in *; inv_outcome; simplify_eq;
    unfold spec_function in *; inv_outcome; rewrite ?H; simpl; rewrite ?app_nil_r; try done.
  - unfold add_precondition, get_constraint. destruct (type_cond x); simpl;
      rewrite ?push_iter, ?app_nil_r by done; done.
  - unfold add_postcondition, get_constraint. destruct (type_cond x); simpl;
      rewrite ?push_iter, ?app_nil_r by done; done.
  - unfold add_purity, get_constraint in *. destruct (type_cond x); by simplify_eq/=.
Qed.

Lemma steps_consistent g g' :
  rtc (graph_step type_cond) g g' -> consistent g -> consistent g'.
Proof. induction 1; eauto using graph_step_consistent. Qed.

Lemma select_cons sel r rs : select sel (r :: rs) = select sel [r] ++ select sel rs.
Proof. unfold select. simpl. by destruct (sel r ≫= _). Qed.

Lemma apply_refs_base rs g ko g' ko' :
  consistent g ->
  @apply_refs E type_cond fns (g, ko) rs = Ok (g', ko') ->
  rtc (graph_step type_cond) g g' /\
  pres_of (base_spec g') = pres_of (base_spec g) ++ select sel_pre rs /\
  posts_of (base_spec g') = posts_of (base_spec g) ++ select sel_post rs /\
  ps_kind (base_spec g') = ps_kind (base_spec g) /\ ko' = foldl override_of ko rs.
Proof.
  revert g ko. induction rs as [|r rs IH]; intros g ko Hc Ha; cbn [apply_refs] in Ha.
  { simplify_eq. simpl. rewrite !app_nil_r. repeat split; [apply rtc_refl|done..]. }
  inv_outcome. destruct x as [g1 ko1].
  match goal with H : apply_ref _ _ _ _ = _ |- _ =>
    pose proof (apply_ref_step _ _ _ _ _ H) as Hstep;
    destruct (apply_ref_base _ _ _ _ _ (proj1 Hc) H) as (Hp & Hq & Hk & ->) end.
  pose proof (steps_consistent _ _ Hstep Hc) as Hc1.
  destruct (IH g1 _ Hc1 ltac:(eassumption)) as (Hs & -> & -> & -> & ->).
  rewrite Hp, Hq, Hk, <- !app_assoc, <- !select_cons. repeat split; [|done..].
  by etrans.
Qed.

Definition final_kind (refs : ProcedureSpecRefs) : ProcedureSpecificationKind :=
  default (kind_of_refs refs) (foldl override_of None (spec_id_refs refs)).

(** The contract a procedure's references stand for. *)
Definition graph_matches (local_id : LocalDefId) (refs : ProcedureSpecRefs) (g : graph) : Prop :=
  built_from type_cond (to_def_id local_id) g /\
  pres_of (base_spec g) = select sel_pre (spec_id_refs refs) /\
  posts_of (base_spec g) = select sel_post (spec_id_refs refs) /\
  ps_kind (base_spec g) = Inherent (final_kind refs) /\
  ps_trusted (base_spec g) = Inherent (refs_trusted refs).

Lemma set_local {T} (v : T) i : local_item i -> SpecificationItem.set v i = Inherent v.
Proof. by destruct i. Qed.

Lemma graph_of_refs_matches local_id refs g :
  @graph_of_refs E type_cond fns local_id refs = Ok g -> graph_matches local_id refs g.
Proof.
  unfold graph_of_refs. intros Hg. inv_outcome. destruct x as [g1 ko].
  set (g0 := set_kind (kind_of_refs refs)
               (SpecGraph_new (ProcedureSpecification.empty (to_def_id local_id)))) in *.
  assert (built_from type_cond (to_def_id local_id) g0) as Hb0
    by (apply rtc_once; constructor).
  destruct (apply_refs_base _ _ _ _ _ (built_consistent _ _ _ Hb0) ltac:(eassumption))
    as (Hs & Hp & Hq & Hk & ->).
  assert (built_from type_cond (to_def_id local_id) g1) as Hb1 by (unfold built_from in *; by etrans).
  pose proof (built_consistent _ _ _ Hb1) as [(_ & _ & _ & _ & (t & Ht) & _) _].
  set (g2 := set_trusted (refs_trusted refs) g1) in *.
  assert (built_from type_cond (to_def_id local_id) g2) as Hb2
    by (eapply rtc_r; [exact Hb1 | constructor]).
  inv_outcome. unfold graph_matches, final_kind, pres_of, posts_of in *. simpl in Hp, Hq, Hk.
  destruct (foldl override_of None (spec_id_refs refs)) as [k|]; simpl.
  - split; [eapply rtc_r; [exact Hb2 | constructor]|]. simpl. rewrite Hp, Hq, Ht, Hk. done.
  - split; [done|]. simpl. rewrite Hp, Hq, Ht, Hk. done.
Qed.

(** References to known spec functions always give a contract. *)
Definition ref_ids (r : SpecIdRef) : list SpecificationId :=
  match r with
  | PreconditionRef id | PostconditionRef id | PurityRef id | PredicateRef id
  | TerminatesRef id => [id]
  | PledgeRef lhs rhs => option_list lhs ++ [rhs]
  end.

Definition ref_known (r : SpecIdRef) : Prop :=
  Forall (fun id => is_Some (fns !! id)) (ref_ids r) /\
  (forall id f, r = PurityRef id -> fns !! id = Some f -> type_cond f = true).

Lemma apply_ref_total st r :
  ref_known r -> exists st', @apply_ref E type_cond fns st r = Ok st'.
Proof.
  destruct st as [g ko]. intros [Hids Hpur].
  destruct r as [id|id|id|[lhs|] rhs|id|id]; simpl in *;
    repeat match goal with
    | H : Forall _ (_ :: _) |- _ => apply Forall_cons in H as [[? ?] H]
    end; unfold spec_function;
    repeat match goal with H : fns !! _ = Some _ |- _ => rewrite H end; simpl; eauto.
  unfold add_purity, get_constraint. erewrite Hpur by done. simpl. eauto.
Qed.

Lemma graph_of_refs_total local_id refs :
  Forall ref_known (spec_id_refs refs) ->
  exists g, @graph_of_refs E type_cond fns local_id refs = Ok g.
Proof.
  intros Hk. unfold graph_of_refs.
  generalize (@set_kind (kind_of_refs refs)
    (SpecGraph_new (ProcedureSpecification.empty (to_def_id local_id))),
    @None ProcedureSpecificationKind).
  induction Hk as [|r rs Hr _ IH]; intros st; simpl.
  { destruct st. eauto. }
  destruct (apply_ref_total st r Hr) as [st' ->]. simpl. apply IH.
Qed.
End graph_of_refs.

Section determine.
Context {E : Type}.
Variable type_cond : LocalDefId -> bool.
Variable fns : gmap SpecificationId LocalDefId.
Import SpecGraph.

(** A contract the rest of Prusti may rely on: consistent, and
    type-conditional only when the procedure is trusted. *)
Definition sound_contract (g : graph) : Prop :=
  consistent g /\
  (specs_with_constraints g <> ∅ -> ps_trusted (base_spec g) = Inherent true).

(** One iteration: the contract, unless it is reported. *)
Definition determine_one (l : LocalDefId) (refs : ProcedureSpecRefs) : outcome E (option graph) :=
  spec ← graph_of_refs type_cond fns l refs;
  trusted ← SpecificationItem.expect_inherent (ps_trusted (base_spec spec));
  Ok (if negb (bool_decide (specs_with_constraints spec = ∅)) && negb trusted
      then None else Some spec).

Lemma determine_procedures_cons l refs es procs :
  @determine_procedure_specs E type_cond fns ((l, refs) :: es) procs =
  (o ← determine_one l refs;
   match o with
   | None => r ← determine_procedure_specs type_cond fns es procs; Ok (fst r, l :: snd r)
   | Some g => determine_procedure_specs type_cond fns es (<[to_def_id l := g]> procs)
   end).
Proof.
  simpl. unfold determine_one. destruct (graph_of_refs _ _ _ _); simpl; [|done..].
  destruct (SpecificationItem.expect_inherent _); simpl; [|done..].
  destruct (_ && _); done.
Qed.

Lemma determine_one_sound l refs g : determine_one l refs = Ok (Some g) -> sound_contract g.
Proof.
  unfold determine_one. intros Hd. inv_outcome.
  match goal with H : graph_of_refs _ _ _ _ = _ |- _ =>
    pose proof (graph_of_refs_matches _ _ _ _ _ H) as (Hb & _ & _ & _ & Ht) end.
  rewrite Ht in *. simplify_eq/=. case_bool_decide as He; simpl in *; simplify_eq.
  - split; [by eapply built_consistent | done].
  - destruct (refs_trusted refs); simplify_eq/=. split; [by eapply built_consistent | done].
Qed.

Lemma determine_procedures_sound entries procs m errs :
  @determine_procedure_specs E type_cond fns entries procs = Ok (m, errs) ->
  map_Forall (fun _ => sound_contract) procs -> map_Forall (fun _ => sound_contract) m.
Proof.
  revert procs errs. induction entries as [|[l refs] entries IH]; intros procs errs Hd Hp;
    [by simplify_eq/=|].
  rewrite determine_procedures_cons in Hd.
  destruct (determine_one l refs) as [[g|]| |] eqn:Hg; simpl in Hd; try done.
  - eapply IH; [done|]. apply map_Forall_insert_2; [by eapply determine_one_sound | done].
  - inv_outcome. destruct x. simplify_eq/=. by eapply IH.
Qed.

Lemma extern_sound entries procs m errs :
  @determine_extern_specs E entries procs = Ok (m, errs) ->
  map_Forall (fun _ => sound_contract) procs -> map_Forall (fun _ => sound_contract) m.
Proof.
  revert procs errs. induction entries as [|[d sid] entries IH]; intros procs errs Hd Hp;
    simpl in Hd; [by simplify_eq|].
  inv_outcome. destruct x0 as [m' errs']. simplify_eq/=. eapply IH; [done|].
  apply map_Forall_insert_2; [|by apply map_Forall_delete].
  destruct (Hp _ _ ltac:(eassumption)) as [Hc Ht]. split.
  - by eapply (graph_step_consistent (fun _ => false)); [apply step_extern|].
  - simpl. intros Hne. apply Ht. intros He. apply Hne. rewrite He. apply fmap_empty.
Qed.

(** The order in which the hash map is iterated does not matter. *)
Lemma determine_procedures_perm entries entries' procs m errs :
  entries ≡ₚ entries' -> NoDup (fst <$> entries) ->
  @determine_procedure_specs E type_cond fns entries procs = Ok (m, errs) ->
  exists errs', @determine_procedure_specs E type_cond fns entries' procs = Ok (m, errs')
    /\ errs ≡ₚ errs'.
Proof.
  intros Hp. revert procs m errs.
  induction Hp as [|[l refs] es es' Hp IH|[l1 r1] [l2 r2] es|es1 es2 es3 H1 IH1 H2 IH2];
    intros procs m errs Hnd Hd.
  - eauto.
  - rewrite determine_procedures_cons in *. rewrite fmap_cons in Hnd.
    apply NoDup_cons in Hnd as [_ Hnd].
    destruct (determine_one l refs) as [[g|]| |]; simpl in *; try done; [by eauto|].
    inv_outcome. destruct x as [m1 e1]. simplify_eq/=.
    destruct (IH _ _ _ Hnd ltac:(eassumption)) as (e' & -> & He). simpl. eauto.
  - rewrite !fmap_cons in Hnd. apply NoDup_cons in Hnd as [Hn _].
    assert (to_def_id l1 <> to_def_id l2) as Hne by (intros [=]; apply Hn; subst; by left).
    rewrite determine_procedures_cons in Hd |- *.
    destruct (determine_one l2 r2) as [[g2|]| |] eqn:E2; cbn [mbind outcome_bind] in Hd;
      try done; rewrite determine_procedures_cons in Hd;
      destruct (determine_one l1 r1) as [[g1|]| |] eqn:E1; cbn [mbind outcome_bind] in *;
      try done; rewrite determine_procedures_cons, E2; cbn [mbind outcome_bind].
    + rewrite insert_insert_ne by done. eauto.
    + inv_outcome. destruct x. simplify_eq/=. rewrite H. simpl. eauto.
    + inv_outcome. destruct x. simplify_eq/=. rewrite H. simpl. eauto.
    + inv_outcome. rewrite H. simpl. eexists; split; [done|]. constructor.
  - destruct (IH1 _ _ _ Hnd Hd) as (e2 & Hd2 & He2).
    assert (NoDup (fst <$> es2)) as Hnd2 by (by rewrite <- H1).
    destruct (IH2 _ _ _ Hnd2 Hd2) as (e3 & Hd3 & He3). exists e3. split; [done | by etrans].
Qed.
End determine.

(** ** Extern specifications reach their targets *)
Section extern.
Context {E : Type}.
Import SpecGraph.

Lemma extern_other entries procs m errs d :
  @determine_extern_specs E entries procs = Ok (m, errs) ->
  d ∉ (get_target_def_id ∘ fst <$> entries) -> d ∉ (snd <$> entries) ->
  m !! d = procs !! d.
Proof.
  revert procs errs. induction entries as [|[decl sid] entries IH]; intros procs errs Hd Ht Hs;
    simpl in *; [by simplify_eq|].
  inv_outcome. destruct x0 as [m' errs']. simplify_eq/=.
  rewrite (IH _ _ ltac:(eassumption)) by set_solver.
  rewrite lookup_insert_ne, lookup_delete_ne by set_solver. done.
Qed.

(** Targets are pairwise different and none of them is itself a generated
    function: then every generated function's contract ends up at its
    target, marked as external, and nothing is left at the generated one. *)
Lemma extern_lookup entries procs m errs :
  @determine_extern_specs E entries procs = Ok (m, errs) ->
  NoDup (get_target_def_id ∘ fst <$> entries) -> NoDup (snd <$> entries) ->
  (forall d, d ∈ (get_target_def_id ∘ fst <$> entries) -> d ∉ (snd <$> entries)) ->
  Forall (fun '(decl, sid) => exists g, procs !! sid = Some g /\
    m !! get_target_def_id decl = Some (set_extern_spec (ExternSpecKind_from decl) g) /\
    m !! sid = None) entries.
Proof.
  revert procs errs. induction entries as [|[decl sid] entries IH];
    intros procs errs Hd Ht Hs Hdis; [constructor|].
  simpl in Hd. inv_outcome. destruct x0 as [m' errs']. simplify_eq/=.
  apply NoDup_cons in Ht as [Ht1 Ht2]. apply NoDup_cons in Hs as [Hs1 Hs2]. simpl in *. constructor.
  - exists x. split; [done|].
    assert (sid ∉ (get_target_def_id ∘ fst <$> entries)) as Hst
      by (intros Hin; apply (Hdis sid); [by right | by left]).
    assert (get_target_def_id decl ∉ sid :: (snd <$> entries)) as [Hne Hts]%not_elem_of_cons
      by (apply Hdis; by left).
    rewrite !(extern_other _ _ _ _ _ H0) by done.
    rewrite lookup_insert_eq, lookup_insert_ne, lookup_delete_eq by done. done.
  - assert (forall d, d ∈ (get_target_def_id ∘ fst <$> entries) -> d ∉ (snd <$> entries)) as Hdis'
      by (intros d Hd; assert (d ∉ sid :: (snd <$> entries)) as [_ ?]%not_elem_of_cons;
          [apply Hdis; by right | done]).
    specialize (IH _ _ ltac:(eassumption) Ht2 Hs2 Hdis').
    rewrite Forall_forall in IH |- *. intros [decl' sid'] Hin.
    destruct (IH _ Hin) as (g & Hg & Hm1 & Hm2). exists g. split; [|done].
    assert (sid' ∈ (snd <$> entries)) by (apply list_elem_of_fmap; by exists (decl', sid')).
    assert (get_target_def_id decl ∉ sid :: (snd <$> entries)) as [_ Hts]%not_elem_of_cons
      by (apply Hdis; by left).
    rewrite lookup_insert_ne, lookup_delete_ne in Hg by congruence. done.
Qed.
End extern.

(** ** Properties *)
Section claims.
Context {E : Type}.
Variable type_cond : LocalDefId -> bool.


(** the contract built for a procedure has as base preconditions and
    postconditions exactly the unconditional spec functions its attributes
    reference, in order; its kind is the referenced predicate body, else
    abstract predicate, else pure, else impure; its trusted flag is the
    attribute's; and it exists whenever the referenced spec functions were
    collected and purity references are type-conditional. *)
Theorem procedure_contract_from_attributes fns local_id refs :
  Forall (ref_known type_cond fns) (spec_id_refs refs) ->
  exists g, @graph_of_refs E type_cond fns local_id refs = Ok g /\
    graph_matches type_cond fns local_id refs g.
Proof.
  intros Hk. destruct (graph_of_refs_total (E:=E) type_cond fns local_id refs Hk) as [g Hg].
  exists g. split; [done | by eapply graph_of_refs_matches].
Qed.

(** Building the contracts does not depend on the iteration order of the
    collector's hash map: any other order gives the same map and the same
    errors up to their order. *)
Theorem procedure_specs_order_independent fns entries entries' m errs :
  entries ≡ₚ entries' -> NoDup (fst <$> entries) ->
  @determine_procedure_specs E type_cond fns entries ∅ = Ok (m, errs) ->
  exists errs', @determine_procedure_specs E type_cond fns entries' ∅ = Ok (m, errs')
    /\ errs ≡ₚ errs'.
Proof. apply determine_procedures_perm. Qed.

(** External specifications move: the contract of every generated
    function is found at the function it specifies, with the provenance of
    the declaration, and no longer at the generated function. *)
Theorem extern_specs_reach_targets entries procs m errs :
  @determine_extern_specs E entries procs = Ok (m, errs) ->
  NoDup (get_target_def_id ∘ fst <$> entries) -> NoDup (snd <$> entries) ->
  (forall d, d ∈ (get_target_def_id ∘ fst <$> entries) -> d ∉ (snd <$> entries)) ->
  Forall (fun '(decl, sid) => exists g, procs !! sid = Some g /\
    m !! get_target_def_id decl
      = Some (SpecGraph.set_extern_spec (ExternSpecKind_from decl) g) /\
    m !! sid = None) entries.
Proof. apply extern_lookup. Qed.
End claims.

(** ** Witnesses: a crate with one contract function and one extern spec *)
Module collect_witness.
Definition parse (s : string) : option N :=
  if bool_decide (s = "a") then Some 1%N else if bool_decide (s = "b") then Some 2%N else None.

Definition prusti (name : string) (v : option string) : Attribute := Unparsed ["prusti"; name] v.

Definition fn (id : nat) (attrs : list Attribute) (call : option ExternCall) : FnItem :=
  {| fn_id := id; fn_attrs := attrs; fn_self_type := None; fn_trait_impl_attrs := None;
     fn_model_ty := None; fn_extern_call := call |}.

Definition target : DefId := {| def_krate := 3; def_index := 4 |}.

Definition call : ExternCall :=
  {| call_target := target; call_is_trait_method_impl := false; call_is_trait_method := false;
     call_impl := None; call_resolved := target; call_resolved_generics := 0;
     call_current_generics := 0 |}.

(** spec functions 1 (precondition) and 2 (type-conditional postcondition)
    of the trusted extern spec function 7 *)
Definition items : list FnItem :=
  [fn 1 [prusti "spec_id" (Some "a")] None; fn 2 [prusti "spec_id" (Some "b")] None;
   fn 7 [prusti "extern_spec" (Some "method"); prusti "trusted" None;
         prusti "pre_spec_id_ref" (Some "a"); prusti "post_spec_id_ref" (Some "b")] (Some call)].

Definition type_cond (d : nat) : bool := bool_decide (d = 2).

Definition collected : SpecCollector :=
  match foldl (fun c f => c ≫= Collector.visit_fn (E:=unit) parse false f) (Ok Collector.new) items with
  | Ok c => c | _ => Collector.new end.

Definition refs : ProcedureSpecRefs :=
  {| spec_id_refs := [PreconditionRef 1%N; PostconditionRef 2%N]; refs_pure := false;
     refs_abstract_predicate := false; refs_trusted := true |}.

Definition built : DefSpecificationMap * Collector.BuildErrors :=
  match Collector.build_def_specs (E:=unit) type_cond true [(7, refs)]
          [(DeclMethod target, to_def_id 7)] [] collected with
  | Ok r => r
  | _ => (DefSpecificationMap.new,
          {| Collector.unsupported_type_cond := []; Collector.duplicate_extern := [];
             Collector.disabled_invariants := [] |})
  end.


Lemma procedure_contract_witness :
  exists g, @graph_of_refs unit type_cond (spec_functions collected) 7 refs = Ok g /\
    graph_matches type_cond (spec_functions collected) 7 refs g.
Proof.
  apply (procedure_contract_from_attributes (E:=unit) type_cond).
  repeat constructor; try (eexists; vm_compute; reflexivity); intros; discriminate.
Defined.

Lemma order_independent_witness :
  exists errs', @determine_procedure_specs unit type_cond (spec_functions collected)
      [(8, refs); (7, refs)] ∅
    = Ok (match determine_procedure_specs (E:=unit) type_cond (spec_functions collected)
            [(7, refs); (8, refs)] ∅ with Ok r => fst r | _ => ∅ end, errs') /\ [] ≡ₚ errs'.
Proof.
  apply (procedure_specs_order_independent (E:=unit) type_cond (spec_functions collected)
    [(7, refs); (8, refs)] [(8, refs); (7, refs)]).
  - apply perm_swap.
  - repeat constructor; set_solver.
  - vm_compute. reflexivity.
Defined.

Definition procs_before : gmap DefId SpecGraph.graph :=
  {[to_def_id 7 := SpecGraph_new (ProcedureSpecification.empty (to_def_id 7))]}.

Lemma extern_specs_witness :
  exists m, @determine_extern_specs unit [(DeclMethod target, to_def_id 7)] procs_before
    = Ok (m, []) /\ m !! to_def_id 7 = None.
Proof.
  eexists. split; [vm_compute; reflexivity|].
  pose proof (extern_specs_reach_targets (E:=unit) [(DeclMethod target, to_def_id 7)]
    procs_before _ [] ltac:(vm_compute; reflexivity)) as Hw.
  cbn [fmap list_fmap compose fst snd get_target_def_id] in Hw.
  specialize (Hw (NoDup_singleton _) (NoDup_singleton _)).
  assert (forall d, d ∈ [target] -> d ∉ [to_def_id 7]) as Hd.
  { intros d ->%list_elem_of_singleton Hx%list_elem_of_singleton. discriminate Hx. }
  specialize (Hw Hd). apply Forall_cons in Hw as [(g & _ & _ & Hn) _]. exact Hn.
Defined.
End collect_witness.
