(* ===== verification/SpecQuery.v ===== *)
(** * Queries for contracts

    [prusti-interface/src/specs/specifications.rs]: the contract of a
    procedure as seen by a query, refined by the contract of the trait method
    it implements, with a cache of refined contracts per query. *)
From S2P Require Import Prelude SpecTyped.

(** A generic argument, as far as the queries pass it around. *)
Abbreviation GenericArg := nat (only parsing).
Abbreviation GenericArgs := (list nat) (only parsing).

(** ** The compiler's answers *)
Record TyCtxt := {
  impl_of_assoc : DefId -> option DefId;
  (** the trait of an impl with its arguments, instantiated by call arguments *)
  impl_trait_ref : DefId -> option (DefId * (GenericArgs -> GenericArgs));
  associated_items : DefId -> list (string * DefId);
  item_name : DefId -> string;
  (** the number of generic parameters of an item, parents included *)
  identity_len : DefId -> nat;
}.

Definition get_assoc_item (tcx : TyCtxt) (trait_id item_id : DefId) : option DefId :=
  snd <$> head (filter (fun i => fst i = item_name tcx item_id) (associated_items tcx trait_id)).

Definition find_trait_method_substs {E} (tcx : TyCtxt) (impl_method : DefId)
    (impl_method_substs : GenericArgs) : outcome E (option (DefId * GenericArgs)) :=
  match impl_of_assoc tcx impl_method with
  | None => Ok None
  | Some impl_def_id =>
      match impl_trait_ref tcx impl_def_id with
      | None => Ok None
      | Some (trait_def_id, instantiate) =>
          trait_method ← unwrap "called `Option::unwrap()` on a `None` value"
                           (get_assoc_item tcx trait_def_id impl_method);
          _ ← assert_that "assertion `left == right` failed"
                (bool_decide (identity_len tcx impl_method = length impl_method_substs));
          let trait_method_substs :=
            instantiate impl_method_substs
            ++ drop (identity_len tcx impl_def_id) impl_method_substs in
          _ ← assert_that "assertion `left == right` failed"
                (bool_decide (length trait_method_substs = identity_len tcx trait_method));
          Ok (Some (trait_method, trait_method_substs))
      end
  end.

(** ** Queries *)
Inductive SpecQuery :=
| FunctionDefEncoding (def_id : DefId) (substs : GenericArgs)
| FunctionCallEncoding (called_def_id caller_def_id : DefId) (call_substs : GenericArgs)
| GetProcKind (def_id : DefId) (substs : GenericArgs)
| FetchSpan (def_id : DefId).

#[export] Instance SpecQuery_eq_dec : EqDecision SpecQuery.
Proof. solve_decision. Defined.
#[export] Instance SpecQuery_countable : Countable SpecQuery.
Proof.
  refine (inj_countable' (fun q => match q with
      | FunctionDefEncoding d s => inl (inl (d, s))
      | FunctionCallEncoding d c s => inl (inr (d, c, s))
      | GetProcKind d s => inr (inl (d, s)) | FetchSpan d => inr (inr d) end)
    (fun x => match x with
      | inl (inl (d, s)) => FunctionDefEncoding d s
      | inl (inr (d, c, s)) => FunctionCallEncoding d c s
      | inr (inl (d, s)) => GetProcKind d s | inr (inr d) => FetchSpan d end) _).
  by intros [].
Defined.

Definition referred_def_id (q : SpecQuery) : DefId :=
  match q with
  | FunctionDefEncoding d _ | FunctionCallEncoding d _ _ | GetProcKind d _ | FetchSpan d => d
  end.

Definition adapt_to (q : SpecQuery) (new_def_id : DefId) (new_substs : GenericArgs) : SpecQuery :=
  match q with
  | FunctionDefEncoding _ _ => FunctionDefEncoding new_def_id new_substs
  | FunctionCallEncoding _ caller _ => FunctionCallEncoding new_def_id caller new_substs
  | GetProcKind _ _ => GetProcKind new_def_id new_substs
  | FetchSpan _ => FetchSpan new_def_id
  end.

Definition query_substs (q : SpecQuery) : option GenericArgs :=
  match q with
  | FunctionDefEncoding _ s | FunctionCallEncoding _ _ s | GetProcKind _ s => Some s
  | FetchSpan _ => None
  end.

(** [RefinementContext::try_from]: the query for the trait method, when there
    is something to refine. *)
Definition RefinementContext_try_from {E} (tcx : TyCtxt) (q : SpecQuery) :
    outcome E (option SpecQuery) :=
  match q with
  | FunctionCallEncoding d _ substs | FunctionDefEncoding d substs | GetProcKind d substs =>
      r ← find_trait_method_substs tcx d substs;
      Ok (match r with
          | Some (trait_def_id, trait_substs) => Some (adapt_to q trait_def_id trait_substs)
          | None => None
          end)
  | FetchSpan _ => Ok None
  end.

Record Specifications := {
  user_typed_specs : DefSpecificationMap;
  refined_specs : gmap SpecQuery ProcedureSpecification;
}.

Module Specifications.
Definition new (m : DefSpecificationMap) : Specifications :=
  {| user_typed_specs := m; refined_specs := ∅ |}.

Definition get_proc_spec (s : Specifications) (q : SpecQuery) : option ProcedureSpecification :=
  match refined_specs s !! q with
  | Some spec => Some spec
  | None =>
      base_spec <$> DefSpecificationMap.get_proc_spec (user_typed_specs s) (referred_def_id q)
  end.

Definition is_refined (s : Specifications) (q : SpecQuery) : bool :=
  bool_decide (is_Some (refined_specs s !! q)).

Definition perform_proc_spec_refinement {E} (impl_query trait_query : SpecQuery)
    (s : Specifications) : outcome E (option ProcedureSpecification * Specifications) :=
  let trait_spec := default (ProcedureSpecification.empty (referred_def_id trait_query))
                      (get_proc_spec s trait_query) in
  let impl_spec := default (ProcedureSpecification.empty_inheriting (referred_def_id impl_query))
                     (get_proc_spec s impl_query) in
  refined ← ProcedureSpecification.refine impl_spec trait_spec;
  let s := {| user_typed_specs := user_typed_specs s;
              refined_specs := <[impl_query := refined]> (refined_specs s) |} in
  Ok (get_proc_spec s impl_query, s).

Definition get_and_refine_proc_spec {E} (tcx : TyCtxt) (q : SpecQuery) (s : Specifications) :
    outcome E (option ProcedureSpecification * Specifications) :=
  if is_refined s q then Ok (get_proc_spec s q, s)
  else
    context ← RefinementContext_try_from tcx q;
    match context with
    | Some trait_query =>
        r ← perform_proc_spec_refinement q trait_query s;
        _ ← assert_that "Could not perform refinement" (bool_decide (is_Some (fst r)));
        Ok r
    | None => Ok (get_proc_spec s q, s)
    end.
End Specifications.
Import Specifications.

(** ** What a query answers

    The reference: the procedure's own contract, refined by its trait method's
    when it implements one, without any cache. *)
Section answers.
Context {E : Type}.
Variable tcx : TyCtxt.
Variable specs : DefSpecificationMap.

Definition user_spec (q : SpecQuery) : option ProcedureSpecification :=
  base_spec <$> proc_specs specs !! referred_def_id q.

Definition answer (q : SpecQuery) : outcome E (option ProcedureSpecification) :=
  context ← RefinementContext_try_from tcx q;
  match context with
  | None => Ok (user_spec q)
  | Some trait_query =>
      r ← ProcedureSpecification.refine
            (default (ProcedureSpecification.empty_inheriting (referred_def_id q)) (user_spec q))
            (default (ProcedureSpecification.empty (referred_def_id trait_query))
               (user_spec trait_query));
      Ok (Some r)
  end.

(** Trait methods are not themselves implementations of trait methods, and
    the compiler knows the trait method of every implementation. *)
Definition trait_methods_have_no_trait : Prop :=
  forall q t, @RefinementContext_try_from E tcx q = Ok (Some t) ->
    @RefinementContext_try_from E tcx t = Ok None.

(** The cache holds only answers. *)
Definition cache_ok (s : Specifications) : Prop :=
  user_typed_specs s = specs /\
  map_Forall (fun q r => answer q = Ok (Some r) /\
                         @RefinementContext_try_from E tcx q <> Ok None) (refined_specs s).

Lemma get_proc_spec_uncached s q :
  cache_ok s -> refined_specs s !! q = None -> get_proc_spec s q = user_spec q.
Proof. intros [Heq _] Hq. unfold get_proc_spec, user_spec. by rewrite Hq, Heq. Qed.

Lemma get_proc_spec_trait s q :
  cache_ok s -> @RefinementContext_try_from E tcx q = Ok None -> get_proc_spec s q = user_spec q.
Proof.
  intros Hs Hq. apply get_proc_spec_uncached; [done|].
  destruct (refined_specs s !! q) as [r|] eqn:Hr; [|done].
  by destruct (proj2 Hs _ _ Hr) as [_ []].
Qed.

Lemma get_and_refine_answer s q :
  trait_methods_have_no_trait -> cache_ok s ->
  match @get_and_refine_proc_spec E tcx q s with
  | Ok (r, s') => answer q = Ok r /\ cache_ok s'
  | Err e => answer q = Err e
  | Panic m => answer q = Panic m
  end.
Proof.
  intros Htm Hs. unfold get_and_refine_proc_spec, is_refined.
  destruct (refined_specs s !! q) as [r|] eqn:Hr.
  { rewrite bool_decide_true by eauto. split; [|done].
    unfold get_proc_spec. rewrite Hr. by apply (proj2 Hs) in Hr as [? _]. }
  rewrite bool_decide_false by (by intros [? ?]).
  unfold answer. destruct (RefinementContext_try_from tcx q) as [[t|]|e|m] eqn:Hc; simpl; try done.
  2:{ by rewrite get_proc_spec_uncached. }
  unfold perform_proc_spec_refinement.
  rewrite (get_proc_spec_uncached s q), (get_proc_spec_trait s t) by eauto.
  destruct (ProcedureSpecification.refine _ _) as [r|e|m] eqn:Href; simpl; try done.
  assert (get_proc_spec {| user_typed_specs := user_typed_specs s;
    refined_specs := <[q := r]> (refined_specs s) |} q = Some r) as ->
    by (unfold get_proc_spec; simpl; by rewrite lookup_insert_eq).
  rewrite bool_decide_true by eauto. simpl. split; [done|].
  split; [apply Hs|]. simpl. apply map_Forall_insert_2; [|apply Hs].
  split; [|by rewrite Hc]. unfold answer. rewrite Hc. simpl. by rewrite Href.
Qed.

(** Runs of queries. *)
Fixpoint run (qs : list SpecQuery) (s : Specifications) :
    outcome E (list (option ProcedureSpecification) * Specifications) :=
  match qs with
  | [] => Ok ([], s)
  | q :: qs =>
      r ← get_and_refine_proc_spec tcx q s;
      rs ← run qs (snd r);
      Ok (fst r :: fst rs, snd rs)
  end.

Lemma run_answers qs s rs s' :
  trait_methods_have_no_trait -> cache_ok s -> run qs s = Ok (rs, s') ->
  Forall2 (fun q r => answer q = Ok r) qs rs /\ cache_ok s'.
Proof.
  intros Htm. revert s rs. induction qs as [|q qs IH]; intros s rs Hs Hr; cbn [run] in Hr.
  { simplify_eq. split; [constructor | done]. }
  pose proof (get_and_refine_answer s q Htm Hs) as Ha.
  inv_outcome. destruct x as [r s1], x0 as [rs1 s2]. simplify_eq/=.
  rewrite H in Ha. destruct Ha as [Ha Hs1].
  destruct (IH _ _ Hs1 H0) as [Hf Hs2]. split; [by constructor | done].
Qed.

Lemma user_spec_local q s :
  map_Forall (fun _ g => local_spec (base_spec g)) (proc_specs specs) ->
  user_spec q = Some s -> local_spec s.
Proof.
  intros Hl. unfold user_spec.
  destruct (proc_specs specs !! referred_def_id q) as [g|] eqn:Hg; simpl; [|done].
  intros [= <-]. by apply Hl in Hg.
Qed.

(** With collected contracts, refinement itself never panics. *)
Lemma answer_total q context :
  map_Forall (fun _ g => local_spec (base_spec g)) (proc_specs specs) ->
  @RefinementContext_try_from E tcx q = Ok context ->
  exists r, answer q = Ok r /\
    (forall t, context = Some t -> exists r', r = Some r' /\
      refines_to
        (default (ProcedureSpecification.empty_inheriting (referred_def_id q)) (user_spec q))
        (default (ProcedureSpecification.empty (referred_def_id t)) (user_spec t)) r').
Proof.
  intros Hl Hc. unfold answer. rewrite Hc. simpl. destruct context as [t|]; [|eexists; split; [done | by intros ? [=]]].
  destruct (refine_total (E:=E)
    (default (ProcedureSpecification.empty_inheriting (referred_def_id q)) (user_spec q))
    (default (ProcedureSpecification.empty (referred_def_id t)) (user_spec t))) as [r Hr].
  - destruct (user_spec q) as [s|] eqn:Hq; simpl;
      [left; by eapply user_spec_local | right; by eexists].
  - destruct (user_spec t) as [s|] eqn:Ht; simpl; [by eapply user_spec_local|].
    unfold local_spec; simpl. repeat split; eauto.
  - rewrite Hr. simpl. eexists; split; [done|]. intros t' [= <-].
    exists r. split; [done | by eapply refine_spec_extract].
Qed.
End answers.

Lemma find_trait_method_substs_inv {E} tcx impl_method substs trait_method trait_substs :
  @find_trait_method_substs E tcx impl_method substs = Ok (Some (trait_method, trait_substs)) ->
  exists impl_def_id trait_def_id instantiate,
    impl_of_assoc tcx impl_method = Some impl_def_id /\
    impl_trait_ref tcx impl_def_id = Some (trait_def_id, instantiate) /\
    (item_name tcx impl_method, trait_method) ∈ associated_items tcx trait_def_id /\
    length substs = identity_len tcx impl_method /\
    length trait_substs = identity_len tcx trait_method /\
    trait_substs = instantiate substs ++ drop (identity_len tcx impl_def_id) substs.
Proof.
  unfold find_trait_method_substs. intros Hf.
  destruct (impl_of_assoc tcx impl_method) as [i|] eqn:Hi; [|done].
  destruct (impl_trait_ref tcx i) as [[t inst]|] eqn:Ht; [|done].
  inv_outcome. simplify_eq. exists i, t, inst.
  repeat match goal with H : bool_decide _ = true |- _ => apply bool_decide_eq_true in H end.
  repeat split; try done.
  match goal with H : get_assoc_item _ _ _ = _ |- _ =>
    unfold get_assoc_item in H; apply fmap_Some in H as ([n d] & Hh & ->) end.
  simpl. destruct (filter _ _) as [|p ps] eqn:Hfilter; [done|]. injection Hh as ->.
  assert ((n, d) ∈ filter (fun i => fst i = item_name tcx impl_method) (associated_items tcx t))
    as Hin by (rewrite Hfilter; by left).
  apply list_elem_of_filter in Hin as [Hn Hin]. simpl in Hn. by subst.
Qed.

(** ** Properties *)

(** C24: the cache is transparent: any sequence of queries, asked of fresh
    specifications, is answered query by query as if each were computed anew
    from the collected contracts, so that repeating or reordering queries
    never changes an answer. *)
Theorem refined_spec_cache_transparent {E} tcx specs qs rs s' :
  @trait_methods_have_no_trait E tcx ->
  @run E tcx qs (Specifications.new specs) = Ok (rs, s') ->
  Forall2 (fun q r => @answer E tcx specs q = Ok r) qs rs.
Proof.
  intros Htm Hr. eapply run_answers in Hr as [? _]; [done|done|].
  split; [done | apply map_Forall_empty].
Qed.

(** with contracts as the collector builds them, a query for which the
    compiler finds a trait method is answered (refinement cannot panic) by the
    implementation's own items where it has them and the trait method's
    otherwise; an implementation without a contract inherits everything. *)
Theorem refined_query_answered {E} tcx specs q t :
  map_Forall (fun _ g => local_spec (base_spec g)) (proc_specs specs) ->
  @RefinementContext_try_from E tcx q = Ok (Some t) ->
  exists r, @answer E tcx specs q = Ok (Some r) /\
    refines_to
      (default (ProcedureSpecification.empty_inheriting (referred_def_id q)) (user_spec specs q))
      (default (ProcedureSpecification.empty (referred_def_id t)) (user_spec specs t)) r.
Proof.
  intros Hl Hc. destruct (answer_total tcx specs q (Some t) Hl Hc) as (r & Ha & Hr).
  destruct (Hr t eq_refl) as (r' & -> & Href). by exists r'.
Qed.

(** The arguments passed to the trait method are the trait's arguments at
    the call followed by the arguments of the method itself, and their number
    is what the trait method expects. *)
Theorem trait_method_substs_wellformed {E} tcx impl_method substs trait_method trait_substs :
  @find_trait_method_substs E tcx impl_method substs = Ok (Some (trait_method, trait_substs)) ->
  exists impl_def_id trait_def_id instantiate,
    impl_of_assoc tcx impl_method = Some impl_def_id /\
    impl_trait_ref tcx impl_def_id = Some (trait_def_id, instantiate) /\
    (item_name tcx impl_method, trait_method) ∈ associated_items tcx trait_def_id /\
    length substs = identity_len tcx impl_method /\
    length trait_substs = identity_len tcx trait_method /\
    trait_substs = instantiate substs ++ drop (identity_len tcx impl_def_id) substs.
Proof. apply find_trait_method_substs_inv. Qed.

(** ** Witnesses: [impl Tr for S] with one method *)
Module query_witness.
Definition impl_m := to_def_id 10.
Definition trait_m := to_def_id 20.

Definition tcx : TyCtxt :=
  {| impl_of_assoc d := if bool_decide (d = impl_m) then Some (to_def_id 11) else None;
     impl_trait_ref d := Some (to_def_id 21, fun _ => [5; 6]);
     associated_items d := [("g", to_def_id 22); ("f", trait_m)];
     item_name d := "f";
     identity_len d := if bool_decide (d = trait_m) then 3
                       else if bool_decide (d = impl_m) then 2 else 1 |}.

Definition specs : DefSpecificationMap :=
  DefSpecificationMap.with_proc_specs
    {[trait_m := SpecGraph_new (ProcedureSpecification.with_kind (fun _ => Inherent Pure)
                                  (ProcedureSpecification.empty trait_m))]}
    DefSpecificationMap.new.

Definition q : SpecQuery := GetProcKind impl_m [1; 2].

Lemma trait_method_substs_witness :
  exists i t inst, impl_of_assoc tcx impl_m = Some i /\
    impl_trait_ref tcx i = Some (t, inst) /\
    (item_name tcx impl_m, trait_m) ∈ associated_items tcx t /\
    length [1; 2] = identity_len tcx impl_m /\ length [5; 6; 2] = identity_len tcx trait_m /\
    [5; 6; 2] = inst [1; 2] ++ drop (identity_len tcx i) [1; 2].
Proof.
  exact (trait_method_substs_wellformed (E:=unit) tcx impl_m [1; 2] trait_m [5; 6; 2] eq_refl).
Defined.

Lemma no_trait : @trait_methods_have_no_trait unit tcx.
Proof.
  intros q' t Hc. assert (exists s, find_trait_method_substs (E:=unit) tcx (referred_def_id q') s
    = Ok (Some (referred_def_id t, default [] (query_substs t))) /\ query_substs t <> None) as (s & Hf & Hs).
  { destruct q'; simpl in Hc; inv_outcome; simplify_eq;
      match goal with H : find_trait_method_substs _ _ _ = Ok ?x |- _ =>
        destruct x as [[d s]|]; simplify_eq/=; eexists; split; [exact H | done] end. }
  assert (impl_of_assoc tcx (referred_def_id t) = None) as Hn.
  { destruct (find_trait_method_substs_inv tcx _ _ _ _ Hf) as (i & tr & inst & Hi & Ht & Hin & _).
    simpl in Ht, Hin. apply elem_of_cons in Hin as [?|Hin]; [simplify_eq|].
    apply list_elem_of_singleton in Hin. injection Hin as ->. reflexivity. }
  destruct t; cbn [referred_def_id] in Hn; unfold RefinementContext_try_from,
    find_trait_method_substs; rewrite ?Hn; done.
Qed.

Lemma cache_transparent_witness :
  exists r s', @run unit tcx [q; q] (Specifications.new specs) = Ok ([r; r], s') /\
    @answer unit tcx specs q = Ok r.
Proof.
  eexists _, _. split; [vm_compute; reflexivity|].
  pose proof (refined_spec_cache_transparent (E:=unit) tcx specs [q; q] _ _ no_trait
    ltac:(vm_compute; reflexivity)) as Hw.
  apply Forall2_cons in Hw as [Hw _]. exact Hw.
Defined.

Lemma refined_query_witness :
  exists r, @answer unit tcx specs q = Ok (Some r) /\
    SpecificationItem.extract_with_selective_replacement (ps_kind r) = Some Pure.
Proof.
  destruct (refined_query_answered (E:=unit) tcx specs q (GetProcKind trait_m [5; 6; 2]))
    as (r & Hr & Href).
  - apply map_Forall_singleton. unfold local_spec; simpl. repeat split; eauto.
  - reflexivity.
  - exists r. split; [exact Hr|]. destruct Href as (_ & _ & _ & _ & Hk & _). exact Hk.
Defined.
End query_witness.
