(* ===== verification/SmtParser.v ===== *)
(** * Parser of the SMT log analyzer

    [smt-log-analyzer/src/parser.rs] and [types.rs]: a character-level parser
    of one line of a Z3 trace. A line is a string of ASCII characters; the
    state of the parser is what [next] and [cursor] have left of it. *)
From Stdlib Require Import Ascii.
From S2P Require Import Prelude.
Local Open Scope N_scope.

(** ** Types *)

Abbreviation Id := N (only parsing).
Abbreviation QuantifierId := N (only parsing).
Abbreviation TermId := N (only parsing).
Abbreviation Level := N (only parsing).

Definition u32_max : N := 4294967295.
Definition u64_max : N := 18446744073709551615.
Definition BUILTIN_QUANTIFIER_ID : QuantifierId := u32_max.

Inductive ErrorKind := ConsumeFailed | ParseIdFailed | EofCheckFailed.
Record Error := { error_kind : ErrorKind; error_line : string }.

Inductive EventKind :=
| Pop | Push | MkQuant | MkApp | NewMatch | InstDiscovered | Instance_ | Unrecognized
| AttachMeaning | MkVar.

Inductive TheoryKind := Arith | Basic | Datatype | UserSort.

#[export] Instance TheoryKind_eq_dec : EqDecision TheoryKind.
Proof. solve_decision. Defined.
#[export] Instance TheoryKind_countable : Countable TheoryKind.
Proof.
  refine (inj_countable (fun t => match t with Arith => 0 | Basic => 1 | Datatype => 2
                                  | UserSort => 3 end)
    (fun n => match n with 0 => Some Arith | 1 => Some Basic | 2 => Some Datatype
              | 3 => Some UserSort | _ => None end) _).
  by intros [].
Defined.

Inductive QuantTerm := Single (t : TermId) | Pair (original matched : TermId).

(** ** Characters *)

Definition code (c : ascii) : N := N_of_ascii c.
Definition between (lo hi : N) (c : ascii) : bool := (lo <=? code c) && (code c <=? hi).

Definition is_digit (c : ascii) : bool := between 48 57 c.
Definition is_ascii_hexdigit (c : ascii) : bool :=
  is_digit c || between 65 70 c || between 97 102 c.
Definition is_alphabetic (c : ascii) : bool := between 65 90 c || between 97 122 c.
Definition is_alphanumeric (c : ascii) : bool := is_alphabetic c || is_digit c.
(** space, tab, newline, vertical tab, form feed and carriage return *)
Definition is_whitespace (c : ascii) : bool := (code c =? 32) || between 9 13 c.

Fixpoint contains (s : string) (c : ascii) : bool :=
  match s with EmptyString => false | String c' s => Ascii.eqb c c' || contains s c end.

Definition newline : ascii := "010"%char.

(** ** The parser *)

(** A parsing step returns its result and what is left of the line. *)
Definition parser (A : Type) : Type := string -> outcome Error (A * string).

#[export] Instance parser_ret : MRet parser := fun A a s => Ok (a, s).
#[export] Instance parser_bind : MBind parser := fun A B f p s =>
  match p s with
  | Ok (a, s') => f a s'
  | Err e => Err e
  | Panic m => Panic m
  end.

Definition lift_outcome {A} (o : outcome Error A) : parser A := fun s =>
  match o with Ok a => Ok (a, s) | Err e => Err e | Panic m => Panic m end.

Fixpoint drop_newlines (s : string) : string :=
  match s with
  | EmptyString => EmptyString
  | String c s => if Ascii.eqb c newline then drop_newlines s else String c (drop_newlines s)
  end.

Definition remaining : parser string := fun s => Ok (drop_newlines s, s).

Definition error {A} (kind : ErrorKind) : parser A := fun s =>
  Err {| error_kind := kind; error_line := drop_newlines s |}.

Definition peek : parser (option ascii) := fun s =>
  Ok (match s with EmptyString => None | String c _ => Some c end, s).

Definition try_consume_predicate (p : ascii -> bool) : parser bool := fun s =>
  match s with
  | String c s' => if p c then Ok (true, s') else Ok (false, s)
  | EmptyString => Ok (false, s)
  end.

(** [position] unwraps the next character. *)
Definition position : parser unit :=
  c ← peek;
  match c with
  | Some _ => mret tt
  | None => lift_outcome (Panic "called `Option::unwrap()` on a `None` value")
  end.

Fixpoint span (p : ascii -> bool) (s : string) : string * string :=
  match s with
  | EmptyString => (EmptyString, EmptyString)
  | String c s' => if p c then let r := span p s' in (String c (fst r), snd r)
                   else (EmptyString, s)
  end.

(** [while self.try_consume_predicate(predicate) {}] with what it consumed. *)
Definition take_while (p : ascii -> bool) : parser string := fun s => Ok (span p s).

Definition consume_while_predicate (p : ascii -> bool) : parser string :=
  _ ← position;
  r ← take_while p;
  _ ← position;
  mret r.

Definition try_consume (arg : ascii) : parser bool := try_consume_predicate (Ascii.eqb arg).

Definition consume (arg : ascii) : parser unit :=
  b ← try_consume arg;
  if (b : bool) then mret tt else error ConsumeFailed.

Definition skip_whitespace : parser unit := fun s => Ok (tt, snd (span is_whitespace s)).

Definition event_kind_of (kind : string) : outcome Error EventKind :=
  if bool_decide (kind = "pop") then Ok Pop
  else if bool_decide (kind = "push") then Ok Push
  else if bool_decide (kind = "mk-quant") then Ok MkQuant
  else if bool_decide (kind = "mk-app") then Ok MkApp
  else if bool_decide (kind = "mk-var") then Ok MkVar
  else if bool_decide (kind = "new-match") then Ok NewMatch
  else if bool_decide (kind = "inst-discovered") then Ok InstDiscovered
  else if bool_decide (kind = "instance") then Ok Instance_
  else if bool_decide (kind = "attach-meaning") then Ok AttachMeaning
  else if bool_decide (kind ∈ ["tool-version"; "attach-var-names"; "mk-proof"; "attach-enode";
             "end-of-instance"; "mk-lambda"; "begin-check"; "assign"; "eq-expl";
             "decide-and-or"; "resolve-lit"; "resolve-process"; "conflict"; "eof"])
  then Ok Unrecognized
  else Panic "not implemented: got an unknown event kind".

Definition is_kind_char (c : ascii) : bool := is_alphabetic c || Ascii.eqb c "-"%char.

Definition parse_event_kind : parser EventKind :=
  b ← try_consume "["%char;
  if (b : bool) then
    name ← consume_while_predicate is_kind_char;
    kind ← lift_outcome (event_kind_of name);
    _ ← consume "]"%char;
    mret kind
  else mret Unrecognized.

Definition parse_theory : parser TheoryKind :=
  _ ← skip_whitespace;
  name ← consume_while_predicate is_kind_char;
  kind ← lift_outcome (if bool_decide (name = "basic") then Ok Basic
            else if bool_decide (name = "arith") then Ok Arith
            else if bool_decide (name = "datatype") then Ok Datatype
            else if bool_decide (name = "user-sort") then Ok UserSort
            else Panic "not implemented: got line with an unknown theory");
  _ ← consume "#"%char;
  mret kind.

(** Digits, most significant first, in base [base]; [None] when a character is
    not a digit of the base. *)
Definition digit_value (c : ascii) : N :=
  if is_digit c then code c - 48
  else if between 65 70 c then code c - 55 else code c - 87.

Fixpoint digits_value (base acc : N) (s : string) : option N :=
  match s with
  | EmptyString => Some acc
  | String c s => if is_ascii_hexdigit c && (digit_value c <? base)
                  then digits_value base (acc * base + digit_value c) s else None
  end.

(** [str::parse] and [from_str_radix]: at least one digit, all of the base,
    and no overflow. *)
Definition parse_uint (base max : N) (s : string) : option N :=
  match s with
  | EmptyString => None
  | _ => match digits_value base 0 s with
         | Some n => if n <=? max then Some n else None
         | None => None
         end
  end.

Definition parse_number : parser N :=
  _ ← skip_whitespace;
  digits ← consume_while_predicate is_ascii_hexdigit;
  lift_outcome (unwrap "explicit panic" (parse_uint 10 u32_max digits)).

Definition parse_hex_number : parser N :=
  _ ← skip_whitespace;
  _ ← consume "0"%char;
  x ← try_consume "x"%char;
  if (x : bool) then
    digits ← consume_while_predicate is_ascii_hexdigit;
    lift_outcome (unwrap "called `Result::unwrap()` on an `Err` value"
                    (parse_uint 16 u64_max digits))
  else mret 0.

Definition try_parse_id : parser (option Id) :=
  _ ← skip_whitespace;
  b ← try_consume "#"%char;
  if (b : bool) then n ← parse_number; mret (Some n) else mret None.

Definition parse_id : parser Id :=
  id ← try_parse_id;
  match id with Some id => mret id | None => error ParseIdFailed end.

Definition try_parse_quant_term : parser (option QuantTerm) :=
  _ ← skip_whitespace;
  b ← try_consume "("%char;
  if (b : bool) then
    original ← parse_id;
    matched ← parse_id;
    _ ← consume ")"%char;
    mret (Some (if bool_decide (original <> matched) then Pair original matched
                else Single matched))
  else
    id ← try_parse_id; mret (Single <$> id).

Definition is_valid_name (c : ascii) : bool :=
  is_alphanumeric c || contains "$.<>=!%@-[]_#" c.

Definition parse_name : parser string :=
  _ ← skip_whitespace; consume_while_predicate is_valid_name.

Definition check_eof : parser unit :=
  _ ← skip_whitespace;
  c ← peek;
  match c with None => mret tt | Some _ => error EofCheckFailed end.
