(* ===== verification/SmtState.v ===== *)
(** * State of the SMT log analyzer

    [smt-log-analyzer/src/state.rs]: counters of quantifier matches, theory
    discoveries and instances per active scope, with their peaks on a trace,
    the largest pop, and the bounds that are checked at the end. Counters are
    [usize] in the source and unbounded here; levels are [u32] with the
    overflow and underflow checks of a debug build. *)
From stdpp Require Import pretty numbers.
From S2P Require Import Prelude SmtParser.

Inductive Term :=
| FunctionApplication (name : string) (args : list TermId)
| Variable_ (index : N)
| AttachMeaningTerm (ident value : string).

Record TermUsedInTriggerEvent := { tu_level : Level; tu_term_id : TermId }.

(** [QuantifierMatchedEvent] and [QuantifierInstanceEvent]. *)
Record CountEvent := { ev_level : Level; ev_counter : nat }.

Definition CountEvent_new (level : Level) : CountEvent := {| ev_level := level; ev_counter := 1 |}.

Record BasicBlockVisitedEvent := { bb_level : Level; bb_label : string }.

Record LargestPop := {
  quantifier_matches_removed : nat;
  active_scopes_popped : Level;
  removed_quantifiers : gmap QuantifierId nat;
  labels : list BasicBlockVisitedEvent;
  trace_prefix : list BasicBlockVisitedEvent;
}.

Record State := {
  quantifiers : gmap QuantifierId string;
  terms : gmap TermId Term;
  quantifiers_matched_events : gmap QuantifierId (list CountEvent);
  quantifiers_inst_disovered_events : gmap TheoryKind (list CountEvent);
  total_quantifiers_matched_counters : gmap QuantifierId nat;
  total_quantifiers_inst_disovered_counters : gmap TheoryKind nat;
  max_quantifier_matched_event_counters : gmap QuantifierId nat;
  max_quantifier_inst_discovered_event_counters : gmap TheoryKind nat;
  unique_quantifier_triggers : gmap QuantifierId (gset TermId);
  term_used_in_trigger_events : gmap QuantifierId (list TermUsedInTriggerEvent);
  max_term_used_in_trigger_event_counters : gmap QuantifierId nat;
  multi_term_quantifiers : gmap QuantifierId (list TermId);
  total_quantifiers_instance_counters : nat;
  quantifiers_instance_events : list CountEvent;
  max_quantifier_instance_event_counters : nat;
  trace : list BasicBlockVisitedEvent;
  largest_pop : LargestPop;
  current_active_scopes_count : Level;
  traced_quantifier : option QuantifierId;
  traced_quantifier_triggers : option string;
}.

Definition State_default : State :=
  {| quantifiers := ∅; terms := ∅; quantifiers_matched_events := ∅;
     quantifiers_inst_disovered_events := ∅; total_quantifiers_matched_counters := ∅;
     total_quantifiers_inst_disovered_counters := ∅; max_quantifier_matched_event_counters := ∅;
     max_quantifier_inst_discovered_event_counters := ∅; unique_quantifier_triggers := ∅;
     term_used_in_trigger_events := ∅; max_term_used_in_trigger_event_counters := ∅;
     multi_term_quantifiers := ∅; total_quantifiers_instance_counters := 0;
     quantifiers_instance_events := []; max_quantifier_instance_event_counters := 0;
     trace := [];
     largest_pop := {| quantifier_matches_removed := 0; active_scopes_popped := 0;
                       removed_quantifiers := ∅; labels := []; trace_prefix := [] |};
     current_active_scopes_count := 0; traced_quantifier := None;
     traced_quantifier_triggers := None |}.

(** ** Event stacks *)

(** One more event at level [now]: the last entry's counter when it has that
    level, a new entry otherwise. *)
Fixpoint bump (now : Level) (events : list CountEvent) : list CountEvent :=
  match events with
  | [] => [CountEvent_new now]
  | [last] =>
      if (ev_level last =? now)%N then [{| ev_level := now; ev_counter := S (ev_counter last) |}]
      else [last; CountEvent_new now]
  | e :: events => e :: bump now events
  end.

(** [while let Some(event) = v.last() { if event.level > now { v.pop() } else
    { break } }], on the reversed vector; the popped events, last first. *)
Fixpoint pop_while {A} (level : A -> Level) (now : Level) (rev_events : list A) :
    list A * list A :=
  match rev_events with
  | [] => ([], [])
  | e :: rest =>
      if (now <? level e)%N then
        let r := pop_while level now rest in (fst r, e :: snd r)
      else (rev_events, [])
  end.

Definition pop_above {A} (level : A -> Level) (now : Level) (events : list A) : list A :=
  rev (fst (pop_while level now (rev events))).

(** Popped events in the order they are popped. *)
Definition popped_above {A} (level : A -> Level) (now : Level) (events : list A) : list A :=
  snd (pop_while level now (rev events)).

Definition sum_counters (events : list CountEvent) : nat := sum_list (ev_counter <$> events).

(** [get_mut(k).unwrap()] and indexing. *)
Definition expect_key {E K A} `{Countable K} (k : K) (m : gmap K A) : outcome E A :=
  unwrap "called `Option::unwrap()` on a `None` value" (m !! k).

(** ** Field updates *)

Definition set_quantifiers (v : gmap QuantifierId string) (s : State) : State :=
  Build_State v (terms s) (quantifiers_matched_events s) (quantifiers_inst_disovered_events s)
    (total_quantifiers_matched_counters s) (total_quantifiers_inst_disovered_counters s)
    (max_quantifier_matched_event_counters s) (max_quantifier_inst_discovered_event_counters s)
    (unique_quantifier_triggers s) (term_used_in_trigger_events s)
    (max_term_used_in_trigger_event_counters s) (multi_term_quantifiers s)
    (total_quantifiers_instance_counters s) (quantifiers_instance_events s)
    (max_quantifier_instance_event_counters s) (trace s) (largest_pop s)
    (current_active_scopes_count s) (traced_quantifier s) (traced_quantifier_triggers s).
Definition set_terms (v : gmap TermId Term) (s : State) : State :=
  Build_State (quantifiers s) v (quantifiers_matched_events s)
    (quantifiers_inst_disovered_events s) (total_quantifiers_matched_counters s)
    (total_quantifiers_inst_disovered_counters s) (max_quantifier_matched_event_counters s)
    (max_quantifier_inst_discovered_event_counters s) (unique_quantifier_triggers s)
    (term_used_in_trigger_events s) (max_term_used_in_trigger_event_counters s)
    (multi_term_quantifiers s) (total_quantifiers_instance_counters s)
    (quantifiers_instance_events s) (max_quantifier_instance_event_counters s) (trace s)
    (largest_pop s) (current_active_scopes_count s) (traced_quantifier s)
    (traced_quantifier_triggers s).
Definition set_quantifiers_matched_events (v : gmap QuantifierId (list CountEvent)) (s : State) : State :=
  Build_State (quantifiers s) (terms s) v (quantifiers_inst_disovered_events s)
    (total_quantifiers_matched_counters s) (total_quantifiers_inst_disovered_counters s)
    (max_quantifier_matched_event_counters s) (max_quantifier_inst_discovered_event_counters s)
    (unique_quantifier_triggers s) (term_used_in_trigger_events s)
    (max_term_used_in_trigger_event_counters s) (multi_term_quantifiers s)
    (total_quantifiers_instance_counters s) (quantifiers_instance_events s)
    (max_quantifier_instance_event_counters s) (trace s) (largest_pop s)
    (current_active_scopes_count s) (traced_quantifier s) (traced_quantifier_triggers s).
Definition set_quantifiers_inst_disovered_events (v : gmap TheoryKind (list CountEvent)) (s : State) : State :=
  Build_State (quantifiers s) (terms s) (quantifiers_matched_events s) v
    (total_quantifiers_matched_counters s) (total_quantifiers_inst_disovered_counters s)
    (max_quantifier_matched_event_counters s) (max_quantifier_inst_discovered_event_counters s)
    (unique_quantifier_triggers s) (term_used_in_trigger_events s)
    (max_term_used_in_trigger_event_counters s) (multi_term_quantifiers s)
    (total_quantifiers_instance_counters s) (quantifiers_instance_events s)
    (max_quantifier_instance_event_counters s) (trace s) (largest_pop s)
    (current_active_scopes_count s) (traced_quantifier s) (traced_quantifier_triggers s).
Definition set_total_quantifiers_matched_counters (v : gmap QuantifierId nat) (s : State) : State :=
  Build_State (quantifiers s) (terms s) (quantifiers_matched_events s)
    (quantifiers_inst_disovered_events s) v (total_quantifiers_inst_disovered_counters s)
    (max_quantifier_matched_event_counters s) (max_quantifier_inst_discovered_event_counters s)
    (unique_quantifier_triggers s) (term_used_in_trigger_events s)
    (max_term_used_in_trigger_event_counters s) (multi_term_quantifiers s)
    (total_quantifiers_instance_counters s) (quantifiers_instance_events s)
    (max_quantifier_instance_event_counters s) (trace s) (largest_pop s)
    (current_active_scopes_count s) (traced_quantifier s) (traced_quantifier_triggers s).
Definition set_total_quantifiers_inst_disovered_counters (v : gmap TheoryKind nat) (s : State) : State :=
  Build_State (quantifiers s) (terms s) (quantifiers_matched_events s)
    (quantifiers_inst_disovered_events s) (total_quantifiers_matched_counters s) v
    (max_quantifier_matched_event_counters s) (max_quantifier_inst_discovered_event_counters s)
    (unique_quantifier_triggers s) (term_used_in_trigger_events s)
    (max_term_used_in_trigger_event_counters s) (multi_term_quantifiers s)
    (total_quantifiers_instance_counters s) (quantifiers_instance_events s)
    (max_quantifier_instance_event_counters s) (trace s) (largest_pop s)
    (current_active_scopes_count s) (traced_quantifier s) (traced_quantifier_triggers s).
Definition set_max_quantifier_matched_event_counters (v : gmap QuantifierId nat) (s : State) : State :=
  Build_State (quantifiers s) (terms s) (quantifiers_matched_events s)
    (quantifiers_inst_disovered_events s) (total_quantifiers_matched_counters s)
    (total_quantifiers_inst_disovered_counters s) v
    (max_quantifier_inst_discovered_event_counters s) (unique_quantifier_triggers s)
    (term_used_in_trigger_events s) (max_term_used_in_trigger_event_counters s)
    (multi_term_quantifiers s) (total_quantifiers_instance_counters s)
    (quantifiers_instance_events s) (max_quantifier_instance_event_counters s) (trace s)
    (largest_pop s) (current_active_scopes_count s) (traced_quantifier s)
    (traced_quantifier_triggers s).
Definition set_max_quantifier_inst_discovered_event_counters (v : gmap TheoryKind nat) (s : State) : State :=
  Build_State (quantifiers s) (terms s) (quantifiers_matched_events s)
    (quantifiers_inst_disovered_events s) (total_quantifiers_matched_counters s)
    (total_quantifiers_inst_disovered_counters s) (max_quantifier_matched_event_counters s) v
    (unique_quantifier_triggers s) (term_used_in_trigger_events s)
    (max_term_used_in_trigger_event_counters s) (multi_term_quantifiers s)
    (total_quantifiers_instance_counters s) (quantifiers_instance_events s)
    (max_quantifier_instance_event_counters s) (trace s) (largest_pop s)
    (current_active_scopes_count s) (traced_quantifier s) (traced_quantifier_triggers s).
Definition set_unique_quantifier_triggers (v : gmap QuantifierId (gset TermId)) (s : State) : State :=
  Build_State (quantifiers s) (terms s) (quantifiers_matched_events s)
    (quantifiers_inst_disovered_events s) (total_quantifiers_matched_counters s)
    (total_quantifiers_inst_disovered_counters s) (max_quantifier_matched_event_counters s)
    (max_quantifier_inst_discovered_event_counters s) v (term_used_in_trigger_events s)
    (max_term_used_in_trigger_event_counters s) (multi_term_quantifiers s)
    (total_quantifiers_instance_counters s) (quantifiers_instance_events s)
    (max_quantifier_instance_event_counters s) (trace s) (largest_pop s)
    (current_active_scopes_count s) (traced_quantifier s) (traced_quantifier_triggers s).
Definition set_term_used_in_trigger_events (v : gmap QuantifierId (list TermUsedInTriggerEvent)) (s : State) : State :=
  Build_State (quantifiers s) (terms s) (quantifiers_matched_events s)
    (quantifiers_inst_disovered_events s) (total_quantifiers_matched_counters s)
    (total_quantifiers_inst_disovered_counters s) (max_quantifier_matched_event_counters s)
    (max_quantifier_inst_discovered_event_counters s) (unique_quantifier_triggers s) v
    (max_term_used_in_trigger_event_counters s) (multi_term_quantifiers s)
    (total_quantifiers_instance_counters s) (quantifiers_instance_events s)
    (max_quantifier_instance_event_counters s) (trace s) (largest_pop s)
    (current_active_scopes_count s) (traced_quantifier s) (traced_quantifier_triggers s).
Definition set_max_term_used_in_trigger_event_counters (v : gmap QuantifierId nat) (s : State) : State :=
  Build_State (quantifiers s) (terms s) (quantifiers_matched_events s)
    (quantifiers_inst_disovered_events s) (total_quantifiers_matched_counters s)
    (total_quantifiers_inst_disovered_counters s) (max_quantifier_matched_event_counters s)
    (max_quantifier_inst_discovered_event_counters s) (unique_quantifier_triggers s)
    (term_used_in_trigger_events s) v (multi_term_quantifiers s)
    (total_quantifiers_instance_counters s) (quantifiers_instance_events s)
    (max_quantifier_instance_event_counters s) (trace s) (largest_pop s)
    (current_active_scopes_count s) (traced_quantifier s) (traced_quantifier_triggers s).
Definition set_multi_term_quantifiers (v : gmap QuantifierId (list TermId)) (s : State) : State :=
  Build_State (quantifiers s) (terms s) (quantifiers_matched_events s)
    (quantifiers_inst_disovered_events s) (total_quantifiers_matched_counters s)
    (total_quantifiers_inst_disovered_counters s) (max_quantifier_matched_event_counters s)
    (max_quantifier_inst_discovered_event_counters s) (unique_quantifier_triggers s)
    (term_used_in_trigger_events s) (max_term_used_in_trigger_event_counters s) v
    (total_quantifiers_instance_counters s) (quantifiers_instance_events s)
    (max_quantifier_instance_event_counters s) (trace s) (largest_pop s)
    (current_active_scopes_count s) (traced_quantifier s) (traced_quantifier_triggers s).
Definition set_total_quantifiers_instance_counters (v : nat) (s : State) : State :=
  Build_State (quantifiers s) (terms s) (quantifiers_matched_events s)
    (quantifiers_inst_disovered_events s) (total_quantifiers_matched_counters s)
    (total_quantifiers_inst_disovered_counters s) (max_quantifier_matched_event_counters s)
    (max_quantifier_inst_discovered_event_counters s) (unique_quantifier_triggers s)
    (term_used_in_trigger_events s) (max_term_used_in_trigger_event_counters s)
    (multi_term_quantifiers s) v (quantifiers_instance_events s)
    (max_quantifier_instance_event_counters s) (trace s) (largest_pop s)
    (current_active_scopes_count s) (traced_quantifier s) (traced_quantifier_triggers s).
Definition set_quantifiers_instance_events (v : list CountEvent) (s : State) : State :=
  Build_State (quantifiers s) (terms s) (quantifiers_matched_events s)
    (quantifiers_inst_disovered_events s) (total_quantifiers_matched_counters s)
    (total_quantifiers_inst_disovered_counters s) (max_quantifier_matched_event_counters s)
    (max_quantifier_inst_discovered_event_counters s) (unique_quantifier_triggers s)
    (term_used_in_trigger_events s) (max_term_used_in_trigger_event_counters s)
    (multi_term_quantifiers s) (total_quantifiers_instance_counters s) v
    (max_quantifier_instance_event_counters s) (trace s) (largest_pop s)
    (current_active_scopes_count s) (traced_quantifier s) (traced_quantifier_triggers s).
Definition set_max_quantifier_instance_event_counters (v : nat) (s : State) : State :=
  Build_State (quantifiers s) (terms s) (quantifiers_matched_events s)
    (quantifiers_inst_disovered_events s) (total_quantifiers_matched_counters s)
    (total_quantifiers_inst_disovered_counters s) (max_quantifier_matched_event_counters s)
    (max_quantifier_inst_discovered_event_counters s) (unique_quantifier_triggers s)
    (term_used_in_trigger_events s) (max_term_used_in_trigger_event_counters s)
    (multi_term_quantifiers s) (total_quantifiers_instance_counters s)
    (quantifiers_instance_events s) v (trace s) (largest_pop s) (current_active_scopes_count s)
    (traced_quantifier s) (traced_quantifier_triggers s).
Definition set_trace (v : list BasicBlockVisitedEvent) (s : State) : State :=
  Build_State (quantifiers s) (terms s) (quantifiers_matched_events s)
    (quantifiers_inst_disovered_events s) (total_quantifiers_matched_counters s)
    (total_quantifiers_inst_disovered_counters s) (max_quantifier_matched_event_counters s)
    (max_quantifier_inst_discovered_event_counters s) (unique_quantifier_triggers s)
    (term_used_in_trigger_events s) (max_term_used_in_trigger_event_counters s)
    (multi_term_quantifiers s) (total_quantifiers_instance_counters s)
    (quantifiers_instance_events s) (max_quantifier_instance_event_counters s) v (largest_pop s)
    (current_active_scopes_count s) (traced_quantifier s) (traced_quantifier_triggers s).
Definition set_largest_pop (v : LargestPop) (s : State) : State :=
  Build_State (quantifiers s) (terms s) (quantifiers_matched_events s)
    (quantifiers_inst_disovered_events s) (total_quantifiers_matched_counters s)
    (total_quantifiers_inst_disovered_counters s) (max_quantifier_matched_event_counters s)
    (max_quantifier_inst_discovered_event_counters s) (unique_quantifier_triggers s)
    (term_used_in_trigger_events s) (max_term_used_in_trigger_event_counters s)
    (multi_term_quantifiers s) (total_quantifiers_instance_counters s)
    (quantifiers_instance_events s) (max_quantifier_instance_event_counters s) (trace s) v
    (current_active_scopes_count s) (traced_quantifier s) (traced_quantifier_triggers s).
Definition set_current_active_scopes_count (v : Level) (s : State) : State :=
  Build_State (quantifiers s) (terms s) (quantifiers_matched_events s)
    (quantifiers_inst_disovered_events s) (total_quantifiers_matched_counters s)
    (total_quantifiers_inst_disovered_counters s) (max_quantifier_matched_event_counters s)
    (max_quantifier_inst_discovered_event_counters s) (unique_quantifier_triggers s)
    (term_used_in_trigger_events s) (max_term_used_in_trigger_event_counters s)
    (multi_term_quantifiers s) (total_quantifiers_instance_counters s)
    (quantifiers_instance_events s) (max_quantifier_instance_event_counters s) (trace s)
    (largest_pop s) v (traced_quantifier s) (traced_quantifier_triggers s).
Definition set_traced_quantifier (v : option QuantifierId) (s : State) : State :=
  Build_State (quantifiers s) (terms s) (quantifiers_matched_events s)
    (quantifiers_inst_disovered_events s) (total_quantifiers_matched_counters s)
    (total_quantifiers_inst_disovered_counters s) (max_quantifier_matched_event_counters s)
    (max_quantifier_inst_discovered_event_counters s) (unique_quantifier_triggers s)
    (term_used_in_trigger_events s) (max_term_used_in_trigger_event_counters s)
    (multi_term_quantifiers s) (total_quantifiers_instance_counters s)
    (quantifiers_instance_events s) (max_quantifier_instance_event_counters s) (trace s)
    (largest_pop s) (current_active_scopes_count s) v (traced_quantifier_triggers s).
Definition set_traced_quantifier_triggers (v : option string) (s : State) : State :=
  Build_State (quantifiers s) (terms s) (quantifiers_matched_events s)
    (quantifiers_inst_disovered_events s) (total_quantifiers_matched_counters s)
    (total_quantifiers_inst_disovered_counters s) (max_quantifier_matched_event_counters s)
    (max_quantifier_inst_discovered_event_counters s) (unique_quantifier_triggers s)
    (term_used_in_trigger_events s) (max_term_used_in_trigger_event_counters s)
    (multi_term_quantifiers s) (total_quantifiers_instance_counters s)
    (quantifiers_instance_events s) (max_quantifier_instance_event_counters s) (trace s)
    (largest_pop s) (current_active_scopes_count s) (traced_quantifier s) v.

(** ** Registrations *)
Section operations.
Context {E : Type}.

Definition register_label (label : string) (s : State) : State :=
  set_trace (trace s ++ [{| bb_level := current_active_scopes_count s; bb_label := label |}]) s.

Definition register_quantifier (q : QuantifierId) (name : string) (s : State) : State :=
  let s := set_quantifiers (<[q := name]> (quantifiers s)) s in
  let s := set_quantifiers_matched_events (<[q := []]> (quantifiers_matched_events s)) s in
  let s := set_total_quantifiers_matched_counters
             (<[q := 0]> (total_quantifiers_matched_counters s)) s in
  let s := set_max_quantifier_matched_event_counters
             (<[q := 0]> (max_quantifier_matched_event_counters s)) s in
  let s := set_unique_quantifier_triggers (<[q := ∅]> (unique_quantifier_triggers s)) s in
  let s := set_term_used_in_trigger_events (<[q := []]> (term_used_in_trigger_events s)) s in
  set_max_term_used_in_trigger_event_counters
    (<[q := 0]> (max_term_used_in_trigger_event_counters s)) s.

Definition register_matched_quantifier (q : QuantifierId) (s : State) : outcome E State :=
  total ← expect_key q (total_quantifiers_matched_counters s);
  let s := set_total_quantifiers_matched_counters
             (<[q := S total]> (total_quantifiers_matched_counters s)) s in
  events ← expect_key q (quantifiers_matched_events s);
  Ok (set_quantifiers_matched_events
        (<[q := bump (current_active_scopes_count s) events]> (quantifiers_matched_events s)) s).

Definition register_theory (t : TheoryKind) (s : State) : State :=
  let s := set_quantifiers_inst_disovered_events
             (<[t := []]> (quantifiers_inst_disovered_events s)) s in
  let s := set_total_quantifiers_inst_disovered_counters
             (<[t := 0]> (total_quantifiers_inst_disovered_counters s)) s in
  set_max_quantifier_inst_discovered_event_counters
    (<[t := 0]> (max_quantifier_inst_discovered_event_counters s)) s.

Definition register_inst_discovered (t : TheoryKind) (s : State) : outcome E State :=
  total ← expect_key t (total_quantifiers_inst_disovered_counters s);
  let s := set_total_quantifiers_inst_disovered_counters
             (<[t := S total]> (total_quantifiers_inst_disovered_counters s)) s in
  events ← expect_key t (quantifiers_inst_disovered_events s);
  Ok (set_quantifiers_inst_disovered_events
        (<[t := bump (current_active_scopes_count s) events]>
           (quantifiers_inst_disovered_events s)) s).

Definition register_instance (s : State) : State :=
  let s := set_total_quantifiers_instance_counters
             (S (total_quantifiers_instance_counters s)) s in
  set_quantifiers_instance_events
    (bump (current_active_scopes_count s) (quantifiers_instance_events s)) s.

Definition register_term_function_application (t : TermId) (name : string) (args : list TermId)
    (s : State) : State :=
  set_terms (<[t := FunctionApplication name args]> (terms s)) s.

Definition register_term_bound_variable (t : TermId) (index : N) (s : State) : State :=
  set_terms (<[t := Variable_ index]> (terms s)) s.

Definition register_term_attach_meaning (t : TermId) (ident value : string) (s : State) : State :=
  set_terms (<[t := AttachMeaningTerm ident value]> (terms s)) s.

(** The decimal rendering of an identifier. *)
Definition show (n : N) : string := pretty n.

(** [render_term]: [depth] is the [u16] of the source. *)
Fixpoint render_term (terms : gmap TermId Term) (t : TermId) (depth : nat) : string :=
  match depth with
  | 0 => "…"
  | S depth =>
      match terms !! t with
      | Some (FunctionApplication name args) =>
          match args with
          | [] => name
          | _ => "(" +:+ name
                 +:+ String.concat "" ((fun a => " " +:+ render_term terms a depth) <$> args)
                 +:+ ")"
          end
      | Some (Variable_ index) => "var(" +:+ show index +:+ ")"
      | Some (AttachMeaningTerm ident value) => "( " +:+ ident +:+ " " +:+ value +:+ " )"
      | None => "n/a"
      end
  end.

Definition newline_str : string := String newline EmptyString.

Definition trace_quantifier_trigger (q : QuantifierId) (t : TermId) (s : State) :
    outcome E State :=
  match traced_quantifier s with
  | None => Ok s
  | Some traced =>
      triggers ← expect_key q (unique_quantifier_triggers s);
      if negb (bool_decide (t ∈ triggers)) && (traced =? q)%N then
        buf ← unwrap "called `Option::unwrap()` on a `None` value" (traced_quantifier_triggers s);
        Ok (set_traced_quantifier_triggers
              (Some (buf +:+ show t +:+ "," +:+ render_term (terms s) t 30 +:+ newline_str)) s)
      else Ok s
  end.

Definition mark_quantifier_for_tracing (q : option QuantifierId) (s : State) : outcome E State :=
  _ ← assert_that "assertion failed: self.traced_quantifier.is_none()"
        (bool_decide (traced_quantifier s = None));
  let s := set_traced_quantifier q s in
  Ok (match q with
      | Some q => set_traced_quantifier_triggers (Some (show q +:+ "," +:+ newline_str)) s
      | None => s
      end).

Definition register_matched_trigger_term (q : QuantifierId) (t : TermId) (s : State) :
    outcome E State :=
  s ← trace_quantifier_trigger q t s;
  unique ← expect_key q (unique_quantifier_triggers s);
  let s := set_unique_quantifier_triggers
             (<[q := {[t]} ∪ unique]> (unique_quantifier_triggers s)) s in
  events ← expect_key q (term_used_in_trigger_events s);
  let s := if existsb (fun e => (tu_term_id e =? t)%N) events
           then set_multi_term_quantifiers
                  (<[q := default [] (multi_term_quantifiers s !! q) ++ [t]]>
                     (multi_term_quantifiers s)) s
           else s in
  Ok (set_term_used_in_trigger_events
        (<[q := events ++ [{| tu_level := current_active_scopes_count s; tu_term_id := t |}]]>
           (term_used_in_trigger_events s)) s).

(** ** Scopes *)

Definition push_scope (s : State) : outcome E State :=
  if (current_active_scopes_count s =? u32_max)%N then Panic "attempt to add with overflow"
  else Ok (set_current_active_scopes_count (current_active_scopes_count s + 1)%N s).

(** The peaks of a map of stacks, measured by [size]; every stack must have a
    peak. *)
Definition update_peaks {K A} `{Countable K} (size : A -> nat) (events : gmap K A)
    (peaks : gmap K nat) : outcome E (gmap K nat) :=
  if bool_decide (dom events ⊆ dom peaks)
  then Ok (map_imap (fun k peak => Some (match events !! k with
                                         | Some es => peak `max` size es
                                         | None => peak
                                         end)) peaks)
  else Panic "called `Option::unwrap()` on a `None` value".

Definition removed_of (now : Level) (events : list CountEvent) : nat :=
  sum_counters (popped_above ev_level now events).

Definition pop_scopes (scopes_to_pop : N) (s : State) : outcome E State :=
  let count := current_active_scopes_count s in
  if (count <? scopes_to_pop)%N then Panic "attempt to subtract with overflow"
  else
  let now := (count - scopes_to_pop)%N in
  let s := set_current_active_scopes_count now s in
  (* instances *)
  let max_instances := sum_counters (quantifiers_instance_events s) in
  let s := set_max_quantifier_instance_event_counters
             (max_quantifier_instance_event_counters s `max` max_instances) s in
  let s := set_quantifiers_instance_events
             (pop_above ev_level now (quantifiers_instance_events s)) s in
  (* triggers *)
  trigger_peaks ← update_peaks length (term_used_in_trigger_events s)
                    (max_term_used_in_trigger_event_counters s);
  let s := set_max_term_used_in_trigger_event_counters trigger_peaks s in
  let s := set_term_used_in_trigger_events
             (pop_above tu_level now <$> term_used_in_trigger_events s) s in
  (* labels *)
  let removed_labels := popped_above bb_level now (trace s) in
  let s := set_trace (pop_above bb_level now (trace s)) s in
  (* theories *)
  theory_peaks ← update_peaks sum_counters (quantifiers_inst_disovered_events s)
                   (max_quantifier_inst_discovered_event_counters s);
  let s := set_max_quantifier_inst_discovered_event_counters theory_peaks s in
  let s := set_quantifiers_inst_disovered_events
             (pop_above ev_level now <$> quantifiers_inst_disovered_events s) s in
  (* matches *)
  match_peaks ← update_peaks sum_counters (quantifiers_matched_events s)
                  (max_quantifier_matched_event_counters s);
  let s := set_max_quantifier_matched_event_counters match_peaks s in
  let removed := removed_of now <$> quantifiers_matched_events s in
  let total_removed := map_fold (fun _ n acc => n + acc) 0 removed in
  let s := set_quantifiers_matched_events
             (pop_above ev_level now <$> quantifiers_matched_events s) s in
  if quantifier_matches_removed (largest_pop s) <? total_removed
  then Ok (set_largest_pop
             {| quantifier_matches_removed := total_removed;
                active_scopes_popped := scopes_to_pop;
                removed_quantifiers := filter (fun '(_, n) => 0 < n) removed;
                labels := rev removed_labels;
                trace_prefix := trace s |} s)
  else Ok s.

Definition pop_all_scopes (s : State) : outcome E State :=
  pop_scopes (current_active_scopes_count s) s.
End operations.

(** ** Results *)

(** The order of [(usize, QuantifierId)] tuples. *)
Definition count_le (a b : nat * N) : Prop :=
  a.1 < b.1 \/ (a.1 = b.1 /\ (a.2 <= b.2)%N).

#[export] Instance count_le_dec a b : Decision (count_le a b).
Proof. unfold count_le. apply _. Defined.

(** A map as a vector of [(count, key)] sorted with [sort_unstable]. *)
Definition sorted_counts (m : gmap N nat) : list (nat * N) :=
  merge_sort count_le ((fun p => (p.2, p.1)) <$> map_to_list m).

Definition quantifier_matches_counts (s : State) : list (nat * QuantifierId) :=
  sorted_counts (max_quantifier_matched_event_counters s).

Definition quantifier_name {E} (s : State) (q : QuantifierId) : outcome E string :=
  expect_key q (quantifiers s).

(** The tables written to the CSV files, one row per record. *)
Record Statistics := {
  st_instances : nat * nat;
  st_triggers : list (QuantifierId * string * nat);
  st_unique_triggers : list (QuantifierId * string * nat);
  st_multi_triggers : list (QuantifierId * string * nat);
  st_matches : list (QuantifierId * string * nat * nat);
  st_inst_discoveries : list (TheoryKind * nat * nat);
  st_largest_pop_matches : list (QuantifierId * string * nat);
  st_largest_pop_labels : list (string * Level * bool);
  st_traced_triggers : option (QuantifierId * string);
}.

Definition named_rows {E} (s : State) (counts : list (nat * QuantifierId)) :
    outcome E (list (QuantifierId * string * nat)) :=
  collect (fun c => name ← quantifier_name s c.2; Ok (c.2, name, c.1)) counts.

(** Theories are ordered by their discriminant. *)
Definition theory_code (t : TheoryKind) : N :=
  match t with Arith => 0 | Basic => 1 | Datatype => 2 | UserSort => 3 end.

Definition theory_le (a b : nat * TheoryKind) : Prop :=
  count_le (a.1, theory_code a.2) (b.1, theory_code b.2).

#[export] Instance theory_le_dec a b : Decision (theory_le a b).
Proof. unfold theory_le. apply _. Defined.

Definition write_statistics {E} (s : State) : outcome E Statistics :=
  triggers ← named_rows s (sorted_counts (max_term_used_in_trigger_event_counters s));
  unique ← named_rows s (sorted_counts (size <$> unique_quantifier_triggers s));
  multi ← named_rows s (sorted_counts (length <$> multi_term_quantifiers s));
  matches ← collect (fun c =>
      total ← expect_key c.2 (total_quantifiers_matched_counters s);
      name ← quantifier_name s c.2;
      Ok (c.2, name, c.1, total)) (quantifier_matches_counts s);
  discoveries ← collect (fun c =>
      total ← expect_key c.2 (total_quantifiers_inst_disovered_counters s);
      Ok (c.2, c.1, total))
    (merge_sort theory_le ((fun p => (p.2, p.1)) <$>
       map_to_list (max_quantifier_inst_discovered_event_counters s)));
  removed ← named_rows s (sorted_counts (removed_quantifiers (largest_pop s)));
  traced ← match traced_quantifier s with
           | Some q => t ← unwrap "called `Option::unwrap()` on a `None` value"
                             (traced_quantifier_triggers s);
                       Ok (Some (q, t))
           | None => Ok None
           end;
  Ok {| st_instances := (total_quantifiers_instance_counters s,
                         max_quantifier_instance_event_counters s);
        st_triggers := triggers; st_unique_triggers := unique; st_multi_triggers := multi;
        st_matches := matches; st_inst_discoveries := discoveries;
        st_largest_pop_matches := removed;
        st_largest_pop_labels :=
          ((fun b => (bb_label b, bb_level b, false)) <$> trace_prefix (largest_pop s))
          ++ ((fun b => (bb_label b, bb_level b, true)) <$> labels (largest_pop s));
        st_traced_triggers := traced |}.

(** [Settings], as far as bounds are concerned. *)
Record Bounds := {
  ignore_builtin : bool;
  bound_global_kind : option nat;
  bound_trace : option nat;
  bound_trace_kind : option nat;
  unique_triggers_bound : option nat;
  unique_triggers_bound_total : option nat;
}.

Definition exceeds (n : nat) (bound : option nat) : bool :=
  match bound with Some b => b <? n | None => false end.

Definition ignored (b : Bounds) (q : QuantifierId) : bool :=
  (q =? BUILTIN_QUANTIFIER_ID)%N && ignore_builtin b.

Definition check_bounds_explanatory_quantifier_name {E} (s : State) (q : QuantifierId) :
    outcome E string :=
  name ← quantifier_name s q;
  Ok (if String.prefix "k!" name
      then name +:+ " (quantifiers with name k!<line> are defined on <line>'th line of the smt2 file)"
      else name).

(** The violations of one quantifier: on the trace, and in total. *)
Definition kind_violations {E} (s : State) (b : Bounds) (c : nat * QuantifierId) :
    outcome E (list (QuantifierId * nat)) :=
  total ← expect_key c.2 (total_quantifiers_matched_counters s);
  v1 ← if (c.1 <? total) && exceeds c.1 (bound_trace_kind b)
       then _ ← check_bounds_explanatory_quantifier_name s c.2; Ok [(c.2, c.1)] else Ok [];
  v2 ← if exceeds c.1 (bound_global_kind b)
       then _ ← check_bounds_explanatory_quantifier_name s c.2; Ok [(c.2, c.1)] else Ok [];
  Ok (v1 ++ v2).

Definition check_bounds {E} (s : State) (b : Bounds) : outcome E unit :=
  match bound_trace b, bound_trace_kind b, bound_global_kind b with
  | None, None, None => Ok tt
  | _, _, _ =>
      let counts := filter (fun c => ignored b c.2 = false) (quantifier_matches_counts s) in
      violating ← collect (kind_violations s b) counts;
      _ ← assert_that "the number of allowed instantiations were exceeded"
            (bool_decide (mjoin violating = []));
      _ ← assert_that "the number of quantifier instantiations on a specific trace exceeded the allowed bound"
            (negb (exceeds (sum_list (fst <$> counts)) (bound_trace b)));
      let triggers :=
        filter (fun p => ignored b p.1 = false)
          (map_to_list (size <$> unique_quantifier_triggers s)) in
      violating ← collect (fun p : QuantifierId * nat =>
          if exceeds p.2 (unique_triggers_bound b)
          then _ ← check_bounds_explanatory_quantifier_name s p.1; Ok [p.1] else Ok []) triggers;
      _ ← assert_that "the number of allowed unique triggers were exceeded"
            (bool_decide (mjoin violating = []));
      assert_that "the number of unique triggers exceeded the allowed bound"
        (negb (exceeds (sum_list (snd <$> triggers)) (unique_triggers_bound_total b)))
  end.
