(* ===== verification/SmtLog.v ===== *)
(** * Analysis of an SMT log

    [smt-log-analyzer/src/lib.rs]: the interpretation of one line of a Z3
    trace as an operation on the state, and the analysis of a whole trace. *)
From Stdlib Require Import Ascii.
From S2P Require Import Prelude SmtParser SmtState.

Record Settings := {
  do_write_statistics : bool;
  bounds : Bounds;
  check_active_scopes_count : option N;
  pop_scopes_by_one : bool;
  trace_quantifier_triggers : option QuantifierId;
}.

(** ** Lines *)

(** A parser that also threads the state. *)
Definition handler (A : Type) : Type := State -> string -> outcome Error (A * State * string).

Definition parse {A} (p : parser A) : handler A := fun s l =>
  match p l with Ok (a, l) => Ok (a, s, l) | Err e => Err e | Panic m => Panic m end.

Definition modify (f : State -> outcome Error State) : handler unit := fun s l =>
  match f s with Ok s => Ok (tt, s, l) | Err e => Err e | Panic m => Panic m end.

#[export] Instance handler_ret : MRet handler := fun A a s l => Ok (a, s, l).
#[export] Instance handler_bind : MBind handler := fun A B f h s l =>
  match h s l with Ok (a, s, l) => f a s l | Err e => Err e | Panic m => Panic m end.

(** [assert_eq!(state.active_scopes_count(), n)]. *)
Definition expect_scopes (n : N) : handler unit :=
  modify (fun s => _ ← assert_that "assertion `left == right` failed"
                         (current_active_scopes_count s =? n)%N; Ok s).

(** The loops over terms consume at least one character per round: [fuel] is
    the length of the line. *)
Fixpoint parse_ids (fuel : nat) : handler (list Id) :=
  match fuel with
  | 0 => fun _ _ => Panic "out of fuel"
  | S fuel =>
      id ← parse try_parse_id;
      match id with
      | Some id => ids ← parse_ids fuel; mret (id :: ids)
      | None => mret []
      end
  end.

Fixpoint match_terms (fuel : nat) (q : QuantifierId) : handler unit :=
  match fuel with
  | 0 => fun _ _ => Panic "out of fuel"
  | S fuel =>
      t ← parse try_parse_quant_term;
      match t with
      | Some (Single matched) =>
          u ← modify (register_matched_trigger_term q matched); match_terms fuel q
      | Some (Pair original matched) =>
          u ← modify (register_matched_trigger_term q original);
          u ← modify (register_matched_trigger_term q matched);
          match_terms fuel q
      | None => mret tt
      end
  end.

(** [starts_with]. *)
Fixpoint starts_with (prefix s : string) : bool :=
  match prefix, s with
  | EmptyString, _ => true
  | String a p, String b s => Ascii.eqb a b && starts_with p s
  | _, _ => false
  end.

Fixpoint pop_by_one (n : nat) (s : State) : outcome Error State :=
  match n with
  | 0 => Ok s
  | S n => s ← pop_scopes 1 s; pop_by_one n s
  end.

Definition on_pop (settings : Settings) : handler unit :=
  scopes_to_pop ← parse parse_number;
  active_scopes_count ← parse parse_number;
  u ← parse check_eof;
  u ← expect_scopes active_scopes_count;
  modify (fun s => if pop_scopes_by_one settings then pop_by_one (N.to_nat scopes_to_pop) s
                   else pop_scopes scopes_to_pop s).

Definition on_push : handler unit :=
  active_scopes_count ← parse parse_number;
  u ← parse check_eof;
  u ← expect_scopes active_scopes_count;
  modify push_scope.

Definition on_mk_app (fuel : nat) : handler unit :=
  term_id ← parse try_parse_id;
  match term_id with
  | Some term_id =>
      ident ← parse parse_name;
      if starts_with "basic_block_marker" ident
      then modify (fun s => Ok (register_label ident s))
      else args ← parse_ids fuel;
           modify (fun s => Ok (register_term_function_application term_id ident args s))
  | None => mret tt
  end.

Definition on_mk_var : handler unit :=
  term_id ← parse try_parse_id;
  match term_id with
  | Some term_id =>
      index ← parse parse_number;
      modify (fun s => Ok (register_term_bound_variable term_id index s))
  | None => mret tt
  end.

Definition on_attach_meaning : handler unit :=
  term_id ← parse parse_id;
  ident ← parse parse_name;
  u ← parse skip_whitespace;
  value ← parse remaining;
  modify (fun s => Ok (register_term_attach_meaning term_id ident value s)).

(** An unparsable identifier is a builtin quantifier and ignored. *)
Definition on_mk_quant : handler unit := fun s l =>
  match parse_id l with
  | Ok (id, l) =>
      (name ← parse parse_name; modify (fun s => Ok (register_quantifier id name s))) s l
  | Err _ => Ok (tt, s, l)
  | Panic m => Panic m
  end.

Definition on_new_match (fuel : nat) : handler unit :=
  fingerprint ← parse parse_hex_number;
  if (fingerprint =? 0)%N then modify (register_matched_quantifier BUILTIN_QUANTIFIER_ID)
  else
    quantifier_id ← parse parse_id;
    u ← modify (register_matched_quantifier quantifier_id);
    trigger_id ← parse parse_id;
    ids ← parse_ids fuel;
    u ← parse (consume ";"%char);
    u ← match_terms fuel quantifier_id;
    parse check_eof.

Definition on_inst_discovered : handler unit :=
  name ← parse parse_name;
  u ← modify (fun s => _ ← assert_that "assertion `left == right` failed"
                             (bool_decide (name = "theory-solving")); Ok s);
  fingerprint ← parse parse_hex_number;
  u ← modify (fun s => _ ← assert_that "assertion `left == right` failed"
                             (fingerprint =? 0)%N; Ok s);
  theory ← parse parse_theory;
  modify (register_inst_discovered theory).

Definition process_event (settings : Settings) (kind : EventKind) (fuel : nat) : handler unit :=
  match kind with
  | Pop => on_pop settings
  | Push => on_push
  | MkApp => on_mk_app fuel
  | MkVar => on_mk_var
  | AttachMeaning => on_attach_meaning
  | MkQuant => on_mk_quant
  | NewMatch => on_new_match fuel
  | InstDiscovered => on_inst_discovered
  | Instance_ => modify (fun s => Ok (register_instance s))
  | Unrecognized => mret tt
  end.

Definition process_line (settings : Settings) (line : string) (s : State) : outcome Error State :=
  let fuel := S (String.length line) in
  r ← (kind ← parse parse_event_kind; process_event settings kind fuel) s line;
  Ok (r.1.2).

(** ** Traces *)

(** An error of a line is a panic of the analysis. *)
Fixpoint process_lines (settings : Settings) (lines : list string) (s : State) :
    outcome Error State :=
  match lines with
  | [] => Ok s
  | line :: lines =>
      match process_line settings line s with
      | Ok s => process_lines settings lines s
      | Err e => Panic "Error on line"
      | Panic m => Panic m
      end
  end.

(** The last line is read but not processed: it is likely to be cut off. *)
Fixpoint all_but_last {A} (l : list A) : list A :=
  match l with
  | [] | [_] => []
  | x :: l => x :: all_but_last l
  end.

Definition initial_state (settings : Settings) : outcome Error State :=
  let s := register_quantifier BUILTIN_QUANTIFIER_ID "builtin quantifier" State_default in
  let s := register_theory UserSort (register_theory Datatype
             (register_theory Basic (register_theory Arith s))) in
  mark_quantifier_for_tracing (trace_quantifier_triggers settings) s.

(** [analyze], on the lines of the trace file (each with its newline); the
    statistics it writes are its result. *)
Definition analyze (settings : Settings) (lines : list string) :
    outcome Error (option Statistics) :=
  s ← initial_state settings;
  _ ← assert_that "assertion failed: reader.read_line(&mut prev_line)? > 0"
        (negb (bool_decide (lines = [])));
  s ← process_lines settings (all_but_last lines) s;
  let scopes_left := current_active_scopes_count s in
  s ← pop_all_scopes s;
  stats ← if do_write_statistics settings
          then st ← write_statistics s; Ok (Some st) else Ok None;
  _ ← match check_active_scopes_count settings with
      | Some expected => assert_that "assertion `left == right` failed" (scopes_left =? expected)%N
      | None => Ok tt
      end;
  _ ← check_bounds s (bounds settings);
  Ok stats.
