(* ===== verification/SmtSound.v ===== *)
(** * Correctness of the SMT log analyzer

    The stacks of events are sorted by level, so that popping from the end
    removes exactly the events of the closed scopes; the counters of the state
    are those of a reference computed from the history of events alone. *)
From S2P Require Import Prelude SmtParser SmtState SmtLog.

(** ** Stacks *)
Section stacks.
Context {A : Type} (level : A -> N).

Definition level_le (a b : A) : Prop := (level a <= level b)%N.
Definition stack_ok (now : N) (l : list A) : Prop :=
  StronglySorted level_le l /\ Forall (fun e => level e <= now)%N l.

Lemma pop_above_app now l e :
  pop_above level now (l ++ [e])
  = if (now <? level e)%N then pop_above level now l else l ++ [e].
Proof.
  unfold pop_above. rewrite rev_app_distr. simpl.
  destruct (now <? level e)%N; [done|]. simpl. by rewrite rev_involutive.
Qed.

Lemma popped_above_app now l e :
  popped_above level now (l ++ [e])
  = if (now <? level e)%N then e :: popped_above level now l else [].
Proof.
  unfold popped_above. rewrite rev_app_distr. simpl. by destruct (now <? level e)%N.
Qed.

Lemma sorted_app_inv l e :
  StronglySorted level_le (l ++ [e]) -> StronglySorted level_le l /\ Forall (fun x => level_le x e) l.
Proof.
  induction l as [|x l IH]; simpl; [by split; constructor|].
  inversion 1 as [|? ? Hs Hx]; subst. apply IH in Hs as [Hs Hl].
  apply Forall_app in Hx as [Hx He]. apply Forall_cons in He as [He _].
  split; constructor; done.
Qed.

Lemma sorted_app_one l e :
  StronglySorted level_le l -> Forall (fun x => level_le x e) l ->
  StronglySorted level_le (l ++ [e]).
Proof.
  induction 1 as [|x l Hs IH Hx]; simpl; intros Hl; [by repeat constructor|].
  apply Forall_cons in Hl as [Hxe Hl]. constructor; [by apply IH|].
  apply Forall_app. split; [done | by constructor].
Qed.

(** On a sorted stack the popped events are those above the level. *)
Lemma pop_above_filter now l :
  StronglySorted level_le l ->
  pop_above level now l = filter (fun e => level e <= now)%N l /\
  popped_above level now l = rev (filter (fun e => now < level e)%N l).
Proof.
  induction l as [|e l IH] using rev_ind; intros Hs; [done|].
  apply sorted_app_inv in Hs as [Hs Hl]. destruct (IH Hs) as [IH1 IH2].
  rewrite pop_above_app, popped_above_app, !filter_app, rev_app_distr.
  destruct (N.ltb_spec now (level e)) as [Hlt|Hle].
  - rewrite !filter_cons, !filter_nil, decide_False, decide_True by lia.
    by rewrite app_nil_r, IH1, IH2.
  - rewrite !filter_cons, !filter_nil, decide_True, decide_False by lia. simpl.
    assert (Forall (fun x => level x <= now)%N l) as Hall.
    { eapply Forall_impl; [exact Hl|]. unfold level_le. intros x Hx. simpl in Hx. lia. }
    rewrite (filter_all _ l) by done. split; [done|].
    rewrite filter_none; [done|]. eapply Forall_impl; [exact Hall|]. simpl. intros; lia.
Qed.

Lemma sorted_filter (P : A -> Prop) `{forall x, Decision (P x)} l :
  StronglySorted level_le l -> StronglySorted level_le (filter P l).
Proof.
  induction 1 as [|x l Hs IH Hx]; [constructor|]. rewrite filter_cons.
  destruct (decide (P x)); [|done]. constructor; [done|].
  rewrite Forall_forall in Hx |- *. intros y [_ Hy]%list_elem_of_filter. by apply Hx.
Qed.

Lemma stack_ok_pop now now' l : stack_ok now l -> stack_ok now' (pop_above level now' l).
Proof.
  intros [Hs _]. destruct (pop_above_filter now' l Hs) as [-> _].
  split; [by apply sorted_filter|]. rewrite Forall_forall.
  by intros x [Hx _]%list_elem_of_filter.
Qed.

Lemma stack_ok_push now l e : stack_ok now l -> level e = now -> stack_ok now (l ++ [e]).
Proof.
  intros [Hs Hl] He. split.
  - apply sorted_app_one; [done|]. eapply Forall_impl; [exact Hl|].
    intros x Hx. unfold level_le. by rewrite He.
  - apply Forall_app. split; [done|]. constructor; [lia | constructor].
Qed.

Lemma stack_ok_mono now now' l : stack_ok now l -> (now <= now')%N -> stack_ok now' l.
Proof.
  intros [Hs Hl] Hn. split; [done|]. eapply Forall_impl; [exact Hl|]. simpl. intros; lia.
Qed.
End stacks.

(** ** Counted stacks *)

(** The levels of the single events behind the counters. *)
Definition expand (es : list CountEvent) : list N :=
  mjoin ((fun e => replicate (ev_counter e) (ev_level e)) <$> es).

Lemma expand_app es es' : expand (es ++ es') = expand es ++ expand es'.
Proof. unfold expand. by rewrite fmap_app, join_app. Qed.

Lemma sum_counters_expand es : sum_counters es = length (expand es).
Proof.
  induction es as [|e es IH]; [done|]. change (e :: es) with ([e] ++ es).
  rewrite expand_app, length_app, <- IH. unfold sum_counters, expand. simpl.
  by rewrite app_nil_r, length_replicate.
Qed.

Lemma bump_snoc now es e :
  bump now (es ++ [e]) =
  es ++ (if (ev_level e =? now)%N then [{| ev_level := now; ev_counter := S (ev_counter e) |}]
         else [e; CountEvent_new now]).
Proof.
  induction es as [|x es IH]; [done|]. simpl. rewrite IH.
  destruct es; simpl; done.
Qed.

Lemma expand_bump now es : expand (bump now es) = expand es ++ [now].
Proof.
  induction es as [|e es _] using rev_ind; [done|].
  rewrite bump_snoc, !expand_app, <- app_assoc. f_equal.
  destruct (N.eqb_spec (ev_level e) now) as [<-|]; unfold expand; simpl; rewrite !app_nil_r.
  - apply replicate_cons_app.
  - done.
Qed.

Lemma bump_ok now es : stack_ok ev_level now es -> stack_ok ev_level now (bump now es).
Proof.
  induction es as [|e es _] using rev_ind; intros Hs; [by apply (stack_ok_push ev_level now [])|].
  rewrite bump_snoc. destruct (N.eqb_spec (ev_level e) now) as [He|He].
  - destruct Hs as [Hs Hl]. apply sorted_app_inv in Hs as [Hs _].
    apply Forall_app in Hl as [Hl _]. by apply stack_ok_push.
  - change [e; CountEvent_new now] with ([e] ++ [CountEvent_new now]).
    rewrite app_assoc. by apply stack_ok_push.
Qed.

Lemma expand_cons e es : expand (e :: es) = replicate (ev_counter e) (ev_level e) ++ expand es.
Proof. done. Qed.

Lemma filter_replicate (P : N -> Prop) `{forall x, Decision (P x)} n x :
  filter P (replicate n x) = if decide (P x) then replicate n x else [].
Proof.
  induction n as [|n IHn]; simpl; [by destruct (decide _)|].
  rewrite filter_cons, IHn. by destruct (decide _).
Qed.

Lemma expand_filter now es :
  expand (filter (fun e => ev_level e <= now)%N es) = filter (fun n => n <= now)%N (expand es).
Proof.
  induction es as [|e es IH]; [done|].
  rewrite filter_cons, expand_cons, filter_app, <- IH, filter_replicate.
  destruct (decide _); [by rewrite expand_cons | done].
Qed.

Lemma expand_pop now now' es :
  stack_ok ev_level now es ->
  expand (pop_above ev_level now' es) = filter (fun n => n <= now')%N (expand es).
Proof.
  intros [Hs _]. destruct (pop_above_filter ev_level now' es Hs) as [-> _]. apply expand_filter.
Qed.

(** ** Histories *)

(** The operations the lines of a trace perform on the state. *)
Inductive event :=
| EPush
| EPop (n : N)
| ERegister (q : QuantifierId) (name : string)
| EMatch (q : QuantifierId)
| ETrigger (q : QuantifierId) (t : TermId)
| ETheory (t : TheoryKind)
| EDiscover (t : TheoryKind)
| EInstance
| ELabel (l : string)
| ETerm (t : TermId) (d : Term).

Definition apply_event (e : event) (s : State) : outcome Error State :=
  match e with
  | EPush => push_scope s
  | EPop n => pop_scopes n s
  | ERegister q name => Ok (register_quantifier q name s)
  | EMatch q => register_matched_quantifier q s
  | ETrigger q t => register_matched_trigger_term q t s
  | ETheory t => Ok (register_theory t s)
  | EDiscover t => register_inst_discovered t s
  | EInstance => Ok (register_instance s)
  | ELabel l => Ok (register_label l s)
  | ETerm t d => Ok (set_terms (<[t := d]> (terms s)) s)
  end.

Fixpoint run (evs : list event) (s : State) : outcome Error State :=
  match evs with
  | [] => Ok s
  | e :: evs => s ← apply_event e s; run evs s
  end.

(** *** The reference

    For one kind of countable event, selected by [hit], the levels of the
    events still active, how many there were, and the largest number that was
    active at once; a [reset] forgets them. *)
Record Count := { now : N; active : list N; total : nat; peak : nat }.

Definition count_step (hit reset : event -> bool) (r : Count) (e : event) : Count :=
  if hit e then
    {| now := now r; active := active r ++ [now r]; total := S (total r);
       peak := peak r `max` S (length (active r)) |}
  else if reset e then {| now := now r; active := []; total := 0; peak := 0 |}
  else match e with
       | EPush => {| now := now r + 1; active := active r; total := total r; peak := peak r |}
       | EPop n => {| now := now r - n; active := filter (fun l => l <= now r - n)%N (active r);
                      total := total r; peak := peak r |}
       | _ => r
       end%N.

Definition count (hit reset : event -> bool) (evs : list event) : Count :=
  foldl (count_step hit reset) {| now := 0; active := []; total := 0; peak := 0 |} evs.

Definition matches (q : QuantifierId) (e : event) : bool :=
  match e with EMatch q' => (q' =? q)%N | _ => false end.
Definition triggers (q : QuantifierId) (e : event) : bool :=
  match e with ETrigger q' _ => (q' =? q)%N | _ => false end.
Definition registers (q : QuantifierId) (e : event) : bool :=
  match e with ERegister q' _ => (q' =? q)%N | _ => false end.
Definition discovers (t : TheoryKind) (e : event) : bool :=
  match e with EDiscover t' => bool_decide (t' = t) | _ => false end.
Definition theory_registers (t : TheoryKind) (e : event) : bool :=
  match e with ETheory t' => bool_decide (t' = t) | _ => false end.
Definition instances (e : event) : bool := match e with EInstance => true | _ => false end.
Definition never (e : event) : bool := false.

Definition match_count q := count (matches q) (registers q).
Definition trigger_count q := count (triggers q) (registers q).
Definition theory_count t := count (discovers t) (theory_registers t).
Definition instance_count := count instances never.

(** *** What the state keeps of a count *)

(** Stack [L] of levels, recorded maximum [m] (up to date after a pop), total
    [t] when the state keeps one. *)
Definition tracks (L : list N) (m : nat) (t : option nat) (r : Count) : Prop :=
  L = active r /\ m `max` length L = peak r /\ (forall t', t = Some t' -> t' = total r).

Definition opt_tracks (L : option (list N)) (m t : option nat) (r : Count) : Prop :=
  match L with
  | Some L => exists m', m = Some m' /\ tracks L m' t r
  | None => True
  end.

Lemma tracks_hit hit reset e L m t r :
  hit e = true -> tracks L m t r -> tracks (L ++ [now r]) m (S <$> t) (count_step hit reset r e).
Proof.
  unfold tracks, count_step. intros -> (-> & Hm & Ht). simpl. rewrite length_app. simpl.
  split; [done|]. split; [lia|]. intros t' [t0 [-> ->]]%fmap_Some. f_equal. by apply Ht.
Qed.

Lemma tracks_reset hit reset e r :
  hit e = false -> reset e = true -> tracks [] 0 (Some 0) (count_step hit reset r e).
Proof. unfold tracks, count_step. intros -> ->. simpl. naive_solver. Qed.

Lemma tracks_pop hit reset n L m t r :
  hit (EPop n) = false -> reset (EPop n) = false -> tracks L m t r ->
  tracks (filter (fun l => l <= now r - n)%N L) (m `max` length L) t
    (count_step hit reset r (EPop n)).
Proof.
  unfold tracks, count_step. intros -> -> (-> & Hm & Ht). simpl. split; [done|]. split; [|done].
  pose proof (length_filter (fun l => l <= now r - n)%N (active r)). lia.
Qed.

Lemma tracks_other hit reset e L m t r :
  hit e = false -> reset e = false -> (forall n, e <> EPop n) ->
  tracks L m t r -> tracks L m t (count_step hit reset r e).
Proof. unfold tracks, count_step. intros -> -> Hn. destruct e; try done. by destruct (Hn n). Qed.

Lemma count_step_now hit reset r e :
  (forall n, hit (EPop n) = false /\ reset (EPop n) = false) ->
  hit EPush = false -> reset EPush = false ->
  now (count_step hit reset r e) = match e with
    | EPush => now r + 1 | EPop n => now r - n | _ => now r end%N.
Proof.
  intros Hp Hh Hr. unfold count_step.
  destruct e as [|n| | | | | | | |]; [by rewrite Hh, Hr | by destruct (Hp n) as [-> ->] | ..];
    by repeat case_match.
Qed.

Lemma count_snoc hit reset evs e :
  count hit reset (evs ++ [e]) = count_step hit reset (count hit reset evs) e.
Proof. unfold count. by rewrite foldl_app. Qed.

(** ** Invariant of runs *)
Definition count_stacks_ok {K} `{Countable K} (now : N) (m : gmap K (list CountEvent)) : Prop :=
  map_Forall (fun _ es => stack_ok ev_level now es) m.

Record wf (s : State) : Prop := {
  wf_matched : count_stacks_ok (current_active_scopes_count s) (quantifiers_matched_events s);
  wf_discovered :
    count_stacks_ok (current_active_scopes_count s) (quantifiers_inst_disovered_events s);
  wf_instances : stack_ok ev_level (current_active_scopes_count s) (quantifiers_instance_events s);
  wf_triggers : map_Forall (fun _ es => stack_ok tu_level (current_active_scopes_count s) es)
                  (term_used_in_trigger_events s);
  wf_trace : stack_ok bb_level (current_active_scopes_count s) (trace s);
  wf_dom_total : dom (total_quantifiers_matched_counters s) = dom (quantifiers s);
  wf_dom_matched : dom (quantifiers_matched_events s) = dom (quantifiers s);
  wf_dom_max : dom (max_quantifier_matched_event_counters s) = dom (quantifiers s);
  wf_dom_unique : dom (unique_quantifier_triggers s) = dom (quantifiers s);
  wf_dom_triggers : dom (term_used_in_trigger_events s) = dom (quantifiers s);
  wf_dom_max_triggers : dom (max_term_used_in_trigger_event_counters s) = dom (quantifiers s);
  wf_dom_theory_total : dom (total_quantifiers_inst_disovered_counters s)
                        = dom (quantifiers_inst_disovered_events s);
  wf_dom_theory_max : dom (max_quantifier_inst_discovered_event_counters s)
                      = dom (quantifiers_inst_disovered_events s);
  wf_level : (current_active_scopes_count s <= u32_max)%N;
}.

Lemma expect_key_Ok {E K A} `{Countable K} (k : K) (m : gmap K A) a :
  @expect_key E K A _ _ k m = Ok a <-> m !! k = Some a.
Proof. unfold expect_key. destruct (m !! k); simpl; split; congruence. Qed.

Lemma update_peaks_Ok {E K A} `{Countable K} (size : A -> nat) (events : gmap K A) peaks peaks' :
  @update_peaks E K A _ _ size events peaks = Ok peaks' ->
  dom peaks' = dom peaks /\
  (forall k p es, peaks !! k = Some p -> events !! k = Some es ->
     peaks' !! k = Some (p `max` size es)).
Proof.
  unfold update_peaks. case_bool_decide; [|done]. intros [= <-]. split.
  - apply set_eq. intros k. rewrite !elem_of_dom, map_lookup_imap.
    destruct (peaks !! k); simpl; [by split|done].
  - intros k p es Hp Hes. rewrite map_lookup_imap, Hp. simpl. by rewrite Hes.
Qed.

Lemma update_peaks_total {E K A} `{Countable K} (size : A -> nat) (events : gmap K A) peaks :
  dom events ⊆ dom peaks -> exists peaks', @update_peaks E K A _ _ size events peaks = Ok peaks'.
Proof. intros Hd. unfold update_peaks. rewrite bool_decide_true by done. eauto. Qed.

(** What a pop does to each field. *)
Record popped (n : N) (s s' : State) : Prop := {
  pp_count : (n <= current_active_scopes_count s)%N;
  pp_now : current_active_scopes_count s' = (current_active_scopes_count s - n)%N;
  pp_quantifiers : quantifiers s' = quantifiers s;
  pp_terms : terms s' = terms s;
  pp_matched : quantifiers_matched_events s'
    = pop_above ev_level (current_active_scopes_count s - n) <$> quantifiers_matched_events s;
  pp_discovered : quantifiers_inst_disovered_events s'
    = pop_above ev_level (current_active_scopes_count s - n)
        <$> quantifiers_inst_disovered_events s;
  pp_triggers : term_used_in_trigger_events s'
    = pop_above tu_level (current_active_scopes_count s - n) <$> term_used_in_trigger_events s;
  pp_instances : quantifiers_instance_events s'
    = pop_above ev_level (current_active_scopes_count s - n) (quantifiers_instance_events s);
  pp_trace : trace s' = pop_above bb_level (current_active_scopes_count s - n) (trace s);
  pp_total : total_quantifiers_matched_counters s' = total_quantifiers_matched_counters s;
  pp_theory_total : total_quantifiers_inst_disovered_counters s'
    = total_quantifiers_inst_disovered_counters s;
  pp_instance_total : total_quantifiers_instance_counters s'
    = total_quantifiers_instance_counters s;
  pp_unique : unique_quantifier_triggers s' = unique_quantifier_triggers s;
  pp_multi : multi_term_quantifiers s' = multi_term_quantifiers s;
  pp_max : @update_peaks Error _ _ _ _ sum_counters (quantifiers_matched_events s)
             (max_quantifier_matched_event_counters s)
           = Ok (max_quantifier_matched_event_counters s');
  pp_theory_max : @update_peaks Error _ _ _ _ sum_counters (quantifiers_inst_disovered_events s)
             (max_quantifier_inst_discovered_event_counters s)
           = Ok (max_quantifier_inst_discovered_event_counters s');
  pp_max_triggers : @update_peaks Error _ _ _ _ length (term_used_in_trigger_events s)
             (max_term_used_in_trigger_event_counters s)
           = Ok (max_term_used_in_trigger_event_counters s');
  pp_max_instances : max_quantifier_instance_event_counters s'
    = max_quantifier_instance_event_counters s `max` sum_counters (quantifiers_instance_events s);
  pp_traced : traced_quantifier s' = traced_quantifier s
              /\ traced_quantifier_triggers s' = traced_quantifier_triggers s;
}.

Lemma pop_scopes_popped n s s' : pop_scopes (E:=Error) n s = Ok s' -> popped n s s'.
Proof.
  unfold pop_scopes. destruct (N.ltb_spec (current_active_scopes_count s) n); [done|].
  intros Hp. inv_outcome. simpl in *.
  match goal with H : (if ?b then _ else _) = _ |- _ => destruct b end; simplify_eq/=;
    constructor; simpl; done.
Qed.

Lemma pop_scopes_total n s :
  wf s -> (n <= current_active_scopes_count s)%N -> exists s', pop_scopes (E:=Error) n s = Ok s'.
Proof.
  intros Hwf Hn. unfold pop_scopes.
  destruct (N.ltb_spec (current_active_scopes_count s) n); [lia|].
  destruct (update_peaks_total (E:=Error) length (term_used_in_trigger_events s)
    (max_term_used_in_trigger_event_counters s)) as [p1 Hp1].
  { by rewrite (wf_dom_triggers _ Hwf), (wf_dom_max_triggers _ Hwf). }
  destruct (update_peaks_total (E:=Error) sum_counters (quantifiers_inst_disovered_events s)
    (max_quantifier_inst_discovered_event_counters s)) as [p2 Hp2].
  { by rewrite (wf_dom_theory_max _ Hwf). }
  destruct (update_peaks_total (E:=Error) sum_counters (quantifiers_matched_events s)
    (max_quantifier_matched_event_counters s)) as [p3 Hp3].
  { by rewrite (wf_dom_matched _ Hwf), (wf_dom_max _ Hwf). }
  simpl. rewrite Hp1. simpl. rewrite Hp2. simpl. rewrite Hp3. simpl.
  destruct (_ <? _); eauto.
Qed.

Lemma count_stacks_pop {K} `{Countable K} now now' (m : gmap K (list CountEvent)) :
  count_stacks_ok now m -> count_stacks_ok now' (pop_above ev_level now' <$> m).
Proof.
  intros Hm k es (es0 & <- & He)%lookup_fmap_Some. eapply stack_ok_pop. by apply (Hm k).
Qed.

Lemma wf_pop n s s' : wf s -> pop_scopes (E:=Error) n s = Ok s' -> wf s'.
Proof.
  intros Hwf Hp%pop_scopes_popped. destruct Hp. destruct Hwf.
  apply update_peaks_Ok in pp_max0 as [Hd1 _]. apply update_peaks_Ok in pp_theory_max0 as [Hd2 _].
  apply update_peaks_Ok in pp_max_triggers0 as [Hd3 _].
  constructor; rewrite ?pp_now0, ?pp_matched0, ?pp_discovered0, ?pp_triggers0, ?pp_instances0,
    ?pp_trace0, ?pp_total0, ?pp_quantifiers0, ?pp_unique0, ?pp_theory_total0, ?dom_fmap_L;
    try congruence; try (by eapply count_stacks_pop); try (by eapply stack_ok_pop).
  - intros k es (es0 & <- & He)%lookup_fmap_Some. eapply stack_ok_pop. by apply (wf_triggers0 k).
  - lia.
Qed.

Lemma wf_push s s' : wf s -> push_scope (E:=Error) s = Ok s' -> wf s'.
Proof.
  unfold push_scope. intros Hwf Hp.
  destruct (N.eqb_spec (current_active_scopes_count s) u32_max); [done|]. injection Hp as <-.
  destruct Hwf. constructor; simpl; try done.
  - intros k es He. eapply stack_ok_mono; [by apply (wf_matched0 k) | lia].
  - intros k es He. eapply stack_ok_mono; [by apply (wf_discovered0 k) | lia].
  - eapply stack_ok_mono; [done | lia].
  - intros k es He. eapply stack_ok_mono; [by apply (wf_triggers0 k) | lia].
  - eapply stack_ok_mono; [done | lia].
  - lia.
Qed.

Lemma stack_ok_nil {A} (level : A -> N) now : stack_ok level now [].
Proof. split; constructor. Qed.

Lemma wf_register_quantifier q name s : wf s -> wf (register_quantifier q name s).
Proof.
  intros []. unfold register_quantifier. constructor; simpl; rewrite ?dom_insert_L; try done;
    try congruence; apply map_Forall_insert_2; try done; apply stack_ok_nil.
Qed.

Lemma wf_register_theory t s : wf s -> wf (register_theory t s).
Proof.
  intros []. unfold register_theory. constructor; simpl; rewrite ?dom_insert_L; try done;
    try congruence; apply map_Forall_insert_2; try done; apply stack_ok_nil.
Qed.

Lemma wf_match q s s' : wf s -> register_matched_quantifier (E:=Error) q s = Ok s' -> wf s'.
Proof.
  unfold register_matched_quantifier. intros Hwf Hm. inv_outcome.
  repeat match goal with H : expect_key _ _ = _ |- _ => apply expect_key_Ok in H end.
  destruct Hwf. constructor; simpl in *;
    rewrite ?dom_insert_lookup_L by eauto; try done.
  apply map_Forall_insert_2; [|done]. apply bump_ok. by apply (wf_matched0 q).
Qed.

Lemma wf_discover t s s' : wf s -> register_inst_discovered (E:=Error) t s = Ok s' -> wf s'.
Proof.
  unfold register_inst_discovered. intros Hwf Hm. inv_outcome.
  repeat match goal with H : expect_key _ _ = _ |- _ => apply expect_key_Ok in H end.
  destruct Hwf. constructor; simpl in *;
    rewrite ?dom_insert_lookup_L by eauto; try done.
  apply map_Forall_insert_2; [|done]. apply bump_ok. by apply (wf_discovered0 t).
Qed.

Lemma trace_trigger_fields q t s s' :
  trace_quantifier_trigger (E:=Error) q t s = Ok s' ->
  exists b, s' = set_traced_quantifier_triggers b s.
Proof.
  unfold trace_quantifier_trigger. destruct (traced_quantifier s) as [tr|] eqn:Htr.
  - intros Hp. inv_outcome. destruct (_ && _); inv_outcome; [eauto|].
    exists (traced_quantifier_triggers s'). by destruct s'.
  - intros [= <-]. exists (traced_quantifier_triggers s). by destruct s.
Qed.

Lemma wf_set_unique q t unique s :
  wf s -> unique_quantifier_triggers s !! q = Some unique ->
  wf (set_unique_quantifier_triggers (<[q := {[t]} ∪ unique]> (unique_quantifier_triggers s)) s).
Proof.
  intros [] Hq. constructor; simpl; try assumption. by rewrite dom_insert_lookup_L.
Qed.

Lemma wf_push_trigger q e events s :
  wf s -> term_used_in_trigger_events s !! q = Some events ->
  tu_level e = current_active_scopes_count s ->
  wf (set_term_used_in_trigger_events
        (<[q := events ++ [e]]> (term_used_in_trigger_events s)) s).
Proof.
  intros [] Hq He. constructor; simpl; try assumption.
  - apply map_Forall_insert_2; [|done]. apply stack_ok_push; [by apply (wf_triggers0 q) | done].
  - by rewrite dom_insert_lookup_L.
Qed.

Lemma wf_set_other s :
  wf s -> (forall b, wf (set_traced_quantifier_triggers b s)) /\
          (forall m, wf (set_multi_term_quantifiers m s)) /\ (forall t, wf (set_terms t s)).
Proof. intros []. split_and!; intros; constructor; simpl; assumption. Qed.

Lemma wf_trigger q t s s' :
  wf s -> register_matched_trigger_term (E:=Error) q t s = Ok s' -> wf s'.
Proof.
  unfold register_matched_trigger_term. intros Hwf Hm.
  apply bind_Ok_inv in Hm as (s1 & [b ->]%trace_trigger_fields & Hm).
  pose proof (proj1 (wf_set_other s Hwf) b) as Hwf1. clear Hwf.
  apply bind_Ok_inv in Hm as (unique & Hu%expect_key_Ok & Hm).
  apply bind_Ok_inv in Hm as (events & He%expect_key_Ok & Hm).
  pose proof (wf_set_unique q t unique _ Hwf1 Hu) as Hwf2.
  pose (e := {| tu_level := current_active_scopes_count s; tu_term_id := t |}).
  destruct (existsb _ _); injection Hm as <-.
  - pose proof (proj1 (proj2 (wf_set_other _ Hwf2))
      (<[q := default [] (multi_term_quantifiers s !! q) ++ [t]]> (multi_term_quantifiers s)))
      as Hwf3.
    exact (wf_push_trigger q e events _ Hwf3 He eq_refl).
  - exact (wf_push_trigger q e events _ Hwf2 He eq_refl).
Qed.

Lemma wf_register_instance s : wf s -> wf (register_instance s).
Proof. intros []. constructor; simpl; try assumption. by apply bump_ok. Qed.

Lemma wf_register_label l s : wf s -> wf (register_label l s).
Proof. intros []. constructor; simpl; try assumption. by apply stack_ok_push. Qed.

Lemma wf_event e s s' : wf s -> apply_event e s = Ok s' -> wf s'.
Proof.
  intros Hwf He. destruct e; cbn [apply_event] in He;
    try (injection He as <-).
  - by eapply wf_push.
  - by eapply wf_pop.
  - by apply wf_register_quantifier.
  - by eapply wf_match.
  - by eapply wf_trigger.
  - by apply wf_register_theory.
  - by eapply wf_discover.
  - by apply wf_register_instance.
  - by apply wf_register_label.
  - by apply (wf_set_other s Hwf).
Qed.

Lemma wf_default : wf State_default.
Proof. constructor; try done; try apply stack_ok_nil; simpl; lia. Qed.
