(* ===== verification/SmtCount.v ===== *)
(** * Counters of the SMT log analyzer

    The state keeps, for matches, trigger terms, theory discoveries and
    instances, a stack of events, a total and a maximum that is only brought up
    to date when scopes are popped. They are shown to follow a reference that
    is computed from the history of events alone. *)
From S2P Require Import Prelude SmtParser SmtState SmtLog SmtSound.

(** ** Views of one counter *)

Record view := { v_levels : option (list N); v_max : option nat; v_total : option nat }.

Definition match_view (q : QuantifierId) (s : State) : view :=
  {| v_levels := expand <$> quantifiers_matched_events s !! q;
     v_max := max_quantifier_matched_event_counters s !! q;
     v_total := total_quantifiers_matched_counters s !! q |}.
Definition trigger_view (q : QuantifierId) (s : State) : view :=
  {| v_levels := (fun es : list _ => tu_level <$> es) <$> term_used_in_trigger_events s !! q;
     v_max := max_term_used_in_trigger_event_counters s !! q;
     v_total := None |}.
Definition theory_view (t : TheoryKind) (s : State) : view :=
  {| v_levels := expand <$> quantifiers_inst_disovered_events s !! t;
     v_max := max_quantifier_inst_discovered_event_counters s !! t;
     v_total := total_quantifiers_inst_disovered_counters s !! t |}.
Definition instance_view (s : State) : view :=
  {| v_levels := Some (expand (quantifiers_instance_events s));
     v_max := Some (max_quantifier_instance_event_counters s);
     v_total := Some (total_quantifiers_instance_counters s) |}.

(** What an event at level [n] does to a counter; [t0] is the total of a reset
    counter. *)
Definition view_next (t0 : option nat) (hit reset : event -> bool) (n : N) (e : event)
    (v : view) : view :=
  if hit e then
    {| v_levels := (fun L => L ++ [n]) <$> v_levels v; v_max := v_max v;
       v_total := S <$> v_total v |}
  else if reset e then {| v_levels := Some []; v_max := Some 0; v_total := t0 |}
  else match e with
       | EPop k =>
           {| v_levels := filter (fun l => l <= n - k)%N <$> v_levels v;
              v_max := (fun m => m `max` from_option length 0 (v_levels v)) <$> v_max v;
              v_total := v_total v |}
       | _ => v
       end.

Definition view_tracks (v : view) (r : Count) : Prop :=
  opt_tracks (v_levels v) (v_max v) (v_total v) r.

(** Scoping events are not counted. *)
Class Counted (hit reset : event -> bool) : Prop := {
  counted_pop n : hit (EPop n) = false /\ reset (EPop n) = false;
  counted_push : hit EPush = false /\ reset EPush = false;
}.
#[export] Instance match_counted q : Counted (matches q) (registers q).
Proof. done. Qed.
#[export] Instance trigger_counted q : Counted (triggers q) (registers q).
Proof. done. Qed.
#[export] Instance theory_counted t : Counted (discovers t) (theory_registers t).
Proof. done. Qed.
#[export] Instance instance_counted : Counted instances never.
Proof. done. Qed.

Lemma view_next_tracks t0 hit reset e v r `{Counted hit reset} :
  t0 = None \/ t0 = Some 0 -> view_tracks v r ->
  view_tracks (view_next t0 hit reset (now r) e v) (count_step hit reset r e).
Proof.
  intros Ht0 Hv. unfold view_tracks, view_next, opt_tracks in *. destruct v as [L m t]; simpl in *.
  destruct (hit e) eqn:Hh; [|destruct (reset e) eqn:Hr].
  - destruct L as [L|]; [|done]. destruct Hv as (m' & -> & Hv). simpl. eexists; split; [done|].
    by apply tracks_hit.
  - simpl. eexists; split; [done|].
    pose proof (tracks_reset hit reset e r Hh Hr) as Ht. unfold tracks in *. naive_solver.
  - assert ((exists n, e = EPop n) \/ forall n, e <> EPop n) as [[n ->]|Hn]
      by (destruct e; eauto).
    + simpl. destruct L as [L|]; [|done]. destruct Hv as (m' & -> & Hv). simpl.
      eexists; split; [done|]. by apply tracks_pop.
    + replace (match e with EPop _ => _ | _ => _ end) with {| v_levels := L; v_max := m; v_total := t |}
        by (destruct e; [..|done|done|done|done|done|done|done|done]; [done|by destruct (Hn n)]).
      simpl. destruct L as [L|]; [|done]. destruct Hv as (m' & -> & Hv).
      eexists; split; [done|]. by apply tracks_other.
Qed.

(** ** Steps of the views *)

Lemma update_peaks_lookup {E K A} `{Countable K} (size : A -> nat) (events : gmap K A)
    peaks peaks' k :
  @update_peaks E K A _ _ size events peaks = Ok peaks' ->
  peaks' !! k = (fun p => p `max` from_option size 0 (events !! k)) <$> peaks !! k.
Proof.
  unfold update_peaks. case_bool_decide; [|done]. intros [= <-]. rewrite map_lookup_imap.
  destruct (peaks !! k); simpl; [|done]. f_equal. destruct (events !! k); simpl; lia.
Qed.

Lemma levels_pop now now' es :
  stack_ok tu_level now es ->
  tu_level <$> pop_above tu_level now' es = filter (fun n => n <= now')%N (tu_level <$> es).
Proof.
  intros [Hs _]. destruct (pop_above_filter tu_level now' es Hs) as [-> _].
  induction es as [|e es IH]; [done|]. inversion Hs; subst.
  rewrite filter_cons, fmap_cons, filter_cons. repeat destruct (decide _); try done;
    rewrite ?fmap_cons; by rewrite IH.
Qed.

Ltac other_event := unfold view_next; simpl; f_equal; done.

Lemma match_view_pop q n s s' :
  wf s -> pop_scopes (E:=Error) n s = Ok s' ->
  match_view q s' = view_next (Some 0) (matches q) (registers q) (current_active_scopes_count s)
                      (EPop n) (match_view q s).
Proof.
  intros Hwf Hp%pop_scopes_popped. unfold match_view, view_next. simpl.
  rewrite (pp_matched _ _ _ Hp), (pp_total _ _ _ Hp), lookup_fmap.
  rewrite (update_peaks_lookup _ _ _ _ q (pp_max _ _ _ Hp)). f_equal.
  - destruct (quantifiers_matched_events s !! q) as [es|] eqn:Hes; simpl; [|done]. f_equal.
    eapply expand_pop. by apply (wf_matched s Hwf q).
  - destruct (max_quantifier_matched_event_counters s !! q); simpl; [|done]. f_equal.
    destruct (quantifiers_matched_events s !! q); simpl; [|done]. by rewrite sum_counters_expand.
Qed.

Lemma theory_view_pop t n s s' :
  wf s -> pop_scopes (E:=Error) n s = Ok s' ->
  theory_view t s' = view_next (Some 0) (discovers t) (theory_registers t)
                       (current_active_scopes_count s) (EPop n) (theory_view t s).
Proof.
  intros Hwf Hp%pop_scopes_popped. unfold theory_view, view_next. simpl.
  rewrite (pp_discovered _ _ _ Hp), (pp_theory_total _ _ _ Hp), lookup_fmap.
  rewrite (update_peaks_lookup _ _ _ _ t (pp_theory_max _ _ _ Hp)). f_equal.
  - destruct (quantifiers_inst_disovered_events s !! t) as [es|] eqn:Hes; simpl; [|done]. f_equal.
    eapply expand_pop. by apply (wf_discovered s Hwf t).
  - destruct (max_quantifier_inst_discovered_event_counters s !! t); simpl; [|done]. f_equal.
    destruct (quantifiers_inst_disovered_events s !! t); simpl; [|done].
    by rewrite sum_counters_expand.
Qed.

Lemma trigger_view_pop q n s s' :
  wf s -> pop_scopes (E:=Error) n s = Ok s' ->
  trigger_view q s' = view_next None (triggers q) (registers q) (current_active_scopes_count s)
                        (EPop n) (trigger_view q s).
Proof.
  intros Hwf Hp%pop_scopes_popped. unfold trigger_view, view_next. simpl.
  rewrite (pp_triggers _ _ _ Hp), lookup_fmap.
  rewrite (update_peaks_lookup _ _ _ _ q (pp_max_triggers _ _ _ Hp)). f_equal.
  - destruct (term_used_in_trigger_events s !! q) as [es|] eqn:Hes; simpl; [|done]. f_equal.
    eapply levels_pop. by apply (wf_triggers s Hwf q).
  - destruct (max_term_used_in_trigger_event_counters s !! q); simpl; [|done]. f_equal.
    destruct (term_used_in_trigger_events s !! q); simpl; [|done]. by rewrite length_fmap.
Qed.

Lemma instance_view_pop n s s' :
  wf s -> pop_scopes (E:=Error) n s = Ok s' ->
  instance_view s' = view_next (Some 0) instances never (current_active_scopes_count s)
                        (EPop n) (instance_view s).
Proof.
  intros Hwf Hp%pop_scopes_popped. unfold instance_view, view_next. simpl.
  rewrite (pp_instances _ _ _ Hp), (pp_instance_total _ _ _ Hp), (pp_max_instances _ _ _ Hp).
  rewrite sum_counters_expand. f_equal. f_equal. eapply expand_pop. apply (wf_instances s Hwf).
Qed.

(** What a matched trigger term changes. *)
Lemma matched_trigger_fields q t s s' :
  register_matched_trigger_term (E:=Error) q t s = Ok s' ->
  (exists es, term_used_in_trigger_events s !! q = Some es /\
     term_used_in_trigger_events s'
     = <[q := es ++ [{| tu_level := current_active_scopes_count s; tu_term_id := t |}]]>
         (term_used_in_trigger_events s)) /\
  (exists ts, unique_quantifier_triggers s !! q = Some ts /\
     unique_quantifier_triggers s' = <[q := {[t]} ∪ ts]> (unique_quantifier_triggers s)) /\
  max_term_used_in_trigger_event_counters s' = max_term_used_in_trigger_event_counters s /\
  current_active_scopes_count s' = current_active_scopes_count s /\
  (forall q', match_view q' s' = match_view q' s) /\
  (forall t', theory_view t' s' = theory_view t' s) /\
  instance_view s' = instance_view s /\ quantifiers s' = quantifiers s.
Proof.
  unfold register_matched_trigger_term. intros Hm.
  apply bind_Ok_inv in Hm as (s1 & [b ->]%trace_trigger_fields & Hm).
  apply bind_Ok_inv in Hm as (unique & Hu%expect_key_Ok & Hm).
  apply bind_Ok_inv in Hm as (events & He%expect_key_Ok & Hm).
  destruct (existsb _ _); injection Hm as <-; split_and!; eauto.
Qed.

Lemma matched_fields q s s' :
  register_matched_quantifier (E:=Error) q s = Ok s' ->
  exists total es, total_quantifiers_matched_counters s !! q = Some total /\
    quantifiers_matched_events s !! q = Some es /\
    s' = set_quantifiers_matched_events
           (<[q := bump (current_active_scopes_count s) es]> (quantifiers_matched_events s))
           (set_total_quantifiers_matched_counters
              (<[q := S total]> (total_quantifiers_matched_counters s)) s).
Proof.
  unfold register_matched_quantifier. intros Hm.
  apply bind_Ok_inv in Hm as (total & Ht%expect_key_Ok & Hm).
  apply bind_Ok_inv in Hm as (es & He%expect_key_Ok & Hm). injection Hm as <-. eauto.
Qed.

Lemma discovered_fields t s s' :
  register_inst_discovered (E:=Error) t s = Ok s' ->
  exists total es, total_quantifiers_inst_disovered_counters s !! t = Some total /\
    quantifiers_inst_disovered_events s !! t = Some es /\
    s' = set_quantifiers_inst_disovered_events
           (<[t := bump (current_active_scopes_count s) es]> (quantifiers_inst_disovered_events s))
           (set_total_quantifiers_inst_disovered_counters
              (<[t := S total]> (total_quantifiers_inst_disovered_counters s)) s).
Proof.
  unfold register_inst_discovered. intros Hm.
  apply bind_Ok_inv in Hm as (total & Ht%expect_key_Ok & Hm).
  apply bind_Ok_inv in Hm as (es & He%expect_key_Ok & Hm). injection Hm as <-. eauto.
Qed.

Lemma push_fields s s' :
  push_scope (E:=Error) s = Ok s' ->
  s' = set_current_active_scopes_count (current_active_scopes_count s + 1)%N s.
Proof. unfold push_scope. destruct (_ =? _)%N; [done|]. by intros [= <-]. Qed.

Lemma match_view_step q e s s' :
  wf s -> apply_event e s = Ok s' ->
  match_view q s' = view_next (Some 0) (matches q) (registers q) (current_active_scopes_count s)
                      e (match_view q s).
Proof.
  intros Hwf He.
  destruct e as [|n|q' name|q'|q' t|t|t| |l|t d]; cbn [apply_event] in He; try (injection He as <-);
    [by apply push_fields in He as ->
    | by apply match_view_pop
    | | | | done | | done | done | done].
  - unfold match_view, view_next. simpl. destruct (N.eqb_spec q' q) as [->|Hq]; simpl.
    + by rewrite !lookup_insert_eq.
    + by rewrite !lookup_insert_ne.
  - apply matched_fields in He as (total & es & Ht & He & ->).
    unfold match_view, view_next. simpl. destruct (N.eqb_spec q' q) as [->|Hq]; simpl.
    + rewrite !lookup_insert_eq, He, Ht. simpl. by rewrite expand_bump.
    + by rewrite !lookup_insert_ne.
  - apply matched_trigger_fields in He as (_ & _ & _ & _ & Hv & _). rewrite Hv. done.
  - by apply discovered_fields in He as (total & es & _ & _ & ->).
Qed.

Lemma trigger_view_step q e s s' :
  wf s -> apply_event e s = Ok s' ->
  trigger_view q s' = view_next None (triggers q) (registers q) (current_active_scopes_count s)
                      e (trigger_view q s).
Proof.
  intros Hwf He.
  destruct e as [|n|q' name|q'|q' t|t|t| |l|t d]; cbn [apply_event] in He; try (injection He as <-);
    [by apply push_fields in He as ->
    | by apply trigger_view_pop
    | | | | done | | done | done | done].
  - unfold trigger_view, view_next. simpl. destruct (N.eqb_spec q' q) as [->|Hq]; simpl.
    + by rewrite !lookup_insert_eq.
    + by rewrite !lookup_insert_ne.
  - by apply matched_fields in He as (total & es & _ & _ & ->).
  - apply matched_trigger_fields in He as ((es & He & Hes) & _ & Hm & _).
    unfold trigger_view, view_next. simpl. rewrite Hes, Hm.
    destruct (N.eqb_spec q' q) as [->|Hq]; simpl.
    + rewrite !lookup_insert_eq, He. simpl. by rewrite fmap_app.
    + by rewrite !lookup_insert_ne.
  - by apply discovered_fields in He as (total & es & _ & _ & ->).
Qed.

Lemma theory_view_step t e s s' :
  wf s -> apply_event e s = Ok s' ->
  theory_view t s' = view_next (Some 0) (discovers t) (theory_registers t)
                       (current_active_scopes_count s) e (theory_view t s).
Proof.
  intros Hwf He.
  destruct e as [|n|q' name|q'|q' u|u|u| |l|u d]; cbn [apply_event] in He; try (injection He as <-);
    [by apply push_fields in He as ->
    | by apply theory_view_pop
    | done | | | | | done | done | done].
  - by apply matched_fields in He as (total & es & _ & _ & ->).
  - apply matched_trigger_fields in He as (_ & _ & _ & _ & _ & Hv & _). rewrite Hv. done.
  - unfold theory_view, view_next. simpl. case_bool_decide as Hq; simpl.
    + subst u. by rewrite !lookup_insert_eq.
    + by rewrite !lookup_insert_ne.
  - apply discovered_fields in He as (total & es & Ht & He & ->).
    unfold theory_view, view_next. simpl. case_bool_decide as Hq; simpl.
    + subst u. rewrite !lookup_insert_eq, He, Ht. simpl. by rewrite expand_bump.
    + by rewrite !lookup_insert_ne.
Qed.

Lemma instance_view_step e s s' :
  wf s -> apply_event e s = Ok s' ->
  instance_view s' = view_next (Some 0) instances never (current_active_scopes_count s)
                       e (instance_view s).
Proof.
  intros Hwf He.
  destruct e as [|n|q' name|q'|q' u|u|u| |l|u d]; cbn [apply_event] in He; try (injection He as <-);
    [by apply push_fields in He as ->
    | by apply instance_view_pop
    | done | | | done | | | done | done].
  - by apply matched_fields in He as (total & es & _ & _ & ->).
  - by apply matched_trigger_fields in He as (_ & _ & _ & _ & _ & _ & -> & _).
  - by apply discovered_fields in He as (total & es & _ & _ & ->).
  - unfold instance_view, view_next. simpl. by rewrite expand_bump.
Qed.

Lemma level_step e s s' :
  apply_event e s = Ok s' ->
  current_active_scopes_count s'
  = match e with EPush => current_active_scopes_count s + 1
    | EPop n => current_active_scopes_count s - n | _ => current_active_scopes_count s end%N.
Proof.
  intros He.
  destruct e as [|n|q' name|q'|q' u|u|u| |l|u d]; cbn [apply_event] in He; try (injection He as <-);
    try done.
  - by apply push_fields in He as ->.
  - apply pop_scopes_popped in He as []. done.
  - by apply matched_fields in He as (total & es & _ & _ & ->).
  - by apply matched_trigger_fields in He as (_ & _ & _ & -> & _).
  - by apply discovered_fields in He as (total & es & _ & _ & ->).
Qed.

(** ** Names and tracing *)

Definition name_step (m : gmap QuantifierId string) (e : event) : gmap QuantifierId string :=
  match e with ERegister q name => <[q := name]> m | _ => m end.
(** The registered quantifiers with their latest names. *)
Definition names (evs : list event) : gmap QuantifierId string := foldl name_step ∅ evs.

Definition trace_ok (s : State) : Prop :=
  traced_quantifier s = None \/ is_Some (traced_quantifier_triggers s).

Lemma trigger_keeps_tracing q t s s' :
  trace_ok s -> register_matched_trigger_term (E:=Error) q t s = Ok s' -> trace_ok s'.
Proof.
  unfold register_matched_trigger_term, trace_quantifier_trigger. intros Ht Hm.
  apply bind_Ok_inv in Hm as (s1 & Hs1 & Hm).
  assert (trace_ok s1) as Ht1.
  { destruct (traced_quantifier s); [|by injection Hs1 as <-].
    apply bind_Ok_inv in Hs1 as (ts & _ & Hs1). destruct (_ && _); [|by injection Hs1 as <-].
    apply bind_Ok_inv in Hs1 as (b & _ & [= <-]). right. by eexists. }
  apply bind_Ok_inv in Hm as (unique & _ & Hm). apply bind_Ok_inv in Hm as (events & _ & Hm).
  destruct (existsb _ _); injection Hm as <-; exact Ht1.
Qed.

Lemma tracing_step e s s' : trace_ok s -> apply_event e s = Ok s' -> trace_ok s'.
Proof.
  intros Ht He.
  destruct e as [|n|q' name|q'|q' u|u|u| |l|u d]; cbn [apply_event] in He; try (injection He as <-);
    try exact Ht.
  - by apply push_fields in He as ->.
  - apply pop_scopes_popped, pp_traced in He as [H1 H2]. unfold trace_ok. by rewrite H1, H2.
  - by apply matched_fields in He as (total & es & _ & _ & ->).
  - by eapply trigger_keeps_tracing.
  - by apply discovered_fields in He as (total & es & _ & _ & ->).
Qed.

Lemma names_step e s s' :
  apply_event e s = Ok s' -> quantifiers s' = name_step (quantifiers s) e.
Proof.
  intros He.
  destruct e as [|n|q' name|q'|q' u|u|u| |l|u d]; cbn [apply_event] in He; try (injection He as <-);
    try done.
  - by apply push_fields in He as ->.
  - by apply pop_scopes_popped, pp_quantifiers in He.
  - by apply matched_fields in He as (total & es & _ & _ & ->).
  - by apply matched_trigger_fields in He as (_ & _ & _ & _ & _ & _ & _ & ->).
  - by apply discovered_fields in He as (total & es & _ & _ & ->).
Qed.

(** ** Keys of the report *)

Record reportable (s : State) : Prop := {
  rp_multi : dom (multi_term_quantifiers s) ⊆ dom (quantifiers s);
  rp_removed : dom (removed_quantifiers (largest_pop s)) ⊆ dom (quantifiers s);
}.

(** What a pop records as the largest one so far. *)
Lemma pop_largest n s s' :
  pop_scopes (E:=Error) n s = Ok s' ->
  let level := (current_active_scopes_count s - n)%N in
  let removed := removed_of level <$> quantifiers_matched_events s in
  let count := map_fold (fun _ k acc => k + acc) 0 removed in
  largest_pop s' =
    if quantifier_matches_removed (largest_pop s) <? count
    then {| quantifier_matches_removed := count; active_scopes_popped := n;
            removed_quantifiers := filter (fun '(_, k) => 0 < k) removed;
            labels := rev (popped_above bb_level level (trace s));
            trace_prefix := pop_above bb_level level (trace s) |}
    else largest_pop s.
Proof.
  unfold pop_scopes. destruct (N.ltb_spec (current_active_scopes_count s) n); [done|].
  intros Hp. inv_outcome. simpl in *.
  match goal with H : (if ?b then _ else _) = _ |- _ => destruct b end; simplify_eq/=; done.
Qed.

Lemma reportable_pop n s s' :
  wf s -> reportable s -> pop_scopes (E:=Error) n s = Ok s' -> reportable s'.
Proof.
  intros Hwf [Hm Hr] Hp. pose proof (pop_largest _ _ _ Hp) as Hl.
  apply pop_scopes_popped in Hp. constructor.
  - by rewrite (pp_multi _ _ _ Hp), (pp_quantifiers _ _ _ Hp).
  - rewrite (pp_quantifiers _ _ _ Hp), Hl. destruct (_ <? _); [|done]. simpl.
    rewrite <- (wf_dom_matched s Hwf). etransitivity; [apply dom_filter_subseteq|].
    by rewrite dom_fmap_L.
Qed.

Lemma reportable_trigger q t s s' :
  wf s -> reportable s -> register_matched_trigger_term (E:=Error) q t s = Ok s' -> reportable s'.
Proof.
  unfold register_matched_trigger_term. intros Hwf [Hmul Hr] Hm.
  apply bind_Ok_inv in Hm as (s1 & [b ->]%trace_trigger_fields & Hm).
  apply bind_Ok_inv in Hm as (unique & Hu%expect_key_Ok & Hm).
  apply bind_Ok_inv in Hm as (events & He%expect_key_Ok & Hm).
  apply elem_of_dom_2 in Hu. simpl in Hu. rewrite (wf_dom_unique s Hwf) in Hu.
  destruct (existsb _ _); injection Hm as <-; constructor; try assumption.
  simpl. rewrite dom_insert_L. set_solver.
Qed.

Lemma reportable_step e s s' : wf s -> reportable s -> apply_event e s = Ok s' -> reportable s'.
Proof.
  intros Hwf Hr He.
  destruct e as [|n|q' name|q'|q' u|u|u| |l|u d]; cbn [apply_event] in He; try (injection He as <-);
    try exact Hr.
  - apply push_fields in He as ->. by destruct Hr.
  - by eapply reportable_pop.
  - destruct Hr. constructor; simpl; rewrite dom_insert_L; set_solver.
  - apply matched_fields in He as (total & es & _ & _ & ->). by destruct Hr.
  - by eapply reportable_trigger.
  - by destruct Hr.
  - apply discovered_fields in He as (total & es & _ & _ & ->). by destruct Hr.
  - by destruct Hr.
  - by destruct Hr.
  - by destruct Hr.
Qed.

(** ** Runs *)

Record tracked (evs : list event) (s : State) : Prop := {
  tr_wf : wf s;
  tr_level : forall hit reset, Counted hit reset ->
    current_active_scopes_count s = now (count hit reset evs);
  tr_match q : view_tracks (match_view q s) (match_count q evs);
  tr_trigger q : view_tracks (trigger_view q s) (trigger_count q evs);
  tr_theory t : view_tracks (theory_view t s) (theory_count t evs);
  tr_instance : view_tracks (instance_view s) (instance_count evs);
  tr_names : quantifiers s = names evs;
  tr_trace : trace_ok s;
  tr_theories t : is_Some (quantifiers_inst_disovered_events s !! t)
                  <-> existsb (theory_registers t) evs = true;
  tr_reportable : reportable s;
}.

Lemma theories_step evs e s s' t :
  wf s -> apply_event e s = Ok s' ->
  (is_Some (quantifiers_inst_disovered_events s !! t)
     <-> existsb (theory_registers t) evs = true) ->
  (is_Some (quantifiers_inst_disovered_events s' !! t)
     <-> existsb (theory_registers t) (evs ++ [e]) = true).
Proof.
  intros Hwf He Ht. pose proof (theory_view_step t e s s' Hwf He) as Hv.
  apply (f_equal v_levels) in Hv. rewrite existsb_app, orb_true_iff, <- Ht. simpl.
  rewrite orb_false_r. clear Ht.
  transitivity (is_Some (v_levels (theory_view t s'))); [simpl; by rewrite fmap_is_Some|].
  rewrite Hv. unfold view_next. destruct e; simpl; try case_bool_decide; simpl;
    rewrite ?fmap_is_Some; naive_solver.
Qed.

Lemma tracked_step evs e s s' :
  tracked evs s -> apply_event e s = Ok s' -> tracked (evs ++ [e]) s'.
Proof.
  intros [Hwf Hl Hm Htr Hth Hi Hn Ht Hd Hr] He. constructor.
  - by eapply wf_event.
  - intros hit reset Hc. rewrite count_snoc, count_step_now, <- (Hl hit reset Hc);
      [by apply level_step | apply Hc..].
  - intros q. unfold match_count. rewrite count_snoc, (match_view_step q e s s' Hwf He).
    rewrite (Hl (matches q) (registers q)) by apply _. apply view_next_tracks; [apply _|auto|apply Hm].
  - intros q. unfold trigger_count. rewrite count_snoc, (trigger_view_step q e s s' Hwf He).
    rewrite (Hl (triggers q) (registers q)) by apply _. apply view_next_tracks; [apply _|auto|apply Htr].
  - intros t. unfold theory_count. rewrite count_snoc, (theory_view_step t e s s' Hwf He).
    rewrite (Hl (discovers t) (theory_registers t)) by apply _.
    apply view_next_tracks; [apply _|auto|apply Hth].
  - unfold instance_count. rewrite count_snoc, (instance_view_step e s s' Hwf He).
    rewrite (Hl instances never) by apply _. apply view_next_tracks; [apply _|auto|apply Hi].
  - unfold names. rewrite foldl_app. simpl. rewrite (names_step e s s' He). by f_equal.
  - by eapply tracing_step.
  - intros t. by eapply theories_step.
  - by eapply reportable_step.
Qed.

Lemma tracked_run evs0 evs s s' :
  tracked evs0 s -> run evs s = Ok s' -> tracked (evs0 ++ evs) s'.
Proof.
  revert evs0 s. induction evs as [|e evs IH]; intros evs0 s Ht Hr.
  - injection Hr as <-. by rewrite app_nil_r.
  - cbn [run] in Hr. apply bind_Ok_inv in Hr as (s1 & He & Hr).
    rewrite cons_middle, app_assoc. eapply IH; [by eapply tracked_step | done].
Qed.

Lemma run_snoc evs e s s' :
  run (evs ++ [e]) s = Ok s' <-> exists s1, run evs s = Ok s1 /\ apply_event e s1 = Ok s'.
Proof.
  revert s. induction evs as [|x evs IH]; intros s; cbn [run app].
  - split.
    + intros (s1 & H1 & [= <-])%bind_Ok_inv. eauto.
    + intros (s1 & [= <-] & ->). done.
  - destruct (apply_event x s); cbn [mbind outcome_bind]; [apply IH|naive_solver..].
Qed.

Lemma tracked_default : tracked [] State_default.
Proof.
  constructor; try done; [apply wf_default| |by left|
    simpl; intros t; split; [by intros [??]|done]].
  unfold view_tracks, opt_tracks, tracks. simpl. naive_solver.
Qed.

(** ** Initial state *)

(** The registrations of [initial_state]. *)
Definition init_events : list event :=
  [ERegister BUILTIN_QUANTIFIER_ID "builtin quantifier";
   ETheory Arith; ETheory Basic; ETheory Datatype; ETheory UserSort].

Lemma mark_tracked evs s q :
  tracked evs s -> traced_quantifier s = None ->
  exists s', mark_quantifier_for_tracing (E:=Error) q s = Ok s' /\ tracked evs s'.
Proof.
  intros [[] Hl Hm Htr Hth Hi Hn Ht Hd []] Hq. unfold mark_quantifier_for_tracing.
  rewrite bool_decide_true by done. cbn [assert_that mbind outcome_bind].
  destruct q as [q|]; eexists; (split; [reflexivity|]).
  - constructor; [constructor; assumption | assumption.. | right; by eexists | assumption
      | by constructor].
  - constructor; [constructor; assumption | assumption.. | by left | assumption
      | by constructor].
Qed.

Lemma tracked_initial settings :
  exists s, initial_state settings = Ok s /\ tracked init_events s.
Proof.
  apply mark_tracked; [|reflexivity].
  exact (tracked_run [] init_events State_default _ tracked_default eq_refl).
Qed.

(** ** Valid histories *)

(** When the state accepts an event, read off the history. *)
Definition valid_event (H : list event) (e : event) : bool :=
  match e with
  | EPush => now (instance_count H) <? u32_max
  | EPop n => n <=? now (instance_count H)
  | EMatch q | ETrigger q _ => bool_decide (is_Some (names H !! q))
  | EDiscover t => existsb (theory_registers t) H
  | _ => true
  end%N.

Fixpoint valid_from (H evs : list event) : bool :=
  match evs with
  | [] => true
  | e :: evs => valid_event H e && valid_from (H ++ [e]) evs
  end.

Definition valid (evs : list event) : bool := valid_from init_events evs.

Lemma wf_is_Some {K A B} `{Countable K} (m : gmap K A) (m' : gmap K B) k :
  dom m = dom m' -> is_Some (m !! k) -> exists a, m' !! k = Some a.
Proof. intros Hd. rewrite <- !elem_of_dom, Hd, elem_of_dom. by intros [a Ha]; exists a. Qed.

Lemma trigger_total q t s :
  wf s -> trace_ok s -> is_Some (quantifiers s !! q) ->
  exists s', register_matched_trigger_term (E:=Error) q t s = Ok s'.
Proof.
  intros Hwf Ht Hq. unfold register_matched_trigger_term, trace_quantifier_trigger.
  destruct (wf_is_Some _ (unique_quantifier_triggers s) q (eq_sym (wf_dom_unique s Hwf)) Hq)
    as [ts Hts].
  destruct (wf_is_Some _ (term_used_in_trigger_events s) q (eq_sym (wf_dom_triggers s Hwf)) Hq)
    as [es Hes].
  assert (exists s1, trace_quantifier_trigger (E:=Error) q t s = Ok s1) as [s1 Hs1].
  { unfold trace_quantifier_trigger, trace_ok in *.
    destruct (traced_quantifier s); [|by eexists]. unfold expect_key. rewrite Hts. simpl.
    destruct Ht as [|[b ->]]; [done|]. destruct (_ && _); by eexists. }
  fold (trace_quantifier_trigger (E:=Error) q t s). rewrite Hs1. simpl.
  apply trace_trigger_fields in Hs1 as [b ->]. unfold expect_key. simpl. rewrite Hts. simpl.
  rewrite Hes. simpl. by eexists.
Qed.

Lemma valid_event_Ok H e s :
  tracked H s -> (exists s', apply_event e s = Ok s') <-> valid_event H e = true.
Proof.
  intros [Hwf Hl _ _ _ _ Hn Ht Hd _]. specialize (Hl instances never _).
  destruct e as [|n|q' name|q|q t|u|u| |l|u d]; cbn [apply_event valid_event];
    try (split; [done|by eexists]); rewrite <- ?Hn.
  - fold (instance_count H) in Hl. rewrite <- Hl, N.ltb_lt. unfold push_scope.
    pose proof (wf_level s Hwf).
    destruct (N.eqb_spec (current_active_scopes_count s) u32_max) as [|].
    + split; [by intros [??] | lia].
    + split; [lia | by eexists].
  - fold (instance_count H) in Hl. rewrite <- Hl, N.leb_le. split.
    + intros [s' []%pop_scopes_popped]. done.
    + by apply pop_scopes_total.
  - rewrite bool_decide_eq_true. split.
    + intros [s' (total & es & _ & He & _)%matched_fields].
      apply (wf_is_Some (quantifiers_matched_events s)); [apply (wf_dom_matched s Hwf)|by eexists].
    + intros Hq. unfold register_matched_quantifier, expect_key.
      destruct (wf_is_Some _ (total_quantifiers_matched_counters s) q
        (eq_sym (wf_dom_total s Hwf)) Hq) as [total ->]. simpl.
      destruct (wf_is_Some _ (quantifiers_matched_events s) q
        (eq_sym (wf_dom_matched s Hwf)) Hq) as [es ->]. by eexists.
  - rewrite bool_decide_eq_true. split.
    + intros [s' ((es & He & _) & _)%matched_trigger_fields].
      apply (wf_is_Some (term_used_in_trigger_events s)); [apply (wf_dom_triggers s Hwf)|by eexists].
    + by apply trigger_total.
  - rewrite <- Hd. split.
    + intros [s' (total & es & _ & He & _)%discovered_fields]. by eexists.
    + intros Hq. unfold register_inst_discovered, expect_key. destruct Hq as [es He].
      destruct (wf_is_Some (quantifiers_inst_disovered_events s)
        (total_quantifiers_inst_disovered_counters s) u
        (eq_sym (wf_dom_theory_total s Hwf)) (ex_intro _ es He)) as [total ->].
      simpl. rewrite He. by eexists.
Qed.

Lemma valid_run H evs s :
  tracked H s ->
  valid_from H evs = true <-> exists s', run evs s = Ok s' /\ tracked (H ++ evs) s'.
Proof.
  revert H s. induction evs as [|e evs IH]; intros H s Ht; simpl.
  - split; [|done]. intros _. exists s. by rewrite app_nil_r.
  - rewrite andb_true_iff, <- (valid_event_Ok H e s Ht). split.
    + intros [[s1 Hs1] Hv]. destruct (proj1 (IH _ s1 (tracked_step _ _ _ _ Ht Hs1)) Hv)
        as (s' & Hr & Ht'). exists s'. by rewrite Hs1, cons_middle, app_assoc.
    + intros (s' & Hr & Ht'). apply bind_Ok_inv in Hr as (s1 & Hs1 & Hr).
      split; [by eexists|]. apply (IH _ s1 (tracked_step _ _ _ _ Ht Hs1)).
      exists s'. by rewrite <- app_assoc.
Qed.

(** ** Reports *)

Lemma elem_of_collect {A B} (f : A -> outcome Error B) l ys y :
  collect f l = Ok ys -> y ∈ ys <-> exists x, x ∈ l /\ f x = Ok y.
Proof.
  intros Hc%collect_Ok. induction Hc as [|x z l zs Hx _ IH].
  - split; [by intros ?%not_elem_of_nil|]. by intros (x & Hx%not_elem_of_nil & _).
  - rewrite elem_of_cons, IH. setoid_rewrite elem_of_cons. naive_solver congruence.
Qed.

Lemma collect_total {A B} (f : A -> outcome Error B) l :
  (forall x, x ∈ l -> exists y, f x = Ok y) -> exists ys, collect f l = Ok ys.
Proof.
  induction l as [|x l IH]; intros Hf; [by eexists|]. simpl.
  destruct (Hf x) as [y ->]; [set_solver|]. destruct IH as [ys ->]; [set_solver|]. by eexists.
Qed.

Lemma elem_of_sorted_counts (m : gmap N nat) n q :
  (n, q) ∈ sorted_counts m <-> m !! q = Some n.
Proof.
  unfold sorted_counts. rewrite merge_sort_Permutation, list_elem_of_fmap. split.
  - by intros ([? ?] & [= -> ->] & ?%elem_of_map_to_list).
  - intros Hq. exists (q, n). by rewrite elem_of_map_to_list.
Qed.

Lemma named_rows_total s counts :
  (forall n q, (n, q) ∈ counts -> is_Some (quantifiers s !! q)) ->
  exists rows, named_rows (E:=Error) s counts = Ok rows.
Proof.
  intros Hc. apply collect_total. intros [n q] [name Hq]%Hc. simpl.
  unfold quantifier_name, expect_key. rewrite Hq. by eexists.
Qed.

Lemma elem_of_named_rows s counts rows q name n :
  named_rows (E:=Error) s counts = Ok rows ->
  (q, name, n) ∈ rows <-> (n, q) ∈ counts /\ quantifiers s !! q = Some name.
Proof.
  intros Hr. rewrite (elem_of_collect _ _ _ _ Hr). split.
  - intros ([n' q'] & Hx & Hrow). apply bind_Ok_inv in Hrow as (name' & Hq%expect_key_Ok & Hrow).
    by simplify_eq/=.
  - intros [Hc Hq]. exists (n, q). split; [done|]. simpl.
    unfold quantifier_name, expect_key. by rewrite Hq.
Qed.

(** The state right after a pop: every maximum is up to date. *)
Record flushed (H : list event) (s : State) : Prop := {
  fl_wf : wf s;
  fl_names : quantifiers s = names H;
  fl_matches q : is_Some (names H !! q) ->
    max_quantifier_matched_event_counters s !! q = Some (peak (match_count q H)) /\
    total_quantifiers_matched_counters s !! q = Some (total (match_count q H));
  fl_triggers q : is_Some (names H !! q) ->
    max_term_used_in_trigger_event_counters s !! q = Some (peak (trigger_count q H));
  fl_theories t : existsb (theory_registers t) H = true ->
    max_quantifier_inst_discovered_event_counters s !! t = Some (peak (theory_count t H)) /\
    total_quantifiers_inst_disovered_counters s !! t = Some (total (theory_count t H));
  fl_instances :
    max_quantifier_instance_event_counters s = peak (instance_count H) /\
    total_quantifiers_instance_counters s = total (instance_count H);
  fl_trace : trace_ok s;
  fl_reportable : reportable s;
}.

(** A pop brings the maximum of a counter to its peak. *)
Lemma view_flush t0 hit reset r n k v v' L m :
  Counted hit reset -> v' = view_next t0 hit reset n (EPop k) v -> view_tracks v r ->
  v_levels v = Some L -> v_max v' = Some m ->
  m = peak r /\ (forall t, v_total v' = Some t -> t = total r).
Proof.
  intros Hc -> Hv HL. unfold view_next. destruct (counted_pop k) as [-> ->]. simpl.
  unfold view_tracks, opt_tracks, tracks in Hv. rewrite HL in *. simpl.
  destruct Hv as (m' & -> & _ & Hm & Ht). simpl. by intros [= <-].
Qed.

Lemma pop_flushes H n s s' :
  tracked H s -> pop_scopes (E:=Error) n s = Ok s' -> flushed H s'.
Proof.
  intros Ht Hp. pose proof (tr_wf _ _ Ht) as Hwf. pose proof (wf_pop n s s' Hwf Hp) as Hwf'.
  assert (quantifiers s' = quantifiers s) as Hq by (by apply pop_scopes_popped, pp_quantifiers in Hp).
  pose proof (tr_names _ _ Ht) as Hn. constructor; [done|congruence|..].
  - intros q Hreg. rewrite <- Hn in Hreg.
    destruct (wf_is_Some _ _ q (eq_sym (wf_dom_matched _ Hwf)) Hreg) as [es Hes].
    rewrite <- Hq in Hreg. destruct (wf_is_Some _ _ q (eq_sym (wf_dom_max _ Hwf')) Hreg) as [m Hm].
    destruct (wf_is_Some _ _ q (eq_sym (wf_dom_total _ Hwf')) Hreg) as [t Htot].
    destruct (view_flush _ _ _ _ _ _ _ _ (expand es) m (match_counted q)
      (match_view_pop q n s s' Hwf Hp) (tr_match _ _ Ht q)) as [-> Hk];
      [simpl; by rewrite Hes | done|]. by rewrite <- (Hk t).
  - intros q Hreg. rewrite <- Hn in Hreg.
    destruct (wf_is_Some _ _ q (eq_sym (wf_dom_triggers _ Hwf)) Hreg) as [es Hes].
    rewrite <- Hq in Hreg.
    destruct (wf_is_Some _ _ q (eq_sym (wf_dom_max_triggers _ Hwf')) Hreg) as [m Hm].
    destruct (view_flush _ _ _ _ _ _ _ _ (tu_level <$> es) m (trigger_counted q)
      (trigger_view_pop q n s s' Hwf Hp) (tr_trigger _ _ Ht q)) as [-> _];
      [simpl; by rewrite Hes | done|done].
  - intros t Hreg. apply (tr_theories _ _ Ht) in Hreg as [es Hes].
    assert (is_Some (quantifiers_inst_disovered_events s' !! t)) as Hreg.
    { apply pop_scopes_popped, pp_discovered in Hp. rewrite Hp, lookup_fmap, Hes. by eexists. }
    destruct (wf_is_Some _ _ t (eq_sym (wf_dom_theory_max _ Hwf')) Hreg) as [m Hm].
    destruct (wf_is_Some _ _ t (eq_sym (wf_dom_theory_total _ Hwf')) Hreg) as [k Htot].
    destruct (view_flush _ _ _ _ _ _ _ _ (expand es) m (theory_counted t)
      (theory_view_pop t n s s' Hwf Hp) (tr_theory _ _ Ht t)) as [-> Hk];
      [simpl; by rewrite Hes | done|]. by rewrite <- (Hk k).
  - destruct (view_flush _ _ _ _ _ _ _ _ (expand (quantifiers_instance_events s))
      (max_quantifier_instance_event_counters s') instance_counted
      (instance_view_pop n s s' Hwf Hp) (tr_instance _ _ Ht)) as [Hm Hk]; [done..|].
    split; [done | by apply Hk].
  - by eapply (tracing_step (EPop n)); [apply (tr_trace _ _ Ht)|].
  - by eapply (reportable_step (EPop n)); [|apply (tr_reportable _ _ Ht)|].
Qed.

Lemma theory_rows t n (m : gmap TheoryKind nat) :
  (n, t) ∈ merge_sort theory_le ((fun p => (p.2, p.1)) <$> map_to_list m) <-> m !! t = Some n.
Proof.
  rewrite merge_sort_Permutation, list_elem_of_fmap. split.
  - by intros ([? ?] & [= -> ->] & ?%elem_of_map_to_list).
  - intros Hq. exists (t, n). by rewrite elem_of_map_to_list.
Qed.

Lemma sorted_rows_total {A} (f : A -> nat) (m : gmap N A) s :
  dom m ⊆ dom (quantifiers s) ->
  exists rows, named_rows (E:=Error) s (sorted_counts (f <$> m)) = Ok rows.
Proof.
  intros Hd. apply named_rows_total. intros n q Hq%elem_of_sorted_counts.
  rewrite <- elem_of_dom. apply Hd. rewrite lookup_fmap in Hq.
  apply fmap_Some in Hq as (a & Ha & _). by apply elem_of_dom_2 in Ha.
Qed.

Lemma sorted_rows_total' (m : gmap N nat) s :
  dom m ⊆ dom (quantifiers s) ->
  exists rows, named_rows (E:=Error) s (sorted_counts m) = Ok rows.
Proof. intros Hd. rewrite <- (map_fmap_id m). by apply sorted_rows_total. Qed.

Lemma match_row_Ok s q (n : nat) r :
  (total ← expect_key q (total_quantifiers_matched_counters s);
   name ← quantifier_name s q; Ok (q, name, n, total)) = @Ok Error _ r <->
  exists total name, total_quantifiers_matched_counters s !! q = Some total /\
    quantifiers s !! q = Some name /\ r = (q, name, n, total).
Proof.
  unfold quantifier_name, expect_key. destruct (total_quantifiers_matched_counters s !! q);
    simpl; [|naive_solver]. destruct (quantifiers s !! q); simpl; naive_solver.
Qed.

(** A report on a flushed state is complete. *)
Lemma write_statistics_total H s :
  flushed H s -> exists st, write_statistics (E:=Error) s = Ok st.
Proof.
  intros [Hwf Hn _ _ _ _ Ht [Hmul Hrem]]. unfold write_statistics.
  destruct (sorted_rows_total' (max_term_used_in_trigger_event_counters s) s) as [? ->];
    [by rewrite (wf_dom_max_triggers s Hwf)|].
  destruct (sorted_rows_total size (unique_quantifier_triggers s) s) as [? Hu];
    [by rewrite (wf_dom_unique s Hwf)|]. simpl. rewrite Hu. simpl.
  destruct (sorted_rows_total length (multi_term_quantifiers s) s Hmul) as [? Hm].
  rewrite Hm. simpl.
  destruct (collect_total (fun c : nat * N =>
    total ← expect_key c.2 (total_quantifiers_matched_counters s);
    name ← quantifier_name s c.2; Ok (c.2, name, c.1, total)) (quantifier_matches_counts s))
    as [? Hc].
  { intros [n q] Hq%elem_of_sorted_counts. apply elem_of_dom_2 in Hq.
    rewrite (wf_dom_max s Hwf) in Hq. apply elem_of_dom in Hq as [name Hq].
    destruct (wf_is_Some _ _ q (eq_sym (wf_dom_total s Hwf)) (ex_intro _ name Hq)) as [total Htot].
    eexists. apply match_row_Ok. eauto. }
  rewrite Hc. simpl.
  destruct (collect_total (fun c : nat * TheoryKind =>
    total ← expect_key c.2 (total_quantifiers_inst_disovered_counters s); Ok (c.2, c.1, total))
    (merge_sort theory_le ((fun p => (p.2, p.1)) <$>
       map_to_list (max_quantifier_inst_discovered_event_counters s)))) as [? Hd].
  { intros [n t] Hq%theory_rows. apply elem_of_dom_2 in Hq.
    rewrite (wf_dom_theory_max s Hwf), <- (wf_dom_theory_total s Hwf) in Hq.
    apply elem_of_dom in Hq as [total Hq]. unfold expect_key. simpl. rewrite Hq. by eexists. }
  rewrite Hd. simpl. destruct (sorted_rows_total' _ s Hrem) as [? Hl]. rewrite Hl. simpl.
  destruct (traced_quantifier s) eqn:Htr; simpl; [|by eexists].
  destruct Ht as [Ht|[b Hb]]; [congruence|]. rewrite Hb. by eexists.
Qed.

Lemma statistics_rows H s st :
  flushed H s -> write_statistics (E:=Error) s = Ok st ->
  (forall q name m t, (q, name, m, t) ∈ st_matches st <->
     names H !! q = Some name /\ m = peak (match_count q H) /\ t = total (match_count q H)) /\
  (forall q name m, (q, name, m) ∈ st_triggers st <->
     names H !! q = Some name /\ m = peak (trigger_count q H)) /\
  (forall t m n, existsb (theory_registers t) H = true ->
     (t, m, n) ∈ st_inst_discoveries st <->
     m = peak (theory_count t H) /\ n = total (theory_count t H)) /\
  st_instances st = (total (instance_count H), peak (instance_count H)).
Proof.
  intros [Hwf Hn Hm Htr Hth [Hi1 Hi2] _ _] Hst. unfold write_statistics in Hst.
  apply bind_Ok_inv in Hst as (triggers & Htri & Hst). apply bind_Ok_inv in Hst as (? & _ & Hst).
  apply bind_Ok_inv in Hst as (? & _ & Hst). apply bind_Ok_inv in Hst as (matches & Hmat & Hst).
  apply bind_Ok_inv in Hst as (theories & Hthe & Hst). apply bind_Ok_inv in Hst as (? & _ & Hst).
  apply bind_Ok_inv in Hst as (? & _ & [= <-]). simpl. split_and!.
  - intros q name m t. rewrite (elem_of_collect _ _ _ _ Hmat). split.
    + intros ([n q'] & Hx%elem_of_sorted_counts & (total & name' & Ht & Hq & Hr)%match_row_Ok).
      simplify_eq/=. rewrite Hn in Hq. destruct (Hm q') as [Hm1 Hm2]; [by eexists|].
      split_and!; congruence.
    + intros (Hq & -> & ->). destruct (Hm q) as [Hm1 Hm2]; [by eexists|].
      exists (peak (match_count q H), q). unfold quantifier_matches_counts.
      rewrite elem_of_sorted_counts, match_row_Ok. split; [done|].
      eexists _, name. by rewrite Hn.
  - intros q name m. rewrite (elem_of_named_rows _ _ _ _ _ _ Htri), elem_of_sorted_counts, Hn.
    split; intros [H1 H2]; (rewrite (Htr q) in * by (by eexists)); [split; congruence|].
    split; congruence.
  - intros t m n Hreg. destruct (Hth t Hreg) as [H1 H2].
    rewrite (elem_of_collect _ _ _ _ Hthe). split.
    + intros ([k t'] & Hx%theory_rows & Hr). apply bind_Ok_inv in Hr as (total & Ht%expect_key_Ok & Hr).
      simplify_eq/=. split; congruence.
    + intros [-> ->]. exists (peak (theory_count t H), t). rewrite theory_rows. split; [done|].
      unfold expect_key. simpl. rewrite H2. done.
  - by rewrite Hi1, Hi2.
Qed.

(** ** Properties *)

Lemma valid_history_run settings evs :
  valid evs = true ->
  exists s0 s, initial_state settings = Ok s0 /\ run evs s0 = Ok s
    /\ tracked (init_events ++ evs) s.
Proof.
  intros Hv. destruct (tracked_initial settings) as (s0 & Hs0 & Ht0).
  destruct (proj1 (valid_run _ _ _ Ht0) Hv) as (s & Hr & Ht). eauto.
Qed.

Lemma pop_all_total H s :
  tracked H s -> exists s', pop_all_scopes (E:=Error) s = Ok s' /\ flushed H s'.
Proof.
  intros Ht. destruct (pop_scopes_total (current_active_scopes_count s) s (tr_wf _ _ Ht))
    as [s' Hs']; [lia|]. exists s'. split; [done|]. by eapply pop_flushes.
Qed.

(** The analyzer's state accepts a sequence of events, from the state [analyze]
    starts with, exactly when the history is valid: pops never exceed the
    pushed scopes, pushes stay within [u32], and matched quantifiers have been
    registered before. No other event makes it panic, and none is an error. *)
Theorem runs_accept_valid_histories settings evs :
  exists s0, initial_state settings = Ok s0 /\
    (valid evs = true <-> exists s, run evs s0 = Ok s).
Proof.
  destruct (tracked_initial settings) as (s0 & Hs0 & Ht0). exists s0. split; [done|].
  unfold valid. rewrite (valid_run _ evs s0 Ht0). split.
  - intros (s & Hr & _). by exists s.
  - intros [s Hr]. exists s. split; [done | by eapply tracked_run].
Qed.

(** The rows of a report, computed from a history. *)
Definition report_of (H : list event) (st : Statistics) : Prop :=
  (forall q name m t, (q, name, m, t) ∈ st_matches st <->
     names H !! q = Some name /\ m = peak (match_count q H) /\ t = total (match_count q H)) /\
  (forall q name m, (q, name, m) ∈ st_triggers st <->
     names H !! q = Some name /\ m = peak (trigger_count q H)) /\
  (forall t m n, (t, m, n) ∈ st_inst_discoveries st <->
     m = peak (theory_count t H) /\ n = total (theory_count t H)) /\
  st_instances st = (total (instance_count H), peak (instance_count H)).

Lemma flushed_report evs s st :
  flushed (init_events ++ evs) s -> write_statistics (E:=Error) s = Ok st ->
  report_of (init_events ++ evs) st.
Proof.
  intros Hf Hst. destruct (statistics_rows _ s st Hf Hst) as (H1 & H2 & H3 & H4).
  split_and!; try done. intros t m n. apply H3. by destruct t.
Qed.

(** C29: For every valid history the analysis ends with a report, and the report
    is the one computed from the history alone: for each registered quantifier
    under its latest name the largest number of matches (of trigger terms)
    active at one time and the number of all matches since its registration;
    the same for theory discoveries and instances. *)
Theorem statistics_match_history settings evs :
  valid evs = true ->
  exists s0 s s' st, initial_state settings = Ok s0 /\ run evs s0 = Ok s /\
    pop_all_scopes (E:=Error) s = Ok s' /\ write_statistics (E:=Error) s' = Ok st /\
    report_of (init_events ++ evs) st.
Proof.
  intros Hv. destruct (valid_history_run settings evs Hv) as (s0 & s & Hs0 & Hr & Ht).
  destruct (pop_all_total _ s Ht) as (s' & Hp & Hf).
  destruct (write_statistics_total _ s' Hf) as [st Hst].
  exists s0, s, s', st. split_and!; try done.
  by apply (flushed_report evs s' st).
Qed.

Example sample_history : list event :=
  [ERegister 7 "q"; EPush; EMatch 7; EPush; EMatch 7; EMatch 7; EInstance; EPop 1; EMatch 7; EPop 1;
   EPush; EMatch 7].

Definition sample_settings : Settings :=
  {| do_write_statistics := true;
     bounds := {| ignore_builtin := false; bound_global_kind := None; bound_trace := None;
                  bound_trace_kind := None; unique_triggers_bound := None;
                  unique_triggers_bound_total := None |};
     check_active_scopes_count := None; pop_scopes_by_one := false;
     trace_quantifier_triggers := None |}.

(** Five matches, at most three of them active at once. *)
Lemma statistics_match_history_witness :
  valid sample_history = true /\
  match_count 7 (init_events ++ sample_history)
  = {| now := 1; active := [1%N]; total := 5; peak := 3 |} /\
  exists st, (7%N, "q"%string, 3, 5) ∈ st_matches st.
Proof.
  split; [vm_compute; reflexivity|]. split; [vm_compute; reflexivity|].
  destruct (statistics_match_history sample_settings sample_history) as
    (s0 & s & s' & st & _ & _ & _ & _ & Hm & _); [vm_compute; reflexivity|].
  exists st. apply Hm. split_and!; vm_compute; reflexivity.
Defined.
