(* ===== verification/SmtBounds.v ===== *)
(** * Bounds and pops of the SMT log analyzer

    [check_bounds] decides a condition on the history of events; popping scopes
    one at a time leaves the same state as popping them at once, up to the
    record of the largest pop. *)
From S2P Require Import Prelude SmtParser SmtState SmtLog SmtSound SmtCount.

(** ** The condition on histories *)

(** The distinct terms that triggered [q] since its registration. *)
Definition term_step (q : QuantifierId) (ts : gset TermId) (e : event) : gset TermId :=
  match e with
  | ERegister q' _ => if (q' =? q)%N then ∅ else ts
  | ETrigger q' t => if (q' =? q)%N then {[t]} ∪ ts else ts
  | _ => ts
  end.
Definition trigger_terms (q : QuantifierId) (evs : list event) : gset TermId :=
  foldl (term_step q) ∅ evs.

(** Largest number of simultaneous matches, and number of distinct trigger
    terms, of each registered quantifier. *)
Definition match_peaks (H : list event) : gmap QuantifierId nat :=
  map_imap (fun q _ => Some (peak (match_count q H))) (names H).
Definition trigger_sizes (H : list event) : gmap QuantifierId nat :=
  map_imap (fun q _ => Some (size (trigger_terms q H))) (names H).

Definition kept (b : Bounds) (m : gmap QuantifierId nat) : gmap QuantifierId nat :=
  filter (fun p => ignored b p.1 = false) m.
Definition sum_of (m : gmap QuantifierId nat) : nat := sum_list (snd <$> map_to_list m).

Definition within (n : nat) (bound : option nat) : Prop :=
  match bound with Some b => n <= b | None => True end.

Definition bounds_instantiations (b : Bounds) : bool :=
  match bound_trace b, bound_trace_kind b, bound_global_kind b with
  | None, None, None => false
  | _, _, _ => true
  end.

Record respects (b : Bounds) (H : list event) : Prop := {
  rs_trace_kind : map_Forall (fun q n =>
      n < total (match_count q H) -> within n (bound_trace_kind b)) (kept b (match_peaks H));
  rs_global_kind : map_Forall (fun _ n => within n (bound_global_kind b)) (kept b (match_peaks H));
  rs_trace : within (sum_of (kept b (match_peaks H))) (bound_trace b);
  rs_unique : map_Forall (fun _ n => within n (unique_triggers_bound b)) (kept b (trigger_sizes H));
  rs_unique_total : within (sum_of (kept b (trigger_sizes H))) (unique_triggers_bound_total b);
}.

(** ** Distinct trigger terms *)

Definition unique_ok (H : list event) (s : State) : Prop :=
  forall q ts, unique_quantifier_triggers s !! q = Some ts -> ts = trigger_terms q H.

Lemma trigger_terms_snoc q H e : trigger_terms q (H ++ [e]) = term_step q (trigger_terms q H) e.
Proof. unfold trigger_terms. by rewrite foldl_app. Qed.

Lemma unique_step H e s s' : unique_ok H s -> apply_event e s = Ok s' -> unique_ok (H ++ [e]) s'.
Proof.
  intros Hu He q ts. rewrite trigger_terms_snoc.
  destruct e as [|n|q' name|q'|q' u|u|u| |l|u d]; cbn [apply_event] in He; try (injection He as <-);
    cbn [term_step]; try (apply Hu).
  - apply push_fields in He as ->. apply Hu.
  - apply pop_scopes_popped, pp_unique in He. rewrite He. apply Hu.
  - simpl. destruct (N.eqb_spec q' q) as [->|Hq]; [rewrite lookup_insert_eq; naive_solver|].
    rewrite lookup_insert_ne by done. apply Hu.
  - apply matched_fields in He as (total & es & _ & _ & ->). apply Hu.
  - apply matched_trigger_fields in He as (_ & (ts' & Hts & Hu') & _). rewrite Hu'.
    destruct (N.eqb_spec q' q) as [->|Hq].
    + rewrite lookup_insert_eq. intros [= <-]. by rewrite (Hu q ts').
    + rewrite lookup_insert_ne by done. apply Hu.
  - apply discovered_fields in He as (total & es & _ & _ & ->). apply Hu.
Qed.

Lemma unique_run H evs s s' : unique_ok H s -> run evs s = Ok s' -> unique_ok (H ++ evs) s'.
Proof.
  revert H s. induction evs as [|e evs IH]; intros H s Hu Hr.
  - injection Hr as <-. by rewrite app_nil_r.
  - cbn [run] in Hr. apply bind_Ok_inv in Hr as (s1 & He & Hr).
    rewrite cons_middle, app_assoc. eapply IH; [by eapply unique_step | done].
Qed.

Lemma mark_unique H q s s' :
  unique_ok H s -> mark_quantifier_for_tracing (E:=Error) q s = Ok s' -> unique_ok H s'.
Proof.
  unfold mark_quantifier_for_tracing. intros Hu Hs. apply bind_Ok_inv in Hs as (_ & _ & [= <-]).
  destruct q; exact Hu.
Qed.

Lemma unique_default : unique_ok [] State_default.
Proof. done. Qed.

Lemma unique_initial settings s : initial_state settings = Ok s -> unique_ok init_events s.
Proof.
  apply mark_unique. exact (unique_run [] init_events State_default _ unique_default eq_refl).
Qed.

(** ** What the check computes *)

Lemma exceeds_within n b : exceeds n b = false <-> within n b.
Proof. destruct b as [k|]; simpl; [|done]. rewrite Nat.ltb_ge. done. Qed.

Lemma match_peaks_flushed H s :
  flushed H s -> max_quantifier_matched_event_counters s = match_peaks H.
Proof.
  intros Hf. apply map_eq. intros q. unfold match_peaks. rewrite map_lookup_imap.
  destruct (names H !! q) eqn:Hq; simpl.
  - by destruct (fl_matches _ _ Hf q) as [-> _].
  - apply not_elem_of_dom. rewrite (wf_dom_max _ (fl_wf _ _ Hf)), (fl_names _ _ Hf).
    by apply not_elem_of_dom.
Qed.

Lemma trigger_sizes_flushed H s :
  flushed H s -> unique_ok H s -> size <$> unique_quantifier_triggers s = trigger_sizes H.
Proof.
  intros Hf Hu. apply map_eq. intros q. unfold trigger_sizes. rewrite map_lookup_imap, lookup_fmap.
  destruct (names H !! q) eqn:Hq; simpl.
  - rewrite <- (fl_names _ _ Hf) in Hq.
    destruct (wf_is_Some _ _ q (eq_sym (wf_dom_unique _ (fl_wf _ _ Hf))) (ex_intro _ s0 Hq))
      as [ts Hts].
    rewrite Hts. simpl. by rewrite (Hu q ts).
  - apply fmap_None, not_elem_of_dom. rewrite (wf_dom_unique _ (fl_wf _ _ Hf)), (fl_names _ _ Hf).
    by apply not_elem_of_dom.
Qed.

Lemma map_to_list_filter_perm (P : N * nat -> Prop) `{forall x, Decision (P x)} (m : gmap N nat) :
  map_to_list (filter P m) ≡ₚ filter P (map_to_list m).
Proof.
  apply NoDup_Permutation; [apply NoDup_map_to_list | apply NoDup_filter, NoDup_map_to_list |].
  intros [k n]. rewrite elem_of_map_to_list, list_elem_of_filter, elem_of_map_to_list,
    map_lookup_filter_Some. tauto.
Qed.

Lemma filter_fmap_list {A B} (f : A -> B) (P : B -> Prop) `{forall x, Decision (P x)} (l : list A) :
  filter P (f <$> l) = f <$> filter (fun x => P (f x)) l.
Proof.
  induction l as [|x l IH]; [done|]. rewrite fmap_cons, !filter_cons, IH. by destruct (decide _).
Qed.

Definition checked_counts (b : Bounds) (m : gmap QuantifierId nat) : list (nat * QuantifierId) :=
  filter (fun c => ignored b c.2 = false) (sorted_counts m).

Lemma checked_counts_elem b m n q : (n, q) ∈ checked_counts b m <-> kept b m !! q = Some n.
Proof.
  unfold checked_counts, kept. rewrite list_elem_of_filter, elem_of_sorted_counts,
    map_lookup_filter_Some. simpl. tauto.
Qed.

Lemma checked_counts_sum b m : sum_list (fst <$> checked_counts b m) = sum_of (kept b m).
Proof.
  unfold checked_counts, sum_of, kept, sorted_counts. rewrite merge_sort_Permutation.
  rewrite map_to_list_filter_perm, filter_fmap_list, <- list_fmap_compose. simpl. done.
Qed.

Lemma kept_sum b m :
  sum_list (snd <$> filter (fun p => ignored b p.1 = false) (map_to_list m)) = sum_of (kept b m).
Proof. unfold sum_of, kept. by rewrite map_to_list_filter_perm. Qed.

Lemma collect_join_nil {A B} (f : A -> outcome Error (list B)) l :
  (forall x, x ∈ l -> exists v, f x = Ok v) ->
  exists vs, collect f l = Ok vs /\ (mjoin vs = [] <-> forall x, x ∈ l -> f x = Ok []).
Proof.
  intros Hf. destruct (collect_total f l Hf) as [vs Hvs]. exists vs. split; [done|].
  apply collect_Ok in Hvs. clear Hf. induction Hvs as [|x v l vs Hx _ IH].
  - split; [|done]. intros _ x Hx. by apply not_elem_of_nil in Hx.
  - simpl. split.
    + intros [-> Hj]%app_nil y [->|Hy]%elem_of_cons; [done|]. by apply IH.
    + intros Hall. rewrite (Hall x) in Hx by set_solver. injection Hx as <-. simpl.
      apply IH. set_solver.
Qed.

Definition one_kind_ok (b : Bounds) (H : list event) (q : QuantifierId) (n : nat) : Prop :=
  (n < total (match_count q H) -> within n (bound_trace_kind b)) /\ within n (bound_global_kind b).

Lemma kind_violations_flushed H s b n q :
  flushed H s -> is_Some (names H !! q) ->
  exists v, kind_violations (E:=Error) s b (n, q) = Ok v /\ (v = [] <-> one_kind_ok b H q n).
Proof.
  intros Hf Hq. destruct (fl_matches _ _ Hf q Hq) as [_ Ht].
  unfold kind_violations, one_kind_ok, check_bounds_explanatory_quantifier_name, quantifier_name,
    expect_key. simpl.
  rewrite Ht. simpl. rewrite (fl_names _ _ Hf). destruct Hq as [name Hq]. rewrite Hq. simpl.
  rename q into q'. pose proof (exceeds_within n (bound_trace_kind b)) as H1.
  pose proof (exceeds_within n (bound_global_kind b)) as H2.
  destruct (Nat.ltb_spec n (total (match_count q' H))) as [Hlt|Hlt]; simpl;
    [destruct (exceeds n (bound_trace_kind b)); simpl|];
    destruct (exceeds n (bound_global_kind b)); simpl; eexists; (split; [reflexivity|]);
    intuition (try discriminate; try lia).
Qed.

(** [check_bounds] behind its early return. *)
Definition check_bounds_body (s : State) (b : Bounds) : outcome Error unit :=
  let counts := checked_counts b (max_quantifier_matched_event_counters s) in
  violating ← collect (kind_violations s b) counts;
  _ ← assert_that "the number of allowed instantiations were exceeded"
        (bool_decide (mjoin violating = []));
  _ ← assert_that "the number of quantifier instantiations on a specific trace exceeded the allowed bound"
        (negb (exceeds (sum_list (fst <$> counts)) (bound_trace b)));
  let triggers := filter (fun p => ignored b p.1 = false)
                    (map_to_list (size <$> unique_quantifier_triggers s)) in
  violating ← collect (fun p : QuantifierId * nat =>
      if exceeds p.2 (unique_triggers_bound b)
      then _ ← check_bounds_explanatory_quantifier_name s p.1; Ok [p.1] else Ok []) triggers;
  _ ← assert_that "the number of allowed unique triggers were exceeded"
        (bool_decide (mjoin violating = []));
  assert_that "the number of unique triggers exceeded the allowed bound"
    (negb (exceeds (sum_list (snd <$> triggers)) (unique_triggers_bound_total b))).

Lemma check_bounds_split s b :
  check_bounds s b = if bounds_instantiations b then check_bounds_body s b else Ok tt.
Proof.
  unfold check_bounds, bounds_instantiations, check_bounds_body.
  destruct (bound_trace b), (bound_trace_kind b), (bound_global_kind b); reflexivity.
Qed.

Lemma assert_bind {B} msg P `{Decision P} (k : outcome Error B) b :
  (_ ← assert_that msg (bool_decide P); k) = Ok b <-> P /\ k = Ok b.
Proof. case_bool_decide; simpl; naive_solver. Qed.

Lemma assert_exceeds {B} msg n bound (k : outcome Error B) b :
  (_ ← assert_that msg (negb (exceeds n bound)); k) = Ok b <-> within n bound /\ k = Ok b.
Proof. rewrite <- exceeds_within. destruct (exceeds n bound); simpl; naive_solver. Qed.

Lemma kinds_checked b H s :
  flushed H s ->
  exists vs, collect (E:=Error) (kind_violations s b) (checked_counts b (match_peaks H)) = Ok vs /\
    (mjoin vs = [] <-> map_Forall (one_kind_ok b H) (kept b (match_peaks H))).
Proof.
  intros Hf.
  assert (forall n q, (n, q) ∈ checked_counts b (match_peaks H) ->
    exists v, kind_violations (E:=Error) s b (n, q) = Ok v /\ (v = [] <-> one_kind_ok b H q n))
    as Hall.
  { intros n q Hq%checked_counts_elem. apply kind_violations_flushed; [done|].
    apply map_lookup_filter_Some in Hq as [Hq _]. unfold match_peaks in Hq.
    rewrite map_lookup_imap in Hq. destruct (names H !! q); [by eexists|done]. }
  destruct (collect_join_nil (kind_violations s b) (checked_counts b (match_peaks H)))
    as (vs & Hvs & Hj).
  { intros [n q] (v & Hv & _)%Hall. eauto. }
  exists vs. split; [done|]. rewrite Hj. split.
  - intros Hk q n Hq%checked_counts_elem. destruct (Hall n q Hq) as (v & Hv & Hone).
    apply Hone. rewrite (Hk _ Hq) in Hv. by injection Hv.
  - intros Hk [n q] Hq. destruct (Hall n q Hq) as (v & Hv & Hone). rewrite Hv. f_equal.
    apply Hone, (Hk q n). by apply checked_counts_elem.
Qed.

Lemma unique_checked b H s :
  flushed H s ->
  exists vs, collect (E:=Error) (fun p : QuantifierId * nat =>
      if exceeds p.2 (unique_triggers_bound b)
      then _ ← check_bounds_explanatory_quantifier_name s p.1; Ok [p.1] else Ok [])
      (filter (fun p => ignored b p.1 = false) (map_to_list (trigger_sizes H))) = Ok vs /\
    (mjoin vs = [] <->
     map_Forall (fun _ n => within n (unique_triggers_bound b)) (kept b (trigger_sizes H))).
Proof.
  intros Hf. set (f := fun p : QuantifierId * nat => _).
  assert (forall q n, (q, n) ∈ filter (fun p => ignored b p.1 = false)
                        (map_to_list (trigger_sizes H)) <->
                      kept b (trigger_sizes H) !! q = Some n) as Helem.
  { intros q n. unfold kept. rewrite <- elem_of_map_to_list, map_to_list_filter_perm. done. }
  assert (forall q n, kept b (trigger_sizes H) !! q = Some n ->
    exists v, f (q, n) = Ok v /\ (v = [] <-> within n (unique_triggers_bound b))) as Hall.
  { intros q n Hq. unfold f. simpl.
    pose proof (exceeds_within n (unique_triggers_bound b)) as Hex.
    apply map_lookup_filter_Some in Hq as [Hq _]. unfold trigger_sizes in Hq.
    rewrite map_lookup_imap in Hq. destruct (names H !! q) as [name|] eqn:Hn; [|done].
    unfold check_bounds_explanatory_quantifier_name, quantifier_name, expect_key.
    rewrite (fl_names _ _ Hf), Hn.
    destruct (exceeds n (unique_triggers_bound b)); simpl; eexists; (split; [reflexivity|]);
      naive_solver. }
  destruct (collect_join_nil f (filter (fun p => ignored b p.1 = false)
    (map_to_list (trigger_sizes H)))) as (vs & Hvs & Hj).
  { intros [q n] (v & Hv & _)%Helem%Hall. eauto. }
  exists vs. split; [done|]. rewrite Hj. split.
  - intros Hk q n Hq. destruct (Hall q n Hq) as (v & Hv & Hone). apply Hone.
    apply Helem in Hq. rewrite (Hk _ Hq) in Hv. by injection Hv.
  - intros Hk [q n] Hq%Helem. destruct (Hall q n Hq) as (v & Hv & Hone). rewrite Hv. f_equal.
    apply Hone. by apply (Hk q n).
Qed.

Lemma check_bounds_flushed b H s :
  flushed H s -> unique_ok H s -> check_bounds_body s b = Ok tt <-> respects b H.
Proof.
  intros Hf Hu. unfold check_bounds_body.
  rewrite (match_peaks_flushed H s Hf), (trigger_sizes_flushed H s Hf Hu).
  destruct (kinds_checked b H s Hf) as (vs & -> & Hvs). simpl. rewrite assert_bind, Hvs.
  rewrite assert_exceeds, checked_counts_sum.
  destruct (unique_checked b H s Hf) as (us & Hus & Hus'). rewrite Hus. simpl.
  rewrite assert_bind, Hus'.
  rewrite kept_sum.
  transitivity (map_Forall (one_kind_ok b H) (kept b (match_peaks H)) /\
    within (sum_of (kept b (match_peaks H))) (bound_trace b) /\
    map_Forall (fun _ n => within n (unique_triggers_bound b)) (kept b (trigger_sizes H)) /\
    within (sum_of (kept b (trigger_sizes H))) (unique_triggers_bound_total b)).
  { rewrite <- (exceeds_within (sum_of (kept b (trigger_sizes H)))).
    destruct (exceeds _ _); simpl; naive_solver. }
  split.
  - intros (H1 & H2 & H3 & H4). constructor; try done; intros q n Hq; by apply (H1 q n).
  - intros [H1 H2 H3 H4 H5]. split_and!; try done. intros q n Hq.
    split; [by apply (H1 q n) | by apply (H2 q n)].
Qed.

(** ** One pop of [n + 1] scopes or [n + 1] pops *)

Section pops.
Context {A : Type} (level : A -> N).

Lemma pop_above_twice now l1 l2 (es : list A) :
  stack_ok level now es -> (l2 <= l1)%N ->
  pop_above level l2 (pop_above level l1 es) = pop_above level l2 es.
Proof.
  intros [Hs Hn] Hl. destruct (pop_above_filter level l1 es Hs) as [-> _].
  destruct (pop_above_filter level l2 es Hs) as [-> _].
  destruct (pop_above_filter level l2 (filter (fun e => level e <= l1)%N es)) as [-> _];
    [by apply sorted_filter|].
  rewrite list_filter_filter_l; [done|]. intros x Hx. lia.
Qed.

Lemma pop_above_length now l (es : list A) :
  stack_ok level now es -> length (pop_above level l es) <= length es.
Proof.
  intros [Hs _]. destruct (pop_above_filter level l es Hs) as [-> _]. apply length_filter.
Qed.
End pops.

Lemma pop_above_counters now l es :
  stack_ok ev_level now es -> sum_counters (pop_above ev_level l es) <= sum_counters es.
Proof.
  intros Hs. rewrite !sum_counters_expand, (expand_pop now) by done. apply length_filter.
Qed.

Lemma peaks_twice {K A} `{Countable K} (size : A -> nat) (pop : A -> A) (es : gmap K A) p0 p1 p2 p3 :
  map_Forall (fun _ e => size (pop e) <= size e) es ->
  @update_peaks Error _ _ _ _ size es p0 = Ok p1 ->
  @update_peaks Error _ _ _ _ size (pop <$> es) p1 = Ok p2 ->
  @update_peaks Error _ _ _ _ size es p0 = Ok p3 -> p2 = p3.
Proof.
  intros Hle H1 H2 H3. apply map_eq. intros k.
  rewrite (update_peaks_lookup _ _ _ _ k H2), (update_peaks_lookup _ _ _ _ k H1),
    (update_peaks_lookup _ _ _ _ k H3), lookup_fmap.
  destruct (p0 !! k) as [p|]; simpl; [|done]. destruct (es !! k) as [e|] eqn:He; simpl; f_equal;
    [|lia]. pose proof (Hle k e He). simpl in *. lia.
Qed.

Lemma fmap_twice {K A} `{Countable K} (f g h : A -> A) (m : gmap K A) :
  map_Forall (fun _ a => f (g a) = h a) m -> f <$> (g <$> m) = h <$> m.
Proof. intros Hm. rewrite <- map_fmap_compose. apply map_fmap_ext. intros k a Ha. by apply (Hm k). Qed.

Lemma State_eq_but_largest s s' :
  quantifiers s = quantifiers s' -> terms s = terms s' ->
  quantifiers_matched_events s = quantifiers_matched_events s' ->
  quantifiers_inst_disovered_events s = quantifiers_inst_disovered_events s' ->
  total_quantifiers_matched_counters s = total_quantifiers_matched_counters s' ->
  total_quantifiers_inst_disovered_counters s = total_quantifiers_inst_disovered_counters s' ->
  max_quantifier_matched_event_counters s = max_quantifier_matched_event_counters s' ->
  max_quantifier_inst_discovered_event_counters s
  = max_quantifier_inst_discovered_event_counters s' ->
  unique_quantifier_triggers s = unique_quantifier_triggers s' ->
  term_used_in_trigger_events s = term_used_in_trigger_events s' ->
  max_term_used_in_trigger_event_counters s = max_term_used_in_trigger_event_counters s' ->
  multi_term_quantifiers s = multi_term_quantifiers s' ->
  total_quantifiers_instance_counters s = total_quantifiers_instance_counters s' ->
  quantifiers_instance_events s = quantifiers_instance_events s' ->
  max_quantifier_instance_event_counters s = max_quantifier_instance_event_counters s' ->
  trace s = trace s' -> current_active_scopes_count s = current_active_scopes_count s' ->
  traced_quantifier s = traced_quantifier s' ->
  traced_quantifier_triggers s = traced_quantifier_triggers s' ->
  s = set_largest_pop (largest_pop s) s'.
Proof. destruct s, s'. simpl. intros. by subst. Qed.

Lemma pop_compose n s s1 s2 s3 :
  wf s -> pop_scopes (E:=Error) 1 s = Ok s1 -> pop_scopes (E:=Error) n s1 = Ok s2 ->
  pop_scopes (E:=Error) (n + 1) s = Ok s3 -> s2 = set_largest_pop (largest_pop s2) s3.
Proof.
  intros Hwf H1%pop_scopes_popped H2%pop_scopes_popped H3%pop_scopes_popped.
  destruct H1, H2, H3. destruct Hwf.
  assert (current_active_scopes_count s1 - n = current_active_scopes_count s - (n + 1))%N as Hl
    by lia.
  assert (current_active_scopes_count s - (n + 1) <= current_active_scopes_count s - 1)%N as Hle
    by lia.
  rewrite Hl in pp_matched0, pp_discovered0, pp_triggers0, pp_instances0, pp_trace0, pp_now0.
  rewrite pp_matched in pp_matched0, pp_max0. rewrite pp_discovered in pp_discovered0, pp_theory_max0.
  rewrite pp_triggers in pp_triggers0, pp_max_triggers0.
  rewrite pp_instances in pp_instances0, pp_max_instances0.
  apply State_eq_but_largest; try congruence.
  - rewrite pp_matched0, pp_matched1. apply fmap_twice. intros k es Hes.
    exact (pop_above_twice _ _ _ _ _ (wf_matched k es Hes) Hle).
  - rewrite pp_discovered0, pp_discovered1. apply fmap_twice. intros k es Hes.
    exact (pop_above_twice _ _ _ _ _ (wf_discovered k es Hes) Hle).
  - eapply peaks_twice; [|exact pp_max|exact pp_max0|exact pp_max1].
    intros k es Hes. exact (pop_above_counters _ _ _ (wf_matched k es Hes)).
  - eapply peaks_twice; [|exact pp_theory_max|exact pp_theory_max0|exact pp_theory_max1].
    intros k es Hes. exact (pop_above_counters _ _ _ (wf_discovered k es Hes)).
  - rewrite pp_triggers0, pp_triggers1. apply fmap_twice. intros k es Hes.
    exact (pop_above_twice _ _ _ _ _ (wf_triggers k es Hes) Hle).
  - eapply peaks_twice; [|exact pp_max_triggers|exact pp_max_triggers0|exact pp_max_triggers1].
    intros k es Hes. exact (pop_above_length _ _ _ _ (wf_triggers k es Hes)).
  - rewrite pp_instances0, pp_instances1. by eapply pop_above_twice.
  - rewrite pp_max_instances0, pp_max_instances, pp_max_instances1.
    pose proof (pop_above_counters _ (current_active_scopes_count s - 1) _ wf_instances). lia.
  - rewrite pp_trace0, pp_trace, pp_trace1. by eapply pop_above_twice.
  - destruct pp_traced, pp_traced0, pp_traced1. congruence.
  - destruct pp_traced, pp_traced0, pp_traced1. congruence.
Qed.

Lemma pop_by_one_flat n s :
  wf s -> (N.of_nat (S n) <= current_active_scopes_count s)%N ->
  exists s1 s2, pop_by_one (S n) s = Ok s1 /\ pop_scopes (E:=Error) (N.of_nat (S n)) s = Ok s2 /\
    s1 = set_largest_pop (largest_pop s1) s2.
Proof.
  revert s. induction n as [|n IH]; intros s Hwf Hn.
  - destruct (pop_scopes_total 1 s Hwf) as [s1 Hs1]; [lia|]. exists s1, s1.
    simpl. rewrite Hs1. simpl. split_and!; [done|done|]. by destruct s1.
  - destruct (pop_scopes_total 1 s Hwf) as [s1 Hs1]; [lia|].
    pose proof (wf_pop 1 s s1 Hwf Hs1) as Hwf1.
    destruct (IH s1 Hwf1) as (a & b & Ha & Hb & Hab).
    { apply pop_scopes_popped, pp_now in Hs1. rewrite Hs1. lia. }
    destruct (pop_scopes_total (N.of_nat (S n) + 1) s Hwf) as [c Hc]; [lia|].
    exists a, c. change (pop_by_one (S (S n)) s) with (s' ← pop_scopes 1 s; pop_by_one (S n) s').
    rewrite Hs1. cbn [mbind outcome_bind]. split; [done|].
    replace (N.of_nat (S (S n))) with (N.of_nat (S n) + 1)%N by lia. split; [done|].
    rewrite Hab at 1. rewrite (pop_compose _ _ _ _ _ Hwf Hs1 Hb Hc). by destruct a.
Qed.

(** ** Properties *)

Lemma valid_history_popped settings evs :
  valid evs = true ->
  exists s0 s s', initial_state settings = Ok s0 /\ run evs s0 = Ok s /\
    pop_all_scopes (E:=Error) s = Ok s' /\ flushed (init_events ++ evs) s' /\
    unique_ok (init_events ++ evs) s'.
Proof.
  intros Hv. destruct (valid_history_run settings evs Hv) as (s0 & s & Hs0 & Hr & Ht).
  destruct (pop_all_total _ s Ht) as (s' & Hp & Hf). exists s0, s, s'. split_and!; try done.
  pose proof (unique_run _ _ _ _ (unique_initial _ _ Hs0) Hr) as Hu. intros q.
  apply pop_scopes_popped, pp_unique in Hp. rewrite Hp. apply Hu.
Qed.

(** for every valid history, the check of the bounds after the analysis passes
    exactly when no bound on instantiations is given, or every bound holds of the
    history: the largest number of simultaneous matches of each quantifier that
    is not ignored, their sum, the number of distinct trigger terms of each
    quantifier since its registration, and their sum. In particular the two
    bounds on trigger terms are not enforced when they are the only ones. *)
Theorem bounds_checked_on_history settings evs b :
  valid evs = true ->
  exists s0 s s', initial_state settings = Ok s0 /\ run evs s0 = Ok s /\
    pop_all_scopes (E:=Error) s = Ok s' /\
    (check_bounds (E:=Error) s' b = Ok tt <->
     bounds_instantiations b = false \/ respects b (init_events ++ evs)).
Proof.
  intros Hv. destruct (valid_history_popped settings evs Hv) as (s0 & s & s' & H1 & H2 & H3 & Hf & Hu).
  exists s0, s, s'. split_and!; try done. rewrite check_bounds_split.
  destruct (bounds_instantiations b); [|naive_solver].
  rewrite (check_bounds_flushed b _ s' Hf Hu). naive_solver.
Qed.

(** Two states that differ at most in the record of the largest pop. *)
Definition same_but_largest (s1 s2 : State) : Prop :=
  s1 = set_largest_pop (largest_pop s1) s2.

(** Popping scopes one at a time, as requested by a setting, is possible
    whenever popping them at once is, and both leave the same state in every
    reached state, except for the record of the largest pop. *)
Theorem pop_by_one_same_state settings evs n :
  valid (evs ++ [EPop n]) = true -> (0 < n)%N ->
  exists s0 s s1 s2, initial_state settings = Ok s0 /\ run evs s0 = Ok s /\
    pop_by_one (N.to_nat n) s = Ok s1 /\ pop_scopes (E:=Error) n s = Ok s2 /\
    same_but_largest s1 s2.
Proof.
  intros Hv Hn.
  destruct (valid_history_run settings _ Hv) as (s0 & s2 & Hs0 & Hr & _).
  destruct (tracked_initial settings) as (s0' & Hs0' & Ht0). rewrite Hs0 in Hs0'. simplify_eq.
  apply run_snoc in Hr as (s & Hr & Hp).
  pose proof (tr_wf _ _ (tracked_run _ _ _ _ Ht0 Hr)) as Hwf.
  pose proof (pop_scopes_popped _ _ _ Hp) as Hpp.
  destruct (pop_by_one_flat (N.to_nat (N.pred n)) s Hwf) as (a & c & Ha & Hc & Hac).
  { pose proof (pp_count _ _ _ Hpp). lia. }
  replace (S (N.to_nat (N.pred n))) with (N.to_nat n) in * by lia.
  rewrite N2Nat.id in Hc. eauto 10.
Qed.

(** Two distinct trigger terms of one quantifier, and a bound of one. *)
Example trigger_history : list event :=
  [ERegister 7 "q"; EPush; EMatch 7; ETrigger 7 3; EMatch 7; ETrigger 7 4; EPop 1].

Example trigger_bounds : Bounds :=
  {| ignore_builtin := false; bound_global_kind := None; bound_trace := None;
     bound_trace_kind := None; unique_triggers_bound := Some 1;
     unique_triggers_bound_total := Some 1 |}.

Lemma bounds_checked_witness :
  valid trigger_history = true /\ trigger_terms 7 (init_events ++ trigger_history) = {[3%N; 4%N]} /\
  exists s', check_bounds (E:=Error) s' trigger_bounds = Ok tt.
Proof.
  split; [vm_compute; reflexivity|]. split; [vm_compute; reflexivity|].
  destruct (bounds_checked_on_history sample_settings trigger_history trigger_bounds)
    as (s0 & s & s' & _ & _ & _ & Hc); [vm_compute; reflexivity|].
  exists s'. apply Hc. left. reflexivity.
Defined.

Example two_scopes : list event :=
  [ERegister 7 "q"; EPush; EMatch 7; EPush; EMatch 7; EMatch 7].

Lemma pop_by_one_same_state_witness :
  valid (two_scopes ++ [EPop 2]) = true /\
  exists s1 s2, quantifier_matches_removed (largest_pop s1) = 2 /\
    quantifier_matches_removed (largest_pop s2) = 3 /\ s1 = set_largest_pop (largest_pop s1) s2.
Proof.
  split; [vm_compute; reflexivity|].
  destruct (pop_by_one_same_state sample_settings two_scopes 2)
    as (s0 & s & s1 & s2 & H0 & Hr & H1 & H2 & Heq); [vm_compute; reflexivity | lia|].
  exists s1, s2. vm_compute in H0. injection H0 as <-. vm_compute in Hr. injection Hr as <-.
  vm_compute in H1. injection H1 as <-. vm_compute in H2. injection H2 as <-.
  split; [reflexivity|]. split; [reflexivity|]. exact Heq.
Defined.
