(* ===== verification/SmtLines.v ===== *)
(** * Lines of a trace

    The lines the prover writes for the events of a history, and that the
    parser and the handlers of [process_line] read them back as those events. *)
From Stdlib Require Import Ascii.
From stdpp Require Import pretty numbers.
From S2P Require Import Prelude SmtParser SmtState SmtLog SmtSound SmtCount SmtBounds.

#[local] Arguments String.append !_ _ / : simpl nomatch.

(** ** Rendering *)

Inductive line :=
| LPush (level : N)
| LPop (n level : N)
| LQuant (q : QuantifierId) (name : string)
| LApp (t : TermId) (name : string) (args : list TermId)
| LVar (t : TermId) (index : N)
| LMeaning (t : TermId) (ident value : string)
| LMatch (fingerprint : string) (q trigger : Id) (ids : list Id) (matched : list QuantTerm)
| LBuiltin
| LTheory (t : TheoryKind)
| LInstance.

Definition nl : string := newline_str.
Definition render_id (n : Id) : string := " #" +:+ show n.

(** A list of rendered items in front of [tail]. *)
Definition render_list {A} (f : A -> string) (l : list A) (tail : string) : string :=
  foldr (fun x acc => f x +:+ acc) tail l.

Definition render_term_ref (t : QuantTerm) : string :=
  match t with
  | Single t => render_id t
  | Pair a b => " (#" +:+ show a +:+ " #" +:+ show b +:+ ")"
  end.

Definition theory_name (t : TheoryKind) : string :=
  match t with
  | Arith => "arith" | Basic => "basic" | Datatype => "datatype" | UserSort => "user-sort"
  end.

Definition render (l : line) : string :=
  match l with
  | LPush level => "[push] " +:+ show level +:+ nl
  | LPop n level => "[pop] " +:+ show n +:+ " " +:+ show level +:+ nl
  | LQuant q name => "[mk-quant] #" +:+ show q +:+ " " +:+ name +:+ nl
  | LApp t name args => "[mk-app] #" +:+ show t +:+ " " +:+ name +:+ render_list render_id args nl
  | LVar t index => "[mk-var] #" +:+ show t +:+ " " +:+ show index +:+ nl
  | LMeaning t ident value =>
      "[attach-meaning] #" +:+ show t +:+ " " +:+ ident +:+ " " +:+ value +:+ nl
  | LMatch fingerprint q trigger ids matched =>
      "[new-match] 0x" +:+ fingerprint +:+ " #" +:+ show q +:+ " #" +:+ show trigger
      +:+ render_list render_id ids (" ;" +:+ render_list render_term_ref matched nl)
  | LBuiltin => "[new-match] 0x0 datatype#1 ; #1" +:+ nl
  | LTheory t => "[inst-discovered] theory-solving 0x0 " +:+ theory_name t +:+ "# ; #1" +:+ nl
  | LInstance => "[instance] 0x0 #1" +:+ nl
  end.

(** ** The events of a line *)

Definition term_events (q : QuantifierId) (t : QuantTerm) : list event :=
  match t with Single t => [ETrigger q t] | Pair a b => [ETrigger q a; ETrigger q b] end.

Definition line_events (settings : Settings) (l : line) : list event :=
  match l with
  | LPush _ => [EPush]
  | LPop n _ =>
      if pop_scopes_by_one settings then replicate (N.to_nat n) (EPop 1) else [EPop n]
  | LQuant q name => [ERegister q name]
  | LApp t name args =>
      if starts_with "basic_block_marker" name then [ELabel name]
      else [ETerm t (FunctionApplication name args)]
  | LVar t index => [ETerm t (Variable_ index)]
  | LMeaning t ident value => [ETerm t (AttachMeaningTerm ident value)]
  | LMatch _ q _ _ matched => EMatch q :: mjoin (term_events q <$> matched)
  | LBuiltin => [EMatch BUILTIN_QUANTIFIER_ID]
  | LTheory t => [EDiscover t]
  | LInstance => [EInstance]
  end.

(** The number of active scopes that push and pop lines record. *)
Definition line_level (l : line) : option N :=
  match l with LPush level | LPop _ level => Some level | _ => None end.

Fixpoint all_chars (p : ascii -> bool) (s : string) : bool :=
  match s with EmptyString => true | String c s => p c && all_chars p s end.

Definition is_name (s : string) : bool :=
  negb (bool_decide (s = "")) && all_chars is_valid_name s.

(** A value does not start with a blank and does not contain a line break. *)
Definition is_value (s : string) : bool :=
  match s with String c _ => negb (is_whitespace c) | EmptyString => false end
  && all_chars (fun c => negb (Ascii.eqb c newline)) s.

Definition is_fingerprint (s : string) : bool :=
  all_chars is_ascii_hexdigit s &&
  match parse_uint 16 u64_max s with Some n => negb (n =? 0)%N | None => false end.

Definition is_u32 (n : N) : bool := (n <=? u32_max)%N.

Definition term_ok (t : QuantTerm) : bool :=
  match t with
  | Single t => is_u32 t
  | Pair a b => is_u32 a && is_u32 b && negb (a =? b)%N
  end.

Definition line_ok (l : line) : bool :=
  match l with
  | LPush level => is_u32 level
  | LPop n level => is_u32 n && is_u32 level
  | LQuant q name => is_u32 q && is_name name
  | LApp t name args => is_u32 t && is_name name && forallb is_u32 args
  | LVar t index => is_u32 t && is_u32 index
  | LMeaning t ident value => is_u32 t && is_name ident && is_value value
  | LMatch fingerprint q trigger ids matched =>
      is_fingerprint fingerprint && is_u32 q && is_u32 trigger && forallb is_u32 ids
      && forallb term_ok matched
  | _ => true
  end.

(** ** Tokens *)

Definition stops (p : ascii -> bool) (s : string) : Prop :=
  match s with String c _ => p c = false | EmptyString => False end.

Lemma string_app_assoc (a b c : string) : (a +:+ b) +:+ c = a +:+ b +:+ c.
Proof. induction a; simpl; congruence. Qed.

Lemma string_app_nil (a : string) : a +:+ "" = a.
Proof. induction a; simpl; congruence. Qed.

Lemma span_app p s rest :
  all_chars p s = true -> stops p rest -> span p (s +:+ rest) = (s, rest).
Proof.
  intros Hs Hr. induction s as [|c s IH]; simpl in *.
  - destruct rest as [|c rest]; [done|]. simpl in *. by rewrite Hr.
  - apply andb_true_iff in Hs as [-> Hs]. by rewrite IH.
Qed.

Lemma consume_while_app p s rest :
  all_chars p s = true -> s <> "" -> stops p rest ->
  consume_while_predicate p (s +:+ rest) = Ok (s, rest).
Proof.
  intros Hs Hne Hr. destruct s as [|c s]; [done|].
  pose proof (span_app p (String c s) rest Hs Hr) as Hsp.
  change (String c s +:+ rest) with (String c (s +:+ rest)) in *.
  cbv [consume_while_predicate position peek take_while mbind parser_bind mret parser_ret].
  rewrite Hsp. by destruct rest.
Qed.

Lemma all_chars_impl (p q : ascii -> bool) s :
  (forall c, p c = true -> q c = true) -> all_chars p s = true -> all_chars q s = true.
Proof.
  intros Hpq. induction s as [|c s IH]; [done|]. simpl. intros [Hc Hs]%andb_true_iff.
  by rewrite (Hpq c Hc), (IH Hs).
Qed.

Lemma skip_blank s : stops is_whitespace s -> skip_whitespace (String " " s) = Ok (tt, s).
Proof.
  destruct s as [|c s]; [done|]. simpl. intros Hc. unfold skip_whitespace. simpl. by rewrite Hc.
Qed.

Lemma skip_none s : stops is_whitespace s -> skip_whitespace s = Ok (tt, s).
Proof. destruct s as [|c s]; [done|]. simpl. intros Hc. unfold skip_whitespace. simpl. by rewrite Hc. Qed.

(** *** Numbers *)

Lemma pretty_char x :
  (x < 10)%N -> is_digit (pretty_N_char x) = true /\ digit_value (pretty_N_char x) = x.
Proof.
  intros Hx. assert (x = 0 \/ x = 1 \/ x = 2 \/ x = 3 \/ x = 4 \/ x = 5 \/ x = 6 \/ x = 7 \/ x = 8
                     \/ x = 9)%N as Hc by lia.
  repeat destruct Hc as [->|Hc]; try (by split); by subst.
Qed.

Lemma digit_hex c : is_digit c = true -> is_ascii_hexdigit c = true.
Proof. unfold is_ascii_hexdigit. by intros ->. Qed.

Lemma pretty_go_digits x s :
  all_chars is_digit s = true -> all_chars is_digit (pretty_N_go x s) = true.
Proof.
  revert s. induction (N.lt_wf_0 x) as [x _ IH]; intros s Hs.
  destruct (decide (x = 0%N)) as [->|Hx]; [by rewrite pretty_N_go_0|].
  rewrite pretty_N_go_step by lia. apply IH; [apply N.div_lt; lia|]. simpl.
  destruct (pretty_char (x `mod` 10)) as [-> _]; [apply N.mod_lt; lia | done].
Qed.

Lemma pretty_go_value x s : digits_value 10 0 (pretty_N_go x s) = digits_value 10 x s.
Proof.
  revert s. induction (N.lt_wf_0 x) as [x _ IH]; intros s.
  destruct (decide (x = 0%N)) as [->|Hx]; [by rewrite pretty_N_go_0|].
  rewrite pretty_N_go_step, IH by (try apply N.div_lt; lia).
  destruct (pretty_char (x `mod` 10)) as [Hd Hv]; [apply N.mod_lt; lia|].
  cbn [digits_value]. rewrite (digit_hex _ Hd), Hv.
  rewrite (proj2 (N.ltb_lt _ _)) by (apply N.mod_lt; lia). cbn [andb]. f_equal.
  pose proof (N.div_mod x 10 ltac:(done)). lia.
Qed.

Lemma pretty_go_nonempty x s : s <> "" -> pretty_N_go x s <> "".
Proof.
  revert s. induction (N.lt_wf_0 x) as [x _ IH]; intros s Hs.
  destruct (decide (x = 0%N)) as [->|Hx]; [by rewrite pretty_N_go_0|].
  rewrite pretty_N_go_step by lia. apply IH; [apply N.div_lt; lia | done].
Qed.

Lemma show_digits n : all_chars is_digit (show n) = true /\ show n <> "".
Proof.
  unfold show, pretty, pretty_N. destruct (decide (n = 0%N)) as [|Hn]; [done|].
  split; [by apply pretty_go_digits|].
  rewrite pretty_N_go_step by lia. by apply pretty_go_nonempty.
Qed.

Lemma show_value n : digits_value 10 0 (show n) = Some n.
Proof.
  unfold show, pretty, pretty_N. destruct (decide (n = 0%N)) as [->|Hn]; [done|].
  by rewrite pretty_go_value.
Qed.

Lemma show_parse n : is_u32 n = true -> parse_uint 10 u32_max (show n) = Some n.
Proof.
  intros Hn. unfold parse_uint. rewrite show_value. destruct (show_digits n) as [_ Hne].
  destruct (show n); [done|]. unfold is_u32 in Hn. by rewrite Hn.
Qed.

Lemma show_stops p n rest :
  (forall c, is_digit c = true -> p c = false) -> stops p (show n +:+ rest).
Proof.
  intros Hp. destruct (show_digits n) as [Hd Hne]. destruct (show n) as [|c s]; [done|].
  simpl in *. apply andb_true_iff in Hd as [Hc _]. by apply Hp.
Qed.

Lemma digit_not_blank c : is_digit c = true -> is_whitespace c = false.
Proof.
  unfold is_digit, is_whitespace, between. rewrite andb_true_iff, !N.leb_le. intros [H1 H2].
  rewrite orb_false_iff, andb_false_iff, N.eqb_neq, !N.leb_gt. lia.
Qed.

Lemma number_app n rest :
  is_u32 n = true -> stops is_ascii_hexdigit rest ->
  parse_number (show n +:+ rest) = Ok (n, rest).
Proof.
  intros Hn Hr. unfold parse_number, mbind, parser_bind.
  rewrite skip_none by (apply show_stops, digit_not_blank).
  destruct (show_digits n) as [Hd Hne].
  rewrite consume_while_app; [|by eapply all_chars_impl, Hd; apply digit_hex|done|done].
  by rewrite show_parse.
Qed.

Lemma blank_number n rest :
  is_u32 n = true -> stops is_ascii_hexdigit rest ->
  parse_number (" " +:+ show n +:+ rest) = Ok (n, rest).
Proof.
  intros Hn Hr. rewrite <- (number_app n rest Hn Hr). unfold parse_number, mbind, parser_bind.
  change (" " +:+ show n +:+ rest) with (String " " (show n +:+ rest)).
  by rewrite skip_blank, skip_none by (apply show_stops, digit_not_blank).
Qed.

(** *** Identifiers and names *)

Lemma id_app n rest :
  is_u32 n = true -> stops is_ascii_hexdigit rest ->
  try_parse_id (String "#" (show n +:+ rest)) = Ok (Some n, rest).
Proof.
  intros Hn Hr. unfold try_parse_id, mbind, parser_bind. rewrite skip_none by done.
  change (try_consume "#" (String "#" (show n +:+ rest)))
    with (@Ok Error _ (true, show n +:+ rest)). cbv beta iota.
  by rewrite number_app.
Qed.

Lemma blank_id n rest :
  is_u32 n = true -> stops is_ascii_hexdigit rest ->
  try_parse_id (String " " (String "#" (show n +:+ rest))) = Ok (Some n, rest).
Proof.
  intros Hn Hr. rewrite <- (id_app n rest Hn Hr).
  unfold try_parse_id, mbind, parser_bind. by rewrite skip_blank, skip_none by done.
Qed.

Lemma render_id_app n rest :
  is_u32 n = true -> stops is_ascii_hexdigit rest ->
  try_parse_id (render_id n +:+ rest) = Ok (Some n, rest).
Proof.
  intros Hn Hr. unfold render_id. rewrite string_app_assoc. by apply blank_id.
Qed.

Lemma parse_id_app n rest :
  is_u32 n = true -> stops is_ascii_hexdigit rest ->
  parse_id (String "#" (show n +:+ rest)) = Ok (n, rest).
Proof. intros Hn Hr. unfold parse_id, mbind, parser_bind. by rewrite id_app. Qed.

Lemma parse_id_blank n rest :
  is_u32 n = true -> stops is_ascii_hexdigit rest ->
  parse_id (String " " (String "#" (show n +:+ rest))) = Ok (n, rest).
Proof. intros Hn Hr. unfold parse_id, mbind, parser_bind. by rewrite blank_id. Qed.

Lemma name_not_blank c : is_valid_name c = true -> is_whitespace c = false.
Proof. by destruct c as [[] [] [] [] [] [] [] []]. Qed.

Lemma name_app name rest :
  is_name name = true -> stops is_valid_name rest ->
  parse_name (String " " (name +:+ rest)) = Ok (name, rest).
Proof.
  unfold is_name. rewrite andb_true_iff, negb_true_iff, bool_decide_eq_false. intros [Hne Hn] Hr.
  unfold parse_name, mbind, parser_bind. rewrite skip_blank.
  - by rewrite consume_while_app.
  - destruct name as [|c name]; [done|]. simpl in *. apply andb_true_iff in Hn as [Hc _].
    by apply name_not_blank.
Qed.

(** *** Lists *)

Definition drop_blank (s : string) : string := snd (span is_whitespace s).

(** A tail after which a list of identifiers ends. *)
Definition ends_ids (tail : string) : Prop :=
  match drop_blank tail with String c _ => c <> "#"%char | EmptyString => True end.

Lemma try_parse_id_none tail : ends_ids tail -> try_parse_id tail = Ok (None, drop_blank tail).
Proof.
  unfold ends_ids. intros Ht. unfold try_parse_id, mbind, parser_bind, skip_whitespace.
  cbv beta iota. fold (drop_blank tail). destruct (drop_blank tail) as [|c s]; [done|].
  unfold try_consume, try_consume_predicate. destruct (Ascii.eqb_spec "#" c) as [<-|]; done.
Qed.

Lemma list_stops {A} (f : A -> string) p l tail :
  (forall x r, stops p (f x +:+ r)) -> stops p tail -> stops p (render_list f l tail).
Proof. intros Hf Ht. destruct l; [done|]. apply Hf. Qed.

Lemma parse_ids_list ids tail s fuel :
  forallb is_u32 ids = true -> stops is_ascii_hexdigit tail -> ends_ids tail ->
  length ids < fuel ->
  parse_ids fuel s (render_list render_id ids tail) = Ok (ids, s, drop_blank tail).
Proof.
  intros Hi Hs Ht. revert fuel. induction ids as [|i ids IH]; intros fuel Hf;
    (destruct fuel as [|fuel]; [simpl in Hf; lia|]).
  - cbv [parse_ids mbind handler_bind parse]. simpl. by rewrite try_parse_id_none.
  - simpl in Hi. apply andb_true_iff in Hi as [Hi Hids].
    cbn [parse_ids]. unfold mbind at 1, handler_bind at 1, parse at 1.
    change (render_list render_id (i :: ids) tail)
      with (render_id i +:+ render_list render_id ids tail).
    rewrite render_id_app; [|done|by apply list_stops].
    unfold mbind, handler_bind. rewrite IH; [done|done|]. simpl in Hf. lia.
Qed.

Lemma term_ref_app t rest :
  term_ok t = true -> stops is_ascii_hexdigit rest ->
  try_parse_quant_term (render_term_ref t +:+ rest) = Ok (Some t, rest).
Proof.
  intros Ht Hr. unfold try_parse_quant_term, mbind, parser_bind. destruct t as [t|a b]; simpl in Ht.
  - unfold render_term_ref, render_id. rewrite string_app_assoc.
    change (" #" +:+ show t +:+ rest) with (String " " (String "#" (show t +:+ rest))).
    rewrite skip_blank by done.
    change (try_consume "(" (String "#" (show t +:+ rest)))
      with (@Ok Error _ (false, String "#" (show t +:+ rest))). cbv beta iota.
    by rewrite id_app.
  - apply andb_true_iff in Ht as [Hab Hne]. apply andb_true_iff in Hab as [Ha Hb].
    apply negb_true_iff, N.eqb_neq in Hne. unfold render_term_ref.
    rewrite !string_app_assoc.
    change (" (#" +:+ show a +:+ " #" +:+ show b +:+ ")" +:+ rest)
      with (String " " (String "(" (String "#" (show a +:+
              String " " (String "#" (show b +:+ String ")" rest)))))).
    rewrite skip_blank by done.
    lazymatch goal with |- context [try_consume "(" (String "(" ?x)] =>
      change (try_consume "(" (String "(" x)) with (@Ok Error _ (true, x)) end.
    cbv beta iota. rewrite parse_id_app, parse_id_blank by done.
    change (consume ")" (String ")" rest)) with (@Ok Error _ (tt, rest)).
    cbv beta iota. by rewrite bool_decide_eq_true_2.
Qed.

Lemma run_app evs evs' s : run (evs ++ evs') s = (s1 ← run evs s; run evs' s1).
Proof.
  revert s. induction evs as [|e evs IH]; intros s; [done|]. cbn [run app].
  destruct (apply_event e s); cbn [mbind outcome_bind]; [apply IH|done..].
Qed.

Lemma match_terms_list q matched s fuel :
  forallb term_ok matched = true -> length matched < fuel ->
  match_terms fuel q s (render_list render_term_ref matched nl)
  = (s' ← run (mjoin (term_events q <$> matched)) s; Ok (tt, s', "")).
Proof.
  intros Hm. revert s fuel. induction matched as [|t matched IH]; intros s fuel Hf;
    (destruct fuel as [|fuel]; [simpl in Hf; lia|]); [done|].
  simpl in Hm. apply andb_true_iff in Hm as [Ht Hm].
  cbn [match_terms]. unfold mbind at 1, handler_bind at 1, parse at 1.
  change (render_list render_term_ref (t :: matched) nl)
    with (render_term_ref t +:+ render_list render_term_ref matched nl).
  rewrite term_ref_app; [|done|].
  2: { apply list_stops; [by intros []|done]. }
  rewrite fmap_cons. cbn [mjoin list_join]. rewrite run_app.
  destruct t as [t|a b]; cbn [term_events run apply_event]; unfold mbind, handler_bind, modify.
  - destruct (register_matched_trigger_term q t s) as [s1| |]; simpl; [|done..].
    apply IH; [done|]. simpl in Hf. lia.
  - destruct (register_matched_trigger_term q a s) as [s1| |]; simpl; [|done..].
    destruct (register_matched_trigger_term q b s1) as [s2| |]; simpl; [|done..].
    apply IH; [done|]. simpl in Hf. lia.
Qed.

(** ** Lines are read back as their events *)

Definition level_check (l : line) (s : State) : outcome Error unit :=
  match line_level l with
  | Some level => assert_that "assertion `left == right` failed"
                    (current_active_scopes_count s =? level)%N
  | None => Ok tt
  end.

(** What a line means to the state. *)
Definition interpret (settings : Settings) (l : line) (s : State) : outcome Error State :=
  _ ← level_check l s; run (line_events settings l) s.

Lemma process_line_kind settings text s kind rest :
  parse_event_kind text = Ok (kind, rest) ->
  process_line settings text s
  = (r ← process_event settings kind (S (String.length text)) s rest; Ok (r.1.2)).
Proof. intros Hk. unfold process_line, mbind at 2, handler_bind at 1, parse at 1. by rewrite Hk. Qed.

Lemma string_length_app a b : String.length (a +:+ b) = String.length a + String.length b.
Proof. induction a; simpl; congruence. Qed.

Lemma render_list_length {A} (f : A -> string) l tail :
  (forall x, f x <> "") ->
  length l + String.length tail <= String.length (render_list f l tail).
Proof.
  intros Hf. induction l as [|x l IH]; [done|].
  change (render_list f (x :: l) tail) with (f x +:+ render_list f l tail).
  rewrite string_length_app. specialize (Hf x). destruct (f x); [done|]. simpl. lia.
Qed.

Lemma pop_by_one_run n s : pop_by_one n s = run (replicate n (EPop 1)) s.
Proof.
  revert s. induction n as [|n IH]; intros s; [done|]. cbn [pop_by_one run replicate apply_event].
  destruct (pop_scopes 1 s); [apply IH | done..].
Qed.

Lemma run_one e s : run [e] s = apply_event e s.
Proof. cbn [run]. by destruct (apply_event e s). Qed.

Section reading.
Variables (settings : Settings) (s : State).

Lemma read_push level :
  is_u32 level = true ->
  process_line settings (render (LPush level)) s = interpret settings (LPush level) s.
Proof.
  intros Hl. rewrite (process_line_kind _ _ _ Push (String " " (show level +:+ nl))) by done.
  unfold interpret. cbn [line_events]. rewrite run_one. cbn [process_event apply_event].
  unfold on_push, mbind at 2, handler_bind at 1, parse at 1.
  change (String " " (show level +:+ nl)) with (" " +:+ show level +:+ nl).
  rewrite blank_number by done. simpl. unfold mbind, handler_bind, expect_scopes, modify, level_check.
  simpl. destruct (_ =? _)%N; simpl; [|done]. by destruct (push_scope s).
Qed.

Lemma read_pop n level :
  is_u32 n && is_u32 level = true ->
  process_line settings (render (LPop n level)) s = interpret settings (LPop n level) s.
Proof.
  intros [Hn Hl]%andb_true_iff.
  rewrite (process_line_kind _ _ _ Pop (String " " (show n +:+ " " +:+ show level +:+ nl))) by done.
  unfold interpret. cbn [process_event line_events].
  unfold on_pop, mbind at 2, handler_bind at 1, parse at 1.
  change (String " " (show n +:+ " " +:+ show level +:+ nl))
    with (" " +:+ show n +:+ " " +:+ show level +:+ nl).
  rewrite blank_number by done. unfold mbind at 2, handler_bind at 1, parse at 1.
  rewrite blank_number by done. simpl. unfold mbind, handler_bind, expect_scopes, modify, level_check.
  simpl. destruct (_ =? _)%N; simpl; [|done]. destruct (pop_scopes_by_one settings).
  - rewrite pop_by_one_run. by destruct (run _ s).
  - cbn [run apply_event]. by destruct (pop_scopes n s).
Qed.

Lemma read_quant q name :
  is_u32 q && is_name name = true ->
  process_line settings (render (LQuant q name)) s = interpret settings (LQuant q name) s.
Proof.
  intros [Hq Hn]%andb_true_iff.
  rewrite (process_line_kind _ _ _ MkQuant
    (String " " (String "#" (show q +:+ String " " (name +:+ nl))))) by done.
  cbn [process_event]. unfold on_mk_quant. rewrite parse_id_blank by done.
  unfold mbind, outcome_bind, handler_bind, parse. by rewrite name_app by done.
Qed.

Lemma read_app t name args :
  is_u32 t && is_name name && forallb is_u32 args = true ->
  process_line settings (render (LApp t name args)) s = interpret settings (LApp t name args) s.
Proof.
  intros [[Ht Hn]%andb_true_iff Ha]%andb_true_iff.
  rewrite (process_line_kind _ _ _ MkApp
    (String " " (String "#" (show t +:+ String " " (name +:+ render_list render_id args nl)))))
    by done.
  set (fuel := S (String.length _)).
  assert (length args < fuel) as Hf.
  { unfold fuel. cbn [render]. rewrite !string_length_app.
    pose proof (render_list_length render_id args nl ltac:(done)). simpl in *. lia. }
  clearbody fuel. unfold interpret. cbn [process_event line_events].
  unfold on_mk_app, mbind at 2, handler_bind at 1, parse at 1.
  rewrite blank_id by done.
  unfold mbind at 2, handler_bind at 1, parse at 1. rewrite name_app; [|done|by apply list_stops].
  destruct (starts_with "basic_block_marker" name); [done|].
  unfold mbind at 2, handler_bind at 1. by rewrite parse_ids_list.
Qed.

Lemma read_var t index :
  is_u32 t && is_u32 index = true ->
  process_line settings (render (LVar t index)) s = interpret settings (LVar t index) s.
Proof.
  intros [Ht Hi]%andb_true_iff.
  rewrite (process_line_kind _ _ _ MkVar
    (String " " (String "#" (show t +:+ " " +:+ show index +:+ nl)))) by done.
  cbn [process_event]. unfold on_mk_var, mbind at 2, handler_bind at 1, parse at 1.
  rewrite blank_id by done. unfold mbind at 2, handler_bind at 1, parse at 1.
  by rewrite blank_number.
Qed.

Lemma drop_newlines_value value :
  all_chars (fun c => negb (Ascii.eqb c newline)) value = true ->
  drop_newlines (value +:+ nl) = value.
Proof.
  induction value as [|c value IH]; [done|]. simpl. intros [Hc Hv]%andb_true_iff.
  apply negb_true_iff in Hc. rewrite Hc. f_equal. by apply IH.
Qed.

Lemma value_stops value rest : is_value value = true -> stops is_whitespace (value +:+ rest).
Proof.
  destruct value as [|c value]; [done|]. cbn. intros [Hc _]%andb_true_iff.
  by apply negb_true_iff in Hc.
Qed.

Lemma read_meaning t ident value :
  is_u32 t && is_name ident && is_value value = true ->
  process_line settings (render (LMeaning t ident value)) s
  = interpret settings (LMeaning t ident value) s.
Proof.
  intros [[Ht Hn]%andb_true_iff Hv]%andb_true_iff. pose proof Hv as [_ Hl]%andb_true_iff.
  rewrite (process_line_kind _ _ _ AttachMeaning
    (String " " (String "#" (show t +:+ String " " (ident +:+ String " " (value +:+ nl)))))) by done.
  cbn [process_event]. unfold on_attach_meaning, mbind at 2, handler_bind at 1, parse at 1.
  rewrite parse_id_blank by done. unfold mbind at 2, handler_bind at 1, parse at 1.
  rewrite name_app by done. unfold mbind at 2, handler_bind at 1, parse at 1.
  rewrite skip_blank by by apply value_stops.
  unfold mbind at 2, handler_bind at 1, parse at 1, remaining. by rewrite drop_newlines_value.
Qed.

Lemma read_theory t :
  process_line settings (render (LTheory t)) s = interpret settings (LTheory t) s.
Proof.
  rewrite (process_line_kind _ _ _ InstDiscovered
    (" theory-solving 0x0 " +:+ theory_name t +:+ "# ; #1" +:+ nl)) by done.
  unfold interpret. cbn [line_events]. rewrite run_one. cbn [process_event apply_event].
  destruct t; cbv -[register_inst_discovered]; by destruct (register_inst_discovered _ s).
Qed.

Lemma read_builtin :
  process_line settings (render LBuiltin) s = interpret settings LBuiltin s.
Proof.
  rewrite (process_line_kind _ _ _ NewMatch (" 0x0 datatype#1 ; #1" +:+ nl)) by done.
  unfold interpret. cbn [line_events]. rewrite run_one. cbn [process_event apply_event].
  cbv -[register_matched_quantifier]. by destruct (register_matched_quantifier _ s).
Qed.

Lemma fingerprint_app fp rest :
  is_fingerprint fp = true -> stops is_ascii_hexdigit rest ->
  exists n, parse_hex_number (" 0x" +:+ fp +:+ rest) = Ok (n, rest) /\ (n =? 0)%N = false.
Proof.
  unfold is_fingerprint. intros [Hc Hp]%andb_true_iff Hr.
  destruct (parse_uint 16 u64_max fp) as [n|] eqn:Hn; [|done]. exists n.
  apply negb_true_iff in Hp. split; [|done]. unfold parse_hex_number, mbind, parser_bind.
  change (" 0x" +:+ fp +:+ rest) with (String " " (String "0" (String "x" (fp +:+ rest)))).
  rewrite skip_blank by done.
  change (consume "0" (String "0" (String "x" (fp +:+ rest))))
    with (@Ok Error _ (tt, String "x" (fp +:+ rest))). cbv beta iota.
  change (try_consume "x" (String "x" (fp +:+ rest))) with (@Ok Error _ (true, fp +:+ rest)).
  cbv beta iota. rewrite consume_while_app; [|done| |done]; [|by intros ->]. by rewrite Hn.
Qed.

Lemma read_match fp q trigger ids matched :
  is_fingerprint fp && is_u32 q && is_u32 trigger && forallb is_u32 ids
    && forallb term_ok matched = true ->
  process_line settings (render (LMatch fp q trigger ids matched)) s
  = interpret settings (LMatch fp q trigger ids matched) s.
Proof.
  intros [[[[Hfp Hq]%andb_true_iff Ht]%andb_true_iff Hi]%andb_true_iff Hm]%andb_true_iff.
  set (tail := " ;" +:+ render_list render_term_ref matched nl).
  rewrite (process_line_kind _ _ _ NewMatch
    (" 0x" +:+ fp +:+ String " " (String "#" (show q +:+ String " " (String "#" (show trigger
       +:+ render_list render_id ids tail)))))) by done.
  set (fuel := S (String.length _)).
  assert (length ids < fuel /\ length matched < fuel) as [Hf1 Hf2].
  { unfold fuel. cbn [render]. fold tail. rewrite !string_length_app.
    pose proof (render_list_length render_id ids tail ltac:(done)).
    pose proof (render_list_length render_term_ref matched nl ltac:(by intros [])).
    assert (String.length tail = 2 + String.length (render_list render_term_ref matched nl)) by done.
    lia. }
  clearbody fuel. unfold interpret. cbn [process_event line_events].
  destruct (fingerprint_app fp (String " " (String "#" (show q +:+ String " " (String "#"
    (show trigger +:+ render_list render_id ids tail))))) Hfp) as (n & Hn & Hn0); [done|].
  unfold on_new_match, mbind at 2, handler_bind at 1, parse at 1. rewrite Hn, Hn0. clear Hn Hn0.
  unfold mbind at 2, handler_bind at 1, parse at 1. rewrite parse_id_blank by done.
  unfold mbind at 2, handler_bind at 1, modify at 1. unfold level_check.
  cbn [line_level run apply_event mbind outcome_bind].
  destruct (register_matched_quantifier q s) as [s1|e|m]; cbn [mbind outcome_bind]; [|done..].
  unfold mbind at 2, handler_bind at 1, parse at 1.
  rewrite parse_id_blank; [|done|by apply list_stops].
  unfold mbind at 2, handler_bind at 1.
  rewrite parse_ids_list by done.
  unfold mbind at 2, handler_bind at 1, parse at 1.
  change (consume ";" (drop_blank tail))
    with (@Ok Error _ (tt, render_list render_term_ref matched nl)).
  unfold mbind at 2, handler_bind at 1. rewrite match_terms_list by done.
  by destruct (run _ s1).
Qed.
End reading.

(** ** Logs *)

Lemma process_line_interpret settings l s :
  line_ok l = true -> process_line settings (render l) s = interpret settings l s.
Proof.
  destruct l; cbn [line_ok]; intros Hl.
  - by apply read_push.
  - by apply read_pop.
  - by apply read_quant.
  - by apply read_app.
  - by apply read_var.
  - by apply read_meaning.
  - by apply read_match.
  - apply read_builtin.
  - apply read_theory.
  - unfold interpret. cbn [line_events]. rewrite run_one. done.
Qed.

Definition log_events (settings : Settings) (ls : list line) : list event :=
  mjoin (line_events settings <$> ls).

(** The recorded numbers of active scopes are those of the history. *)
Fixpoint levels_from (settings : Settings) (H : list event) (ls : list line) : bool :=
  match ls with
  | [] => true
  | l :: ls =>
      match line_level l with Some level => (now (instance_count H) =? level)%N | None => true end
      && levels_from settings (H ++ line_events settings l) ls
  end.

(** Well-formed lines of a valid history. *)
Definition log_ok (settings : Settings) (ls : list line) : bool :=
  forallb line_ok ls && levels_from settings init_events ls && valid (log_events settings ls).

Lemma valid_from_app H evs evs' :
  valid_from H (evs ++ evs') = valid_from H evs && valid_from (H ++ evs) evs'.
Proof.
  revert H. induction evs as [|e evs IH]; intros H; simpl; [by rewrite app_nil_r|].
  by rewrite IH, <- app_assoc, andb_assoc.
Qed.

Lemma log_processed settings H ls s :
  tracked H s -> forallb line_ok ls = true -> levels_from settings H ls = true ->
  valid_from H (log_events settings ls) = true ->
  exists s', process_lines settings (render <$> ls) s = Ok s' /\
    run (log_events settings ls) s = Ok s' /\ tracked (H ++ log_events settings ls) s'.
Proof.
  revert H s. induction ls as [|l ls IH]; intros H s Ht Hok Hl Hv.
  - exists s. split_and!; [done..|]. unfold log_events. simpl. by rewrite app_nil_r.
  - unfold log_events in *. cbn [forallb levels_from fmap list_fmap mjoin list_join] in *.
    apply andb_true_iff in Hok as [Hlok Hok]. apply andb_true_iff in Hl as [Hlev Hl].
    rewrite valid_from_app in Hv. apply andb_true_iff in Hv as [Hv1 Hv2].
    destruct (proj1 (valid_run _ _ s Ht) Hv1) as (s1 & Hr1 & Ht1).
    destruct (IH _ s1 Ht1 Hok Hl Hv2) as (s' & Hp & Hr & Ht').
    exists s'. cbn [process_lines]. rewrite process_line_interpret by done.
    assert (interpret settings l s = Ok s1) as ->.
    { unfold interpret, level_check. rewrite (tr_level _ _ Ht instances never _).
      fold (instance_count H). destruct (line_level l); [rewrite Hlev|]; done. }
    rewrite run_app, Hr1, app_assoc. done.
Qed.

Lemma all_but_last_snoc {A} (l : list A) x : all_but_last (l ++ [x]) = l.
Proof. induction l as [|y l IH]; [done|]. destruct l; [done|]. simpl in *. by rewrite IH. Qed.

(** ** Properties *)




Example sample_log : list line :=
  [LQuant 7 "k!7"; LPush 0; LApp 3 "f" [1%N; 2%N]; LMatch "7f3a" 7 1 [4%N] [Single 3];
   LPush 1; LMatch "7f3a" 7 1 [] []; LInstance; LBuiltin; LTheory Arith; LPop 2 2].

