(* ===== verification/TaskCache.v ===== *)
(** * Task encoders

    [task-encoder/src]: every encoder turns tasks into outputs, at most once per
    task key, through a cache; an encoder may require the reference or the full
    output of other tasks, cyclically, and may ask for a continuation to run
    once other tasks are requested.

    The caches of all encoders are one map here, from keys that name their
    encoder to states, in insertion order. What an encoder does in
    [do_encode_full] is a program over the operations that
    [TaskEncoderDependencies] offers, in which an error ends the program, as the
    [?] after every such call does. *)
From S2P Require Import Prelude.

(** ** Maps in insertion order

    [FxIndexMap]: inserting at a present key keeps its position. *)
Section index_map.
Context {K A : Type} `{EqDecision K}.

Fixpoint im_get (k : K) (m : list (K * A)) : option A :=
match m with
| [] => None
| (k', a) :: m => if bool_decide (k = k') then Some a else im_get k m
end.

Fixpoint im_insert (k : K) (a : A) (m : list (K * A)) : list (K * A) :=
match m with
| [] => [(k, a)]
| (k', b) :: m => if bool_decide (k = k') then (k, a) :: m else (k', b) :: im_insert k a m
end.

Definition im_remove (k : K) (m : list (K * A)) : list (K * A) :=
filter (fun p => p.1 <> k) m.

Lemma im_get_insert k k' a m :
im_get k (im_insert k' a m) = if bool_decide (k = k') then Some a else im_get k m.
Proof.
induction m as [|[k2 b] m IH]; simpl; [done|]. repeat case_bool_decide; simpl; subst;
  repeat case_bool_decide; subst; congruence.
Qed.

Lemma im_get_remove k k' m :
im_get k (im_remove k' m) = if bool_decide (k = k') then None else im_get k m.
Proof.
  unfold im_remove. induction m as [|[k2 b] m IH]; [by case_bool_decide|].
  rewrite filter_cons. simpl. destruct (decide (k2 <> k')) as [Hne|He]; simpl; rewrite IH;
    repeat case_bool_decide; subst; naive_solver.
Qed.

Lemma im_insert_keys k a m :
(im_insert k a m).*1 = if bool_decide (k ∈ m.*1) then m.*1 else m.*1 ++ [k].
Proof.
  induction m as [|[k2 b] m IH]; [done|]. cbn [im_insert].
  destruct (bool_decide_reflect (k = k2)) as [<-|Hk]; cbn [fmap list_fmap fst].
  - rewrite bool_decide_true; [done | set_solver].
  - rewrite IH. destruct (bool_decide_reflect (k ∈ m.*1)) as [Hm|Hm].
    + rewrite bool_decide_true; [done | set_solver].
    + rewrite bool_decide_false; [done | set_solver].
Qed.

Lemma im_get_Some_keys k m : is_Some (im_get k m) <-> k ∈ m.*1.
Proof.
induction m as [|[k2 b] m IH]; simpl; [split; [by intros [??]|set_solver]|].
rewrite elem_of_cons, <- IH. case_bool_decide; subst; [|naive_solver].
split; [by left|]. intros _. by eexists.
Qed.

Lemma im_get_elem k a m : NoDup m.*1 -> im_get k m = Some a <-> (k, a) ∈ m.
Proof.
induction m as [|[k2 b] m IH]; simpl; intros Hnd; [set_solver|].
apply NoDup_cons in Hnd as [Hk Hnd]. rewrite elem_of_cons, <- (IH Hnd).
case_bool_decide; subst; [|naive_solver]. split; [naive_solver|].
intros [[= ->]|Hget]; [done|]. destruct Hk. apply im_get_Some_keys. by eexists.
Qed.
End index_map.

Section task_encoder.
Context {T K Ref Loc Dep EErr QErr Span : Type} `{EqDecision K}.

(** ** Results *)

Abbreviation Chain := (list (string * string * list Span)) (only parsing).

Inductive TaskEncoderError :=
| EnqueueingError (e : QErr)
| EncodingError (e : EErr)
| DependencyError (chain : Chain)
| CyclicError
| PanicError (msg : string).

(** [EncodeFullError]. *)
Inductive EncodeFullError :=
| AlreadyEncoded
| FullEncodingError (e : EErr) (output_dep : option Dep)
| FullDependencyError (chain : Chain).

Record TaskEncoderDependencies := { task_key : option K }.
Definition Dependencies_new : TaskEncoderDependencies := {| task_key := None |}.

(** ** Cache *)

Inductive TaskEncoderCacheState :=
| Enqueued
| Started (output_ref : Ref)
| Encoded (output_ref : Ref) (deps : TaskEncoderDependencies) (output_local : Loc)
  (output_dep : Dep)
| ErrorEnqueue (error : TaskEncoderError) (spans : list Span)
| ErrorEncode (output_ref : Ref) (deps : TaskEncoderDependencies) (error : TaskEncoderError)
  (output_dep : option Dep) (spans : list Span).

(** ** Continuations of triggers

  A continuation is what its closure does: requests of tasks and further
  registrations. [ATake] is the closure that [on_any_requested] registers for
  every key: it takes the shared continuation out of its slot, if it is still
  there. *)
Inductive action :=
| AEncode (t : T) (span : Span)
| AEnqueue (t : T)
| AOnTask (k : K) (f : list action)
| AOnAll (keys : list K) (f : list action)
| AOnAny (keys : list K) (f : list action)
| ATake (slot : nat).

Abbreviation Continuation := (list action) (only parsing).

Record TState := {
cache : list (K * TaskEncoderCacheState);
watchers : list (K * list Continuation);
pending : list Continuation;
slots : list (option Continuation);
}.

Definition TState_default : TState :=
{| cache := []; watchers := []; pending := []; slots := [] |}.

Definition set_cache (c : list (K * TaskEncoderCacheState)) (st : TState) : TState :=
{| cache := c; watchers := watchers st; pending := pending st; slots := slots st |}.
Definition set_pending (p : list Continuation) (st : TState) : TState :=
{| cache := cache st; watchers := watchers st; pending := p; slots := slots st |}.
Definition set_watchers (w : list (K * list Continuation)) (st : TState) : TState :=
{| cache := cache st; watchers := w; pending := pending st; slots := slots st |}.
Definition set_slots (s : list (option Continuation)) (st : TState) : TState :=
{| cache := cache st; watchers := watchers st; pending := pending st; slots := s |}.

Definition get (k : K) (st : TState) : option TaskEncoderCacheState := im_get k (cache st).
Definition put (k : K) (s : TaskEncoderCacheState) (st : TState) : TState :=
set_cache (im_insert k s (cache st)) st.
Definition contains_key (k : K) (st : TState) : bool :=
match get k st with Some _ => true | None => false end.

Definition queue (f : Continuation) (st : TState) : TState := set_pending (pending st ++ [f]) st.

Definition fire_watchers (k : K) (st : TState) : TState :=
match im_get k (watchers st) with
| Some fired => set_pending (pending st ++ fired) (set_watchers (im_remove k (watchers st)) st)
| None => st
end.

Definition on_task_requested (k : K) (f : Continuation) (st : TState) : TState :=
if contains_key k st then queue f st
else set_watchers (im_insert k (default [] (im_get k (watchers st)) ++ [f]) (watchers st)) st.

(** [keys.pop()] takes the last key. *)
Definition on_all_requested (keys : list K) (f : Continuation) (st : TState) : TState :=
match last keys with
| None => queue f st
| Some k => on_task_requested k [AOnAll (removelast keys) f] st
end.

Definition on_any_requested (keys : list K) (f : Continuation) (st : TState) : TState :=
let slot := length (slots st) in
let st := set_slots (slots st ++ [Some f]) st in
foldl (fun st k => on_task_requested k [ATake slot] st) st keys.

(** ** Programs of encoders *)

Inductive prog :=
| Done (l : Loc) (d : Dep)
| FailWith (e : EErr) (d : option Dep)
| PanicWith (msg : string)
| EmitRef (k : K) (r : Ref) (p : prog)
| RequireRef (t : T) (span : option Span) (p : Ref -> prog)
| RequireLocal (t : T) (span : option Span) (p : Loc -> prog)
| RequireDep (t : T) (span : option Span) (p : Dep -> prog)
| CheckCycle (p : prog)
| RegisterTask (k : K) (f : Continuation) (p : prog)
| RegisterAll (keys : list K) (f : Continuation) (p : prog)
| RegisterAny (keys : list K) (f : Continuation) (p : prog).

(** What an encoder provides. *)
Variable task_to_key : T -> K.
Variable do_encode_full : K -> prog.
Variables ENCODER_NAME describe_task : T -> string.
Variable describe_error : EErr -> string.
Variable no_span : Span.

(** A computation may run out of fuel; a panic keeps the state it has reached. *)
Abbreviation result A := (option (outcome TaskEncoderError A * TState)).
Abbreviation full_result A := (option (outcome EncodeFullError A * TaskEncoderDependencies * TState)).

Definition EncodeOutput : Type := option (Ref * Loc * Dep).

Definition is_final (s : option TaskEncoderCacheState) : bool :=
match s with
| Some (Encoded _ _ _ _) | Some (ErrorEncode _ _ _ _ _) | Some (ErrorEnqueue _ _) => true
| _ => false
end.

(** [check_cycle]: whether the task of these dependencies is finished already. *)
Definition check_cycle (deps : TaskEncoderDependencies) (st : TState) : bool :=
match task_key deps with Some k => negb (is_final (get k st)) | None => true end.

(** The span of a failed requirement is recorded with the failed task. *)
Definition push_span (k : K) (span : Span) (st : TState) : TState :=
match get k st with
| Some (ErrorEncode r deps error d spans) =>
    put k (ErrorEncode r deps error d (spans ++ [span])) st
| Some (ErrorEnqueue error spans) => put k (ErrorEnqueue error (spans ++ [span])) st
| _ => st
end.

Definition error_chain (t : T) (span : option Span) (err : TaskEncoderError) : Chain :=
(ENCODER_NAME t, describe_task t, option_list span) ::
match err with
| EnqueueingError _ => [(ENCODER_NAME t, "? EnqueueingError"%string, [])]
| EncodingError err => [(ENCODER_NAME t, describe_error err, [])]
| DependencyError items => items
| CyclicError => [(ENCODER_NAME t, "? CyclicError"%string, [])]
| PanicError _ => [(ENCODER_NAME t, "? PanicError"%string, [])]
end.

Definition require_common {A} (deps : TaskEncoderDependencies) (t : T) (span : option Span)
  (res : outcome TaskEncoderError A * TState) : outcome EncodeFullError A * TState :=
let st := res.2 in
match res.1 with
| Ok a => (if check_cycle deps st then Ok a else Err AlreadyEncoded, st)
| Err err =>
    (Err (FullDependencyError (error_chain t span err)),
     match span with Some span => push_span (task_to_key t) span st | None => st end)
| Panic msg => (Panic msg, st)
end.

Definition output_ref_of (s : option TaskEncoderCacheState) : option Ref :=
match s with
| Some (Started r) | Some (Encoded r _ _ _) | Some (ErrorEncode r _ _ _ _) => Some r
| _ => None
end.

(** [encode_ref], over the [encode] of the same encoder. *)
Definition encode_ref (encode : T -> bool -> Span -> TState -> result EncodeOutput)
  (t : T) (span : Span) (st : TState) : result Ref :=
let k := task_to_key t in
match output_ref_of (get k st) with
| Some r => Some (Ok r, st)
| None =>
    match encode t false span st with
    | None => None
    | Some (Panic msg, st) => Some (Panic msg, st)
    | Some (Ok _, st) | Some (Err (DependencyError _), st) =>
        match output_ref_of (get k st) with
        | Some r => Some (Ok r, st)
        | None => Some (Panic "output ref not found after encoding", st)
        end
    | Some (Err err, st) => Some (Err err, st)
    end
end.

Definition map_output {A} (f : Ref * Loc * Dep -> A)
  (res : outcome TaskEncoderError EncodeOutput * TState) : outcome TaskEncoderError A * TState :=
(match res.1 with
 | Ok (Some out) => Ok (f out)
 | Ok None => Panic "called `Option::unwrap()` on a `None` value"
 | Err e => Err e
 | Panic msg => Panic msg
 end, res.2).

Definition emit_output_ref (deps : TaskEncoderDependencies) (k : K) (r : Ref) (st : TState) :
  outcome EncodeFullError unit * TaskEncoderDependencies * TState :=
match task_key deps with
| Some _ => (Panic "output ref already set for task key", {| task_key := Some k |}, st)
| None =>
    let deps := {| task_key := Some k |} in
    if check_cycle deps st then
      (match get k st with
       | Some Enqueued | Some (Started _) => Ok tt
       | _ => Panic "assertion failed: E::with_cache(..)"
       end, deps, put k (Started r) st)
    else (Err AlreadyEncoded, deps, st)
end.

Section run.
Variable encode : T -> bool -> Span -> TState -> result EncodeOutput.

Definition the_span (span : option Span) : Span := default no_span span.

Fixpoint run_prog (p : prog) (deps : TaskEncoderDependencies) (st : TState) :
full_result (Loc * Dep) :=
match p with
| Done l d => Some (Ok (l, d), deps, st)
| FailWith e d => Some (Err (FullEncodingError e d), deps, st)
| PanicWith msg => Some (Panic msg, deps, st)
| EmitRef k r p =>
  match emit_output_ref deps k r st with
  | (Ok _, deps, st) => run_prog p deps st
  | (Err e, deps, st) => Some (Err e, deps, st)
  | (Panic msg, deps, st) => Some (Panic msg, deps, st)
  end
| RequireRef t span p =>
  match encode_ref encode t (the_span span) st with
  | None => None
  | Some res =>
      match require_common deps t span res with
      | (Ok r, st) => run_prog (p r) deps st
      | (Err e, st) => Some (Err e, deps, st)
      | (Panic msg, st) => Some (Panic msg, deps, st)
      end
  end
| RequireLocal t span p =>
  match encode t true (the_span span) st with
  | None => None
  | Some res =>
      match require_common deps t span (map_output (fun out => out.1.2) res) with
      | (Ok l, st) => run_prog (p l) deps st
      | (Err e, st) => Some (Err e, deps, st)
      | (Panic msg, st) => Some (Panic msg, deps, st)
      end
  end
| RequireDep t span p =>
  match encode t true (the_span span) st with
  | None => None
  | Some res =>
      match require_common deps t span (map_output snd res) with
      | (Ok d, st) => run_prog (p d) deps st
      | (Err e, st) => Some (Err e, deps, st)
      | (Panic msg, st) => Some (Panic msg, deps, st)
      end
  end
| CheckCycle p =>
  if check_cycle deps st then run_prog p deps st else Some (Err AlreadyEncoded, deps, st)
| RegisterTask k f p => run_prog p deps (on_task_requested k f st)
| RegisterAll keys f p => run_prog p deps (on_all_requested keys f st)
| RegisterAny keys f p => run_prog p deps (on_any_requested keys f st)
end.
End run.

(** The entry of a task with an output, as the caller gets it. *)
Definition give {A} (need_output : bool) (out : A) : option A :=
if need_output then Some out else None.

(** What [encode] answers from the cache. *)
Definition in_cache (need_output : bool) (s : option TaskEncoderCacheState) :
  option (outcome TaskEncoderError EncodeOutput) :=
match s with
| Some (ErrorEnqueue error _) | Some (ErrorEncode _ _ error _ _) => Some (Err error)
| Some (Encoded r _ l d) => Some (Ok (give need_output (r, l, d)))
| Some Enqueued | Some (Started _) | None => None
end.

Definition enqueue_state (k : K) (st : TState) : TState :=
if contains_key k st then st else put k Enqueued (fire_watchers k st).

(** A panic of the encoder is caught and recorded as an error. *)
Definition record_panic (k : K) (span : Span) (msg : string) (st : TState) : TState :=
match get k st with
| Some (Started r) =>
    put k (ErrorEncode r Dependencies_new (PanicError msg) None [span]) st
| _ => put k (ErrorEnqueue (PanicError msg) [span]) st
end.

(** What [encode] does with the result of the encoder. *)
Definition finish (t : T) (need_output : bool) (span : Span)
  (res : outcome EncodeFullError (Loc * Dep)) (deps : TaskEncoderDependencies) (st : TState) :
  outcome TaskEncoderError EncodeOutput * TState :=
let k := task_to_key t in
match get k st with
| Some (Started r) | Some (Encoded r _ _ _) =>
    match res with
    | Ok (l, d) =>
        (Ok (give need_output (r, l, d)), put k (Encoded r deps l d) st)
    | Err AlreadyEncoded =>
        (match get k st with
         | Some (Encoded r _ l d) => Ok (give need_output (r, l, d))
         | Some (ErrorEnqueue error _) | Some (ErrorEncode _ _ error _ _) => Err error
         | Some (Started _) | Some Enqueued => Panic "encoder did not finish for task"
         | None => Panic "called `Option::unwrap()` on a `None` value"
         end, st)
    | Err (FullDependencyError stack) =>
        let error := DependencyError ((ENCODER_NAME t, describe_task t, []) :: stack) in
        (Err error, put k (ErrorEncode r deps error None [span]) st)
    | Err (FullEncodingError e d) =>
        (Err (EncodingError e), put k (ErrorEncode r deps (EncodingError e) d [span]) st)
    | Panic msg => (Panic msg, st)
    end
| _ => (Panic "encoder did not provide output ref for task", st)
end.

(** [encode]. The recursion through the encoders is bounded by [fuel]. *)
Fixpoint encode (fuel : nat) (t : T) (need_output : bool) (span : Span) (st : TState) :
  result EncodeOutput :=
match fuel with
| 0 => None
| S fuel =>
    let k := task_to_key t in
    match in_cache need_output (get k st) with
    | Some res => Some (res, st)
    | None =>
        match run_prog (encode fuel) (do_encode_full k) Dependencies_new (enqueue_state k st) with
        | None => None
        | Some (Panic msg, _, st) => Some (Err (PanicError msg), record_panic k span msg st)
        | Some (res, deps, st) => Some (finish t need_output span res deps st)
        end
    end
end.

(** [enqueue]. *)
Definition enqueue (t : T) (st : TState) : TState := enqueue_state (task_to_key t) st.

(** ** Triggers *)

(** A continuation runs with the errors of its requests ignored; a panic ends
  the drain. *)
Definition run_action (fuel : nat) (a : action) (st : TState) : option (outcome unit unit * TState) :=
match a with
| AEncode t span =>
    match encode fuel t false span st with
    | None => None
    | Some (Panic msg, st) => Some (Panic msg, st)
    | Some (_, st) => Some (Ok tt, st)
    end
| AEnqueue t => Some (Ok tt, enqueue t st)
| AOnTask k f => Some (Ok tt, on_task_requested k f st)
| AOnAll keys f => Some (Ok tt, on_all_requested keys f st)
| AOnAny keys f => Some (Ok tt, on_any_requested keys f st)
| ATake _ => Some (Ok tt, st)
end.

(** Taking the continuation of a slot replaces the action by its content. *)
Definition expand_action (a : action) (st : TState) : option (Continuation * TState) :=
match a with
| ATake i =>
    match slots st !! i with
    | Some (Some f) => Some (f, set_slots (<[i := None]> (slots st)) st)
    | _ => Some ([], st)
    end
| _ => None
end.

Fixpoint run_continuation (fuel : nat) (f : Continuation) (st : TState) :
  option (outcome unit unit * TState) :=
match fuel with
| 0 => None
| S fuel' =>
    match f with
    | [] => Some (Ok tt, st)
    | a :: f =>
        match expand_action a st with
        | Some (g, st) => run_continuation fuel' (g ++ f) st
        | None =>
            match run_action fuel' a st with
            | Some (Ok _, st) => run_continuation fuel' f st
            | res => res
            end
        end
    end
end.

Fixpoint drain_triggers (fuel : nat) (st : TState) : option (outcome unit unit * TState) :=
match fuel with
| 0 => None
| S fuel' =>
    match pending st with
    | [] => Some (Ok tt, st)
    | f :: rest =>
        match run_continuation fuel' f (set_pending rest st) with
        | Some (Ok _, st) => drain_triggers fuel' st
        | res => res
        end
    end
end.

(** ** A crate *)

Inductive DefKind := DefFn | DefAssocFn | DefTrait | DefImpl (of_trait : bool) | DefOther.

(** An item of the crate, with the tasks its encoding would be and what the
    queries answer about it: whether it is a specification function, and whether
    its contract makes it pure and trusted. *)
Record item := {
  def_kind : DefKind;
  method_task : T; trait_task : T; impl_task : T;
  is_spec_fn : bool;
  proc_spec : option (bool * bool);
}.

(** The task of a function with a body: specification functions and trusted
    pure functions have none. *)
Definition body_task (i : item) : option T :=
  match def_kind i with
  | DefFn | DefAssocFn =>
      if is_spec_fn i then None
      else let '(is_pure, is_trusted) := default (false, false) (proc_spec i) in
           if is_trusted && is_pure then None else Some (method_task i)
  | _ => None
  end.

Definition impl_task_of (i : item) : option T :=
  match def_kind i with
  | DefTrait => Some (trait_task i)
  | DefImpl true => Some (impl_task i)
  | _ => None
  end.

(** [encode] for every task, where an error is ignored or, with [unwrap], a panic. *)
Fixpoint encode_each (fuel : nat) (unwrap : bool) (tasks : list T) (st : TState) :
    option (outcome unit unit * TState) :=
  match tasks with
  | [] => Some (Ok tt, st)
  | t :: tasks =>
      match encode fuel t false no_span st with
      | None => None
      | Some (Panic msg, st) => Some (Panic msg, st)
      | Some (Err _, st) =>
          if unwrap then Some (Panic "called `Result::unwrap()` on an `Err` value", st)
          else encode_each fuel unwrap tasks st
      | Some (Ok _, st) => encode_each fuel unwrap tasks st
      end
  end.

Definition encode_all_in_crate (fuel : nat) (body_owners definitions : list item) (st : TState) :
    option (outcome unit unit * TState) :=
  match encode_each fuel false (omap body_task body_owners) st with
  | Some (Ok _, st) => encode_each fuel true (omap impl_task_of definitions) st
  | res => res
  end.

(** ** Outputs *)

Fixpoint all_outputs_local (c : list (K * TaskEncoderCacheState)) :
  outcome unit (list Loc * list (K * TaskEncoderError * list Span)) :=
match c with
| [] => Ok ([], [])
| (k, s) :: c =>
    match s with
    | Encoded _ _ l _ => r ← all_outputs_local c; Ok (l :: r.1, r.2)
    | ErrorEncode _ _ error _ spans | ErrorEnqueue error spans =>
        r ← all_outputs_local c; Ok (r.1, (k, error, spans) :: r.2)
    | Enqueued | Started _ => Panic "task encoder not completed"
    end
end.

(** [all_outputs_local_no_errors]: errors become messages of the program, at the
    first span recorded for the task. [debug] is the derived formatting. *)
Definition error_message (debug : K -> TaskEncoderError -> string)
    (e : K * TaskEncoderError * list Span) : string * Span :=
  let '(k, error, spans) := e in
  (match error with EncodingError err => describe_error err | other => debug k other end,
   default no_span (head spans)).

Definition all_outputs_local_no_errors (debug : K -> TaskEncoderError -> string)
    (c : list (K * TaskEncoderCacheState)) (encoder_errors : list (string * Span)) :
    outcome unit (list Loc * list (string * Span)) :=
  r ← all_outputs_local c;
  Ok (r.1, encoder_errors ++ (error_message debug <$> r.2)).

(** ** Cycles *)

Lemma get_put_same k s st : get k (put k s st) = Some s.
Proof. unfold get, put. simpl. by rewrite im_get_insert, bool_decide_true. Qed.

Lemma put_not_final k s st (C : K -> Prop) :
  is_final (Some s) = false -> (forall k, C k -> is_final (get k st) = false) ->
  forall k', C k' -> is_final (get k' (put k s st)) = false.
Proof.
  intros Hs Hst k' Hk'. unfold get, put. simpl. rewrite im_get_insert.
  case_bool_decide; [done | by apply Hst].
Qed.

Lemma enqueue_not_final k st (C : K -> Prop) :
  (forall k, C k -> is_final (get k st) = false) ->
  forall k', C k' -> is_final (get k' (enqueue_state k st)) = false.
Proof.
  intros Hst. unfold enqueue_state. destruct (contains_key k st); [done|].
  apply put_not_final; [done|]. intros k' Hk'. unfold get, fire_watchers.
  destruct (im_get k (watchers st)); by apply Hst.
Qed.

(** A cycle of full requirements is not detected: when every task of a set emits
    its reference and then requires the full output of a task of the set, the
    encoding of these tasks never returns, with any amount of fuel, instead of
    reporting a cyclic dependency. *)
Theorem full_output_cycle_never_returns (C : K -> Prop) fuel t need span st :
  (forall k, C k -> exists r t span p,
     do_encode_full k = EmitRef k r (RequireLocal t span p) /\ C (task_to_key t)) ->
  C (task_to_key t) -> (forall k, C k -> is_final (get k st) = false) ->
  encode fuel t need span st = None.
Proof.
  intros Hc. revert t need span st.
  induction fuel as [|fuel IH]; intros t need span st Ht Hst; [done|].
  cbn [encode]. set (k := task_to_key t) in *.
  assert (in_cache need (get k st) = None) as -> by (specialize (Hst k Ht); by destruct (get k st) as [[]|]).
  destruct (Hc k Ht) as (r & t' & sp & p & -> & Ht').
  pose proof (enqueue_not_final k st C Hst) as Hst0.
  assert (is_Some (get k (enqueue_state k st))) as [s Hs].
  { unfold enqueue_state, contains_key. destruct (get k st) eqn:Hk; [by rewrite Hk; eexists|].
    rewrite get_put_same. by eexists. }
  cbn [run_prog]. unfold emit_output_ref, check_cycle. cbn [Dependencies_new task_key].
  rewrite (Hst0 k Ht). cbn [negb]. pose proof (Hst0 k Ht) as Hn. rewrite Hs in Hn |- *.
  assert (encode fuel t' true (the_span sp) (put k (Started r) (enqueue_state k st)) = None) as Hnone
    by (apply IH; [done | by apply put_not_final]).
  destruct s; try discriminate Hn; by rewrite Hnone.
Qed.

(** When a requirement of a task runs the task again and that run fails, the
    outer run, which stops because the task is finished, panics: the branch that
    would return the recorded error is never reached. *)
Theorem failed_cycle_panics fuel t need span st deps st1 error :
  let k := task_to_key t in
  in_cache need (get k st) = None ->
  run_prog (encode fuel) (do_encode_full k) Dependencies_new (enqueue_state k st)
  = Some (Err AlreadyEncoded, deps, st1) ->
  in_cache need (get k st1) = Some (Err error) ->
  encode (S fuel) t need span st
  = Some (Panic "encoder did not provide output ref for task", st1).
Proof.
  intros k Hin Hr Herr. cbn [encode]. fold k. rewrite Hin, Hr. unfold finish. fold k.
  by destruct (get k st1) as [[]|].
Qed.
End task_encoder.

Module cycle_examples.
(** Task 0 requires the reference of task 1 and fails; task 1 requires the full
    output of task 0. Task 2 requires its own full output. *)
Definition program (k : nat) : @prog nat nat nat nat unit string nat :=
  match k with
  | 0 => EmitRef 0 100 (RequireRef 1 None (fun _ => FailWith "unsupported" None))
  | 1 => EmitRef 1 101 (RequireLocal 0 None (fun l => Done l tt))
  | 2 => EmitRef 2 102 (RequireLocal 2 None (fun l => Done l tt))
  | _ => EmitRef k (100 + k) (Done k tt)
  end.
Definition run_sample := TaskCache.encode (QErr:=Empty_set) id program (fun _ => "e"%string)
  (fun _ => "t"%string) id 0.

Lemma full_output_cycle_never_returns_witness : run_sample 1000 2 true 0 TState_default = None.
Proof.
  apply (full_output_cycle_never_returns id program (fun _ => "e"%string)
    (fun _ => "t"%string) id 0 (fun k => k = 2)); [|reflexivity|intros k _; reflexivity].
  intros k ->. exists 102, 2, None, (fun l => Done l tt). split; reflexivity.
Defined.

Lemma failed_cycle_panics_witness :
  exists st, run_sample 10 0 true 0 TState_default
    = Some (Panic "encoder did not provide output ref for task", st).
Proof.
  eexists. apply (failed_cycle_panics id program (fun _ => "e"%string) (fun _ => "t"%string) id 0 9 0
    true 0 TState_default {| task_key := Some 0 |} _ (EncodingError "unsupported"));
    [reflexivity | vm_compute; reflexivity | reflexivity].
Defined.
End cycle_examples.
