(* ===== verification/TaskSound.v ===== *)
(** * Correctness of the task cache

    Every run of an encoder is a sequence of steps of a small state machine on
    the cache; its invariants hold of every run. For encoders whose
    requirements have a solution, runs compute that solution, and they
    terminate when references are emitted first and full requirements are
    well founded. *)
From S2P Require Import Prelude TaskCache.

Section task_sound.
Context {T K Ref Loc Dep EErr QErr Span : Type} `{EqDecision K}.
Variable task_to_key : T -> K.
Variable do_encode_full : K -> @prog T K Ref Loc Dep EErr Span.
Variables ENCODER_NAME describe_task : T -> string.
Variable describe_error : EErr -> string.
Variable no_span : Span.

Abbreviation State := (@TState T K Ref Loc Dep EErr QErr Span) (only parsing).
Abbreviation CacheState := (@TaskEncoderCacheState K Ref Loc Dep EErr QErr Span) (only parsing).
Abbreviation TError := (@TaskEncoderError EErr QErr Span) (only parsing).
Abbreviation Output := (@EncodeOutput Ref Loc Dep) (only parsing).
Abbreviation encode :=
  (TaskCache.encode (QErr:=QErr) task_to_key do_encode_full ENCODER_NAME describe_task describe_error no_span).
Abbreviation run_prog :=
  (TaskCache.run_prog (QErr:=QErr) task_to_key ENCODER_NAME describe_task describe_error no_span).
Abbreviation finish := (TaskCache.finish (QErr:=QErr) task_to_key ENCODER_NAME describe_task).
Abbreviation encode_ref := (TaskCache.encode_ref (QErr:=QErr) (EErr:=EErr) (Dep:=Dep) (Loc:=Loc) task_to_key).
Abbreviation require_common := (TaskCache.require_common (QErr:=QErr) task_to_key ENCODER_NAME describe_task describe_error).
Abbreviation drain_triggers :=
  (TaskCache.drain_triggers (QErr:=QErr) task_to_key do_encode_full ENCODER_NAME describe_task describe_error no_span).

(** ** The state machine *)

Definition running (s : option CacheState) : bool :=
  match s with Some (Started _) | Some (Encoded _ _ _ _) => true | _ => false end.

(** A successor of a running entry, with the same reference. *)
Definition finished_from (s s' : option CacheState) : Prop :=
  running s = true /\ is_final s' = true /\ output_ref_of s' = output_ref_of s.

Inductive step : State -> State -> Prop :=
| step_enqueue k st : get k st = None -> step st (put k Enqueued (fire_watchers k st))
| step_emit k r st : is_Some (get k st) -> is_final (get k st) = false ->
    step st (put k (Started r) st)
| step_finish k s st : finished_from (get k st) (Some s) -> step st (put k s st)
| step_panic k span msg st : is_Some (get k st) -> step st (record_panic k span msg st)
| step_span k span st : step st (push_span k span st)
| step_request k f st : step st (on_task_requested k f st)
| step_queue f st : step st (queue f st)
| step_new_slot f st : step st (set_slots (slots st ++ [Some f]) st)
| step_take i st : step st (set_slots (<[i := None]> (slots st)) st).

(** An encoder emits only the reference of its own task. *)
Fixpoint emits_own (k : K) (p : @prog T K Ref Loc Dep EErr Span) : Prop :=
  match p with
  | EmitRef k' _ p => k' = k /\ emits_own k p
  | RequireRef _ _ p => forall r, emits_own k (p r)
  | RequireLocal _ _ p => forall l, emits_own k (p l)
  | RequireDep _ _ p => forall d, emits_own k (p d)
  | CheckCycle p | RegisterTask _ _ p | RegisterAll _ _ p | RegisterAny _ _ p => emits_own k p
  | Done _ _ | FailWith _ _ | PanicWith _ => True
  end.

Lemma get_put k k' s (st : State) :
  get k (put k' s st) = if bool_decide (k = k') then Some s else get k st.
Proof. apply im_get_insert. Qed.

Lemma get_put_eq k s (st : State) : get k (put k s st) = Some s.
Proof. by rewrite get_put, bool_decide_true. Qed.

Lemma get_put_ne k k' s (st : State) : k <> k' -> get k (put k' s st) = get k st.
Proof. intros Hk. by rewrite get_put, bool_decide_false. Qed.

Lemma cache_fire k (st : State) : cache (fire_watchers k st) = cache st.
Proof. unfold fire_watchers. by destruct (im_get _ _). Qed.

Lemma get_fire k k' (st : State) : get k (fire_watchers k' st) = get k st.
Proof. unfold get. by rewrite cache_fire. Qed.

Lemma step_present st st' k : step st st' -> is_Some (get k st) -> is_Some (get k st').
Proof.
  intros Hs Hk. destruct Hs; rewrite ?get_put, ?get_fire; try (case_bool_decide; by eauto).
  - unfold record_panic. repeat case_match; rewrite get_put; case_bool_decide; by eauto.
  - unfold push_span. repeat case_match; rewrite ?get_put; try case_bool_decide; by eauto.
  - unfold on_task_requested. by destruct (contains_key _ _).
  - done.
  - done.
  - done.
Qed.

Lemma steps_present st st' k : rtc step st st' -> is_Some (get k st) -> is_Some (get k st').
Proof. induction 1; eauto using step_present. Qed.

Lemma enqueue_present k (st : State) : is_Some (get k (enqueue_state k st)).
Proof.
  unfold enqueue_state, contains_key. destruct (get k st) eqn:Hk; [by rewrite Hk; eexists|].
  rewrite get_put_eq. by eexists.
Qed.

Lemma steps_enqueue k (st : State) : rtc step st (enqueue_state k st).
Proof.
  unfold enqueue_state, contains_key. destruct (get k st) eqn:Hk; [constructor|].
  apply rtc_once. by constructor.
Qed.

Lemma steps_on_all keys f (st : State) : rtc step st (on_all_requested keys f st).
Proof. unfold on_all_requested. destruct (last keys); apply rtc_once; constructor. Qed.

Lemma steps_on_any keys f (st : State) : rtc step st (on_any_requested keys f st).
Proof.
  unfold on_any_requested. eapply rtc_l; [apply (step_new_slot f)|].
  generalize (set_slots (slots st ++ [Some f]) st) as st'. generalize (length (slots st)) as i.
  induction keys as [|k keys IH]; intros i st'; simpl; [constructor|].
  eapply rtc_l; [apply step_request | apply IH].
Qed.

(** A function that only takes steps. *)
Definition stepping {A} (f : State -> option (A * State)) : Prop :=
  forall st a st', f st = Some (a, st') -> rtc step st st'.

Lemma require_common_steps {A} deps t span (res : outcome TError A * State) :
  rtc step res.2 (require_common deps t span res).2.
Proof.
  unfold TaskCache.require_common. destruct res as [[a|e|m] st]; simpl; try constructor.
  destruct span; [apply rtc_once, step_span | constructor].
Qed.

Section run.
Variable enc : T -> bool -> Span -> State -> option (outcome TError Output * State).
Hypothesis enc_steps : forall t need span, stepping (enc t need span).

Lemma encode_ref_steps t span : stepping (encode_ref enc t span).
Proof.
  intros st a st'. unfold TaskCache.encode_ref.
  destruct (output_ref_of _); [intros [= <- <-]; constructor|].
  destruct (enc t false span st) as [[res st1]|] eqn:He; [|done]. apply enc_steps in He.
  destruct res as [out|err|msg]; [|destruct err|]; repeat case_match; intros; by simplify_eq.
Qed.

Lemma run_prog_steps k0 p deps st res deps' st' :
  emits_own k0 p -> is_Some (get k0 st) ->
  run_prog enc p deps st = Some (res, deps', st') -> rtc step st st'.
Proof.
  assert (forall A deps t span (res : outcome TError A * State) (st : State) o st1,
    rtc step st res.2 -> require_common deps t span res = (o, st1) -> rtc step st st1) as Hreq.
  { intros A deps0 t span res0 st0 o st1 H0 H1. etransitivity; [exact H0|].
    pose proof (require_common_steps deps0 t span res0) as H2. by rewrite H1 in H2. }
  revert deps st. induction p as [l d|e d|msg|k r p IH|t span p IH|t span p IH|t span p IH|p IH
    |k f p IH|keys f p IH|keys f p IH]; intros deps st; simpl; intros Hown Hpres;
    try (intros; simplify_eq; constructor).
  - unfold emit_output_ref. destruct (task_key deps); [intros; simplify_eq; constructor|].
    unfold check_cycle. simpl. destruct (is_final (get k st)) eqn:Hf; simpl.
    { intros; simplify_eq; constructor. }
    destruct Hown as [-> Hown].
    assert (step st (put k0 (Started r) st)) as Hs by by constructor.
    pose proof (step_present _ _ k0 Hs Hpres) as Hpres'.
    destruct (get k0 st) as [[]|]; intros Hr; try done;
      try (by simplify_eq; apply rtc_once); (eapply rtc_l; [exact Hs|]; by eapply IH).
  - destruct (encode_ref _ _ _ _) as [[o st1]|] eqn:He; [|done]. apply encode_ref_steps in He.
    destruct (require_common _ _ _ _) as [o2 st2] eqn:Hr. apply (Hreq _ _ _ _ _ st) in Hr; [|done].
    destruct o2; intros Hp; simplify_eq; try done. pose proof (steps_present _ _ k0 Hr Hpres).
    etransitivity; [exact Hr | by eapply IH].
  - destruct (enc _ _ _ _) as [[o st1]|] eqn:He; [|done]. apply enc_steps in He.
    destruct (require_common _ _ _ _) as [o2 st2] eqn:Hr. apply (Hreq _ _ _ _ _ st) in Hr; [|done].
    destruct o2; intros Hp; simplify_eq; try done. pose proof (steps_present _ _ k0 Hr Hpres).
    etransitivity; [exact Hr | by eapply IH].
  - destruct (enc _ _ _ _) as [[o st1]|] eqn:He; [|done]. apply enc_steps in He.
    destruct (require_common _ _ _ _) as [o2 st2] eqn:Hr. apply (Hreq _ _ _ _ _ st) in Hr; [|done].
    destruct o2; intros Hp; simplify_eq; try done. pose proof (steps_present _ _ k0 Hr Hpres).
    etransitivity; [exact Hr | by eapply IH].
  - destruct (check_cycle deps st); [by apply IH | intros; simplify_eq; constructor].
  - intros Hp. pose proof (step_present _ _ k0 (step_request k f st) Hpres).
    eapply rtc_l; [apply step_request | by eapply IH].
  - intros Hp. pose proof (steps_present _ _ k0 (steps_on_all keys f st) Hpres).
    etransitivity; [apply steps_on_all | by eapply IH].
  - intros Hp. pose proof (steps_present _ _ k0 (steps_on_any keys f st) Hpres).
    etransitivity; [apply steps_on_any | by eapply IH].
Qed.
End run.

Lemma finish_steps t need span res deps (st : State) :
  rtc step st (finish t need span res deps st).2.
Proof.
  unfold TaskCache.finish. set (k := task_to_key t).
  destruct (get k st) as [s|] eqn:Hk; [|constructor].
  destruct s; try constructor; destruct res as [[l d]|[]|]; simpl; try constructor;
    apply rtc_once; (constructor; by rewrite Hk).
Qed.

(** ** Invariants *)

(** States only advance in this order. *)
Definition rank (s : option CacheState) : nat :=
  match s with
  | None => 0 | Some Enqueued => 1 | Some (Started _) => 2 | Some (Encoded _ _ _ _) => 3
  | Some (ErrorEnqueue _ _) | Some (ErrorEncode _ _ _ _ _) => 4
  end.

Definition advances (st st' : State) : Prop :=
  (forall k, rank (get k st) <= rank (get k st')) /\
  (exists new, (cache st').*1 = (cache st).*1 ++ new).

(** Keys are unique, and nobody waits for a requested task. *)
Definition wf (st : State) : Prop :=
  NoDup (cache st).*1 /\ (forall k, is_Some (im_get k (watchers st)) -> get k st = None).

Lemma put_keys k s (st : State) :
  exists new, (cache (put k s st)).*1 = (cache st).*1 ++ new.
Proof.
  unfold put. simpl. rewrite im_insert_keys. case_bool_decide; [exists []; by rewrite app_nil_r|].
  by eexists.
Qed.

Lemma step_rank st st' k : step st st' -> rank (get k st) <= rank (get k st').
Proof.
  intros Hs. destruct Hs as [k' st Hk|k' r st Hp Hf|k' s st (Hr & Hf & _)|k' span msg st Hp
    |k' span st|k' f st|f st|f st|i st]; rewrite ?get_put, ?get_fire; try (by simpl);
    try (case_bool_decide; [subst k'|done]).
  - rewrite Hk. simpl. lia.
  - destruct (get k st) as [[]|]; try done; simpl; lia.
  - destruct (get k st) as [[]|], s; try done; simpl; lia.
  - unfold record_panic. destruct (get k' st) as [s|] eqn:Hk;
      [|by destruct Hp]. destruct s; rewrite get_put; case_bool_decide; subst; rewrite ?Hk; done || (simpl; lia).
  - unfold push_span. destruct (get k' st) as [[]|] eqn:Hk; try done; rewrite get_put;
      case_bool_decide; subst; rewrite ?Hk; done.
  - unfold on_task_requested. by destruct (contains_key _ _).
Qed.

Lemma step_keys st st' : step st st' -> exists new, (cache st').*1 = (cache st).*1 ++ new.
Proof.
  intros Hs. destruct Hs; try apply put_keys; try (exists []; by rewrite app_nil_r).
  - destruct (put_keys k Enqueued (fire_watchers k st)) as [new Hnew]. exists new.
    by rewrite Hnew, cache_fire.
  - unfold record_panic. repeat case_match; apply put_keys.
  - unfold push_span. repeat case_match; try apply put_keys; exists []; by rewrite app_nil_r.
  - unfold on_task_requested. destruct (contains_key _ _); exists []; by rewrite app_nil_r.
Qed.

Lemma advances_refl st : advances st st.
Proof. split; [done | exists []; by rewrite app_nil_r]. Qed.

Lemma advances_trans st1 st2 st3 : advances st1 st2 -> advances st2 st3 -> advances st1 st3.
Proof.
  intros [H1 [l1 E1]] [H2 [l2 E2]]. split; [intros k; specialize (H1 k); specialize (H2 k); lia|].
  exists (l1 ++ l2). by rewrite E2, E1, app_assoc.
Qed.

Lemma steps_advance st st' : rtc step st st' -> advances st st'.
Proof.
  induction 1 as [|st1 st2 st3 Hs _ IH]; [apply advances_refl|].
  eapply advances_trans; [|exact IH]. split; [intros k; by apply step_rank | by apply step_keys].
Qed.

Lemma watchers_put k s (st : State) : watchers (put k s st) = watchers st.
Proof. done. Qed.

Lemma watchers_fire k k' (st : State) :
  im_get k (watchers (fire_watchers k' st))
  = if bool_decide (k = k') then None else im_get k (watchers st).
Proof.
  unfold fire_watchers. destruct (im_get k' (watchers st)) eqn:Hk; simpl.
  - apply im_get_remove.
  - case_bool_decide; congruence.
Qed.

Lemma put_NoDup k s (st : State) : NoDup (cache st).*1 -> NoDup (cache (put k s st)).*1.
Proof.
  intros Hn. unfold put. simpl. rewrite im_insert_keys. case_bool_decide; [done|].
  apply NoDup_app. split_and!; [done| |apply NoDup_singleton]. set_solver.
Qed.

Lemma put_wf k s (st : State) : is_Some (get k st) -> wf st -> wf (put k s st).
Proof.
  intros Hk [Hn Hw]. split; [by apply put_NoDup|]. intros k' Hk'. rewrite watchers_put in Hk'.
  rewrite get_put. case_bool_decide; subst; [|by apply Hw].
  rewrite (Hw _ Hk') in Hk. by destruct Hk.
Qed.

Lemma running_present s : running s = true -> is_Some s.
Proof. destruct s; [by eexists|done]. Qed.

Lemma step_wf st st' : step st st' -> wf st -> wf st'.
Proof.
  intros Hs Hwf. destruct Hs as [k st Hk|k r st Hp Hf|k s st (Hr & _)|k span msg st Hp
    |k span st|k f st|f st|f st|i st]; try done.
  - destruct Hwf as [Hn Hw]. split; [apply put_NoDup; by rewrite cache_fire|].
    intros k' Hk'. rewrite watchers_put, watchers_fire in Hk'. rewrite get_put, get_fire.
    case_bool_decide; [by destruct Hk' | by apply Hw].
  - by apply put_wf.
  - apply put_wf; [by apply running_present | done].
  - unfold record_panic. repeat case_match; apply put_wf; try done; by eexists.
  - unfold push_span. destruct (get k st) as [[]|] eqn:Hk; try done; apply put_wf; try done;
      rewrite Hk; by eexists.
  - unfold on_task_requested, contains_key. destruct (get k st) eqn:Hk; [done|].
    destruct Hwf as [Hn Hw]. split; [done|]. intros k' Hk'. simpl in Hk'.
    rewrite im_get_insert in Hk'. case_bool_decide; subst; [done | by apply Hw].
Qed.

Lemma steps_wf st st' : rtc step st st' -> wf st -> wf st'.
Proof. induction 1; eauto using step_wf. Qed.

Lemma wf_state_default : wf TState_default.
Proof. split; [constructor | by intros k [??]]. Qed.

(** *** Continuations *)

(** The continuation [f] is queued, or waits for [k], which is not requested. *)
Definition waiting (k : K) (f : list action) (st : State) : Prop :=
  f ∈ pending st \/ (get k st = None /\ exists fs, im_get k (watchers st) = Some fs /\ f ∈ fs).

Lemma pending_fire k (st : State) :
  pending (fire_watchers k st) = pending st ++ default [] (im_get k (watchers st)).
Proof. unfold fire_watchers. destruct (im_get _ _); simpl; [done | by rewrite app_nil_r]. Qed.

Lemma waiting_same k f st st' :
  (f ∈ pending st -> f ∈ pending st') -> get k st' = get k st -> im_get k (watchers st') = im_get k (watchers st) ->
  waiting k f st -> waiting k f st'.
Proof. intros Hp Hg Hw [H1|(H1 & fs & H2 & H3)]; [left; auto|]. right. rewrite Hg, Hw. eauto. Qed.

Lemma waiting_put_present k f k' s (st : State) :
  is_Some (get k' st) -> waiting k f st -> waiting k f (put k' s st).
Proof.
  intros Hp [H1|(H1 & H2)]; [by left|]. right. rewrite get_put.
  case_bool_decide; subst; [rewrite H1 in Hp; by destruct Hp | done].
Qed.

Lemma step_waiting k f st st' : step st st' -> waiting k f st -> waiting k f st'.
Proof.
  intros Hs Hw. destruct Hs as [k' st Hk|k' r st Hp Hf|k' s st (Hr & _)|k' span msg st Hp
    |k' span st|k' g st|g st|g st|i st]; try exact Hw.
  - destruct Hw as [H1|(H1 & fs & H2 & H3)].
    + left. change (f ∈ pending (fire_watchers k' st)). rewrite pending_fire. set_solver.
    + destruct (decide (k = k')) as [<-|Hne].
      * left. change (f ∈ pending (fire_watchers k st)). rewrite pending_fire, H2. set_solver.
      * right. rewrite get_put_ne, get_fire by done. split; [done|]. exists fs.
        rewrite watchers_put, watchers_fire, bool_decide_false by done. done.
  - by apply waiting_put_present.
  - apply waiting_put_present; [by apply running_present | done].
  - unfold record_panic. repeat case_match; apply waiting_put_present; try done; by eexists.
  - unfold push_span. destruct (get k' st) as [[]|] eqn:Hk; try done;
      apply waiting_put_present; try done; rewrite Hk; by eexists.
  - unfold on_task_requested. destruct (contains_key k' st) eqn:Hc.
    + destruct Hw as [H1|H1]; [left; simpl; set_solver | by right].
    + destruct Hw as [H1|(H1 & fs & H2 & H3)]; [by left|]. right. split; [done|]. simpl.
      rewrite im_get_insert. case_bool_decide; subst; [|by exists fs].
      eexists. split; [done|]. rewrite H2. simpl. set_solver.
  - destruct Hw as [H1|H1]; [left; simpl; set_solver | by right].
Qed.

Lemma steps_waiting k f st st' : rtc step st st' -> waiting k f st -> waiting k f st'.
Proof. induction 1; eauto using step_waiting. Qed.

Lemma registered_waiting k f (st : State) : waiting k f (on_task_requested k f st).
Proof.
  unfold on_task_requested, contains_key. destruct (get k st) eqn:Hk.
  - left. simpl. set_solver.
  - right. split; [done|]. simpl. rewrite im_get_insert, bool_decide_true by done.
    eexists. split; [done|]. set_solver.
Qed.

(** ** Runs of encoders *)
Hypothesis encoders_emit_own : forall k, emits_own k (do_encode_full k).

(** Every run of [encode] is a run of the state machine. *)
Lemma encode_steps fuel t need span : stepping (encode fuel t need span).
Proof.
  revert t need span. induction fuel as [|fuel IH]; intros t need span st a st'; [done|].
  cbn [TaskCache.encode]. destruct (in_cache _ _); [intros; simplify_eq; constructor|].
  set (k := task_to_key t).
  destruct (run_prog _ _ _ _) as [[[res deps] st1]|] eqn:Hr; [|done].
  apply (run_prog_steps _ IH k) in Hr; [|done|apply enqueue_present]. intros Hf.
  pose proof (steps_present _ _ k Hr (enqueue_present k st)) as Hpres.
  assert (rtc step st st1) as Hs by (etransitivity; [apply steps_enqueue | exact Hr]).
  etransitivity; [exact Hs|]. destruct res as [r|e|msg]; simplify_eq.
  - pose proof (finish_steps t need span (Ok r) deps st1) as Hfin. by rewrite Hf in Hfin.
  - pose proof (finish_steps t need span (Err e) deps st1) as Hfin. by rewrite Hf in Hfin.
  - apply rtc_once. by constructor.
Qed.

(** *** Draining triggers *)

Abbreviation run_continuation :=
  (TaskCache.run_continuation (QErr:=QErr) task_to_key do_encode_full ENCODER_NAME describe_task
     describe_error no_span).

Lemma expand_action_steps a (st st' : State) f :
  expand_action a st = Some (f, st') -> rtc step st st'.
Proof.
  destruct a; try done. simpl. repeat case_match; intros; simplify_eq; try constructor.
  apply rtc_once. constructor.
Qed.

Lemma run_action_steps fuel a (st st' : State) res :
  TaskCache.run_action (QErr:=QErr) task_to_key do_encode_full ENCODER_NAME describe_task
    describe_error no_span fuel a st = Some (res, st') -> rtc step st st'.
Proof.
  destruct a; simpl; try (intros; simplify_eq; first [apply rtc_once; constructor | apply steps_on_all
    | apply steps_on_any | apply steps_enqueue | constructor]).
  destruct (encode fuel t false span st) as [[o st1]|] eqn:He; [|done].
  apply encode_steps in He. destruct o; intros; by simplify_eq.
Qed.

Lemma run_continuation_steps fuel f (st st' : State) res :
  run_continuation fuel f st = Some (res, st') -> rtc step st st'.
Proof.
  revert f st. induction fuel as [|fuel IH]; intros f st; [done|]. simpl.
  destruct f as [|a f]; [intros; simplify_eq; constructor|].
  destruct (expand_action a st) as [[g st1]|] eqn:Ha.
  - intros Hr. etransitivity; [by eapply expand_action_steps | by eapply IH].
  - destruct (run_action _ _ _ _ _ _ _ _ _) as [[o st1]|] eqn:Hx; [|done].
    apply run_action_steps in Hx. destruct o; intros Hr; simplify_eq; [|done..].
    etransitivity; [exact Hx | by eapply IH].
Qed.

(** The continuations a drain runs, in order. *)
Fixpoint drain_log (fuel : nat) (st : State) : list (list action) :=
  match fuel with
  | 0 => []
  | S fuel' =>
      match pending st with
      | [] => []
      | f :: rest =>
          f :: match run_continuation fuel' f (set_pending rest st) with
               | Some (Ok _, st) => drain_log fuel' st
               | _ => []
               end
      end
  end.

Lemma pop_waiting k f g rest (st : State) :
  pending st = g :: rest -> waiting k f st -> f = g \/ waiting k f (set_pending rest st).
Proof.
  intros Hp [Hf|Hw]; [|by right; right]. rewrite Hp in Hf.
  apply elem_of_cons in Hf as [->|Hf]; [by left | by right; left].
Qed.

Lemma drain_runs_all fuel st st' :
  wf st -> drain_triggers fuel st = Some (Ok tt, st') ->
  wf st' /\ pending st' = [] /\
  (forall k f, waiting k f st -> is_Some (get k st') -> f ∈ drain_log fuel st).
Proof.
  revert st. induction fuel as [|fuel IH]; intros st Hwf; [done|]. cbn [TaskCache.drain_triggers drain_log].
  destruct (pending st) as [|g rest] eqn:Hp.
  - intros [= <-]. split_and!; try done. intros k f [Hf|(Hn & _)] [s Hs]; [|congruence].
    rewrite Hp in Hf. by apply not_elem_of_nil in Hf.
  - destruct (run_continuation fuel g (set_pending rest st)) as [[o st1]|] eqn:Hr; [|done].
    destruct o as [[]| |]; try done. intros Hd. apply run_continuation_steps in Hr.
    assert (wf (set_pending rest st)) as Hwf0 by done.
    destruct (IH st1 (steps_wf _ _ Hr Hwf0) Hd) as (H1 & H2 & H3). split_and!; try done.
    intros k f Hw Hk. apply (pop_waiting _ _ g rest) in Hw as [->|Hw]; [set_solver| |done].
    apply list_elem_of_further, (H3 k); [|done]. by eapply steps_waiting.
Qed.

(** ** Answers from the cache *)

Lemma in_cache_after fuel t need span (st st' : State) res :
  encode fuel t need span st = Some (res, st') -> (forall msg, res <> Panic msg) ->
  match res with
  | Ok (Some out) => forall need2, in_cache need2 (get (task_to_key t) st') = Some (Ok (give need2 out))
  | Ok None => need = false /\ exists out, forall need2,
      in_cache need2 (get (task_to_key t) st') = Some (Ok (give need2 out))
  | Err e => forall need2, in_cache need2 (get (task_to_key t) st') = Some (Err e)
  | Panic _ => True
  end.
Proof.
  destruct fuel as [|fuel]; [done|]. cbn [TaskCache.encode]. set (k := task_to_key t).
  destruct (in_cache need (get k st)) as [r|] eqn:Hc.
  - intros [= <- <-] _. destruct (get k st) as [[]|]; simplify_eq/=; try done.
    destruct need; simpl; [done|]. split; [done|]. by eexists (_, _, _).
  - destruct (run_prog _ _ _ _) as [[[o deps] st1]|]; [|done]. intros Hf Hnp.
    assert (forall o, finish t need span o deps st1 = (res, st') ->
      match res with
      | Ok (Some out) => forall need2, in_cache need2 (get k st') = Some (Ok (give need2 out))
      | Ok None => need = false /\ exists out, forall need2,
          in_cache need2 (get k st') = Some (Ok (give need2 out))
      | Err e => forall need2, in_cache need2 (get k st') = Some (Err e)
      | Panic _ => True
      end) as Hfin.
    { clear Hf o. intros o. unfold TaskCache.finish. fold k.
      destruct (get k st1) as [[]|] eqn:Hk; try (intros; simplify_eq; by edestruct Hnp);
        destruct o as [[l d]|[]|]; intros; simplify_eq; rewrite ?get_put_eq, ?Hk; try done;
        destruct need; simpl; try done; (split; [done|]); by eexists (_, _, _). }
    destruct o as [a|e|m].
    + assert (finish t need span (Ok a) deps st1 = (res, st')) by congruence. by apply (Hfin (Ok a)).
    + assert (finish t need span (Err e) deps st1 = (res, st')) by congruence. by apply (Hfin (Err e)).
    + injection Hf as <- <-.
    intros need2. unfold record_panic. repeat case_match; by rewrite get_put_eq.
Qed.

(** ** Properties *)

(** A run of an encoder only advances the states of tasks, in the order absent,
    enqueued, started, encoded, failed, whatever it returns (a panic included);
    tasks are recorded once, in the order of their first request; and no
    continuation waits for a task that has been requested, nor does one get
    lost: it stays registered until its task is requested, and is queued then. *)
Theorem task_states_advance fuel t need span st res st' :
  wf st -> encode fuel t need span st = Some (res, st') ->
  wf st' /\ advances st st' /\ (forall k f, waiting k f st -> waiting k f st').
Proof.
  intros Hwf Hs%encode_steps. split_and!; [by eapply steps_wf | by apply steps_advance |].
  intros k f. by apply steps_waiting.
Qed.

(** The answer of a request that does or does not need the output. *)
Definition answer_for (need : bool) (answer : outcome TError (Ref * Loc * Dep)) :
    outcome TError Output :=
  match answer with Ok out => Ok (give need out) | Err e => Err e | Panic m => Panic m end.

(** A task is not encoded again: once [encode] has returned an output or an error,
    every later request is answered with that output or error, at once and
    without changing the state. *)
Theorem finished_tasks_answer_from_cache fuel t need span st res st' :
  encode fuel t need span st = Some (res, st') -> (forall msg, res <> Panic msg) ->
  exists answer : outcome TError (Ref * Loc * Dep),
    res = answer_for need answer /\
    forall fuel' need' span',
      encode (S fuel') t need' span' st' = Some (answer_for need' answer, st').
Proof.
  intros Hr Hnp. pose proof (in_cache_after _ _ _ _ _ _ _ Hr Hnp) as Hc.
  destruct res as [[out|]|e|msg]; [| | |by destruct (Hnp msg)].
  - exists (Ok out). split.
    + destruct need; [done|]. destruct fuel as [|fuel]; [done|]. cbn [TaskCache.encode] in Hr.
      exfalso. clear Hc. destruct (in_cache false (get (task_to_key t) st)) as [o|] eqn:Ho.
      * destruct (get (task_to_key t) st) as [[]|]; simplify_eq/=.
      * destruct (run_prog _ _ _ _) as [[[o deps] st1]|]; [|done].
        unfold TaskCache.finish in Hr. repeat (case_match; simplify_eq/=; try done).
    + intros fuel' need' span'. cbn [TaskCache.encode]. by rewrite Hc.
  - destruct Hc as (-> & out & Hc). exists (Ok out). split; [done|].
    intros fuel' need' span'. cbn [TaskCache.encode]. by rewrite Hc.
  - exists (Err e). split; [done|]. intros fuel' need' span'. cbn [TaskCache.encode]. by rewrite Hc.
Qed.

End task_sound.

(** *** Witnesses *)
Module trigger_witness.
Definition program (k : nat) : @prog nat nat nat nat unit string nat :=
  match k with
  | 0 => EmitRef 0 100 (RegisterAll [2; 1] [AEncode 3 0] (RequireRef 1 None (fun r => Done r tt)))
  | 1 => EmitRef 1 101 (RequireDep 2 (Some 5) (fun _ => Done 1 tt))
  | 2 => EmitRef 2 102 (FailWith "unsupported" None)
  | _ => EmitRef k (100 + k) (Done k tt)
  end.

Lemma program_emits_own k : emits_own k (program k).
Proof. destruct k as [|[|[|k]]]; simpl; repeat split. Qed.

Definition run_sample := TaskCache.encode (QErr:=Empty_set) id program (fun _ => "e"%string)
  (fun _ => "t"%string) id 0.
Definition drain_sample := TaskCache.drain_triggers (QErr:=Empty_set) id program (fun _ => "e"%string)
  (fun _ => "t"%string) id 0.

Lemma task_states_advance_witness :
  exists res st', run_sample 10 0 true 0 TState_default = Some (res, st') /\
    wf st' /\ (cache st').*1 = [0; 1; 2].
Proof.
  destruct (run_sample 10 0 true 0 TState_default) as [[res st']|] eqn:Hr;
    [|vm_compute in Hr; discriminate].
  destruct (task_states_advance (QErr:=Empty_set) id program (fun _ => "e"%string)
    (fun _ => "t"%string) id 0 program_emits_own 10 0 true 0 TState_default res st')
    as (Hwf & _); [apply wf_state_default | exact Hr|].
  exists res, st'. split; [reflexivity|]. split; [exact Hwf|].
  vm_compute in Hr. injection Hr as _ <-. reflexivity.
Defined.

Lemma finished_tasks_answer_from_cache_witness :
  exists res st', run_sample 10 2 true 0 TState_default = Some (Err res, st') /\
    run_sample 1 2 false 7 st' = Some (Err res, st').
Proof.
  destruct (run_sample 10 2 true 0 TState_default) as [[res st']|] eqn:Hr;
    [|vm_compute in Hr; discriminate].
  pose proof Hr as Hv. vm_compute in Hv. injection Hv as Hres _. subst res.
  destruct (finished_tasks_answer_from_cache (QErr:=Empty_set) id program (fun _ => "e"%string)
    (fun _ => "t"%string) id 0 10 2 true 0 TState_default _ st' Hr) as (answer & Ha & Hall);
    [discriminate|].
  exists (EncodingError "unsupported"), st'. split; [reflexivity|].
  specialize (Hall 0 false 7). destruct answer; try discriminate Ha.
  injection Ha as <-. exact Hall.
Defined.

End trigger_witness.
