(* ===== verification/TaskSolve.v ===== *)
(** * What encoders compute

    For encoders whose requirements on each other have a solution (references
    and full outputs that satisfy every encoder's program), any run returns the
    solution, whatever the order and the cycles of the requests. When every
    encoder emits its reference first and requires full outputs only along a
    ranking, runs terminate. *)
From S2P Require Import Prelude TaskCache TaskSound.

Section task_solve.
Context {T K Ref Loc Dep EErr QErr Span : Type} `{EqDecision K}.
Variable task_to_key : T -> K.
Variable do_encode_full : K -> @prog T K Ref Loc Dep EErr Span.
Variables ENCODER_NAME describe_task : T -> string.
Variable describe_error : EErr -> string.
Variable no_span : Span.

Abbreviation State := (@TState T K Ref Loc Dep EErr QErr Span) (only parsing).
Abbreviation CacheState := (@TaskEncoderCacheState K Ref Loc Dep EErr QErr Span) (only parsing).
Abbreviation TError := (@TaskEncoderError EErr QErr Span) (only parsing).
Abbreviation Output := (@EncodeOutput Ref Loc Dep) (only parsing).
Abbreviation FError := (@EncodeFullError Dep EErr Span) (only parsing).
Abbreviation Prog := (@prog T K Ref Loc Dep EErr Span) (only parsing).
Abbreviation encode :=
  (TaskCache.encode (QErr:=QErr) task_to_key do_encode_full ENCODER_NAME describe_task describe_error no_span).
Abbreviation run_prog :=
  (TaskCache.run_prog (QErr:=QErr) task_to_key ENCODER_NAME describe_task describe_error no_span).
Abbreviation finish := (TaskCache.finish (QErr:=QErr) task_to_key ENCODER_NAME describe_task).
Abbreviation encode_ref := (TaskCache.encode_ref (QErr:=QErr) (EErr:=EErr) (Dep:=Dep) (Loc:=Loc) task_to_key).
Abbreviation require_common := (TaskCache.require_common (QErr:=QErr) task_to_key ENCODER_NAME describe_task describe_error).

(** ** Solutions *)
Variable ref_of : K -> Ref.
Variable full_of : K -> Loc * Dep.

(** Run against the solution, the program of [k] emits the reference of [k]
    once and ends with its full output. *)
Fixpoint solves (k : K) (emitted : bool) (p : Prog) : Prop :=
  match p with
  | Done l d => emitted = true /\ (l, d) = full_of k
  | FailWith _ _ | PanicWith _ => False
  | EmitRef k' r p => emitted = false /\ k' = k /\ r = ref_of k /\ solves k true p
  | RequireRef t _ p => solves k emitted (p (ref_of (task_to_key t)))
  | RequireLocal t _ p => solves k emitted (p (full_of (task_to_key t)).1)
  | RequireDep t _ p => solves k emitted (p (full_of (task_to_key t)).2)
  | CheckCycle p | RegisterTask _ _ p | RegisterAll _ _ p | RegisterAny _ _ p => solves k emitted p
  end.
Hypothesis solution : forall k, solves k false (do_encode_full k).

(** The output of a task in the solution. *)
Definition out_of (k : K) : Ref * Loc * Dep := (ref_of k, (full_of k).1, (full_of k).2).

Definition entry_ok (k : K) (s : CacheState) : Prop :=
  match s with
  | Enqueued => True
  | Started r => r = ref_of k
  | Encoded r _ l d => r = ref_of k /\ (l, d) = full_of k
  | ErrorEnqueue _ _ | ErrorEncode _ _ _ _ _ => False
  end.

Definition consistent (st : State) : Prop :=
  NoDup (cache st).*1 /\ forall k s, get k st = Some s -> entry_ok k s.

(** Requested, but not finished. *)
Definition unfinished (k : K) (st : State) : Prop :=
  is_Some (get k st) /\ is_final (get k st) = false.

Record follows (st st' : State) : Prop := {
  fo_consistent : consistent st';
  fo_present k : is_Some (get k st) -> is_Some (get k st');
  fo_running k : running (get k st) = true -> running (get k st') = true;
}.

Lemma follows_refl st : consistent st -> follows st st.
Proof. by constructor. Qed.

Lemma follows_trans st1 st2 st3 : follows st1 st2 -> follows st2 st3 -> follows st1 st3.
Proof. intros [] []. constructor; eauto. Qed.

Lemma follows_put k s (st : State) :
  consistent st -> entry_ok k s -> (running (get k st) = true -> running (Some s) = true) ->
  follows st (put k s st).
Proof.
  intros [Hn Hc] Hs Hr. constructor.
  - split; [by apply put_NoDup|]. intros k' s'. rewrite get_put.
    case_bool_decide; [by intros [= <-]; subst | apply Hc].
  - intros k' Hk'. rewrite get_put. case_bool_decide; [by eexists|done].
  - intros k' Hk'. rewrite get_put. case_bool_decide; [subst; by apply Hr | done].
Qed.

Lemma follows_same (st st' : State) : consistent st -> cache st' = cache st -> follows st st'.
Proof.
  intros Hc He. assert (forall k, get k st' = get k st) as Hg by (intros k; unfold get; by rewrite He).
  constructor; [|intros k; by rewrite Hg..]. unfold consistent. rewrite He. destruct Hc as [Hn Hc].
  split; [done|]. intros k s. rewrite Hg. apply Hc.
Qed.

Lemma consistent_default : consistent TState_default.
Proof. split; [constructor | done]. Qed.

Lemma cache_on_task k f (st : State) : cache (on_task_requested k f st) = cache st.
Proof. unfold on_task_requested. by destruct (contains_key _ _). Qed.

Lemma cache_on_all keys f (st : State) : cache (on_all_requested keys f st) = cache st.
Proof. unfold on_all_requested. destruct (last keys); [apply cache_on_task | done]. Qed.

Lemma cache_on_any keys f (st : State) : cache (on_any_requested keys f st) = cache st.
Proof.
  unfold on_any_requested.
  assert (forall i (st' : State), cache (foldl (fun st k => on_task_requested k [ATake i] st) st' keys)
    = cache st') as Hfold.
  { intros i. induction keys as [|k keys IH]; intros st'; simpl; [done|].
    by rewrite IH, cache_on_task. }
  by rewrite Hfold.
Qed.

Lemma follows_enqueue k (st : State) : consistent st -> follows st (enqueue_state k st).
Proof.
  intros Hc. unfold enqueue_state, contains_key. destruct (get k st) eqn:Hk; [by apply follows_refl|].
  pose proof (follows_same st (fire_watchers k st) Hc (cache_fire k st)) as Hf.
  eapply follows_trans; [exact Hf|]. apply follows_put; [apply Hf|done|]. by rewrite get_fire, Hk.
Qed.

Lemma consistent_output k (st : State) r :
  consistent st -> output_ref_of (get k st) = Some r ->
  r = ref_of k /\ running (get k st) = true.
Proof.
  intros [_ Hc] Hr. destruct (get k st) as [s|] eqn:Hk; [|done].
  specialize (Hc k s Hk). destruct s; simplify_eq/=; naive_solver.
Qed.

Lemma final_Encoded k (st : State) :
  consistent st -> is_final (get k st) = true ->
  exists deps, get k st = Some (Encoded (ref_of k) deps (full_of k).1 (full_of k).2).
Proof.
  intros [_ Hc] Hf. destruct (get k st) as [s|] eqn:Hk; [|done].
  specialize (Hc k s Hk). destruct s as [|?|r deps l d|?|?]; try done.
  destruct Hc as [-> He]. exists deps. by rewrite <- He.
Qed.

(** ** Runs return the solution *)

(** What a run of [encode] for a task gives. *)
Definition computes (t : T) (need : bool) (st : State) (res : outcome TError Output) (st' : State) : Prop :=
  res = Ok (give need (out_of (task_to_key t))) /\ follows st st' /\
  is_final (get (task_to_key t) st') = true /\
  (forall k, unfinished k st' -> unfinished k st).

Section run.
Variable enc : T -> bool -> Span -> State -> option (outcome TError Output * State).
Hypothesis enc_computes : forall t need span st res st',
  consistent st -> enc t need span st = Some (res, st') -> computes t need st res st'.

Lemma encode_ref_computes t span st res st' :
  consistent st -> encode_ref enc t span st = Some (res, st') ->
  res = Ok (ref_of (task_to_key t)) /\ follows st st' /\ (forall k, unfinished k st' -> unfinished k st).
Proof.
  intros Hc. unfold TaskCache.encode_ref. destruct (output_ref_of _) as [r|] eqn:Hr.
  - intros [= <- <-]. apply consistent_output in Hr as [-> _]; [|done].
    split_and!; [done | by apply follows_refl | done].
  - destruct (enc t false span st) as [[o st1]|] eqn:He; [|done].
    apply enc_computes in He as (-> & Hf & Hfin & Hu); [|done]. simpl.
    destruct (final_Encoded _ st1 (fo_consistent _ _ Hf) Hfin) as [deps Hd]. rewrite Hd. simpl.
    by intros [= <- <-].
Qed.

(** The state of a program of [k] that has emitted its reference, or not. *)
Record inside (k : K) (emitted : bool) (deps : TaskEncoderDependencies) (st : State) : Prop := {
  in_consistent : consistent st;
  in_deps : task_key deps = if emitted then Some k else None;
  in_present : is_Some (get k st);
  in_running : emitted = true -> running (get k st) = true;
}.

Lemma inside_follows k emitted deps st st' :
  inside k emitted deps st -> follows st st' -> inside k emitted deps st'.
Proof. intros [] []. constructor; eauto. Qed.

(** What a program of [k] gives. *)
Definition body_computes (k : K) (st : State) (res : outcome FError (Loc * Dep))
    (st' : State) : Prop :=
  follows st st' /\ (forall k', unfinished k' st' -> unfinished k' st \/ k' = k) /\
  ((res = Ok (full_of k) /\ running (get k st') = true) \/
   (res = Err AlreadyEncoded /\ is_final (get k st') = true)).

Lemma body_after k st1 st2 res st' :
  follows st1 st2 -> (forall k, unfinished k st2 -> unfinished k st1) ->
  body_computes k st2 res st' -> body_computes k st1 res st'.
Proof.
  intros Hf Hu (Hf' & Hu' & Hr). split_and!; [by eapply follows_trans | | done].
  intros k' [Hk| ->]%Hu'; [left; by apply Hu | by right].
Qed.

(** A requirement that succeeds goes on, unless the task is finished by now. *)
Lemma require_continues {A} k emitted deps t span (a : A) st st1 o st2 :
  inside k emitted deps st -> follows st st1 -> (forall k, unfinished k st1 -> unfinished k st) ->
  require_common deps t span (Ok a, st1) = (o, st2) ->
  st2 = st1 /\ inside k emitted deps st1 /\
  (o = Ok a \/ (o = Err AlreadyEncoded /\ is_final (get k st1) = true)).
Proof.
  intros Hin Hf Hu. unfold TaskCache.require_common. cbn [fst snd]. intros [= <- <-].
  pose proof (inside_follows _ _ _ _ _ Hin Hf) as Hin1. split_and!; try done.
  unfold check_cycle. rewrite (in_deps _ _ _ _ Hin). destruct emitted; [|by left].
  destruct (is_final (get k st1)); [by right | by left].
Qed.

Lemma run_prog_computes k p emitted deps st res deps' st' :
  solves k emitted p -> inside k emitted deps st ->
  run_prog enc p deps st = Some (res, deps', st') -> body_computes k st res st'.
Proof.
  assert (forall A (cont : A -> Prog) emitted deps t span (a : A) (st st1 : State) o st2 res deps' st',
    (forall emitted deps st, solves k emitted (cont a) -> inside k emitted deps st ->
       run_prog enc (cont a) deps st = Some (res, deps', st') -> body_computes k st res st') ->
    solves k emitted (cont a) -> inside k emitted deps st -> follows st st1 ->
    (forall k, unfinished k st1 -> unfinished k st) ->
    require_common deps t span (Ok a, st1) = (o, st2) ->
    match o with
    | Ok a => run_prog enc (cont a) deps st2
    | Err e => Some (Err e, deps, st2)
    | Panic msg => Some (Panic msg, deps, st2)
    end = Some (res, deps', st') -> body_computes k st res st') as Hreq.
  { intros A cont em dps t span a s0 s1 o s2 r dps' s' IH Hsol Hin Hf Hu Hr Hm.
    destruct (require_continues k em dps t span a s0 s1 o s2 Hin Hf Hu Hr) as (-> & Hin1 & [-> | [-> Hfin]]).
    - eapply body_after; [exact Hf|exact Hu|]. by eapply IH.
    - simplify_eq. split_and!; [done | intros k' Hk'; left; by apply Hu | by right]. }
  revert emitted deps st. induction p as [l d|e d|msg|k' r p IH|t span p IH|t span p IH|t span p IH
    |p IH|k' f p IH|keys f p IH|keys f p IH]; intros emitted deps st; cbn [solves TaskCache.run_prog];
    intros Hsol Hin.
  - intros [= <- <- <-]. destruct Hsol as [-> Hfull]. split_and!.
    + by apply follows_refl, Hin.
    + by left.
    + left. split; [by rewrite Hfull | by apply Hin].
  - done.
  - done.
  - destruct Hsol as (-> & -> & -> & Hsol). unfold emit_output_ref.
    rewrite (in_deps _ _ _ _ Hin). unfold check_cycle. cbn [task_key].
    destruct (is_final (get k st)) eqn:Hfin; cbn [negb].
    + intros [= <- <- <-]. split_and!; [by apply follows_refl, Hin | by left | by right].
    + assert (follows st (put k (Started (ref_of k)) st)) as Hf
        by (apply follows_put; [apply Hin | done | done]).
      destruct (in_present _ _ _ _ Hin) as [s Hs].
      assert (inside k true {| task_key := Some k |} (put k (Started (ref_of k)) st)) as Hin'.
      { constructor; [apply Hf | done | |]; rewrite get_put_eq; [by eexists | done]. }
      intros Hr. assert (body_computes k (put k (Started (ref_of k)) st) res st') as (Hf' & Hu' & Hres).
      { rewrite Hs in Hr, Hfin. destruct s; try done; by eapply IH. }
      split_and!; [by eapply follows_trans | | done]. intros k2 [Hk2| ->]%Hu'; [|by right].
      destruct (decide (k2 = k)) as [-> | Hne]; [by right|]. left. unfold unfinished in *.
      by rewrite get_put_ne in Hk2.
  - destruct (encode_ref _ _ _ _) as [[o st1]|] eqn:He; [|done].
    apply encode_ref_computes in He as (-> & Hf & Hu); [|apply Hin].
    destruct (require_common _ _ _ _) as [o st2] eqn:Hr.
    exact (Hreq Ref p _ _ _ _ _ _ _ _ _ _ _ _ (IH _) Hsol Hin Hf Hu Hr).
  - destruct (enc _ _ _ _) as [[o st1]|] eqn:He; [|done].
    apply enc_computes in He as (-> & Hf & _ & Hu); [|apply Hin]. cbn [give].
    destruct (require_common _ _ _ _) as [o st2] eqn:Hr.
    exact (Hreq Loc p _ _ _ _ _ _ _ _ _ _ _ _ (IH _) Hsol Hin Hf Hu Hr).
  - destruct (enc _ _ _ _) as [[o st1]|] eqn:He; [|done].
    apply enc_computes in He as (-> & Hf & _ & Hu); [|apply Hin]. cbn [give].
    destruct (require_common _ _ _ _) as [o st2] eqn:Hr.
    exact (Hreq Dep p _ _ _ _ _ _ _ _ _ _ _ _ (IH _) Hsol Hin Hf Hu Hr).
  - unfold check_cycle. rewrite (in_deps _ _ _ _ Hin). destruct emitted; [|by eapply IH].
    destruct (is_final (get k st)) eqn:Hfin; simpl.
    + intros [= <- <- <-]. split_and!; [by apply follows_refl, Hin | by left | by right].
    + by eapply IH.
  - intros Hr. pose proof (follows_same st _ (in_consistent _ _ _ _ Hin) (cache_on_task k' f st)) as Hf.
    eapply body_after; [exact Hf| |eapply IH; [done|by eapply inside_follows|done]].
    intros k2. unfold unfinished, get. by rewrite cache_on_task.
  - intros Hr. pose proof (follows_same st _ (in_consistent _ _ _ _ Hin) (cache_on_all keys f st)) as Hf.
    eapply body_after; [exact Hf| |eapply IH; [done|by eapply inside_follows|done]].
    intros k2. unfold unfinished, get. by rewrite cache_on_all.
  - intros Hr. pose proof (follows_same st _ (in_consistent _ _ _ _ Hin) (cache_on_any keys f st)) as Hf.
    eapply body_after; [exact Hf| |eapply IH; [done|by eapply inside_follows|done]].
    intros k2. unfold unfinished, get. by rewrite cache_on_any.
Qed.
End run.

Lemma finish_computes t need span res deps (st st' : State) o :
  let k := task_to_key t in
  consistent st ->
  (res = Ok (full_of k) /\ running (get k st) = true) \/
  (res = Err AlreadyEncoded /\ is_final (get k st) = true) ->
  finish t need span res deps st = (o, st') ->
  o = Ok (give need (out_of k)) /\ follows st st' /\ is_final (get k st') = true /\
  (forall k', unfinished k' st' -> unfinished k' st).
Proof.
  intros k Hc Hres. unfold TaskCache.finish. fold k. destruct Hres as [[-> Hr]|[-> Hf]].
  - assert (exists r, output_ref_of (get k st) = Some r) as [r Hout].
    { destruct (get k st) as [[]|]; try done; by eexists. }
    destruct (consistent_output k st r Hc Hout) as [-> _].
    unfold out_of. destruct (full_of k) as [l d] eqn:Hfull.
    assert (follows st (put k (Encoded (ref_of k) deps l d) st)) as Hfo
      by (apply follows_put; [done | split; [done | by rewrite Hfull] | done]).
    assert (forall k', unfinished k' (put k (Encoded (ref_of k) deps l d) st) -> unfinished k' st)
      as Hun.
    { intros k' [Hp Hn]. unfold unfinished. rewrite get_put in Hp, Hn. by case_bool_decide. }
    destruct (get k st) as [[]|] eqn:Hk; simplify_eq/=; intros [= <- <-];
      (split_and!; [done | done | by rewrite get_put_eq | done]).
  - destruct (final_Encoded k st Hc Hf) as [d Hd]. rewrite !Hd. intros [= <- <-].
    split_and!; [done | by apply follows_refl | by rewrite Hd | done].
Qed.

(** Every run of [encode] that returns gives the solution. *)
Lemma encode_computes fuel t need span st res st' :
  consistent st -> encode fuel t need span st = Some (res, st') -> computes t need st res st'.
Proof.
  revert t need span st res st'. induction fuel as [|fuel IH]; intros t need span st res st' Hc; [done|].
  cbn [TaskCache.encode]. set (k := task_to_key t).
  destruct (in_cache need (get k st)) as [o|] eqn:Hin.
  - intros [= <- <-]. assert (is_final (get k st) = true) as Hf by (by destruct (get k st) as [[]|]).
    destruct (final_Encoded k st Hc Hf) as [d Hd]. rewrite Hd in Hin. injection Hin as <-.
    split_and!; [done | by apply follows_refl | done | done].
  - destruct (run_prog _ _ _ _) as [[[o deps] st1]|] eqn:Hr; [|done].
    pose proof (follows_enqueue k st Hc) as Hfe.
    apply (run_prog_computes _ IH k _ false) in Hr as (Hf & Hu & Hres); [|apply solution|].
    2: { constructor; [apply Hfe | done | apply enqueue_present | done]. }
    intros Hfin.
    assert (finish t need span o deps st1 = (res, st')) as Hfin'
      by (destruct Hres as [[-> _]|[-> _]]; congruence). clear Hfin.
    destruct (finish_computes _ _ _ _ _ _ _ _ (fo_consistent _ _ Hf) Hres Hfin')
      as (-> & Hf2 & Hfi & Hu2).
    split_and!; [done | exact (follows_trans _ _ _ Hfe (follows_trans _ _ _ Hf Hf2)) | done |].
    intros k' Hk'. destruct (decide (k' = k)) as [-> | Hne].
    { destruct Hk' as [_ Hk']. unfold k in Hk'. congruence. }
    apply Hu2, Hu in Hk' as [Hk'|Hk']; [|done]. unfold enqueue_state in Hk'.
    destruct (contains_key k st); [done|]. unfold unfinished in *. by rewrite get_put_ne, get_fire in Hk'.
Qed.

(** ** Termination *)

Variable universe : list K.
Variable rk : K -> nat.
Variable max_rank : nat.
Hypothesis rk_bounded : forall k, k ∈ universe -> rk k <= max_rank.

(** Requirements stay in the universe, and full outputs are required downwards. *)
Fixpoint requires_ok (k : K) (p : Prog) : Prop :=
  match p with
  | Done _ _ | FailWith _ _ | PanicWith _ => True
  | EmitRef _ _ p => False
  | RequireRef t _ p => task_to_key t ∈ universe /\ requires_ok k (p (ref_of (task_to_key t)))
  | RequireLocal t _ p =>
      task_to_key t ∈ universe /\ rk (task_to_key t) < rk k /\
      requires_ok k (p (full_of (task_to_key t)).1)
  | RequireDep t _ p =>
      task_to_key t ∈ universe /\ rk (task_to_key t) < rk k /\
      requires_ok k (p (full_of (task_to_key t)).2)
  | CheckCycle p | RegisterTask _ _ p | RegisterAll _ _ p | RegisterAny _ _ p => requires_ok k p
  end.
Hypothesis emits_first : forall k, k ∈ universe ->
  exists p, do_encode_full k = EmitRef k (ref_of k) p /\ requires_ok k p.

(** Tasks without a reference so far. *)
Definition lacking (st : State) : nat :=
  length (filter (fun k => running (get k st) = false) universe).

(** Bounds the nesting of requests below a request of [k]. *)
Definition depth (k : K) (st : State) : nat :=
  lacking st * (max_rank + 2) + (if running (get k st) then 1 + rk k else 0).

Lemma lacking_follows st st' : follows st st' -> lacking st' <= lacking st.
Proof.
  intros Hf. unfold lacking. clear rk_bounded emits_first. induction universe as [|k u IH]; [done|]. rewrite !filter_cons.
  destruct (running (get k st)) eqn:Hk.
  - rewrite (decide_False (P := true = false)) by done.
    rewrite decide_False by (by rewrite (fo_running _ _ Hf k Hk)). exact IH.
  - rewrite (decide_True (P := false = false)) by done.
    destruct (decide _); simpl; lia.
Qed.

Lemma filter_length_lt (P Q : K -> Prop) `{forall k, Decision (P k)} `{forall k, Decision (Q k)} u k :
  k ∈ u -> (forall k, Q k -> P k) -> P k -> ~ Q k -> length (filter Q u) < length (filter P u).
Proof.
  intros Hk Hqp HP HQ.
  assert (forall u, length (filter Q u) <= length (filter P u)) as Hle.
  { intros l. induction l as [|x l IH]; [done|]. rewrite !filter_cons.
    destruct (decide (Q x)), (decide (P x)); simpl; try lia. naive_solver. }
  induction Hk as [k u|k x u Hk IH]; rewrite !filter_cons.
  - rewrite (decide_False (P:=Q k)), (decide_True (P:=P k)) by done. simpl. specialize (Hle u). lia.
  - specialize (IH HP HQ). destruct (decide (Q x)), (decide (P x)); simpl; try lia. naive_solver.
Qed.

Lemma lacking_emit k st :
  k ∈ universe -> running (get k st) = false ->
  lacking (put k (Started (ref_of k)) st) < lacking st.
Proof.
  intros Hk Hr. unfold lacking. eapply filter_length_lt; [exact Hk| |exact Hr|].
  - intros k'. rewrite get_put. by case_bool_decide.
  - by rewrite get_put_eq.
Qed.

Lemma depth_below k k' st st' N :
  k' ∈ universe -> lacking st' <= N ->
  (running (get k st) = false /\ N < lacking st) \/
  (running (get k st) = true /\ N = lacking st /\
     (running (get k' st') = false \/ rk k' < rk k)) ->
  depth k' st' < depth k st.
Proof.
  intros Hk' Hl Hc. unfold depth. specialize (rk_bounded k' Hk').
  destruct Hc as [[-> HN]|(-> & -> & Hc)].
  - assert (S (lacking st') * (max_rank + 2) <= lacking st * (max_rank + 2)) by nia.
    destruct (running (get k' st')); nia.
  - assert (lacking st' * (max_rank + 2) <= lacking st * (max_rank + 2)) by nia.
    destruct Hc as [->|Hc]; [nia|]. destruct (running (get k' st')); nia.
Qed.

Section run_terminates.
Variable enc : T -> bool -> Span -> State -> option (outcome TError Output * State).
Hypothesis enc_computes : forall t need span st res st',
  consistent st -> enc t need span st = Some (res, st') -> computes t need st res st'.
(** The requests that are possible when at most [N] tasks lack a reference. *)
Variables (k : K) (N : nat).
Hypothesis enc_returns : forall t need span st,
  consistent st -> task_to_key t ∈ universe -> lacking st <= N ->
  running (get (task_to_key t) st) = false \/ rk (task_to_key t) < rk k ->
  exists r, enc t need span st = Some r.

Lemma encode_ref_returns t span st :
  consistent st -> task_to_key t ∈ universe -> lacking st <= N ->
  exists st', encode_ref enc t span st = Some (Ok (ref_of (task_to_key t)), st') /\ follows st st'.
Proof.
  intros Hc Ht Hl.
  assert (exists r, encode_ref enc t span st = Some r) as [[o st'] Hr].
  { unfold TaskCache.encode_ref. destruct (output_ref_of _) eqn:Ho; [by eexists|].
    destruct (enc_returns t false span st) as [[o st'] He]; [done..| |].
    - left. destruct (get (task_to_key t) st) as [[]|]; done.
    - rewrite He. apply enc_computes in He as (-> & Hf & Hfin & _); [|done].
      destruct (final_Encoded _ st' (fo_consistent _ _ Hf) Hfin) as [d ->]. by eexists. }
  exists st'. rewrite Hr. apply (encode_ref_computes _ enc_computes) in Hr as (-> & Hf & _); done.
Qed.

Lemma run_prog_returns p emitted deps st :
  solves k emitted p -> requires_ok k p -> inside k emitted deps st -> lacking st <= N ->
  exists r, run_prog enc p deps st = Some r.
Proof.
  assert (forall A (cont : A -> Prog) emitted deps t span (a : A) (st st1 : State),
    (forall emitted deps st, solves k emitted (cont a) -> requires_ok k (cont a) ->
       inside k emitted deps st -> lacking st <= N -> exists r, run_prog enc (cont a) deps st = Some r) ->
    solves k emitted (cont a) -> requires_ok k (cont a) -> inside k emitted deps st ->
    follows st st1 -> (forall k, unfinished k st1 -> unfinished k st) -> lacking st <= N ->
    exists r, match require_common deps t span (Ok a, st1) with
    | (Ok a, st2) => run_prog enc (cont a) deps st2
    | (Err e, st2) => Some (Err e, deps, st2)
    | (Panic msg, st2) => Some (Panic msg, deps, st2)
    end = Some r) as Hreq.
  { intros A cont em dps t span a s0 s1 IH Hsol Hok Hin Hf Hu Hl.
    destruct (require_common _ _ _ _) as [o s2] eqn:Hr.
    destruct (require_continues k em dps t span a s0 s1 o s2 Hin Hf Hu Hr) as (-> & Hin1 & [-> | [-> _]]);
      [|by eexists]. apply (IH em); try done. pose proof (lacking_follows _ _ Hf). lia. }
  revert emitted deps st. induction p as [l d|e d|msg|k' r p IH|t span p IH|t span p IH|t span p IH
    |p IH|k' f p IH|keys f p IH|keys f p IH]; intros emitted deps st;
    cbn [solves requires_ok TaskCache.run_prog]; intros Hsol Hok Hin Hl; try (by destruct Hok); try (by eexists).
  - destruct Hok as [Hu Hok].
    destruct (encode_ref_returns t (the_span no_span span) st) as (st1 & He & _); [apply Hin|done..|].
    rewrite He. destruct (encode_ref_computes _ enc_computes _ _ _ _ _ (in_consistent _ _ _ _ Hin) He)
      as (_ & Hf & Hun). exact (Hreq Ref p emitted deps t span _ st st1 (IH _) Hsol Hok Hin Hf Hun Hl).
  - destruct Hok as (Hu & Hrk & Hok).
    destruct (enc_returns t true (the_span no_span span) st) as [[o st1] He];
      [apply Hin|done..|by right|].
    rewrite He. apply enc_computes in He as (-> & Hf & _ & Hun); [|apply Hin].
    exact (Hreq Loc p emitted deps t span _ st st1 (IH _) Hsol Hok Hin Hf Hun Hl).
  - destruct Hok as (Hu & Hrk & Hok).
    destruct (enc_returns t true (the_span no_span span) st) as [[o st1] He];
      [apply Hin|done..|by right|].
    rewrite He. apply enc_computes in He as (-> & Hf & _ & Hun); [|apply Hin].
    exact (Hreq Dep p emitted deps t span _ st st1 (IH _) Hsol Hok Hin Hf Hun Hl).
  - destruct (check_cycle deps st); [by eapply IH | by eexists].
  - pose proof (follows_same st _ (in_consistent _ _ _ _ Hin) (cache_on_task k' f st)) as Hf.
    eapply IH; [done|done|by eapply inside_follows|]. pose proof (lacking_follows _ _ Hf). lia.
  - pose proof (follows_same st _ (in_consistent _ _ _ _ Hin) (cache_on_all keys f st)) as Hf.
    eapply IH; [done|done|by eapply inside_follows|]. pose proof (lacking_follows _ _ Hf). lia.
  - pose proof (follows_same st _ (in_consistent _ _ _ _ Hin) (cache_on_any keys f st)) as Hf.
    eapply IH; [done|done|by eapply inside_follows|]. pose proof (lacking_follows _ _ Hf). lia.
Qed.
End run_terminates.

Lemma encode_returns fuel t need span st :
  consistent st -> task_to_key t ∈ universe -> depth (task_to_key t) st < fuel ->
  exists r, encode fuel t need span st = Some r.
Proof.
  revert t need span st. induction fuel as [|fuel IH]; intros t need span st Hc Ht Hd; [lia|].
  cbn [TaskCache.encode]. set (k := task_to_key t) in *.
  destruct (in_cache need (get k st)) as [o|] eqn:Hin; [by eexists|].
  pose proof (follows_enqueue k st Hc) as Hfe. set (st0 := enqueue_state k st) in *.
  assert (lacking st0 <= lacking st) as Hl0 by by apply lacking_follows.
  assert (is_final (get k st0) = false) as Hnf.
  { unfold st0, enqueue_state, contains_key. destruct (get k st) as [s|] eqn:Hk;
      [rewrite Hk; by destruct s | by rewrite get_put_eq]. }
  assert (running (get k st0) = running (get k st)) as Hrun.
  { unfold st0, enqueue_state, contains_key. destruct (get k st) as [s|] eqn:Hk;
      [by rewrite Hk | by rewrite get_put_eq]. }
  destruct (emits_first k Ht) as (p & Hp & Hok). pose proof (solution k) as Hsol. rewrite Hp in *.
  cbn [solves TaskCache.run_prog] in *. destruct Hsol as (_ & _ & _ & Hsol).
  unfold emit_output_ref, check_cycle. cbn [Dependencies_new task_key]. rewrite Hnf. cbn [negb].
  set (st1 := put k (Started (ref_of k)) st0).
  assert (follows st0 st1) as Hf1 by (apply follows_put; [apply Hfe|done|done]).
  assert (lacking st1 <= lacking st0) as Hl1 by by apply lacking_follows.
  assert (inside k true {| task_key := Some k |} st1) as Hins.
  { constructor; [apply Hf1 | done | |]; unfold st1; rewrite get_put_eq; [by eexists | done]. }
  assert (exists r, run_prog (encode fuel) p {| task_key := Some k |} st1 = Some r) as [r Hr].
  { apply (run_prog_returns (encode fuel) (encode_computes fuel) k (lacking st1)) with true; try done.
    intros t' need' span' st' Hc' Ht' Hl' Hcall. apply IH; [done..|].
    assert (depth (task_to_key t') st' < depth k st); [|lia].
    destruct (running (get k st)) eqn:Hrk.
    - apply (depth_below k _ st st' (lacking st)); [done|lia|]. right. split_and!; done.
    - apply (depth_below k _ st st' (lacking st1)); [done|done|]. left. split; [done|].
      assert (lacking st1 < lacking st0) by (apply lacking_emit; [done | by rewrite Hrun]). lia. }
  destruct (get k st0) as [s|] eqn:Hk; [|].
  - destruct s; try done; rewrite Hr; destruct r as [[[]?]?]; by eexists.
  - destruct (enqueue_present k st) as [s Hs]. fold st0 in Hs. congruence.
Qed.

(** ** Crates *)

Abbreviation encode_each :=
  (TaskCache.encode_each (QErr:=QErr) task_to_key do_encode_full ENCODER_NAME describe_task
     describe_error no_span).
Abbreviation encode_all_in_crate :=
  (TaskCache.encode_all_in_crate (QErr:=QErr) task_to_key do_encode_full ENCODER_NAME describe_task
     describe_error no_span).

(** Fuel for any request: no task of the universe has a reference. *)
Definition enough_fuel : nat := S (length universe * (max_rank + 2) + 1 + max_rank).

Lemma depth_enough k st : k ∈ universe -> depth k st < enough_fuel.
Proof.
  intros Hk. unfold depth, enough_fuel, lacking. specialize (rk_bounded k Hk).
  pose proof (length_filter (fun k => running (get k st) = false) universe).
  destruct (running (get k st)); nia.
Qed.

Lemma encode_total fuel t need span st :
  consistent st -> task_to_key t ∈ universe -> enough_fuel <= fuel ->
  exists st', encode fuel t need span st = Some (Ok (give need (out_of (task_to_key t))), st') /\
    computes t need st (Ok (give need (out_of (task_to_key t)))) st'.
Proof.
  intros Hc Ht Hf. destruct (encode_returns fuel t need span st Hc Ht) as [[res st'] Hr].
  { pose proof (depth_enough _ st Ht). lia. }
  exists st'. rewrite Hr. pose proof (encode_computes _ _ _ _ _ _ _ Hc Hr) as Hcomp.
  destruct Hcomp as (-> & Hcomp). done.
Qed.

Definition all_finished (st : State) : Prop := forall k, ~ unfinished k st.

Lemma encode_each_total fuel unwrap tasks st :
  consistent st -> all_finished st -> (forall t, t ∈ tasks -> task_to_key t ∈ universe) ->
  enough_fuel <= fuel ->
  exists st', encode_each fuel unwrap tasks st = Some (Ok tt, st') /\ consistent st' /\
    all_finished st' /\ (forall t, t ∈ tasks -> is_Some (get (task_to_key t) st')) /\
    (forall k, is_Some (get k st) -> is_Some (get k st')).
Proof.
  revert st. induction tasks as [|t tasks IH]; intros st Hc Ha Hu Hf.
  - exists st. split_and!; try done. intros t Ht. by apply not_elem_of_nil in Ht.
  - destruct (encode_total fuel t false no_span st) as (st1 & He & _ & Hfo & Hfin & Hun);
      [done|set_solver|done|].
    destruct (IH st1) as (st' & Hr & Hc' & Ha' & Hp & Hpp);
      [apply Hfo | intros k Hk; by apply (Ha k), Hun | set_solver | done |].
    exists st'. cbn [TaskCache.encode_each]. rewrite He. split_and!; try done.
    + intros t' [-> | Ht']%elem_of_cons; [|by apply Hp].
      apply Hpp. destruct (get (task_to_key t) st1); [by eexists|done].
    + intros k Hk. by apply Hpp, (fo_present _ _ Hfo).
Qed.

Lemma outputs_of_finished (c : list (K * CacheState)) :
  (forall k s, (k, s) ∈ c -> entry_ok k s /\ is_final (Some s) = true) ->
  all_outputs_local c = Ok ((fun k => (full_of k).1) <$> c.*1, []).
Proof.
  induction c as [|[k s] c IH]; intros Hc; [done|]. cbn [all_outputs_local fmap list_fmap fst].
  destruct (Hc k s) as [Hok Hfin]; [set_solver|].
  destruct s as [|?|r deps l d|?|?]; try done. destruct Hok as [_ Hfull].
  rewrite IH by set_solver. cbn. by rewrite <- Hfull.
Qed.

(** ** Properties *)


End task_solve.

(** *** A cycle

    The encoder of task 0 requires the reference of task 1, whose encoder
    requires the full output of task 0; the others stand alone. *)
Module cycle_witness.
Definition program (k : nat) : @prog nat nat nat nat unit string nat :=
  match k with
  | 0 => EmitRef 0 100 (RequireRef 1 None (fun r => Done (r + 1) tt))
  | 1 => EmitRef 1 101 (RequireLocal 0 None (fun l => Done (l + 1) tt))
  | _ => EmitRef k (100 + k) (Done k tt)
  end.
Definition ref_of (k : nat) : nat := 100 + k.
Definition full_of (k : nat) : nat * unit :=
  (match k with 0 => 102 | 1 => 103 | _ => k end, tt).

Lemma solved k : solves id ref_of full_of k false (program k).
Proof. destruct k as [|[|k]]; split_and!; done. Qed.

Definition run_sample := TaskCache.encode (QErr:=Empty_set) id program (fun _ => "e"%string)
  (fun _ => "t"%string) id 0.


Definition fn_item (t : nat) : @item nat :=
  {| def_kind := DefFn; method_task := t; trait_task := t; impl_task := t; is_spec_fn := false;
     proc_spec := None |}.

End cycle_witness.
