(* ===== verification/PreTokens.v ===== *)
(** * Tokens of the assertion language

    [prusti-specs/src/specifications/preparser.rs], first stage: a stream of Rust
    tokens is mapped to Prusti tokens by finding the operators and keywords.

    Token streams are those of procedural macros: a punctuation token is one
    character, [Joint] when the next token continues the operator. The spans of
    tokens, which only place errors, are left out. *)
From S2P Require Import Prelude.
From Stdlib Require Import Ascii.

(** ** Rust tokens *)
Inductive Delimiter := Parenthesis | Brace | Bracket | NoDelimiter.
Inductive Spacing := Joint | Alone.
Record Punct := Punct_new { as_char : ascii; spacing : Spacing }.

Inductive TokenTree :=
| Ident (s : string)
| TPunct (p : Punct)
| Literal (s : string)
| Group (d : Delimiter) (stream : list TokenTree).

#[export] Instance Delimiter_eq_dec : EqDecision Delimiter.
Proof. solve_decision. Defined.
#[export] Instance Spacing_eq_dec : EqDecision Spacing.
Proof. solve_decision. Defined.
#[export] Instance Punct_eq_dec : EqDecision Punct.
Proof. solve_decision. Defined.

Fixpoint tsize (t : TokenTree) : nat :=
  match t with Group _ stream => S (sum_list_with tsize stream) | _ => 1 end.
Definition ssize (source : list TokenTree) : nat := sum_list_with tsize source.

(** What [quote!] makes of an operator: its characters, joint up to the last. *)
Fixpoint quote_chars (cs : list ascii) : list TokenTree :=
  match cs with
  | [] => []
  | [c] => [TPunct (Punct_new c Alone)]
  | c :: cs => TPunct (Punct_new c Joint) :: quote_chars cs
  end.
Definition quote_op (op : string) : list TokenTree := quote_chars (String.list_ascii_of_string op).

Definition is_joint (t : TokenTree) : bool :=
  match t with TPunct p => bool_decide (spacing p = Joint) | _ => false end.

(** ** Prusti tokens *)
Inductive RustOp :=
| RangeInclusive | LeftShiftAssign | RightShiftAssign | Range | AddAssign | SubtractAssign
| MultiplyAssign | DivideAssign | ModuloAssign | BitAndAssign | BitXorAssign | Arrow | Comma
| Semicolon | Assign.

Inductive PrustiBinaryOp :=
| Rust (op : RustOp) | Iff | Implies | ImpliesReverse | Or | And | SnapEq | SnapNe.

Inductive MarkerKind := Old | Rel (execution : nat) | BeforeExpiry.
Inductive Quantifier := QForall | QExists.

Inductive PrustiToken :=
| PGroup (d : Delimiter) (stream : list PrustiToken)
| PToken (t : TokenTree)
| PBinOp (op : PrustiBinaryOp)
| POuter
| PQuantifier (q : Quantifier)
| PSpecEnt (once : bool)
| PCallDesc (once : bool)
| PModeMarker (kind : MarkerKind).

#[export] Instance RustOp_eq_dec : EqDecision RustOp.
Proof. solve_decision. Defined.
#[export] Instance PrustiBinaryOp_eq_dec : EqDecision PrustiBinaryOp.
Proof. solve_decision. Defined.

(** [RustOp::to_tokens]. *)
Definition rust_op_name (op : RustOp) : string :=
  match op with
  | RangeInclusive => "..="
  | LeftShiftAssign => "<<="
  | RightShiftAssign => ">>="
  | Range => ".."
  | AddAssign => "+="
  | SubtractAssign => "-="
  | MultiplyAssign => "*="
  | DivideAssign => "/="
  | ModuloAssign => "%="
  | BitAndAssign => "&="
  | BitXorAssign => "^="
  | Arrow => "=>"
  | Comma => ","
  | Semicolon => ";"
  | Assign => "="
  end.

Definition to_tokens (op : RustOp) : list TokenTree := quote_op (rust_op_name op).

(** ** Operators *)
Definition operator2 (op : string) (p1 p2 : Punct) : bool :=
  let chars := String.list_ascii_of_string op in
  bool_decide ([as_char p1; as_char p2] = take 2 chars)
  && bool_decide (spacing p1 = Joint) && bool_decide (spacing p2 = Alone).

Definition operator3 (op : string) (p1 p2 p3 : Punct) : bool :=
  let chars := String.list_ascii_of_string op in
  bool_decide ([as_char p1; as_char p2; as_char p3] = take 3 chars)
  && bool_decide (spacing p1 = Joint) && bool_decide (spacing p2 = Joint)
  && bool_decide (spacing p3 = Alone).

Definition operator4 (op : string) (p1 p2 p3 p4 : Punct) : bool :=
  let chars := String.list_ascii_of_string op in
  bool_decide ([as_char p1; as_char p2; as_char p3; as_char p4] = take 4 chars)
  && bool_decide (spacing p1 = Joint) && bool_decide (spacing p2 = Joint)
  && bool_decide (spacing p3 = Joint) && bool_decide (spacing p4 = Alone).

Definition parse_op2 (p1 p2 : Punct) : option PrustiToken :=
  if operator2 "&&" p1 p2 then Some (PBinOp And)
  else if operator2 "||" p1 p2 then Some (PBinOp Or)
  else if operator2 "->" p1 p2 then Some (PBinOp Implies)
  else if operator2 ".." p1 p2 then Some (PBinOp (Rust Range))
  else if operator2 "+=" p1 p2 then Some (PBinOp (Rust AddAssign))
  else if operator2 "-=" p1 p2 then Some (PBinOp (Rust SubtractAssign))
  else if operator2 "*=" p1 p2 then Some (PBinOp (Rust MultiplyAssign))
  else if operator2 "/=" p1 p2 then Some (PBinOp (Rust DivideAssign))
  else if operator2 "%=" p1 p2 then Some (PBinOp (Rust ModuloAssign))
  else if operator2 "&=" p1 p2 then Some (PBinOp (Rust BitAndAssign))
  else if operator2 "^=" p1 p2 then Some (PBinOp (Rust BitXorAssign))
  else if operator2 "=>" p1 p2 then Some (PBinOp (Rust Arrow))
  else if operator2 "|=" p1 p2 then Some (PSpecEnt false)
  else if operator2 "~>" p1 p2 then Some (PCallDesc false)
  else None.

Definition parse_op3 (p1 p2 p3 : Punct) : option PrustiToken :=
  if operator3 "==>" p1 p2 p3 then Some (PBinOp Implies)
  else if operator3 "<==" p1 p2 p3 then Some (PBinOp ImpliesReverse)
  else if operator3 "===" p1 p2 p3 then Some (PBinOp SnapEq)
  else if operator3 "!==" p1 p2 p3 then Some (PBinOp SnapNe)
  else if operator3 "..=" p1 p2 p3 then Some (PBinOp (Rust RangeInclusive))
  else if operator3 "<<=" p1 p2 p3 then Some (PBinOp (Rust LeftShiftAssign))
  else if operator3 ">>=" p1 p2 p3 then Some (PBinOp (Rust RightShiftAssign))
  else if operator3 "|=!" p1 p2 p3 then Some (PSpecEnt true)
  else if operator3 "~>!" p1 p2 p3 then Some (PCallDesc true)
  else None.

Definition parse_op4 (p1 p2 p3 p4 : Punct) : option PrustiToken :=
  if operator4 "<==>" p1 p2 p3 p4 then Some (PBinOp Iff) else None.

(** ** The stream of Prusti tokens

    The arms of the match of [PrustiTokenStream::new]: operators of four, three
    and two characters, keywords, operators of one character, the rest of a
    Rust operator, groups, other tokens. *)
Definition op2_at (source : list TokenTree) : option PrustiToken :=
  match source with TPunct p1 :: TPunct p2 :: _ => parse_op2 p1 p2 | _ => None end.

Definition op3_at (source : list TokenTree) : option PrustiToken :=
  match source with
  | TPunct p1 :: TPunct p2 :: TPunct p3 :: _ => parse_op3 p1 p2 p3
  | _ => None
  end.

Definition op4_at (source : list TokenTree) : option PrustiToken :=
  match source with
  | TPunct p1 :: TPunct p2 :: TPunct p3 :: TPunct p4 :: _ => parse_op4 p1 p2 p3 p4
  | _ => None
  end.

Definition keyword (ident : string) : option PrustiToken :=
  if bool_decide (ident = "outer"%string) then Some POuter
  else if bool_decide (ident = "forall"%string) then Some (PQuantifier QForall)
  else if bool_decide (ident = "exists"%string) then Some (PQuantifier QExists)
  else if bool_decide (ident = "old"%string) then Some (PModeMarker Old)
  else if bool_decide (ident = "rel0"%string) then Some (PModeMarker (Rel 0))
  else if bool_decide (ident = "rel1"%string) then Some (PModeMarker (Rel 1))
  else if bool_decide (ident = "before_expiry"%string) then Some (PModeMarker BeforeExpiry)
  else None.

Definition op1 (p : Punct) : option RustOp :=
  if bool_decide (spacing p = Alone) then
    if bool_decide (as_char p = ","%char) then Some Comma
    else if bool_decide (as_char p = ";"%char) then Some Semicolon
    else if bool_decide (as_char p = "="%char) then Some Assign
    else None
  else None.

(** The punctuation that follows a joint character, up to one that is not joint. *)
Fixpoint take_run (source : list TokenTree) : list TokenTree * list TokenTree :=
  match source with
  | TPunct p :: rest =>
      if bool_decide (spacing p = Joint) then
        let '(run, rest) := take_run rest in (TPunct p :: run, rest)
      else ([TPunct p], rest)
  | _ => ([], source)
  end.

Fixpoint new_fuel (fuel : nat) (source : list TokenTree) : list PrustiToken :=
  match fuel with
  | 0 => []
  | S fuel =>
    match source with
    | [] => []
    | token :: rest =>
      match op4_at source with Some op => op :: new_fuel fuel (drop 3 rest) | None =>
      match op3_at source with Some op => op :: new_fuel fuel (drop 2 rest) | None =>
      match op2_at source with Some op => op :: new_fuel fuel (drop 1 rest) | None =>
      match token with
      | Ident ident => default (PToken token) (keyword ident) :: new_fuel fuel rest
      | TPunct p =>
          match op1 p with
          | Some op => PBinOp (Rust op) :: new_fuel fuel rest
          | None =>
              if bool_decide (spacing p = Joint) then
                let '(run, rest) := take_run rest in
                PToken token :: (PToken <$> run) ++ new_fuel fuel rest
              else PToken token :: new_fuel fuel rest
          end
      | Group d stream => PGroup d (new_fuel fuel stream) :: new_fuel fuel rest
      | Literal _ => PToken token :: new_fuel fuel rest
      end end end end
    end
  end.

(** The fuel is the number of tokens, those in groups included. *)
Definition new (source : list TokenTree) : list PrustiToken := new_fuel (ssize source) source.

(** ** The fuel suffices *)
Lemma tsize_pos t : 0 < tsize t.
Proof. destruct t; simpl; lia. Qed.

Lemma ssize_cons t source : ssize (t :: source) = tsize t + ssize source.
Proof. done. Qed.

Lemma ssize_drop n source : ssize (drop n source) <= ssize source.
Proof.
  revert n; induction source as [|t source IH]; intros [|n]; rewrite ?ssize_cons; simpl; try lia.
  specialize (IH n). unfold ssize in *. lia.
Qed.

Lemma take_run_app source : (take_run source).1 ++ (take_run source).2 = source.
Proof.
  induction source as [|[| p | |] source IH]; simpl; try done.
  case_bool_decide; [|done]. destruct (take_run source) as [run rest]. simpl in *. by rewrite IH.
Qed.

Lemma take_run_size source : ssize (take_run source).2 <= ssize source.
Proof.
  rewrite <- (take_run_app source) at 2. unfold ssize.
  induction (take_run source).1; simpl; lia.
Qed.

Lemma new_fuel_enough n m source :
  ssize source <= n -> ssize source <= m -> new_fuel n source = new_fuel m source.
Proof.
  revert m source. induction n as [|n IH]; intros [|m] [|t rest]; rewrite ?ssize_cons; try done.
  1-2: pose proof (tsize_pos t); lia.
  intros Hn Hm. pose proof (tsize_pos t).
  assert (forall s, ssize s <= ssize rest -> new_fuel n s = new_fuel m s) as IHr by (intros; apply IH; lia).
  cbn [new_fuel].
  destruct (op4_at _); [f_equal; apply IHr, ssize_drop|].
  destruct (op3_at _); [f_equal; apply IHr, ssize_drop|].
  destruct (op2_at _); [f_equal; apply IHr, ssize_drop|].
  destruct t as [s|p|s|d stream].
  - f_equal. by apply IHr.
  - destruct (op1 p); [f_equal; by apply IHr|].
    case_bool_decide; [|f_equal; by apply IHr].
    pose proof (take_run_size rest). destruct (take_run rest) as [run rest']. do 2 f_equal. by apply IHr.
  - f_equal. by apply IHr.
  - f_equal; [|by apply IHr]. f_equal. cbn [tsize] in *. apply IH; unfold ssize in *; lia.
Qed.

(** The equation of [new]. *)
Definition new_step (source : list TokenTree) : list PrustiToken :=
  match source with
  | [] => []
  | token :: rest =>
      match op4_at source with Some op => op :: new (drop 3 rest) | None =>
      match op3_at source with Some op => op :: new (drop 2 rest) | None =>
      match op2_at source with Some op => op :: new (drop 1 rest) | None =>
      match token with
      | Ident ident => default (PToken token) (keyword ident) :: new rest
      | TPunct p =>
          match op1 p with
          | Some op => PBinOp (Rust op) :: new rest
          | None =>
              if bool_decide (spacing p = Joint) then
                PToken token :: (PToken <$> (take_run rest).1) ++ new (take_run rest).2
              else PToken token :: new rest
          end
      | Group d stream => PGroup d (new stream) :: new rest
      | Literal _ => PToken token :: new rest
      end end end end
  end.

Lemma new_eq source : new source = new_step source.
Proof.
  unfold new at 1. destruct source as [|t rest]; [done|].
  assert (forall n s, ssize s <= n -> new_fuel n s = new s) as Hn
    by (intros; apply new_fuel_enough; lia).
  rewrite (new_fuel_enough _ (S (ssize (t :: rest)))) by lia. cbn [new_fuel new_step].
  assert (forall s, ssize s <= ssize rest -> new_fuel (ssize (t :: rest)) s = new s) as Hr
    by (intros; apply Hn; rewrite ssize_cons; lia).
  rewrite !Hr by (try apply ssize_drop; lia).
  pose proof (take_run_size rest).
  destruct (op4_at (t :: rest)); [done|]. destruct (op3_at (t :: rest)); [done|].
  destruct (op2_at (t :: rest)); [done|]. destruct t; try done.
  - destruct (op1 p); [done|]. case_bool_decide; [|done].
    destruct (take_run rest) as [run rest']. simpl in *. by rewrite Hr by done.
  - rewrite Hn by (rewrite ssize_cons; cbn [tsize]; unfold ssize; lia). done.
Qed.

(** ** What the tokens spell *)
Lemma operator2_spells op p1 p2 :
  length (String.list_ascii_of_string op) = 2 -> operator2 op p1 p2 = true ->
  quote_op op = [TPunct p1; TPunct p2].
Proof.
  unfold operator2, quote_op. destruct (String.list_ascii_of_string op) as [|c1 [|c2 [|]]]; try done.
  intros _. rewrite !andb_true_iff, !bool_decide_eq_true. destruct p1, p2. simpl. naive_solver.
Qed.

Lemma operator3_spells op p1 p2 p3 :
  length (String.list_ascii_of_string op) = 3 -> operator3 op p1 p2 p3 = true ->
  quote_op op = [TPunct p1; TPunct p2; TPunct p3].
Proof.
  unfold operator3, quote_op. destruct (String.list_ascii_of_string op) as [|c1 [|c2 [|c3 [|]]]]; try done.
  intros _. rewrite !andb_true_iff, !bool_decide_eq_true. destruct p1, p2, p3. simpl. naive_solver.
Qed.

Lemma operator4_spells op p1 p2 p3 p4 :
  length (String.list_ascii_of_string op) = 4 -> operator4 op p1 p2 p3 p4 = true ->
  quote_op op = [TPunct p1; TPunct p2; TPunct p3; TPunct p4].
Proof.
  unfold operator4, quote_op.
  destruct (String.list_ascii_of_string op) as [|c1 [|c2 [|c3 [|c4 [|]]]]]; try done.
  intros _. rewrite !andb_true_iff, !bool_decide_eq_true. destruct p1, p2, p3, p4. simpl. naive_solver.
Qed.

(** The ways to write an operator. *)
Definition spellings (t : PrustiToken) : list string :=
  match t with
  | PBinOp (Rust op) => [rust_op_name op]
  | PBinOp Iff => ["<==>"%string]
  | PBinOp Implies => ["==>"%string; "->"%string]
  | PBinOp ImpliesReverse => ["<=="%string]
  | PBinOp Or => ["||"%string]
  | PBinOp And => ["&&"%string]
  | PBinOp SnapEq => ["==="%string]
  | PBinOp SnapNe => ["!=="%string]
  | PSpecEnt once => [if once then "|=!"%string else "|="%string]
  | PCallDesc once => [if once then "~>!"%string else "~>"%string]
  | _ => []
  end.

Definition is_group (t : TokenTree) : bool := match t with Group _ _ => true | _ => false end.

Inductive spells : list PrustiToken -> list TokenTree -> Prop :=
| spells_nil : spells [] []
| spells_token t toks source :
    is_group t = false -> spells toks source -> spells (PToken t :: toks) (t :: source)
| spells_word op word toks source :
    keyword word = Some op -> spells toks source -> spells (op :: toks) (Ident word :: source)
| spells_op op name toks source :
    name ∈ spellings op -> spells toks source -> spells (op :: toks) (quote_op name ++ source)
| spells_group d inner stream toks source :
    spells inner stream -> spells toks source ->
    spells (PGroup d inner :: toks) (Group d stream :: source).

(** An operator found at the head of the stream is spelled by its first tokens. *)
Definition spelled_ahead (n : nat) (op : PrustiToken) (source : list TokenTree) : Prop :=
  exists name, name ∈ spellings op /\ take n source = quote_op name.

Lemma op4_at_spelled source op : op4_at source = Some op -> spelled_ahead 4 op source.
Proof.
  unfold op4_at, parse_op4, spelled_ahead. intros. repeat case_match; simplify_eq; simpl.
  eexists; split; [|symmetry; eapply operator4_spells; [|eassumption]; done]. set_solver.
Qed.

Lemma op3_at_spelled source op : op3_at source = Some op -> spelled_ahead 3 op source.
Proof.
  unfold op3_at, parse_op3, spelled_ahead. intros. repeat case_match; simplify_eq; simpl;
    (eexists; split; [|symmetry; eapply operator3_spells; [|eassumption]; done]); set_solver.
Qed.

Lemma op2_at_spelled source op : op2_at source = Some op -> spelled_ahead 2 op source.
Proof.
  unfold op2_at, parse_op2, spelled_ahead. intros. repeat case_match; simplify_eq; simpl;
    (eexists; split; [|symmetry; eapply operator2_spells; [|eassumption]; done]); set_solver.
Qed.

Lemma op1_spells p op : op1 p = Some op -> quote_op (rust_op_name op) = [TPunct p].
Proof.
  unfold op1. intros. destruct p. repeat case_bool_decide; simplify_eq/=; by subst.
Qed.

Lemma spells_run rest toks :
  spells toks (take_run rest).2 -> spells ((PToken <$> (take_run rest).1) ++ toks) rest.
Proof.
  induction rest as [|[|p| |] rest IH]; try done. simpl. case_bool_decide; simpl.
  - destruct (take_run rest) as [run rest']. intros. constructor; auto.
  - intros. by constructor.
Qed.

Lemma spells_ahead n op source toks :
  spelled_ahead n op source -> spells toks (drop n source) -> spells (op :: toks) source.
Proof.
  intros (name & Hname & Ht) Hs. rewrite <- (take_drop n source), Ht. by apply spells_op.
Qed.

(** Lexing loses nothing and invents nothing: the tokens spell the source. *)
Lemma new_spells source : spells (new source) source.
Proof.
  induction source as [source IH] using (induction_ltof1 _ ssize). unfold ltof in IH.
  rewrite new_eq. destruct source as [|t rest]; [constructor|]. cbn [new_step].
  pose proof (tsize_pos t) as Ht. rewrite ssize_cons in IH.
  assert (forall s, ssize s <= ssize rest -> spells (new s) s) as IHr by (intros; apply IH; lia).
  destruct (op4_at _) eqn:H4; [eapply (spells_ahead 4), (IHr (drop 3 rest)), ssize_drop; by apply op4_at_spelled|].
  destruct (op3_at _) eqn:H3; [eapply (spells_ahead 3), (IHr (drop 2 rest)), ssize_drop; by apply op3_at_spelled|].
  destruct (op2_at _) eqn:H2; [eapply (spells_ahead 2), (IHr (drop 1 rest)), ssize_drop; by apply op2_at_spelled|].
  destruct t as [s|p|s|d stream].
  - destruct (keyword s) eqn:Hk; simpl; constructor; auto.
  - destruct (op1 p) eqn:H1.
    + apply op1_spells in H1. change (TPunct p :: rest) with ([TPunct p] ++ rest). rewrite <- H1.
      apply spells_op; [set_solver|auto].
    + case_bool_decide; constructor; auto. apply spells_run, IHr, take_run_size.
  - constructor; auto.
  - cbn [tsize] in IH. constructor; [apply IH; unfold ssize; lia | auto].
Qed.

(** ** Concatenation *)
Definition ends_alone (source : list TokenTree) : bool :=
  match last source with Some t => negb (is_joint t) | None => true end.

Lemma ends_alone_cons t source : source <> [] -> ends_alone (t :: source) = ends_alone source.
Proof. unfold ends_alone. by destruct source. Qed.

Lemma ends_alone_drop n source : ends_alone source = true -> ends_alone (drop n source) = true.
Proof.
  revert source; induction n as [|n IH]; intros [|t source] H; try done. simpl. apply IH.
  destruct source; [done|]. by rewrite ends_alone_cons in H.
Qed.

(** Every character of an operator but the last is joint. *)
Lemma parse_op2_joint p1 p2 op : parse_op2 p1 p2 = Some op -> spacing p1 = Joint.
Proof. unfold parse_op2, operator2. destruct (spacing p1); [done|]. by rewrite !andb_false_r. Qed.

Lemma parse_op3_joint p1 p2 p3 op :
  parse_op3 p1 p2 p3 = Some op -> spacing p1 = Joint /\ spacing p2 = Joint.
Proof.
  unfold parse_op3, operator3. destruct (spacing p1), (spacing p2); try done;
    rewrite ?andb_false_r; simpl; by rewrite ?andb_false_r.
Qed.

Lemma parse_op4_joint p1 p2 p3 p4 op :
  parse_op4 p1 p2 p3 p4 = Some op -> spacing p1 = Joint /\ spacing p2 = Joint /\ spacing p3 = Joint.
Proof.
  unfold parse_op4, operator4. destruct (spacing p1), (spacing p2), (spacing p3); try done;
    rewrite ?andb_false_r; simpl; rewrite ?andb_false_r; simpl; by rewrite ?andb_false_r.
Qed.

(** An operator is not found across the end of a stream that does not end joint. *)
Lemma op2_at_app a b : ends_alone a = true -> a <> [] -> op2_at (a ++ b) = op2_at a.
Proof.
  destruct a as [|t1 [|t2 a]]; simpl; try done. intros Ha _. destruct t1; try done.
  destruct b as [|[]]; try done. destruct (parse_op2 p p0) eqn:Hop; [|done].
  apply parse_op2_joint in Hop. unfold ends_alone in Ha. simpl in Ha; by rewrite Hop in Ha.
Qed.

Lemma op3_at_app a b : ends_alone a = true -> a <> [] -> op3_at (a ++ b) = op3_at a.
Proof.
  destruct a as [|t1 [|t2 [|t3 a]]]; simpl; try done; intros Ha _; unfold ends_alone in Ha; simpl in Ha.
  - destruct t1, b as [|[] [|[]]]; try done. destruct (parse_op3 _ _ _) eqn:Hop; [|done].
    apply parse_op3_joint in Hop as [Hop _]. simpl in Ha; by rewrite Hop in Ha.
  - destruct t1, t2, b as [|[]]; try done. destruct (parse_op3 _ _ _) eqn:Hop; [|done].
    apply parse_op3_joint in Hop as [_ Hop]. simpl in Ha; by rewrite Hop in Ha.
Qed.

Lemma op4_at_app a b : ends_alone a = true -> a <> [] -> op4_at (a ++ b) = op4_at a.
Proof.
  destruct a as [|t1 [|t2 [|t3 [|t4 a]]]]; simpl; try done; intros Ha _; unfold ends_alone in Ha; simpl in Ha.
  - destruct t1, b as [|[] [|[] [|[]]]]; try done. destruct (parse_op4 _ _ _ _) eqn:Hop; [|done].
    apply parse_op4_joint in Hop as (Hop & _). simpl in Ha; by rewrite Hop in Ha.
  - destruct t1, t2, b as [|[] [|[]]]; try done. destruct (parse_op4 _ _ _ _) eqn:Hop; [|done].
    apply parse_op4_joint in Hop as (_ & Hop & _). simpl in Ha; by rewrite Hop in Ha.
  - destruct t1, t2, t3, b as [|[]]; try done. destruct (parse_op4 _ _ _ _) eqn:Hop; [|done].
    apply parse_op4_joint in Hop as (_ & _ & Hop). simpl in Ha; by rewrite Hop in Ha.
Qed.

Lemma take_run_app_alone a b : ends_alone a = true -> a <> [] ->
  take_run (a ++ b) = ((take_run a).1, (take_run a).2 ++ b).
Proof.
  induction a as [|t a IH]; [done|]. intros Ha _. destruct t as [|p| |]; try done.
  cbn [app take_run]. case_bool_decide as Hp; [|done].
  destruct a as [|t a].
  - unfold ends_alone in Ha. simpl in Ha. by rewrite Hp in Ha.
  - rewrite IH by (try rewrite ends_alone_cons in Ha by done; done). by destruct (take_run (t :: a)).
Qed.

Lemma take_run_ends_alone a : ends_alone a = true -> ends_alone (take_run a).2 = true.
Proof.
  induction a as [|t a IH]; [done|]. intros Ha. destruct t as [|p| |]; try done.
  cbn [take_run]. destruct a as [|t a]; [by case_bool_decide|]. rewrite ends_alone_cons in Ha by done.
  case_bool_decide; [|done]. specialize (IH Ha). by destruct (take_run (t :: a)).
Qed.

Lemma op_at_length a op :
  (op4_at a = Some op -> 4 <= length a) /\ (op3_at a = Some op -> 3 <= length a) /\
  (op2_at a = Some op -> 2 <= length a).
Proof.
  unfold op4_at, op3_at, op2_at. split_and!; intros; repeat case_match; simplify_eq; simpl; lia.
Qed.

(** Streams that do not end joint are lexed independently of what follows. *)
Lemma new_app a b : ends_alone a = true -> new (a ++ b) = new a ++ new b.
Proof.
  induction a as [a IH] using (induction_ltof1 _ ssize). unfold ltof in IH. intros Ha.
  destruct a as [|t rest]; [done|]. rewrite (new_eq (t :: rest)), new_eq. cbn [new_step app].
  change (t :: rest ++ b) with ((t :: rest) ++ b).
  pose proof (tsize_pos t) as Ht. rewrite ssize_cons in IH.
  assert (ends_alone rest = true) as Hrest by by apply (ends_alone_drop 1) in Ha.
  assert (forall n, n <= length rest -> new (drop n (rest ++ b)) = new (drop n rest) ++ new b) as IHn.
  { intros n Hn. rewrite drop_app_le by done. apply IH; [|by apply ends_alone_drop].
    pose proof (ssize_drop n rest). lia. }
  pose proof (fun op => op_at_length (t :: rest) op) as Hl. cbn [length] in Hl.
  pose proof (op4_at_app _ b Ha) as ->; [|done]. destruct (op4_at (t :: rest)) as [op|].
  { simpl. rewrite IHn; [done|]. destruct (Hl op) as (Hop & _). specialize (Hop eq_refl). lia. }
  pose proof (op3_at_app _ b Ha) as ->; [|done]. destruct (op3_at (t :: rest)) as [op|].
  { simpl. rewrite IHn; [done|]. destruct (Hl op) as (_ & Hop & _). specialize (Hop eq_refl). lia. }
  pose proof (op2_at_app _ b Ha) as ->; [|done]. destruct (op2_at (t :: rest)) as [op|].
  { simpl. rewrite IHn; [done|]. destruct (Hl op) as (_ & _ & Hop). specialize (Hop eq_refl). lia. }
  specialize (IHn 0 (Nat.le_0_l _)). rewrite !drop_0 in IHn.
  destruct t as [s|p|s|d stream]; try (by rewrite IHn).
  destruct (op1 p); [by rewrite IHn|]. case_bool_decide as Hp; [|by rewrite IHn].
  destruct rest as [|t rest].
  - unfold ends_alone in Ha. simpl in Ha. by rewrite Hp in Ha.
  - rewrite take_run_app_alone by done. cbn [fst snd].
    rewrite IH, (app_assoc (PToken <$> _)); [done | | by apply take_run_ends_alone].
    pose proof (take_run_size (t :: rest)). lia.
Qed.
