(* ===== verification/PreParse.v ===== *)
(** * The parser of the assertion language

    [prusti-specs/src/specifications/preparser.rs], second stage: a Pratt parser
    over Prusti tokens that translates to Rust tokens as it goes.

    What the library [syn] is asked is a parameter: the message with which it
    rejects an expression, and the arguments of a closure, each with whether it
    has a type. *)
From S2P Require Import Prelude PreTokens.
From stdpp Require Import pretty.
From Stdlib Require Import Ascii.

(** ** Errors

    An error is a list of messages, since [syn::Error] can be combined. The
    parser is a recursive function with fuel; running out is an error of its own. *)
Inductive perr := OutOfFuel | Error (messages : list string).
Abbreviation Result A := (outcome perr A).
Definition err {A} (msg : string) : Result A := Err (Error [msg]).

(** ** Quoted Rust code *)
Abbreviation TokenStream := (list TokenTree).

Definition paren (ts : TokenStream) : TokenStream := [Group Parenthesis ts].
Definition brace (ts : TokenStream) : TokenStream := [Group Brace ts].
Definition brack (ts : TokenStream) : TokenStream := [Group Bracket ts].
Definition ident (s : string) : TokenStream := [Ident s].
Definition comma : TokenStream := quote_op ",".

(** [::prusti_contracts::name]. *)
Definition contracts (name : string) : TokenStream :=
  quote_op "::" ++ ident "prusti_contracts" ++ quote_op "::" ++ ident name.

(** [#[prusti::spec_only]]. *)
Definition spec_only : TokenStream :=
  quote_op "#" ++ brack (ident "prusti" ++ quote_op "::" ++ ident "spec_only").

(** [#(#items),*] and [#( #items, )*]. *)
Fixpoint separated (items : list TokenStream) : TokenStream :=
  match items with [] => [] | [i] => i | i :: items => i ++ comma ++ separated items end.
Definition terminated (items : list TokenStream) : TokenStream :=
  concat ((fun i => i ++ comma) <$> items).

(** ** Markers, quantifiers and operators *)

(** [MarkerKind::translate]. *)
Definition marker_translate (kind : MarkerKind) (expr : TokenStream) : TokenStream :=
  let execution n := quote_op "::" ++ quote_op "<" ++ [Literal (pretty n +:+ "usize")] ++ quote_op ">" in
  let '(start, end_) :=
    match kind with
    | Old => (contracts "old_start" ++ paren [], contracts "old_end" ++ paren [])
    | Rel n => (contracts "rel_start" ++ execution n ++ paren [],
                contracts "rel_end" ++ execution n ++ paren [])
    | BeforeExpiry => (contracts "before_expiry_start" ++ paren [],
                       contracts "before_expiry_end" ++ paren [])
    end in
  paren (brace (start ++ quote_op ";"
    ++ ident "let" ++ ident "r" ++ quote_op "=" ++ brace expr ++ quote_op ";"
    ++ end_ ++ quote_op ";" ++ ident "r")).

Definition trigger_closure (args trigger : TokenStream) : TokenStream :=
  spec_only ++ quote_op "|" ++ args ++ quote_op "|" ++ paren trigger ++ comma.

(** [Quantifier::translate]. *)
Definition quantifier_translate (q : Quantifier) (triggers : list (list TokenStream))
    (args body : TokenStream) : TokenStream :=
  let trigger_sets := (fun set => paren (concat (trigger_closure args <$> set))) <$> triggers in
  contracts (match q with QForall => "forall" | QExists => "exists" end)
  ++ paren (paren (terminated trigger_sets) ++ comma
       ++ quote_op "&" ++ paren (spec_only ++ quote_op "|" ++ args ++ quote_op "|"
            ++ quote_op "->" ++ ident "bool" ++ brace body)
       ++ comma).

Definition binding_power (op : PrustiBinaryOp) : nat * nat :=
  match op with
  | Rust _ => (0, 0)
  | Iff => (4, 3)
  | Implies => (6, 5)
  | ImpliesReverse => (5, 6)
  | Or => (7, 8)
  | And => (9, 10)
  | SnapEq => (11, 12)
  | SnapNe => (11, 12)
  end.

Definition ghost_ref (e : TokenStream) : TokenStream :=
  contracts "Ghost" ++ quote_op "::" ++ ident "new_ref" ++ paren (quote_op "&" ++ e).

(** [PrustiBinaryOp::translate]. *)
Definition translate (op : PrustiBinaryOp) (raw_lhs raw_rhs : TokenStream) : TokenStream :=
  let lhs := paren raw_lhs in
  let rhs := paren raw_rhs in
  match op with
  | Rust op => raw_lhs ++ to_tokens op ++ raw_rhs
  | Iff => lhs ++ quote_op "==" ++ rhs
  | Implies => (quote_op "!" ++ lhs) ++ quote_op "||" ++ rhs
  | ImpliesReverse => (quote_op "!" ++ rhs) ++ quote_op "||" ++ lhs
  | Or => lhs ++ quote_op "||" ++ rhs
  | And => lhs ++ quote_op "&&" ++ rhs
  | SnapEq => paren (ghost_ref lhs ++ quote_op "==" ++ ghost_ref rhs)
  | SnapNe => paren (ghost_ref lhs ++ quote_op "!=" ++ ghost_ref rhs)
  end.

(** ** Specification entailments *)
Inductive NestedSpec (A : Type) := Requires (a : A) | Ensures (a : A) | Pure.
Arguments Requires {A} a.
Arguments Ensures {A} a.
Arguments Pure {A}.

(** [fn name<GA0, .., GR, F: FnOnce(GA0, ..) -> GR>(_f: &F) -> res { unreachable!() }] *)
Definition extract_fn (name : string) (generics_args : list TokenStream) (res : TokenStream) : TokenStream :=
  spec_only ++ ident "fn" ++ ident name ++ quote_op "<"
  ++ separated generics_args ++ comma ++ ident "GR" ++ comma
  ++ ident "F" ++ quote_op ":" ++ ident "FnOnce" ++ paren (separated generics_args)
  ++ quote_op "->" ++ ident "GR" ++ quote_op ">"
  ++ paren (ident "_f" ++ quote_op ":" ++ quote_op "&" ++ ident "F")
  ++ quote_op "->" ++ res ++ brace (ident "unreachable" ++ quote_op "!" ++ paren []).

Definition spec_closure (cond : TokenStream) : TokenStream :=
  spec_only ++ quote_op "||" ++ quote_op "->" ++ ident "bool"
  ++ brace (paren (paren cond ++ quote_op ":" ++ ident "bool")).

Definition translate_spec_ent (once : bool) (cl_expr : TokenStream) (cl_args : list TokenStream)
    (contract : list (NestedSpec TokenStream)) : TokenStream :=
  let arg_count := length cl_args in
  let generics_args := (fun i => ident ("GA" +:+ pretty i)) <$> seq 0 arg_count in
  let extract_args := (fun i => "__extract_arg" +:+ pretty i) <$> seq 0 arg_count in
  let extract_args_decl :=
    zip_with (fun name arg_type => extract_fn name generics_args arg_type) extract_args generics_args in
  let preconds := omap (fun s => match s with Requires e => Some e | _ => None end) contract in
  let postconds := omap (fun s => match s with Ensures e => Some e | _ => None end) contract in
  brace (ident "let" ++ ident "__cl_ref" ++ quote_op "=" ++ quote_op "&" ++ cl_expr ++ quote_op ";"
    ++ concat extract_args_decl
    ++ extract_fn "__extract_res" generics_args (ident "GR")
    ++ concat (zip_with (fun cl_arg name =>
         ident "let" ++ cl_arg ++ quote_op "=" ++ ident name ++ paren (ident "__cl_ref") ++ quote_op ";")
         cl_args extract_args)
    ++ ident "let" ++ ident "result" ++ quote_op "=" ++ ident "__extract_res"
    ++ paren (ident "__cl_ref") ++ quote_op ";"
    ++ ident "specification_entailment"
    ++ paren (ident (if once then "true" else "false") ++ comma ++ ident "__cl_ref" ++ comma
         ++ paren (terminated (spec_closure <$> preconds)) ++ comma
         ++ paren (terminated (spec_closure <$> postconds)) ++ comma)).

(** ** Taking tokens from the stream

    A method that pops returns what it has taken and the remaining tokens. *)
Abbreviation PrustiTokenStream := (list PrustiToken).

Definition pop_group (delimiter : Delimiter) (ts : PrustiTokenStream) :
    option (PrustiTokenStream * PrustiTokenStream) :=
  match ts with
  | PGroup del stream :: rest => if bool_decide (del = delimiter) then Some (stream, rest) else None
  | _ => None
  end.

Definition is_closure_brace (t : PrustiToken) : bool :=
  match t with
  | PToken (TPunct p) => bool_decide (p = Punct_new "|"%char Alone)
  | _ => false
  end.

Fixpoint pop_until_brace (ts : PrustiTokenStream) : option (PrustiTokenStream * PrustiTokenStream) :=
  match ts with
  | [] => None
  | t :: rest =>
      if is_closure_brace t then Some ([], rest)
      else '(tokens, rest) ← pop_until_brace rest; Some (t :: tokens, rest)
  end.

(** The empty argument list [||] is recognised, but stays in the stream. *)
Definition pop_closure_args (ts : PrustiTokenStream) : option (PrustiTokenStream * PrustiTokenStream) :=
  match ts with
  | PBinOp Or :: _ => Some ([], ts)
  | t :: rest => if is_closure_brace t then pop_until_brace rest else None
  | [] => None
  end.

Definition pop_parenthesized_group (ts : PrustiTokenStream) :
    Result (PrustiTokenStream * PrustiTokenStream) :=
  match pop_group Parenthesis ts with
  | Some r => Ok r
  | None => err "expected parenthesized group"
  end.

Definition pop_single_nested_spec (ts : PrustiTokenStream) :
    Result (NestedSpec PrustiTokenStream * PrustiTokenStream) :=
  match ts with
  | [] => err "expected nested spec"
  | PToken (Ident spec_type) :: rest =>
      if bool_decide (spec_type = "requires"%string) then
        r ← pop_parenthesized_group rest; Ok (Requires r.1, r.2)
      else if bool_decide (spec_type = "ensures"%string) then
        r ← pop_parenthesized_group rest; Ok (Ensures r.1, r.2)
      else if bool_decide (spec_type = "pure"%string) then Ok (Pure, rest)
      else err ("unexpected nested spec type: " +:+ spec_type)
  | _ => err "expected identifier"
  end.

(** [slice::split] at the tokens equal to an operator: one more piece than there
    are such tokens. *)
Fixpoint split_at (split_on : PrustiBinaryOp) (ts : PrustiTokenStream) : list PrustiTokenStream :=
  match ts with
  | [] => [[]]
  | t :: ts =>
      let pieces := split_at split_on ts in
      if (match t with PBinOp op => bool_decide (op = split_on) | _ => false end) then [] :: pieces
      else match pieces with p :: pieces => (t :: p) :: pieces | [] => [[t]] end
  end.

Definition is_empty {A} (l : list A) : bool := match l with [] => true | _ => false end.

Definition split (split_on : PrustiBinaryOp) (allow_trailing : bool) (ts : PrustiTokenStream) :
    list PrustiTokenStream :=
  if is_empty ts then [] else
  let res := split_at split_on ts in
  if allow_trailing && (1 <? length res)
     && (match last res with Some p => is_empty p | None => false end)
  then removelast res else res.

Definition parse_rest {A} (f : PrustiTokenStream -> Result (A * PrustiTokenStream))
    (ts : PrustiTokenStream) : Result A :=
  r ← f ts; if is_empty r.2 then Ok r.1 else err "unexpected extra tokens".

(** [parse_rust_only], for one token: a group is replaced by its contents. *)
Fixpoint rust_only_token (t : PrustiToken) : Result TokenStream :=
  match t with
  | PGroup _ stream => rs ← collect rust_only_token stream; Ok (concat rs)
  | PToken tree => Ok [tree]
  | PBinOp (Rust op) => Ok (to_tokens op)
  | _ => err "unexpected Prusti syntax"
  end.

Definition parse_rust_only (ts : PrustiTokenStream) : Result TokenStream :=
  rs ← collect rust_only_token ts; Ok (concat rs).

(** ** The parser *)
Definition ok_or_else {A} (msg : string) (o : option A) : Result A :=
  match o with Some a => Ok a | None => err msg end.

Section parser.
(** [syn::parse2::<syn::ExprClosure>]: the inputs of the closure, each with
    whether it is a typed pattern. *)
Variable syn_closure : TokenStream -> string + list bool.

Section operations.
(** The parser for the streams inside this one. *)
Variable parse : PrustiTokenStream -> Result TokenStream.

Definition nested_parse (s : NestedSpec PrustiTokenStream) : Result (NestedSpec TokenStream) :=
  match s with
  | Requires stream => e ← parse stream; Ok (Requires e)
  | Ensures stream => e ← parse stream; Ok (Ensures e)
  | Pure => Ok Pure
  end.

Definition pop_group_of_nested_specs (ts : PrustiTokenStream) :
    Result (list (NestedSpec TokenStream) * PrustiTokenStream) :=
  '(group_of_specs, rest) ← ok_or_else "expected nested specification in brackets"
                              (pop_group Bracket ts);
  parsed ← collect (fun stream => s ← parse_rest pop_single_nested_spec stream; nested_parse s)
             (split (Rust Comma) true group_of_specs);
  Ok (parsed, rest).

Definition trigger_set (stream : PrustiTokenStream) : Result (list TokenStream) :=
  '(set, _) ← ok_or_else "trigger sets must be tuples of expressions" (pop_group Parenthesis stream);
  collect parse (split (Rust Comma) true set).

(** [, triggers = [..]]. *)
Definition triggers_suffix (ts : PrustiTokenStream) : option PrustiTokenStream :=
  match ts with
  | [PBinOp (Rust Comma); PToken (Ident ident); PBinOp (Rust Assign); PGroup Bracket triggers] =>
      if bool_decide (ident = "triggers"%string) then Some triggers else None
  | _ => None
  end.

(** [extract_triggers], with the stream that is left. *)
Definition extract_triggers (ts : PrustiTokenStream) :
    Result (list (list TokenStream) * PrustiTokenStream) :=
  let len := length ts in
  if len <? 4 then Ok ([], ts) else
  match triggers_suffix (drop (len - 4) ts) with
  | Some triggers =>
      sets ← collect trigger_set (split (Rust Comma) true triggers);
      Ok (sets, take (len - 4) ts)
  | None => Ok ([], ts)
  end.

Definition parse_mode_marker (kind : MarkerKind) (ts : PrustiTokenStream) :
    Result (TokenStream * PrustiTokenStream) :=
  '(stream, rest) ← ok_or_else "expected parenthesized expression after mode marker"
                      (pop_group Parenthesis ts);
  expr ← parse stream;
  Ok (marker_translate kind expr, rest).

(** Arguments of quantifiers must have explicit types. *)
Definition check_quantifier_args (args : PrustiTokenStream) : Result unit :=
  cl_args ← parse_rust_only args;
  match syn_closure (quote_op "|" ++ cl_args ++ quote_op "|" ++ [Literal "0"]) with
  | inl msg => err msg
  | inr inputs =>
      if forallb id inputs then Ok tt else err "quantifier arguments must have explicit types"
  end.

Definition parse_quantifier (kind : Quantifier) (ts : PrustiTokenStream) :
    Result (TokenStream * PrustiTokenStream) :=
  '(stream, rest) ← ok_or_else "expected parenthesized expression after quantifier"
                      (pop_group Parenthesis ts);
  '(args, stream) ← ok_or_else "expected quantifier body" (pop_closure_args stream);
  _ ← check_quantifier_args args;
  '(triggers, stream) ← extract_triggers stream;
  if is_empty args then err "a quantifier must have at least one argument" else
  args ← parse args;
  body ← parse stream;
  Ok (quantifier_translate kind triggers args body, rest).

Definition parse_spec_ent (once : bool) (lhs : TokenStream) (ts : PrustiTokenStream) :
    Result (TokenStream * PrustiTokenStream) :=
  '(args, rest) ← ok_or_else "expected closure arguments" (pop_closure_args ts);
  '(nested_closure_specs, rest) ← pop_group_of_nested_specs rest;
  cl_args ← collect parse (split (Rust Comma) true args);
  Ok (translate_spec_ent once lhs cl_args nested_closure_specs, rest).

(** The first operand of [expr_bp]; nothing if there are no tokens. *)
Definition expr_start (ts : PrustiTokenStream) : Result (option (TokenStream * PrustiTokenStream)) :=
  match ts with
  | PGroup delimiter stream :: rest => group ← parse stream; Ok (Some ([Group delimiter group], rest))
  | POuter :: rest =>
      _ ← ok_or_else "expected parenthesized expression after outer" (pop_group Parenthesis rest);
      Panic "not yet implemented"
  | PModeMarker kind :: rest => Some <$> parse_mode_marker kind rest
  | PQuantifier kind :: rest => Some <$> parse_quantifier kind rest
  | PSpecEnt _ :: _ | PCallDesc _ :: _ => err "unexpected operator"
  | PBinOp (Rust op) :: rest => Ok (Some (to_tokens op, rest))
  | PBinOp _ :: _ => err "unexpected binary operator"
  | PToken token :: rest => Ok (Some ([token], rest))
  | [] => Ok None
  end.
End operations.

Definition is_rust (op : PrustiBinaryOp) : bool := match op with Rust _ => true | _ => false end.

Fixpoint expr_bp (fuel : nat) (min_bp : nat) (ts : PrustiTokenStream) {struct fuel} :
    Result (TokenStream * PrustiTokenStream) :=
  match fuel with
  | 0 => Err OutOfFuel
  | S fuel =>
      start ← expr_start (fun stream => fst <$> expr_bp fuel 0 stream) ts;
      match start with
      | None => Ok ([], [])
      | Some (lhs, rest) => expr_loop fuel min_bp lhs rest
      end
  end
with expr_loop (fuel : nat) (min_bp : nat) (lhs : TokenStream) (ts : PrustiTokenStream) {struct fuel} :
    Result (TokenStream * PrustiTokenStream) :=
  match fuel with
  | 0 => Err OutOfFuel
  | S fuel =>
      let parse stream := fst <$> expr_bp fuel 0 stream in
      match ts with
      | PGroup delimiter stream :: rest =>
          group ← parse stream; expr_loop fuel min_bp (lhs ++ [Group delimiter group]) rest
      | PToken token :: rest => expr_loop fuel min_bp (lhs ++ [token]) rest
      | PSpecEnt once :: rest =>
          '(lhs, rest) ← parse_spec_ent parse once lhs rest; expr_loop fuel min_bp lhs rest
      | PCallDesc _ :: _ => Panic "not yet implemented: call desc"
      | POuter :: _ => err "unexpected outer"
      | PQuantifier _ :: _ => err "unexpected quantifier"
      | PModeMarker kind :: rest =>
          '(marker, rest) ← parse_mode_marker parse kind rest; expr_loop fuel min_bp (lhs ++ marker) rest
      | [] => Ok (lhs, [])
      | PBinOp op :: rest =>
          let '(l_bp, r_bp) := binding_power op in
          if l_bp <? min_bp then Ok (lhs, ts) else
          '(rhs, rest) ← expr_bp fuel r_bp rest;
          if negb (is_rust op) && is_empty rhs then err "expected expression"
          else expr_loop fuel min_bp (translate op lhs rhs) rest
      end
  end.

(** The number of tokens, those in groups included, with one more for every group. *)
Fixpoint ptsize (t : PrustiToken) : nat :=
  match t with PGroup _ stream => S (S (sum_list_with ptsize stream)) | _ => 1 end.
Definition psize (ts : PrustiTokenStream) : nat := sum_list_with ptsize ts.

(** [PrustiTokenStream::parse]. *)
Definition parse_from (min_bp : nat) (ts : PrustiTokenStream) :
    Result (TokenStream * PrustiTokenStream) := expr_bp (S (psize ts)) min_bp ts.
Definition parse (ts : PrustiTokenStream) : Result TokenStream := fst <$> parse_from 0 ts.

(** ** Entry points *)

(** [syn::parse2::<syn::Expr>], as the message of a rejection, and the display of
    a token stream. *)
Variable syn_expr : TokenStream -> option string.
Variable display : TokenStream -> string.

Definition check_syn (ts : TokenStream) : Result unit :=
  match syn_expr ts with Some msg => err msg | None => Ok tt end.

Definition parse_prusti (tokens : TokenStream) : Result TokenStream :=
  parsed ← parse (new tokens);
  _ ← check_syn parsed;
  Ok parsed.

Definition parse_pledge (ts : PrustiTokenStream) : Result (option TokenStream * TokenStream) :=
  match split (Rust Arrow) false ts with
  | [body] => rhs ← parse body; Ok (None, rhs)
  | [reference; body] => reference ← parse reference; rhs ← parse body; Ok (Some reference, rhs)
  | _ => err "too many arrows in after_expiry"
  end.

(** The pieces are popped from the end. *)
Definition parse_assert_pledge (ts : PrustiTokenStream) :
    Result (option TokenStream * TokenStream * TokenStream) :=
  '(reference, body) ←
    match split (Rust Arrow) false ts with
    | [body] => Ok (None, body)
    | [reference; body] => reference ← parse reference; Ok (Some reference, body)
    | _ => err "too many arrows in assert_on_expiry"
    end;
  match split (Rust Comma) false body with
  | [lhs; rhs] => lhs ← parse lhs; rhs ← parse rhs; Ok (reference, lhs, rhs)
  | _ => err "missing assertion"
  end.

Definition quoted (s : string) : string := String "034"%char (s +:+ String "034"%char EmptyString).

Definition check_reference (what : string) (reference : option TokenStream) : Result unit :=
  match reference with
  | Some reference =>
      if bool_decide (display reference = "result"%string) then Ok tt
      else err ("reference of " +:+ what +:+ " must be " +:+ quoted "result")
  | None => Ok tt
  end.

Definition parse_prusti_pledge (tokens : TokenStream) : Result TokenStream :=
  '(reference, rhs) ← parse_pledge (new tokens);
  _ ← check_reference "after_expiry" reference;
  _ ← check_syn rhs;
  Ok rhs.

Definition parse_prusti_assert_pledge (tokens : TokenStream) : Result (TokenStream * TokenStream) :=
  '(reference, lhs, rhs) ← parse_assert_pledge (new tokens);
  _ ← check_reference "assert_on_expiry" reference;
  _ ← check_syn lhs;
  _ ← check_syn rhs;
  Ok (lhs, rhs).

(** ** Type-conditional refinements

    [where T: A + B, U: C, [requires(..), ..]]. The library parses the keyword,
    the predicates and the commas; of a predicate only what is validated is
    kept beside its tokens. *)
Inductive TypeParamBound := BoundLifetime | BoundTrait (lifetimes : bool).
Record PredicateType := { lifetimes : bool; bounds : list TypeParamBound; predicate_tokens : TokenStream }.
Inductive WherePredicate := WhereType (p : PredicateType) | WhereLifetime | WhereEq.

Variable syn_where : TokenStream -> string + TokenStream.
Variable syn_predicate : TokenStream -> string + (WherePredicate * TokenStream).
Variable syn_comma : TokenStream -> string + TokenStream.

Definition with_type_cond_spec_example {A} (r : string + A) : Result A :=
  match r with
  | inl msg => Err (Error [msg; "expected where constraint and specifications in brackets, e.g.: `refine_spec(where T: A + B, U: C, [requires(...), ...])`"%string])
  | inr a => Ok a
  end.

Definition disallowed_lifetime_error {A} : Result A :=
  err "lifetimes are not allowed in type-conditional spec refinement trait bounds".

Definition validate_trait_bounds (trait_bounds : PredicateType) : Result unit :=
  if lifetimes trait_bounds then disallowed_lifetime_error else
  _ ← collect (fun bound =>
        match bound with
        | BoundLifetime | BoundTrait true => disallowed_lifetime_error
        | BoundTrait false => Ok tt
        end) (bounds trait_bounds);
  Ok tt.

Definition validate_predicate (predicate : WherePredicate) : Result PredicateType :=
  match predicate with
  | WhereType type_bound => _ ← validate_trait_bounds type_bound; Ok type_bound
  | WhereLifetime => disallowed_lifetime_error
  | WhereEq => err "equality constraints are not allowed in type-conditional spec refinements"
  end.

(** The loop ends at a bracket or at the end of the input. *)
Fixpoint parse_trait_bounds (fuel : nat) (input : TokenStream) :
    Result (list PredicateType * TokenStream) :=
  match fuel with
  | 0 => Err OutOfFuel
  | S fuel =>
      '(predicate, input) ← with_type_cond_spec_example (syn_predicate input);
      bound ← validate_predicate predicate;
      input ← with_type_cond_spec_example (syn_comma input);
      match input with
      | [] | Group Bracket _ :: _ => Ok ([bound], input)
      | _ => '(bounds, input) ← parse_trait_bounds fuel input; Ok (bound :: bounds, input)
      end
  end.

Record TypeCondSpecRefinement := { trait_bounds : list PredicateType; specs : list (NestedSpec TokenStream) }.

Definition parse_type_cond_spec (tokens : TokenStream) : Result TypeCondSpecRefinement :=
  input ← with_type_cond_spec_example (syn_where tokens);
  '(bounds, input) ← parse_trait_bounds (S (length input)) input;
  nested ← parse_rest (pop_group_of_nested_specs parse) (new input);
  Ok {| trait_bounds := bounds; specs := nested |}.
End parser.

(** ** Examples of the test suite *)
Module tests.
Definition parse_test := parse_prusti (fun _ => inr [true]) (fun _ => None).
Definition var (s : string) := ident s.

(** [a ==> b ==> c] and [a === b + c]. *)
Example implication : parse_test (var "a" ++ quote_op "==>" ++ var "b" ++ quote_op "==>" ++ var "c")
  = Ok (quote_op "!" ++ paren (var "a") ++ quote_op "||"
          ++ paren (quote_op "!" ++ paren (var "b") ++ quote_op "||" ++ paren (var "c"))).
Proof. reflexivity. Qed.

Example snapshot_equality : parse_test (var "a" ++ quote_op "===" ++ var "b" ++ quote_op "+" ++ var "c")
  = Ok (paren (ghost_ref (paren (var "a")) ++ quote_op "=="
          ++ ghost_ref (paren (var "b" ++ quote_op "+" ++ var "c")))).
Proof. reflexivity. Qed.

(** [forall(|x: i32| a ==> b, triggers = [(c,), (d, e)])]. *)
Example quantifier_with_triggers :
  let arg := var "x" ++ quote_op ":" ++ var "i32" in
  parse_test (ident "forall" ++ paren (quote_op "|" ++ arg ++ quote_op "|"
      ++ var "a" ++ quote_op "==>" ++ var "b" ++ comma ++ ident "triggers" ++ quote_op "="
      ++ brack (paren (var "c" ++ comma) ++ comma ++ paren (var "d" ++ comma ++ var "e"))))
  = Ok (quantifier_translate QForall [[var "c"]; [var "d"; var "e"]] arg
          (quote_op "!" ++ paren (var "a") ++ quote_op "||" ++ paren (var "b"))).
Proof. reflexivity. Qed.
End tests.
