(* ===== verification/PreSound.v ===== *)
(** * The parser of the assertion language always answers

    With the fuel that [parse] provides the parser never runs out of it, however
    deep the stream is nested; its result depends on no more fuel; and it panics
    on the operators that are not implemented only. *)
From S2P Require Import Prelude PreTokens PreParse.

(** ** Streams inside a stream *)

(** The operators without an implementation: [outer], [~>] and [~>!]. *)
Fixpoint supported (t : PrustiToken) : bool :=
  match t with
  | PGroup _ stream => forallb supported stream
  | POuter | PCallDesc _ => false
  | _ => true
  end.

Definition within (s ts : PrustiTokenStream) : Prop :=
  psize s <= psize ts /\ (forallb supported ts = true -> forallb supported s = true).
Definition smaller (s ts : PrustiTokenStream) : Prop :=
  psize s < psize ts /\ (forallb supported ts = true -> forallb supported s = true).

Lemma psize_cons t ts : psize (t :: ts) = ptsize t + psize ts.
Proof. done. Qed.

Lemma ptsize_pos t : 0 < ptsize t.
Proof. destruct t; simpl; lia. Qed.

Lemma within_refl ts : within ts ts.
Proof. by split. Qed.

Lemma smaller_within s ts : smaller s ts -> within s ts.
Proof. intros [? ?]. split; [lia|done]. Qed.

Lemma within_trans a b c : within a b -> within b c -> within a c.
Proof. intros [? ?] [? ?]. split; [lia|auto]. Qed.

Lemma within_smaller a b c : within a b -> smaller b c -> smaller a c.
Proof. intros [? ?] [? ?]. split; [lia|auto]. Qed.

Lemma smaller_within_trans a b c : smaller a b -> within b c -> smaller a c.
Proof. intros [? ?] [? ?]. split; [lia|auto]. Qed.

Lemma smaller_tail t ts : smaller ts (t :: ts).
Proof.
  split; [rewrite psize_cons; pose proof (ptsize_pos t); lia|].
  simpl. by rewrite andb_true_iff; intros [_ ?].
Qed.

Lemma smaller_group d s ts : smaller s (PGroup d s :: ts).
Proof.
  split; [rewrite psize_cons; cbn [ptsize]; unfold psize; lia|].
  simpl. by rewrite andb_true_iff; intros [? _].
Qed.

Create HintDb streams.
#[export] Hint Resolve within_refl smaller_within smaller_tail smaller_group : streams.
#[export] Hint Resolve within_trans within_smaller smaller_within_trans : streams.

Lemma sublist_within s ts : sublist s ts -> within s ts.
Proof.
  induction 1 as [|t s ts _ [IHp IHs]|t s ts _ [IHp IHs]]; [apply within_refl| |];
    (split; [rewrite !psize_cons; lia | simpl; rewrite !andb_true_iff; naive_solver]).
Qed.

Lemma pop_group_inside d ts s rest :
  pop_group d ts = Some (s, rest) -> smaller s ts /\ smaller rest ts.
Proof.
  unfold pop_group. intros. repeat case_match; simplify_eq. split; auto with streams.
Qed.

Lemma pop_until_brace_inside ts s rest :
  pop_until_brace ts = Some (s, rest) -> sublist s ts /\ smaller rest ts.
Proof.
  revert s; induction ts as [|t ts IH]; intros s; [done|]. cbn [pop_until_brace].
  destruct (is_closure_brace t).
  - intros [= <- <-]. split; [apply sublist_nil_l | apply smaller_tail].
  - destruct (pop_until_brace ts) as [[s' rest']|]; intros [= <- <-].
    destruct (IH s' eq_refl) as [Hs Hr]. split; [by constructor|eauto with streams].
Qed.

Lemma pop_closure_args_inside ts s rest :
  pop_closure_args ts = Some (s, rest) -> within s ts /\ within rest ts.
Proof.
  unfold pop_closure_args. destruct ts as [|t ts]; [done|]. intros H.
  assert ((s = [] /\ rest = t :: ts) \/ pop_until_brace ts = Some (s, rest)) as [[-> ->]|Hp].
  { destruct t as [| | [] | | | | |]; simpl in H; simplify_eq; auto; repeat case_match; auto; done. }
  - split; [apply sublist_within, sublist_nil_l | apply within_refl].
  - apply pop_until_brace_inside in Hp as [Hs Hr]. split; [|eauto with streams].
    apply sublist_within in Hs. eauto with streams.
Qed.

Lemma split_at_inside op ts s : s ∈ split_at op ts -> sublist s ts.
Proof.
  revert s; induction ts as [|t ts IH]; intros s; [by intros ->%list_elem_of_singleton|].
  cbn [split_at]. case_match.
  - intros [->|Hs]%elem_of_cons; [apply sublist_nil_l | by constructor; apply IH].
  - destruct (split_at op ts) as [|p ps].
    + intros ->%list_elem_of_singleton. apply sublist_skip, sublist_nil_l.
    + intros [->|Hs]%elem_of_cons.
      * apply sublist_skip, IH. by left.
      * apply sublist_cons, IH. by right.
Qed.

Lemma elem_of_removelast {A} (x : A) l : x ∈ removelast l -> x ∈ l.
Proof.
  induction l as [|y [|z l] IH]; [done|by intros ?%elem_of_nil|].
  cbn [removelast]. rewrite !elem_of_cons in *. naive_solver.
Qed.

Lemma split_inside op b ts s : s ∈ split op b ts -> within s ts.
Proof.
  unfold split. intros Hs. apply sublist_within, (split_at_inside op).
  destruct (is_empty ts); [by apply elem_of_nil in Hs|].
  case_match; [by apply elem_of_removelast | done].
Qed.

Lemma elem_of_group_inside d s ts : PGroup d s ∈ ts -> smaller s ts.
Proof.
  induction ts as [|t ts IH]; [by intros ?%elem_of_nil|].
  intros [<-|Hs]%elem_of_cons; [apply smaller_group|].
  eapply within_smaller; [apply smaller_within, IH, Hs | apply smaller_tail].
Qed.

(** ** Good results

    [good b x y]: the results agree and do not run out of fuel; if [b], there is
    no panic. *)
Definition good {A} (b : bool) (x y : Result A) : Prop :=
  x = y /\ x <> Err OutOfFuel /\ (b = true -> forall msg, x <> Panic msg).

Lemma good_Ok {A} b (a : A) : good b (Ok a) (Ok a).
Proof. done. Qed.

Lemma good_err {A} b msg : good b (@err A msg) (err msg).
Proof. done. Qed.

Lemma good_panic {A} msg : good false (Panic msg : Result A) (Panic msg).
Proof. done. Qed.

Lemma good_weaken {A} b b' (x y : Result A) : good b x y -> (b' = true -> b = true) -> good b' x y.
Proof. intros (? & ? & ?) ?. split_and!; auto. Qed.

Lemma good_ok_or_else {A} b msg (o : option A) : good b (ok_or_else msg o) (ok_or_else msg o).
Proof. by destruct o. Qed.

Lemma good_bind {A B} b (m m' : Result A) (f f' : A -> Result B) :
  good b m m' -> (forall a, m = Ok a -> good b (f a) (f' a)) -> good b (m ≫= f) (m' ≫= f').
Proof.
  intros (<- & Hf & Hp) Hff. destruct m as [a|e|msg]; simpl; [by apply Hff | |].
  - split_and!; [done| |done]. intros [= ->]. by apply Hf.
  - split_and!; try done. intros Hb msg'. by destruct (Hp Hb msg).
Qed.

Lemma good_fmap {A B} b (f : A -> B) (m m' : Result A) : good b m m' -> good b (f <$> m) (f <$> m').
Proof. intros (<- & Hf & Hp). destruct m; split_and!; simpl in *; try done; naive_solver. Qed.

Lemma good_collect {A B} b (f f' : A -> Result B) l :
  (forall x, x ∈ l -> good b (f x) (f' x)) -> good b (collect f l) (collect f' l).
Proof.
  induction l as [|x l IH]; intros Hf; [done|]. cbn [collect].
  apply good_bind; [apply Hf; by left|]. intros y _.
  apply good_bind; [apply IH; intros; apply Hf; by right|]. done.
Qed.
#[export] Hint Resolve good_Ok good_err good_ok_or_else good_fmap : streams.

Lemma rust_only_good b t : good b (rust_only_token t) (rust_only_token t).
Proof.
  induction t as [d s IH| | [] | | | | |] using PrustiToken_ind; simpl; auto with streams.
  apply good_bind; [|auto with streams]. apply good_collect. intros x Hx.
  apply list_all_Forall in IH. by eapply Forall_forall in IH.
Qed.

Lemma parse_rust_only_good b ts : good b (parse_rust_only ts) (parse_rust_only ts).
Proof.
  apply good_bind; [|auto with streams]. apply good_collect. intros. apply rust_only_good.
Qed.

Lemma nested_spec_good b ts :
  good b (parse_rest pop_single_nested_spec ts) (parse_rest pop_single_nested_spec ts).
Proof.
  apply good_bind; [|intros r _; case_match; auto with streams].
  unfold pop_single_nested_spec, pop_parenthesized_group.
  repeat case_match; simplify_eq/=; by split_and!.
Qed.

(** The stream of a nested specification lies inside the stream it is read from. *)
Definition nested_stream (s : NestedSpec PrustiTokenStream) : PrustiTokenStream :=
  match s with Requires e | Ensures e => e | Pure => [] end.

Lemma nested_spec_inside ts s :
  parse_rest pop_single_nested_spec ts = Ok s -> within (nested_stream s) ts.
Proof.
  unfold parse_rest. intros ([s' rest] & Hp & Hs)%bind_Ok_inv. simpl in Hs. case_match; simplify_eq.
  unfold pop_single_nested_spec in Hp. destruct ts as [|[|[w| | |]| | | | | |] ts]; try done.
  assert (forall (f : PrustiTokenStream -> NestedSpec PrustiTokenStream) r,
    pop_parenthesized_group ts ≫= (fun r => Ok (f r.1, r.2)) = Ok (s, r) ->
    exists e, s = f e /\ within e ts) as Hg.
  { intros f r ([e r'] & He & [= <- <-])%bind_Ok_inv. unfold pop_parenthesized_group in He.
    destruct (pop_group Parenthesis ts) as [[e' r2]|] eqn:Hpg; simplify_eq.
    apply pop_group_inside in Hpg as [Hpg _]. eauto with streams. }
  assert (within ts (PToken (Ident w) :: ts)) as Ht by auto with streams.
  repeat case_bool_decide; try done.
  - apply (Hg Requires) in Hp as (e & -> & He). eauto with streams.
  - apply (Hg Ensures) in Hp as (e & -> & He). eauto with streams.
  - simplify_eq. apply sublist_within, sublist_nil_l.
Qed.

(** ** The operations of the parser *)
Section operations_good.
Variable syn_closure : TokenStream -> string + list bool.
Variables p q : PrustiTokenStream -> Result TokenStream.
Variable b : bool.

(** The two parsers agree on every stream inside [ts]. *)
Definition agree_on (ts : PrustiTokenStream) : Prop := forall s, within s ts -> good b (p s) (q s).

Lemma agree_on_within s ts : agree_on ts -> within s ts -> agree_on s.
Proof. intros Ha Hs s' Hs'. apply Ha. eauto with streams. Qed.

Lemma collect_split_good op trailing ts :
  agree_on ts -> good b (collect p (split op trailing ts)) (collect q (split op trailing ts)).
Proof. intros Ha. apply good_collect. intros s Hs. by eapply Ha, split_inside. Qed.

Lemma nested_specs_good ts :
  agree_on ts -> good b (pop_group_of_nested_specs p ts) (pop_group_of_nested_specs q ts).
Proof.
  intros Ha. apply good_bind; [auto with streams|]. intros [specs rest] Hg.
  destruct (pop_group Bracket ts) eqn:Hp; simplify_eq/=. apply pop_group_inside in Hp as [Hs _].
  apply good_bind; [|auto with streams]. apply good_collect. intros piece Hpiece%split_inside.
  apply good_bind; [apply nested_spec_good|]. intros spec Hspec%nested_spec_inside.
  assert (within (nested_stream spec) ts) by eauto with streams.
  destruct spec; simpl in *; try apply good_bind; auto with streams; by apply Ha.
Qed.

Lemma trigger_set_good ts : agree_on ts -> good b (trigger_set p ts) (trigger_set q ts).
Proof.
  intros Ha. apply good_bind; [auto with streams|]. intros [set rest] Hg.
  destruct (pop_group Parenthesis ts) eqn:Hp; simplify_eq/=. apply pop_group_inside in Hp as [Hs _].
  apply collect_split_good, (agree_on_within _ ts); auto with streams.
Qed.

Lemma triggers_suffix_inside ts triggers :
  triggers_suffix (drop (length ts - 4) ts) = Some triggers -> smaller triggers ts.
Proof.
  intros Hs. apply (elem_of_group_inside Bracket).
  rewrite <- (take_drop (length ts - 4) ts). apply elem_of_app. right.
  unfold triggers_suffix in Hs. repeat case_match; simplify_eq. set_solver.
Qed.

Lemma extract_triggers_good ts :
  agree_on ts -> good b (extract_triggers p ts) (extract_triggers q ts).
Proof.
  intros Ha. unfold extract_triggers. case_match; [auto with streams|].
  destruct (triggers_suffix _) as [triggers|] eqn:Hs; [|auto with streams].
  apply triggers_suffix_inside in Hs. apply good_bind; [|auto with streams].
  apply good_collect. intros s Hin%split_inside. apply trigger_set_good, (agree_on_within _ ts); [done|].
  eauto with streams.
Qed.

Lemma extract_triggers_inside ts sets rest :
  extract_triggers p ts = Ok (sets, rest) -> within rest ts.
Proof.
  unfold extract_triggers. case_match; [intros [= <- <-]; auto with streams|].
  case_match; [|intros [= <- <-]; auto with streams].
  intros (? & _ & [= <- <-])%bind_Ok_inv. apply sublist_within, sublist_take.
Qed.

Lemma mode_marker_good kind ts :
  agree_on ts -> good b (parse_mode_marker p kind ts) (parse_mode_marker q kind ts).
Proof.
  intros Ha. apply good_bind; [auto with streams|]. intros [s rest] Hg.
  destruct (pop_group Parenthesis ts) eqn:Hp; simplify_eq/=. apply pop_group_inside in Hp as [Hs _].
  apply good_bind; auto with streams.
Qed.

Lemma mode_marker_inside kind ts out rest :
  parse_mode_marker p kind ts = Ok (out, rest) -> smaller rest ts.
Proof.
  intros ([s r] & Hg & (e & _ & [= <- <-])%bind_Ok_inv)%bind_Ok_inv.
  destruct (pop_group Parenthesis ts) eqn:Hp; simplify_eq/=. by apply pop_group_inside in Hp as [_ ?].
Qed.

Lemma quantifier_good kind ts :
  agree_on ts ->
  good b (parse_quantifier syn_closure p kind ts) (parse_quantifier syn_closure q kind ts).
Proof.
  intros Ha. apply good_bind; [auto with streams|]. intros [s rest] Hg.
  destruct (pop_group Parenthesis ts) eqn:Hp; simplify_eq/=. apply pop_group_inside in Hp as [Hs _].
  apply good_bind; [auto with streams|]. intros [args body] Hb.
  destruct (pop_closure_args s) eqn:Hp; simplify_eq/=. apply pop_closure_args_inside in Hp as [Hargs Hbody].
  apply good_bind.
  { apply good_bind; [apply parse_rust_only_good|]. intros. repeat case_match; auto with streams. }
  intros [] _. apply good_bind; [apply extract_triggers_good, (agree_on_within _ ts); eauto with streams|].
  intros [triggers body'] Ht%extract_triggers_inside. case_match; [auto with streams|].
  apply good_bind; [apply Ha; eauto with streams|]. intros args' _.
  apply good_bind; [apply Ha; eauto with streams | auto with streams].
Qed.

Lemma quantifier_inside kind ts out rest :
  parse_quantifier syn_closure p kind ts = Ok (out, rest) -> smaller rest ts.
Proof.
  intros ([s r] & Hg & Hr)%bind_Ok_inv.
  destruct (pop_group Parenthesis ts) eqn:Hp; simplify_eq/=. apply pop_group_inside in Hp as [_ Hs].
  repeat match goal with
  | H : (_ ≫= _) = Ok _ |- _ => apply bind_Ok_inv in H as (? & _ & H)
  | H : (let '(_, _) := ?x in _) = Ok _ |- _ => destruct x
  | H : (if _ then _ else _) = Ok _ |- _ => case_match
  end; by simplify_eq/=.
Qed.

Lemma spec_ent_good once lhs ts :
  agree_on ts -> good b (parse_spec_ent p once lhs ts) (parse_spec_ent q once lhs ts).
Proof.
  intros Ha. apply good_bind; [auto with streams|]. intros [args rest] Hg.
  destruct (pop_closure_args ts) eqn:Hp; simplify_eq/=. apply pop_closure_args_inside in Hp as [Hargs Hrest].
  apply good_bind; [apply nested_specs_good, (agree_on_within _ ts); auto with streams|].
  intros [specs rest'] _. apply good_bind; [|auto with streams].
  apply collect_split_good, (agree_on_within _ ts); auto with streams.
Qed.

Lemma spec_ent_inside once lhs ts out rest :
  parse_spec_ent p once lhs ts = Ok (out, rest) -> smaller rest ts.
Proof.
  intros ([args r] & Hg & ([specs r'] & Hs & (cl & _ & [= <- <-])%bind_Ok_inv)%bind_Ok_inv)%bind_Ok_inv.
  destruct (pop_closure_args ts) eqn:Hp; simplify_eq/=. apply pop_closure_args_inside in Hp as [_ Hr].
  apply bind_Ok_inv in Hs as ([g r2] & Hg & (parsed & _ & [= <- <-])%bind_Ok_inv).
  destruct (pop_group Bracket r) eqn:Hp; simplify_eq/=. apply pop_group_inside in Hp as [_ Hr2].
  eauto with streams.
Qed.
End operations_good.

(** ** The parser *)
Section parser_good.
Variable syn_closure : TokenStream -> string + list bool.
Abbreviation expr_bp := (PreParse.expr_bp syn_closure) (only parsing).
Abbreviation expr_loop := (PreParse.expr_loop syn_closure) (only parsing).
Abbreviation expr_start := (PreParse.expr_start syn_closure) (only parsing).

Lemma expr_start_good p q b ts :
  (forall s, smaller s ts -> good b (p s) (q s)) -> (b = true -> forallb supported ts = true) ->
  good b (expr_start p ts) (expr_start q ts).
Proof.
  intros Ha Hb. destruct ts as [|t ts]; [done|].
  assert (agree_on p q b ts) as Ht by (intros s Hs; apply Ha; eauto with streams).
  destruct t as [d s| |[]| |kind| | |kind]; simpl; auto with streams.
  - apply good_bind; [apply Ha|]; auto with streams.
  - destruct b; [by specialize (Hb eq_refl)|]. by destruct (pop_group Parenthesis ts).
  - by apply good_fmap, quantifier_good.
  - by apply good_fmap, mode_marker_good.
Qed.

Lemma expr_start_inside p ts out rest : expr_start p ts = Ok (Some (out, rest)) -> smaller rest ts.
Proof.
  destruct ts as [|t ts]; [done|]. intros Hs. eapply within_smaller; [|apply smaller_tail].
  destruct t as [d s| |[]| |kind| | |kind]; simpl in Hs; simplify_eq; auto with streams.
  - apply bind_Ok_inv in Hs as (g & _ & [= <- <-]). auto with streams.
  - by apply bind_Ok_inv in Hs as (g & _ & ?).
  - apply fmap_Ok_inv in Hs as ([] & Hs & ?). simplify_eq. apply quantifier_inside in Hs. auto with streams.
  - apply fmap_Ok_inv in Hs as ([] & Hs & ?). simplify_eq. apply mode_marker_inside in Hs. auto with streams.
Qed.

Lemma expr_inside n :
  (forall min ts out rest, expr_bp n min ts = Ok (out, rest) -> within rest ts) /\
  (forall min lhs ts out rest, expr_loop n min lhs ts = Ok (out, rest) -> within rest ts).
Proof.
  induction n as [|n [IHb IHl]]; [done|]. split.
  - intros min ts out rest ([[lhs rest']|] & Hs & Hr)%bind_Ok_inv.
    + apply expr_start_inside in Hs. apply IHl in Hr. eauto with streams.
    + simplify_eq. apply sublist_within, sublist_nil_l.
  - intros min lhs ts out rest Hr. destruct ts as [|t ts]; [by simplify_eq/=|].
    destruct t as [d s| |op| |kind| | |kind]; cbn [PreParse.expr_loop] in Hr; try done.
    + apply bind_Ok_inv in Hr as (g & _ & Hr). apply IHl in Hr. eauto with streams.
    + apply IHl in Hr. eauto with streams.
    + destruct (binding_power op) as [l_bp r_bp]. case_match; [by simplify_eq; apply within_refl|].
      apply bind_Ok_inv in Hr as ([rhs ts'] & Hrhs & Hr). apply IHb in Hrhs.
      case_match; [done|]. apply IHl in Hr. eauto with streams.
    + apply bind_Ok_inv in Hr as ([lhs' ts'] & Hs & Hr). apply spec_ent_inside in Hs.
      apply IHl in Hr. eauto with streams.
    + apply bind_Ok_inv in Hr as ([marker ts'] & Hs & Hr). apply mode_marker_inside in Hs.
      apply IHl in Hr. eauto with streams.
Qed.

(** With enough fuel the result is good, and the same for any other such fuel. *)
Lemma expr_good n : forall m b,
  (forall min ts, psize ts < n -> psize ts < m -> (b = true -> forallb supported ts = true) ->
     good b (expr_bp n min ts) (expr_bp m min ts)) /\
  (forall min lhs ts, psize ts < n -> psize ts < m -> (b = true -> forallb supported ts = true) ->
     good b (expr_loop n min lhs ts) (expr_loop m min lhs ts)).
Proof.
  induction n as [|n IH]; intros [|m] b; [split; intros; lia ..|].
  assert (forall ts, psize ts < S n -> psize ts < S m -> (b = true -> forallb supported ts = true) ->
    forall s, smaller s ts ->
    good b (fst <$> expr_bp n 0 s) (fst <$> expr_bp m 0 s)) as Hparse.
  { intros ts Hn Hm Hb s [Hs Hsup]. apply good_fmap, IH; auto; lia. }
  split.
  - intros min ts Hn Hm Hb. cbn [PreParse.expr_bp]. apply good_bind.
    + apply expr_start_good; [by apply Hparse | done].
    + intros [[lhs rest]|] Hs; [|auto with streams]. apply expr_start_inside in Hs as [Hp Hsup].
      apply IH; auto; lia.
  - intros min lhs ts Hn Hm Hb. destruct ts as [|t ts]; [done|].
    assert (forall s, within s ts -> smaller s (t :: ts)) as Htail by eauto with streams.
    assert (forall min lhs s, within s ts -> good b (expr_loop n min lhs s) (expr_loop m min lhs s)) as Hloop.
    { intros ? ? s Hs%Htail. destruct Hs. apply IH; auto; lia. }
    assert (agree_on (fun s => fst <$> expr_bp n 0 s) (fun s => fst <$> expr_bp m 0 s) b ts) as Ha.
    { intros s Hs%Htail. by eapply Hparse. }
    destruct t as [d s| |op| |kind| | |kind]; cbn [PreParse.expr_loop]; auto with streams.
    + apply good_bind; [eapply Hparse; eauto with streams | intros; apply Hloop; auto with streams].
    + destruct (binding_power op) as [l_bp r_bp]. case_match; [auto with streams|].
      apply good_bind.
      { destruct (Htail ts (within_refl ts)). apply IH; auto; lia. }
      intros [rhs ts'] Hr. apply expr_inside in Hr. case_match; [auto with streams | by apply Hloop].
    + apply good_bind; [by apply spec_ent_good|]. intros [lhs' ts'] Hs%spec_ent_inside.
      apply Hloop. auto with streams.
    + destruct b; [by specialize (Hb eq_refl)|]. done.
    + apply good_bind; [by apply mode_marker_good|]. intros [marker ts'] Hs%mode_marker_inside.
      apply Hloop. auto with streams.
Qed.

Lemma expr_loop_consumes n lhs ts out rest : expr_loop n 0 lhs ts = Ok (out, rest) -> rest = [].
Proof.
  revert lhs ts. induction n as [|n IH]; [done|]. intros lhs ts Hr.
  destruct ts as [|t ts]; [by simplify_eq/=|].
  destruct t as [d s| |op| |kind| | |kind]; cbn [PreParse.expr_loop] in Hr; try done; eauto;
    try (apply bind_Ok_inv in Hr as ([] & _ & Hr); eauto); try (apply bind_Ok_inv in Hr as (? & _ & Hr); eauto).
  destruct (binding_power op) as [l_bp r_bp]. simpl in Hr.
  apply bind_Ok_inv in Hr as ([] & _ & Hr). case_match; [done|]. eauto.
Qed.

Lemma expr_bp_consumes n ts out rest : expr_bp n 0 ts = Ok (out, rest) -> rest = [].
Proof.
  destruct n as [|n]; [done|]. intros ([[lhs ts']|] & _ & Hr)%bind_Ok_inv.
  - by apply expr_loop_consumes in Hr.
  - by simplify_eq.
Qed.

(** ** Equations without fuel *)
Abbreviation parse := (PreParse.parse syn_closure) (only parsing).
Abbreviation parse_from := (PreParse.parse_from syn_closure) (only parsing).
Definition loop_from (min : nat) (lhs : TokenStream) (ts : PrustiTokenStream) :=
  expr_loop (S (psize ts)) min lhs ts.

Lemma expr_bp_enough n min ts : psize ts < n -> expr_bp n min ts = parse_from min ts.
Proof. intros. apply (expr_good n (S (psize ts)) false); [done|lia|done]. Qed.

Lemma expr_loop_enough n min lhs ts : psize ts < n -> expr_loop n min lhs ts = loop_from min lhs ts.
Proof. intros. apply (expr_good n (S (psize ts)) false); [done|lia|done]. Qed.

Lemma parse_from_good b min ts :
  (b = true -> forallb supported ts = true) -> good b (parse_from min ts) (parse_from min ts).
Proof. intros. apply expr_good; auto. Qed.

Lemma parse_good b ts : (b = true -> forallb supported ts = true) -> good b (parse ts) (parse ts).
Proof. intros. by apply good_fmap, parse_from_good. Qed.

Lemma parse_enough n ts s : smaller s ts -> psize ts <= n -> fst <$> expr_bp n 0 s = parse s.
Proof. intros [Hs _] Hn. unfold PreParse.parse. by rewrite expr_bp_enough by lia. Qed.

Lemma agree_parse n ts : psize ts <= n -> forall s, smaller s ts ->
  good false (fst <$> expr_bp n 0 s) (parse s).
Proof. intros Hn s Hs. rewrite (parse_enough n ts s) by done. by apply parse_good. Qed.

Lemma parse_from_eq min ts :
  parse_from min ts =
    (start ← expr_start parse ts;
     match start with None => Ok ([], []) | Some (lhs, rest) => loop_from min lhs rest end).
Proof.
  unfold PreParse.parse_from. cbn [PreParse.expr_bp].
  destruct (expr_start_good (fun s => fst <$> expr_bp (psize ts) 0 s) parse false ts) as [-> _];
    [by apply agree_parse | done |].
  destruct (expr_start parse ts) as [[[lhs rest]|]| |] eqn:Hs; try done. cbn [mbind outcome_bind].
  apply expr_start_inside in Hs as [Hs _]. by apply expr_loop_enough.
Qed.

Lemma loop_nil min lhs : loop_from min lhs [] = Ok (lhs, []).
Proof. done. Qed.

Lemma loop_token min lhs t ts :
  loop_from min lhs (PToken t :: ts) = loop_from min (lhs ++ [t]) ts.
Proof. done. Qed.

Lemma loop_group min lhs d s ts :
  loop_from min lhs (PGroup d s :: ts) =
    (group ← parse s; loop_from min (lhs ++ [Group d group]) ts).
Proof.
  unfold loop_from at 1. cbn [PreParse.expr_loop].
  rewrite (parse_enough _ (PGroup d s :: ts)) by auto with streams.
  destruct (parse s); [|done..]. cbn [mbind outcome_bind]. apply expr_loop_enough.
  rewrite psize_cons. pose proof (ptsize_pos (PGroup d s)). lia.
Qed.

Lemma loop_marker min lhs kind ts :
  loop_from min lhs (PModeMarker kind :: ts) =
    ('(marker, rest) ← parse_mode_marker parse kind ts; loop_from min (lhs ++ marker) rest).
Proof.
  unfold loop_from at 1. cbn [PreParse.expr_loop].
  destruct (mode_marker_good (fun s => fst <$> expr_bp (psize (PModeMarker kind :: ts)) 0 s) parse
    false kind ts) as [-> _].
  { intros s Hs. apply (agree_parse _ (PModeMarker kind :: ts)); eauto with streams. }
  destruct (parse_mode_marker parse kind ts) as [[marker rest]| |] eqn:Hm; [|done..]. cbn [mbind outcome_bind].
  apply mode_marker_inside in Hm as [Hm _]. apply expr_loop_enough. rewrite psize_cons. cbn [ptsize]. lia.
Qed.

Lemma loop_spec_ent min lhs once ts :
  loop_from min lhs (PSpecEnt once :: ts) =
    ('(lhs, rest) ← parse_spec_ent parse once lhs ts; loop_from min lhs rest).
Proof.
  unfold loop_from at 1. cbn [PreParse.expr_loop].
  destruct (spec_ent_good (fun s => fst <$> expr_bp (psize (PSpecEnt once :: ts)) 0 s) parse
    false once lhs ts) as [-> _].
  { intros s Hs. apply (agree_parse _ (PSpecEnt once :: ts)); eauto with streams. }
  destruct (parse_spec_ent parse once lhs ts) as [[lhs' rest]| |] eqn:Hm; [|done..]. cbn [mbind outcome_bind].
  apply spec_ent_inside in Hm as [Hm _]. apply expr_loop_enough. rewrite psize_cons. cbn [ptsize]. lia.
Qed.

Lemma loop_op min lhs op ts :
  loop_from min lhs (PBinOp op :: ts) =
    if (binding_power op).1 <? min then Ok (lhs, PBinOp op :: ts) else
    '(rhs, rest) ← parse_from (binding_power op).2 ts;
    if negb (is_rust op) && is_empty rhs then err "expected expression"
    else loop_from min (translate op lhs rhs) rest.
Proof.
  unfold loop_from at 1. cbn [PreParse.expr_loop]. destruct (binding_power op) as [l_bp r_bp].
  cbn [fst snd]. case_match; [done|]. rewrite psize_cons. cbn [ptsize Nat.add].
  rewrite expr_bp_enough by lia.
  destruct (parse_from r_bp ts) as [[rhs rest]| |] eqn:Hr; [|done..]. cbn [mbind outcome_bind]. case_match; [done|].
  apply expr_inside in Hr as [Hr _]. apply expr_loop_enough. lia.
Qed.

(** ** Entry points *)
Variable syn_expr : TokenStream -> option string.
Variable display : TokenStream -> string.

Lemma check_syn_good b ts : good b (check_syn syn_expr ts) (check_syn syn_expr ts).
Proof. unfold check_syn. by case_match. Qed.

Lemma check_reference_good b what r : good b (check_reference display what r) (check_reference display what r).
Proof. unfold check_reference. by repeat case_match. Qed.

#[local] Hint Resolve check_syn_good check_reference_good : streams.

Lemma parse_prusti_good b tokens : (b = true -> forallb supported (new tokens) = true) ->
  good b (parse_prusti syn_closure syn_expr tokens) (parse_prusti syn_closure syn_expr tokens).
Proof.
  intros Hb. apply good_bind; [by apply parse_good|]. intros parsed _.
  apply good_bind; auto with streams.
Qed.

Lemma parse_split_good b op ts s : (b = true -> forallb supported ts = true) ->
  s ∈ split op false ts -> good b (parse s) (parse s).
Proof. intros Hb [_ Hs]%split_inside. apply parse_good. auto. Qed.

Lemma parse_pledge_good b ts : (b = true -> forallb supported ts = true) ->
  good b (parse_pledge syn_closure ts) (parse_pledge syn_closure ts).
Proof.
  intros Hb. unfold parse_pledge. pose proof (parse_split_good b (Rust Arrow) ts) as Hs.
  destruct (split _ _ _) as [|s1 [|s2 []]]; auto with streams;
    repeat (apply good_bind; [apply Hs; [done|set_solver]|intros ? _]); auto with streams.
Qed.

Lemma parse_assert_pledge_good b ts : (b = true -> forallb supported ts = true) ->
  good b (parse_assert_pledge syn_closure ts) (parse_assert_pledge syn_closure ts).
Proof.
  intros Hb. unfold parse_assert_pledge.
  assert (forall reference s, s ∈ split (Rust Arrow) false ts ->
    let result : Result (option TokenStream * TokenStream * TokenStream) :=
      match split (Rust Comma) false s with
      | [lhs; rhs] => lhs ← parse lhs; rhs ← parse rhs; Ok (reference, lhs, rhs)
      | _ => err "missing assertion"
      end in good b result result) as Hbody.
  { intros reference s [_ Hs]%split_inside. pose proof (parse_split_good b (Rust Comma) s) as Hp. simpl.
    destruct (split (Rust Comma) false s) as [|s1 [|s2 []]]; auto with streams.
    repeat (apply good_bind; [apply Hp; [auto|set_solver]|intros ? _]). auto with streams. }
  pose proof (parse_split_good b (Rust Arrow) ts) as Hs.
  apply (good_bind b).
  - destruct (split _ _ ts) as [|s1 [|s2 []]]; auto with streams.
    apply good_bind; [apply Hs; [done|set_solver] | auto with streams].
  - intros [reference body] Hr. apply Hbody.
    destruct (split _ _ ts) as [|s1 [|s2 []]]; try done; [simplify_eq; set_solver|].
    apply bind_Ok_inv in Hr as (? & _ & ?). simplify_eq. set_solver.
Qed.

(** A result that is an answer: not for want of fuel, and if [b], not a panic. *)
Definition answers {A} (b : bool) (x : Result A) : Prop :=
  x <> Err OutOfFuel /\ (b = true -> forall msg, x <> Panic msg).

Lemma good_answers {A} b (x y : Result A) : good b x y -> answers b x.
Proof. by intros (_ & ? & ?). Qed.

End parser_good.

#[global] Arguments loop_from : simpl never.
#[global] Arguments PreParse.parse_from : simpl never.
#[global] Arguments PreParse.parse : simpl never.

(** ** Type-conditional refinements *)
Section type_cond.
Variable syn_predicate : TokenStream -> string + (WherePredicate * TokenStream).
Variable syn_comma : TokenStream -> string + TokenStream.
Hypothesis predicate_consumes : forall input p rest,
  syn_predicate input = inr (p, rest) -> length rest <= length input.
Hypothesis comma_consumes : forall input rest,
  syn_comma input = inr rest -> length rest < length input.

Lemma example_Ok {A} (r : string + A) a : with_type_cond_spec_example r = Ok a -> r = inr a.
Proof. destruct r; simpl; intros; by simplify_eq. Qed.

(** The constraints of a refinement hold no lifetimes and there is at least one. *)
Lemma trait_bounds_validated n input found rest :
  parse_trait_bounds syn_predicate syn_comma n input = Ok (found, rest) ->
  found <> [] /\ Forall (fun p => lifetimes p = false /\ Forall (eq (BoundTrait false)) (bounds p)) found.
Proof.
  revert input found; induction n as [|n IH]; intros input found; [done|]. cbn [parse_trait_bounds].
  intros ([p i1] & _ & (b & Hb & (i2 & _ & Hr)%bind_Ok_inv)%bind_Ok_inv)%bind_Ok_inv.
  assert (lifetimes b = false /\ Forall (eq (BoundTrait false)) (bounds b)) as Hok.
  { unfold validate_predicate, validate_trait_bounds in Hb. destruct p as [p| |]; try done.
    apply bind_Ok_inv in Hb as (u & Hv & [= <-]). destruct (lifetimes p); [done|].
    apply bind_Ok_inv in Hv as (us & Hc%collect_Ok & _). split; [done|].
    clear -Hc. induction Hc as [|[|[]] ? ? ? Hb _ IH]; try done. by constructor. }
  destruct i2 as [|[| | |[]] i2]; try (simplify_eq; split; [done|constructor; [done|constructor]]; fail);
    apply bind_Ok_inv in Hr as ([bs r2] & Hr & [= <- <-]); apply IH in Hr as [_ Hr];
    (split; [done|by constructor]).
Qed.

Lemma validate_good b p : good b (validate_predicate p) (validate_predicate p).
Proof.
  destruct p as [p| |]; [|by split_and!..]. apply good_bind; [|auto with streams].
  unfold validate_trait_bounds. destruct (lifetimes p); [by split_and!|].
  apply good_bind; [|auto with streams]. apply good_collect. intros [|[]] _; by split_and!.
Qed.

(** The loop over the constraints ends. *)
Lemma trait_bounds_answer n input :
  length input < n -> parse_trait_bounds syn_predicate syn_comma n input <> Err OutOfFuel.
Proof.
  revert input; induction n as [|n IH]; intros input Hn; [lia|]. cbn [parse_trait_bounds].
  destruct (syn_predicate input) as [|[p i1]] eqn:Hp; [done|]. apply predicate_consumes in Hp.
  cbn [with_type_cond_spec_example mbind outcome_bind].
  destruct (validate_good false p) as (_ & Hv & _).
  destruct (validate_predicate p) as [b|e|]; [|by cbn; congruence|done]. cbn [mbind outcome_bind].
  destruct (syn_comma i1) as [|i2] eqn:Hc; [done|]. apply comma_consumes in Hc.
  cbn [with_type_cond_spec_example mbind outcome_bind]. specialize (IH i2 ltac:(lia)).
  destruct i2 as [|[| | |[]] i2]; try done;
    (destruct (parse_trait_bounds _ _ _ _) as [[]| |]; [done|cbn; congruence|done]).
Qed.
End type_cond.
