(* ===== verification/PreExpr.v ===== *)
(** * Precedence in the assertion language

    The expressions that the documentation describes, as trees of operands and
    operators, how they are written and what Rust code they stand for. The parser
    reads back every tree that respects the binding powers, and every sequence of
    operands and operators is such a tree. *)
From S2P Require Import Prelude PreTokens PreParse PreSound.
From Stdlib Require Import Ascii.

(** ** Expressions

    An operand is Rust code, in which groups may hold expressions again, and
    markers such as [old(..)]; a quantifier starts an operand. Triggers are left
    out here. *)
Inductive expr :=
| Plain (ts : TokenStream)
| Grp (d : Delimiter) (e : expr)
| EmptyGrp (d : Delimiter)
| Marked (kind : MarkerKind) (e : expr)
| Quantified (q : Quantifier) (args : TokenStream) (body : expr)
| Juxt (a b : expr)
| Op (op : PrustiBinaryOp) (l r : expr).

Definition op_name (op : PrustiBinaryOp) : string := default EmptyString (head (spellings (PBinOp op))).

Definition marker_name (kind : MarkerKind) : string :=
  match kind with
  | Old => "old" | Rel 0 => "rel0" | Rel _ => "rel1" | BeforeExpiry => "before_expiry"
  end.

Definition quantifier_name (q : Quantifier) : string :=
  match q with QForall => "forall" | QExists => "exists" end.

(** How an expression is written. *)
Fixpoint spell (e : expr) : TokenStream :=
  match e with
  | Plain ts => ts
  | Grp d e => [Group d (spell e)]
  | EmptyGrp d => [Group d []]
  | Marked kind e => ident (marker_name kind) ++ paren (spell e)
  | Quantified q args body =>
      ident (quantifier_name q) ++ paren (quote_op "|" ++ args ++ quote_op "|" ++ spell body)
  | Juxt a b => spell a ++ spell b
  | Op op l r => spell l ++ quote_op (op_name op) ++ spell r
  end.

(** The Rust code it stands for. *)
Fixpoint desugar (e : expr) : TokenStream :=
  match e with
  | Plain ts => ts
  | Grp d e => [Group d (desugar e)]
  | EmptyGrp d => [Group d []]
  | Marked kind e => marker_translate kind (desugar e)
  | Quantified q args body => quantifier_translate q [] args (desugar body)
  | Juxt a b => desugar a ++ desugar b
  | Op op l r => translate op (desugar l) (desugar r)
  end.

(** Its Prusti tokens. *)
Abbreviation brace_token := (PToken (TPunct (Punct_new "|"%char Alone))).

Fixpoint lexed (e : expr) : PrustiTokenStream :=
  match e with
  | Plain ts => PToken <$> ts
  | Grp d e => [PGroup d (lexed e)]
  | EmptyGrp d => [PGroup d []]
  | Marked kind e => [PModeMarker kind; PGroup Parenthesis (lexed e)]
  | Quantified q args body =>
      [PQuantifier q; PGroup Parenthesis (brace_token :: new args ++ brace_token :: lexed body)]
  | Juxt a b => lexed a ++ lexed b
  | Op op l r => lexed l ++ PBinOp op :: lexed r
  end.

(** ** Canonical trees *)
Definition l_bp (op : PrustiBinaryOp) : nat := (binding_power op).1.
Definition r_bp (op : PrustiBinaryOp) : nat := (binding_power op).2.

(** The operators along the left edge bind at least as tight as [m], those along
    the right edge tighter than [m] on their right. *)
Fixpoint left_at_least (m : nat) (e : expr) : bool :=
  match e with Op op l _ => (m <=? l_bp op) && left_at_least m l | _ => true end.
Fixpoint right_above (m : nat) (e : expr) : bool :=
  match e with Op op _ r => (m <? r_bp op) && right_above m r | _ => true end.

Definition is_operand (e : expr) : bool := match e with Op _ _ _ => false | _ => true end.
Fixpoint no_quantifier (e : expr) : bool :=
  match e with
  | Quantified _ _ _ => false
  | Juxt a b => no_quantifier a && no_quantifier b
  | _ => true
  end.

Definition is_token (t : PrustiToken) : bool := match t with PToken _ => true | _ => false end.

(** Rust code without operators and keywords of Prusti. *)
Definition plain_tokens (ts : TokenStream) : bool :=
  negb (is_empty ts) && ends_alone ts && forallb is_token (new ts).

(** Code without any syntax of Prusti, inside groups as well. *)
Fixpoint rust_only (t : PrustiToken) : bool :=
  match t with
  | PGroup _ stream => forallb rust_only stream
  | PToken _ | PBinOp (Rust _) => true
  | _ => false
  end.

Section canonical.
Variable syn_closure : TokenStream -> string + list bool.

(** Arguments of a quantifier: typed patterns. *)
Definition quantifier_args (args : TokenStream) : bool :=
  negb (is_empty (new args)) && ends_alone args && forallb rust_only (new args)
  && negb (existsb is_closure_brace (new args))
  && match check_quantifier_args syn_closure (new args) with Ok _ => true | _ => false end.

(** The body of a quantifier does not end like a list of triggers. *)
Definition no_triggers (ts : PrustiTokenStream) : bool :=
  match triggers_suffix (drop (length ts - 4) ts) with None => true | Some _ => false end.

Fixpoint canonical (e : expr) : bool :=
  match e with
  | Plain ts => plain_tokens ts
  | Grp _ e => canonical e
  | EmptyGrp _ => true
  | Marked kind e => canonical e && match kind with Rel n => n <? 2 | _ => true end
  | Quantified _ args body => quantifier_args args && canonical body && no_triggers (lexed body)
  | Juxt a b =>
      canonical a && canonical b && is_operand a && is_operand b && no_quantifier b
  | Op op l r =>
      canonical l && canonical r && left_at_least (r_bp op) r && right_above (l_bp op) l
  end.
End canonical.

(** ** Sequences of operands and operators

    An expression is a sequence of operands, each but the last followed by an
    operator. *)
Fixpoint sequence (e : expr) : list (expr * PrustiBinaryOp) * expr :=
  match e with
  | Op op l r =>
      ((sequence l).1 ++ ((sequence l).2, op) :: (sequence r).1, (sequence r).2)
  | _ => ([], e)
  end.

Definition spell_sequence (s : list (expr * PrustiBinaryOp) * expr) : TokenStream :=
  concat ((fun p => spell p.1 ++ quote_op (op_name p.2)) <$> s.1) ++ spell s.2.

(** The canonical tree of a sequence: an operand is attached to the tree of what
    follows it, below the operators that bind looser. *)
Fixpoint attach (a : expr) (op : PrustiBinaryOp) (t : expr) : expr :=
  match t with
  | Op q l r => if r_bp op <=? l_bp q then Op op a t else Op q (attach a op l) r
  | _ => Op op a t
  end.
Definition tree (s : list (expr * PrustiBinaryOp) * expr) : expr :=
  foldr (fun p t => attach p.1 p.2 t) s.2 s.1.

(** ** Lexing *)
Lemma ends_alone_app a b : b <> [] -> ends_alone (a ++ b) = ends_alone b.
Proof. intros Hb. unfold ends_alone. rewrite last_app. by destruct (last b) eqn:Hl; [|apply last_None in Hl]. Qed.

Lemma quote_op_alone op : ends_alone (quote_op op) = true.
Proof.
  unfold quote_op. induction (String.list_ascii_of_string op) as [|c [|c' cs] IH]; [done..|].
  change (ends_alone (TPunct (Punct_new c Joint) :: quote_chars (c' :: cs)) = true).
  rewrite ends_alone_cons; [done|]. by destruct cs.
Qed.

Lemma new_op op : new (quote_op (op_name op)) = [PBinOp op].
Proof. by destruct op as [[]| | | | | | |]. Qed.

Lemma all_tokens toks ts : spells toks ts -> forallb is_token toks = true -> toks = PToken <$> ts.
Proof.
  induction 1 as [| t toks ts _ _ IH|op w toks ts Hk _ _|op name toks ts Hn _ _|]; simpl; try done.
  - intros. by rewrite IH.
  - intros [Hop _]%andb_true_iff. destruct op; try done. unfold keyword in Hk. by repeat case_match.
  - intros [Hop _]%andb_true_iff. destruct op; try done. simpl in Hn. by apply elem_of_nil in Hn.
Qed.

Section lexing.
Variable syn_closure : TokenStream -> string + list bool.
Abbreviation canonical := (canonical syn_closure) (only parsing).

Lemma spell_alone e : canonical e = true -> ends_alone (spell e) = true /\ spell e <> [].
Proof.
  induction e; simpl; rewrite ?andb_true_iff; intros; destruct_and?; try by split.
  - unfold plain_tokens in *. destruct ts; [done|]. rewrite !andb_true_iff in *. naive_solver.
  - destruct IHe1, IHe2; try done. split; [by rewrite ends_alone_app|]. by destruct (spell e1).
  - destruct IHe1, IHe2; try done. split.
    + rewrite ends_alone_app; [|by destruct (quote_op _)]. by rewrite ends_alone_app.
    + by destruct (spell e1).
Qed.

Lemma lex_spell e : canonical e = true -> new (spell e) = lexed e.
Proof.
  induction e; simpl; rewrite ?andb_true_iff; intros; destruct_and?.
  - unfold plain_tokens in *. rewrite !andb_true_iff in *. destruct_and?.
    apply all_tokens; [apply new_spells | done].
  - rewrite new_eq. simpl. by rewrite IHe.
  - done.
  - unfold paren. rewrite new_eq. cbn [new_step op4_at op3_at op2_at].
    rewrite (new_eq [_]). cbn [new_step op4_at op3_at op2_at]. rewrite IHe by done.
    destruct kind as [|[|[]]|]; done.
  - unfold quantifier_args in *. rewrite !andb_true_iff in *. destruct_and?.
    unfold paren. rewrite new_eq. cbn [new_step op4_at op3_at op2_at].
    rewrite (new_eq [_]). cbn [new_step op4_at op3_at op2_at].
    change (TPunct (Punct_new "|" Alone) :: args ++ TPunct (Punct_new "|" Alone) :: spell e)
      with (quote_op "|" ++ args ++ quote_op "|" ++ spell e).
    rewrite !new_app by (by try apply quote_op_alone). rewrite IHe by done. by destruct q.
  - rewrite new_app by by apply spell_alone. by rewrite IHe1, IHe2.
  - rewrite new_app by by apply spell_alone. rewrite new_app by apply quote_op_alone.
    rewrite new_op. by rewrite IHe1, IHe2.
Qed.
End lexing.

(** ** Rust code is left alone *)
Section parsing.
Variable syn_closure : TokenStream -> string + list bool.
Abbreviation canonical := (canonical syn_closure) (only parsing).
Abbreviation parse := (PreParse.parse syn_closure) (only parsing).
Abbreviation parse_from := (PreParse.parse_from syn_closure) (only parsing).
Abbreviation loop_from := (PreSound.loop_from syn_closure) (only parsing).

Lemma parse_of_parse_from ts out : parse_from 0 ts = Ok (out, []) -> parse ts = Ok out.
Proof. unfold PreParse.parse. by intros ->. Qed.

Lemma rust_only_unchanged toks source :
  spells toks source -> forallb rust_only toks = true ->
  (forall lhs, loop_from 0 lhs toks = Ok (lhs ++ source, [])) /\ parse_from 0 toks = Ok (source, []).
Proof.
  induction 1 as [|t toks source Hg _ IH|op w toks source Hk _ IH|op name toks source Hn _ IH
    |d inner stream toks source _ IHi _ IH]; simpl; rewrite ?andb_true_iff.
  - intros _. split; [|done]. intros lhs. by rewrite loop_nil, app_nil_r.
  - intros [Hl _]%IH. rewrite parse_from_eq. simpl. rewrite Hl. split; [|done].
    intros lhs. by rewrite loop_token, Hl, <- app_assoc.
  - intros [Hop _]. unfold keyword in Hk. repeat case_match; simplify_eq.
  - intros [Hop [Hl Hp]%IH].
    destruct op as [| |[o| | | | | | |]| | | | |]; try done; try by apply elem_of_nil in Hn.
    apply list_elem_of_singleton in Hn as ->.
    rewrite parse_from_eq. simpl. rewrite Hl. split; [|done]. intros lhs.
    rewrite loop_op. simpl. rewrite Hp. simpl. by rewrite loop_nil.
  - intros ([_ Hi]%IHi & [Hl _]%IH). apply parse_of_parse_from in Hi.
    rewrite parse_from_eq. simpl. rewrite Hi. simpl. rewrite Hl. split; [|done].
    intros lhs. rewrite loop_group, Hi. simpl. by rewrite Hl, <- app_assoc.
Qed.

Lemma rust_only_parsed source :
  forallb rust_only (new source) = true -> parse (new source) = Ok source.
Proof. intros Hr. apply parse_of_parse_from, rust_only_unchanged; [apply new_spells | done]. Qed.

(** ** Operands *)
Lemma pop_until_brace_found args rest :
  existsb is_closure_brace args = false ->
  pop_until_brace (args ++ brace_token :: rest) = Some (args, rest).
Proof.
  induction args as [|t args IH]; [done|]. cbn [existsb app pop_until_brace].
  intros [-> Hargs]%orb_false_iff. by rewrite IH.
Qed.

Lemma pop_group_found d s rest : pop_group d (PGroup d s :: rest) = Some (s, rest).
Proof. simpl. by rewrite bool_decide_true. Qed.

Lemma pop_closure_args_found args rest :
  existsb is_closure_brace args = false ->
  pop_closure_args (brace_token :: args ++ brace_token :: rest) = Some (args, rest).
Proof. apply pop_until_brace_found. Qed.

Lemma extract_no_triggers ts : no_triggers ts = true -> extract_triggers parse ts = Ok ([], ts).
Proof. unfold no_triggers, extract_triggers. intros. by repeat case_match. Qed.

Lemma quantifier_parsed q args body out rest :
  quantifier_args syn_closure args = true -> no_triggers body = true -> parse body = Ok out ->
  parse_quantifier syn_closure parse q
    (PGroup Parenthesis (brace_token :: new args ++ brace_token :: body) :: rest)
  = Ok (quantifier_translate q [] args out, rest).
Proof.
  unfold quantifier_args. rewrite !andb_true_iff, !negb_true_iff. intros. destruct_and?.
  unfold parse_quantifier. rewrite pop_group_found. cbn [ok_or_else mbind outcome_bind].
  rewrite pop_closure_args_found by done. cbn [ok_or_else mbind outcome_bind].
  destruct (check_quantifier_args syn_closure (new args)) as [[]| |]; try done.
  cbn [mbind outcome_bind]. rewrite extract_no_triggers by done. cbn [mbind outcome_bind].
  destruct (is_empty (new args)); [done|]. rewrite rust_only_parsed by done. cbn [mbind outcome_bind].
  match goal with H : parse body = _ |- _ => by rewrite H end.
Qed.

(** What may follow an expression for the parser to stop there. *)
Definition stops (e : expr) (rest : PrustiTokenStream) : Prop :=
  match rest with
  | [] => True
  | PBinOp op :: _ => right_above (l_bp op) e = true
  | _ => is_operand e = true
  end.

Lemma operand_stops e rest : is_operand e = true -> stops e rest.
Proof. destruct e; try done; intros _; by destruct rest as [|[]]. Qed.

Lemma stops_right op l r rest : stops (Op op l r) rest -> stops r rest /\
  forall lhs, loop_from (r_bp op) lhs rest = Ok (lhs, rest).
Proof.
  unfold stops. destruct rest as [|[]]; try done; simpl.
  rewrite andb_true_iff. intros [Hop%Nat.ltb_lt Hr]. split; [done|]. intros lhs.
  rewrite loop_op. by destruct (Nat.ltb_spec (binding_power op0).1 (r_bp op)); [|unfold l_bp in *; lia].
Qed.

Lemma desugar_nonempty e : canonical e = true -> is_empty (desugar e) = false.
Proof.
  induction e; simpl; rewrite ?andb_true_iff; intros; destruct_and?; try done.
  - unfold plain_tokens in *. by destruct ts.
  - by destruct kind.
  - by destruct (desugar e1); [specialize (IHe1 ltac:(done))|].
  - destruct op; try done. simpl. by destruct (desugar e1); [specialize (IHe1 ltac:(done))|].
Qed.

(** ** The parser reads canonical expressions *)
Definition read (e : expr) : Prop :=
  (forall m rest, left_at_least m e = true -> stops e rest ->
     parse_from m (lexed e ++ rest) = loop_from m (desugar e) rest) /\
  (is_operand e = true -> no_quantifier e = true -> forall m lhs rest,
     loop_from m lhs (lexed e ++ rest) = loop_from m (lhs ++ desugar e) rest).

Lemma left_at_least_0 e : left_at_least 0 e = true.
Proof. by induction e. Qed.

Lemma read_parse e : read e -> parse (lexed e) = Ok (desugar e).
Proof.
  intros [Hr _]. apply parse_of_parse_from.
  rewrite <- (app_nil_r (lexed e)), Hr; [apply loop_nil|apply left_at_least_0|done].
Qed.

Lemma loop_plain m lhs ts rest : loop_from m lhs ((PToken <$> ts) ++ rest) = loop_from m (lhs ++ ts) rest.
Proof.
  revert lhs. induction ts as [|t ts IH]; intros lhs; simpl; [by rewrite app_nil_r|].
  by rewrite loop_token, IH, <- app_assoc.
Qed.

Lemma mode_marker_parsed kind ts out rest : parse ts = Ok out ->
  parse_mode_marker parse kind (PGroup Parenthesis ts :: rest) = Ok (marker_translate kind out, rest).
Proof.
  intros Ht. unfold parse_mode_marker. rewrite pop_group_found. cbn [ok_or_else mbind outcome_bind].
  by rewrite Ht.
Qed.

Lemma read_plain ts : ts <> [] -> read (Plain ts).
Proof.
  intros Hts. split; [|intros _ _ m lhs rest; apply loop_plain]. intros m rest _ _. simpl.
  destruct ts as [|t ts]; [done|]. rewrite parse_from_eq. simpl. by rewrite loop_plain.
Qed.

Lemma read_op op l r :
  canonical r = true -> left_at_least (r_bp op) r = true -> right_above (l_bp op) l = true ->
  read l -> read r -> read (Op op l r).
Proof.
  intros Hr Hlr Hrl [Hl _] [Hp _]. split; [|done]. intros m rest [Hm Hlm]%andb_true_iff Hs.
  apply stops_right in Hs as [Hs Hstop]. simpl. rewrite <- app_assoc. simpl.
  rewrite Hl by done. rewrite loop_op. apply Nat.leb_le in Hm.
  destruct (Nat.ltb_spec (binding_power op).1 m); [unfold l_bp in *; lia|].
  change (binding_power op).2 with (r_bp op). rewrite Hp, Hstop by done. cbn.
  by rewrite desugar_nonempty, andb_false_r by done.
Qed.

Lemma canonical_read e : canonical e = true -> read e.
Proof.
  induction e as [ts|d e IH|d|kind e IH|q args body IH|a IHa b IHb|op l IHl r IHr]; simpl;
    rewrite ?andb_true_iff; intros; destruct_and?.
  - apply read_plain. unfold plain_tokens in *. by destruct ts.
  - pose proof (read_parse e (IH ltac:(done))) as Hp. split.
    + intros m rest _ _. rewrite parse_from_eq. simpl. by rewrite Hp.
    + intros _ _ m lhs rest. simpl. by rewrite loop_group, Hp.
  - split.
    + intros m rest _ _. by rewrite parse_from_eq.
    + intros _ _ m lhs rest. simpl. by rewrite loop_group.
  - pose proof (read_parse e (IH ltac:(done))) as Hp. split.
    + intros m rest _ _. rewrite parse_from_eq. simpl. by rewrite (mode_marker_parsed _ _ _ _ Hp).
    + intros _ _ m lhs rest. simpl. by rewrite loop_marker, (mode_marker_parsed _ _ _ _ Hp).
  - pose proof (read_parse body (IH ltac:(done))) as Hp. split; [|done].
    intros m rest _ _. rewrite parse_from_eq. simpl. by erewrite quantifier_parsed.
  - destruct (IHa ltac:(done)) as [Ha Haq], (IHb ltac:(done)) as [_ Hb]. split.
    + intros m rest _ _. simpl. rewrite <- app_assoc, Ha; [by apply Hb| |by apply operand_stops].
      by destruct a.
    + intros _ [Hqa Hqb]%andb_true_iff m lhs rest. simpl. rewrite <- app_assoc, Haq, Hb by done.
      by rewrite app_assoc.
  - by apply read_op; auto.
Qed.
End parsing.

(** ** Every sequence has one canonical tree *)
Lemma l_bp_mono q q' : l_bp q < r_bp q' -> l_bp q <= l_bp q'.
Proof. destruct q, q'; cbn; lia. Qed.

Lemma spell_sequence_spell e : spell_sequence (sequence e) = spell e.
Proof.
  induction e; simpl; try done. rewrite <- IHe1, <- IHe2. unfold spell_sequence. cbn [fst snd].
  rewrite fmap_app, concat_app, fmap_cons, <- !app_assoc. cbn [concat fst snd].
  by rewrite <- !app_assoc.
Qed.

Lemma attach_above a op t : left_at_least (r_bp op) t = true -> attach a op t = Op op a t.
Proof. destruct t; try done. simpl. by intros [-> _]%andb_true_iff. Qed.

Lemma sequence_attach a op t : is_operand a = true ->
  sequence (attach a op t) = ((a, op) :: (sequence t).1, (sequence t).2).
Proof.
  intros Ha. assert (sequence a = ([], a)) as Hs by by destruct a.
  induction t as [| | | | | |q l IH r _]; simpl; rewrite ?Hs; try done.
  case_match; simpl; rewrite ?Hs; [done|]. by rewrite IH.
Qed.

Lemma right_above_attach m a op t :
  m < r_bp op -> right_above m t = true -> right_above m (attach a op t) = true.
Proof.
  intros Hm%Nat.ltb_lt Ht. destruct t; simpl in *; try case_match; simpl; by rewrite ?Hm, ?Ht.
Qed.

Section trees.
Variable syn_closure : TokenStream -> string + list bool.
Abbreviation canonical := (canonical syn_closure) (only parsing).

Lemma canonical_left_edge m q l r :
  canonical (Op q l r) = true -> m <= l_bp q -> left_at_least m (Op q l r) = true.
Proof.
  revert q r; induction l as [| | | | | |q' l' IH r' _]; intros q1 r1 Hc Hm; simpl in *;
    rewrite !andb_true_iff in *; destruct_and?; (split; [by apply Nat.leb_le|]); try done.
  apply andb_true_iff, (IH q' r'); [by rewrite !andb_true_iff|].
  match goal with H : (_ <? _) = true |- _ => apply Nat.ltb_lt, l_bp_mono in H end. lia.
Qed.

Lemma canonical_attach a op t :
  canonical a = true -> is_operand a = true -> canonical t = true -> canonical (attach a op t) = true.
Proof.
  intros Ha Hop. assert (forall m, right_above m a = true) as Hr by by destruct a.
  assert (forall t, canonical t = true -> left_at_least (r_bp op) t = true -> canonical (Op op a t) = true)
    as Hroot by by intros t' Ht Hl; simpl; rewrite Ha, Ht, Hl, Hr.
  induction t as [| | | | | |q l IH r _]; intros Ht; try by apply Hroot. simpl.
  destruct (Nat.leb_spec (r_bp op) (l_bp q)) as [Hb|Hb].
  - apply Hroot; [done|]. by apply canonical_left_edge.
  - simpl in *. rewrite !andb_true_iff in *. destruct_and?. split_and!; auto.
    by apply right_above_attach.
Qed.

(** Every operator of a tree that is left of a looser operator binds tighter. *)
Lemma canonical_all_above q e :
  canonical e = true -> right_above (l_bp q) e = true ->
  Forall (fun p => l_bp q < r_bp p.2) (sequence e).1.
Proof.
  revert q; induction e as [| | | | | |q' l IHl r IHr]; intros q1; simpl; try by constructor.
  rewrite !andb_true_iff. intros ? [Hq%Nat.ltb_lt Hr]. destruct_and?.
  apply Forall_app. split; [|constructor; [done|by apply IHr]].
  eapply Forall_impl; [by apply (IHl q')|]. simpl. intros [x p]. apply l_bp_mono in Hq. simpl. lia.
Qed.

Lemma tree_below s q l r :
  Forall (fun p => l_bp q < r_bp p.2) s -> tree (s, Op q l r) = Op q (tree (s, l)) r.
Proof.
  unfold tree. simpl. induction 1 as [|[x p] s Hp _ IH]; [done|]. simpl. rewrite IH. simpl.
  by destruct (Nat.leb_spec (r_bp p) (l_bp q)); [simpl in *; lia|].
Qed.

Lemma tree_sequence e : canonical e = true -> tree (sequence e) = e.
Proof.
  induction e as [| | | | | |q l IHl r IHr]; try done. simpl. rewrite !andb_true_iff. intros. destruct_and?.
  unfold tree in *. simpl. rewrite foldr_app. simpl. rewrite IHr by done. rewrite attach_above by done.
  pose proof (tree_below (sequence l).1 q (sequence l).2 r) as Hb. unfold tree in Hb. simpl in Hb.
  rewrite Hb by by apply canonical_all_above. by rewrite IHl.
Qed.

Definition operand_ok (e : expr) : bool := canonical e && is_operand e.

Lemma tree_canonical pre last :
  forallb (fun p => operand_ok p.1) pre = true -> operand_ok last = true ->
  canonical (tree (pre, last)) = true /\ sequence (tree (pre, last)) = (pre, last).
Proof.
  unfold operand_ok, tree. simpl. intros Hp [Hc Hl]%andb_true_iff.
  induction pre as [|[a op] pre IH]; simpl in *; [by destruct last|].
  rewrite !andb_true_iff in Hp. destruct Hp as [[Ha Hop] Hp]. destruct (IH Hp) as [IH1 IH2].
  split; [by apply canonical_attach|]. rewrite sequence_attach by done. by rewrite IH2.
Qed.

(** C26: Every sequence of operands and operators is an expression in exactly one way
    that respects the binding powers, and the parser reads the written sequence
    as that expression: it answers with the Rust code that the expression stands
    for, inside groups, markers and quantifiers as well. *)
Theorem operator_sequences_have_one_reading pre last :
  forallb (fun p => operand_ok p.1) pre = true -> operand_ok last = true ->
  exists e, canonical e = true /\ sequence e = (pre, last) /\
    (forall e', canonical e' = true -> sequence e' = (pre, last) -> e' = e) /\
    parse syn_closure (new (spell_sequence (pre, last))) = Ok (desugar e).
Proof.
  intros Hp Hl. destruct (tree_canonical pre last Hp Hl) as [Hc Hs]. exists (tree (pre, last)).
  split_and!; [done..| |].
  - intros e' Hc' <-. symmetry. by apply tree_sequence.
  - rewrite <- Hs at 1. rewrite spell_sequence_spell, (lex_spell syn_closure) by done.
    by apply (read_parse syn_closure), canonical_read.
Qed.
End trees.

(** ** Rust code, and syntax that is refused *)
Section rust_code.
Variable syn_closure : TokenStream -> string + list bool.
Variable syn_expr : TokenStream -> option string.

(** Rust code without syntax of Prusti passes through unchanged: lexing spells the
    source, and when no keyword or operator of Prusti occurs in it, at any depth,
    the parser gives it back as it is. *)
Theorem rust_code_unchanged source :
  spells (new source) source /\
  (forallb rust_only (new source) = true ->
   parse_prusti syn_closure syn_expr source
   = match syn_expr source with Some msg => err msg | None => Ok source end).
Proof.
  split; [apply new_spells|]. intros Hr. unfold parse_prusti.
  rewrite rust_only_parsed by done. cbn. unfold check_syn. by destruct (syn_expr source).
Qed.

(** The contents of the groups of a stream, without their delimiters. *)
Fixpoint ungrouped_token (t : TokenTree) : TokenStream :=
  match t with Group _ stream => concat (ungrouped_token <$> stream) | _ => [t] end.
Definition ungrouped (source : TokenStream) : TokenStream := concat (ungrouped_token <$> source).

Lemma ungrouped_app a b : ungrouped (a ++ b) = ungrouped a ++ ungrouped b.
Proof. unfold ungrouped. by rewrite fmap_app, concat_app. Qed.

Lemma parse_rust_only_ungrouped toks source :
  spells toks source -> forallb rust_only toks = true -> parse_rust_only toks = Ok (ungrouped source).
Proof.
  assert (forall t ts r r', rust_only_token t = Ok r -> parse_rust_only ts = Ok r' ->
    parse_rust_only (t :: ts) = Ok (r ++ r')) as Hcons.
  { unfold parse_rust_only. intros t ts r r' Ht. simpl. rewrite Ht. simpl.
    intros (rs & -> & [= <-])%bind_Ok_inv. done. }
  induction 1 as [|t toks source Hg _ IH|op w toks source Hk _ IH|op name toks source Hn _ IH
    |d inner stream toks source _ IHi _ IH]; simpl; rewrite ?andb_true_iff; [done|..].
  - intros Ht%IH. rewrite (Hcons (PToken t) _ [t] _ eq_refl Ht). by destruct t.
  - intros [Hop _]. unfold keyword in Hk. repeat case_match; simplify_eq.
  - intros [Hop Ht%IH].
    destruct op as [| |[o| | | | | | |]| | | | |]; try done; try by apply elem_of_nil in Hn.
    apply list_elem_of_singleton in Hn as ->. rewrite ungrouped_app.
    rewrite (Hcons (PBinOp (Rust o)) _ (to_tokens o) _ eq_refl Ht). by destruct o.
  - intros [Hi%IHi Ht%IH]. by rewrite (Hcons (PGroup d inner) _ (ungrouped stream) _ Hi Ht).
Qed.

(** The check that quantified variables have types forgets the delimiters of the
    groups in the arguments: what [syn] is asked about is the closure with the
    parentheses and brackets removed, so that a variable of a tuple type, as in
    [|p: (i32, i32)|], is judged as two patterns of which the second has no type. *)
Theorem quantifier_check_forgets_groups args :
  forallb rust_only (new args) = true ->
  check_quantifier_args syn_closure (new args)
  = match syn_closure (quote_op "|" ++ ungrouped args ++ quote_op "|" ++ [Literal "0"]) with
    | inl msg => err msg
    | inr inputs =>
        if forallb id inputs then Ok tt else err "quantifier arguments must have explicit types"
    end.
Proof.
  intros Hr. unfold check_quantifier_args.
  by rewrite (parse_rust_only_ungrouped _ args) by (try apply new_spells; done).
Qed.

(** The arguments of a specification entailment cannot be empty: [||] is taken
    for an empty list of arguments but left in the stream, so whatever follows,
    the parser rejects the entailment. *)
Theorem empty_entailment_rejected f (once : bool) rest :
  plain_tokens f = true ->
  parse_prusti syn_closure syn_expr
    (f ++ quote_op (if once then "|=!" else "|=") ++ quote_op "||" ++ rest)
  = err "expected nested specification in brackets".
Proof.
  intros Hf. unfold parse_prusti, plain_tokens in *. rewrite !andb_true_iff in Hf. destruct_and?.
  rewrite new_app by done. rewrite new_app by apply quote_op_alone.
  rewrite (new_app (quote_op "||")) by apply quote_op_alone.
  rewrite (all_tokens (new f) f) by (try apply new_spells; done).
  assert (new (quote_op (if once then "|=!" else "|=")) = [PSpecEnt once]) as -> by by destruct once.
  change (new (quote_op "||")) with [PBinOp Or]. destruct f as [|t f]; [done|].
  unfold PreParse.parse. rewrite parse_from_eq. simpl. rewrite loop_plain.
  by rewrite loop_spec_ent.
Qed.
End rust_code.

Module reading_witness.
Definition var (s : string) : expr := Plain (ident s).
Definition no_closures : TokenStream -> string + list bool := fun _ => inl "not a closure"%string.

(** [a ==> b ==> c && d]. *)
Lemma operator_sequences_have_one_reading_witness :
  exists e, canonical no_closures e = true /\
    sequence e = ([(var "a", Implies); (var "b", Implies); (var "c", And)], var "d") /\
    (forall e', canonical no_closures e' = true ->
       sequence e' = ([(var "a", Implies); (var "b", Implies); (var "c", And)], var "d") -> e' = e) /\
    parse no_closures
      (new (spell_sequence ([(var "a", Implies); (var "b", Implies); (var "c", And)], var "d")))
    = Ok (desugar e).
Proof. apply (operator_sequences_have_one_reading no_closures); reflexivity. Defined.

Example implication_associates_right :
  tree ([(var "a", Implies); (var "b", Implies); (var "c", And)], var "d")
  = Op Implies (var "a") (Op Implies (var "b") (Op And (var "c") (var "d"))).
Proof. reflexivity. Qed.

(** [p: (i32, i32)], with a check of closures that wants a colon in every argument. *)
Definition pair_arg : TokenStream :=
  ident "p" ++ quote_op ":" ++ paren (ident "i32" ++ comma ++ ident "i32").
Fixpoint arguments (ts : TokenStream) : list TokenStream :=
  match ts with
  | [] => [[]]
  | t :: ts =>
      match arguments ts with
      | p :: ps => if match t with TPunct c => bool_decide (as_char c = ","%char) | _ => false end
                   then [] :: p :: ps else (t :: p) :: ps
      | [] => [[t]]
      end
  end.
Definition typed (arg : TokenStream) : bool :=
  existsb (fun t => match t with TPunct c => bool_decide (as_char c = ":"%char) | _ => false end) arg.
Definition closure_check (ts : TokenStream) : string + list bool := inr (typed <$> arguments ts).

Lemma quantifier_check_forgets_groups_witness :
  check_quantifier_args closure_check (new pair_arg) = err "quantifier arguments must have explicit types".
Proof. rewrite (quantifier_check_forgets_groups closure_check pair_arg); reflexivity. Defined.

Lemma empty_entailment_rejected_witness :
  parse_prusti no_closures (fun _ => None)
    (ident "f" ++ quote_op "|=" ++ quote_op "||" ++ brack (ident "ensures" ++ paren (ident "true")))
  = err "expected nested specification in brackets".
Proof. apply (empty_entailment_rejected no_closures (fun _ => None) (ident "f") false); reflexivity. Defined.
End reading_witness.
