(* ===== verification/PreMeaning.v ===== *)
(** * The meaning of the Rust code for an assertion

    What the operators of the assertion language mean, with the order in which
    operands are evaluated, and what the Rust code means that the preparser makes
    of them, by the precedences of Rust. Groups in parentheses, [!], [==], [!=],
    [&&] and [||] are interpreted here; all other Rust code is what an
    interpretation of the class below says. *)
From S2P Require Import Prelude PreTokens PreParse PreSound PreExpr.
From Stdlib Require Import Ascii.

(** ** Values

    [rust_eq] is [PartialEq], which may be user code; [snap_eq] is equality of
    snapshots, which [Ghost] compares by. Evaluation may panic. *)
Inductive ill_typed := IllTyped.

Class RustValues := {
  value : Type;
  of_bool : bool -> value;
  as_bool : value -> option bool;
  rust_eq : value -> value -> outcome ill_typed bool;
  snap_eq : value -> value -> bool;
  rust_code : TokenStream -> outcome ill_typed value;
  as_bool_of_bool b : as_bool (of_bool b) = Some b;
  rust_eq_bool v w a b :
    as_bool v = Some a -> as_bool w = Some b -> rust_eq v w = Ok (Bool.eqb a b);
  of_bool_as_bool v b : as_bool v = Some b -> v = of_bool b;
}.

Section meaning.
Context `{RustValues}.
Abbreviation eval := (outcome ill_typed value).

Definition truth (v : eval) : outcome ill_typed bool :=
  x ← v; match as_bool x with Some b => Ok b | None => Err IllTyped end.

Definition yields (b : outcome ill_typed bool) : eval := of_bool <$> b.

(** Short-circuiting connectives: the second operand is not evaluated when the
    first decides. *)
Definition rust_or (a b : eval) : eval :=
  truth a ≫= fun x : bool => if x then Ok (of_bool true) else yields (truth b).
Definition rust_and (a b : eval) : eval :=
  truth a ≫= fun x : bool => if x then yields (truth b) else Ok (of_bool false).
Definition rust_not (a : eval) : eval := yields (negb <$> truth a).

(** ** Rust code

    A token comes with the value of its contents, if it is a parenthesis. *)
Abbreviation valued := (TokenTree * eval)%type.

Definition is_punct (c : ascii) (sp : Spacing) (t : TokenTree) : bool :=
  match t with TPunct p => bool_decide (p = Punct_new c sp) | _ => false end.

(** The pieces between the occurrences of an operator of two characters. *)
Fixpoint pieces (c1 c2 : ascii) (ts : list valued) : list (list valued) :=
  match ts with
  | [] => [[]]
  | t1 :: rest =>
      let keep := match pieces c1 c2 rest with p :: ps => (t1 :: p) :: ps | [] => [[t1]] end in
      match rest with
      | t2 :: rest' =>
          if is_punct c1 Joint t1.1 && is_punct c2 Alone t2.1 then [] :: pieces c1 c2 rest' else keep
      | [] => keep
      end
  end.

(** [::prusti_contracts::Ghost::new_ref(&..)], with the value that is wrapped. *)
Definition as_ghost (ts : list valued) : option eval :=
  match ts with
  | [(TPunct p1, _); (TPunct p2, _); (Ident s1, _); (TPunct p3, _); (TPunct p4, _); (Ident s2, _);
     (TPunct p5, _); (TPunct p6, _); (Ident s3, _); (Group Parenthesis (TPunct p7 :: _), v)] =>
      if bool_decide ([p1; p2; p3; p4; p5; p6] = concat (replicate 3 [Punct_new ":"%char Joint; Punct_new ":"%char Alone]))
         && bool_decide (p7 = Punct_new "&"%char Alone)
         && bool_decide ([s1; s2; s3] = ["prusti_contracts"; "Ghost"; "new_ref"]%string)
      then Some v else None
  | _ => None
  end.

(** [!], [&] and operands without operators. A reference is as good as its value. *)
Fixpoint unary (ts : list valued) : eval :=
  match ts with
  | [] => Err IllTyped
  | t :: rest =>
      if is_punct "!" Alone t.1 then rust_not (unary rest)
      else if is_punct "&" Alone t.1 then unary rest
      else match ts with
           | [(Group Parenthesis _, v)] => v
           | _ => rust_code ts.*1
           end
  end.

(** Comparisons do not associate. *)
Definition comparison (ts : list valued) : eval :=
  let compare (negated : bool) l r :=
    let flip (b : bool) := if negated then negb b else b in
    match as_ghost l, as_ghost r with
    | Some v, Some w => x ← v; y ← w; Ok (of_bool (flip (snap_eq x y)))
    | _, _ => x ← unary l; y ← unary r; yields (flip <$> rust_eq x y)
    end in
  match pieces "=" "=" ts, pieces "!" "=" ts with
  | [_], [_] => unary ts
  | [l; r], [_] => compare false l r
  | [_], [l; r] => compare true l r
  | _, _ => Err IllTyped
  end.

Fixpoint chain (connective : eval -> eval -> eval) (operands : list eval) : eval :=
  match operands with
  | [] => Err IllTyped
  | [v] => v
  | v :: vs => connective v (chain connective vs)
  end.

Definition conjunction (ts : list valued) : eval :=
  chain rust_and (comparison <$> pieces "&" "&" ts).
Definition disjunction (ts : list valued) : eval :=
  chain rust_or (conjunction <$> pieces "|" "|" ts).

Fixpoint contents (t : TokenTree) : eval :=
  match t with
  | Group Parenthesis ts => disjunction (map (fun t => (t, contents t)) ts)
  | _ => Err IllTyped
  end.

(** The value of a Rust expression. *)
Definition eval_rust (ts : TokenStream) : eval := disjunction (map (fun t => (t, contents t)) ts).

(** ** Prusti expressions *)
Definition implies (a b : eval) : eval :=
  truth a ≫= fun x : bool => if x then yields (truth b) else Ok (of_bool true).

Fixpoint meaning (e : expr) : eval :=
  match e with
  | Op And l r => rust_and (meaning l) (meaning r)
  | Op Or l r => rust_or (meaning l) (meaning r)
  | Op Implies l r => implies (meaning l) (meaning r)
  | Op ImpliesReverse l r => implies (meaning r) (meaning l)
  | Op Iff l r => a ← truth (meaning l); b ← truth (meaning r); Ok (of_bool (Bool.eqb a b))
  | Op SnapEq l r => x ← meaning l; y ← meaning r; Ok (of_bool (snap_eq x y))
  | Op SnapNe l r => x ← meaning l; y ← meaning r; Ok (of_bool (negb (snap_eq x y)))
  | Grp Parenthesis e => meaning e
  | _ => eval_rust (desugar e)
  end.

(** ** The code of the operators *)
Lemma eval_or l r :
  eval_rust (paren l ++ quote_op "||" ++ paren r) = rust_or (eval_rust l) (eval_rust r).
Proof. reflexivity. Qed.

Lemma eval_and l r :
  eval_rust (paren l ++ quote_op "&&" ++ paren r) = rust_and (eval_rust l) (eval_rust r).
Proof. reflexivity. Qed.

Lemma eval_not_or l r :
  eval_rust ((quote_op "!" ++ paren l) ++ quote_op "||" ++ paren r)
  = rust_or (rust_not (eval_rust l)) (eval_rust r).
Proof. reflexivity. Qed.

Lemma eval_eq l r :
  eval_rust (paren l ++ quote_op "==" ++ paren r)
  = (x ← eval_rust l; y ← eval_rust r; yields (id <$> rust_eq x y)).
Proof. reflexivity. Qed.

Lemma eval_snap_eq l r :
  eval_rust (translate SnapEq l r)
  = (x ← eval_rust l; y ← eval_rust r; Ok (of_bool (snap_eq x y))).
Proof. reflexivity. Qed.

Lemma eval_snap_ne l r :
  eval_rust (translate SnapNe l r)
  = (x ← eval_rust l; y ← eval_rust r; Ok (of_bool (negb (snap_eq x y)))).
Proof. reflexivity. Qed.

Lemma eval_group e : eval_rust (paren e) = eval_rust e.
Proof. reflexivity. Qed.

(** ** Well-typed expressions *)
Definition well_typed {A} (v : outcome ill_typed A) : Prop := v <> Err IllTyped.

Lemma truth_typed v : well_typed (truth v) -> well_typed v.
Proof. intros Hv Hn. apply Hv. by rewrite Hn. Qed.

Lemma implies_is_or a b : implies a b = rust_or (rust_not a) b.
Proof.
  unfold implies, rust_or, rust_not. destruct (truth a) as [[]|[]|]; simpl; unfold truth; simpl;
    by rewrite ?as_bool_of_bool.
Qed.

Lemma typed_yields b : well_typed (yields b) -> well_typed b.
Proof. intros Hv Hn. apply Hv. by rewrite Hn. Qed.

(** The connectives and comparisons look at a second operand only if the first
    lets them, so the meaning of a well-typed expression depends on operands only
    where these are well-typed. *)
Lemma connective_cong (f : bool -> eval -> eval) (a a' b b' : eval) :
  well_typed (truth a ≫= fun x => f x b) ->
  (well_typed a -> a' = a) ->
  (forall x, truth a = Ok x -> well_typed (f x b) -> f x b' = f x b) ->
  (truth a' ≫= fun x => f x b') = (truth a ≫= fun x => f x b).
Proof.
  intros Hw Ha Hb. assert (well_typed a) as Hwa.
  { intros Hn. apply Hw. by rewrite Hn. }
  rewrite Ha by done. destruct (truth a) as [x| |] eqn:Ht; simpl in *; auto.
Qed.

Lemma yields_cong (b b' : eval) :
  (well_typed b -> b' = b) -> well_typed (yields (truth b)) -> yields (truth b') = yields (truth b).
Proof. intros Hb Hw. rewrite Hb; [done|]. by apply truth_typed, typed_yields. Qed.

Lemma both_cong {A} (f : value -> value -> outcome ill_typed A) (a a' b b' : eval) :
  well_typed (x ← a; y ← b; f x y) -> (well_typed a -> a' = a) -> (well_typed b -> b' = b) ->
  (x ← a'; y ← b'; f x y) = (x ← a; y ← b; f x y).
Proof.
  intros Hw Ha Hb. rewrite Ha by (intros Hn; apply Hw; by rewrite Hn).
  destruct a as [x| |]; try done. simpl in *. rewrite Hb; [done|]. intros Hn. apply Hw. by rewrite Hn.
Qed.

(** [==] on boolean operands. *)
Lemma iff_eq a b : well_typed (x ← truth a; y ← truth b; Ok (of_bool (Bool.eqb x y))) ->
  (x ← a; y ← b; yields (id <$> rust_eq x y))
  = (x ← truth a; y ← truth b; Ok (of_bool (Bool.eqb x y))).
Proof.
  unfold truth. destruct a as [x| |]; try done; cbn. destruct (as_bool x) eqn:Hx; [|done]. cbn.
  destruct b as [y| |]; try done; cbn. destruct (as_bool y) eqn:Hy; [|done]. cbn.
  by rewrite (rust_eq_bool _ _ _ _ Hx Hy).
Qed.

Lemma desugared_meaning e : well_typed (meaning e) -> eval_rust (desugar e) = meaning e.
Proof.
  induction e as [|d e IH| | | | |op l IHl r IHr]; try done; [by destruct d|].
  destruct op; try done; cbn [meaning desugar]; intros Hw.
  - cbn [translate]. rewrite eval_eq, <- iff_eq by done.
    apply (both_cong (fun x y => yields (id <$> rust_eq x y))); [by rewrite iff_eq|done..].
  - cbn [translate]. rewrite eval_not_or, <- implies_is_or.
    apply (connective_cong (fun x v => if x then yields (truth v) else Ok (of_bool true))); [done..|].
    intros [] _; [by apply yields_cong|done].
  - cbn [translate]. rewrite eval_not_or, <- implies_is_or.
    apply (connective_cong (fun x v => if x then yields (truth v) else Ok (of_bool true))); [done..|].
    intros [] _; [by apply yields_cong|done].
  - cbn [translate]. rewrite eval_or.
    apply (connective_cong (fun x v => if x then Ok (of_bool true) else yields (truth v))); [done..|].
    intros [] _; [done|by apply yields_cong].
  - cbn [translate]. rewrite eval_and.
    apply (connective_cong (fun x v => if x then yields (truth v) else Ok (of_bool false))); [done..|].
    intros [] _; [by apply yields_cong|done].
  - rewrite eval_snap_eq. by apply (both_cong (fun x y => Ok (of_bool (snap_eq x y)))).
  - rewrite eval_snap_ne. by apply (both_cong (fun x y => Ok (of_bool (negb (snap_eq x y))))).
Qed.

(** C25: The Rust code for an assertion means what the assertion means: for an
    expression that respects the binding powers and is well-typed, the parser
    answers with code whose value, by the precedences of Rust, is that of the
    expression; operands are evaluated under the same conditions and in the same
    order, so that a panic is reached in the code exactly when it is in the
    expression. An implication evaluates its premise first, written in either
    direction. *)
Theorem assertion_code_means_the_assertion syn_closure e :
  canonical syn_closure e = true -> well_typed (meaning e) ->
  exists code, parse syn_closure (new (spell e)) = Ok code /\ eval_rust code = meaning e.
Proof.
  intros Hc Hw. exists (desugar e). split; [|by apply desugared_meaning].
  rewrite (lex_spell syn_closure) by done. by apply (read_parse syn_closure), canonical_read.
Qed.
End meaning.

Module meaning_witness.
(** Booleans as the only values; [p] panics. *)
Definition code (ts : TokenStream) : outcome ill_typed bool :=
  match ts with
  | [Ident s] =>
      if bool_decide (s = "t"%string) then Ok true
      else if bool_decide (s = "f"%string) then Ok false
      else Panic s
  | _ => Err IllTyped
  end.
#[export] Instance booleans : RustValues.
Proof.
  refine {| value := bool; of_bool := id; as_bool := Some; rust_eq a b := Ok (Bool.eqb a b);
            snap_eq := Bool.eqb; rust_code := code |}; naive_solver.
Defined.

Definition var (s : string) : expr := Plain (ident s).

(** [f ==> p && t] does not evaluate [p]; [t <== p] does. *)
Lemma assertion_code_means_the_assertion_witness :
  (exists code, parse (fun _ => inr []) (new (spell (Op Implies (var "f") (Op And (var "p") (var "t"))))) = Ok code
     /\ eval_rust code = Ok true) /\
  (exists code, parse (fun _ => inr []) (new (spell (Op ImpliesReverse (var "t") (var "p")))) = Ok code
     /\ eval_rust code = Panic "p").
Proof.
  split.
  - destruct (assertion_code_means_the_assertion (fun _ => inr [])
      (Op Implies (var "f") (Op And (var "p") (var "t")))) as (code & Hp & Hv);
      [reflexivity | discriminate | exists code; split; [exact Hp | rewrite Hv; reflexivity]].
  - destruct (assertion_code_means_the_assertion (fun _ => inr [])
      (Op ImpliesReverse (var "t") (var "p"))) as (code & Hp & Hv);
      [reflexivity | discriminate | exists code; split; [exact Hp | rewrite Hv; reflexivity]].
Defined.
End meaning_witness.
