(* ===== verification/FlowEngine.v ===== *)
(** * The dataflow engine

    [analysis/src/abstract_interpretation/fixpoint_engine.rs] and
    [pointwise_state.rs]: a forward analysis over the control flow graph of a MIR
    body with a work set of blocks, that records a state before every statement
    and terminator and on every edge.

    The body is what the engine asks the compiler for: the number of blocks and
    of statements in each, successors and predecessors. An analysis is a record
    of the operations of the traits [FixpointEngine] and [AbstractState].
    Counters of visits are unbounded numbers here. *)
From S2P Require Import Prelude.

Abbreviation BasicBlock := nat.
Record Location := { block : BasicBlock; statement_index : nat }.

#[export] Instance Location_eq_dec : EqDecision Location.
Proof. solve_decision. Defined.
#[export] Program Instance Location_countable : Countable Location :=
  inj_countable' (fun l => (block l, statement_index l))
    (fun p => {| block := p.1; statement_index := p.2 |}) _.
Next Obligation. by intros []. Qed.

Inductive AnalysisError :=
| UnsupportedStatement (l : Location)
| NoStateBeforeLocation (l : Location)
| NoStateAfterBlock (bb : BasicBlock)
| NoStateAfterSuccessor (bb_src bb_dst : BasicBlock).

Abbreviation AnalysisResult := (outcome AnalysisError).

(** ** Control flow graphs *)
Record Cfg := {
  num_blocks : nat;
  num_statements : BasicBlock -> nat;
  successors : BasicBlock -> list BasicBlock;
  predecessors : BasicBlock -> list BasicBlock;
}.

Definition START_BLOCK : BasicBlock := 0.
Definition terminator_loc (g : Cfg) (bb : BasicBlock) : Location :=
  {| block := bb; statement_index := num_statements g bb |}.

(** ** Pointwise states *)
Record PointwiseState (S : Type) := {
  state_before : gmap Location S;
  state_after_block : gmap BasicBlock (gmap BasicBlock S);
}.
Arguments state_before {S} p.
Arguments state_after_block {S} p.

Section pointwise.
Context {S : Type}.
Abbreviation PState := (PointwiseState S) (only parsing).

Definition PointwiseState_new : PState := {| state_before := ∅; state_after_block := ∅ |}.
Definition lookup_before (p : PState) (l : Location) : option S := state_before p !! l.
Definition lookup_after_block (p : PState) (bb : BasicBlock) : option (gmap BasicBlock S) :=
  state_after_block p !! bb.
Definition lookup_mut_after_block (p : PState) (bb : BasicBlock) : gmap BasicBlock S :=
  default ∅ (lookup_after_block p bb).
Definition set_before (l : Location) (s : S) (p : PState) : PState :=
  {| state_before := <[l := s]> (state_before p); state_after_block := state_after_block p |}.
(** The effect of writing through the reference of [lookup_mut_after_block]. *)
Definition set_after_block (bb : BasicBlock) (m : gmap BasicBlock S) (p : PState) : PState :=
  {| state_before := state_before p; state_after_block := <[bb := m]> (state_after_block p) |}.
End pointwise.

(** ** Analyses *)
Record FixpointEngine (S : Type) := {
  new_bottom : S;
  new_initial : S;
  need_to_widen : nat -> bool;
  apply_statement_effect : S -> Location -> AnalysisResult S;
  apply_terminator_effect : S -> Location -> AnalysisResult (list (BasicBlock * S));
  join : S -> S -> S;
  widen : S -> S -> AnalysisResult S;
}.
Arguments new_bottom {S} f.
Arguments new_initial {S} f.
Arguments need_to_widen {S} f.
Arguments apply_statement_effect {S} f.
Arguments apply_terminator_effect {S} f.
Arguments join {S} f.
Arguments widen {S} f.

(** [BTreeSet]: an ascending list, whose minimum is taken first. *)
Fixpoint btree_insert (x : nat) (l : list nat) : list nat :=
  match l with
  | [] => [x]
  | y :: l' => if x <? y then x :: l else if x =? y then l else y :: btree_insert x l'
  end.

Section engine.
Context {S : Type} `{EqDecision S}.
Variable A : FixpointEngine S.
Variable g : Cfg.
Abbreviation PState := (PointwiseState S) (only parsing).

(** The state before a block, from the edges that have a state. *)
Definition block_start (bb : BasicBlock) : S :=
  if bb =? START_BLOCK then new_initial A else new_bottom A.

Definition join_predecessors (p : PState) (bb : BasicBlock) : AnalysisResult S :=
  foldl (fun acc pred =>
    s ← acc;
    match lookup_after_block p pred with
    | Some map =>
        match map !! bb with
        | Some s' => Ok (join A s s')
        | None => Panic "called `Option::unwrap()` on a `None` value"
        end
    | None => Ok s
    end) (Ok (block_start bb)) (predecessors g bb).

Definition widen_if_needed (p : PState) (counter : nat) (bb : BasicBlock) (s : S) : AnalysisResult S :=
  if need_to_widen A counter then
    match lookup_before p {| block := bb; statement_index := 0 |} with
    | Some previous => widen A s previous
    | None => Panic "called `Option::unwrap()` on a `None` value"
    end
  else Ok s.

(** The statements of a block from an index on. *)
Fixpoint walk_statements (bb : BasicBlock) (index count : nat) (current_state : S) (p : PState) :
    AnalysisResult (S * PState) :=
  match count with
  | 0 => Ok (current_state, p)
  | Datatypes.S count =>
      let location := {| block := bb; statement_index := index |} in
      let p := set_before location current_state p in
      s ← apply_statement_effect A current_state location;
      walk_statements bb (Datatypes.S index) count s p
  end.

(** States with the same destination are joined. *)
Definition merge_states (next_states : list (BasicBlock * S)) : gmap BasicBlock S :=
  foldl (fun m '(next_bb, state) =>
    match m !! next_bb with
    | Some s => <[next_bb := join A s state]> m
    | None => <[next_bb := state]> m
    end) ∅ next_states.

Fixpoint missing_successor (succs : list BasicBlock) (m : gmap BasicBlock S) : option BasicBlock :=
  match succs with
  | [] => None
  | next_bb :: succs => match m !! next_bb with None => Some next_bb | Some _ => missing_successor succs m end
  end.

(** The edges that get a state, and the blocks whose input has changed. *)
Fixpoint update_edges (succs : list BasicBlock) (new_map after : gmap BasicBlock S) (work : list BasicBlock) :
    gmap BasicBlock S * list BasicBlock :=
  match succs with
  | [] => (after, work)
  | next_bb :: succs =>
      match new_map !! next_bb with
      | Some s =>
          let work := if decide (after !! next_bb = Some s) then work else btree_insert next_bb work in
          update_edges succs (delete next_bb new_map) (<[next_bb := s]> after) work
      | None => update_edges succs new_map after work
      end
  end.

Definition Counters := gmap BasicBlock nat.

(** One round for a block that has been taken out of the work set. *)
Definition process_block (bb : BasicBlock) (p : PState) (counters : Counters) (work : list BasicBlock) :
    AnalysisResult (PState * Counters * list BasicBlock) :=
  state_before_block ← join_predecessors p bb;
  let counter := Datatypes.S (default 0 (counters !! bb)) in
  let counters := <[bb := counter]> counters in
  state_before_block ← widen_if_needed p counter bb state_before_block;
  '(current_state, p) ← walk_statements bb 0 (num_statements g bb) state_before_block p;
  let location := terminator_loc g bb in
  let p := set_before location current_state p in
  next_states ← apply_terminator_effect A current_state location;
  let new_map := merge_states next_states in
  match missing_successor (successors g bb) new_map with
  | Some next_bb => Err (NoStateAfterSuccessor bb next_bb)
  | None =>
      if decide (list_to_set (successors g bb) = dom new_map) then
        let '(after, work) :=
          update_edges (successors g bb) new_map (lookup_mut_after_block p bb) work in
        Ok (set_after_block bb after p, counters, work)
      else Panic "assertion failed: `(left == right)`"
  end.

Fixpoint run_loop (fuel : nat) (p : PState) (counters : Counters) (work : list BasicBlock) :
    option (AnalysisResult PState) :=
  match fuel with
  | 0 => None
  | Datatypes.S fuel =>
      match work with
      | [] => Some (Ok p)
      | bb :: work =>
          match process_block bb p counters work with
          | Ok (p, counters, work) => run_loop fuel p counters work
          | Err e => Some (Err e)
          | Panic msg => Some (Panic msg)
          end
      end
  end.

Definition run_fwd_analysis (fuel : nat) : option (AnalysisResult PState) :=
  run_loop fuel PointwiseState_new ∅ (seq 0 (num_blocks g)).
End engine.
