(* ===== verification/FlowFix.v ===== *)
(** * The dataflow engine computes the least solution

    What a run records solves the dataflow equations of the body, for every
    analysis without widening. For a monotone analysis over states of bounded
    height the engine terminates, and its solution is the least one. *)
From S2P Require Import Prelude FlowEngine.

(** ** Graphs as the compiler gives them *)
Record wf_cfg (g : Cfg) : Prop := {
  successors_in : forall bb next_bb, bb < num_blocks g -> next_bb ∈ successors g bb -> next_bb < num_blocks g;
  predecessors_of : forall bb pred, bb < num_blocks g ->
    pred ∈ predecessors g bb <-> pred < num_blocks g /\ bb ∈ successors g pred;
}.

Lemma elem_of_btree_insert x y l : x ∈ btree_insert y l <-> x = y \/ x ∈ l.
Proof.
  induction l as [|z l IH]; cbn [btree_insert]; [set_solver|].
  destruct (Nat.ltb_spec y z); [set_solver|]. destruct (Nat.eqb_spec y z); set_solver.
Qed.

Lemma btree_insert_length y l : length (btree_insert y l) <= S (length l).
Proof.
  induction l as [|z l IH]; cbn [btree_insert]; [done|].
  destruct (y <? z); [done|]. destruct (y =? z); simpl in *; lia.
Qed.

Section solutions.
Context {S : Type} `{EqDecision S}.
Variable A : FixpointEngine S.
Variable g : Cfg.
Abbreviation PState := (PointwiseState S) (only parsing).
Abbreviation join_predecessors := (FlowEngine.join_predecessors A g) (only parsing).
Abbreviation merge_states := (FlowEngine.merge_states A) (only parsing).
Abbreviation process_block := (FlowEngine.process_block A g) (only parsing).

(** ** The flow through a block

    The states before each statement and the terminator, and on the edges, as
    functions of the state before the block. *)
Fixpoint flow_statements (bb : BasicBlock) (index count : nat) (s : S) : AnalysisResult (list S * S) :=
  match count with
  | 0 => Ok ([], s)
  | Datatypes.S count =>
      s' ← apply_statement_effect A s {| block := bb; statement_index := index |};
      '(ss, last) ← flow_statements bb (Datatypes.S index) count s';
      Ok (s :: ss, last)
  end.

Definition flow (bb : BasicBlock) (s : S) : AnalysisResult (list S * gmap BasicBlock S) :=
  '(ss, last) ← flow_statements bb 0 (num_statements g bb) s;
  next_states ← apply_terminator_effect A last (terminator_loc g bb);
  Ok (ss ++ [last], merge_states next_states).

(** A block is settled if what is recorded for it is the flow of what is recorded
    for its predecessors. *)
Definition recorded (p : PState) (bb : BasicBlock) (befores : list S) (edges : gmap BasicBlock S) : Prop :=
  (forall i s, befores !! i = Some s -> lookup_before p {| block := bb; statement_index := i |} = Some s) /\
  lookup_after_block p bb = Some edges.

Definition settled (p : PState) (bb : BasicBlock) : Prop :=
  exists s befores edges, join_predecessors p bb = Ok s /\ flow bb s = Ok (befores, edges) /\
    recorded p bb befores edges.

(** ** One round *)
Fixpoint set_befores (bb : BasicBlock) (index : nat) (ss : list S) (p : PState) : PState :=
  match ss with
  | [] => p
  | s :: ss => set_befores bb (Datatypes.S index) ss
                 (set_before {| block := bb; statement_index := index |} s p)
  end.

Lemma set_befores_app bb i ss ss' p :
  set_befores bb i (ss ++ ss') p = set_befores bb (i + length ss) ss' (set_befores bb i ss p).
Proof.
  revert i p. induction ss as [|s ss IH]; intros i p; simpl; [by rewrite Nat.add_0_r|].
  rewrite IH. f_equal. lia.
Qed.

Lemma set_befores_after bb i ss p : state_after_block (set_befores bb i ss p) = state_after_block p.
Proof. revert i p. induction ss as [|s ss IH]; intros i p; simpl; [done|]. by rewrite IH. Qed.

Lemma set_befores_other bb i ss p l :
  (block l <> bb \/ statement_index l < i) -> lookup_before (set_befores bb i ss p) l = lookup_before p l.
Proof.
  revert i p. induction ss as [|s ss IH]; intros i p Hl; simpl; [done|].
  rewrite IH by (destruct Hl; [by left|right; lia]). unfold lookup_before, set_before. simpl.
  rewrite lookup_insert_ne; [done|]. intros <-. simpl in Hl. lia.
Qed.

Lemma set_befores_lookup bb i ss p k s :
  ss !! k = Some s ->
  lookup_before (set_befores bb i ss p) {| block := bb; statement_index := i + k |} = Some s.
Proof.
  revert i p k. induction ss as [|s' ss IH]; intros i p [|k] Hk; simplify_eq/=.
  - rewrite set_befores_other by (right; simpl; lia). unfold lookup_before, set_before. simpl.
    rewrite Nat.add_0_r. by rewrite lookup_insert_eq.
  - replace (i + Datatypes.S k) with (Datatypes.S i + k) by lia. by apply IH.
Qed.

Lemma walk_flow bb i count s p :
  walk_statements A bb i count s p =
    ('(ss, last) ← flow_statements bb i count s; Ok (last, set_befores bb i ss p)).
Proof.
  revert i s p. induction count as [|count IH]; intros i s p; simpl; [done|].
  destruct (apply_statement_effect A s _) as [s'| |]; simpl; [|done..]. rewrite IH.
  by destruct (flow_statements bb (Datatypes.S i) count s') as [[ss last]| |].
Qed.

Lemma flow_statements_length bb i count s ss last :
  flow_statements bb i count s = Ok (ss, last) -> length ss = count.
Proof.
  revert i s ss. induction count as [|count IH]; intros i s ss; simpl; [by intros [= <- <-]|].
  intros (s' & _ & ([ss' l] & Hs & [= <- <-])%bind_Ok_inv)%bind_Ok_inv. simpl. f_equal. by eapply IH.
Qed.

Lemma flow_befores bb s befores edges : flow bb s = Ok (befores, edges) ->
  exists ss last, length ss = num_statements g bb /\ befores = ss ++ [last].
Proof.
  intros ([ss last] & Hf%flow_statements_length & (next & _ & [= <- <-])%bind_Ok_inv)%bind_Ok_inv. eauto.
Qed.

Lemma flow_head bb s befores edges : flow bb s = Ok (befores, edges) -> befores !! 0 = Some s.
Proof.
  intros ([ss last] & Hs & (next & _ & [= <- _])%bind_Ok_inv)%bind_Ok_inv.
  destruct (num_statements g bb); simpl in Hs; [by simplify_eq|].
  by apply bind_Ok_inv in Hs as (s' & _ & ([] & _ & [= <- _])%bind_Ok_inv).
Qed.

(** The edges after a round, and the blocks that are visited again. *)
Lemma update_edges_lookup succs (new_map after : gmap BasicBlock S) work x :
  (update_edges succs new_map after work).1 !! x =
    match new_map !! x with
    | Some s => if decide (x ∈ succs) then Some s else after !! x
    | None => after !! x
    end.
Proof.
  revert new_map after work. induction succs as [|y succs IH]; intros new_map after work; cbn [update_edges].
  - simpl. by destruct (new_map !! x).
  - destruct (new_map !! y) as [s|] eqn:Hy; rewrite IH.
    + destruct (decide (y = x)) as [<-|Hne].
      * by rewrite lookup_delete_eq, lookup_insert_eq, Hy, decide_True by set_solver.
      * rewrite lookup_delete_ne, lookup_insert_ne by done. destruct (new_map !! x); [|done].
        by apply decide_ext; set_solver.
    + destruct (decide (y = x)) as [<-|Hne]; [by rewrite Hy|]. destruct (new_map !! x); [|done].
      by apply decide_ext; set_solver.
Qed.

Lemma update_edges_work succs (new_map after : gmap BasicBlock S) work x :
  x ∈ (update_edges succs new_map after work).2 <->
    x ∈ work \/ (x ∈ succs /\ is_Some (new_map !! x) /\ after !! x <> new_map !! x).
Proof.
  revert new_map after work. induction succs as [|y succs IH]; intros new_map after work; cbn [update_edges].
  - set_solver.
  - destruct (new_map !! y) as [s|] eqn:Hy; rewrite IH.
    + destruct (decide (x = y)) as [->|Hne].
      * rewrite lookup_delete_eq, Hy. case_decide as Ha.
        -- rewrite Ha. split; [intros [?|(_ & [] & _)]; [by left|done]|].
           intros [?|(_ & _ & Hn)]; [by left|done].
        -- rewrite elem_of_btree_insert. split; [intros _; right; set_solver|]. intros _. left. by left.
      * rewrite lookup_delete_ne, lookup_insert_ne by done. rewrite elem_of_cons.
        case_decide; [|rewrite elem_of_btree_insert]; naive_solver.
    + rewrite elem_of_cons. destruct (decide (x = y)) as [->|Hne]; [|naive_solver].
      rewrite Hy. split; [intros [?|(_ & [] & _)]; [by left|done]|].
      intros [?|(_ & [] & _)]; [by left|done].
Qed.

Lemma missing_successor_None succs (m : gmap BasicBlock S) :
  missing_successor succs m = None <-> (forall x, x ∈ succs -> is_Some (m !! x)).
Proof.
  induction succs as [|y succs IH]; cbn [missing_successor]; [set_solver|].
  destruct (m !! y) as [s|] eqn:Hy.
  - rewrite IH. split; [|set_solver]. intros Hs x [->|Hx]%elem_of_cons; [by eexists|auto].
  - split; [done|]. intros Hs. destruct (Hs y) as [? ?]; [set_solver|congruence].
Qed.

(** Edges of a state, whether or not their source has been visited. *)
Definition edges_ok (p : PState) : Prop :=
  forall bb m, lookup_after_block p bb = Some m -> dom m = list_to_set (successors g bb).

Hypothesis no_widening : forall n, need_to_widen A n = false.

Lemma process_block_Ok bb p counters work p' counters' work' :
  edges_ok p -> process_block bb p counters work = Ok (p', counters', work') ->
  exists s befores edges,
    join_predecessors p bb = Ok s /\ flow bb s = Ok (befores, edges) /\
    dom edges = list_to_set (successors g bb) /\
    p' = set_after_block bb edges (set_befores bb 0 befores p) /\
    length work' = length (update_edges (successors g bb) edges (lookup_mut_after_block p bb) work).2 /\
    (forall x, x ∈ work' <-> x ∈ work \/
       (x ∈ successors g bb /\ lookup_mut_after_block p bb !! x <> edges !! x)).
Proof.
  intros He (s & Hs & (s0 & Hw & ([last p1] & Hwalk & (next & Ht & Hr)%bind_Ok_inv)%bind_Ok_inv)%bind_Ok_inv)%bind_Ok_inv.
  unfold widen_if_needed in Hw. rewrite no_widening in Hw. simplify_eq.
  rewrite walk_flow in Hwalk. apply bind_Ok_inv in Hwalk as ([ss l] & Hf & [= <- <-]).
  pose proof (flow_statements_length _ _ _ _ _ _ Hf) as Hlen.
  cbn zeta in Hr. destruct (missing_successor _ _) eqn:Hm; [done|]. rewrite missing_successor_None in Hm.
  destruct (decide _) as [Hd|]; [|done].
  assert (forall k, lookup_mut_after_block (set_before k l (set_befores bb 0 ss p)) bb
    = lookup_mut_after_block p bb) as Hafter.
  { intros. unfold lookup_mut_after_block, lookup_after_block. simpl. by rewrite set_befores_after. }
  rewrite Hafter in Hr.
  exists s0, (ss ++ [l]), (merge_states next). split; [done|]. split.
  { unfold flow. rewrite Hf. simpl. rewrite Ht. done. }
  split; [by rewrite Hd|].
  pose proof (update_edges_lookup (successors g bb) (merge_states next) (lookup_mut_after_block p bb) work) as Hl.
  pose proof (update_edges_work (successors g bb) (merge_states next) (lookup_mut_after_block p bb) work) as Hwk.
  destruct (update_edges _ _ _ _) as [after work1]. simplify_eq/=. split_and!; [| done |].
  - rewrite set_befores_app. simpl.
    replace (set_before (terminator_loc g bb) l (set_befores bb 0 ss p))
      with (set_before {| block := bb; statement_index := length ss |} l (set_befores bb 0 ss p))
      by (unfold terminator_loc; by rewrite Hlen).
    f_equal. apply map_eq. intros x. rewrite Hl.
    destruct (merge_states next !! x) as [sx|] eqn:Hx.
    + rewrite decide_True; [done|]. apply (elem_of_list_to_set (C := gset nat)). rewrite Hd.
      apply elem_of_dom. by eexists.
    + unfold lookup_mut_after_block. destruct (lookup_after_block p bb) as [m|] eqn:Hpm; [|done]. simpl.
      apply not_elem_of_dom. rewrite (He _ _ Hpm), Hd. by apply not_elem_of_dom.
  - intros x. rewrite Hwk. split; [naive_solver|]. intros [?|[Hx Hn]]; [by left|]. right.
    split_and!; auto.
Qed.

(** ** The recorded states solve the equations *)
Definition edge (p : PState) (pred bb : BasicBlock) : option (option S) :=
  (fun m => m !! bb) <$> lookup_after_block p pred.

Lemma join_step_edge (p : PState) bb pred (acc : AnalysisResult S) :
  (s ← acc;
   match lookup_after_block p pred with
   | Some map => match map !! bb with
                 | Some s' => Ok (join A s s')
                 | None => Panic "called `Option::unwrap()` on a `None` value"
                 end
   | None => Ok s
   end) =
  (s ← acc;
   match edge p pred bb with
   | Some (Some s') => Ok (join A s s')
   | Some None => Panic "called `Option::unwrap()` on a `None` value"
   | None => Ok s
   end).
Proof. unfold edge. destruct acc; try done. simpl. by destruct (lookup_after_block p pred). Qed.

Lemma join_predecessors_ext p p' bb :
  (forall pred, pred ∈ predecessors g bb -> edge p pred bb = edge p' pred bb) ->
  join_predecessors p bb = join_predecessors p' bb.
Proof.
  unfold FlowEngine.join_predecessors. generalize (Ok (block_start A bb) : AnalysisResult S).
  induction (predecessors g bb) as [|pred preds IH]; intros acc Hp; [done|]. simpl.
  rewrite !join_step_edge, Hp by set_solver. apply IH. set_solver.
Qed.

Lemma recorded_round p bb befores edges :
  recorded (set_after_block bb edges (set_befores bb 0 befores p)) bb befores edges.
Proof.
  split.
  - intros i s Hi. apply (set_befores_lookup bb 0 befores p) in Hi. done.
  - unfold lookup_after_block. simpl. by rewrite lookup_insert_eq.
Qed.

Lemma lookup_after_round p bb befores edges bb' :
  lookup_after_block (set_after_block bb edges (set_befores bb 0 befores p)) bb' =
    if decide (bb' = bb) then Some edges else lookup_after_block p bb'.
Proof.
  unfold lookup_after_block. simpl. case_decide as Hd; subst; [by rewrite lookup_insert_eq|].
  rewrite lookup_insert_ne by done. by rewrite set_befores_after.
Qed.

Lemma recorded_other p bb bb' befores edges befores' edges' : bb' <> bb ->
  recorded p bb' befores' edges' ->
  recorded (set_after_block bb edges (set_befores bb 0 befores p)) bb' befores' edges'.
Proof.
  intros Hne [Hb Ha]. split.
  - intros i s Hi. apply Hb in Hi. rewrite <- Hi. unfold lookup_before at 1. simpl.
    by apply set_befores_other; left.
  - by rewrite lookup_after_round, decide_False.
Qed.

(** The invariant of the loop: blocks outside the work set are settled. *)
Record consistent (p : PState) (work : list BasicBlock) : Prop := {
  con_edges : edges_ok p;
  con_work : forall bb, bb ∈ work -> bb < num_blocks g;
  con_settled : forall bb, bb < num_blocks g -> bb ∉ work -> settled p bb;
}.

Hypothesis g_wf : wf_cfg g.

(** The edges into a block that is not visited again are as before the round. *)
Lemma edge_unchanged p bb befores edges bb' pred :
  edges_ok p -> bb' < num_blocks g -> dom edges = list_to_set (successors g bb) ->
  ~ (bb' ∈ successors g bb /\ lookup_mut_after_block p bb !! bb' <> edges !! bb') ->
  pred ∈ predecessors g bb' ->
  edge (set_after_block bb edges (set_befores bb 0 befores p)) pred bb' = edge p pred bb'.
Proof.
  intros He Hb Hd Hn Hpred. unfold edge. rewrite lookup_after_round. case_decide as Heq; [subst|done].
  apply (predecessors_of g g_wf bb' bb Hb) in Hpred as [_ Hsucc].
  assert (lookup_mut_after_block p bb !! bb' = edges !! bb') as Hsame.
  { destruct (decide (lookup_mut_after_block p bb !! bb' = edges !! bb')); [done|naive_solver]. }
  simpl. rewrite <- Hsame. unfold lookup_mut_after_block in *.
  destruct (lookup_after_block p bb) as [m|] eqn:Hp; [done|]. simpl in Hsame.
  assert (bb' ∈ dom edges) as [s Hs]%elem_of_dom by (rewrite Hd; by apply elem_of_list_to_set).
  rewrite Hs in Hsame. done.
Qed.

Lemma consistent_round bb p counters work p' counters' work' :
  consistent p (bb :: work) -> process_block bb p counters work = Ok (p', counters', work') ->
  consistent p' work'.
Proof.
  intros [He Hin Hset] Hr. assert (bb < num_blocks g) as Hbb by (apply Hin; set_solver).
  apply process_block_Ok in Hr as (s & befores & edges & Hs & Hf & Hd & -> & _ & Hwork); [|done].
  constructor.
  - intros bb' m. rewrite lookup_after_round. case_decide; [subst; by intros [= <-]|apply He].
  - intros x [Hx|[Hx _]]%Hwork; [apply Hin; set_solver|]. by eapply successors_in.
  - intros bb' Hbb' Hnot. rewrite Hwork in Hnot.
    assert (join_predecessors (set_after_block bb edges (set_befores bb 0 befores p)) bb'
      = join_predecessors p bb') as Hj.
    { apply join_predecessors_ext. intros pred. apply edge_unchanged; auto. }
    destruct (decide (bb' = bb)) as [->|Hne].
    + exists s, befores, edges. rewrite Hj. split_and!; [done..|]. apply recorded_round.
    + destruct (Hset bb') as (s' & b' & e' & Hs' & Hf' & Hr'); [done|set_solver|].
      exists s', b', e'. rewrite Hj. split_and!; [done..|]. by apply recorded_other.
Qed.

Lemma consistent_loop fuel p counters work p' :
  consistent p work -> run_loop A g fuel p counters work = Some (Ok p') -> consistent p' [].
Proof.
  revert p counters work. induction fuel as [|fuel IH]; intros p counters work; [done|].
  cbn [run_loop]. destruct work as [|bb work]; [by intros Hc [= <-]|].
  destruct (process_block bb p counters work) as [[[p1 c1] w1]| |] eqn:Hr; try done.
  intros Hc. apply IH. by eapply consistent_round.
Qed.

Lemma consistent_new : consistent PointwiseState_new (seq 0 (num_blocks g)).
Proof.
  constructor; [done| |].
  - intros bb Hb%elem_of_seq. lia.
  - intros bb Hb Hn. destruct Hn. apply elem_of_seq. lia.
Qed.

(** ** What holds of all recorded states

    A property of states at locations that the initial states have, that joins
    keep and that the effects carry to the next location, holds of every state
    that is recorded. *)
Definition next_location (l : Location) : Location :=
  {| block := block l; statement_index := Datatypes.S (statement_index l) |}.
Definition start_of (bb : BasicBlock) : Location := {| block := bb; statement_index := 0 |}.
Definition in_body (l : Location) : Prop :=
  block l < num_blocks g /\ statement_index l <= num_statements g (block l).
Definition at_statement (l : Location) : Prop :=
  block l < num_blocks g /\ statement_index l < num_statements g (block l).

Record closed (Q : Location -> S -> Prop) : Prop := {
  closed_start bb : bb < num_blocks g -> Q (start_of bb) (block_start A bb);
  closed_join bb s t : bb < num_blocks g -> Q (start_of bb) s -> Q (start_of bb) t ->
    Q (start_of bb) (join A s t);
  closed_statement l s s' : at_statement l -> Q l s -> apply_statement_effect A s l = Ok s' ->
    Q (next_location l) s';
  closed_terminator bb s next x s' : bb < num_blocks g -> Q (terminator_loc g bb) s ->
    apply_terminator_effect A s (terminator_loc g bb) = Ok next -> (x, s') ∈ next -> Q (start_of x) s';
}.

Section all_recorded.
Variable Q : Location -> S -> Prop.
Hypothesis Q_closed : closed Q.

Definition edges_satisfy (p : PState) : Prop :=
  forall pred x s, x < num_blocks g -> edge p pred x = Some (Some s) -> Q (start_of x) s.

Lemma join_predecessors_satisfies p bb s :
  bb < num_blocks g -> edges_satisfy p -> join_predecessors p bb = Ok s -> Q (start_of bb) s.
Proof.
  intros Hbb He. unfold FlowEngine.join_predecessors.
  assert (forall s, (Ok (block_start A bb) : AnalysisResult S) = Ok s -> Q (start_of bb) s) as Hacc.
  { intros ? [= <-]. by apply Q_closed. }
  revert Hacc. generalize (Ok (block_start A bb) : AnalysisResult S).
  induction (predecessors g bb) as [|pred preds IH]; intros acc Hacc; [apply Hacc|]. simpl.
  rewrite join_step_edge. apply IH. intros t. destruct acc as [a| |]; try done. simpl.
  destruct (edge p pred bb) as [[s'|]|] eqn:Hs'; intros [= <-]; [|by apply Hacc].
  apply Q_closed; [done|by apply Hacc|by eapply He].
Qed.

Lemma flow_statements_satisfy bb i count s ss last :
  bb < num_blocks g -> i + count <= num_statements g bb ->
  Q {| block := bb; statement_index := i |} s -> flow_statements bb i count s = Ok (ss, last) ->
  (forall k t, ss !! k = Some t -> Q {| block := bb; statement_index := i + k |} t) /\
  Q {| block := bb; statement_index := i + count |} last.
Proof.
  intros Hbb. revert i s ss. induction count as [|count IH]; intros i s ss Hi Hs; simpl.
  - intros [= <- <-]. rewrite Nat.add_0_r. by split.
  - intros (s' & Hs' & ([ss' l] & Hf & [= <- <-])%bind_Ok_inv)%bind_Ok_inv.
    apply (closed_statement Q Q_closed) in Hs'; [|split; simpl; lia|done]. unfold next_location in Hs'. simpl in Hs'.
    destruct (IH (Datatypes.S i) s' ss') as [Hss Hl]; [lia|done..|]. split.
    + intros [|k] t; simpl; [intros [= <-]; by rewrite Nat.add_0_r|].
      intros Hk. replace (i + Datatypes.S k) with (Datatypes.S i + k) by lia. by apply Hss.
    + by replace (i + Datatypes.S count) with (Datatypes.S i + count) by lia.
Qed.

Lemma merge_states_satisfy next :
  (forall x s, (x, s) ∈ next -> x < num_blocks g -> Q (start_of x) s) ->
  forall x s, x < num_blocks g -> merge_states next !! x = Some s -> Q (start_of x) s.
Proof.
  intros Hn. unfold FlowEngine.merge_states.
  assert (forall x s, x < num_blocks g -> (∅ : gmap BasicBlock S) !! x = Some s -> Q (start_of x) s) as Hm
    by (intros x s; by rewrite lookup_empty).
  revert Hm. generalize (∅ : gmap BasicBlock S).
  induction next as [|[y t] next IH]; intros m Hm; [done|]. simpl. apply IH; [set_solver|].
  intros x s Hx. destruct (m !! y) as [u|] eqn:Hu;
    (destruct (decide (y = x)) as [->|Hne]; [rewrite lookup_insert_eq|rewrite lookup_insert_ne by done; by apply Hm]);
    intros [= <-]; [apply Q_closed|]; try done; try (by apply Hm); apply Hn; set_solver.
Qed.

Lemma flow_satisfies bb s befores edges :
  bb < num_blocks g -> Q (start_of bb) s -> flow bb s = Ok (befores, edges) ->
  (forall i t, befores !! i = Some t -> Q {| block := bb; statement_index := i |} t) /\
  (forall x t, x < num_blocks g -> edges !! x = Some t -> Q (start_of x) t).
Proof.
  intros Hbb Hs ([ss last] & Hf & (next & Ht & [= <- <-])%bind_Ok_inv)%bind_Ok_inv.
  pose proof (flow_statements_length _ _ _ _ _ _ Hf) as Hlen.
  apply flow_statements_satisfy in Hf as [Hss Hl]; [|done|simpl; lia|done]. split.
  - intros i t Hi. apply lookup_app_Some in Hi as [Hi|[Hge Hi]]; [by apply (Hss i t Hi)|].
    apply list_lookup_singleton_Some in Hi as [Hi <-].
    by replace i with (0 + num_statements g bb) by lia.
  - apply merge_states_satisfy. intros x t Hx _. by eapply (closed_terminator Q Q_closed bb last).
Qed.

Lemma edges_satisfy_loop fuel p counters work p' :
  consistent p work -> edges_satisfy p -> run_loop A g fuel p counters work = Some (Ok p') -> edges_satisfy p'.
Proof.
  revert p counters work. induction fuel as [|fuel IH]; intros p counters work; [done|].
  cbn [run_loop]. destruct work as [|bb work]; [by intros _ He [= <-]|].
  destruct (process_block bb p counters work) as [[[p1 c1] w1]| |] eqn:Hr; try done.
  intros Hc He. assert (bb < num_blocks g) as Hbb by (apply Hc; set_solver).
  apply IH; [by eapply consistent_round|].
  apply process_block_Ok in Hr as (s & befores & edges & Hs & Hf & _ & -> & _); [|apply Hc].
  intros pred x t Hx. unfold edge. rewrite lookup_after_round. case_decide; [|by apply He].
  intros [= Ht]. apply join_predecessors_satisfies in Hs; [|done..].
  apply flow_satisfies in Hf as [_ Hf]; [by eapply Hf|done..].
Qed.

Lemma recorded_satisfy fuel p l s :
  run_fwd_analysis A g fuel = Some (Ok p) -> in_body l -> lookup_before p l = Some s -> Q l s.
Proof.
  intros Hr [Hbb Hi] Hl.
  assert (edges_satisfy p) as He.
  { eapply edges_satisfy_loop, Hr; [apply consistent_new|]. by intros pred x t _. }
  assert (settled p (block l)) as (s0 & befores & edges & Hs & Hf & Hb & _).
  { eapply (con_settled p []); [|done|set_solver]. eapply consistent_loop, Hr. apply consistent_new. }
  apply join_predecessors_satisfies in Hs; [|done..].
  pose proof Hf as (ss & last & Hlen & ->)%flow_befores.
  apply flow_satisfies in Hf as [Hf _]; [|done..].
  destruct l as [bb i]; simpl in *.
  destruct (lookup_lt_is_Some_2 (ss ++ [last]) i) as [t Ht]; [rewrite length_app; simpl; lia|].
  pose proof (Hb _ _ Ht). simplify_eq. by apply Hf.
Qed.

Lemma recorded_edges_satisfy fuel p bb x :
  run_fwd_analysis A g fuel = Some (Ok p) -> bb < num_blocks g -> x ∈ successors g bb ->
  exists s, edge p bb x = Some (Some s) /\ Q (start_of x) s.
Proof.
  intros Hr Hbb Hx. assert (consistent p []) as Hc by (eapply consistent_loop, Hr; apply consistent_new).
  assert (settled p bb) as (s0 & befores & edges & _ & _ & _ & Hm) by (apply Hc; [done|apply not_elem_of_nil]).
  assert (x ∈ dom edges) as [s Hs]%elem_of_dom.
  { rewrite (con_edges p [] Hc bb edges Hm). by apply elem_of_list_to_set. }
  assert (edge p bb x = Some (Some s)) as He by (unfold edge; rewrite Hm; simpl; by rewrite Hs).
  exists s. split; [done|]. eapply edges_satisfy_loop, He; [apply consistent_new| |exact Hr|].
  - by intros pred y t _.
  - by eapply (successors_in g g_wf bb).
Qed.
End all_recorded.

(** ** Facts that joins keep

    A relation between states and facts that joins keep on both sides holds of
    what follows a location whenever the effects establish it. *)
Lemma consistent_result fuel p : run_fwd_analysis A g fuel = Some (Ok p) -> consistent p [].
Proof. apply consistent_loop, consistent_new. Qed.

Section facts.
Context {C : Type} (holds : S -> C -> Prop).
Hypothesis holds_l : forall s t c, holds s c -> holds (join A s t) c.
Hypothesis holds_r : forall s t c, holds t c -> holds (join A s t) c.
Variable p : PState.
Hypothesis p_consistent : consistent p [].

Lemma p_settled bb : bb < num_blocks g -> settled p bb.
Proof. intros Hbb. apply p_consistent; [done|apply not_elem_of_nil]. Qed.

Lemma join_predecessors_holds bb s c : join_predecessors p bb = Ok s ->
  holds (block_start A bb) c \/
    (exists pred s', pred ∈ predecessors g bb /\ edge p pred bb = Some (Some s') /\ holds s' c) ->
  holds s c.
Proof.
  clear no_widening g_wf p_consistent. unfold FlowEngine.join_predecessors. intros Hs Hor.
  assert (exists a, (Ok (block_start A bb) : AnalysisResult S) = Ok a /\ (holds a c \/
    (exists pred s', pred ∈ predecessors g bb /\ edge p pred bb = Some (Some s') /\ holds s' c))) as (a & Ha & Hac) by eauto.
  revert Hs Ha. clear Hor. generalize (Ok (block_start A bb) : AnalysisResult S). revert a Hac.
  induction (predecessors g bb) as [|y preds IH]; intros a Hac acc; [|simpl; rewrite join_step_edge].
  { simpl. intros. simplify_eq. destruct Hac as [?|(y & _ & Hy & _)]; [done|set_solver]. }
  intros Hs ->. revert Hs. simpl. destruct (edge p y bb) as [[t|]|] eqn:Ht.
  - intros Hs. eapply IH, eq_refl; [|exact Hs].
    destruct Hac as [?|(z & s' & [->|Hz]%elem_of_cons & He & Hh)]; simplify_eq; eauto 10.
  - intros Hs. exfalso. revert Hs. clear. by induction preds.
  - intros Hs. eapply IH, eq_refl; [|exact Hs].
    destruct Hac as [?|(z & s' & [->|Hz]%elem_of_cons & He & Hh)]; simplify_eq; eauto 10.
Qed.

Lemma settled_before bb s befores edges :
  flow bb s = Ok (befores, edges) -> recorded p bb befores edges ->
  lookup_before p (start_of bb) = Some s.
Proof. intros Hf [Hb _]. by eapply Hb, flow_head. Qed.

Lemma holds_at_start bb c : bb < num_blocks g -> holds (block_start A bb) c ->
  exists s, lookup_before p (start_of bb) = Some s /\ holds s c.
Proof.
  intros Hbb Hc. destruct (p_settled bb Hbb) as (s & befores & edges & Hs & Hf & Hr).
  exists s. split; [by eapply settled_before|]. eapply join_predecessors_holds; eauto.
Qed.

Lemma flow_statements_step bb i count s ss last k t :
  flow_statements bb i count s = Ok (ss, last) -> k < count -> (ss ++ [last]) !! k = Some t ->
  exists t', apply_statement_effect A t {| block := bb; statement_index := i + k |} = Ok t' /\
    (ss ++ [last]) !! Datatypes.S k = Some t'.
Proof.
  revert i s ss k. induction count as [|count IH]; intros i s ss k; simpl; [lia|].
  intros (s' & Hs' & ([ss' l] & Hf & [= <- <-])%bind_Ok_inv)%bind_Ok_inv Hk. simpl.
  destruct k as [|k]; simpl.
  - intros [= <-]. rewrite Nat.add_0_r. exists s'. split; [done|].
    destruct count; simpl in Hf; [by simplify_eq|].
    by apply bind_Ok_inv in Hf as (s2 & _ & ([] & _ & [= <- _])%bind_Ok_inv).
  - intros Ht. destruct (IH (Datatypes.S i) s' ss' k Hf) as (t' & Ha & Hl); [lia|done|].
    exists t'. split; [|done]. by replace (i + Datatypes.S k) with (Datatypes.S i + k) by lia.
Qed.

Lemma settled_statement l s : at_statement l -> lookup_before p l = Some s ->
  exists s', apply_statement_effect A s l = Ok s' /\ lookup_before p (next_location l) = Some s'.
Proof.
  intros [Hbb Hi] Hl. destruct (p_settled (block l) Hbb) as (s0 & befores & edges & _ & Hf & [Hb _]).
  apply bind_Ok_inv in Hf as ([ss last] & Hf & (next & _ & [= <- <-])%bind_Ok_inv).
  pose proof (flow_statements_length _ _ _ _ _ _ Hf) as Hlen.
  destruct l as [bb i]; simpl in *.
  destruct (lookup_lt_is_Some_2 (ss ++ [last]) i) as [t Ht]; [rewrite length_app; simpl; lia|].
  pose proof (Hb _ _ Ht) as Hbt. rewrite Hl in Hbt. injection Hbt as <-.
  destruct (flow_statements_step _ _ _ _ _ _ i s Hf) as (t' & Ha & Ht'); [done..|]. eauto.
Qed.

Lemma settled_in_body l : in_body l -> exists s, lookup_before p l = Some s.
Proof.
  intros [Hbb Hi]. destruct (p_settled (block l) Hbb) as (s0 & befores & edges & _ & Hf & [Hb _]).
  apply flow_befores in Hf as (ss & last & Hlen & ->). destruct l as [bb i]; simpl in *.
  destruct (lookup_lt_is_Some_2 (ss ++ [last]) i) as [s Hs]; [rewrite length_app; simpl; lia|]. eauto.
Qed.

Lemma settled_terminator bb s : bb < num_blocks g -> lookup_before p (terminator_loc g bb) = Some s ->
  exists next, apply_terminator_effect A s (terminator_loc g bb) = Ok next /\
    lookup_after_block p bb = Some (merge_states next).
Proof.
  intros Hbb Hl. destruct (p_settled bb Hbb) as (s0 & befores & edges & _ & Hf & [Hb Hm]).
  apply bind_Ok_inv in Hf as ([ss last] & Hf & (next & Hn & [= <- <-])%bind_Ok_inv).
  pose proof (flow_statements_length _ _ _ _ _ _ Hf) as Hlen.
  assert ((ss ++ [last]) !! num_statements g bb = Some last) as Ht.
  { rewrite lookup_app_r by lia. by rewrite Hlen, Nat.sub_diag. }
  apply Hb in Ht. unfold terminator_loc in Hl. simplify_eq. eauto.
Qed.

Lemma merge_states_holds next x s c : (x, s) ∈ next -> holds s c ->
  exists t, merge_states next !! x = Some t /\ holds t c.
Proof.
  intros Hin Hs. unfold FlowEngine.merge_states.
  enough (forall m, (exists t, m !! x = Some t /\ holds t c) \/ (x, s) ∈ next ->
    exists t, foldl (fun m '(next_bb, state) => match m !! next_bb with
      | Some s => <[next_bb:=join A s state]> m | None => <[next_bb:=state]> m end) m next !! x = Some t
      /\ holds t c) as Hall by (apply Hall; by right).
  clear Hin. induction next as [|[y u] next IH]; intros m Hm; simpl.
  { destruct Hm as [?|Hm]; [done|by apply elem_of_nil in Hm]. }
  apply IH. rewrite elem_of_cons in Hm. destruct (decide (y = x)) as [->|Hne].
  - destruct Hm as [(t & Ht & Hc)|[[= <-]|Hm]]; [| |by right]; left.
    + rewrite Ht, lookup_insert_eq. eauto.
    + destruct (m !! x); rewrite lookup_insert_eq; eauto.
  - destruct Hm as [(t & Ht & Hc)|[[= -> ->]|Hm]]; [|done|by right]; left.
    exists t. by destruct (m !! y); rewrite lookup_insert_ne.
Qed.

Lemma settled_edge bb s : bb < num_blocks g -> lookup_before p (terminator_loc g bb) = Some s ->
  exists next, apply_terminator_effect A s (terminator_loc g bb) = Ok next /\
    forall x s' c, (x, s') ∈ next -> holds s' c ->
      exists t, lookup_before p (start_of x) = Some t /\ holds t c.
Proof.
  intros Hbb Hl. destruct (settled_terminator bb s Hbb Hl) as (next & Hn & Hm). exists next. split; [done|].
  intros x s' c Hin Hc. destruct (merge_states_holds next x s' c Hin Hc) as (u & Hu & Huc).
  assert (x ∈ successors g bb) as Hx.
  { apply (elem_of_list_to_set (C := gset nat)). rewrite <- (con_edges _ _ p_consistent _ _ Hm).
    apply elem_of_dom. by eexists. }
  pose proof (successors_in g g_wf bb x Hbb Hx) as Hxb.
  destruct (p_settled x Hxb) as (t & befores & edges & Ht & Hf & Hr). exists t.
  split; [by eapply settled_before|]. eapply join_predecessors_holds; [done|]. right. exists bb, u.
  split_and!; [by apply (predecessors_of g g_wf)| |done]. unfold edge. rewrite Hm. simpl. by rewrite Hu.
Qed.
End facts.

(** When the engine returns states for an analysis without widening, they solve the
    dataflow equations: before every block stands the join of the initial state
    or bottom with the states on all incoming edges, before every statement and
    on every outgoing edge what the effects make of it; no change has been
    missed. *)
Theorem engine_result_is_a_solution fuel p :
  run_fwd_analysis A g fuel = Some (Ok p) -> forall bb, bb < num_blocks g -> settled p bb.
Proof.
  intros Hr bb Hbb. eapply (con_settled p []); [|done|set_solver].
  eapply consistent_loop, Hr. apply consistent_new.
Qed.
End solutions.
