(* ===== verification/FlowTerm.v ===== *)
(** * Monotone analyses

    The interface of an analysis whose states form a join semilattice of bounded
    height with monotone effects, as [AbstractState] asks for in its
    documentation, and what the engine promises for it: it terminates, with the
    least solution. *)
From S2P Require Import Prelude FlowEngine FlowFix.

Class Monotone {S} `{EqDecision S} (A : FixpointEngine S) (g : Cfg) (le : relation S)
    (valid : S -> Prop) (height : S -> nat) (max_height : nat) := {
  mono_order :: PreOrder le;
  mono_no_widening n : need_to_widen A n = false;
  valid_start bb : valid (block_start A bb);
  valid_join x y : valid x -> valid y -> valid (join A x y);
  join_upper_l x y : valid x -> valid y -> le x (join A x y);
  join_upper_r x y : valid x -> valid y -> le y (join A x y);
  join_least x y z : valid x -> valid y -> le x z -> le y z -> le (join A x y) z;
  height_strict x y : valid x -> valid y -> le x y -> x <> y -> height x < height y;
  height_bound x : valid x -> height x <= max_height;
  statement_total s l : valid s -> block l < num_blocks g -> statement_index l < num_statements g (block l) ->
    exists s', apply_statement_effect A s l = Ok s' /\ valid s';
  statement_mono s t l s' t' : valid s -> valid t -> le s t ->
    apply_statement_effect A s l = Ok s' -> apply_statement_effect A t l = Ok t' -> le s' t';
  terminator_total s bb : valid s -> bb < num_blocks g ->
    exists next, apply_terminator_effect A s (terminator_loc g bb) = Ok next /\
      Forall (fun p => valid p.2) next /\ (forall x, x ∈ next.*1 <-> x ∈ successors g bb);
  terminator_mono s t l ss ts : valid s -> valid t -> le s t ->
    apply_terminator_effect A s l = Ok ss -> apply_terminator_effect A t l = Ok ts ->
    Forall2 (fun x y => x.1 = y.1 /\ le x.2 y.2) ss ts;
}.

(** Terminators that pass one state on to several blocks. *)
Definition to_blocks {S} (bbs : list BasicBlock) (s : S) : list (BasicBlock * S) := (fun bb => (bb, s)) <$> bbs.

Lemma elem_of_to_blocks {S} bbs (s t : S) x : (x, t) ∈ to_blocks bbs s <-> t = s /\ x ∈ bbs.
Proof. unfold to_blocks. rewrite list_elem_of_fmap. naive_solver. Qed.

Lemma to_blocks_fst {S} bbs (s : S) : (to_blocks bbs s).*1 = bbs.
Proof. unfold to_blocks. rewrite <- list_fmap_compose. apply list_fmap_id. Qed.

Lemma to_blocks_Forall {S} (P : S -> Prop) bbs s : P s -> Forall (fun p => P p.2) (to_blocks bbs s).
Proof. intros Hs. apply Forall_fmap, Forall_true. done. Qed.

Lemma to_blocks_le {S} (le : relation S) bbs s t : le s t ->
  Forall2 (fun x y => x.1 = y.1 /\ le x.2 y.2) (to_blocks bbs s) (to_blocks bbs t).
Proof. intros Hle. apply Forall2_fmap, Forall_Forall2_diag, Forall_true. done. Qed.

Section monotone.
Context {S : Type} `{EqDecision S}.
Variables (A : FixpointEngine S) (g : Cfg).
Variables (le : relation S) (valid : S -> Prop) (height : S -> nat) (max_height : nat).
Context `{Hmono : !Monotone A g le valid height max_height}.
Hypothesis g_wf : wf_cfg g.
Abbreviation PState := (PointwiseState S) (only parsing).
Abbreviation join_predecessors := (FlowEngine.join_predecessors A g) (only parsing).
Abbreviation merge_states := (FlowEngine.merge_states A) (only parsing).
Abbreviation process_block := (FlowEngine.process_block A g) (only parsing).
Abbreviation flow := (FlowFix.flow A g) (only parsing).

(** ** Merged states *)
Definition merge_step (m : gmap BasicBlock S) (p : BasicBlock * S) : gmap BasicBlock S :=
  match m !! p.1 with
  | Some s => <[p.1 := join A s p.2]> m
  | None => <[p.1 := p.2]> m
  end.

Lemma merge_states_step next : merge_states next = foldl merge_step ∅ next.
Proof.
  unfold FlowEngine.merge_states. generalize (∅ : gmap BasicBlock S).
  induction next as [|[x s] next IH]; intros m; [done|]. simpl. by rewrite IH.
Qed.

Definition all_valid (m : gmap BasicBlock S) : Prop := forall x s, m !! x = Some s -> valid s.
Definition map_le (m m' : gmap BasicBlock S) : Prop :=
  forall x s, m !! x = Some s -> exists s', m' !! x = Some s' /\ le s s'.

Lemma merge_step_valid m p : all_valid m -> valid p.2 -> all_valid (merge_step m p).
Proof.
  intros Hm Hp x s. unfold merge_step. destruct (m !! p.1) as [t|] eqn:Ht;
    (destruct (decide (p.1 = x)) as [<-|Hne]; [rewrite lookup_insert_eq|rewrite lookup_insert_ne by done]);
    intros; simplify_eq; eauto.
  apply valid_join; eauto.
Qed.

Lemma merge_step_dom m p : dom (merge_step m p) = {[p.1]} ∪ dom m.
Proof. unfold merge_step. by case_match; rewrite dom_insert_L. Qed.

Lemma merge_step_le m m' p p' :
  all_valid m -> all_valid m' -> dom m = dom m' -> valid p.2 -> valid p'.2 ->
  map_le m m' -> p.1 = p'.1 -> le p.2 p'.2 -> map_le (merge_step m p) (merge_step m' p').
Proof.
  intros Hv Hv' Hd Hp Hp' Hm Heq Hle x s. unfold merge_step. rewrite <- Heq.
  destruct (m !! p.1) as [t|] eqn:Ht.
  - destruct (Hm _ _ Ht) as (t' & Ht' & Htt). rewrite Ht'.
    destruct (decide (p.1 = x)) as [<-|Hne].
    + rewrite !lookup_insert_eq. intros [= <-]. eexists. split; [done|]. apply join_least; eauto.
      * etrans; [exact Htt|]. apply join_upper_l; eauto.
      * etrans; [exact Hle|]. apply join_upper_r; eauto.
    + rewrite !lookup_insert_ne by done. apply Hm.
  - assert (m' !! p.1 = None) as -> by (apply not_elem_of_dom; rewrite <- Hd; by apply not_elem_of_dom).
    destruct (decide (p.1 = x)) as [<-|Hne].
    + rewrite !lookup_insert_eq. intros [= <-]. eauto.
    + rewrite !lookup_insert_ne by done. apply Hm.
Qed.

Lemma merge_states_valid next : Forall (fun p => valid p.2) next -> all_valid (merge_states next).
Proof.
  rewrite merge_states_step. intros Hn. assert (all_valid ∅) as Hm by by intros x s; rewrite lookup_empty.
  revert Hm. generalize (∅ : gmap BasicBlock S).
  induction Hn as [|p next Hp _ IH]; intros m Hm; [done|]. simpl. apply IH. by apply merge_step_valid.
Qed.

Lemma merge_states_dom next : dom (merge_states next) = list_to_set next.*1.
Proof.
  rewrite merge_states_step.
  enough (forall m, dom (foldl merge_step m next) = dom m ∪ list_to_set next.*1) as -> by set_solver.
  induction next as [|p next IH]; intros m; simpl; [set_solver|]. rewrite IH, merge_step_dom. set_solver.
Qed.

Lemma merge_states_le ss ts :
  Forall (fun p => valid p.2) ss -> Forall (fun p => valid p.2) ts ->
  Forall2 (fun x y => x.1 = y.1 /\ le x.2 y.2) ss ts -> map_le (merge_states ss) (merge_states ts).
Proof.
  rewrite !merge_states_step. intros Hss Hts Hst.
  enough (forall m m', all_valid m -> all_valid m' -> dom m = dom m' -> map_le m m' ->
    map_le (foldl merge_step m ss) (foldl merge_step m' ts)) as Hall.
  { apply Hall; try done; intros x s; by rewrite lookup_empty. }
  revert Hss Hts. induction Hst as [|x y ss ts [He Hl] _ IH]; intros Hss Hts m m' Hm Hm' Hd Hle; [done|].
  apply Forall_cons in Hss as [Hx Hss]. apply Forall_cons in Hts as [Hy Hts]. simpl. apply IH; try done.
  - by apply merge_step_valid.
  - by apply merge_step_valid.
  - rewrite !merge_step_dom. by rewrite He, Hd.
  - by apply merge_step_le.
Qed.

(** ** The flow of a block *)
Lemma flow_statements_total bb i count s :
  valid s -> bb < num_blocks g -> i + count <= num_statements g bb ->
  exists ss last, flow_statements A bb i count s = Ok (ss, last) /\ Forall valid ss /\ valid last.
Proof.
  revert i s. induction count as [|count IH]; intros i s Hs Hbb Hi; simpl.
  - exists [], s. by split_and!.
  - destruct (statement_total s {| block := bb; statement_index := i |}) as (s' & -> & Hs');
      [done|done|simpl; lia|]. simpl.
    destruct (IH (Datatypes.S i) s') as (ss & last & -> & Hss & Hl); [done|done|lia|]. simpl.
    exists (s :: ss), last. split_and!; [done|by constructor|done].
Qed.

Lemma flow_statements_mono bb i count s t ss ts ls lt :
  valid s -> valid t -> bb < num_blocks g -> i + count <= num_statements g bb -> le s t ->
  flow_statements A bb i count s = Ok (ss, ls) -> flow_statements A bb i count t = Ok (ts, lt) -> le ls lt.
Proof.
  revert i s t ss ts. induction count as [|count IH]; intros i s t ss ts Hs Ht Hbb Hi Hle; simpl.
  - intros. by simplify_eq.
  - intros (s' & Hs' & ([ss' ls'] & Hfs & [= _ <-])%bind_Ok_inv)%bind_Ok_inv
           (t' & Ht' & ([ts' lt'] & Hft & [= _ <-])%bind_Ok_inv)%bind_Ok_inv.
    destruct (statement_total s {| block := bb; statement_index := i |}) as (s2 & Hs2 & ?); [done|done|simpl; lia|].
    destruct (statement_total t {| block := bb; statement_index := i |}) as (t2 & Ht2 & ?); [done|done|simpl; lia|].
    rewrite Hs' in Hs2. rewrite Ht' in Ht2. simplify_eq.
    eapply (IH (Datatypes.S i) s2 t2); eauto; [lia|]. by eapply (statement_mono s t).
Qed.

Lemma flow_total bb s : valid s -> bb < num_blocks g ->
  exists befores edges, flow bb s = Ok (befores, edges) /\ all_valid edges /\
    dom edges = list_to_set (successors g bb).
Proof.
  intros Hs Hbb. unfold FlowFix.flow.
  destruct (flow_statements_total bb 0 (num_statements g bb) s) as (ss & last & -> & _ & Hl); [done..|]. simpl.
  destruct (terminator_total last bb) as (next & -> & Hv & Hn); [done..|]. simpl.
  eexists _, _. split_and!; [done|by apply merge_states_valid|].
  rewrite merge_states_dom. apply set_eq. intros x. rewrite !elem_of_list_to_set. apply Hn.
Qed.

Lemma flow_mono bb s t bs es bt et : valid s -> valid t -> bb < num_blocks g -> le s t ->
  flow bb s = Ok (bs, es) -> flow bb t = Ok (bt, et) -> map_le es et.
Proof.
  unfold FlowFix.flow. intros Hs Ht Hbb Hle.
  destruct (flow_statements_total bb 0 (num_statements g bb) s) as (ss & ls & Hfs & _ & Hls); [done..|].
  destruct (flow_statements_total bb 0 (num_statements g bb) t) as (ts & lt & Hft & _ & Hlt); [done..|].
  rewrite Hfs, Hft. simpl.
  destruct (terminator_total ls bb) as (ns & Hns & Hvs & _); [done..|].
  destruct (terminator_total lt bb) as (nt & Hnt & Hvt & _); [done..|].
  rewrite Hns, Hnt. simpl. intros [= _ <-] [= _ <-]. apply merge_states_le; [done..|].
  eapply (terminator_mono ls lt); eauto. eapply (flow_statements_mono bb 0 _ s t); eauto; simpl; lia.
Qed.

(** ** The state before a block is a least upper bound *)
Definition valid_edges (p : PState) : Prop :=
  forall pred x s, edge p pred x = Some (Some s) -> valid s.

Definition bounded_by (p : PState) (bb : BasicBlock) (z : S) : Prop :=
  le (block_start A bb) z /\
  (forall pred s, pred ∈ predecessors g bb -> edge p pred bb = Some (Some s) -> le s z).

Lemma join_edges_lub p bb preds a :
  valid_edges p -> (forall pred, pred ∈ preds -> edge p pred bb <> Some None) -> valid a ->
  exists s, foldl (fun acc pred =>
      s ← acc;
      match edge p pred bb with
      | Some (Some s') => Ok (join A s s')
      | Some None => Panic "called `Option::unwrap()` on a `None` value"
      | None => Ok s
      end) (Ok a : AnalysisResult S) preds = Ok s /\ valid s /\ le a s /\
    (forall pred s', pred ∈ preds -> edge p pred bb = Some (Some s') -> le s' s) /\
    (forall z, le a z -> (forall pred s', pred ∈ preds -> edge p pred bb = Some (Some s') -> le s' z) -> le s z).
Proof.
  intros Hv. revert a. induction preds as [|pred preds IH]; intros a Hp Ha; simpl.
  - exists a. split_and!; [done|done|reflexivity|set_solver|done].
  - destruct (edge p pred bb) as [[s'|]|] eqn:He; simpl; [| by destruct (Hp pred); [set_solver|] |].
    + pose proof (Hv _ _ _ He) as Hs'.
      destruct (IH (join A a s')) as (s & -> & Hs & Hle & Hup & Hleast);
        [intros; apply Hp; set_solver | by apply valid_join |].
      exists s. split_and!; [done|done| | |].
      * etrans; [by apply (join_upper_l a s')|done].
      * intros pred' t [->|Hin]%elem_of_cons Ht; [|by eapply Hup]. simplify_eq.
        etrans; [by apply (join_upper_r a s')|done].
      * intros z Haz Hz. apply Hleast; [|intros; eapply Hz; [|done]; set_solver].
        apply join_least; try done. eapply Hz; [|done]; set_solver.
    + destruct (IH a) as (s & -> & Hs & Hle & Hup & Hleast); [intros; apply Hp; set_solver | done |].
      exists s. split_and!; [done|done|done| |].
      * intros pred' t [->|Hin]%elem_of_cons Ht; [congruence|by eapply Hup].
      * intros z Haz Hz. apply Hleast; [done|]. intros; eapply Hz; [|done]; set_solver.
Qed.

Lemma edges_present (p : PState) bb pred : edges_ok g p -> bb < num_blocks g ->
  pred ∈ predecessors g bb -> edge p pred bb <> Some None.
Proof.
  intros He Hbb Hp. apply (predecessors_of g g_wf bb pred Hbb) in Hp as [_ Hs]. unfold edge.
  destruct (lookup_after_block p pred) as [m|] eqn:Hm; [|done]. apply He in Hm. simpl. intros [= Hn].
  apply not_elem_of_dom in Hn. rewrite Hm in Hn. apply Hn. by apply elem_of_list_to_set.
Qed.

Lemma join_predecessors_lub (p : PState) bb : edges_ok g p -> valid_edges p -> bb < num_blocks g ->
  exists s, join_predecessors p bb = Ok s /\ valid s /\ bounded_by p bb s /\
    (forall z, bounded_by p bb z -> le s z).
Proof.
  intros He Hv Hbb.
  destruct (join_edges_lub p bb (predecessors g bb) (block_start A bb)) as (s & Hs & Hvs & Hle & Hup & Hl);
    [done|intros; by apply edges_present|apply valid_start|].
  exists s. split_and!; [|done|done|].
  - rewrite <- Hs. unfold FlowEngine.join_predecessors. clear.
    generalize (Ok (block_start A bb) : AnalysisResult S).
    induction (predecessors g bb) as [|pred preds IH]; intros acc; [done|]. simpl.
    by rewrite join_step_edge, IH.
  - intros z [Hz1 Hz2]. apply Hl; auto.
Qed.

(** ** The edges only grow *)
Definition grows (p p' : PState) : Prop :=
  forall pred x s, edge p pred x = Some (Some s) -> exists s', edge p' pred x = Some (Some s') /\ le s s'.

Lemma join_grows (p p' : PState) bb s s' :
  edges_ok g p -> valid_edges p -> edges_ok g p' -> valid_edges p' -> bb < num_blocks g -> grows p p' ->
  join_predecessors p bb = Ok s -> join_predecessors p' bb = Ok s' -> le s s'.
Proof.
  intros He Hv He' Hv' Hbb Hg Hs Hs'.
  destruct (join_predecessors_lub p bb) as (t & Ht & _ & _ & Hl); [done..|]. rewrite Hs in Ht. simplify_eq.
  destruct (join_predecessors_lub p' bb) as (t' & Ht' & _ & [Hb1 Hb2] & _); [done..|]. rewrite Hs' in Ht'.
  simplify_eq. apply Hl. split; [done|]. intros pred x Hp Hx. apply Hg in Hx as (x' & Hx' & Hle).
  etrans; [exact Hle|]. by eapply Hb2.
Qed.

(** What is recorded for a block is the flow of a state below the present one. *)
Record ascending (p : PState) : Prop := {
  asc_ok : edges_ok g p;
  asc_valid : valid_edges p;
  asc_flow : forall bb m, bb < num_blocks g -> lookup_after_block p bb = Some m ->
    exists s befores s_in, valid s /\ flow bb s = Ok (befores, m) /\
      join_predecessors p bb = Ok s_in /\ le s s_in;
}.

Lemma edge_round (p : PState) bb befores edges pred x :
  edge (set_after_block bb edges (set_befores bb 0 befores p)) pred x =
    if decide (pred = bb) then Some (edges !! x) else edge p pred x.
Proof. unfold edge. rewrite lookup_after_round. by case_decide. Qed.

Lemma round_grows p bb s befores edges :
  ascending p -> bb < num_blocks g -> valid s -> join_predecessors p bb = Ok s ->
  flow bb s = Ok (befores, edges) -> grows p (set_after_block bb edges (set_befores bb 0 befores p)).
Proof.
  intros Ha Hbb Hv Hs Hf pred x t Ht. rewrite edge_round. case_decide as Hd; [subst|].
  - unfold edge in Ht. destruct (lookup_after_block p bb) as [m|] eqn:Hm; [|done]. simplify_eq/=.
    destruct (asc_flow p Ha bb m Hbb Hm) as (s0 & b0 & s_in & Hv0 & Hf0 & Hin & Hle).
    rewrite Hs in Hin. simplify_eq.
    pose proof (flow_mono bb s0 s_in _ _ _ _ Hv0 Hv Hbb Hle Hf0 Hf) as Hml.
    destruct (Hml x t) as (t' & Ht' & Htt); [congruence|]. exists t'. by rewrite Ht'.
  - exists t. split; [done|reflexivity].
Qed.

Lemma ascending_round p bb s befores edges :
  ascending p -> bb < num_blocks g -> valid s -> join_predecessors p bb = Ok s ->
  flow bb s = Ok (befores, edges) -> all_valid edges -> dom edges = list_to_set (successors g bb) ->
  ascending (set_after_block bb edges (set_befores bb 0 befores p)).
Proof.
  intros Ha Hbb Hv Hs Hf Hve Hd. pose proof (round_grows p bb s befores edges Ha Hbb Hv Hs Hf) as Hg.
  set (p' := set_after_block bb edges (set_befores bb 0 befores p)) in *.
  assert (edges_ok g p') as He'.
  { intros bb' m. unfold p'. rewrite lookup_after_round. case_decide; [subst; by intros [= <-]|apply Ha]. }
  assert (valid_edges p') as Hv'.
  { intros pred x t. unfold p'. rewrite edge_round. case_decide; [intros [= Ht]; by eapply Hve|apply Ha]. }
  constructor; [done..|]. intros bb' m Hbb'. unfold p'. rewrite lookup_after_round. fold p'. intros Hm.
  destruct (join_predecessors_lub p' bb') as (s_in & Hin & _); [done..|].
  case_decide as Heq; [subst; simplify_eq|].
  - exists s, befores, s_in. split_and!; [done..|]. by eapply (join_grows p p'); try apply Ha.
  - destruct (asc_flow p Ha bb' m Hbb' Hm) as (s0 & b0 & s_old & Hv0 & Hf0 & Hold & Hle).
    exists s0, b0, s_in. split_and!; [done..|]. etrans; [exact Hle|].
    by eapply (join_grows p p'); try apply Ha.
Qed.

(** ** Every round makes progress *)
Definition room (o : option S) : nat :=
  match o with Some s => max_height - height s | None => Datatypes.S max_height end.

(** The room that is left on the edges of a block, and on all edges. *)
Definition edges_room (bb : BasicBlock) (after : gmap BasicBlock S) : nat :=
  sum_list_with (fun x => room (after !! x)) (successors g bb).
Definition total_room (p : PState) : nat :=
  sum_list_with (fun bb => edges_room bb (lookup_mut_after_block p bb)) (seq 0 (num_blocks g)).

Lemma sum_le {X} (f f' : X -> nat) l : (forall x, x ∈ l -> f x <= f' x) ->
  sum_list_with f l <= sum_list_with f' l.
Proof.
  induction l as [|x l IH]; simpl; intros Hf; [done|].
  pose proof (Hf x ltac:(set_solver)). specialize (IH ltac:(set_solver)). lia.
Qed.

Lemma sum_lt {X} (f f' : X -> nat) l y : (forall x, x ∈ l -> f x <= f' x) -> y ∈ l -> f y < f' y ->
  sum_list_with f l < sum_list_with f' l.
Proof.
  induction l as [|x l IH]; simpl; intros Hf Hy Hlt; [by apply elem_of_nil in Hy|].
  apply elem_of_cons in Hy as [->|Hy].
  - pose proof (sum_le f f' l ltac:(set_solver)). lia.
  - pose proof (Hf x ltac:(set_solver)). specialize (IH ltac:(set_solver) Hy Hlt). lia.
Qed.

Lemma room_shrinks s s' : valid s -> valid s' -> le s s' -> s <> s' -> room (Some s') < room (Some s).
Proof.
  intros Hs Hs' Hle Hne. pose proof (height_strict s s' Hs Hs' Hle Hne). pose proof (height_bound s' Hs').
  simpl. lia.
Qed.

Lemma update_edges_room bb succs new_map after work :
  (forall x, x ∈ succs -> x ∈ successors g bb) -> all_valid new_map ->
  (forall x t, after !! x = Some t -> valid t /\ forall s, new_map !! x = Some s -> le t s) ->
  let '(after', work') := update_edges succs new_map after work in
  length work' + edges_room bb after' <= length work + edges_room bb after.
Proof.
  revert new_map after work. induction succs as [|y succs IH]; intros new_map after work Hs Hv Ha;
    cbn [update_edges]; [done|].
  destruct (new_map !! y) as [s|] eqn:Hy; [|apply IH; auto; set_solver].
  set (work1 := if decide _ then work else _).
  assert (forall x, room (<[y := s]> after !! x) <= room (after !! x) /\
    (x = y -> after !! y <> Some s -> room (<[y := s]> after !! x) < room (after !! x))) as Hroom.
  { intros x. destruct (decide (y = x)) as [<-|Hne]; [|rewrite lookup_insert_ne by done; split; [done|by intros ->]].
    rewrite lookup_insert_eq. destruct (after !! y) as [t|] eqn:Hay; [|simpl; lia].
    destruct (Ha y t Hay) as [Hvt Hle]. specialize (Hle s Hy). pose proof (Hv y s Hy) as Hvs.
    destruct (decide (t = s)) as [->|Hne]; [split; [done|naive_solver]|].
    pose proof (room_shrinks t s Hvt Hvs Hle Hne). split; [lia|done]. }
  assert (length work1 + edges_room bb (<[y := s]> after) <= length work + edges_room bb after) as Hone.
  { unfold work1, edges_room. case_decide as Hd.
    - apply Nat.add_le_mono_l, sum_le. intros x _. apply Hroom.
    - pose proof (btree_insert_length y work).
      enough (sum_list_with (fun x => room (<[y := s]> after !! x)) (successors g bb)
        < sum_list_with (fun x => room (after !! x)) (successors g bb)) by lia.
      apply (sum_lt _ _ _ y); [intros x _; apply Hroom | set_solver | by apply Hroom]. }
  specialize (IH (delete y new_map) (<[y := s]> after) work1).
  destruct (update_edges _ _ _ _) as [after' work']. etrans; [apply IH|exact Hone].
  - set_solver.
  - intros x t. rewrite lookup_delete_Some. intros [_ Ht]. by eapply Hv.
  - intros x t. destruct (decide (y = x)) as [<-|Hne].
    + rewrite lookup_insert_eq, lookup_delete_eq. intros [= <-]. split; [by eapply Hv|done].
    + rewrite lookup_insert_ne, lookup_delete_ne by done. apply Ha.
Qed.

Lemma sum_replace {X} (f f' : X -> nat) l y : NoDup l -> y ∈ l ->
  (forall x, x ∈ l -> x <> y -> f' x = f x) ->
  sum_list_with f' l + f y = sum_list_with f l + f' y.
Proof.
  intros Hnd Hy Hf. induction Hnd as [|x l Hx Hnd IH]; [by apply elem_of_nil in Hy|]. simpl.
  apply elem_of_cons in Hy as [->|Hy].
  - enough (sum_list_with f' l = sum_list_with f l) by lia.
    apply Nat.le_antisymm; apply sum_le; intros z Hz; rewrite Hf; set_solver.
  - rewrite (Hf x) by set_solver. specialize (IH Hy ltac:(set_solver)). lia.
Qed.

Lemma total_room_round (p : PState) bb befores edges : bb < num_blocks g ->
  total_room (set_after_block bb edges (set_befores bb 0 befores p)) + edges_room bb (lookup_mut_after_block p bb)
  = total_room p + edges_room bb edges.
Proof.
  intros Hbb. unfold total_room.
  pose proof (sum_replace (fun b => edges_room b (lookup_mut_after_block p b))
    (fun b => edges_room b (lookup_mut_after_block (set_after_block bb edges (set_befores bb 0 befores p)) b))
    (seq 0 (num_blocks g)) bb) as Hs.
  cbn beta in Hs. rewrite Hs; [|apply NoDup_seq|apply elem_of_seq; lia|].
  - f_equal. unfold lookup_mut_after_block. by rewrite lookup_after_round, decide_True.
  - intros b _ Hne. unfold lookup_mut_after_block. by rewrite lookup_after_round, decide_False.
Qed.

Lemma process_block_total p bb counters work : ascending p -> bb < num_blocks g ->
  exists r, process_block bb p counters work = Ok r.
Proof.
  intros Ha Hbb. destruct (join_predecessors_lub p bb) as (s & Hs & Hv & _); [apply Ha..|done|].
  unfold FlowEngine.process_block. rewrite Hs. simpl. unfold widen_if_needed. rewrite mono_no_widening. simpl.
  rewrite (walk_flow A).
  destruct (flow_statements_total bb 0 (num_statements g bb) s) as (ss & last & -> & _ & Hl); [done..|]. simpl.
  destruct (terminator_total last bb) as (next & -> & _ & Hn); [done..|]. simpl.
  assert (list_to_set (successors g bb) = dom (merge_states next)) as Hd.
  { rewrite merge_states_dom. apply set_eq. intros x. rewrite !elem_of_list_to_set. symmetry. apply Hn. }
  assert (missing_successor (successors g bb) (merge_states next) = None) as ->.
  { apply missing_successor_None. intros x Hx. apply elem_of_dom. rewrite <- Hd. by apply elem_of_list_to_set. }
  rewrite decide_True by done. destruct (update_edges _ _ _ _). by eexists.
Qed.

Lemma round_progress p bb counters work : ascending p -> bb < num_blocks g ->
  exists s befores edges counters' work',
    let p' := set_after_block bb edges (set_befores bb 0 befores p) in
    process_block bb p counters work = Ok (p', counters', work') /\
    valid s /\ join_predecessors p bb = Ok s /\ flow bb s = Ok (befores, edges) /\ ascending p' /\
    (forall x, x ∈ work' -> x ∈ work \/ x < num_blocks g) /\
    length work' + total_room p' <= length work + total_room p.
Proof.
  intros Ha Hbb. destruct (process_block_total p bb counters work) as [[[p' c'] w'] Hr]; [done..|].
  destruct (process_block_Ok A g mono_no_widening _ _ _ _ _ _ _ (asc_ok p Ha) Hr)
    as (s & befores & edges & Hs & Hf & Hd & -> & Hlen & Hwork).
  destruct (join_predecessors_lub p bb) as (s' & Hs' & Hv & _); [apply Ha..|done|].
  rewrite Hs in Hs'. simplify_eq.
  destruct (flow_total bb s') as (b' & e' & Hf' & Hve & _); [done..|]. rewrite Hf in Hf'. simplify_eq.
  exists s', b', e', c', w'. cbn zeta. split_and!; [done..| | |].
  - by eapply ascending_round.
  - intros x [?|[Hx _]]%Hwork; [by left|right]. by eapply (successors_in g g_wf).
  - pose proof (total_room_round p bb b' e' Hbb) as Ht.
    pose proof (update_edges_room bb (successors g bb) e' (lookup_mut_after_block p bb) work) as Hu.
    destruct (update_edges (successors g bb) e' (lookup_mut_after_block p bb) work) as [after work1] eqn:Hup.
    assert (after = e') as ->.
    { apply map_eq. intros x. pose proof (update_edges_lookup (successors g bb) e' (lookup_mut_after_block p bb) work x) as Hx.
      rewrite Hup in Hx. simpl in Hx. rewrite Hx. destruct (e' !! x) eqn:Hex.
      - rewrite decide_True; [done|]. apply (elem_of_list_to_set (C := gset nat)). rewrite <- Hd. by apply elem_of_dom.
      - unfold lookup_mut_after_block. destruct (lookup_after_block p bb) as [m|] eqn:Hm; [|done]. simpl.
        apply not_elem_of_dom. rewrite (asc_ok p Ha bb m Hm), <- Hd. by apply not_elem_of_dom. }
    specialize (Hu ltac:(done) Hve). simpl in Hlen. rewrite Hlen. simpl.
    enough (length work1 + edges_room bb e' <= length work + edges_room bb (lookup_mut_after_block p bb)) by lia.
    apply Hu. intros x t Hx. unfold lookup_mut_after_block in Hx.
    destruct (lookup_after_block p bb) as [m|] eqn:Hm; [|done]. simpl in Hx.
    assert (edge p bb x = Some (Some t)) as He by (unfold edge; rewrite Hm; simpl; by rewrite Hx).
    split; [by eapply (asc_valid p Ha)|]. intros s Hsx.
    destruct (round_grows p bb s' b' e' Ha Hbb Hv Hs Hf bb x t He) as (t' & Ht' & Hle).
    rewrite edge_round, decide_True in Ht' by done. congruence.
Qed.

(** ** Solutions from above *)
Definition post_solution (before : BasicBlock -> S) : Prop :=
  forall bb, bb < num_blocks g ->
    valid (before bb) /\ le (block_start A bb) (before bb) /\
    forall befores edges x s, flow bb (before bb) = Ok (befores, edges) -> edges !! x = Some s -> le s (before x).

Definition below (p : PState) (before : BasicBlock -> S) : Prop :=
  forall pred x s, pred < num_blocks g -> x < num_blocks g -> edge p pred x = Some (Some s) -> le s (before x).

Lemma round_below p bb s befores edges before :
  ascending p -> bb < num_blocks g -> valid s -> join_predecessors p bb = Ok s ->
  flow bb s = Ok (befores, edges) -> post_solution before -> below p before ->
  below (set_after_block bb edges (set_befores bb 0 befores p)) before.
Proof.
  intros Ha Hbb Hv Hs Hf Hpost Hb pred x t Hpred Hx. rewrite edge_round. case_decide as Heq; [|by apply Hb].
  subst pred. intros [= Ht]. destruct (Hpost bb Hbb) as (Hvb & Hstart & Hflow).
  destruct (join_predecessors_lub p bb) as (s' & Hs' & _ & _ & Hl); [apply Ha..|done|].
  rewrite Hs in Hs'. simplify_eq.
  assert (le s' (before bb)) as Hle.
  { apply Hl. split; [done|]. intros pred u Hp Hu.
    apply (predecessors_of g g_wf bb pred Hbb) in Hp as [Hp _]. by eapply Hb. }
  destruct (flow_total bb (before bb)) as (b2 & e2 & Hf2 & _); [done..|].
  destruct (flow_mono bb s' (before bb) _ _ _ _ Hv Hvb Hbb Hle Hf Hf2 x t Ht) as (t2 & Ht2 & Hle2).
  etrans; [exact Hle2|]. by eapply Hflow.
Qed.

Lemma loop_terminates fuel p counters work :
  ascending p -> (forall x, x ∈ work -> x < num_blocks g) -> length work + total_room p < fuel ->
  exists p', run_loop A g fuel p counters work = Some (Ok p') /\ ascending p' /\
    (forall before, post_solution before -> below p before -> below p' before).
Proof.
  revert p counters work. induction fuel as [|fuel IH]; intros p counters work Ha Hw Hfuel; [lia|].
  cbn [run_loop]. destruct work as [|bb work]; [eauto|]. simpl in Hfuel.
  assert (bb < num_blocks g) as Hbb by (apply Hw; set_solver).
  destruct (round_progress p bb counters work Ha Hbb)
    as (s & befores & edges & c' & w' & -> & Hv & Hs & Hf & Ha' & Hw' & Hroom).
  destruct (IH _ c' w' Ha') as (p' & Hr & Ha2 & Hb).
  - intros x [?|?]%Hw'; [apply Hw; set_solver|done].
  - lia.
  - exists p'. split_and!; [done..|]. intros before Hpost Hbelow. apply Hb; [done|].
    by eapply round_below.
Qed.

Lemma ascending_new : ascending PointwiseState_new.
Proof. by constructor. Qed.

(** The number of edges of the graph. *)
Definition num_edges : nat := sum_list_with (fun bb => length (successors g bb)) (seq 0 (num_blocks g)).

Lemma total_room_new : total_room PointwiseState_new = num_edges * Datatypes.S max_height.
Proof.
  unfold total_room, num_edges, edges_room. induction (seq 0 (num_blocks g)) as [|bb l IH]; [done|]. simpl.
  rewrite IH, Nat.mul_add_distr_r. f_equal.
  unfold lookup_mut_after_block, lookup_after_block. simpl. clear.
  rewrite (lookup_empty bb). simpl.
  induction (successors g bb) as [|x l IH]; [done|]. cbn [sum_list_with length]. rewrite IH, lookup_empty.
  cbn [room]. lia.
Qed.

(** All recorded states are valid. *)
Lemma valid_closed : closed A g (fun _ => valid).
Proof.
  constructor.
  - intros bb _. apply valid_start.
  - intros bb s t _ Hs Ht. by apply valid_join.
  - intros l s s' [Hb Hi] Hs Hs'. destruct (statement_total s l Hs Hb Hi) as (t & Ht & Hv). congruence.
  - intros bb s next x s' Hbb Hs Hn Hx. destruct (terminator_total s bb Hs Hbb) as (next' & Hn' & Hv & _).
    assert (next' = next) as -> by congruence. rewrite Forall_forall in Hv. by apply (Hv (x, s')).
Qed.

Lemma engine_returns fuel : num_blocks g + num_edges * Datatypes.S max_height < fuel ->
  exists p, run_fwd_analysis A g fuel = Some (Ok p) /\ ascending p /\
    (forall before, post_solution before -> below PointwiseState_new before -> below p before).
Proof.
  intros Hfuel. apply loop_terminates.
  - apply ascending_new.
  - intros x Hx%elem_of_seq. lia.
  - rewrite total_room_new, length_seq. lia.
Qed.

(** C34: For a monotone analysis over states of bounded height the engine terminates: a
    number of rounds linear in the blocks and in the edges times the height is
    enough. It never fails, its states solve the dataflow equations, and they
    are the least ones: before every block they lie below those of any solution
    from above. *)
Theorem engine_terminates_with_least_solution fuel :
  num_blocks g + num_edges * Datatypes.S max_height < fuel ->
  exists p, run_fwd_analysis A g fuel = Some (Ok p) /\
    (forall bb, bb < num_blocks g -> settled A g p bb) /\
    (forall before, post_solution before -> forall bb, bb < num_blocks g ->
       exists s, lookup_before p {| block := bb; statement_index := 0 |} = Some s /\ le s (before bb)).
Proof.
  intros Hfuel. destruct (engine_returns fuel Hfuel) as (p & Hr & Ha & Hb).
  pose proof (p_settled A g p (consistent_result A g mono_no_widening g_wf fuel p Hr)) as Hset.
  exists p. split_and!; [done..|]. intros before Hpost bb Hbb.
  destruct (Hset bb Hbb) as (s & befores & edges & Hs & Hf & Hrec & _).
  exists s. split; [by eapply Hrec, (flow_head A g)|].
  destruct (join_predecessors_lub p bb) as (s' & Hs' & _ & _ & Hl); [apply Ha..|done|].
  rewrite Hs in Hs'. simplify_eq. destruct (Hpost bb Hbb) as (_ & Hstart & _).
  apply Hl. split; [done|]. intros pred t Hp Ht.
  apply (predecessors_of g g_wf bb pred Hbb) in Hp as [Hp _].
  eapply (Hb before); [done| |done|done|done]. intros ???? _ [=].
Qed.
End monotone.
