(* ===== verification/Mir.v ===== *)
(** * MIR bodies

    The part of the compiler's intermediate representation that the analyses of
    [analysis/src] look into. Types are identifiers of interned types. Variants
    that no analysis distinguishes share the constructors [StatementOther],
    [RvalueOther] and [TerminatorOther]; the blocks a terminator may continue at
    and the predecessors of a block are those the compiler gives. *)
From S2P Require Import Prelude FlowEngine FlowFix.

Abbreviation Local := nat.
Abbreviation Ty := nat.

(** ** Places *)
Inductive ProjectionElem :=
| Deref
| Field (index : nat) (ty : Ty)
| Index (l : Local)
| ConstantIndex (offset min_length : N) (from_end : bool)
| Subslice (from to : N) (from_end : bool)
| Downcast (variant : nat)
| OpaqueCast (ty : Ty).

#[export] Instance ProjectionElem_eq_dec : EqDecision ProjectionElem.
Proof. solve_decision. Defined.
#[export] Program Instance ProjectionElem_countable : Countable ProjectionElem :=
  inj_countable' (fun e => match e with
    | Deref => inl (inl (inl ()))
    | Field i t => inl (inl (inr (i, t)))
    | Index l => inl (inr l)
    | ConstantIndex o m b => inr (inl (o, m, b))
    | Subslice f t b => inr (inr (inl (f, t, b)))
    | Downcast v => inr (inr (inr (inl v)))
    | OpaqueCast t => inr (inr (inr (inr t)))
    end) (fun e => match e with
    | inl (inl (inl _)) => Deref
    | inl (inl (inr (i, t))) => Field i t
    | inl (inr l) => Index l
    | inr (inl (o, m, b)) => ConstantIndex o m b
    | inr (inr (inl (f, t, b))) => Subslice f t b
    | inr (inr (inr (inl v))) => Downcast v
    | inr (inr (inr (inr t))) => OpaqueCast t
    end) _.
Next Obligation. by intros []. Qed.

Record Place := { local : Local; projection : list ProjectionElem }.

#[export] Instance Place_eq_dec : EqDecision Place.
Proof. solve_decision. Defined.
#[export] Program Instance Place_countable : Countable Place :=
  inj_countable' (fun p => (local p, projection p)) (fun p => {| local := p.1; projection := p.2 |}) _.
Next Obligation. by intros []. Qed.

Definition place_of_local (l : Local) : Place := {| local := l; projection := [] |}.
Definition as_local (p : Place) : option Local :=
  match projection p with [] => Some (local p) | _ => None end.

(** ** Statements and terminators *)
Inductive Operand :=
| Copy (p : Place)
| Move (p : Place)
| Constant.

Inductive BorrowKind := Shared | Mut | OtherBorrow.

Inductive Rvalue :=
| Use (op : Operand)
| Repeat (op : Operand)
| Cast (op : Operand)
| UnaryOp (op : Operand)
| BinaryOp (op1 op2 : Operand)
| CheckedBinaryOp (op1 op2 : Operand)
| Aggregate (ops : list Operand)
| Ref (kind : BorrowKind) (p : Place)
| RvalueOther.

Inductive StatementKind :=
| Assign (target : Place) (source : Rvalue)
| StorageLive (l : Local)
| StorageDead (l : Local)
| StatementOther.

#[export] Instance Operand_eq_dec : EqDecision Operand.
Proof. solve_decision. Defined.
#[export] Instance BorrowKind_eq_dec : EqDecision BorrowKind.
Proof. solve_decision. Defined.
#[export] Instance Rvalue_eq_dec : EqDecision Rvalue.
Proof. solve_decision. Defined.
#[export] Instance StatementKind_eq_dec : EqDecision StatementKind.
Proof. solve_decision. Defined.

Inductive TerminatorKind :=
| SwitchInt (discr : Operand)
| Drop (place : Place) (target : BasicBlock) (unwind : option BasicBlock)
| DropAndReplace (place : Place) (value : Operand) (target : BasicBlock) (unwind : option BasicBlock)
| Call (func : Operand) (args : list Operand) (destination : Place) (target cleanup : option BasicBlock)
| Assert (cond : Operand) (target : BasicBlock) (cleanup : option BasicBlock)
| Yield (value : Operand) (resume : BasicBlock) (drop : option BasicBlock)
| InlineAsm
| TerminatorOther.

Record Terminator := { kind : TerminatorKind; term_successors : list BasicBlock }.
Record BasicBlockData := { statements : list StatementKind; terminator : Terminator }.

Record Body := {
  basic_blocks : list BasicBlockData;
  local_decls : nat;
  arg_count : nat;
  predecessors_of_block : BasicBlock -> list BasicBlock;
}.

Definition args_iter (b : Body) : list Local := seq 1 (arg_count b).
Definition vars_and_temps_iter (b : Body) : list Local :=
  seq (1 + arg_count b) (local_decls b - (1 + arg_count b)).
Definition local_indices (b : Body) : list Local := seq 0 (local_decls b).

(** Indexing with a location, which panics out of range. *)
Definition stmt_at (b : Body) (l : Location) : AnalysisResult StatementKind :=
  match basic_blocks b !! block l with
  | Some data => unwrap "index out of bounds" (statements data !! statement_index l)
  | None => Panic "index out of bounds"
  end.
Definition term_at (b : Body) (bb : BasicBlock) : AnalysisResult Terminator :=
  unwrap "index out of bounds" (terminator <$> basic_blocks b !! bb).

Definition cfg_of (b : Body) : Cfg := {|
  num_blocks := length (basic_blocks b);
  num_statements bb := from_option (length ∘ statements) 0 (basic_blocks b !! bb);
  successors bb := from_option (term_successors ∘ terminator) [] (basic_blocks b !! bb);
  predecessors := predecessors_of_block b;
|}.

(** The locations of all statements and terminators. *)
Definition all_locations (b : Body) : list Location :=
  seq 0 (num_blocks (cfg_of b)) ≫= fun bb =>
    (fun i => {| block := bb; statement_index := i |}) <$> seq 0 (S (num_statements (cfg_of b) bb)).

Lemma elem_of_all_locations b l : l ∈ all_locations b <-> in_body (cfg_of b) l.
Proof.
  unfold all_locations, in_body. rewrite list_elem_of_bind. destruct l as [bb i]. split.
  - intros (bb' & (i' & [= -> ->] & Hi)%list_elem_of_fmap & Hb). rewrite elem_of_seq in Hi, Hb.
    cbn [block statement_index]. lia.
  - cbn [block statement_index]. intros [Hb Hi]. exists bb. rewrite list_elem_of_fmap, elem_of_seq.
    split; [|lia]. exists i. split; [done|]. apply elem_of_seq. lia.
Qed.

(** ** Well-formed bodies

    The successors of a terminator are the blocks named by its kind. *)
Definition targets (t : TerminatorKind) : option (list BasicBlock) :=
  match t with
  | Drop _ target unwind | DropAndReplace _ _ target unwind => Some (target :: option_list unwind)
  | Call _ _ _ target cleanup => Some (option_list target ++ option_list cleanup)
  | Assert _ target cleanup => Some (target :: option_list cleanup)
  | Yield _ resume drop => Some (resume :: option_list drop)
  | SwitchInt _ | InlineAsm | TerminatorOther => None
  end.

(** The local a statement or the destination of a call assigns as a whole. *)
Definition assigned_local (s : StatementKind) : option Local :=
  match s with Assign target _ => as_local target | _ => None end.

Definition storage_local (s : StatementKind) : option Local :=
  match s with StorageLive l | StorageDead l => Some l | _ => None end.

Record wf_body (b : Body) : Prop := {
  wf_body_cfg :> wf_cfg (cfg_of b);
  wf_targets bb t bbs : term_at b bb = Ok t -> targets (kind t) = Some bbs ->
    forall x, x ∈ term_successors t <-> x ∈ bbs;
  wf_args : 1 + arg_count b <= local_decls b;
  wf_assigned loc s l : stmt_at b loc = Ok s -> assigned_local s = Some l -> l < local_decls b;
  wf_storage loc s l : stmt_at b loc = Ok s -> storage_local s = Some l -> l < local_decls b;
  wf_destination bb t func args destination target cleanup l : term_at b bb = Ok t ->
    kind t = Call func args destination target cleanup -> as_local destination = Some l -> l < local_decls b;
}.

Lemma term_at_in b bb : bb < num_blocks (cfg_of b) ->
  exists t, term_at b bb = Ok t /\ successors (cfg_of b) bb = term_successors t.
Proof.
  simpl. intros [data Hd]%lookup_lt_is_Some_2. exists (terminator data).
  unfold term_at. by rewrite Hd.
Qed.

Lemma stmt_at_range b loc s : stmt_at b loc = Ok s -> at_statement (cfg_of b) loc.
Proof.
  unfold stmt_at, at_statement. simpl. destruct (basic_blocks b !! block loc) as [data|] eqn:Hd; [|done].
  intros Hs%unwrap_Ok_inv. simpl. split; by eapply lookup_lt_Some.
Qed.

Lemma stmt_at_elem b loc s : stmt_at b loc = Ok s -> s ∈ (basic_blocks b ≫= statements).
Proof.
  unfold stmt_at. destruct (basic_blocks b !! block loc) as [data|] eqn:Hd; [|done]. intros Hs%unwrap_Ok_inv.
  apply list_elem_of_bind. exists data. split; by eapply list_elem_of_lookup_2.
Qed.

Lemma term_at_range b bb t : term_at b bb = Ok t -> bb < num_blocks (cfg_of b).
Proof.
  unfold term_at. intros Ht%unwrap_Ok_inv. apply fmap_Some in Ht as (data & Hd & _). by eapply lookup_lt_Some.
Qed.

Lemma stmt_at_in b l : at_statement (cfg_of b) l -> exists s, stmt_at b l = Ok s.
Proof.
  unfold at_statement, stmt_at. simpl. intros [[data Hd]%lookup_lt_is_Some_2 Hi]. rewrite Hd in *. simpl in *.
  apply lookup_lt_is_Some_2 in Hi as [s Hs]. exists s. by rewrite Hs.
Qed.

(** Well-formedness of a concrete body is decided block by block. *)
Definition local_ok (b : Body) (o : option Local) : Prop :=
  match o with Some l => l < local_decls b | None => True end.
#[export] Instance local_ok_dec b o : Decision (local_ok b o).
Proof. destruct o; simpl; apply _. Defined.

Definition block_ok (b : Body) (data : BasicBlockData) : Prop :=
  Forall (fun x => x < length (basic_blocks b)) (term_successors (terminator data)) /\
  Forall (fun s => local_ok b (assigned_local s) /\ local_ok b (storage_local s)) (statements data) /\
  local_ok b (match kind (terminator data) with Call _ _ destination _ _ => as_local destination | _ => None end) /\
  list_to_set (term_successors (terminator data)) =@{gset BasicBlock}
    list_to_set (default (term_successors (terminator data)) (targets (kind (terminator data)))).

#[export] Instance block_ok_dec b data : Decision (block_ok b data).
Proof. unfold block_ok. apply _. Defined.

Definition predecessors_ok (b : Body) (bb : BasicBlock) : Prop :=
  list_to_set (predecessors_of_block b bb) =@{gset BasicBlock}
    list_to_set (filter (fun pred => bb ∈ successors (cfg_of b) pred) (seq 0 (length (basic_blocks b)))).

#[export] Instance predecessors_ok_dec b bb : Decision (predecessors_ok b bb).
Proof. unfold predecessors_ok. apply _. Defined.

Definition body_ok (b : Body) : bool :=
  bool_decide (Forall (block_ok b) (basic_blocks b)) &&
  bool_decide (Forall (predecessors_ok b) (seq 0 (length (basic_blocks b)))) &&
  (1 + arg_count b <=? local_decls b).

Lemma term_at_data b bb t : term_at b bb = Ok t ->
  exists data, basic_blocks b !! bb = Some data /\ t = terminator data.
Proof. unfold term_at. intros Ht%unwrap_Ok_inv. by apply fmap_Some in Ht. Qed.

Lemma block_ok_at b bb data : Forall (block_ok b) (basic_blocks b) -> basic_blocks b !! bb = Some data ->
  block_ok b data.
Proof. intros Hb Hd. rewrite Forall_lookup in Hb. by apply (Hb bb). Qed.

Lemma stmt_ok_at b loc s : Forall (block_ok b) (basic_blocks b) -> stmt_at b loc = Ok s ->
  local_ok b (assigned_local s) /\ local_ok b (storage_local s).
Proof.
  unfold stmt_at. intros Hblocks Hs. destruct (basic_blocks b !! block loc) as [data|] eqn:Hd; [|done].
  apply unwrap_Ok_inv in Hs. destruct (block_ok_at b _ data Hblocks Hd) as (_ & Hst & _).
  rewrite Forall_lookup in Hst. by apply (Hst (statement_index loc)).
Qed.

Lemma body_ok_wf b : body_ok b = true -> wf_body b.
Proof.
  unfold body_ok. rewrite !andb_true_iff, !bool_decide_eq_true, Nat.leb_le. intros [[Hblocks Hpreds] Hargs].
  assert (forall bb next_bb, next_bb ∈ successors (cfg_of b) bb -> next_bb < length (basic_blocks b)) as Hsucc.
  { intros bb x. simpl. destruct (basic_blocks b !! bb) as [data|] eqn:Hd; [|set_solver]. simpl. intros Hx.
    destruct (block_ok_at b bb data Hblocks Hd) as [Hs _]. rewrite Forall_forall in Hs. by apply Hs. }
  constructor.
  - constructor; [intros bb x _; apply Hsucc|]. intros bb pred Hbb. simpl in *.
    rewrite Forall_forall in Hpreds. specialize (Hpreds bb (proj2 (elem_of_seq _ _ _) (conj (Nat.le_0_l _) Hbb))).
    rewrite <- (elem_of_list_to_set (C := gset BasicBlock) pred), Hpreds.
    rewrite elem_of_list_to_set, list_elem_of_filter, elem_of_seq.
    split; [intros [? ?]; split; [lia|done]|intros [? ?]; split; [done|lia]].
  - intros bb t bbs (data & Hd & ->)%term_at_data Ht x.
    destruct (block_ok_at b bb data Hblocks Hd) as (_ & _ & _ & Heq). rewrite Ht in Heq. simpl in Heq.
    by rewrite <- (elem_of_list_to_set (C := gset BasicBlock)), Heq, elem_of_list_to_set.
  - done.
  - intros loc s l Hs Hl. destruct (stmt_ok_at b loc s Hblocks Hs) as [Ha _]. by rewrite Hl in Ha.
  - intros loc s l Hs Hl. destruct (stmt_ok_at b loc s Hblocks Hs) as [_ Ha]. by rewrite Hl in Ha.
  - intros bb t func args destination target cleanup l (data & Hd & ->)%term_at_data Hk Hl.
    destruct (block_ok_at b bb data Hblocks Hd) as (_ & _ & Hc & _). by rewrite Hk, Hl in Hc.
Qed.

(** A body with a loop and a call, on which the analyses are run:
    [_2 = const; while *_1* { _2 = _2 + _3 }; _0 = f(move _2); return]. *)
Module example.
Definition goto (bbs : list BasicBlock) : Terminator := {| kind := TerminatorOther; term_successors := bbs |}.
Definition v (l : Local) : Place := place_of_local l.

Definition loop_body : Body := {|
  basic_blocks := [
    {| statements := [StorageLive 2; Assign (v 2) (Use Constant)]; terminator := goto [1] |};
    {| statements := []; terminator := {| kind := SwitchInt (Copy (v 1)); term_successors := [2; 3] |} |};
    {| statements := [Assign (v 2) (BinaryOp (Copy (v 2)) (Copy (v 3)))]; terminator := goto [1] |};
    {| statements := [];
       terminator := {| kind := Call Constant [Move (v 2)] (v 0) (Some 4) (Some 5); term_successors := [4; 5] |} |};
    {| statements := [StorageDead 2]; terminator := goto [] |};
    {| statements := []; terminator := goto [] |}];
  local_decls := 4;
  arg_count := 1;
  predecessors_of_block bb :=
    match bb with 1 => [0; 2] | 2 | 3 => [1] | 4 | 5 => [3] | _ => [] end;
|}.

Lemma loop_body_wf : wf_body loop_body.
Proof. apply body_ok_wf. by vm_compute. Qed.

Lemma loop_body_no_asm bb t : term_at loop_body bb = Ok t -> kind t <> InlineAsm.
Proof.
  intros (data & Hd & ->)%term_at_data. apply list_elem_of_lookup_2 in Hd. simpl in Hd. set_unfold.
  by decompose [or] Hd; subst.
Qed.
End example.
