(* ===== verification/FlowReaching.v ===== *)
(** * Reaching definitions

    [analysis/src/domains/reaching_definitions]: for every local the assignments
    and parameters that its value may come from. The analysis is exact: before
    every location stand the definitions that reach it along a path of the graph
    that does not define the local again. *)
From S2P Require Import Prelude FlowEngine FlowFix FlowTerm Mir.

Inductive DefLocation :=
| Assignment (l : Location)
| Param (idx : nat).

#[export] Instance DefLocation_eq_dec : EqDecision DefLocation.
Proof. solve_decision. Defined.
#[export] Program Instance DefLocation_countable : Countable DefLocation :=
  inj_countable' (fun d => match d with Assignment l => inl l | Param i => inr i end)
    (fun d => match d with inl l => Assignment l | inr i => Param i end) _.
Next Obligation. by intros []. Qed.

Abbreviation ReachingDefsState := (gmap Local (gset DefLocation)).

(** The set of a local, which is empty when the map has none. *)
Definition location_set (l : Local) (s : ReachingDefsState) : gset DefLocation := default ∅ (s !! l).

(** [entry(local).or_insert_with(default)], [clear] and [insert]. *)
Definition define_local (l : Local) (d : DefLocation) (s : ReachingDefsState) : ReachingDefsState :=
  <[l := {[d]}]> s.
Definition add_definition (l : Local) (d : DefLocation) (s : ReachingDefsState) : ReachingDefsState :=
  <[l := {[d]} ∪ location_set l s]> s.

Definition reaching_join (s other : ReachingDefsState) : ReachingDefsState :=
  union_with (fun self_locations other_locations => Some (self_locations ∪ other_locations)) s other.

Definition reaching_is_bottom (s : ReachingDefsState) : bool :=
  forallb (fun '((_, set) : Local * gset DefLocation) => bool_decide (set = ∅)) (map_to_list s).

Section analysis.
Variable mir : Body.

Definition reaching_bottom : ReachingDefsState := ∅.
Definition reaching_initial : ReachingDefsState :=
  foldl (fun reaching_defs '(idx, l) => add_definition l (Param idx) reaching_defs) ∅
    (imap pair (args_iter mir)).

Definition reaching_statement_effect (s : ReachingDefsState) (location : Location) :
    AnalysisResult ReachingDefsState :=
  stmt ← stmt_at mir location;
  Ok (match stmt with
      | Assign target _ =>
          match as_local target with
          | Some l => define_local l (Assignment location) s
          | None => s
          end
      | _ => s
      end).

Definition reaching_terminator_effect (s : ReachingDefsState) (location : Location) :
    AnalysisResult (list (BasicBlock * ReachingDefsState)) :=
  term ← term_at mir (block location);
  match kind term with
  | Call _ _ destination target cleanup =>
      let dest_state := match as_local destination with
                        | Some l => define_local l (Assignment location) s
                        | None => s
                        end in
      let cleanup_state := match target, as_local destination with
                           | Some _, Some l => add_definition l (Assignment location) s
                           | _, _ => s
                           end in
      Ok (to_blocks (option_list target) dest_state ++ to_blocks (option_list cleanup) cleanup_state)
  | InlineAsm => Err (UnsupportedStatement location)
  | _ => Ok (to_blocks (term_successors term) s)
  end.

Definition ReachingDefsAnalysis : FixpointEngine ReachingDefsState := {|
  new_bottom := reaching_bottom;
  new_initial := reaching_initial;
  need_to_widen _ := false;
  apply_statement_effect := reaching_statement_effect;
  apply_terminator_effect := reaching_terminator_effect;
  join := reaching_join;
  widen _ _ := Panic "not implemented";
|}.
End analysis.

(** ** Definitions that reach a location

    A call defines its destination on the edge to its target, and may have
    defined it on the edge to the cleanup block. *)
Section reaching.
Variable mir : Body.

Definition at_call (loc : Location) (destination : Place) (target cleanup : option BasicBlock) : Prop :=
  loc = terminator_loc (cfg_of mir) (block loc) /\
  exists t func args, term_at mir (block loc) = Ok t /\ kind t = Call func args destination target cleanup.

Inductive reaches (l : Local) : DefLocation -> Location -> Prop :=
| reaches_parameter idx : args_iter mir !! idx = Some l -> reaches l (Param idx) (start_of START_BLOCK)
| reaches_assignment loc s : stmt_at mir loc = Ok s -> assigned_local s = Some l ->
    reaches l (Assignment loc) (next_location loc)
| reaches_statement d loc s : reaches l d loc -> stmt_at mir loc = Ok s -> assigned_local s <> Some l ->
    reaches l d (next_location loc)
| reaches_result loc destination target cleanup : at_call loc destination (Some target) cleanup ->
    as_local destination = Some l -> reaches l (Assignment loc) (start_of target)
| reaches_unwound_result loc destination target cleanup : at_call loc destination (Some target) (Some cleanup) ->
    as_local destination = Some l -> reaches l (Assignment loc) (start_of cleanup)
| reaches_returned d loc destination target cleanup : reaches l d loc ->
    at_call loc destination (Some target) cleanup -> as_local destination <> Some l -> reaches l d (start_of target)
| reaches_unwound d loc destination target cleanup : reaches l d loc ->
    at_call loc destination target (Some cleanup) -> reaches l d (start_of cleanup)
| reaches_terminator d bb t x : reaches l d (terminator_loc (cfg_of mir) bb) ->
    term_at mir bb = Ok t -> (forall func args destination target cleanup,
      kind t <> Call func args destination target cleanup) ->
    x ∈ term_successors t -> reaches l d (start_of x).
End reaching.

Lemma reaching_is_bottom_spec s : reaching_is_bottom s = true <-> forall l, location_set l s = ∅.
Proof.
  unfold reaching_is_bottom, location_set. rewrite forallb_forall. split.
  - intros Hall l. destruct (s !! l) as [ds|] eqn:Hds; [|done]. simpl.
    specialize (Hall (l, ds)). simpl in Hall. rewrite bool_decide_eq_true in Hall.
    apply Hall. by apply list_elem_of_In, elem_of_map_to_list.
  - intros Hall [l ds] Hin. apply list_elem_of_In, elem_of_map_to_list in Hin. apply bool_decide_eq_true.
    specialize (Hall l). by rewrite Hin in Hall.
Qed.

(** ** States as sets of facts *)
Definition facts (s : ReachingDefsState) : gset (Local * option DefLocation) :=
  list_to_set (map_to_list s ≫= fun '(l, ds) => (l, None) :: ((fun d => (l, Some d)) <$> elements ds)).

Lemma elem_of_facts_None l s : (l, None) ∈ facts s <-> is_Some (s !! l).
Proof.
  unfold facts. rewrite elem_of_list_to_set, list_elem_of_bind. split.
  - intros ([l' ds] & Hin & Hm%elem_of_map_to_list). apply elem_of_cons in Hin as [[= ->]|Hin]; [by eexists|].
    by apply list_elem_of_fmap in Hin as (? & ? & _).
  - intros [ds Hds]. exists (l, ds). split; [by left|by apply elem_of_map_to_list].
Qed.

Lemma elem_of_facts_Some l d s : (l, Some d) ∈ facts s <-> d ∈ location_set l s.
Proof.
  unfold facts, location_set. rewrite elem_of_list_to_set, list_elem_of_bind. split.
  - intros ([l' ds] & Hin & Hm%elem_of_map_to_list). apply elem_of_cons in Hin as [|Hin]; [done|].
    apply list_elem_of_fmap in Hin as (d' & [= -> ->] & Hd%elem_of_elements). by rewrite Hm.
  - destruct (s !! l) as [ds|] eqn:Hds; [|set_solver]. intros Hd. exists (l, ds).
    split; [right|by apply elem_of_map_to_list]. apply list_elem_of_fmap. exists d. by rewrite elem_of_elements.
Qed.

Lemma facts_inj s t : facts s = facts t -> s = t.
Proof.
  intros Heq. apply map_eq. intros l.
  assert (is_Some (s !! l) <-> is_Some (t !! l)) as Hdom by by rewrite <- !elem_of_facts_None, Heq.
  assert (location_set l s = location_set l t) as Hl.
  { apply set_eq. intros d. by rewrite <- !elem_of_facts_Some, Heq. }
  unfold location_set in Hl. destruct (s !! l), (t !! l); simpl in *; try done; [by f_equal| |].
  - by destruct (proj1 Hdom (mk_is_Some _ _ eq_refl)).
  - by destruct (proj2 Hdom (mk_is_Some _ _ eq_refl)).
Qed.

Lemma facts_ext (s : ReachingDefsState) (F : gset (Local * option DefLocation)) :
  (forall l, is_Some (s !! l) <-> (l, None) ∈ F) -> (forall l d, d ∈ location_set l s <-> (l, Some d) ∈ F) ->
  facts s = F.
Proof.
  intros Hn Hs. apply set_eq. intros [l [d|]]; [by rewrite elem_of_facts_Some|by rewrite elem_of_facts_None].
Qed.

Lemma facts_empty : facts ∅ = ∅.
Proof.
  apply facts_ext; [|set_solver]. intros l. rewrite (lookup_empty l).
  split; [intros []|]; [done|]. set_solver.
Qed.

Lemma location_set_insert l ds s l' :
  location_set l' (<[l := ds]> s) = if decide (l' = l) then ds else location_set l' s.
Proof.
  unfold location_set. case_decide as Hl; [subst; by rewrite lookup_insert_eq|by rewrite lookup_insert_ne].
Qed.

Lemma location_set_join l s t : location_set l (reaching_join s t) = location_set l s ∪ location_set l t.
Proof.
  unfold location_set, reaching_join. rewrite lookup_union_with.
  by destruct (s !! l), (t !! l); simpl; rewrite ?(right_id_L ∅ _), ?(left_id_L ∅ _).
Qed.

Lemma facts_join s t : facts (reaching_join s t) = facts s ∪ facts t.
Proof.
  apply facts_ext; intros l; [|intros d; rewrite location_set_join; by rewrite !elem_of_union, !elem_of_facts_Some].
  rewrite elem_of_union, !elem_of_facts_None. unfold reaching_join. rewrite lookup_union_with.
  destruct (s !! l), (t !! l); simpl; (split; [intros [? ?]|intros [[? ?]|[? ?]]]); simplify_eq; eauto.
Qed.

Lemma facts_define l d s :
  facts (define_local l d s) = {[(l, None); (l, Some d)]} ∪ filter (fun p => p.1 <> l) (facts s).
Proof.
  apply facts_ext; intros l'; unfold define_local.
  - destruct (decide (l' = l)) as [->|Hne]; [rewrite lookup_insert_eq; set_solver|].
    rewrite lookup_insert_ne by done. rewrite <- elem_of_facts_None. set_solver.
  - intros d'. rewrite location_set_insert. case_decide; [set_solver|].
    rewrite <- elem_of_facts_Some. set_solver.
Qed.

Lemma facts_add l d s : facts (add_definition l d s) = {[(l, None); (l, Some d)]} ∪ facts s.
Proof.
  apply facts_ext; intros l'; unfold add_definition.
  - destruct (decide (l' = l)) as [->|Hne]; [rewrite lookup_insert_eq; set_solver|].
    rewrite lookup_insert_ne by done. rewrite <- elem_of_facts_None. set_solver.
  - intros d'. rewrite location_set_insert. case_decide; [subst; rewrite elem_of_union|]; rewrite <- elem_of_facts_Some; set_solver.
Qed.

(** ** The analysis is monotone *)
Section exact.
Variable mir : Body.
Hypothesis mir_wf : wf_body mir.
Hypothesis no_asm : forall bb t, term_at mir bb = Ok t -> kind t <> InlineAsm.
Abbreviation A := (ReachingDefsAnalysis mir).
Abbreviation g := (cfg_of mir).

Definition definitions : list DefLocation :=
  (Assignment <$> all_locations mir) ++ (Param <$> seq 0 (arg_count mir)).
Definition universe : gset (Local * option DefLocation) :=
  list_to_set (seq 0 (local_decls mir) ≫= fun l => (l, None) :: ((fun d => (l, Some d)) <$> definitions)).

Definition reaching_le (s t : ReachingDefsState) : Prop := facts s ⊆ facts t.
Definition reaching_valid (s : ReachingDefsState) : Prop := facts s ⊆ universe.
Definition reaching_height (s : ReachingDefsState) : nat := size (facts s).

Lemma elem_of_definitions d :
  d ∈ definitions <-> match d with Assignment l => in_body g l | Param idx => idx < arg_count mir end.
Proof.
  unfold definitions. rewrite elem_of_app, !list_elem_of_fmap. destruct d as [l|idx].
  - rewrite <- elem_of_all_locations. naive_solver.
  - split; [intros [(? & ? & _)|(? & [= ->] & Hi%elem_of_seq)]; [done|lia]|].
    intros Hi. right. exists idx. rewrite elem_of_seq. split; [done|lia].
Qed.

Lemma elem_of_universe l o :
  (l, o) ∈ universe <-> l < local_decls mir /\ match o with Some d => d ∈ definitions | None => True end.
Proof.
  unfold universe. rewrite elem_of_list_to_set, list_elem_of_bind. split.
  - intros (l' & Hin & Hl%elem_of_seq). apply elem_of_cons in Hin as [[= -> ->]|Hin]; [split; [lia|done]|].
    apply list_elem_of_fmap in Hin as (d & [= -> ->] & Hd). split; [lia|done].
  - intros [Hl Ho]. exists l. split; [|apply elem_of_seq; lia]. destruct o as [d|]; [right|by left].
    apply list_elem_of_fmap. eauto.
Qed.

Lemma valid_define l d s : l < local_decls mir -> d ∈ definitions -> reaching_valid s ->
  reaching_valid (define_local l d s).
Proof.
  unfold reaching_valid. rewrite facts_define. intros Hl Hd Hs.
  assert ((l, None) ∈ universe /\ (l, Some d) ∈ universe) by by rewrite !elem_of_universe.
  set_solver.
Qed.

Lemma valid_add l d s : l < local_decls mir -> d ∈ definitions -> reaching_valid s ->
  reaching_valid (add_definition l d s).
Proof.
  unfold reaching_valid. rewrite facts_add. intros Hl Hd Hs.
  assert ((l, None) ∈ universe /\ (l, Some d) ∈ universe) by by rewrite !elem_of_universe.
  set_solver.
Qed.

Lemma define_mono l d s t : reaching_le s t -> reaching_le (define_local l d s) (define_local l d t).
Proof. unfold reaching_le. rewrite !facts_define. set_solver. Qed.

Lemma add_mono l d s t : reaching_le s t -> reaching_le (add_definition l d s) (add_definition l d t).
Proof. unfold reaching_le. rewrite !facts_add. set_solver. Qed.

(** The parameters of the initial state. *)
Lemma initial_facts l o :
  (l, o) ∈ facts (reaching_initial mir) <->
    exists idx, args_iter mir !! idx = Some l /\ (o = None \/ o = Some (Param idx)).
Proof.
  unfold reaching_initial.
  enough (forall s, (l, o) ∈ facts (foldl (fun reaching_defs '(idx, l) =>
      add_definition l (Param idx) reaching_defs) s (imap pair (args_iter mir))) <->
    (l, o) ∈ facts s \/ exists idx, (idx, l) ∈ imap pair (args_iter mir) /\ (o = None \/ o = Some (Param idx)))
    as Hall.
  { rewrite Hall, facts_empty. split.
    - intros [|(idx & Hin & Ho)]; [set_solver|]. exists idx. split; [|done].
      by apply elem_of_lookup_imap in Hin as (? & ? & [= -> ->] & ?).
    - intros (idx & Hin & Ho). right. exists idx. split; [|done]. apply elem_of_lookup_imap. eauto. }
  induction (imap pair (args_iter mir)) as [|[idx l'] L IH]; intros s; simpl; [set_solver|].
  rewrite IH, facts_add. clear IH. split.
  - intros [Hin|(i & Hi & Ho)]; [|right; exists i; split; [by right|done]].
    apply elem_of_union in Hin as [Hin|Hin]; [right; exists idx; set_solver|by left].
  - intros [Hin|(i & [[= -> ->]|Hi]%elem_of_cons & Ho)]; [left; set_solver|left; set_solver|right; eauto].
Qed.

(** What a statement does to a state, and a call to its two copies. *)
Definition define_option (o : option Local) (d : DefLocation) (s : ReachingDefsState) : ReachingDefsState :=
  match o with Some l => define_local l d s | None => s end.
Definition add_option (o : option Local) (d : DefLocation) (s : ReachingDefsState) : ReachingDefsState :=
  match o with Some l => add_definition l d s | None => s end.

Lemma statement_effect_eq s loc :
  reaching_statement_effect mir s loc =
    (stmt ← stmt_at mir loc; Ok (define_option (assigned_local stmt) (Assignment loc) s)).
Proof.
  unfold reaching_statement_effect. destruct (stmt_at mir loc) as [stmt| |]; simpl; [|done..].
  by destruct stmt.
Qed.

Lemma terminator_effect_eq s bb t : term_at mir bb = Ok t ->
  reaching_terminator_effect mir s (terminator_loc g bb) =
    match kind t with
    | Call _ _ destination target cleanup =>
        let d := Assignment (terminator_loc g bb) in
        Ok (to_blocks (option_list target) (define_option (as_local destination) d s) ++
            to_blocks (option_list cleanup)
              (add_option (if target is Some _ then as_local destination else None) d s))
    | InlineAsm => Err (UnsupportedStatement (terminator_loc g bb))
    | _ => Ok (to_blocks (term_successors t) s)
    end.
Proof.
  intros Ht. unfold reaching_terminator_effect. cbn [block terminator_loc]. rewrite Ht. simpl.
  by destruct (kind t) as [| | |? ? destination [?|] ?| | | |].
Qed.

Lemma valid_define_option o d s : (forall l, o = Some l -> l < local_decls mir) -> d ∈ definitions ->
  reaching_valid s -> reaching_valid (define_option o d s).
Proof. destruct o; simpl; intros; [by apply valid_define; auto|done]. Qed.

Lemma valid_add_option o d s : (forall l, o = Some l -> l < local_decls mir) -> d ∈ definitions ->
  reaching_valid s -> reaching_valid (add_option o d s).
Proof. destruct o; simpl; intros; [by apply valid_add; auto|done]. Qed.

Lemma initial_valid : reaching_valid (reaching_initial mir).
Proof.
  intros [l o] (idx & Hidx & Ho)%initial_facts. apply elem_of_universe.
  apply lookup_seq in Hidx as [-> Hidx]. pose proof (wf_args mir mir_wf). split; [lia|].
  destruct Ho as [->| ->]; [done|]. by apply elem_of_definitions.
Qed.

Lemma terminator_loc_in bb : bb < num_blocks g -> Assignment (terminator_loc g bb) ∈ definitions.
Proof. intros Hbb. apply elem_of_definitions. split; [done|reflexivity]. Qed.

#[export] Instance reaching_monotone :
  Monotone (ReachingDefsAnalysis mir) g reaching_le reaching_valid reaching_height (size universe).
Proof.
  constructor; simpl.
  - split; [intros x|intros x y z]; unfold reaching_le; set_solver.
  - done.
  - intros bb. unfold block_start. case_match; [apply initial_valid|].
    unfold reaching_valid. simpl. unfold reaching_bottom. rewrite facts_empty. set_solver.
  - intros x y. unfold reaching_valid. rewrite facts_join. set_solver.
  - intros x y _ _. unfold reaching_le. rewrite facts_join. set_solver.
  - intros x y _ _. unfold reaching_le. rewrite facts_join. set_solver.
  - intros x y z _ _. unfold reaching_le. rewrite facts_join. set_solver.
  - intros x y _ _ Hle Hne. unfold reaching_height. apply subset_size. split; [done|]. intros Hge.
    by apply Hne, facts_inj, set_eq; intros p; split; auto.
  - intros x Hx. unfold reaching_height. by apply subseteq_size.
  - intros s l Hs Hb Hi. rewrite statement_effect_eq.
    destruct (stmt_at_in mir l) as [stmt Hstmt]; [by split|]. rewrite Hstmt. simpl. eexists. split; [done|].
    apply valid_define_option; [intros l'; by eapply wf_assigned| |done]. apply elem_of_definitions.
    by split; [|apply Nat.lt_le_incl].
  - intros s t l s' t' _ _ Hle. rewrite !statement_effect_eq.
    destruct (stmt_at mir l) as [stmt| |]; simpl; try done. intros [= <-] [= <-].
    destruct (assigned_local stmt); [by apply define_mono|done].
  - intros s bb Hs Hbb. destruct (term_at_in mir bb Hbb) as (t & Ht & Hsucc). simpl in Hsucc.
    rewrite (terminator_effect_eq s bb t Ht). pose proof (no_asm bb t Ht) as Hasm.
    pose proof (wf_targets mir mir_wf bb t) as Htargets. pose proof (wf_destination mir mir_wf bb t) as Hdest.
    rewrite Hsucc. destruct (kind t) as [| | |func args destination target cleanup| | | |] eqn:Hk; try done;
      try (eexists; split_and!; [done|by apply to_blocks_Forall|by rewrite to_blocks_fst]).
    eexists. split_and!; [done| |].
    + apply Forall_app. split; apply to_blocks_Forall.
      * apply valid_define_option; [by intros l; eapply Hdest|by apply terminator_loc_in|done].
      * apply valid_add_option; [|by apply terminator_loc_in|done]. intros l. case_match; [by eapply Hdest|done].
    + intros x. rewrite fmap_app, !to_blocks_fst. by rewrite (Htargets _ Ht eq_refl).
  - intros s t loc ss ts _ _ Hle. unfold reaching_terminator_effect.
    destruct (term_at mir (block loc)) as [term| |]; simpl; try done.
    destruct (kind term) as [| | |func args destination target cleanup| | | |]; try done;
      intros [= <-] [= <-]; try by apply to_blocks_le.
    apply Forall2_app; apply to_blocks_le; repeat case_match; try done; [by apply define_mono|by apply add_mono].
Qed.
(** ** The analysis is exact *)
Definition only_reaching (loc : Location) (s : ReachingDefsState) : Prop :=
  forall l d, d ∈ location_set l s -> reaches mir l d loc.

Lemma location_set_define o d s l d' :
  d' ∈ location_set l (define_option o d s) <-> (o = Some l /\ d' = d) \/ (o <> Some l /\ d' ∈ location_set l s).
Proof.
  destruct o as [l'|]; simpl; [unfold define_local; rewrite location_set_insert|naive_solver].
  case_decide; set_solver.
Qed.

Lemma location_set_add o d s l d' :
  d' ∈ location_set l (add_option o d s) <-> (o = Some l /\ d' = d) \/ d' ∈ location_set l s.
Proof.
  destruct o as [l'|]; simpl; [unfold add_definition; rewrite location_set_insert|naive_solver].
  case_decide; set_solver.
Qed.

Lemma only_reaching_start bb : only_reaching (start_of bb) (block_start A bb).
Proof.
  intros l d. unfold block_start. destruct (Nat.eqb_spec bb START_BLOCK) as [->|_].
  - rewrite <- elem_of_facts_Some. simpl. rewrite initial_facts. intros (idx & Hidx & [|[= ->]]); [done|].
    by constructor.
  - rewrite <- elem_of_facts_Some. simpl. unfold reaching_bottom. rewrite facts_empty. set_solver.
Qed.

Lemma only_reaching_call s bb t func args destination target cleanup x s' :
  only_reaching (terminator_loc g bb) s -> term_at mir bb = Ok t -> kind t = Call func args destination target cleanup ->
  let d := Assignment (terminator_loc g bb) in
  (x, s') ∈ to_blocks (option_list target) (define_option (as_local destination) d s) ++
            to_blocks (option_list cleanup)
              (add_option (if target is Some _ then as_local destination else None) d s) ->
  only_reaching (start_of x) s'.
Proof.
  intros Hs Ht Hk d Hin l d' Hd. assert (forall o c, kind t = Call func args destination o c ->
    at_call mir (terminator_loc g bb) destination o c) as Hat by (split; [done|eauto 10]).
  apply elem_of_app in Hin as [[-> Hx]%elem_of_to_blocks|[-> Hx]%elem_of_to_blocks].
  - destruct target as [y|]; [|set_solver]. apply list_elem_of_singleton in Hx as ->.
    apply location_set_define in Hd as [[Hl ->]|[Hl Hd]].
    + by eapply reaches_result; [apply Hat|].
    + by eapply reaches_returned; [apply Hs|apply Hat|].
  - destruct cleanup as [y|]; [|set_solver]. apply list_elem_of_singleton in Hx as ->.
    apply location_set_add in Hd as [[Hl ->]|Hd].
    + destruct target; [|done]. by eapply reaches_unwound_result; [apply Hat|].
    + by eapply reaches_unwound; [apply Hs|apply Hat].
Qed.

Lemma only_reaching_closed : closed A g only_reaching.
Proof.
  constructor.
  - intros bb _. apply only_reaching_start.
  - intros bb s t _ Hs Ht l d. simpl. rewrite location_set_join. intros [Hd|Hd]%elem_of_union; auto.
  - intros loc s s' _ Hs. simpl. rewrite statement_effect_eq.
    intros (stmt & Hstmt & [= <-])%bind_Ok_inv l d. rewrite location_set_define.
    intros [[Hl ->]|[Hl Hd]]; [by eapply reaches_assignment|by eapply reaches_statement; [apply Hs| |]].
  - intros bb s next x s' Hbb Hs. destruct (term_at_in mir bb Hbb) as (t & Ht & _). simpl.
    rewrite (terminator_effect_eq s bb t Ht).
    destruct (kind t) as [| | |func args destination target cleanup| | | |] eqn:Hk; try done; intros [= <-];
      try (intros [-> Hx]%elem_of_to_blocks l d Hd; eapply reaches_terminator; eauto; by rewrite Hk).
    by eapply only_reaching_call.
Qed.

(** Every definition that reaches a location is recorded there. *)
Section recorded.
Variable p : PointwiseState ReachingDefsState.
Hypothesis p_consistent : consistent A g p [].
Variable l : Local.

Definition recorded_at (d : DefLocation) (loc : Location) : Prop :=
  exists s, lookup_before p loc = Some s /\ d ∈ location_set l s.

Lemma in_join_l s t d : d ∈ location_set l s -> d ∈ location_set l (join A s t).
Proof. simpl. rewrite location_set_join. set_solver. Qed.
Lemma in_join_r s t d : d ∈ location_set l t -> d ∈ location_set l (join A s t).
Proof. simpl. rewrite location_set_join. set_solver. Qed.

Lemma recorded_statement loc stmt s d : stmt_at mir loc = Ok stmt -> lookup_before p loc = Some s ->
  d ∈ location_set l (define_option (assigned_local stmt) (Assignment loc) s) -> recorded_at d (next_location loc).
Proof.
  intros Hstmt Hs Hd. destruct (settled_statement A g p p_consistent loc s) as (s' & Ha & Hs');
    [by eapply stmt_at_range|done|].
  simpl in Ha. rewrite statement_effect_eq, Hstmt in Ha. simplify_eq/=. by exists (define_option (assigned_local stmt) (Assignment loc) s).
Qed.

Lemma recorded_edge bb t s next x s' d : term_at mir bb = Ok t -> lookup_before p (terminator_loc g bb) = Some s ->
  reaching_terminator_effect mir s (terminator_loc g bb) = Ok next -> (x, s') ∈ next -> d ∈ location_set l s' ->
  recorded_at d (start_of x).
Proof.
  intros Ht Hs Hn Hx Hd.
  destruct (settled_edge A g (wf_body_cfg mir mir_wf) (fun s d => d ∈ location_set l s) in_join_l in_join_r
    p p_consistent bb s) as (next' & Hn' & He); [by eapply term_at_range|done|].
  simpl in Hn'. rewrite Hn in Hn'. simplify_eq. by eapply He.
Qed.

Lemma recorded_call loc destination target cleanup s :
  at_call mir loc destination target cleanup -> lookup_before p loc = Some s ->
  (forall x d, target = Some x -> d ∈ location_set l (define_option (as_local destination) (Assignment loc) s) ->
    recorded_at d (start_of x)) /\
  (forall x d, cleanup = Some x ->
    d ∈ location_set l (add_option (if target is Some _ then as_local destination else None) (Assignment loc) s) ->
    recorded_at d (start_of x)).
Proof.
  intros [Hloc (t & func & args & Ht & Hk)] Hs.
  pose proof (terminator_effect_eq s (block loc) t Ht) as Heq. rewrite Hk, <- Hloc in Heq.
  rewrite Hloc in Hs. rewrite Hloc in Heq at 1.
  split; intros x d -> Hd; (eapply recorded_edge; [done|done|done| |exact Hd]);
    rewrite elem_of_app, !elem_of_to_blocks; [left|right]; (split; [done|set_solver]).
Qed.

Lemma recorded_range loc : stmt_at mir loc ≫= (fun _ => Ok tt) = Ok tt \/
  (exists t, term_at mir (block loc) = Ok t /\ loc = terminator_loc g (block loc)) ->
  exists s, lookup_before p loc = Some s.
Proof.
  intros [(stmt & Hs%stmt_at_range & _)%bind_Ok_inv|(t & Ht%term_at_range & Hloc)];
    apply (settled_in_body A g p p_consistent).
  - destruct Hs as [? ?]. split; [done|]. by apply Nat.lt_le_incl.
  - rewrite Hloc. by split.
Qed.

Lemma reaches_recorded d loc : 0 < num_blocks g -> reaches mir l d loc -> recorded_at d loc.
Proof.
  intros Hne. induction 1 as [idx Hidx|loc s Hs Hl|d loc s _ (st & Hst & Hd) Hs Hl|loc destination target cleanup Hat Hl
    |loc destination target cleanup Hat Hl|d loc destination target cleanup _ (st & Hst & Hd) Hat Hl
    |d loc destination target cleanup _ (st & Hst & Hd) Hat|d bb t x _ (st & Hst & Hd) Ht Hk Hx].
  - apply (holds_at_start A g (fun s d => d ∈ location_set l s) in_join_l in_join_r p p_consistent); [done|].
    rewrite <- elem_of_facts_Some. apply initial_facts. eauto.
  - destruct (recorded_range loc) as [st Hst]; [left; by rewrite Hs|].
    eapply recorded_statement; [done..|]. apply location_set_define. by left.
  - eapply recorded_statement; [done..|]. apply location_set_define. by right.
  - destruct (recorded_range loc) as [st Hst]; [right; destruct Hat as (? & ? & ? & ? & ? & _); eauto|].
    destruct (recorded_call _ _ _ _ st Hat Hst) as [Hrec _]. eapply Hrec; [done|]. apply location_set_define. by left.
  - destruct (recorded_range loc) as [st Hst]; [right; destruct Hat as (? & ? & ? & ? & ? & _); eauto|].
    destruct (recorded_call _ _ _ _ st Hat Hst) as [_ Hrec]. eapply Hrec; [done|]. apply location_set_add. by left.
  - destruct (recorded_call _ _ _ _ st Hat Hst) as [Hrec _]. eapply Hrec; [done|]. apply location_set_define. by right.
  - destruct (recorded_call _ _ _ _ st Hat Hst) as [_ Hrec]. eapply Hrec; [done|]. apply location_set_add. by right.
  - eapply (recorded_edge bb t st (to_blocks (term_successors t) st) x st); [done|done| | |done].
    + rewrite (terminator_effect_eq st bb t Ht). pose proof (no_asm bb t Ht).
      destruct (kind t) eqn:Hkt; try done. by destruct (Hk _ _ _ _ _ eq_refl).
    + by apply elem_of_to_blocks.
Qed.
End recorded.

(** C35: The analysis of reaching definitions terminates on every well-formed body
    without inline assembly, and is exact: before every location it records for
    each local precisely the assignments and parameters that reach the location
    along a path of the graph on which the local is not assigned again. *)
Theorem reaching_definitions_exact fuel :
  0 < num_blocks g -> num_blocks g + num_edges g * S (size universe) < fuel ->
  exists p, run_fwd_analysis A g fuel = Some (Ok p) /\
    forall loc, in_body g loc -> exists s, lookup_before p loc = Some s /\
      forall l d, d ∈ location_set l s <-> reaches mir l d loc.
Proof.
  intros Hne Hfuel. pose proof (wf_body_cfg mir mir_wf) as Hg.
  destruct (engine_returns A g reaching_le reaching_valid reaching_height (size universe) Hg fuel Hfuel)
    as (p & Hr & _). exists p. split; [done|].
  pose proof (consistent_result A g (fun _ => eq_refl) Hg fuel p Hr) as Hc.
  intros loc Hloc. destruct (settled_in_body A g p Hc loc Hloc) as [s Hs]. exists s. split; [done|].
  intros l d. split.
  - intros Hd. eapply (recorded_satisfy A g (fun _ => eq_refl) Hg only_reaching only_reaching_closed); eauto.
  - intros Hd. destruct (reaches_recorded p Hc l d loc Hne Hd) as (s' & Hs' & Hd'). congruence.
Qed.
End exact.

Module reaching_witness.
Import Mir.example.
Definition at_loc (bb i : nat) : Location := {| block := bb; statement_index := i |}.

(** The assignment in the loop reaches the call after the loop. *)
Lemma loop_assignment_reaches : reaches loop_body 2 (Assignment (at_loc 2 0)) (at_loc 3 0).
Proof.
  eapply (reaches_terminator _ _ _ 1); [|done|done|set_solver].
  eapply (reaches_terminator _ _ _ 2); [|done|done|set_solver].
  by eapply (reaches_assignment _ _ (at_loc 2 0)).
Qed.

Lemma loop_fuel : num_blocks (cfg_of loop_body) +
  num_edges (cfg_of loop_body) * S (size (universe loop_body)) < 1000.
Proof. apply Nat.ltb_lt. by vm_compute. Qed.

Lemma reaching_definitions_exact_witness :
  exists p s, run_fwd_analysis (ReachingDefsAnalysis loop_body) (cfg_of loop_body) 1000 = Some (Ok p) /\
    lookup_before p (at_loc 3 0) = Some s /\ Assignment (at_loc 2 0) ∈ location_set 2 s.
Proof.
  destruct (reaching_definitions_exact loop_body loop_body_wf loop_body_no_asm 1000) as (p & Hr & Hall).
  - simpl. lia.
  - exact loop_fuel.
  - destruct (Hall (at_loc 3 0)) as (s & Hs & Hiff); [split; simpl; lia|].
    exists p, s. split; [exact Hr|]. split; [exact Hs|]. apply Hiff, loop_assignment_reaches.
Defined.

Lemma engine_terminates_witness :
  exists p, run_fwd_analysis (ReachingDefsAnalysis loop_body) (cfg_of loop_body) 1000 = Some (Ok p) /\
    settled (ReachingDefsAnalysis loop_body) (cfg_of loop_body) p 1.
Proof.
  pose proof (reaching_monotone loop_body loop_body_wf loop_body_no_asm) as Hmono.
  destruct (engine_terminates_with_least_solution _ _ _ _ _ _ (Hmono := Hmono)
    (wf_body_cfg loop_body loop_body_wf) 1000) as (p & Hr & Hset & _).
  - exact loop_fuel.
  - exists p. split; [exact Hr|]. apply Hset. simpl. lia.
Defined.

Definition loop_result : PointwiseState ReachingDefsState :=
  match run_fwd_analysis (ReachingDefsAnalysis loop_body) (cfg_of loop_body) 40 with
  | Some (Ok p) => p
  | _ => PointwiseState_new
  end.

Lemma engine_result_witness :
  settled (ReachingDefsAnalysis loop_body) (cfg_of loop_body) loop_result 1.
Proof.
  apply (engine_result_is_a_solution (ReachingDefsAnalysis loop_body) (cfg_of loop_body)
    (fun _ => eq_refl) (wf_body_cfg loop_body loop_body_wf) 40).
  - vm_compute. reflexivity.
  - simpl. lia.
Defined.
End reaching_witness.
