(* ===== verification/FlowAllocated.v ===== *)
(** * Definitely allocated locals

    [analysis/src/domains/definitely_allocated]: the locals whose storage is
    allocated on every path to a location. *)
From S2P Require Import Prelude FlowEngine FlowFix FlowTerm Mir.

Abbreviation DefinitelyAllocatedState := (gset Local).

Section analysis.
Variable mir : Body.

Definition allocated_bottom : DefinitelyAllocatedState := list_to_set (local_indices mir).
Definition allocated_new_top : DefinitelyAllocatedState := ∅.
Definition allocated_is_top (s : DefinitelyAllocatedState) : bool := bool_decide (s = ∅).
Definition allocated_is_bottom (s : DefinitelyAllocatedState) : bool := size s =? local_decls mir.

(** Locals without a statement that allocates or frees them are allocated from
    the start. *)
Definition allocated_initial : DefinitelyAllocatedState :=
  foldl (fun locals block =>
    foldl (fun locals statement =>
      match statement with
      | StorageLive l | StorageDead l => locals ∖ {[l]}
      | _ => locals
      end) locals (statements block))
    (list_to_set (vars_and_temps_iter mir)) (basic_blocks mir).

Definition set_local_allocated (l : Local) (s : DefinitelyAllocatedState) : DefinitelyAllocatedState := {[l]} ∪ s.
Definition set_place_unallocated (l : Local) (s : DefinitelyAllocatedState) : DefinitelyAllocatedState := s ∖ {[l]}.

Definition allocated_statement_effect (s : DefinitelyAllocatedState) (location : Location) :
    AnalysisResult DefinitelyAllocatedState :=
  statement ← stmt_at mir location;
  Ok (match statement with
      | StorageLive l => set_local_allocated l s
      | StorageDead l => set_place_unallocated l s
      | _ => s
      end).

Definition allocated_terminator_effect (s : DefinitelyAllocatedState) (location : Location) :
    AnalysisResult (list (BasicBlock * DefinitelyAllocatedState)) :=
  term ← term_at mir (block location);
  Ok (to_blocks (term_successors term) s).

Definition allocated_join (s other : DefinitelyAllocatedState) : DefinitelyAllocatedState :=
  filter (fun l => l ∈ other) s.

Definition DefinitelyAllocatedAnalysis : FixpointEngine DefinitelyAllocatedState := {|
  new_bottom := allocated_bottom;
  new_initial := allocated_initial;
  need_to_widen _ := false;
  apply_statement_effect := allocated_statement_effect;
  apply_terminator_effect := allocated_terminator_effect;
  join := allocated_join;
  widen _ _ := Panic "not implemented";
|}.

(** ** Locals that may be unallocated at a location *)
Definition has_storage (l : Local) : Prop :=
  exists loc s, stmt_at mir loc = Ok s /\ storage_local s = Some l.

Inductive unallocated (l : Local) : Location -> Prop :=
| unallocated_start : l ∉ vars_and_temps_iter mir \/ has_storage l -> unallocated l (start_of START_BLOCK)
| unallocated_dead loc : stmt_at mir loc = Ok (StorageDead l) -> unallocated l (next_location loc)
| unallocated_statement loc s : unallocated l loc -> stmt_at mir loc = Ok s -> s <> StorageLive l ->
    unallocated l (next_location loc)
| unallocated_terminator bb t x : unallocated l (terminator_loc (cfg_of mir) bb) ->
    term_at mir bb = Ok t -> x ∈ term_successors t -> unallocated l (start_of x).
End analysis.

Section exact.
Variable mir : Body.
Hypothesis mir_wf : wf_body mir.
Abbreviation A := (DefinitelyAllocatedAnalysis mir).
Abbreviation g := (cfg_of mir).

Lemma elem_of_local_indices l : l ∈ allocated_bottom mir <-> l < local_decls mir.
Proof. unfold allocated_bottom, local_indices. rewrite elem_of_list_to_set, elem_of_seq. lia. Qed.

Definition allocated_valid (s : DefinitelyAllocatedState) : Prop := s ⊆ allocated_bottom mir.
Definition allocated_le (s t : DefinitelyAllocatedState) : Prop := t ⊆ s.
Definition allocated_height (s : DefinitelyAllocatedState) : nat := local_decls mir - size s.

Lemma remove_storage_statements l stmts s :
  l ∈ foldl (fun locals statement => match statement with
      | StorageLive l | StorageDead l => locals ∖ {[l]} | _ => locals end) s stmts <->
    l ∈ (s : gset Local) /\ Forall (fun stmt => storage_local stmt <> Some l) stmts.
Proof.
  revert s. induction stmts as [|stmt stmts IH]; intros s; simpl; [naive_solver|].
  rewrite IH, Forall_cons. destruct stmt; simpl; set_unfold; naive_solver.
Qed.

Lemma elem_of_initial l :
  l ∈ allocated_initial mir <-> l ∈ vars_and_temps_iter mir /\ ~ has_storage mir l.
Proof.
  transitivity (l ∈ vars_and_temps_iter mir /\
    Forall (fun data => Forall (fun stmt => storage_local stmt <> Some l) (statements data)) (basic_blocks mir)).
  - unfold allocated_initial.
    rewrite <- (elem_of_list_to_set (C := gset Local) l (vars_and_temps_iter mir)).
    generalize (list_to_set (vars_and_temps_iter mir) : gset Local).
    induction (basic_blocks mir) as [|data bbs IH]; intros s; simpl; [naive_solver|].
    rewrite IH, remove_storage_statements, Forall_cons. naive_solver.
  - assert (Forall (fun data => Forall (fun stmt => storage_local stmt <> Some l) (statements data)) (basic_blocks mir)
      <-> ~ has_storage mir l) as ->; [|done].
    rewrite Forall_lookup. setoid_rewrite Forall_lookup. unfold has_storage, stmt_at. split.
    + intros Hall (loc & s & Hs & Hl). destruct (basic_blocks mir !! block loc) as [data|] eqn:Hd; [|done].
      apply unwrap_Ok_inv in Hs. by eapply Hall.
    + intros Hn bb data Hd i s Hs Hl. apply Hn. exists {| block := bb; statement_index := i |}, s.
      simpl. by rewrite Hd, Hs.
Qed.

Lemma size_bottom : size (allocated_bottom mir) = local_decls mir.
Proof.
  unfold allocated_bottom. rewrite size_list_to_set by apply NoDup_seq. apply length_seq.
Qed.

Lemma allocated_initial_valid : allocated_valid (allocated_initial mir).
Proof.
  intros l [Hl _]%elem_of_initial. apply elem_of_local_indices.
  unfold vars_and_temps_iter in Hl. apply elem_of_seq in Hl. pose proof (wf_args mir mir_wf). lia.
Qed.

Lemma elem_of_allocated_join l s t : l ∈ allocated_join s t <-> l ∈ s /\ l ∈ t.
Proof. unfold allocated_join. set_solver. Qed.

#[export] Instance allocated_monotone :
  Monotone A g allocated_le allocated_valid allocated_height (local_decls mir).
Proof.
  unfold allocated_le, allocated_valid. constructor; simpl.
  - split; [intros x|intros x y z]; set_solver.
  - done.
  - intros bb. unfold block_start. case_match; [apply allocated_initial_valid|done].
  - intros x y Hx _ l [Hl _]%elem_of_allocated_join. by apply Hx.
  - intros x y _ _ l. rewrite elem_of_allocated_join. naive_solver.
  - intros x y _ _ l. rewrite elem_of_allocated_join. naive_solver.
  - intros x y z _ _ Hx Hy l Hl. apply elem_of_allocated_join. auto.
  - intros x y Hx Hy Hle Hne. assert (size y < size x) by (apply subset_size; set_solver).
    pose proof (subseteq_size _ _ Hx) as Hsx. rewrite size_bottom in Hsx. unfold allocated_height. lia.
  - intros x _. unfold allocated_height. lia.
  - intros s l Hs Hb Hi. unfold allocated_statement_effect.
    destruct (stmt_at_in mir l) as [stmt Hstmt]; [by split|]. rewrite Hstmt. simpl. eexists. split; [done|].
    pose proof (wf_storage mir mir_wf l stmt) as Hw.
    destruct stmt; try done; [|unfold set_place_unallocated; set_solver].
    specialize (Hw _ Hstmt eq_refl). apply elem_of_local_indices in Hw. unfold set_local_allocated. set_solver.
  - intros s t l s' t' _ _ Hle. unfold allocated_statement_effect.
    destruct (stmt_at mir l) as [stmt| |]; simpl; try done. intros [= <-] [= <-].
    destruct stmt; unfold set_local_allocated, set_place_unallocated; set_solver.
  - intros s bb Hs Hbb. destruct (term_at_in mir bb Hbb) as (t & Ht & Hsucc). simpl in Hsucc.
    unfold allocated_terminator_effect. simpl. rewrite Ht, Hsucc. simpl.
    eexists. split_and!; [done|by apply (to_blocks_Forall (fun s => s ⊆ allocated_bottom mir))|by rewrite to_blocks_fst].
  - intros s t loc ss ts _ _ Hle. unfold allocated_terminator_effect.
    destruct (term_at mir (block loc)); simpl; try done. intros [= <-] [= <-].
    by apply (to_blocks_le (fun s t => t ⊆ s)).
Qed.

Lemma allocated_is_bottom_spec s : allocated_valid s -> allocated_is_bottom mir s = true <-> s = allocated_bottom mir.
Proof.
  intros Hs. unfold allocated_is_bottom. rewrite Nat.eqb_eq. split; [|intros ->; apply size_bottom].
  intros Hsize. apply set_eq. intros l. split; [apply Hs|]. intros Hl. destruct (decide (l ∈ s)) as [?|Hn]; [done|].
  assert (size s < size (allocated_bottom mir)) by (apply subset_size; set_solver).
  rewrite size_bottom in *. lia.
Qed.

(** ** The analysis is exact *)
Lemma has_storage_or_not l : has_storage mir l \/ ~ has_storage mir l.
Proof.
  destruct (decide (Exists (fun data => Exists (fun stmt => storage_local stmt = Some l) (statements data))
    (basic_blocks mir))) as [(data & Hd & (s & Hs & Hst)%Exists_exists)%Exists_exists|Hno]; [left|right].
  - apply list_elem_of_lookup in Hd as [bb Hd], Hs as [i Hs].
    exists {| block := bb; statement_index := i |}, s. unfold stmt_at. simpl. by rewrite Hd, Hs.
  - intros (loc & s & Hs & Hst). apply Hno. unfold stmt_at in Hs.
    destruct (basic_blocks mir !! block loc) as [data|] eqn:Hd; [|done]. apply unwrap_Ok_inv in Hs.
    apply Exists_exists. exists data. split; [by eapply list_elem_of_lookup_2|]. apply Exists_exists.
    exists s. split; [by eapply list_elem_of_lookup_2|done].
Qed.

Definition only_unallocated (loc : Location) (s : DefinitelyAllocatedState) : Prop :=
  s ⊆ allocated_bottom mir /\ forall l, l < local_decls mir -> l ∉ s -> unallocated mir l loc.

Lemma only_unallocated_closed : closed A g only_unallocated.
Proof.
  constructor; simpl.
  - intros bb _. unfold block_start. destruct (Nat.eqb_spec bb START_BLOCK) as [->|_]; simpl.
    + split; [apply allocated_initial_valid|]. intros l Hl Hn. constructor.
      destruct (decide (l ∈ vars_and_temps_iter mir)) as [Hv|]; [right|by left].
      rewrite elem_of_initial in Hn. destruct (has_storage_or_not l); [done|naive_solver].
    + split; [done|]. intros l Hl%elem_of_local_indices Hn. done.
  - intros bb s t _ [Hsv Hs] [_ Ht]. split; [intros l [Hl _]%elem_of_allocated_join; by apply Hsv|].
    intros l Hl. rewrite elem_of_allocated_join. intros Hn. destruct (decide (l ∈ s)); [|by apply Hs].
    apply Ht; [done|]. naive_solver.
  - intros loc s s' Hat [Hsv Hs] (stmt & Hstmt & [= <-])%bind_Ok_inv. split.
    + pose proof (wf_storage mir mir_wf loc stmt) as Hw. unfold set_local_allocated, set_place_unallocated.
      destruct stmt as [|l|l|]; [done| |set_solver|done].
      specialize (Hw l Hstmt eq_refl). apply elem_of_local_indices in Hw. set_solver.
    + intros l Hl Hn. destruct (decide (stmt = StorageDead l)) as [->|Hd]; [by constructor|].
      eapply unallocated_statement; [|done|].
      * apply Hs; [done|]. destruct stmt; unfold set_local_allocated, set_place_unallocated in Hn; set_solver.
      * intros ->. unfold set_local_allocated in Hn. set_solver.
  - intros bb s next x s' Hbb [Hsv Hs]. unfold allocated_terminator_effect. simpl.
    intros (t & Ht & [= <-])%bind_Ok_inv [-> Hx]%elem_of_to_blocks. split; [done|].
    intros l Hl Hn. eapply unallocated_terminator; eauto.
Qed.

Lemma unallocated_recorded p l loc : consistent A g p [] -> 0 < num_blocks g -> unallocated mir l loc ->
  exists s, lookup_before p loc = Some s /\ l ∉ s.
Proof.
  intros Hp Hne. assert (forall s t (l : Local), l ∉ s -> l ∉ join A s t) as Hl.
  { intros s t l'. simpl. rewrite elem_of_allocated_join. naive_solver. }
  assert (forall s t (l : Local), l ∉ t -> l ∉ join A s t) as Hr.
  { intros s t l'. simpl. rewrite elem_of_allocated_join. naive_solver. }
  pose proof (settled_statement A g p Hp) as Hstmt. simpl in Hstmt. unfold allocated_statement_effect in Hstmt.
  induction 1 as [Hor|loc Hs|loc stmt _ (s & Hs & Hn) Hat Hnl|bb t x _ (s & Hs & Hn) Ht Hx].
  - apply (holds_at_start A g (fun s l => l ∉ s) Hl Hr p Hp); [done|]. change (l ∉ allocated_initial mir).
    rewrite elem_of_initial. naive_solver.
  - pose proof (stmt_at_range _ _ _ Hs) as Hat.
    destruct (settled_in_body A g p Hp loc) as [s Hls]; [destruct Hat; by split; [|apply Nat.lt_le_incl]|].
    destruct (Hstmt loc s Hat Hls) as (s' & Ha & Hs'). rewrite Hs in Ha. simplify_eq/=.
    eexists. split; [done|]. unfold set_place_unallocated. set_solver.
  - destruct (Hstmt loc s (stmt_at_range _ _ _ Hat) Hs) as (s' & Ha & Hs'). rewrite Hat in Ha. simplify_eq/=.
    eexists. split; [done|]. unfold set_local_allocated, set_place_unallocated. destruct stmt; set_solver.
  - destruct (settled_edge A g (wf_body_cfg mir mir_wf) (fun s l => l ∉ s) Hl Hr p Hp bb s) as (next & Hnext & He);
      [by eapply term_at_range|done|].
    simpl in Hnext. unfold allocated_terminator_effect in Hnext. simpl in Hnext. rewrite Ht in Hnext. simplify_eq/=.
    eapply He; [by apply elem_of_to_blocks|done].
Qed.

End exact.

Module allocated_witness.
Import Mir.example.

Lemma temporary_stays_allocated loc : unallocated loop_body 3 loc -> False.
Proof.
  induction 1 as [[Hn|(loc & s & Hs & Hst)]|loc Hs|loc s _ []|bb t x _ []].
  - apply Hn. apply elem_of_seq. simpl. lia.
  - apply stmt_at_elem in Hs. simpl in Hs. set_unfold. decompose [or] Hs; by subst.
  - apply stmt_at_elem in Hs. simpl in Hs. set_unfold. by decompose [or] Hs.
Qed.

End allocated_witness.
