(* ===== verification/FlowPlaces.v ===== *)
(** * Places and sets of places

    [analysis/src/mir_utils.rs]: prefixes, the expansion of a place along a
    guide, collapsing and the removal of a place from a set. The types of places
    come from the compiler. Sets of places are finite sets; loops over them
    visit the places in the order of [elements]. *)
From S2P Require Import Prelude FlowEngine Mir.

(** ** Types of places *)
Inductive TyKind :=
| Adt (is_enum : bool) (variants : list (list Ty))
| Tuple (tys : list Ty)
| Closure (upvar_tys : list Ty)
| Generator (upvar_tys : list Ty)
| TyOther.

Record PlaceTy := { ty_kind : TyKind; variant_index : option nat }.

Definition child (p : Place) (e : ProjectionElem) : Place :=
  {| local := local p; projection := projection p ++ [e] |}.
Definition mk_place_field (p : Place) (field : nat) (ty : Ty) : Place := child p (Field field ty).

(** Whether [potential_prefix] is a prefix of [place]. *)
Definition is_prefix (place potential_prefix : Place) : bool :=
  if negb (local place =? local potential_prefix) ||
     (length (projection place) <? length (projection potential_prefix))
  then false
  else forallb (fun '(e1, e2) => bool_decide (e1 = e2)) (zip (projection place) (projection potential_prefix)).

Section places.
Variable place_ty : Place -> PlaceTy.

(** The types of the fields of a place, in the matches of [expand_struct_place]. *)
Definition field_tys (place : Place) : AnalysisResult (list Ty) :=
  let typ := place_ty place in
  _ ← match ty_kind typ with
      | Adt _ _ => Ok tt
      | _ => assert_that "We have assumed that only enums can have variant_index set."
               (bool_decide (variant_index typ = None))
      end;
  match ty_kind typ with
  | Adt is_enum variants =>
      match variant_index typ with
      | Some i => unwrap "index out of bounds" (variants !! i)
      | None =>
          _ ← assert_that "assertion failed: self.is_struct() || self.is_union()" (negb is_enum);
          unwrap "index out of bounds" (variants !! 0)
      end
  | Tuple tys | Closure tys | Generator tys => Ok tys
  | TyOther => Panic "internal error: entered unreachable code"
  end.

Definition expand_struct_place (place : Place) (without_field : option nat) : AnalysisResult (list Place) :=
  tys ← field_tys place;
  Ok ((fun '(index, ty) => mk_place_field place index ty) <$>
        filter (fun p => Some p.1 <> without_field) (imap pair tys)).

Definition expand_one_level (current_place guide_place : Place) : AnalysisResult (Place * list Place) :=
  let index := length (projection current_place) in
  elem ← unwrap "index out of bounds" (projection guide_place !! index);
  let new_current_place := child current_place elem in
  other_places ← match elem with
                 | Field projected_field _ => expand_struct_place current_place (Some projected_field)
                 | _ => Ok []
                 end;
  Ok (new_current_place, other_places).

(** The loop of [expand]; a round makes the minuend one element longer, so that
    the difference of the lengths is the number of rounds. *)
Fixpoint expand_loop (rounds : nat) (minuend subtrahend : Place) (place_set : list Place) :
    AnalysisResult (list Place) :=
  match rounds with
  | 0 => Ok place_set
  | S rounds =>
      '(new_minuend, places) ← expand_one_level minuend subtrahend;
      expand_loop rounds new_minuend subtrahend (place_set ++ places)
  end.

Definition expand (minuend subtrahend : Place) : AnalysisResult (list Place) :=
  _ ← assert_that "The minuend must be the prefix of the subtrahend." (is_prefix subtrahend minuend);
  expand_loop (length (projection subtrahend) - length (projection minuend)) minuend subtrahend [].

(** The recursion of [collapse]: the current place approaches the guide, and
    indexing the guide fails beyond its end. *)
Fixpoint collapse_recurse (depth : nat) (places : gset Place) (current_place guide_place : Place) :
    AnalysisResult (gset Place) :=
  if decide (current_place = guide_place) then Ok places
  else
    match depth with
    | 0 => Panic "index out of bounds"
    | S depth =>
        '(new_current_place, expansion) ← expand_one_level current_place guide_place;
        places ← collapse_recurse depth places new_current_place guide_place;
        let expansion := expansion ++ [new_current_place] in
        if forallb (fun place => bool_decide (place ∈ places)) expansion
        then Ok ({[current_place]} ∪ (places ∖ list_to_set expansion))
        else Ok places
    end.

Definition collapse (places : gset Place) (guide_place : Place) : AnalysisResult (gset Place) :=
  collapse_recurse (length (projection guide_place)) places (place_of_local (local guide_place)) guide_place.

(** One round of the loop that removes a place from a set. *)
Definition remove_from (to_remove : Place) (set : AnalysisResult (gset Place)) (old_place : Place) :
    AnalysisResult (gset Place) :=
  set ← set;
  if is_prefix to_remove old_place then
    places ← expand old_place to_remove;
    Ok (set ∪ list_to_set places)
  else if is_prefix old_place to_remove then Ok set
  else Ok ({[old_place]} ∪ set).

Definition remove_place_from_set (to_remove : Place) (set : gset Place) : AnalysisResult (gset Place) :=
  foldl (remove_from to_remove) (Ok ∅) (elements set).

(** The place blocked by a loan of [borrowed]. *)
Fixpoint blocked_projection (before after : list ProjectionElem) : list ProjectionElem :=
  match after with
  | [] => before
  | e :: after =>
      match e with
      | Deref | Index _ | ConstantIndex _ _ _ | Subslice _ _ _ => before
      | Field _ _ | Downcast _ | OpaqueCast _ => blocked_projection (before ++ [e]) after
      end
  end.
Definition get_blocked_place (borrowed : Place) : Place :=
  {| local := local borrowed; projection := blocked_projection [] (projection borrowed) |}.

(** ** Well-typed places

    The field projections of a place are fields of the type of what is before
    them. *)
Definition well_typed (p : Place) : Prop :=
  forall es i ty rest, projection p = es ++ Field i ty :: rest ->
    exists tys, field_tys {| local := local p; projection := es |} = Ok tys /\ tys !! i = Some ty.
End places.

(** ** Prefixes *)
Definition extends (q p : Place) : Prop := exists rest, local q = local p /\ projection q = projection p ++ rest.

Lemma is_prefix_extends q p : is_prefix q p = true <-> extends q p.
Proof.
  unfold is_prefix, extends. destruct q as [lq eq], p as [lp ep]; simpl.
  destruct (Nat.eqb_spec lq lp) as [->|Hne]; simpl; [|split; [done|by intros (? & ? & _)]].
  destruct (Nat.ltb_spec (length eq) (length ep)) as [Hlt|Hge].
  - split; [done|]. intros (rest & _ & ->). rewrite length_app in Hlt. lia.
  - trans (exists rest, eq = ep ++ rest); [|naive_solver].
    revert eq Hge. induction ep as [|e ep IH]; intros [|e' eq] Hge; simpl in *; try lia.
    + split; eauto.
    + split; eauto.
    + rewrite andb_true_iff, bool_decide_eq_true, IH by lia. split.
      * intros [-> [rest ->]]. eauto.
      * intros [rest [= -> ->]]. eauto.
Qed.

#[export] Instance extends_dec q p : Decision (extends q p).
Proof. destruct (is_prefix q p) eqn:Hp; [left|right]; rewrite <- is_prefix_extends; congruence. Defined.

#[export] Instance extends_preorder : PreOrder extends.
Proof.
  split.
  - intros p. exists []. by rewrite app_nil_r.
  - intros p q r (es & Hl & Hp) (es' & Hl' & Hq). exists (es' ++ es). rewrite Hp, Hq, app_assoc. split; congruence.
Qed.

Lemma extends_antisym p q : extends p q -> extends q p -> p = q.
Proof.
  intros (es & Hl & Hp) (es' & _ & Hq). destruct p as [l e], q as [l' e']; simpl in *. subst.
  rewrite <- app_assoc in Hq. apply (f_equal length) in Hq as Hlen. rewrite !length_app in Hlen.
  destruct es; simpl in *; [|lia]. by rewrite app_nil_r.
Qed.

Lemma extends_child p e : extends (child p e) p.
Proof. by exists [e]. Qed.
#[export] Hint Resolve extends_child : prusti.

(** What extends a place is the place or extends one of its children. *)
Lemma extends_inv q p : extends q p -> q = p \/ exists e, extends q (child p e).
Proof.
  intros ([|e rest] & Hl & Hq); [left|right].
  - destruct q, p; simpl in *. subst. by rewrite app_nil_r.
  - exists e, rest. simpl. by rewrite <- app_assoc.
Qed.

(** Two prefixes of a place are comparable. *)
Lemma extends_common q p p' : extends q p -> extends q p' -> extends p p' \/ extends p' p.
Proof.
  intros (es & Hl & Hq) (es' & Hl' & Hq'). rewrite Hq in Hq'. apply app_eq_inv in Hq' as [(k & Hk & _)|(k & Hk & _)].
  - left. exists k. split; [congruence|done].
  - right. exists k. split; [congruence|done].
Qed.

Lemma child_extends_eq p e e' q : extends q (child p e) -> extends q (child p e') -> e = e'.
Proof.
  intros (es & _ & Hq) (es' & _ & Hq'). simpl in *. rewrite Hq in Hq'.
  rewrite <- !app_assoc in Hq'. by simplify_list_eq.
Qed.

(** Places overlap if one is a prefix of the other. *)
Definition overlap (p q : Place) : Prop := extends p q \/ extends q p.
Lemma overlap_sym p q : overlap p q -> overlap q p.
Proof. unfold overlap. tauto. Qed.

Lemma overlap_local p q : overlap p q -> local p = local q.
Proof. by intros [(rest & Hl & _)|(rest & Hl & _)]. Qed.

(** Places that differ in a field of a common prefix. *)
Definition differ_in_field (p q : Place) : Prop :=
  exists r i ty j ty', i <> j /\ extends p (child r (Field i ty)) /\ extends q (child r (Field j ty')).

Lemma children_apart r e e' p q : e <> e' -> extends p (child r e) -> extends q (child r e') -> ~ overlap p q.
Proof.
  intros Hne Hp Hq [Ho|Ho]; apply Hne.
  - eapply child_extends_eq; [exact Hp|]. by etrans.
  - eapply child_extends_eq; [|exact Hq]. by etrans.
Qed.

Lemma differ_in_field_apart p q : differ_in_field p q -> ~ overlap p q.
Proof. intros (r & i & ty & j & ty' & Hne & Hp & Hq). eapply children_apart; [|done..]. congruence. Qed.

(** Places of different locals, or that differ in a field. *)
Definition apart (p q : Place) : Prop := local p <> local q \/ differ_in_field p q.
Lemma apart_no_overlap p q : apart p q -> ~ overlap p q.
Proof. intros [Hl|Hd]; [by intros ?%overlap_local|by apply differ_in_field_apart]. Qed.
