(* ===== verification/FlowPlaceSets.v ===== *)
(** * What the operations on sets of places do

    Sets of places describe memory: a place is covered by a set that contains one
    of its prefixes. Expansion and removal never panic for well-typed places,
    remove exactly what overlaps, and keep what differs in a field. *)
From S2P Require Import Prelude FlowEngine Mir FlowPlaces.

Definition covers (S : gset Place) (q : Place) : Prop := exists p, p ∈ S /\ extends q p.
Definition antichain (S : gset Place) : Prop := forall p q, p ∈ S -> q ∈ S -> extends p q -> p = q.

Lemma covers_down S p q : covers S p -> extends q p -> covers S q.
Proof. intros (r & Hr & Hp) Hq. exists r. split; [done|]. by etrans. Qed.

Lemma antichain_comparable S p q x : antichain S -> p ∈ S -> q ∈ S -> extends x p -> extends x q -> p = q.
Proof.
  intros Ha Hp Hq Hxp Hxq. destruct (extends_common x p q Hxp Hxq); [by apply Ha|symmetry; by apply Ha].
Qed.

Section sets.
Variable place_ty : Place -> PlaceTy.
Abbreviation field_tys := (FlowPlaces.field_tys place_ty) (only parsing).
Abbreviation well_typed := (FlowPlaces.well_typed place_ty) (only parsing).

(** The other fields at a node of a path. *)
Definition sibling (r : Place) (e : ProjectionElem) (o : Place) : Prop :=
  exists j ty' tys i ty, e = Field j ty' /\ field_tys r = Ok tys /\ tys !! i = Some ty /\ i <> j /\
    o = child r (Field i ty).

(** The places beside the path from [p] to [q]. *)
Definition off_path (p q o : Place) : Prop :=
  exists r e, extends r p /\ extends q (child r e) /\ sibling r e o.

Lemma well_typed_field p r i ty : well_typed p -> extends p (child r (Field i ty)) ->
  exists tys, field_tys r = Ok tys /\ tys !! i = Some ty.
Proof.
  intros Hw (rest & Hl & Hp). simpl in *. rewrite <- app_assoc in Hp. simpl in Hp.
  destruct (Hw _ _ _ _ Hp) as (tys & Ht & Hi). exists tys. split; [|done]. rewrite <- Ht. f_equal.
  destruct r; simpl in *. by rewrite Hl.
Qed.

Lemma well_typed_prefix p q : well_typed p -> extends p q -> well_typed q.
Proof.
  intros Hw (rest & Hl & Hp) es i ty rest' Hq. rewrite <- Hl. apply (Hw es i ty (rest' ++ rest)).
  by rewrite Hp, Hq, <- app_assoc.
Qed.

Lemma expand_struct_place_spec r j : (exists tys, field_tys r = Ok tys) ->
  exists others, expand_struct_place place_ty r (Some j) = Ok others /\
    forall o ty', o ∈ others <-> sibling r (Field j ty') o.
Proof.
  intros [tys Ht]. unfold expand_struct_place. rewrite Ht. simpl. eexists. split; [done|].
  intros o ty'. rewrite list_elem_of_fmap. unfold sibling. split.
  - intros ([i ty] & -> & [Hne (i' & ty2 & [= <- <-] & Hi)%elem_of_lookup_imap]%list_elem_of_filter).
    simpl in Hne. exists j, ty', tys, i, ty. by split_and!; try congruence.
  - intros (j' & ty2 & tys' & i & ty & [= <- <-] & Ht' & Hi & Hne & ->). rewrite Ht in Ht'. injection Ht' as <-.
    exists (i, ty). split; [done|]. apply list_elem_of_filter. split; [simpl; congruence|].
    apply elem_of_lookup_imap. eauto.
Qed.

Lemma expand_one_level_spec r q : well_typed q -> extends q r -> q <> r ->
  exists e others, expand_one_level place_ty r q = Ok (child r e, others) /\ extends q (child r e) /\
    forall o, o ∈ others <-> sibling r e o.
Proof.
  intros Hw He Hne. destruct (extends_inv q r He) as [?|[e Hc]]; [done|].
  assert (projection q !! length (projection r) = Some e) as Hlook.
  { destruct Hc as (rest & _ & ->). simpl. rewrite <- app_assoc. by apply list_lookup_middle. }
  unfold expand_one_level. rewrite Hlook. simpl. exists e.
  destruct e as [|j ty| | | | |]; simpl;
    try (exists []; split_and!; [done..|]; intros o; split; [set_solver|by intros (? & ? & ? & ? & ? & ? & _)]).
  destruct (well_typed_field q r j ty Hw Hc) as (tys & Ht & _).
  destruct (expand_struct_place_spec r j) as (others & -> & Ho); [eauto|]. simpl. exists others.
  split_and!; [done..|]. intros o. apply Ho.
Qed.

Lemma child_length r e : length (projection (child r e)) = S (length (projection r)).
Proof. simpl. rewrite length_app. simpl. lia. Qed.

Lemma extends_length q p : extends q p -> length (projection p) <= length (projection q).
Proof. intros (rest & _ & ->). rewrite length_app. lia. Qed.

Lemma extends_same_length q p : extends q p -> length (projection q) <= length (projection p) -> q = p.
Proof.
  intros (rest & Hl & Hq) Hlen. rewrite Hq, length_app in Hlen. destruct rest; simpl in *; [|lia].
  destruct q, p; simpl in *. by rewrite Hq, Hl, app_nil_r.
Qed.

Lemma off_path_step p q e o : extends q (child p e) ->
  off_path p q o <-> sibling p e o \/ off_path (child p e) q o.
Proof.
  intros Hq. split.
  - intros (r & e' & Hr & Hqr & Hs). destruct (extends_inv r p Hr) as [->|[f Hf]].
    + left. by rewrite (child_extends_eq p e e' q).
    + right. exists r, e'. split_and!; [|done..]. rewrite (child_extends_eq p e f q); [done..|].
      etrans; [exact Hqr|]. etrans; [apply extends_child|done].
  - intros [Hs|(r & e' & Hr & Hqr & Hs)]; [exists p, e|exists r, e']; split_and!; try done.
    etrans; [done|apply extends_child].
Qed.

Lemma off_path_nil p o : ~ off_path p p o.
Proof.
  intros (r & e & Hr & Hp & _). apply extends_length in Hr, Hp. rewrite child_length in Hp. lia.
Qed.

Lemma expand_loop_spec n p q acc : well_typed q -> extends q p ->
  length (projection q) - length (projection p) = n ->
  exists L, expand_loop place_ty n p q acc = Ok (acc ++ L) /\ forall o, o ∈ L <-> off_path p q o.
Proof.
  intros Hw. revert p acc. induction n as [|n IH]; intros p acc Hq Hn; simpl.
  - exists []. rewrite app_nil_r. split; [done|]. intros o.
    rewrite (extends_same_length q p) by (done || lia). split; [set_solver|by intros ?%off_path_nil].
  - destruct (expand_one_level_spec p q) as (e & others & -> & Hc & Ho); [done..|intros ->; lia|]. simpl.
    destruct (IH (child p e) (acc ++ others)) as (L & -> & HL); [done|rewrite child_length; lia|].
    exists (others ++ L). split; [by rewrite app_assoc|]. intros o.
    by rewrite elem_of_app, (off_path_step p q e), Ho, HL.
Qed.

Lemma expand_spec p q : well_typed q -> extends q p ->
  exists L, expand place_ty p q = Ok L /\ forall o, o ∈ L <-> off_path p q o.
Proof.
  intros Hw Hq. unfold expand. rewrite (proj2 (is_prefix_extends q p)) by done. simpl.
  by apply (expand_loop_spec _ p q []).
Qed.

(** ** Places beside a path *)
Lemma sibling_extends r e o : sibling r e o -> extends o r.
Proof. intros (j & ty' & tys & i & ty & _ & _ & _ & _ & ->). apply extends_child. Qed.

Lemma off_path_extends p q o : off_path p q o -> extends o p.
Proof. intros (r & e & Hr & _ & Hs%sibling_extends). by etrans. Qed.

Lemma off_path_prefix p q o x : off_path p q o -> extends o x -> x = o \/ extends q x.
Proof.
  intros (r & e & Hr & Hq & (j & ty' & tys & i & ty & -> & _ & _ & _ & ->)) Hx.
  destruct (extends_common _ r x (extends_child r (Field i ty)) Hx) as [Hrx|Hxr].
  - right. etrans; [exact Hq|]. etrans; [apply extends_child|done].
  - destruct (extends_inv x r Hxr) as [->|[f Hf]].
    + right. etrans; [exact Hq|apply extends_child].
    + left. apply extends_antisym; [|done]. by rewrite (child_extends_eq r (Field i ty) f (child r (Field i ty)));
        [|reflexivity|etrans].
Qed.

Lemma off_path_apart p q o : off_path p q o -> ~ overlap o q.
Proof.
  intros (r & e & Hr & Hq & (j & ty' & tys & i & ty & -> & _ & _ & Hne & ->)).
  eapply (children_apart r (Field i ty) (Field j ty')); [congruence|reflexivity|done].
Qed.

Lemma off_path_well_typed p q o : well_typed q -> off_path p q o -> well_typed o.
Proof.
  intros Hw (r & e & Hr & Hq & (j & ty' & tys & i & ty & -> & Ht & Hi & _ & ->)) es k t rest Hproj.
  simpl in *. destruct rest as [|e rest].
  - apply app_inj_tail in Hproj as [<- [= -> ->]]. exists tys. by destruct r.
  - assert (well_typed r) as Hwr by (eapply well_typed_prefix; [done|]; etrans; [exact Hq|apply extends_child]).
    destruct (exists_last (l := e :: rest)) as (rest' & e' & Hrest); [done|]. rewrite Hrest in Hproj.
    rewrite app_comm_cons, app_assoc in Hproj. apply app_inj_tail in Hproj as [Hproj _].
    by apply (Hwr es k t rest').
Qed.
(** ** Removal *)
Definition remains (x : Place) (S : gset Place) (o : Place) : Prop :=
  (o ∈ S /\ ~ overlap o x) \/ exists p, p ∈ S /\ extends x p /\ off_path p x o.

Lemma remove_from_spec x l acc : well_typed x ->
  exists S', foldl (remove_from place_ty x) (Ok acc) l = Ok S' /\
    forall o, o ∈ S' <-> o ∈ acc \/ (o ∈ l /\ ~ overlap o x) \/ exists p, p ∈ l /\ extends x p /\ off_path p x o.
Proof.
  intros Hw. revert acc. induction l as [|p l IH]; intros acc; simpl.
  { exists acc. split; [done|]. set_solver. }
  destruct (decide (extends x p)) as [Hxp|Hxp].
  - destruct (expand_spec p x Hw Hxp) as (L & HL & Ho).
    rewrite (proj2 (is_prefix_extends x p)) by done. rewrite HL. simpl.
    destruct (IH (acc ∪ list_to_set L)) as (S' & -> & HS). exists S'. split; [done|]. intros o.
    rewrite HS, elem_of_union, elem_of_list_to_set, Ho. setoid_rewrite elem_of_cons.
    unfold overlap. naive_solver.
  - destruct (is_prefix x p) eqn:Hp; [by apply is_prefix_extends in Hp|].
    destruct (is_prefix p x) eqn:Hp'; [apply is_prefix_extends in Hp'|].
    + destruct (IH acc) as (S' & -> & HS). exists S'. split; [done|]. intros o. rewrite HS.
      setoid_rewrite elem_of_cons. unfold overlap. naive_solver.
    + destruct (IH ({[p]} ∪ acc)) as (S' & -> & HS). exists S'. split; [done|]. intros o.
      assert (~ overlap p x) as Hov.
      { intros [Ho|Ho]; [|done]. apply is_prefix_extends in Ho. congruence. }
      rewrite HS, elem_of_union, elem_of_singleton. setoid_rewrite elem_of_cons. naive_solver.
Qed.

Lemma remove_place_from_set_spec x S : well_typed x ->
  exists S', remove_place_from_set place_ty x S = Ok S' /\ forall o, o ∈ S' <-> remains x S o.
Proof.
  intros Hw. destruct (remove_from_spec x (elements S) ∅ Hw) as (S' & HS & Ho).
  exists S'. split; [done|]. intros o. rewrite Ho. unfold remains. setoid_rewrite elem_of_elements. set_solver.
Qed.

Lemma remains_apart x S o : remains x S o -> ~ overlap o x.
Proof. intros [[_ ?]|(p & _ & _ & Ho)]; [done|by eapply off_path_apart]. Qed.

Lemma remains_covered x S o : remains x S o -> covers S o.
Proof.
  intros [[Ho _]|(p & Hp & _ & Ho%off_path_extends)]; [exists o; split; [done|reflexivity]|by exists p].
Qed.

Lemma remains_well_typed x S o : well_typed x -> (forall p, p ∈ S -> well_typed p) -> remains x S o -> well_typed o.
Proof. intros Hx HS [[Ho _]|(p & _ & _ & Ho)]; [by apply HS|by eapply off_path_well_typed]. Qed.

Lemma remains_antichain x S o1 o2 : antichain S -> remains x S o1 -> remains x S o2 -> extends o1 o2 -> o1 = o2.
Proof.
  intros Ha H1 H2 He. pose proof (remains_apart _ _ _ H2) as Hap2.
  destruct H1 as [[Ho1 Hap1]|(p & _ & _ & Ho1)].
  - destruct H2 as [[Ho2 _]|(p2 & Hp2 & Hx2 & Ho2)]; [by apply Ha|]. exfalso. apply Hap1.
    rewrite (Ha o1 p2); [by right|done..|]. etrans; [exact He|by eapply off_path_extends].
  - destruct (off_path_prefix _ _ _ _ Ho1 He) as [?|Hx]; [done|]. destruct Hap2. by right.
Qed.

Lemma remains_covers_sound x S S' q : (forall o, o ∈ S' <-> remains x S o) -> covers S' q ->
  covers S q /\ ~ overlap q x.
Proof.
  intros HS (o & Ho & Hq). apply HS in Ho. split; [by eapply covers_down; [eapply remains_covered|]|].
  intros [Hqx|Hxq]; apply (remains_apart _ _ _ Ho).
  - destruct (extends_common q o x Hq Hqx); [by left|by right].
  - right. by etrans.
Qed.

Lemma differ_keeps x S S' q : (forall o, o ∈ S' <-> remains x S o) -> well_typed q -> covers S q ->
  apart q x -> covers S' q.
Proof.
  intros HS Hw (p & Hp & Hq) Hd. pose proof (apart_no_overlap _ _ Hd) as Hap.
  destruct (decide (extends x p)) as [Hxp|Hxp].
  - destruct Hd as [Hl|Hd].
    { destruct Hl. destruct Hq as (? & -> & _), Hxp as (? & -> & _). done. }
    destruct Hd as (r & i & ty & j & ty' & Hne & Hqi & Hxj).
    destruct (well_typed_field q r i ty Hw Hqi) as (tys & Ht & Hi).
    exists (child r (Field i ty)). split; [|done]. apply HS. right. exists p. split_and!; [done..|].
    exists r, (Field j ty'). split_and!; [|done|by exists j, ty', tys, i, ty].
    destruct (extends_common q _ p Hqi Hq) as [Hrp|Hpr].
    + destruct (extends_common _ p r Hrp (extends_child _ _)) as [Hpr|?]; [|done].
      destruct (extends_inv p r Hpr) as [->|[f Hf]]; [done|].
      rewrite (child_extends_eq r f (Field j ty') x) in Hf; [|by etrans|done].
      assert (Field i ty = Field j ty') as [= ? ?]; [|done].
      eapply child_extends_eq; [exact Hqi|]. etrans; [exact Hq|done].
    + assert (Field i ty = Field j ty') as [= ? ?]; [|done].
      eapply child_extends_eq; [|exact Hxj]. etrans; [exact Hxp|done].
  - exists p. split; [|done]. apply HS. left. split; [done|]. intros [Ho|Ho]; [|done].
    apply Hap. left. by etrans.
Qed.

(** C37: Removing a place from a set of places never panics when the place is well
    typed, and unpacks exactly as much as needed: nothing that the result covers
    overlaps the place, nothing is covered that was not, and whatever was covered
    and belongs to another local or differs from the place in a field stays
    covered. No place of the result
    is a prefix of another if none was before. *)
Theorem remove_place_from_set_exact x S : well_typed x ->
  exists S', remove_place_from_set place_ty x S = Ok S' /\
    (forall q, covers S' q -> covers S q /\ ~ overlap q x) /\
    (forall q, well_typed q -> covers S q -> apart q x -> covers S' q) /\
    (antichain S -> antichain S').
Proof.
  intros Hw. destruct (remove_place_from_set_spec x S Hw) as (S' & HS & Ho). exists S'. split_and!; [done| | |].
  - intros q. by apply (remains_covers_sound x S S').
  - intros q. by apply (differ_keeps x S S').
  - intros Ha o1 o2 H1%Ho H2%Ho. by apply (remains_antichain x S).
Qed.
End sets.
