(* ===== verification/FlowInit.v ===== *)
(** * Definitely initialized places

    [analysis/src/domains/definitely_initialized]: the places that are initialized
    on every path to a location. The checks of a debug build are part of the
    operations and panic when they fail. *)
From S2P Require Import Prelude FlowEngine FlowFix FlowTerm Mir FlowPlaces.

Abbreviation DefinitelyInitializedState := (gset Place).

(** The [debug_assert!] of [check_invariant]: no place is a prefix of another. *)
Definition check_invariant (s : DefinitelyInitializedState) : AnalysisResult unit :=
  assert_that "The place is a prefix of the place"
    (forallb (fun place1 => forallb (fun place2 =>
       bool_decide (place1 = place2) || (negb (is_prefix place1 place2) && negb (is_prefix place2 place1)))
       (elements s)) (elements s)).

Definition init_new_top : DefinitelyInitializedState := ∅.

Section analysis.
Variable place_ty : Place -> PlaceTy.
(** Whether the type of a place implements [Copy]. *)
Variable is_copy : Place -> bool.
Variable mir : Body.
Variable move_out_copy_types : bool.

Definition set_place_initialised (place : Place) (s : DefinitelyInitializedState) :
    AnalysisResult DefinitelyInitializedState :=
  _ ← check_invariant s;
  s ← (if existsb (is_prefix place) (elements s) then Ok s
       else
         let s := filter (fun current => is_prefix current place = false) s in
         collapse place_ty ({[place]} ∪ s) place);
  _ ← check_invariant s;
  Ok s.

Definition set_place_uninitialised (place : Place) (s : DefinitelyInitializedState) :
    AnalysisResult DefinitelyInitializedState :=
  _ ← check_invariant s;
  s ← foldl (remove_from place_ty place) (Ok ∅) (elements s);
  _ ← assert_that "Bug: failed to ensure that there are no prefixes"
        (forallb (fun place1 => negb (is_prefix place1 place) && negb (is_prefix place place1)) (elements s));
  _ ← check_invariant s;
  Ok s.

Definition apply_operand_effect (operand : Operand) (s : DefinitelyInitializedState) :
    AnalysisResult DefinitelyInitializedState :=
  match operand with
  | Move place =>
      let uninitialise := if negb move_out_copy_types then negb (is_copy place) else true in
      if uninitialise then set_place_uninitialised place s else Ok s
  | Copy _ | Constant => Ok s
  end.

Definition apply_operands_effect (operands : list Operand) (s : DefinitelyInitializedState) :
    AnalysisResult DefinitelyInitializedState :=
  foldl (fun s operand => s ← s; apply_operand_effect operand s) (Ok s) operands.

Definition init_statement_effect (s : DefinitelyInitializedState) (location : Location) :
    AnalysisResult DefinitelyInitializedState :=
  statement ← stmt_at mir location;
  match statement with
  | Assign target source =>
      s ← match source with
          | Repeat operand | Cast operand | UnaryOp operand | Use operand => apply_operand_effect operand s
          | BinaryOp operand1 operand2 | CheckedBinaryOp operand1 operand2 =>
              s ← apply_operand_effect operand1 s;
              apply_operand_effect operand2 s
          | Aggregate operands => apply_operands_effect operands s
          | Ref _ _ | RvalueOther => Ok s
          end;
      set_place_initialised target s
  | StorageDead l => set_place_uninitialised (place_of_local l) s
  | StorageLive _ | StatementOther => Ok s
  end.

Definition init_terminator_effect (s : DefinitelyInitializedState) (location : Location) :
    AnalysisResult (list (BasicBlock * DefinitelyInitializedState)) :=
  term ← term_at mir (block location);
  match kind term with
  | SwitchInt discr =>
      new_state ← apply_operand_effect discr s;
      Ok (to_blocks (term_successors term) new_state)
  | Drop place target unwind =>
      new_state ← set_place_uninitialised place s;
      Ok ((target, new_state) :: to_blocks (option_list unwind) init_new_top)
  | DropAndReplace place value target unwind =>
      new_state ← set_place_uninitialised place s;
      new_state ← apply_operand_effect value new_state;
      new_state ← set_place_initialised place new_state;
      Ok ((target, new_state) :: to_blocks (option_list unwind) init_new_top)
  | Call func args destination target cleanup =>
      new_state ← apply_operands_effect args s;
      new_state ← apply_operand_effect func new_state;
      res ← match target with
            | Some bb =>
                new_state ← set_place_initialised destination new_state;
                Ok [(bb, new_state)]
            | None => Ok []
            end;
      Ok (res ++ to_blocks (option_list cleanup) init_new_top)
  | Assert cond target cleanup =>
      new_state ← apply_operand_effect cond s;
      Ok ((target, new_state) :: to_blocks (option_list cleanup) init_new_top)
  | Yield value resume drop =>
      new_state ← apply_operand_effect value s;
      Ok ((resume, new_state) :: to_blocks (option_list drop) init_new_top)
  | InlineAsm => Err (UnsupportedStatement location)
  | TerminatorOther => Ok (to_blocks (term_successors term) s)
  end.

Definition init_bottom : DefinitelyInitializedState :=
  list_to_set (place_of_local <$> local_indices mir).
Definition init_initial : DefinitelyInitializedState :=
  list_to_set (place_of_local <$> args_iter mir).

Definition init_is_top (s : DefinitelyInitializedState) : bool := bool_decide (s = ∅).
Definition init_is_bottom (s : DefinitelyInitializedState) : bool :=
  if size s =? local_decls mir
  then forallb (fun l => bool_decide (place_of_local l ∈ s)) (local_indices mir)
  else false.

(** The places of one set that have a prefix in the other. *)
Definition propagate_places (place_set1 place_set2 : gset Place) : gset Place :=
  filter (fun place => existsb (is_prefix place) (elements place_set2) = true) place_set1.

(** The checks of [join] are those of [check_invariant] on its arguments and its
    result; [join_checks] says when they pass. *)
Definition init_join (s other : DefinitelyInitializedState) : DefinitelyInitializedState :=
  propagate_places s other ∪ propagate_places other s.
Definition join_checks (s other : DefinitelyInitializedState) : AnalysisResult unit :=
  _ ← check_invariant s;
  _ ← check_invariant other;
  check_invariant (init_join s other).

Definition DefinitelyInitializedAnalysis : FixpointEngine DefinitelyInitializedState := {|
  new_bottom := init_bottom;
  new_initial := init_initial;
  need_to_widen _ := false;
  apply_statement_effect := init_statement_effect;
  apply_terminator_effect := init_terminator_effect;
  join := init_join;
  widen _ _ := Panic "not implemented";
|}.
End analysis.
