(* ===== verification/FlowInitSound.v ===== *)
(** * The states of the initialization analysis

    The states of the analysis of initialized places are in normal form: no place
    is a prefix of another, and no place stands for what its children could
    stand for. All operations keep the normal form, never fail their own checks,
    and have an exact meaning in terms of covered places. *)
From S2P Require Import Prelude FlowEngine FlowFix FlowTerm Mir FlowPlaces FlowPlaceSets FlowInit.

Lemma check_invariant_spec s : check_invariant s = Ok tt <-> antichain s.
Proof.
  unfold check_invariant, assert_that.
  match goal with |- context [if ?b then _ else _] => assert (b = true <-> antichain s) as Hb end.
  - rewrite forallb_forall. split.
    + intros Hall p q Hp Hq He. specialize (Hall p). rewrite <- list_elem_of_In, elem_of_elements, forallb_forall in Hall.
      specialize (Hall Hp q). rewrite <- list_elem_of_In, elem_of_elements in Hall. specialize (Hall Hq).
      destruct (bool_decide_reflect (p = q)) as [?|_]; [done|]. apply is_prefix_extends in He.
      by rewrite He in Hall.
    + intros Ha p Hp. apply list_elem_of_In, elem_of_elements in Hp. rewrite forallb_forall. intros q Hq.
      apply list_elem_of_In, elem_of_elements in Hq. destruct (bool_decide_reflect (p = q)) as [?|Hne]; [done|]. simpl.
      destruct (is_prefix p q) eqn:Hpq; [apply is_prefix_extends in Hpq; by destruct Hne; apply Ha|].
      destruct (is_prefix q p) eqn:Hqp; [apply is_prefix_extends in Hqp; by destruct Hne; symmetry; apply Ha|]. done.
  - destruct (forallb _ _); split; try done; intros; [by apply Hb|]. by apply Hb in H.
Qed.

Lemma existsb_covers p (s : gset Place) : existsb (is_prefix p) (elements s) = true <-> covers s p.
Proof.
  rewrite existsb_exists. unfold covers. setoid_rewrite <- list_elem_of_In. setoid_rewrite elem_of_elements.
  by setoid_rewrite is_prefix_extends.
Qed.

Lemma init_is_bottom_spec b s : init_is_bottom b s = true <-> s = init_bottom b.
Proof.
  assert (size (init_bottom b) = local_decls b) as Hsize.
  { unfold init_bottom, local_indices. rewrite size_list_to_set; [by rewrite length_fmap, length_seq|].
    apply NoDup_fmap_2; [|apply NoDup_seq]. by intros ?? [=]. }
  assert (forall l, l ∈ local_indices b -> place_of_local l ∈ init_bottom b) as Hin.
  { intros l Hl. unfold init_bottom. apply elem_of_list_to_set, list_elem_of_fmap. eauto. }
  unfold init_is_bottom. split.
  - destruct (Nat.eqb_spec (size s) (local_decls b)) as [Hs|]; [|done]. rewrite forallb_forall. intros Hall.
    assert (init_bottom b ⊆ s) as Hsub.
    { intros p (l & -> & Hl)%elem_of_list_to_set%list_elem_of_fmap. specialize (Hall l).
      rewrite bool_decide_eq_true in Hall. by apply Hall, list_elem_of_In. }
    apply set_eq. intros p. split; [|apply Hsub]. intros Hp. destruct (decide (p ∈ init_bottom b)) as [?|Hn]; [done|].
    assert (size (init_bottom b) < size s) by (apply subset_size; set_solver). lia.
  - intros ->. rewrite Hsize, Nat.eqb_refl. apply forallb_forall. intros l Hl.
    by apply bool_decide_eq_true, Hin, list_elem_of_In.
Qed.

(** ** Joins *)
Lemma elem_of_propagate s t p : p ∈ propagate_places s t <-> p ∈ s /\ covers t p.
Proof. unfold propagate_places. rewrite elem_of_filter, existsb_covers. tauto. Qed.

Lemma covers_join s t q : covers (init_join s t) q <-> covers s q /\ covers t q.
Proof.
  unfold init_join. split.
  - intros (p & [[Hp Ht]%elem_of_propagate|[Hp Hs]%elem_of_propagate]%elem_of_union & Hq).
    + split; [by exists p|by eapply covers_down].
    + split; [by eapply covers_down|by exists p].
  - intros [(p & Hp & Hqp) (p' & Hp' & Hqp')]. destruct (extends_common q p p' Hqp Hqp').
    + exists p. rewrite elem_of_union, !elem_of_propagate. split; [left|done]. split; [done|by exists p'].
    + exists p'. rewrite elem_of_union, !elem_of_propagate. split; [right|done]. split; [done|by exists p].
Qed.

Lemma antichain_join s t : antichain s -> antichain t -> antichain (init_join s t).
Proof.
  intros Hs Ht p q. unfold init_join. rewrite !elem_of_union, !elem_of_propagate.
  intros [[Hp Hcp]|[Hp Hcp]] [[Hq Hcq]|[Hq Hcq]] He.
  - by apply Hs.
  - destruct Hcp as (r & Hr & Hpr), Hcq as (r' & Hr' & Hqr').
    assert (p = r') as <- by (apply Hs; [done..|]; by etrans).
    by apply extends_antisym.
  - destruct Hcp as (r & Hr & Hpr), Hcq as (r' & Hr' & Hqr').
    assert (p = r') as <- by (apply Ht; [done..|]; by etrans).
    by apply extends_antisym.
  - by apply Ht.
Qed.

Lemma join_checks_pass s t : antichain s -> antichain t -> join_checks s t = Ok tt.
Proof.
  intros Hs Ht. unfold join_checks. rewrite !(proj2 (check_invariant_spec _)); try done. by apply antichain_join.
Qed.

(** Antichains that cover the same places are equal. *)
Lemma antichain_le s t p : antichain s -> antichain t -> (forall q, covers s q <-> covers t q) -> p ∈ s -> p ∈ t.
Proof.
  intros Hs Ht Hc Hp. destruct (proj1 (Hc p)) as (q & Hq & Hpq); [exists p; split; [done|reflexivity]|].
  destruct (proj2 (Hc q)) as (r & Hr & Hqr); [exists q; split; [done|reflexivity]|].
  assert (p = r) as -> by (apply Hs; [done..|]; by etrans). by rewrite (extends_antisym r q).
Qed.

Lemma antichain_ext s t : antichain s -> antichain t -> (forall q, covers s q <-> covers t q) -> s = t.
Proof. intros Hs Ht Hc. apply set_eq. intros p. split; apply antichain_le; done. Qed.

Section normal.
Variable place_ty : Place -> PlaceTy.
Abbreviation field_tys := (FlowPlaces.field_tys place_ty) (only parsing).
Abbreviation well_typed := (FlowPlaces.well_typed place_ty) (only parsing).
Abbreviation sibling := (FlowPlaceSets.sibling place_ty) (only parsing).

(** ** Filled places

    What a set of initialized places initializes: everything below them, a place
    all of whose fields are initialized, and a place that is reached through
    another projection. *)
Inductive filled (base : Place -> Prop) : Place -> Prop :=
| filled_base p : base p -> filled base p
| filled_down p e : filled base p -> filled base (child p e)
| filled_elem p e : (forall i ty, e <> Field i ty) -> filled base (child p e) -> filled base p
| filled_fields p tys : field_tys p = Ok tys -> tys <> [] ->
    (forall i ty, tys !! i = Some ty -> filled base (child p (Field i ty))) -> filled base p.

Lemma filled_idem (base base' : Place -> Prop) q :
  (forall p, base p -> filled base' p) -> filled base q -> filled base' q.
Proof.
  intros Hb. induction 1; [by apply Hb|by apply filled_down|by eapply filled_elem|by eapply filled_fields].
Qed.

Lemma filled_mono (base base' : Place -> Prop) q :
  (forall p, base p -> base' p) -> filled base q -> filled base' q.
Proof. intros Hb. apply filled_idem. intros p Hp. by apply filled_base, Hb. Qed.

Lemma filled_extends base p q : filled base p -> extends q p -> filled base q.
Proof.
  intros Hp (rest & Hl & Hq). destruct q as [lq eq]; simpl in *. subst. revert p Hp.
  induction rest as [|e rest IH]; intros p Hp; [rewrite app_nil_r; by destruct p|].
  specialize (IH (child p e)). simpl in IH. rewrite <- app_assoc in IH. by apply IH, filled_down.
Qed.

Lemma filled_covers S q : covers S q -> filled (fun p => p ∈ S) q.
Proof. intros (p & Hp & Hq). eapply filled_extends; [by apply filled_base|done]. Qed.

(** ** Normal form *)
Definition collapsible (S : gset Place) (q : Place) : Prop :=
  (exists e, (forall i ty, e <> Field i ty) /\ child q e ∈ S) \/
  (exists tys, field_tys q = Ok tys /\ tys <> [] /\ forall i ty, tys !! i = Some ty -> child q (Field i ty) ∈ S).

Record normal (S : gset Place) : Prop := {
  normal_antichain : antichain S;
  normal_collapsed : forall q, ~ collapsible S q;
}.

Lemma covers_child S q e : covers S (child q e) -> covers S q \/ child q e ∈ S.
Proof.
  intros (p & Hp & He). destruct (extends_common _ _ _ He (extends_child q e)) as [Hpq|Hqp].
  - destruct (extends_inv p q Hpq) as [->|[f Hf]]; [left; exists q; split; [done|reflexivity]|right].
    assert (p = child q e) as <-; [|done]. apply extends_antisym; [|done].
    by rewrite (child_extends_eq q e f (child q e)); [|reflexivity|etrans].
  - left. by exists p.
Qed.

Lemma normal_filled S q : normal S -> filled (fun p => p ∈ S) q -> covers S q.
Proof.
  intros [Ha Hn]. induction 1 as [p Hp|p e _ IH|p e He _ IH|p tys Ht Hne _ IH].
  - exists p. split; [done|reflexivity].
  - eapply covers_down; [exact IH|apply extends_child].
  - destruct (covers_child S p e IH) as [?|Hc]; [done|]. destruct (Hn p). left. eauto.
  - destruct (decide (Exists (fun r => extends p r) (elements S))) as [(r & Hr & Hp)%Exists_exists|Hno].
    { exists r. by rewrite elem_of_elements in Hr. }
    destruct (Hn p). right. exists tys. split_and!; [done..|]. intros i ty Hi.
    destruct (covers_child S p _ (IH i ty Hi)) as [(r & Hr & Hp)|?]; [|done]. destruct Hno.
    apply Exists_exists. exists r. by rewrite elem_of_elements.
Qed.

Lemma normal_locals (ls : list Local) : normal (list_to_set (place_of_local <$> ls)).
Proof.
  assert (forall p, p ∈ (list_to_set (place_of_local <$> ls) : gset Place) -> projection p = []) as Hp.
  { intros p (l & -> & _)%elem_of_list_to_set%list_elem_of_fmap. done. }
  assert (forall q e, child q e ∉ (list_to_set (place_of_local <$> ls) : gset Place)) as Hc.
  { intros q e Hin%Hp. by apply app_eq_nil in Hin as [_ ?]. }
  split.
  - intros p q H1%Hp H2%Hp (rest & Hl & _). destruct p, q; simpl in *. congruence.
  - intros q [(e & _ & Hin)|(tys & _ & Hne & Hall)]; [by eapply Hc|].
    destruct tys as [|ty tys]; [done|]. by apply (Hc q (Field 0 ty)), Hall.
Qed.

Lemma normal_join s t : normal s -> normal t -> normal (init_join s t).
Proof.
  intros Hs Ht. split; [apply antichain_join; [apply Hs|apply Ht]|].
  assert (forall s t q, normal s -> normal t -> (exists e, child q e ∈ init_join s t /\ child q e ∈ s) ->
    (forall e, child q e ∈ init_join s t -> child q e ∈ s)) as Hside.
  { clear. intros s t q Hs Ht (e & He & Hes) f Hf. destruct (covers_child s q f) as [(p & Hp & Hq)|?]; [|  |done].
    - apply (covers_join s t). exists (child q f). split; [done|reflexivity].
    - assert (child q e = p) as <-.
      { apply (normal_antichain s Hs); [done..|]. etrans; [apply extends_child|done]. }
      apply extends_length in Hq. rewrite child_length in Hq. lia. }
  assert (forall e q, child q e ∈ init_join s t -> child q e ∈ s \/ child q e ∈ t) as Hor.
  { intros e q. unfold init_join. rewrite elem_of_union, !elem_of_propagate. tauto. }
  assert (forall e q, child q e ∈ init_join s t -> child q e ∈ init_join t s) as Hcomm.
  { intros e q. unfold init_join. set_solver. }
  intros q [(e & He & Hin)|(tys & Hty & Hne & Hall)].
  - destruct (Hor e q Hin) as [Hc|Hc]; [apply (normal_collapsed s Hs q)|apply (normal_collapsed t Ht q)]; left; eauto.
  - destruct tys as [|ty tys]; [done|]. pose proof (Hall 0 ty eq_refl) as H0.
    destruct (Hor _ q H0) as [Hc|Hc]; [apply (normal_collapsed s Hs q)|apply (normal_collapsed t Ht q)]; right;
      exists (ty :: tys); split_and!; try done; intros i ty' Hi; [eapply (Hside s t)|eapply (Hside t s)]; eauto.
Qed.
(** ** Collapsing

    Places that overlap, or belong to different locals or differ in a field, as
    those of one body do. *)
Definition compatible (p q : Place) : Prop := overlap p q \/ apart p q.

(** The places of [S] once everything below [r] is represented by [r]. *)
Definition collapsed_to (S S' : gset Place) (r : Place) : Prop :=
  forall o, o ∈ S' <-> o = r \/ (o ∈ S /\ ~ extends o r).

Section collapse.
Variable S : gset Place.
Variable guide : Place.
Hypothesis S_antichain : antichain S.
Hypothesis guide_in : guide ∈ S.
Hypothesis guide_typed : well_typed guide.
Hypothesis S_typed : forall o, o ∈ S -> well_typed o.
Hypothesis S_compatible : forall o, o ∈ S -> compatible o guide.

Lemma guide_only o : o ∈ S -> overlap o guide -> o = guide.
Proof. intros Ho [He|He]; [by apply S_antichain|symmetry; by apply S_antichain]. Qed.

(** A place of [S] below a proper prefix of the guide, but beside the guide, lies at
    or below a sibling. *)
Lemma below_current current e o : extends guide (child current e) -> o ∈ S -> extends o current ->
  ~ extends o (child current e) -> exists s, sibling current e s /\ extends o s.
Proof.
  intros Hg Ho Hoc Hne. assert (extends guide current) as Hgc by (etrans; [exact Hg|apply extends_child]).
  destruct (S_compatible o Ho) as [Hov|[Hl|(r & i & ty & j & ty' & Hij & Hri & Hrj)]].
  { destruct Hne. by rewrite (guide_only o). }
  { destruct Hl. by destruct Hoc as (? & -> & _), Hgc as (? & -> & _). }
  destruct (extends_common guide r current) as [Hrc|Hcr]; [etrans; [exact Hrj|apply extends_child]|done| |].
  - destruct (extends_inv r current Hrc) as [->|[f Hf]].
    + rewrite (child_extends_eq current e (Field j ty') guide) by done.
      destruct (well_typed_field place_ty o current i ty (S_typed o Ho) Hri) as (tys & Ht & Hi).
      exists (child current (Field i ty)). split; [|done]. by exists j, ty', tys, i, ty.
    + destruct Hne. assert (f = e) as ->.
      { apply (child_extends_eq current f e guide); [|done]. etrans; [exact Hrj|]. by etrans; [apply extends_child|]. }
      etrans; [exact Hri|]. by etrans; [apply extends_child|].
  - destruct (extends_inv current r Hcr) as [->|[f Hf]].
    + rewrite (child_extends_eq r e (Field j ty') guide) by done.
      destruct (well_typed_field place_ty o r i ty (S_typed o Ho) Hri) as (tys & Ht & Hi).
      exists (child r (Field i ty)). split; [|done]. by exists j, ty', tys, i, ty.
    + exfalso. assert (Field i ty = f) as Hif.
      { apply (child_extends_eq r (Field i ty) f o); [done|]. by etrans; [exact Hoc|]. }
      assert (Field j ty' = f) as Hjf.
      { apply (child_extends_eq r (Field j ty') f guide); [done|]. by etrans; [exact Hgc|]. }
      congruence.
Qed.

(** The expansion of [current] is in the collapsed set only if the recursion has
    collapsed everything below. *)
Lemma collapsed_child S1 r1 nc : collapsed_to S S1 r1 -> extends guide r1 -> extends r1 nc -> extends guide nc ->
  nc ∈ S1 -> r1 = nc.
Proof.
  intros Hc Hgr Hrn Hgn [->|[Hin Hn]]%Hc; [done|]. destruct Hn.
  rewrite (guide_only nc Hin (or_intror Hgn)). done.
Qed.

Lemma collapsed_self : collapsed_to S S guide.
Proof.
  intros o. split; [|by intros [->|[? _]]]. intros Ho.
  destruct (decide (extends o guide)); [left|by right]. apply guide_only; [done|by left].
Qed.

Lemma collapse_step S1 current e (others : list Place) :
  collapsed_to S S1 (child current e) -> extends guide (child current e) -> guide <> current ->
  (forall o, o ∈ others <-> sibling current e o) -> (forall o, o ∈ others -> o ∈ S1) ->
  collapsed_to S ({[current]} ∪ (S1 ∖ list_to_set (others ++ [child current e]))) current.
Proof.
  intros Hc Hg Hne Ho Hall o. rewrite elem_of_union, elem_of_singleton, elem_of_difference, elem_of_list_to_set.
  rewrite elem_of_app, list_elem_of_singleton.
  assert (forall s, sibling current e s -> s ∈ S) as Hsib.
  { intros s Hs. destruct (proj1 (Hc s)) as [->|[? _]]; [by apply Hall, Ho| |done].
    exfalso. destruct Hs as (j & ty' & tys & i & ty & -> & _ & _ & Hij & Heq).
    apply (f_equal projection) in Heq. simpl in Heq. by simplify_list_eq. }
  split; [intros [->|[Hin Hnot]]; [by left|right]|intros [->|[Hin Hnot]]; [by left|right]].
  - apply Hc in Hin as [->|[Hin Hn]]; [naive_solver|]. split; [done|]. intros He.
    destruct (below_current current e o Hg Hin He Hn) as (s & Hs & Hos).
    apply Hnot. left. apply Ho. by rewrite (S_antichain o s (Hin) (Hsib s Hs) Hos).
  - split.
    + apply Hc. right. split; [done|]. intros He. apply Hnot. etrans; [exact He|apply extends_child].
    + intros [Hs%Ho| ->]; apply Hnot; [by eapply sibling_extends|apply extends_child].
Qed.

Lemma filled_parent S1 current e (others : list Place) :
  collapsed_to S S1 (child current e) -> extends guide (child current e) ->
  (forall o, o ∈ others <-> sibling current e o) -> (forall o, o ∈ others -> o ∈ S1) ->
  filled (fun p => p ∈ S) (child current e) -> filled (fun p => p ∈ S) current.
Proof.
  intros Hc Hg Ho Hall Hf.
  assert (forall j tj, e = Field j tj -> filled (fun p => p ∈ S) current) as Hfield.
  { intros j tj ->. destruct (well_typed_field place_ty guide current j tj guide_typed Hg) as (tys & Ht & Hj).
    eapply filled_fields; [exact Ht|by intros ->|]. intros i ty Hi.
    destruct (decide (i = j)) as [->|Hij]; [by simplify_eq|].
    assert (child current (Field i ty) ∈ S1) as Hin by (apply Hall, Ho; by exists j, tj, tys, i, ty).
    apply Hc in Hin as [->|[Hin _]]; [done|by apply filled_base]. }
  destruct e as [|j tj| | | | |]; try (by apply (Hfield j tj)); by apply (filled_elem _ _ _) in Hf.
Qed.

Lemma collapse_recurse_spec depth current :
  extends guide current -> length (projection guide) - length (projection current) <= depth ->
  exists S' r, collapse_recurse place_ty depth S current guide = Ok S' /\ extends guide r /\ extends r current /\
    collapsed_to S S' r /\ filled (fun p => p ∈ S) r /\
    (r = current \/ exists q e o, r = child q e /\ sibling q e o /\ o ∉ S').
Proof.
  revert current. induction depth as [|depth IH]; intros current Hg Hlen; cbn [collapse_recurse];
    (destruct (decide (current = guide)) as [->|Hne]; [exists S, guide; split_and!; [done..|apply collapsed_self|by apply filled_base|by left]|]).
  - exfalso. apply Hne. symmetry. apply extends_same_length; [done|lia].
  - destruct (expand_one_level_spec place_ty current guide) as (e & others & -> & Hc & Ho); [done..|by intros ->|]. simpl.
    pose proof (child_length current e) as Hcl.
    destruct (IH (child current e)) as (S1 & r1 & -> & Hgr & Hrn & Hct & Hfr & Hor); [done|lia|]. simpl.
    destruct (forallb _ (others ++ [child current e])) eqn:Hall.
    + rewrite forallb_app in Hall. apply andb_true_iff in Hall as [Hall Hnc].
      rewrite forallb_forall in Hall. simpl in Hnc. rewrite andb_true_r, bool_decide_eq_true in Hnc.
      assert (forall o, o ∈ others -> o ∈ S1) as Hin.
      { intros o Hoin%list_elem_of_In. specialize (Hall o Hoin). by rewrite bool_decide_eq_true in Hall. }
      assert (r1 = child current e) as -> by by apply (collapsed_child S1).
      eexists _, current. split_and!; [done..| | |by left].
      * by apply collapse_step; [| |intros ->| |].
      * by eapply filled_parent.
    + exists S1, r1. split_and!; [done..|by etrans; [|apply extends_child]|done|done|]. right.
      destruct Hor as [->|Hor]; [|done]. 
      rewrite forallb_app in Hall. apply andb_false_iff in Hall as [Hall|Hall].
      * apply not_true_iff_false in Hall. rewrite forallb_forall in Hall.
        destruct (decide (Exists (fun o => o ∉ S1) others)) as [(o & Hos & Hn)%Exists_exists|Hno].
        { exists current, e, o. by split_and!; [|apply Ho|]. }
        destruct Hall. intros o Hos%list_elem_of_In. apply bool_decide_eq_true.
        destruct (decide (o ∈ S1)) as [?|?]; [done|]. destruct Hno. apply Exists_exists. eauto.
      * simpl in Hall. rewrite andb_true_r, bool_decide_eq_false in Hall. destruct Hall. apply Hct. by left.
Qed.
End collapse.

(** ** The two operations on states *)
Lemma child_inj q e q' e' : child q e = child q' e' -> q = q' /\ e = e'.
Proof.
  destruct q, q'. unfold child. simpl. intros [= -> Hp]. by apply app_inj_tail in Hp as [-> ->].
Qed.

Lemma normal_remains x S S' : normal S -> well_typed x -> (forall o, o ∈ S' <-> remains place_ty x S o) -> normal S'.
Proof.
  intros [Ha Hn] Hw HS. split.
  { intros p q Hp%HS Hq%HS. by apply (remains_antichain place_ty x S). }
  intros q Hc. apply (Hn q). destruct Hc as [(e & He & Hin%HS)|(tys & Ht & Hne & Hall)].
  - left. exists e. split; [done|]. destruct Hin as [[? _]|(p & _ & _ & r & e' & _ & _ & Hs)]; [done|].
    destruct Hs as (j & ty' & tys & i & ty & _ & _ & _ & _ & Heq). apply child_inj in Heq as [_ ->].
    by destruct (He i ty).
  - right. exists tys. split_and!; [done..|]. intros i ty Hi.
    destruct (proj1 (HS _) (Hall i ty Hi)) as [[? _]|(p & _ & _ & r & e' & _ & Hx & Hs)]; [done|exfalso].
    destruct Hs as (j & ty' & tys' & i' & ty2 & -> & Ht' & _ & _ & Heq). apply child_inj in Heq as [<- [= <- <-]].
    destruct (well_typed_field place_ty x q j ty' Hw Hx) as (tys2 & Ht2 & Hj).
    assert (tys2 = tys) as -> by congruence.
    apply (remains_apart place_ty x S (child q (Field j ty'))); [by apply HS, Hall|by right].
Qed.

Record wf_places (U : gset Place) : Prop := {
  places_typed p : p ∈ U -> well_typed p;
  places_compatible p q : p ∈ U -> q ∈ U -> compatible p q;
  places_prefix p q : p ∈ U -> extends p q -> q ∈ U;
  places_sibling p r e o : p ∈ U -> extends p (child r e) -> sibling r e o -> o ∈ U;
}.

Section operations.
Variable U : gset Place.
Hypothesis U_wf : wf_places U.

Definition init_valid (s : gset Place) : Prop := normal s /\ s ⊆ U.

Lemma set_place_uninitialised_spec x s : init_valid s -> x ∈ U ->
  exists s', set_place_uninitialised place_ty x s = Ok s' /\ init_valid s' /\
    forall o, o ∈ s' <-> remains place_ty x s o.
Proof.
  intros [Hn Hs] Hx. pose proof (places_typed U U_wf x Hx) as Hw.
  destruct (remove_place_from_set_spec place_ty x s Hw) as (s' & Hr & Ho).
  assert (normal s') as Hn' by by eapply normal_remains.
  exists s'. split_and!; [|split; [done|]|done].
  - unfold set_place_uninitialised. rewrite (proj2 (check_invariant_spec _)) by apply Hn. simpl.
    unfold remove_place_from_set in Hr. rewrite Hr. simpl.
    match goal with |- context [assert_that _ ?b] => assert (b = true) as -> end.
    { apply forallb_forall. intros p Hp%list_elem_of_In%elem_of_elements.
      apply Ho, remains_apart in Hp. unfold overlap in Hp. rewrite <- !is_prefix_extends in Hp.
      destruct (is_prefix p x), (is_prefix x p); naive_solver. }
    simpl. by rewrite (proj2 (check_invariant_spec _)) by apply Hn'.
  - intros o [[? _]|(p & Hp & _ & r & e & Hrp & Hxr & Hsib)]%Ho; [by apply Hs|].
    by eapply (places_sibling U U_wf x).
Qed.

Lemma normal_collapsed_to x S S' r current :
  (forall o, o ∈ S -> ~ overlap o x \/ o = x) -> x ∈ S -> extends x r -> collapsed_to S S' r ->
  (forall q, ~ collapsible (S ∖ {[x]}) q) -> antichain S -> projection current = [] ->
  (r = current \/ exists q e o, r = child q e /\ sibling q e o /\ o ∉ S') -> normal S'.
Proof.
  intros Hov Hx Hxr Hc Hn Ha Hcur Hor. split.
  - intros p q [->|[Hp Hpr]]%Hc [->|[Hq Hqr]]%Hc He; [done| |done|by apply Ha].
    destruct Hqr. assert (q = x) as ->; [|done].
    destruct (Hov q Hq) as [Hno|?]; [destruct Hno; right; by etrans|done].
  - assert (forall q e, child q e ∈ S' -> child q e ∈ S ∖ {[x]} \/ child q e = r) as Hin.
    { intros q e [?|[Hin Hr]]%Hc; [by right|left]. apply elem_of_difference. split; [done|].
      rewrite elem_of_singleton. intros Heq. by rewrite Heq in Hr. }
    assert (forall q e, child q e = r -> exists o, sibling q e o /\ o ∉ S') as Hr.
    { intros q e <-. destruct Hor as [<-|(q' & e' & o & Heq & Hs & Ho)].
      - simpl in Hcur. by apply app_eq_nil in Hcur as [_ ?].
      - apply child_inj in Heq as [-> ->]. eauto. }
    intros q [(e & He & Hq)|(tys & Ht & Hne & Hall)].
    + destruct (Hin q e Hq) as [?|Heq]; [by apply (Hn q); left; eauto|].
      destruct (Hr q e Heq) as (o & (j & ty' & ? & ? & ? & -> & _) & _). by destruct (He j ty').
    + apply (Hn q). right. exists tys. split_and!; [done..|]. intros i ty Hi.
      destruct (Hin _ _ (Hall i ty Hi)) as [?|Heq]; [done|exfalso].
      destruct (Hr _ _ Heq) as (o & (j & ty' & tys' & i' & ty2 & [= <- <-] & Ht' & Hi' & _ & ->) & Ho).
      apply Ho, Hall. congruence.
Qed.

Lemma set_place_initialised_spec x s : init_valid s -> x ∈ U ->
  exists s', set_place_initialised place_ty x s = Ok s' /\ init_valid s' /\
    forall q, covers s' q <-> filled (fun p => p ∈ s \/ p = x) q.
Proof.
  intros [Hn Hs] Hx. unfold set_place_initialised.
  rewrite (proj2 (check_invariant_spec _)) by apply Hn. simpl.
  destruct (existsb _ _) eqn:Hcov.
  { apply existsb_covers in Hcov. simpl. rewrite (proj2 (check_invariant_spec _)) by apply Hn. simpl.
    exists s. split_and!; [done..|]. intros q. split.
    - intros Hq%(filled_covers s). revert Hq. apply filled_mono. intros p Hp. by left.
    - intros Hq. apply normal_filled; [done|]. eapply filled_idem; [|exact Hq].
      intros p [Hp| ->]; [by apply filled_base|by apply filled_covers]. }
  assert (~ covers s x) as Hnc by (rewrite <- existsb_covers; congruence). clear Hcov.
  set (S1 := {[x]} ∪ filter (fun current => is_prefix current x = false) s).
  assert (forall o, o ∈ S1 <-> o = x \/ (o ∈ s /\ ~ overlap o x)) as HS1.
  { intros o. unfold S1, overlap. rewrite elem_of_union, elem_of_singleton, elem_of_filter, <- !is_prefix_extends.
    destruct (is_prefix o x) eqn:Hox; [naive_solver|]. split; [|naive_solver].
    intros [?|[_ Ho]]; [by left|right]. split; [done|]. intros [?|Hxo%is_prefix_extends]; [done|].
    apply Hnc. by exists o. }
  assert (S1 ⊆ U) as HU by (intros o [->|[? _]]%HS1; auto).
  assert (antichain S1) as Ha.
  { intros p q [->|[Hp Hpx]]%HS1 [->|[Hq Hqx]]%HS1 He.
    - done.
    - destruct Hqx. by right.
    - destruct Hpx. by left.
    - by apply Hn. }
  destruct (collapse_recurse_spec S1 x Ha (proj2 (HS1 x) (or_introl eq_refl)) (places_typed U U_wf x Hx)
    (fun o Ho => places_typed U U_wf o (HU o Ho)) (fun o Ho => places_compatible U U_wf o x (HU o Ho) Hx)
    (length (projection x)) (place_of_local (local x))) as (S' & r & Hrec & Hxr & _ & Hct & Hfr & Hor).
  { by exists (projection x). } { simpl. lia. }
  unfold collapse. rewrite Hrec. simpl.
  assert (normal S') as Hn'.
  { eapply (normal_collapsed_to x S1 S' r); try done.
    - intros o [->|[_ ?]]%HS1; [by right|by left].
    - by apply HS1; left.
    - intros q Hq. apply (normal_collapsed s Hn q).
      assert (forall o, o ∈ S1 ∖ {[x]} -> o ∈ s) as Hin.
      { intros o [Ho1 Ho2]%elem_of_difference. apply HS1 in Ho1 as [->|[? _]]; [set_solver|done]. }
      destruct Hq as [(e & He & Hq)|(tys & Ht & Hne & Hall)]; [left; exists e; auto|right].
      exists tys. split_and!; [done..|]. intros i ty Hi. by apply Hin, Hall.
    - done. }
  rewrite (proj2 (check_invariant_spec _)) by apply Hn'. simpl. exists S'. split_and!; [done| |].
  - split; [done|]. intros o [->|[Ho _]]%Hct; [by eapply (places_prefix U U_wf x)|by apply HU].
  - intros q. split.
    + intros Hq%(filled_covers S'). eapply filled_idem; [|exact Hq]. intros p [->|[Hp _]]%Hct.
      * eapply filled_mono; [|exact Hfr]. intros p [->|[? _]]%HS1; [by right|by left].
      * apply filled_base. apply HS1 in Hp as [->|[? _]]; [by right|by left].
    + intros Hq. apply normal_filled; [done|]. eapply filled_idem; [|exact Hq]. intros p Hp.
      assert (filled (fun o => o ∈ S') r) as Hr by (apply filled_base, Hct; by left).
      assert (forall o, o ∈ S1 -> filled (fun o => o ∈ S') o) as Hf.
      { intros o Ho. destruct (decide (extends o r)) as [He|He]; [by eapply filled_extends|].
        apply filled_base, Hct. by right. }
      destruct (decide (overlap p x)) as [[He|He]|Hno].
      * eapply filled_extends; [|exact He]. apply Hf, HS1. by left.
      * destruct Hp as [Hp| ->]; [|by apply Hf, HS1; left]. destruct Hnc. by exists p.
      * destruct Hp as [Hp| ->]; [apply Hf, HS1; by right|]. destruct Hno. by left.
Qed.
(** The operations on states of the initialization analysis never fail their
    checks and keep the normal form. Initializing a place covers exactly what the
    state and the place fill, so that collapsing changes the representation only;
    uninitializing a place uncovers exactly what overlaps it; a join covers
    exactly what both states cover. *)
Theorem initialized_state_operations x s t : init_valid s -> init_valid t -> x ∈ U ->
  (exists s', set_place_initialised place_ty x s = Ok s' /\ init_valid s' /\
     forall q, covers s' q <-> filled (fun p => p ∈ s \/ p = x) q) /\
  (exists s', set_place_uninitialised place_ty x s = Ok s' /\ init_valid s' /\
     forall q, q ∈ U -> covers s' q <-> (covers s q /\ ~ overlap q x)) /\
  (join_checks s t = Ok tt /\ init_valid (init_join s t) /\
     forall q, covers (init_join s t) q <-> (covers s q /\ covers t q)).
Proof.
  intros Hs Ht Hx. split_and!.
  - by apply set_place_initialised_spec.
  - destruct (set_place_uninitialised_spec x s Hs Hx) as (s' & Hr & Hv & Ho). exists s'. split_and!; [done..|].
    intros q Hq. split; [by apply (remains_covers_sound place_ty x s s')|]. intros [Hc Hn].
    destruct (places_compatible U U_wf q x Hq Hx) as [?|Ha]; [done|].
    by eapply (differ_keeps place_ty x s s' q Ho (places_typed U U_wf q Hq)).
  - apply join_checks_pass; [apply Hs|apply Ht].
  - split; [by apply normal_join; [apply Hs|apply Ht]|].
    destruct Hs as [_ Hs], Ht as [_ Ht]. unfold init_join, propagate_places. set_solver.
  - apply covers_join.
Qed.
End operations.
End normal.
