(* ===== verification/FlowInitRun.v ===== *)
(** * The initialization analysis is sound

    Statements and terminators act on states by making places initialized and
    uninitialized, in order. On the places of a body the actions never fail and
    are monotone, so that the engine returns the least solution; what it records
    as initialized is initialized on every path. *)
From S2P Require Import Prelude FlowEngine FlowFix FlowTerm Mir FlowPlaces FlowPlaceSets FlowInit FlowInitSound.

(** ** Actions *)
Inductive action :=
| Uninit (p : Place)
| Init (p : Place).
Definition action_place (a : action) : Place := match a with Uninit p | Init p => p end.

Section actions.
Variable place_ty : Place -> PlaceTy.
Variable is_copy : Place -> bool.
Variable mir : Body.
Variable move_out_copy_types : bool.

Definition operand_actions (operand : Operand) : list action :=
  match operand with
  | Move place => if move_out_copy_types || negb (is_copy place) then [Uninit place] else []
  | Copy _ | Constant => []
  end.

Definition statement_actions (s : StatementKind) : list action :=
  match s with
  | Assign target source =>
      match source with
      | Repeat operand | Cast operand | UnaryOp operand | Use operand => operand_actions operand
      | BinaryOp operand1 operand2 | CheckedBinaryOp operand1 operand2 =>
          operand_actions operand1 ++ operand_actions operand2
      | Aggregate operands => operands ≫= operand_actions
      | Ref _ _ | RvalueOther => []
      end ++ [Init target]
  | StorageDead l => [Uninit (place_of_local l)]
  | StorageLive _ | StatementOther => []
  end.

Definition terminator_actions (t : TerminatorKind) : list action :=
  match t with
  | SwitchInt discr => operand_actions discr
  | Drop place _ _ => [Uninit place]
  | DropAndReplace place value _ _ => Uninit place :: operand_actions value ++ [Init place]
  | Call func args destination target _ =>
      (args ≫= operand_actions) ++ operand_actions func ++
      match target with Some _ => [Init destination] | None => [] end
  | Assert cond _ _ => operand_actions cond
  | Yield value _ _ => operand_actions value
  | InlineAsm | TerminatorOther => []
  end.

(** The blocks where execution continues, and those it unwinds to. *)
Definition normal_targets (t : Terminator) : list BasicBlock :=
  match kind t with
  | Drop _ target _ | DropAndReplace _ _ target _ | Assert _ target _ => [target]
  | Yield _ resume _ => [resume]
  | Call _ _ _ target _ => option_list target
  | SwitchInt _ | TerminatorOther => term_successors t
  | InlineAsm => []
  end.
Definition unwind_targets (t : Terminator) : list BasicBlock :=
  match kind t with
  | Drop _ _ unwind | DropAndReplace _ _ _ unwind | Assert _ _ unwind | Yield _ _ unwind
  | Call _ _ _ _ unwind => option_list unwind
  | SwitchInt _ | TerminatorOther | InlineAsm => []
  end.

Definition run_action (a : action) (s : DefinitelyInitializedState) : AnalysisResult DefinitelyInitializedState :=
  match a with
  | Uninit p => set_place_uninitialised place_ty p s
  | Init p => set_place_initialised place_ty p s
  end.
Definition run_actions (acts : list action) (s : DefinitelyInitializedState) :
    AnalysisResult DefinitelyInitializedState :=
  foldl (fun s a => s ← s; run_action a s) (Ok s) acts.

Lemma run_actions_cons a acts s : run_actions (a :: acts) s = (s ← run_action a s; run_actions acts s).
Proof.
  unfold run_actions. simpl. destruct (run_action a s) as [s'| |]; simpl; [done| |];
    by induction acts.
Qed.

Lemma run_actions_app acts acts' s : run_actions (acts ++ acts') s = (s ← run_actions acts s; run_actions acts' s).
Proof.
  revert s. induction acts as [|a acts IH]; intros s; [done|]. rewrite <- app_comm_cons, !run_actions_cons.
  destruct (run_action a s); simpl; [apply IH|done..].
Qed.

Lemma run_actions_one a s : run_actions [a] s = run_action a s.
Proof. rewrite run_actions_cons. by destruct (run_action a s). Qed.

Lemma operand_effect_actions operand s :
  apply_operand_effect place_ty is_copy move_out_copy_types operand s = run_actions (operand_actions operand) s.
Proof.
  destruct operand as [p|p|]; simpl; [done| |done].
  destruct move_out_copy_types; simpl; [|destruct (is_copy p); simpl]; try done;
    by destruct (set_place_uninitialised place_ty p s).
Qed.

Lemma operands_effect_actions operands s :
  apply_operands_effect place_ty is_copy move_out_copy_types operands s = run_actions (operands ≫= operand_actions) s.
Proof.
  unfold apply_operands_effect. revert s. induction operands as [|o os IH]; intros s; [done|].
  cbn [foldl]. rewrite bind_cons, run_actions_app, <- operand_effect_actions. simpl.
  destruct (apply_operand_effect _ _ _ o s) as [s'| |]; simpl; [apply IH| |];
    clear IH; by induction os.
Qed.

Lemma statement_effect_actions s loc :
  init_statement_effect place_ty is_copy mir move_out_copy_types s loc =
    (stmt ← stmt_at mir loc; run_actions (statement_actions stmt) s).
Proof.
  unfold init_statement_effect. destruct (stmt_at mir loc) as [stmt| |]; simpl; [|done..].
  destruct stmt as [target source|l|l|]; [|done|done|done].
  cbn [statement_actions]. rewrite run_actions_app.
  match goal with |- mbind _ ?m = mbind _ ?m' => assert (m = m') as -> end.
  - destruct source as [op|op|op|op|op1 op2|op1 op2|ops| |];
      rewrite ?operand_effect_actions, ?operands_effect_actions, ?run_actions_app; try done;
      destruct (run_actions (operand_actions op1) s); simpl; try done; apply operand_effect_actions.
  - match goal with |- mbind _ ?m = _ => destruct m end; simpl; [by rewrite run_actions_one|done..].
Qed.

Lemma terminator_effect_actions s loc t : term_at mir (block loc) = Ok t -> kind t <> InlineAsm ->
  init_terminator_effect place_ty is_copy mir move_out_copy_types s loc =
    (s' ← run_actions (terminator_actions (kind t)) s;
     Ok (to_blocks (normal_targets t) s' ++ to_blocks (unwind_targets t) init_new_top)).
Proof.
  intros Ht Hk. unfold init_terminator_effect, normal_targets, unwind_targets.
  rewrite Ht. simpl. destruct (kind t) as [d|p x u|p v x u|f args d x u|c x u|v x u| |]; cbn [terminator_actions].
  - rewrite operand_effect_actions. destruct (run_actions _ s); simpl; [by rewrite app_nil_r|done..].
  - rewrite run_actions_one. simpl. by destruct (set_place_uninitialised place_ty p s).
  - rewrite run_actions_cons. simpl. destruct (set_place_uninitialised place_ty p s) as [s1| |]; simpl; try done.
    rewrite run_actions_app, operand_effect_actions. destruct (run_actions _ s1) as [s2| |]; simpl; try done.
  - rewrite !run_actions_app, operands_effect_actions. destruct (run_actions _ s) as [s1| |]; simpl; try done.
    rewrite operand_effect_actions, run_actions_app. destruct (run_actions (operand_actions f) s1) as [s2| |]; simpl; try done.
    destruct x as [x|]; simpl; [|done]. rewrite run_actions_one. simpl.
    by destruct (set_place_initialised place_ty d s2).
  - rewrite operand_effect_actions. by destruct (run_actions _ s).
  - rewrite operand_effect_actions. by destruct (run_actions _ s).
  - done.
  - simpl. by rewrite app_nil_r.
Qed.
(** ** The places of a body

    A finite set of well-typed places that is closed under prefixes and sibling
    fields and holds the locals and the places the body moves, drops and assigns. *)
Abbreviation A := (DefinitelyInitializedAnalysis place_ty is_copy mir move_out_copy_types).
Abbreviation g := (cfg_of mir).

Record body_places (U : gset Place) : Prop := {
  places_wf : wf_places place_ty U;
  places_locals l : l < local_decls mir -> place_of_local l ∈ U;
  places_statement loc s a : stmt_at mir loc = Ok s -> a ∈ statement_actions s -> action_place a ∈ U;
  places_terminator bb t a : term_at mir bb = Ok t -> a ∈ terminator_actions (kind t) -> action_place a ∈ U;
}.

Section valid.
Variable U : gset Place.
Hypothesis U_places : body_places U.
Hypothesis mir_wf : wf_body mir.
Hypothesis no_asm : forall bb t, term_at mir bb = Ok t -> kind t <> InlineAsm.
Let U_wf := places_wf U U_places.
Abbreviation valid := (init_valid place_ty U) (only parsing).

Definition init_le (s t : DefinitelyInitializedState) : Prop := forall q, covers t q -> covers s q.
Definition covered (s : DefinitelyInitializedState) : gset Place := filter (covers s) U.
Definition init_height (s : DefinitelyInitializedState) : nat := size U - size (covered s).

Lemma run_action_valid a s : valid s -> action_place a ∈ U -> exists s', run_action a s = Ok s' /\ valid s'.
Proof.
  intros Hs Ha. destruct a as [p|p]; simpl in *.
  - destruct (set_place_uninitialised_spec place_ty U U_wf p s) as (s' & ? & ? & _); eauto.
  - destruct (set_place_initialised_spec place_ty U U_wf p s) as (s' & ? & ? & _); eauto.
Qed.

Lemma run_actions_valid acts s : valid s -> (forall a, a ∈ acts -> action_place a ∈ U) ->
  exists s', run_actions acts s = Ok s' /\ valid s'.
Proof.
  revert s. induction acts as [|a acts IH]; intros s Hs Ha; [by exists s|]. rewrite run_actions_cons.
  destruct (run_action_valid a s) as (s1 & -> & Hs1); [done|apply Ha; set_solver|]. simpl.
  apply IH; [done|]. set_solver.
Qed.

Lemma run_action_mono a s t s' t' : valid s -> valid t -> action_place a ∈ U -> init_le s t ->
  run_action a s = Ok s' -> run_action a t = Ok t' -> init_le s' t'.
Proof.
  intros Hs Ht Ha Hle Hs' Ht' q. destruct a as [p|p]; simpl in *.
  - destruct (set_place_uninitialised_spec place_ty U U_wf p s) as (s1 & Hs1 & _ & HS); [done..|].
    destruct (set_place_uninitialised_spec place_ty U U_wf p t) as (t1 & Ht1 & [_ Hv] & HT); [done..|].
    assert (s1 = s') as -> by congruence. assert (t1 = t') as -> by congruence.
    intros (o & Ho & Hq). eapply covers_down; [|exact Hq].
    pose proof (places_typed _ _ U_wf o (Hv o Ho)) as Hw.
    destruct (places_compatible _ _ U_wf o p (Hv o Ho) Ha) as [Hov|Hd].
    + apply HT in Ho. by destruct (remains_apart _ _ _ _ Ho).
    + eapply (differ_keeps place_ty p s s' o HS Hw); [|done]. apply Hle.
      apply HT in Ho. by eapply remains_covered.
  - destruct (set_place_initialised_spec place_ty U U_wf p s) as (s1 & Hs1 & _ & HS); [done..|].
    destruct (set_place_initialised_spec place_ty U U_wf p t) as (t1 & Ht1 & _ & HT); [done..|].
    assert (s1 = s') as -> by congruence. assert (t1 = t') as -> by congruence.
    rewrite HS, HT. apply filled_idem. intros o [Ho| ->]; [|by apply filled_base; right].
    apply (filled_mono place_ty (fun p => p ∈ s)); [by left|]. apply filled_covers, Hle.
    exists o. by split.
Qed.

Lemma run_actions_mono acts s t s' t' : valid s -> valid t -> (forall a, a ∈ acts -> action_place a ∈ U) ->
  init_le s t -> run_actions acts s = Ok s' -> run_actions acts t = Ok t' -> init_le s' t'.
Proof.
  revert s t. induction acts as [|a acts IH]; intros s t Hs Ht Ha Hle; [by intros [= <-] [= <-]|].
  rewrite !run_actions_cons. assert (action_place a ∈ U) as Hau by (apply Ha; set_solver).
  destruct (run_action_valid a s) as (s1 & Hs1 & Hv1), (run_action_valid a t) as (t1 & Ht1 & Hv2); [done..|].
  rewrite Hs1, Ht1. simpl. apply IH; [done..|set_solver|]. by apply (run_action_mono a s t).
Qed.

Lemma init_valid_locals ls : (forall l, l ∈ ls -> l < local_decls mir) ->
  valid (list_to_set (place_of_local <$> ls)).
Proof.
  intros Hl. split; [apply normal_locals|].
  intros p (l & -> & Hin)%elem_of_list_to_set%list_elem_of_fmap. by apply (places_locals U U_places), Hl.
Qed.

Lemma init_join_subset s t : init_join s t ⊆ s ∪ t.
Proof. unfold init_join, propagate_places. set_solver. Qed.

Lemma covered_le s t : init_le s t -> covered t ⊆ covered s.
Proof. intros Hle p. unfold covered. rewrite !elem_of_filter. intros [Hc Hp]. split; [by apply Hle|done]. Qed.

Lemma init_height_strict s t : valid s -> valid t -> init_le s t -> s <> t -> init_height s < init_height t.
Proof.
  intros [Hs Hsu] [Ht Htu] Hle Hne. unfold init_height.
  assert (size (covered t) < size (covered s)) as Hlt.
  { apply subset_size. split; [by apply covered_le|]. intros Hge. apply Hne, antichain_ext; [apply Hs|apply Ht|].
    intros q. split; [|apply Hle]. intros (p & Hp & Hq). eapply covers_down; [|exact Hq].
    assert (p ∈ covered t) as [Hc _]%elem_of_filter; [|done]. apply Hge. unfold covered. apply elem_of_filter.
    split; [exists p; split; [done|reflexivity]|by apply Hsu]. }
  assert (size (covered s) <= size U) by (apply subseteq_size; unfold covered; set_solver). lia.
Qed.

Lemma term_targets_successors bb t x : term_at mir bb = Ok t ->
  x ∈ normal_targets t ++ unwind_targets t <-> x ∈ term_successors t.
Proof.
  intros Ht. pose proof (wf_targets mir mir_wf bb t) as Hw. pose proof (no_asm bb t Ht) as Hasm.
  unfold normal_targets, unwind_targets. destruct (kind t) as [d|p y u|p v y u|f args d y u|c y u|v y u| |]; try done;
    try (by rewrite app_nil_r); by rewrite (Hw _ Ht eq_refl).
Qed.

#[export] Instance init_monotone :
  Monotone A g init_le (init_valid place_ty U) init_height (size U).
Proof.
  constructor; simpl.
  - split; [intros s q; done|intros s t u Hst Htu q Hq; by apply Hst, Htu].
  - done.
  - intros bb. pose proof (wf_args mir mir_wf). unfold block_start. case_match; apply init_valid_locals.
    + intros l Hl%elem_of_seq. lia.
    + intros l Hl%elem_of_seq. lia.
  - intros s t [Hs Hsu] [Ht Htu]. split; [by apply normal_join|]. etrans; [apply init_join_subset|]. set_solver.
  - intros s t _ _ q Hq%covers_join. naive_solver.
  - intros s t _ _ q Hq%covers_join. naive_solver.
  - intros s t u _ _ Hs Ht q Hq. apply covers_join. auto.
  - intros s t. apply init_height_strict.
  - intros s _. unfold init_height. lia.
  - intros s loc Hs Hb Hi. rewrite statement_effect_actions.
    destruct (stmt_at_in mir loc) as [stmt Hstmt]; [by split|]. rewrite Hstmt. simpl.
    apply run_actions_valid; [done|]. intros a. by eapply places_statement.
  - intros s t loc s' t' Hs Ht Hle. rewrite !statement_effect_actions.
    destruct (stmt_at mir loc) as [stmt| |] eqn:Hstmt; simpl; try done.
    apply run_actions_mono; [done..| |done]. intros a. by eapply places_statement.
  - intros s bb Hs Hbb. destruct (term_at_in mir bb Hbb) as (t & Ht & Hsucc). simpl in Hsucc.
    rewrite (terminator_effect_actions s (terminator_loc g bb) t Ht (no_asm bb t Ht)), Hsucc.
    destruct (run_actions_valid (terminator_actions (kind t)) s) as (s' & -> & Hs');
      [done|by intros a; eapply places_terminator|]. simpl.
    eexists. split_and!; [done| |].
    + apply Forall_app. split; apply (to_blocks_Forall (init_valid place_ty U)); [done|].
      split; [|done]. apply (normal_locals place_ty []).
    + intros x. rewrite fmap_app, !to_blocks_fst. by apply (term_targets_successors bb).
  - intros s t loc ss ts Hs Ht Hle.
    destruct (term_at mir (block loc)) as [term| |] eqn:Hterm;
      [|unfold init_terminator_effect; by rewrite Hterm..].
    rewrite !(terminator_effect_actions _ loc term Hterm (no_asm _ _ Hterm)).
    assert (forall a, a ∈ terminator_actions (kind term) -> action_place a ∈ U) as Ha
      by (intros a; by apply (places_terminator U U_places (block loc) term)).
    destruct (run_actions_valid (terminator_actions (kind term)) s) as (s' & Hs' & _); [done..|].
    destruct (run_actions_valid (terminator_actions (kind term)) t) as (t' & Ht' & _); [done..|].
    rewrite Hs', Ht'. simpl. intros [= <-] [= <-].
    apply Forall2_app; apply (to_blocks_le init_le); [by eapply (run_actions_mono _ s t)|by intros q].
Qed.
(** ** Soundness

    What is initialized along a path: an action removes what overlaps a place, or
    adds a place and what it fills. Nothing is known after unwinding. *)
Definition act (I : Place -> Prop) (a : action) : Place -> Prop :=
  match a with
  | Uninit x => fun q => I q /\ ~ overlap q x
  | Init x => filled place_ty (fun p => I p \/ p = x)
  end.

Inductive path_state : Location -> (Place -> Prop) -> Prop :=
| path_start : path_state (start_of START_BLOCK) (fun q => local q ∈ args_iter mir)
| path_statement loc s I : path_state loc I -> stmt_at mir loc = Ok s ->
    path_state (next_location loc) (foldl act I (statement_actions s))
| path_normal bb t x I : path_state (terminator_loc g bb) I -> term_at mir bb = Ok t -> x ∈ normal_targets t ->
    path_state (start_of x) (foldl act I (terminator_actions (kind t)))
| path_unwind bb t x I I' : path_state (terminator_loc g bb) I -> term_at mir bb = Ok t -> x ∈ unwind_targets t ->
    path_state (start_of x) I'.

Definition holds (s : DefinitelyInitializedState) (I : Place -> Prop) : Prop := forall q, covers s q -> I q.

Lemma act_holds a s s' I : valid s -> action_place a ∈ U -> holds s I -> run_action a s = Ok s' -> holds s' (act I a).
Proof.
  intros Hs Ha Hh Hr q. destruct a as [x|x]; simpl in *.
  - destruct (set_place_uninitialised_spec place_ty U U_wf x s) as (s1 & Hs1 & _ & HS); [done..|].
    assert (s1 = s') as -> by congruence. intros Hq.
    destruct (remains_covers_sound place_ty x s s' q HS Hq). auto.
  - destruct (set_place_initialised_spec place_ty U U_wf x s) as (s1 & Hs1 & _ & HS); [done..|].
    assert (s1 = s') as -> by congruence. rewrite HS. apply filled_mono.
    intros p [Hp| ->]; [left; apply Hh; by exists p|by right].
Qed.

Lemma acts_hold acts s s' I : valid s -> (forall a, a ∈ acts -> action_place a ∈ U) -> holds s I ->
  run_actions acts s = Ok s' -> holds s' (foldl act I acts).
Proof.
  revert s I. induction acts as [|a acts IH]; intros s I Hs Ha Hh; [by intros [= <-]|].
  rewrite run_actions_cons. assert (action_place a ∈ U) as Hau by (apply Ha; set_solver).
  destruct (run_action_valid a s) as (s1 & Hs1 & Hv1); [done..|]. rewrite Hs1. simpl.
  apply IH; [done|set_solver|]. by apply (act_holds a s).
Qed.

Lemma holds_join_l s t I : holds s I -> holds (join A s t) I.
Proof. intros Hs q Hq. apply (covers_join s t) in Hq as [Hq _]. by apply Hs. Qed.
Lemma holds_join_r s t I : holds t I -> holds (join A s t) I.
Proof. intros Ht q Hq. apply (covers_join s t) in Hq as [_ Hq]. by apply Ht. Qed.

Lemma path_recorded p loc I : consistent A g p [] ->
  (forall l s, in_body g l -> lookup_before p l = Some s -> valid s) -> 0 < num_blocks g ->
  path_state loc I -> in_body g loc /\ exists s, lookup_before p loc = Some s /\ holds s I.
Proof.
  intros Hp Hv Hne. pose proof (settled_statement A g p Hp) as Hstmt.
  pose proof (settled_edge A g (wf_body_cfg mir mir_wf) holds holds_join_l holds_join_r p Hp) as Hedge.
  assert (forall bb t x s s' I', term_at mir bb = Ok t -> lookup_before p (terminator_loc g bb) = Some s ->
    (forall next, init_terminator_effect place_ty is_copy mir move_out_copy_types s (terminator_loc g bb) = Ok next ->
       (x, s') ∈ next) -> x ∈ normal_targets t ++ unwind_targets t -> holds s' I' ->
    in_body g (start_of x) /\ exists s, lookup_before p (start_of x) = Some s /\ holds s I') as Hgo.
  { intros bb t x s s' I' Ht Hs Hn Hx Hh. pose proof (term_at_range _ _ _ Ht) as Hbb.
    destruct (Hedge bb s Hbb Hs) as (next & Hnext & He). split; [|by eapply He; [apply Hn|]].
    split; [|apply Nat.le_0_l]. eapply (successors_in _ (wf_body_cfg mir mir_wf) bb); [done|].
    destruct (term_at_in mir bb Hbb) as (t' & Ht' & ->). assert (t' = t) as -> by congruence.
    by apply (term_targets_successors bb). }
  assert (forall bb t s, term_at mir bb = Ok t -> valid s -> exists s',
    run_actions (terminator_actions (kind t)) s = Ok s') as Hrun.
  { intros bb t s Ht Hs. destruct (run_actions_valid (terminator_actions (kind t)) s) as (s' & ? & _);
      [done|by intros a; apply (places_terminator U U_places bb t)|eauto]. }
  induction 1 as [|loc stmt I _ (Hin & s & Hs & Hh) Hat|bb t x I _ (Hin & s & Hs & Hh) Ht Hx
    |bb t x I I' _ (Hin & s & Hs & Hh) Ht Hx].
  - split; [split; [done|apply Nat.le_0_l]|].
    apply (holds_at_start A g holds holds_join_l holds_join_r p Hp); [done|].
    intros q (o & (l & -> & Hl)%elem_of_list_to_set%list_elem_of_fmap & rest & Hq & _). simpl in *. by rewrite Hq.
  - pose proof (stmt_at_range _ _ _ Hat) as Hr. destruct (Hstmt loc s Hr Hs) as (s' & Ha & Hs').
    split; [split; [apply Hr|apply Hr]|]. exists s'. split; [done|].
    simpl in Ha. rewrite statement_effect_actions, Hat in Ha. simpl in Ha.
    eapply acts_hold; [by eapply Hv| |done|done]. intros a. by apply (places_statement U U_places loc stmt).
  - destruct (Hrun bb t s Ht) as [s' Hs']; [by eapply Hv|].
    apply (Hgo bb t x s s'); [done|done| |set_solver|].
    + intros next. rewrite (terminator_effect_actions s (terminator_loc g bb) t Ht (no_asm bb t Ht)), Hs'. simpl.
      intros [= <-]. rewrite elem_of_app, !elem_of_to_blocks. by left.
    + eapply acts_hold; [by eapply Hv| |done|done]. intros a. by apply (places_terminator U U_places bb t).
  - destruct (Hrun bb t s Ht) as [s' Hs']; [by eapply Hv|].
    apply (Hgo bb t x s ∅); [done|done| |set_solver|].
    + intros next. rewrite (terminator_effect_actions s (terminator_loc g bb) t Ht (no_asm bb t Ht)), Hs'. simpl.
      intros [= <-]. rewrite elem_of_app, !elem_of_to_blocks. by right.
    + intros q (o & Ho & _). set_solver.
Qed.

Lemma initialized_run fuel : 0 < num_blocks g -> num_blocks g + num_edges g * S (size U) < fuel ->
  exists p, run_fwd_analysis A g fuel = Some (Ok p) /\ consistent A g p [] /\
    (forall loc, in_body g loc -> exists s, lookup_before p loc = Some s /\ valid s /\
       forall I, path_state loc I -> holds s I) /\
    (forall bb x, bb < num_blocks g -> x ∈ successors g bb -> exists s, edge p bb x = Some (Some s) /\ valid s).
Proof.
  intros Hne Hfuel. pose proof (wf_body_cfg mir mir_wf) as Hg.
  destruct (engine_returns A g init_le (init_valid place_ty U) init_height (size U) Hg fuel Hfuel)
    as (p & Hr & _). exists p.
  pose proof (consistent_result A g (fun _ => eq_refl) Hg fuel p Hr) as Hc.
  pose proof (valid_closed A g init_le (init_valid place_ty U) init_height (size U)) as Hvc.
  assert (forall l s, in_body g l -> lookup_before p l = Some s -> valid s) as Hv.
  { intros l s Hl Hs. by eapply (recorded_satisfy A g (fun _ => eq_refl) Hg _ Hvc). }
  split_and!; [done..| |].
  - intros loc Hloc. destruct (settled_in_body A g p Hc loc Hloc) as [s Hs]. exists s.
    split_and!; [done|by apply (Hv loc)|]. intros I Hp.
    destruct (path_recorded p loc I Hc Hv Hne Hp) as (_ & s' & Hs' & Hh).
    by assert (s' = s) as -> by congruence.
  - intros bb x Hbb Hx. by eapply (recorded_edges_satisfy A g (fun _ => eq_refl) Hg _ Hvc).
Qed.

End valid.
End actions.

(** A field of a pair is moved out and assigned again before the pair is dropped. *)
Module init_witness.
Definition v (l : Local) : Place := place_of_local l.
Definition f0 : Place := mk_place_field (v 1) 0 10.
Definition f1 : Place := mk_place_field (v 1) 1 11.

Definition pair_ty (p : Place) : PlaceTy :=
  {| ty_kind := if decide (p = v 1) then Tuple [10; 11] else TyOther; variant_index := None |}.

Definition pair_body : Body := {|
  basic_blocks := [
    {| statements := [Assign (v 1) (Aggregate [Constant; Constant]); Assign (v 2) (Use (Move f0));
                      Assign f0 (Use Constant)];
       terminator := {| kind := TerminatorOther; term_successors := [1] |} |};
    {| statements := []; terminator := {| kind := Drop (v 1) 2 (Some 3); term_successors := [2; 3] |} |};
    {| statements := []; terminator := {| kind := TerminatorOther; term_successors := [] |} |};
    {| statements := []; terminator := {| kind := TerminatorOther; term_successors := [] |} |}];
  local_decls := 3;
  arg_count := 0;
  predecessors_of_block bb := match bb with 1 => [0] | 2 | 3 => [1] | _ => [] end;
|}.

Definition pair_places : gset Place := {[v 0; v 1; v 2; f0; f1]}.

Lemma pair_places_cases p : p ∈ pair_places -> projection p = [] \/ p = f0 \/ p = f1.
Proof. unfold pair_places. set_unfold. intros Hp. decompose [or] Hp; subst; auto. Qed.

Lemma pair_child r e p : p ∈ pair_places -> extends p (child r e) -> r = v 1 /\ (p = f0 \/ p = f1) /\ p = child r e.
Proof.
  intros Hp (rest & Hl & Hproj). simpl in *. rewrite <- app_assoc in Hproj.
  destruct (pair_places_cases p Hp) as [Hn|[->| ->]].
  - rewrite Hn in Hproj. by destruct (projection r).
  - destruct r as [lr [|? [|? ?]]]; simpl in *; simplify_eq/=; auto.
  - destruct r as [lr [|? [|? ?]]]; simpl in *; simplify_eq/=; auto.
Qed.

Lemma pair_places_wf : wf_places pair_ty pair_places.
Proof.
  constructor.
  - intros p Hp es i ty rest Hproj.
    destruct (pair_child {| local := local p; projection := es |} (Field i ty) p Hp) as (-> & Hor & Heq).
    { exists rest. split; [done|]. simpl. by rewrite <- app_assoc. }
    exists [10; 11]. split; [by vm_compute|]. destruct Hor; subst; unfold f0, f1, mk_place_field in *;
      apply child_inj in Heq as [_ [= <- <-]]; done.
  - intros p q Hp Hq. unfold pair_places in *. set_unfold.
    assert (differ_in_field f0 f1 /\ differ_in_field f1 f0) as [H01 H10].
    { split; [exists (v 1), 0, 10, 1, 11|exists (v 1), 1, 11, 0, 10]; split_and!; try done; reflexivity. }
    decompose [or] Hp; decompose [or] Hq; subst; unfold compatible, overlap, apart;
      try (right; left; done); try (left; left; reflexivity); auto;
      try (left; left; apply extends_child); try (left; right; apply extends_child).
  - intros p q Hp (rest & Hl & Hproj). destruct (pair_places_cases p Hp) as [Hn|Hor].
    + rewrite Hn in Hproj. symmetry in Hproj. apply app_eq_nil in Hproj as [Hq _].
      assert (q = p) as ->; [|done]. destruct p, q; simpl in *. congruence.
    + destruct q as [lq [|e [|]]]; simpl in *; destruct Hor; subst; simpl in *; simplify_eq/=;
        unfold pair_places; set_solver.
  - intros p r e o Hp He (j & ty' & tys & i & ty & -> & Ht & Hi & _ & ->).
    destruct (pair_child r _ p Hp He) as (-> & _ & _). vm_compute in Ht. simplify_eq.
    destruct i as [|[|i]]; simpl in *; simplify_eq; unfold pair_places, f0, f1, mk_place_field; set_solver.
Qed.

Lemma pair_body_places : body_places pair_ty (fun _ => false) pair_body true pair_places.
Proof.
  constructor.
  - apply pair_places_wf.
  - simpl. intros [|[|[|l]]] Hl; [..|lia]; unfold pair_places, v; set_solver.
  - intros loc s a Hs%stmt_at_elem Ha. simpl in Hs. set_unfold.
    decompose [or] Hs; subst; simpl in Ha; set_unfold; decompose [or] Ha; subst; unfold pair_places; set_solver.
  - intros bb t a (data & Hd & ->)%term_at_data Ha. apply list_elem_of_lookup_2 in Hd. simpl in Hd. set_unfold.
    decompose [or] Hd; subst; simpl in Ha; set_unfold; try done. subst. unfold pair_places. set_solver.
Qed.

Lemma pair_body_no_asm bb t : term_at pair_body bb = Ok t -> kind t <> InlineAsm.
Proof.
  intros (data & Hd & ->)%term_at_data. apply list_elem_of_lookup_2 in Hd. simpl in Hd. set_unfold.
  by decompose [or] Hd; subst.
Qed.

(** Removing one field leaves the other; the pair comes back with the field. *)
Lemma initialized_state_operations_witness :
  exists s', set_place_uninitialised pair_ty f0 {[v 1]} = Ok s' /\ init_valid pair_ty pair_places s'.
Proof.
  assert (init_valid pair_ty pair_places (list_to_set (place_of_local <$> [1]))) as Hv.
  { split; [apply normal_locals|]. unfold pair_places, v. set_solver. }
  assert (f0 ∈ pair_places) as Hf by (unfold pair_places; set_solver).
  destruct (initialized_state_operations pair_ty pair_places pair_places_wf f0 _ _ Hv Hv Hf)
    as (_ & (s' & Hs & Hv' & _) & _).
  exists s'. split; [|exact Hv']. rewrite <- Hs. reflexivity.
Defined.

Lemma remove_place_from_set_exact_witness :
  exists S', remove_place_from_set pair_ty f0 {[v 1]} = Ok S' /\ antichain S'.
Proof.
  destruct (remove_place_from_set_exact pair_ty f0 {[v 1]}) as (S' & HS & _ & _ & Ha).
  - apply (places_typed _ _ pair_places_wf). unfold pair_places. set_solver.
  - exists S'. split; [exact HS|]. apply Ha. intros p q Hp Hq Hs. set_solver.
Defined.

End init_witness.
