(* ===== verification/FlowAccess.v ===== *)
(** * Borrowed, accessible and framed places

    [analysis/src/domains/maybe_borrowed], [definitely_accessible] and [framing]:
    from the facts of the borrow checker the places blocked or frozen by a loan,
    from these and the initialized places those that can be accessed or are
    owned, and of those the ones that survive a statement. The facts, the live
    variables and the places a statement visits come from the compiler. *)
From S2P Require Import Prelude FlowEngine FlowFix FlowTerm Mir FlowPlaces FlowInit.

(** ** Pointwise states that are filled in at once *)
Definition PointwiseState_default {S} (default_state : S) (b : Body) : PointwiseState S := {|
  state_before := list_to_map ((fun l => (l, default_state)) <$> all_locations b);
  state_after_block := list_to_map ((fun bb =>
    (bb, list_to_map ((fun successor => (successor, default_state)) <$> successors (cfg_of b) bb)))
      <$> seq 0 (num_blocks (cfg_of b)));
|}.

(** ** Loans *)
Abbreviation Loan := nat.
Inductive RichLocation := Start (l : Location) | Mid (l : Location).

Record BorrowckFacts := {
  loan_issued_at : list (Loan * RichLocation);
  loan_live_at : list (RichLocation * list Loan);
  var_live_on_entry : gmap Location (gset Local);
}.

Record MaybeBorrowedState := { maybe_shared_borrowed : gset Place; maybe_mut_borrowed : gset Place }.
#[export] Instance MaybeBorrowedState_eq_dec : EqDecision MaybeBorrowedState.
Proof. solve_decision. Defined.
Definition MaybeBorrowedState_default : MaybeBorrowedState :=
  {| maybe_shared_borrowed := ∅; maybe_mut_borrowed := ∅ |}.

Section borrowed.
Variable body : Body.
Variable facts : BorrowckFacts.

Definition loan_issued_at_location : gmap Loan Location :=
  foldl (fun m '(loan, point) => <[loan := match point with Start loc | Mid loc => loc end]> m) ∅
    (loan_issued_at facts).

Definition borrow_of_loan (loan : Loan) : AnalysisResult (BorrowKind * Place) :=
  loan_location ← unwrap "no entry found for key" (loan_issued_at_location !! loan);
  loan_stmt ← stmt_at body loan_location;
  match loan_stmt with
  | Assign _ (Ref borrow_kind borrowed_place) =>
      match borrow_kind with
      | Shared | Mut => Ok (borrow_kind, get_blocked_place borrowed_place)
      | OtherBorrow => Err (UnsupportedStatement loan_location)
      end
  | _ => Err (UnsupportedStatement loan_location)
  end.

Definition add_loan (state : AnalysisResult MaybeBorrowedState) (loan : Loan) : AnalysisResult MaybeBorrowedState :=
  state ← state;
  '(borrow_kind, blocked_place) ← borrow_of_loan loan;
  Ok (match borrow_kind with
      | Shared => {| maybe_shared_borrowed := {[blocked_place]} ∪ maybe_shared_borrowed state;
                     maybe_mut_borrowed := maybe_mut_borrowed state |}
      | _ => {| maybe_shared_borrowed := maybe_shared_borrowed state;
                maybe_mut_borrowed := {[blocked_place]} ∪ maybe_mut_borrowed state |}
      end).

Definition add_live_loans (p : AnalysisResult (PointwiseState MaybeBorrowedState)) (entry : RichLocation * list Loan) :
    AnalysisResult (PointwiseState MaybeBorrowedState) :=
  p ← p;
  match entry.1 with
  | Start location =>
      state ← unwrap "called `Option::unwrap()` on a `None` value" (lookup_before p location);
      state ← foldl add_loan (Ok state) entry.2;
      Ok (set_before location state p)
  | Mid _ => Ok p
  end.

Definition set_edge (block successor : BasicBlock) (p : AnalysisResult (PointwiseState MaybeBorrowedState)) :
    AnalysisResult (PointwiseState MaybeBorrowedState) :=
  p ← p;
  state ← unwrap "called `Option::unwrap()` on a `None` value" (lookup_before p (start_of successor));
  let map_after_block := lookup_mut_after_block p block in
  state_after ← unwrap "called `Option::unwrap()` on a `None` value" (map_after_block !! successor);
  _ ← assert_that "assertion failed: state_after is the default or the state"
        (bool_decide (state_after = MaybeBorrowedState_default) || bool_decide (state_after = state));
  Ok (set_after_block block (<[successor := state]> map_after_block) p).

Definition set_edges (p : AnalysisResult (PointwiseState MaybeBorrowedState)) :
    AnalysisResult (PointwiseState MaybeBorrowedState) :=
  foldl (fun p block => foldl (fun p successor => set_edge block successor p) p (successors (cfg_of body) block)) p
    (seq 0 (num_blocks (cfg_of body))).

Definition run_borrowed_analysis : AnalysisResult (PointwiseState MaybeBorrowedState) :=
  set_edges (foldl add_live_loans (Ok (PointwiseState_default MaybeBorrowedState_default body)) (loan_live_at facts)).
End borrowed.

(** ** Accessible places *)
Record DefinitelyAccessibleState := { definitely_accessible : gset Place; definitely_owned : gset Place }.

(** The [debug_assert!]s that every owned place is accessible. *)
Definition all_covered (msg : string) (places by_places : gset Place) : AnalysisResult unit :=
  assert_that msg (forallb (fun owned_place =>
    existsb (fun place => bool_decide (place = owned_place) || is_prefix owned_place place) (elements by_places))
    (elements places)).
Definition accessible_check_invariant (s : DefinitelyAccessibleState) : AnalysisResult unit :=
  all_covered "the place is owned but not accessible" (definitely_owned s) (definitely_accessible s).

Section accessible.
Variable place_ty : Place -> PlaceTy.
Variable is_copy : Place -> bool.
(** Whether the type of a local mentions a lifetime. *)
Variable has_lifetimes : Local -> bool.
Variable body : Body.
Variable facts : BorrowckFacts.

Definition remove_places (places : list Place) (set : AnalysisResult (gset Place)) : AnalysisResult (gset Place) :=
  foldl (fun set place => set ← set; remove_place_from_set place_ty place set) set places.

Definition remove_if_expired (live_vars : gset Local) (set : AnalysisResult (gset Place)) (l : Local) :
    AnalysisResult (gset Place) :=
  set ← set;
  let maybe_expired := negb (bool_decide (l ∈ live_vars)) in
  if has_lifetimes l && maybe_expired then remove_place_from_set place_ty (place_of_local l) set else Ok set.

Definition compute_accessible_state (def_init : DefinitelyInitializedState) (borrowed : MaybeBorrowedState)
    (live_vars : gset Local) : AnalysisResult DefinitelyAccessibleState :=
  accessible ← foldl (remove_if_expired live_vars) (Ok def_init) (local_indices body);
  accessible ← remove_places (elements (maybe_mut_borrowed borrowed)) (Ok accessible);
  owned ← remove_places (elements (maybe_shared_borrowed borrowed)) (Ok accessible);
  Ok {| definitely_accessible := accessible; definitely_owned := owned |}.

Definition live_vars_at (location : Location) : gset Local := default ∅ (var_live_on_entry facts !! location).

Definition accessible_before (def_init : PointwiseState DefinitelyInitializedState)
    (borrowed : PointwiseState MaybeBorrowedState) (location : Location) : AnalysisResult DefinitelyAccessibleState :=
  def_init_before ← unwrap "No 'def_init' state before location" (lookup_before def_init location);
  borrowed_before ← unwrap "No 'borrowed' state before location" (lookup_before borrowed location);
  state ← compute_accessible_state def_init_before borrowed_before (live_vars_at location);
  _ ← accessible_check_invariant state;
  Ok state.

Definition accessible_after (def_init : PointwiseState DefinitelyInitializedState)
    (borrowed : PointwiseState MaybeBorrowedState) (block successor : BasicBlock) :
    AnalysisResult DefinitelyAccessibleState :=
  def_init_after_block ← unwrap "No 'def_init' state after block" (lookup_after_block def_init block);
  borrowed_after_block ← unwrap "No 'borrowed' state after block" (lookup_after_block borrowed block);
  def_init_after ← unwrap "No 'def_init' state from block to successor" (def_init_after_block !! successor);
  borrowed_after ← unwrap "No 'borrowed' state from block to successor" (borrowed_after_block !! successor);
  state ← compute_accessible_state def_init_after borrowed_after (live_vars_at (start_of successor));
  _ ← accessible_check_invariant state;
  Ok state.

(** The states of one block, and of all blocks. *)
Definition accessible_block (def_init : PointwiseState DefinitelyInitializedState)
    (borrowed : PointwiseState MaybeBorrowedState)
    (p : AnalysisResult (PointwiseState DefinitelyAccessibleState)) (block : BasicBlock) :
    AnalysisResult (PointwiseState DefinitelyAccessibleState) :=
  p ← foldl (fun p statement_index =>
        p ← p;
        let location := {| block := block; statement_index := statement_index |} in
        state ← accessible_before def_init borrowed location;
        Ok (set_before location state p)) p (seq 0 (S (num_statements (cfg_of body) block)));
  foldl (fun p successor =>
    p ← p;
    state ← accessible_after def_init borrowed block successor;
    Ok (set_after_block block (<[successor := state]> (lookup_mut_after_block p block)) p))
    (Ok p) (successors (cfg_of body) block).

Definition accessible_states (def_init : PointwiseState DefinitelyInitializedState)
    (borrowed : PointwiseState MaybeBorrowedState) : AnalysisResult (PointwiseState DefinitelyAccessibleState) :=
  foldl (accessible_block def_init borrowed)
    (Ok (PointwiseState_default {| definitely_accessible := ∅; definitely_owned := ∅ |} body))
    (seq 0 (num_blocks (cfg_of body))).

(** [new_relaxed]: places of [Copy] types stay initialized when they are moved. *)
Definition run_accessible_analysis (fuel : nat) :
    option (AnalysisResult (PointwiseState DefinitelyAccessibleState)) :=
  def_init ← run_fwd_analysis (DefinitelyInitializedAnalysis place_ty is_copy body false) (cfg_of body) fuel;
  Some (def_init ← def_init;
        borrowed ← run_borrowed_analysis body facts;
        accessible_states def_init borrowed).
End accessible.

(** ** Framing *)
Record FramingState := { framed_accessible : gset Place; framed_owned : gset Place }.

Inductive PlaceContext :=
| MutatingUse
| UniqueBorrowUse
| MoveUse
| NonMutatingUse
| NonUse.

Definition framing_check_invariant (s : FramingState) (acc : DefinitelyAccessibleState) : AnalysisResult unit :=
  _ ← all_covered "the framed place is owned but not accessible" (framed_owned s) (framed_accessible s);
  _ ← all_covered "the place is not accessible, but it is framed as accessible"
        (framed_accessible s) (definitely_accessible acc);
  all_covered "the place is not owned, but it is framed as owned" (framed_owned s) (definitely_owned acc).

Section framing.
Variable place_ty : Place -> PlaceTy.
Variable body : Body.
(** The places of the statement or terminator at a location with their contexts,
    in the order of the compiler's visitor. *)
Variable visited_places : Location -> list (Place * PlaceContext).

Definition visit_place (s : FramingState) (place : Place) (context : PlaceContext) : AnalysisResult FramingState :=
  match context with
  | UniqueBorrowUse => Panic "not yet implemented"
  | MutatingUse | MoveUse =>
      let blocked_place := get_blocked_place place in
      owned ← remove_place_from_set place_ty blocked_place (framed_owned s);
      accessible ← remove_place_from_set place_ty blocked_place (framed_accessible s);
      Ok {| framed_accessible := accessible; framed_owned := owned |}
  | NonMutatingUse =>
      let frozen_place := get_blocked_place place in
      owned ← remove_place_from_set place_ty frozen_place (framed_owned s);
      Ok {| framed_accessible := framed_accessible s; framed_owned := owned |}
  | NonUse => Ok s
  end.

Definition framing_initial (acc : DefinitelyAccessibleState) : FramingState :=
  {| framed_accessible := definitely_accessible acc; framed_owned := definitely_owned acc |}.

Definition framing_before (accessibility : PointwiseState DefinitelyAccessibleState) (location : Location) :
    AnalysisResult FramingState :=
  acc_before ← unwrap "No 'accessibility' state before location" (lookup_before accessibility location);
  state ← foldl (fun s '(place, context) => s ← s; visit_place s place context)
            (Ok (framing_initial acc_before)) (visited_places location);
  _ ← framing_check_invariant state acc_before;
  Ok state.

Definition framing_states (accessibility : PointwiseState DefinitelyAccessibleState) :
    AnalysisResult (PointwiseState FramingState) :=
  foldl (fun p location =>
      p ← p;
      state ← framing_before accessibility location;
      Ok (set_before location state p))
    (Ok (PointwiseState_default {| framed_accessible := ∅; framed_owned := ∅ |} body)) (all_locations body).
End framing.

Section framing_run.
Variable place_ty : Place -> PlaceTy.
Variable is_copy : Place -> bool.
Variable has_lifetimes : Local -> bool.
Variable body : Body.
Variable facts : BorrowckFacts.
Variable visited_places : Location -> list (Place * PlaceContext).

Definition run_framing_analysis (fuel : nat) : option (AnalysisResult (PointwiseState FramingState)) :=
  accessibility ← run_accessible_analysis place_ty is_copy has_lifetimes body facts fuel;
  Some (accessibility ← accessibility;
        framing_states place_ty body visited_places accessibility).
End framing_run.
