(* ===== verification/FlowAccessSound.v ===== *)
(** * Accessible places are initialized and not blocked

    The analyses that combine initialized places with the facts of the borrow
    checker never fail their checks and have an exact meaning: what is accessible
    is initialized on every path, belongs to a local that has not expired and
    overlaps no mutable loan; what is owned overlaps no loan at all. *)
From S2P Require Import Prelude FlowEngine FlowFix FlowTerm Mir FlowPlaces FlowPlaceSets FlowInit FlowInitSound.
From S2P Require Import FlowInitRun FlowAccess.

(** ** Blocked places *)
Lemma get_blocked_place_prefix p : extends p (get_blocked_place p).
Proof.
  assert (forall after before, exists rest, before ++ after = blocked_projection before after ++ rest) as Hb.
  { induction after as [|e after IH]; intros before; simpl; [by exists []; rewrite !app_nil_r|].
    destruct (IH (before ++ [e])) as [rest Hr]. rewrite <- app_assoc in Hr. simpl in Hr.
    destruct e; first [by exists rest|by eexists]. }
  destruct (Hb (projection p) []) as [rest Hr]. by exists rest.
Qed.

Lemma all_covered_Ok msg (A B : gset Place) : all_covered msg A B = Ok tt <-> forall p, p ∈ A -> covers B p.
Proof.
  unfold all_covered, assert_that.
  match goal with |- context [if ?b then _ else _] => assert (b = true <-> forall p, p ∈ A -> covers B p) as Hb end.
  - rewrite forallb_forall. setoid_rewrite <- list_elem_of_In. setoid_rewrite elem_of_elements.
    setoid_rewrite existsb_exists. setoid_rewrite <- list_elem_of_In. setoid_rewrite elem_of_elements.
    unfold covers. apply forall_proper. intros p. split; intros Hp Hin; destruct (Hp Hin) as (q & Hq & Hor).
    + exists q. split; [done|]. apply orb_true_iff in Hor as [->%bool_decide_eq_true|Hor]; [reflexivity|].
      by apply is_prefix_extends.
    + exists q. split; [done|]. apply orb_true_iff. right. by apply is_prefix_extends.
  - destruct (forallb _ _); split; try done; intros Hx; [by apply Hb|]. by apply Hb in Hx.
Qed.

Section removal.
Variable place_ty : Place -> PlaceTy.
Variable U : gset Place.
Hypothesis U_wf : wf_places place_ty U.

(** ** Removal within the places of a body *)
Definition without (S S' : gset Place) (xs : list Place) : Prop :=
  S' ⊆ U /\ forall q, q ∈ U -> covers S' q <-> (covers S q /\ forall x, x ∈ xs -> ~ overlap q x).

Lemma without_nil S : S ⊆ U -> without S S [].
Proof. intros HS. split; [done|]. intros q _. split; [|tauto]. intros Hq. split; [done|]. intros x Hx%elem_of_nil. done. Qed.

Lemma remove_without x S : S ⊆ U -> x ∈ U ->
  exists S', remove_place_from_set place_ty x S = Ok S' /\ without S S' [x].
Proof.
  intros HS Hx. pose proof (places_typed _ _ U_wf x Hx) as Hw.
  destruct (remove_place_from_set_spec place_ty x S Hw) as (S' & Hr & Ho). exists S'. split; [done|]. split.
  - intros o [[? _]|(p & Hp & _ & r & e & _ & Hxr & Hs)]%Ho; [by apply HS|]. by eapply (places_sibling _ _ U_wf x).
  - intros q Hq. setoid_rewrite list_elem_of_singleton. split.
    + intros Hc. destruct (remains_covers_sound place_ty x S S' q Ho Hc) as [? Hn]. split; [done|by intros y ->].
    + intros [Hc Hn]. destruct (places_compatible _ _ U_wf q x Hq Hx) as [Hov|Ha]; [by destruct (Hn x eq_refl)|].
      eapply (differ_keeps place_ty x S S' q Ho); [by apply (places_typed _ _ U_wf)|done|done].
Qed.

Lemma without_app S S1 S2 xs ys : without S S1 xs -> without S1 S2 ys -> without S S2 (xs ++ ys).
Proof.
  intros [H1 Hc1] [H2 Hc2]. split; [done|]. intros q Hq. rewrite (Hc2 q Hq), (Hc1 q Hq).
  setoid_rewrite elem_of_app. naive_solver.
Qed.

Lemma remove_places_without xs S : S ⊆ U -> (forall x, x ∈ xs -> x ∈ U) ->
  exists S', remove_places place_ty xs (Ok S) = Ok S' /\ without S S' xs.
Proof.
  unfold remove_places. revert S. induction xs as [|x xs IH]; intros S HS Hx.
  { exists S. split; [done|by apply without_nil]. }
  destruct (remove_without x S HS (Hx x ltac:(set_solver))) as (S1 & Hr & Hw). cbn [foldl]. simpl. rewrite Hr.
  destruct (IH S1) as (S2 & -> & Hw2); [apply Hw|set_solver|]. exists S2. split; [done|].
  by apply (without_app S S1 S2 [x]).
Qed.

(** Coverage is decided within the places of a body. *)
Lemma covers_within S S' : S ⊆ U -> (forall q, q ∈ U -> covers S q -> covers S' q) -> forall q, covers S q -> covers S' q.
Proof.
  intros HS Hc q (p & Hp & Hq). eapply covers_down; [apply Hc; [by apply HS|]|done].
  exists p. split; [done|reflexivity].
Qed.

Lemma without_covered msg S S' xs : without S S' xs -> all_covered msg S' S = Ok tt.
Proof.
  intros [HS Hc]. apply all_covered_Ok. intros p Hp. apply Hc; [by apply HS|].
  exists p. split; [done|reflexivity].
Qed.

(** ** The state of one location *)
Variable has_lifetimes : Local -> bool.
Variable body : Body.
Hypothesis U_locals : forall l, l < local_decls body -> place_of_local l ∈ U.

Definition expired (live_vars : gset Local) (l : Local) : Prop :=
  has_lifetimes l = true /\ ~ (l ∈ live_vars) /\ l ∈ local_indices body.

Definition accessible_spec (def_init : gset Place) (borrowed : MaybeBorrowedState) (live_vars : gset Local)
    (a : DefinitelyAccessibleState) : Prop :=
  definitely_accessible a ⊆ U /\ definitely_owned a ⊆ U /\
  (forall q, q ∈ U -> covers (definitely_accessible a) q <->
     covers def_init q /\ ~ expired live_vars (local q) /\
     forall x, x ∈ maybe_mut_borrowed borrowed -> ~ overlap q x) /\
  (forall q, q ∈ U -> covers (definitely_owned a) q <->
     covers (definitely_accessible a) q /\ forall x, x ∈ maybe_shared_borrowed borrowed -> ~ overlap q x).

Lemma overlap_local_place q l : overlap q (place_of_local l) <-> local q = l.
Proof.
  split; [intros Ho; by apply overlap_local in Ho|]. intros <-. left. by exists (projection q).
Qed.

Lemma remove_expired live_vars ls S : S ⊆ U -> (forall l, l ∈ ls -> l < local_decls body) ->
  exists S', foldl (remove_if_expired place_ty has_lifetimes live_vars) (Ok S) ls = Ok S' /\
    without S S' (place_of_local <$> filter (fun l => has_lifetimes l = true /\ l ∉ live_vars) ls).
Proof.
  revert S. induction ls as [|l ls IH]; intros S HS Hl.
  { exists S. split; [done|by apply without_nil]. }
  cbn [foldl]. unfold remove_if_expired at 2. simpl. destruct (has_lifetimes l) eqn:Hh; simpl.
  - destruct (bool_decide_reflect (l ∈ live_vars)) as [Hin|Hin]; simpl.
    + rewrite filter_cons_False by tauto. apply IH; [done|set_solver].
    + rewrite filter_cons_True by done. destruct (remove_without (place_of_local l) S HS) as (S1 & -> & Hw);
        [apply U_locals, Hl; set_solver|].
      destruct (IH S1) as (S2 & -> & Hw2); [apply Hw|set_solver|]. exists S2. split; [done|].
      by apply (without_app S S1 S2 [place_of_local l]).
  - rewrite filter_cons_False by (intros [? _]; congruence). apply IH; [done|set_solver].
Qed.

Lemma compute_accessible_state_spec def_init borrowed live_vars :
  def_init ⊆ U -> maybe_mut_borrowed borrowed ⊆ U -> maybe_shared_borrowed borrowed ⊆ U ->
  exists a, compute_accessible_state place_ty has_lifetimes body def_init borrowed live_vars = Ok a /\
    accessible_check_invariant a = Ok tt /\ accessible_spec def_init borrowed live_vars a.
Proof.
  intros Hi Hm Hs. unfold compute_accessible_state.
  destruct (remove_expired live_vars (local_indices body) def_init Hi) as (S1 & -> & Hw1).
  { intros l Hl%elem_of_seq. lia. }
  simpl. destruct (remove_places_without (elements (maybe_mut_borrowed borrowed)) S1) as (S2 & -> & Hw2);
    [apply Hw1|set_solver|].
  simpl. destruct (remove_places_without (elements (maybe_shared_borrowed borrowed)) S2) as (S3 & -> & Hw3);
    [apply Hw2|set_solver|].
  simpl. eexists. split; [done|]. split; [by eapply without_covered|].
  pose proof (without_app _ _ _ _ _ Hw1 Hw2) as Hw. split_and!; simpl; [apply Hw2|apply Hw3| |].
  - intros q Hq. rewrite (proj2 Hw q Hq). apply and_iff_compat_l. setoid_rewrite elem_of_app. unfold expired. split.
    + intros Hall. split.
      * intros (Hh & Hl & Hin). apply (Hall (place_of_local (local q))); [left|by apply overlap_local_place].
        apply list_elem_of_fmap. exists (local q). split; [done|]. by apply list_elem_of_filter.
      * intros x Hx. apply Hall. right. by apply elem_of_elements.
    + intros [He Hx] x [(l & -> & [[? ?] ?]%list_elem_of_filter)%list_elem_of_fmap|Hin%elem_of_elements]; [|by apply Hx].
      intros <-%overlap_local_place. by apply He.
  - intros q Hq. rewrite (proj2 Hw3 q Hq). by setoid_rewrite elem_of_elements.
Qed.
End removal.

(** ** The states of loans *)
Lemma default_before {S} (d : S) b l : in_body (cfg_of b) l ->
  lookup_before (PointwiseState_default d b) l = Some d.
Proof.
  intros Hl. unfold lookup_before, PointwiseState_default. simpl. apply elem_of_list_to_map_1'.
  - intros y Hy. apply list_elem_of_fmap in Hy as (l' & [= -> ->] & _). done.
  - apply list_elem_of_fmap. exists l. split; [done|]. by apply elem_of_all_locations.
Qed.

Lemma default_edge {S} (d : S) b bb x : bb < num_blocks (cfg_of b) -> x ∈ successors (cfg_of b) bb ->
  edge (PointwiseState_default d b) bb x = Some (Some d).
Proof.
  intros Hbb Hx. unfold edge, lookup_after_block, PointwiseState_default. cbn [state_after_block].
  rewrite (elem_of_list_to_map_1' _ bb (list_to_map ((fun x => (x, d)) <$> successors (cfg_of b) bb))).
  - simpl. f_equal. apply elem_of_list_to_map_1'.
    + intros y Hy. apply list_elem_of_fmap in Hy as (? & [= -> ->] & _). done.
    + apply list_elem_of_fmap. by exists x.
  - intros y Hy. apply list_elem_of_fmap in Hy as (? & [= -> ->] & _). done.
  - apply list_elem_of_fmap. exists bb. split; [done|]. apply elem_of_seq. lia.
Qed.

Lemma lookup_set_before {S} (l l' : Location) (s : S) p :
  lookup_before (set_before l s p) l' = if decide (l' = l) then Some s else lookup_before p l'.
Proof.
  unfold lookup_before, set_before. simpl. case_decide as Hl; [subst; by rewrite lookup_insert_eq|].
  by rewrite lookup_insert_ne.
Qed.

Lemma edge_set_after_block {S} bb (m : gmap BasicBlock S) p bb' x :
  edge (set_after_block bb m p) bb' x = if decide (bb' = bb) then Some (m !! x) else edge p bb' x.
Proof.
  unfold edge, lookup_after_block, set_after_block. simpl.
  case_decide as Hb; [subst; by rewrite lookup_insert_eq|by rewrite lookup_insert_ne].
Qed.

(** Nested loops as one loop. *)
Lemma foldl_nested {X Y Z} (f : Z -> X -> Y -> Z) (g : X -> list Y) l z :
  foldl (fun z x => foldl (fun z y => f z x y) z (g x)) z l =
    foldl (fun z p => f z p.1 p.2) z (l ≫= fun x => (fun y => (x, y)) <$> g x).
Proof.
  revert z. induction l as [|x l IH]; intros z; [done|]. rewrite bind_cons, foldl_app, <- IH. simpl. f_equal.
  clear IH. revert z. induction (g x) as [|y ys IH]; intros z; [done|]. simpl. apply IH.
Qed.

Section borrowed_states.
Variable body : Body.
Variable facts : BorrowckFacts.
Abbreviation g := (cfg_of body).

(** Facts of the borrow checker about the body: live loans are reported at its
    locations, and every one was issued by a shared or mutable borrow. *)
Record wf_facts : Prop := {
  facts_location loc loans : (Start loc, loans) ∈ loan_live_at facts -> in_body g loc;
  facts_loan loc loans loan : (Start loc, loans) ∈ loan_live_at facts -> loan ∈ loans ->
    exists k x, borrow_of_loan body facts loan = Ok (k, x);
}.
Hypothesis facts_wf : wf_facts.

(** A place blocked by a loan that is live at a location. *)
Definition blocked_at (loc : Location) (k : BorrowKind) (x : Place) : Prop :=
  exists loans loan, (Start loc, loans) ∈ loan_live_at facts /\ loan ∈ loans /\
    borrow_of_loan body facts loan = Ok (k, x).

Definition borrows_of (s : MaybeBorrowedState) (k : BorrowKind) : gset Place :=
  match k with Shared => maybe_shared_borrowed s | Mut => maybe_mut_borrowed s | OtherBorrow => ∅ end.

Lemma borrow_of_loan_kind loan k x : borrow_of_loan body facts loan = Ok (k, x) -> k = Shared \/ k = Mut.
Proof.
  intros (loc & _ & (stmt & _ & Hs)%bind_Ok_inv)%bind_Ok_inv.
  destruct stmt as [? [| | | | | | |k' p|]| | |]; try done. destruct k'; simplify_eq; auto.
Qed.

Lemma add_loans_spec loans s : (forall loan, loan ∈ loans -> exists k x, borrow_of_loan body facts loan = Ok (k, x)) ->
  exists s', foldl (add_loan body facts) (Ok s) loans = Ok s' /\
    forall k x, x ∈ borrows_of s' k <->
      x ∈ borrows_of s k \/ exists loan, loan ∈ loans /\ borrow_of_loan body facts loan = Ok (k, x).
Proof.
  revert s. induction loans as [|loan loans IH]; intros s Hall.
  { exists s. split; [done|]. intros k x. split; [by left|]. intros [?|(? & Hin & _)]; [done|set_solver]. }
  destruct (Hall loan) as (k & x & Hb); [set_solver|]. cbn [foldl]. unfold add_loan at 2. simpl. rewrite Hb. simpl.
  match goal with |- context [foldl _ (Ok ?s1) _] => destruct (IH s1) as (s' & -> & Hs'); [set_solver|] end.
  exists s'. split; [done|]. intros k' y. rewrite Hs'.
  match goal with |- (y ∈ ?B \/ _) <-> _ => assert (y ∈ B <-> y ∈ borrows_of s k' \/ (k, x) = (k', y)) as -> end.
  { destruct (borrow_of_loan_kind _ _ _ Hb) as [-> | ->], k'; simpl; rewrite ?elem_of_union, ?elem_of_singleton;
      split; (intros [?|?] || intros ?); simplify_eq; auto; by destruct_or?. }
  split.
  - intros [[?|Heq]|(l & Hl & Hbl)]; [by left|right; exists loan|right; exists l]; (split; [set_solver|congruence]).
  - intros [?|(l & [->|Hl]%elem_of_cons & Hbl)]; [by left; left|left; right; congruence|right; by exists l].
Qed.

Lemma live_loans_spec L p :
  (forall loc loans, (Start loc, loans) ∈ L -> (Start loc, loans) ∈ loan_live_at facts) ->
  (forall loc, in_body g loc -> exists s, lookup_before p loc = Some s) ->
  exists p', foldl (add_live_loans body facts) (Ok p) L = Ok p' /\ state_after_block p' = state_after_block p /\
    forall loc s, in_body g loc -> lookup_before p loc = Some s -> exists s', lookup_before p' loc = Some s' /\
      forall k x, x ∈ borrows_of s' k <-> x ∈ borrows_of s k \/
        exists loans loan, (Start loc, loans) ∈ L /\ loan ∈ loans /\ borrow_of_loan body facts loan = Ok (k, x).
Proof.
  revert p. induction L as [|[[loc|loc] loans] L IH]; intros p HL Hp.
  - exists p. split_and!; [done..|]. intros loc s _ Hs. exists s. split; [done|]. intros k x. split; [by left|].
    intros [?|(? & ? & Hin & _)]; [done|set_solver].
  - cbn [foldl]. unfold add_live_loans at 2. simpl.
    assert ((Start loc, loans) ∈ loan_live_at facts) as Hin by (apply HL; set_solver).
    destruct (Hp loc) as [s Hs]; [by eapply facts_location|]. rewrite Hs. simpl.
    destruct (add_loans_spec loans s) as (s1 & -> & Hs1); [intros loan; by eapply facts_loan|]. simpl.
    destruct (IH (set_before loc s1 p)) as (p' & -> & Haft & Hp').
    + intros loc' loans' ?. apply HL. set_solver.
    + intros loc' Hl'. rewrite lookup_set_before. case_decide; [by eexists|by apply Hp].
    + exists p'. split_and!; [done..|]. intros loc' s' Hl' Hs'.
      specialize (Hp' loc'). rewrite lookup_set_before in Hp'. setoid_rewrite elem_of_cons.
      case_decide as Hd; [subst|].
      * destruct (Hp' s1 Hl' eq_refl) as (s2 & Hs2 & Hx). exists s2. split; [done|]. intros k x.
        assert (s' = s) as -> by congruence. rewrite Hx, Hs1. naive_solver.
      * destruct (Hp' s' Hl' Hs') as (s2 & Hs2 & Hx). exists s2. split; [done|]. intros k x. rewrite Hx. naive_solver.
  - cbn [foldl]. unfold add_live_loans at 2. simpl. destruct (IH p) as (p' & -> & Haft & Hp').
    + intros loc' loans' ?. apply HL. set_solver.
    + done.
    + exists p'. split_and!; [done..|]. intros loc' s Hl' Hs.
      destruct (Hp' loc' s Hl' Hs) as (s' & Hs' & Hx). exists s'. split; [done|]. intros k x. rewrite Hx.
      setoid_rewrite elem_of_cons. naive_solver.
Qed.
(** The edges take the state of the block they lead to. *)
Definition edges_list : list (BasicBlock * BasicBlock) :=
  seq 0 (num_blocks g) ≫= fun bb => (fun x => (bb, x)) <$> successors g bb.

Lemma elem_of_edges_list bb x : (bb, x) ∈ edges_list <-> bb < num_blocks g /\ x ∈ successors g bb.
Proof.
  unfold edges_list. rewrite list_elem_of_bind. split.
  - intros (bb' & (x' & [= -> ->] & Hx)%list_elem_of_fmap & Hb%elem_of_seq). split; [lia|done].
  - intros [Hb Hx]. exists bb. rewrite list_elem_of_fmap, elem_of_seq. split; [by exists x|lia].
Qed.

Definition edge_default_or (p : PointwiseState MaybeBorrowedState) (e : BasicBlock * BasicBlock) : Prop :=
  edge p e.1 e.2 = Some (Some MaybeBorrowedState_default) \/ edge p e.1 e.2 = Some (lookup_before p (start_of e.2)).

Lemma set_edges_spec L p :
  (forall e, e ∈ L -> edge_default_or p e) ->
  (forall e, e ∈ L -> exists s, lookup_before p (start_of e.2) = Some s) ->
  exists p', foldl (fun p e => set_edge e.1 e.2 p) (Ok p) L = Ok p' /\ state_before p' = state_before p /\
    (forall e, e ∈ L -> edge p' e.1 e.2 = Some (lookup_before p (start_of e.2))) /\
    forall e, edge p e.1 e.2 = Some (lookup_before p (start_of e.2)) ->
      edge p' e.1 e.2 = Some (lookup_before p (start_of e.2)).
Proof.
  revert p. induction L as [|e L IH]; intros p He Hs.
  { exists p. split_and!; try done. intros e Hin. set_solver. }
  destruct (Hs e) as [s Hse]; [set_solver|].
  assert (exists m, lookup_after_block p e.1 = Some m /\ (m !! e.2 = Some MaybeBorrowedState_default \/ m !! e.2 = Some s))
    as (m & Hm & Hor).
  { destruct (He e) as [Hd|Hd]; [set_solver| |]; unfold edge in Hd; apply fmap_Some in Hd as (m & Hm & Hd);
      exists m; (split; [done|]); [left|right]; congruence. }
  set (p1 := set_after_block e.1 (<[e.2 := s]> m) p).
  assert (forall e', edge p1 e'.1 e'.2 = if decide (e' = e) then Some (Some s) else edge p e'.1 e'.2) as Hedge.
  { intros [b x]. unfold p1. rewrite edge_set_after_block. destruct e as [b' x']; simpl in *.
    destruct (decide (b = b')) as [->|Hb]; [|by rewrite decide_False by congruence].
    destruct (decide (x = x')) as [->|Hx]; [by rewrite lookup_insert_eq, decide_True|].
    rewrite lookup_insert_ne, decide_False by congruence. unfold edge. by rewrite Hm. }
  assert (set_edge e.1 e.2 (Ok p) = Ok p1) as Hset.
  { unfold set_edge. simpl. rewrite Hse. simpl. unfold lookup_mut_after_block. rewrite Hm. simpl.
    destruct Hor as [-> | ->]; simpl; [by rewrite bool_decide_eq_true_2|].
    by rewrite (bool_decide_eq_true_2 (s = s)), orb_true_r. }
  cbn [foldl]. rewrite Hset. destruct (IH p1) as (p' & -> & Hb & Hin & Hkeep).
  - intros e' He'. unfold edge_default_or. rewrite Hedge. change (lookup_before p1) with (lookup_before p).
    case_decide as Hd; [subst; right; by rewrite Hse|]. apply He. set_solver.
  - intros e' He'. apply Hs. set_solver.
  - change (lookup_before p1) with (lookup_before p) in *. exists p'. split_and!; [done..| |].
    + intros e' [->|Hin']%elem_of_cons; [|by apply Hin]. apply Hkeep. by rewrite Hedge, decide_True, Hse.
    + intros e' Hk. apply Hkeep. rewrite Hedge. case_decide as Hd; [|done]. subst. by rewrite Hse.
Qed.

Lemma borrowed_run : wf_cfg g ->
  exists p, run_borrowed_analysis body facts = Ok p /\
    (forall loc, in_body g loc -> exists s, lookup_before p loc = Some s /\
       forall k x, x ∈ borrows_of s k <-> blocked_at loc k x) /\
    (forall bb x, bb < num_blocks g -> x ∈ successors g bb -> edge p bb x = Some (lookup_before p (start_of x))).
Proof.
  intros Hg. unfold run_borrowed_analysis. set (p0 := PointwiseState_default MaybeBorrowedState_default body).
  destruct (live_loans_spec (loan_live_at facts) p0) as (p1 & -> & Haft & Hp1).
  { done. } { intros loc Hloc. eexists. by apply default_before. }
  assert (forall loc, in_body g loc -> exists s, lookup_before p1 loc = Some s /\
    forall k x, x ∈ borrows_of s k <-> blocked_at loc k x) as Hb.
  { intros loc Hloc. destruct (Hp1 loc MaybeBorrowedState_default Hloc) as (s & Hs & Hx); [by apply default_before|].
    exists s. split; [done|]. intros k x. rewrite Hx. split; [intros [Hin|?]; [by destruct k|done]|by right]. }
  assert (forall bb x, (bb, x) ∈ edges_list -> in_body g (start_of x)) as Hin.
  { intros bb x [Hbb Hx]%elem_of_edges_list. split; [by eapply (successors_in g Hg bb)|apply Nat.le_0_l]. }
  unfold set_edges.
  rewrite (foldl_nested (fun p bb x => set_edge bb x p) (successors (cfg_of body)) (seq 0 (num_blocks g)) (Ok p1)).
  destruct (set_edges_spec edges_list p1) as (p2 & Hp2 & Hsb & Hedges & _).
  - intros [bb x] [Hbb Hx]%elem_of_edges_list. left. simpl. unfold edge, lookup_after_block. rewrite Haft.
    by apply default_edge.
  - intros [bb x] Hx. destruct (Hb (start_of x)) as (s & Hs & _); [by eapply Hin|eauto].
  - exists p2. split; [exact Hp2|]. assert (forall l, lookup_before p2 l = lookup_before p1 l) as Hlb.
    { intros l. unfold lookup_before. by rewrite Hsb. }
    split.
    + intros loc Hloc. rewrite Hlb. by apply Hb.
    + intros bb x Hbb Hx. rewrite Hlb. apply (Hedges (bb, x)). by apply elem_of_edges_list.
Qed.
End borrowed_states.

(** ** Filling in pointwise states *)
Lemma fill_befores {I S} (at_index : I -> Location) (f : Location -> AnalysisResult S) L p :
  (forall i, i ∈ L -> exists s, f (at_index i) = Ok s) ->
  exists p', foldl (fun p i => p ← p; s ← f (at_index i); Ok (set_before (at_index i) s p)) (Ok p) L = Ok p' /\
    forall l, ((exists i, i ∈ L /\ l = at_index i) -> exists s, f l = Ok s /\ lookup_before p' l = Some s) /\
      ((forall i, i ∈ L -> l <> at_index i) -> lookup_before p' l = lookup_before p l).
Proof.
  revert p. induction L as [|i L IH]; intros p Hf.
  { exists p. split; [done|]. intros l. split; [intros (? & Hin & _); set_solver|done]. }
  destruct (Hf i) as [s Hs]; [set_solver|]. cbn [foldl]. simpl. rewrite Hs. simpl.
  destruct (IH (set_before (at_index i) s p)) as (p' & Hp' & Hl); [set_solver|]. exists p'. split; [exact Hp'|].
  intros l. destruct (Hl l) as [Hin Hout]. split.
  - intros (j & [->|Hj]%elem_of_cons & ->); [|apply Hin; eauto].
    destruct (decide (Exists (fun j => at_index i = at_index j) L)) as [(j & Hj & Heq)%Exists_exists|Hno].
    + rewrite Heq. rewrite Heq in Hin. apply Hin. eauto.
    + exists s. split; [done|]. rewrite Hout, lookup_set_before, decide_True; [done..|].
      intros j Hj Heq. apply Hno, Exists_exists. eauto.
  - intros Hn. rewrite Hout, lookup_set_before, decide_False; [done|apply Hn; set_solver|set_solver].
Qed.

Lemma fill_edges {S} (f : BasicBlock -> AnalysisResult S) bb L (p : PointwiseState S) :
  (forall x, x ∈ L -> exists s, f x = Ok s) ->
  exists p', foldl (fun p x => p ← p; s ← f x;
      Ok (set_after_block bb (<[x := s]> (lookup_mut_after_block p bb)) p)) (Ok p) L = Ok p' /\
    state_before p' = state_before p.
Proof.
  revert p. induction L as [|x L IH]; intros p Hf; [by exists p|].
  destruct (Hf x) as [s Hs]; [set_solver|]. cbn [foldl]. simpl. rewrite Hs. simpl.
  match goal with |- context [foldl _ (Ok ?q) _] => destruct (IH q) as (p' & Hp' & Hb); [set_solver|] end.
  exists p'. split; [exact Hp'|done].
Qed.

Section accessible_run.
Variable place_ty : Place -> PlaceTy.
Variable is_copy : Place -> bool.
Variable has_lifetimes : Local -> bool.
Variable body : Body.
Variable facts : BorrowckFacts.
Variable U : gset Place.
Hypothesis U_places : body_places place_ty is_copy body false U.
Hypothesis body_wf : wf_body body.
Hypothesis no_asm : forall bb t, term_at body bb = Ok t -> kind t <> InlineAsm.
Hypothesis facts_wf : wf_facts body facts.
(** The borrowed places are among the places of the body. *)
Hypothesis loans_in : forall loc k x, blocked_at body facts loc k x -> x ∈ U.
Abbreviation g := (cfg_of body).
Abbreviation U_wf := (places_wf place_ty is_copy body false U U_places).

Lemma before_spec def_init borrowed init b loc :
  lookup_before def_init loc = Some init -> lookup_before borrowed loc = Some b ->
  init ⊆ U -> maybe_mut_borrowed b ⊆ U -> maybe_shared_borrowed b ⊆ U ->
  exists a, accessible_before place_ty has_lifetimes body facts def_init borrowed loc = Ok a /\
    accessible_spec U has_lifetimes body init b (live_vars_at facts loc) a.
Proof.
  intros Hi Hb Hiu Hmu Hsu. unfold accessible_before. rewrite Hi, Hb. simpl.
  destruct (compute_accessible_state_spec place_ty U U_wf has_lifetimes body
    (places_locals _ _ _ _ _ U_places) init b (live_vars_at facts loc)) as (a & -> & Hc & Ha); [done..|]. simpl.
  rewrite Hc. simpl. eauto.
Qed.

Lemma after_total def_init borrowed init b bb x :
  edge def_init bb x = Some (Some init) -> edge borrowed bb x = Some (Some b) ->
  init ⊆ U -> maybe_mut_borrowed b ⊆ U -> maybe_shared_borrowed b ⊆ U ->
  exists a, accessible_after place_ty has_lifetimes body facts def_init borrowed bb x = Ok a.
Proof.
  unfold edge. intros (m & Hm & Hi)%fmap_Some (m' & Hm' & Hb)%fmap_Some Hiu Hmu Hsu.
  unfold accessible_after. rewrite Hm, Hm'. simpl. rewrite <- Hi, <- Hb. simpl.
  destruct (compute_accessible_state_spec place_ty U U_wf has_lifetimes body
    (places_locals _ _ _ _ _ U_places) init b (live_vars_at facts (start_of x))) as (a & -> & Hc & Ha); [done..|].
  simpl. rewrite Hc. simpl. eauto.
Qed.

Lemma accessible_blocks def_init borrowed L p :
  (forall l, block l ∈ L -> statement_index l <= num_statements g (block l) ->
     exists a, accessible_before place_ty has_lifetimes body facts def_init borrowed l = Ok a) ->
  (forall bb x, bb ∈ L -> x ∈ successors g bb ->
     exists a, accessible_after place_ty has_lifetimes body facts def_init borrowed bb x = Ok a) ->
  exists p', foldl (accessible_block place_ty has_lifetimes body facts def_init borrowed) (Ok p) L = Ok p' /\
    forall l, (block l ∈ L -> statement_index l <= num_statements g (block l) -> exists a,
        accessible_before place_ty has_lifetimes body facts def_init borrowed l = Ok a /\ lookup_before p' l = Some a) /\
      (block l ∉ L -> lookup_before p' l = lookup_before p l).
Proof.
  revert p. induction L as [|bb L IH]; intros p Hb Ha.
  { exists p. split; [done|]. intros l. split; [intros Hin; set_solver|done]. }
  cbn [foldl]. unfold accessible_block at 2.
  destruct (fill_befores (fun i => {| block := bb; statement_index := i |})
    (accessible_before place_ty has_lifetimes body facts def_init borrowed) (seq 0 (S (num_statements g bb))) p)
    as (p1 & Hp1 & Hl1).
  { intros i Hi%elem_of_seq. apply Hb; cbn [block statement_index]; [by left|lia]. }
  rewrite Hp1. simpl.
  destruct (fill_edges (accessible_after place_ty has_lifetimes body facts def_init borrowed bb) bb
    (successors g bb) p1) as (p2 & Hp2 & Hsb); [intros x Hx; apply Ha; [by left|done]|].
  simpl in Hp2. rewrite Hp2.
  destruct (IH p2) as (p3 & Hp3 & Hl3); [intros; apply Hb; [by right|done]|intros; apply Ha; [by right|done]|].
  exists p3. split; [exact Hp3|]. intros l. destruct (Hl3 l) as [Hin Hout].
  assert (lookup_before p2 l = lookup_before p1 l) as H21 by (unfold lookup_before; by rewrite Hsb).
  destruct (Hl1 l) as [Hin1 Hout1]. split.
  - intros Hbl Hi. destruct (decide (block l ∈ L)) as [HL|HL]; [by apply Hin|].
    rewrite Hout, H21 by done. apply Hin1. apply elem_of_cons in Hbl as [<-|?]; [|done].
    exists (statement_index l). split; [|by destruct l]. apply elem_of_seq. split; [apply Nat.le_0_l|by apply Nat.lt_succ_r].
  - intros [Hne HL]%not_elem_of_cons. rewrite Hout, H21 by done. apply Hout1. intros i _ ->. done.
Qed.

(** The locals that expire, and the places that loans block, at a location. *)
Definition accessible_at (loc : Location) (a : DefinitelyAccessibleState) : Prop :=
  (forall q, q ∈ U -> covers (definitely_accessible a) q ->
     (forall I, path_state place_ty is_copy body false loc I -> I q) /\
     ~ expired has_lifetimes body (live_vars_at facts loc) (local q) /\
     (forall x, blocked_at body facts loc Mut x -> ~ overlap q x)) /\
  (forall q, q ∈ U -> covers (definitely_owned a) q ->
     covers (definitely_accessible a) q /\ (forall x, blocked_at body facts loc Shared x -> ~ overlap q x)).

Lemma accessible_run fuel :
  0 < num_blocks g -> num_blocks g + num_edges g * S (size U) < fuel ->
  exists p, run_accessible_analysis place_ty is_copy has_lifetimes body facts fuel = Some (Ok p) /\
    forall loc, in_body g loc -> exists a, lookup_before p loc = Some a /\ accessible_at loc a /\
      definitely_accessible a ⊆ U /\ definitely_owned a ⊆ U /\
      forall q, covers (definitely_owned a) q -> covers (definitely_accessible a) q.
Proof.
  intros Hne Hfuel. pose proof (wf_body_cfg body body_wf) as Hg.
  destruct (initialized_run place_ty is_copy body false U U_places body_wf no_asm fuel Hne Hfuel)
    as (pi & Hri & _ & Hbi & Hei).
  destruct (borrowed_run body facts facts_wf Hg) as (pb & Hrb & Hbb & Heb).
  assert (forall loc b, (forall k x, x ∈ borrows_of b k <-> blocked_at body facts loc k x) ->
    maybe_mut_borrowed b ⊆ U /\ maybe_shared_borrowed b ⊆ U) as HbU.
  { intros loc b Hb. split; intros x Hx; eapply loans_in, Hb; [by apply (Hx : x ∈ borrows_of b Mut)|by apply (Hx : x ∈ borrows_of b Shared)]. }
  assert (forall loc, in_body g loc -> exists init b a, lookup_before pi loc = Some init /\
    (forall I, path_state place_ty is_copy body false loc I -> holds init I) /\
    (forall k x, x ∈ borrows_of b k <-> blocked_at body facts loc k x) /\
    accessible_before place_ty has_lifetimes body facts pi pb loc = Ok a /\
    accessible_spec U has_lifetimes body init b (live_vars_at facts loc) a) as Hat.
  { intros loc Hloc. destruct (Hbi loc Hloc) as (init & Hinit & [_ HiU] & Hh).
    destruct (Hbb loc Hloc) as (b & Hb & Hx). destruct (HbU loc b Hx) as [Hm Hs].
    destruct (before_spec pi pb init b loc) as (a & Ha & Hspec); [done..|].
    exists init, b, a. by split_and!. }
  unfold run_accessible_analysis. rewrite Hri. simpl. rewrite Hrb. simpl. unfold accessible_states.
  match goal with |- context [foldl _ (Ok ?p0) _] => destruct (accessible_blocks pi pb (seq 0 (num_blocks g)) p0)
    as (p & Hp & Hl) end.
  - intros l Hl%elem_of_seq Hi. destruct (Hat l) as (init & b & a & _ & _ & _ & Ha & _); [split; [lia|done]|eauto].
  - intros bb x Hb%elem_of_seq Hx. destruct (Hei bb x) as (init & Hinit & [_ HiU]); [lia|done|].
    assert (in_body g (start_of x)) as Hin.
    { split; [eapply (successors_in g Hg bb); [lia|done]|apply Nat.le_0_l]. }
    destruct (Hbb _ Hin) as (b & Hbl & Hbx). destruct (HbU _ b Hbx) as [Hm Hs].
    eapply (after_total pi pb init b); [done| |done..]. rewrite Heb by (lia || done). by rewrite Hbl.
  - exists p. split; [by f_equal|]. intros loc Hloc.
    destruct (Hat loc Hloc) as (init & b & a & Hinit & Hh & Hx & Ha & HaU & HoU & Hacc & Hown).
    destruct (Hl loc) as [Hlk _]. destruct (Hlk ltac:(apply elem_of_seq; destruct Hloc; lia) (proj2 Hloc)) as (a' & Ha' & Hla).
    assert (a' = a) as -> by congruence. exists a. split; [done|]. split_and!; [|done..|].
    + split.
      * intros q Hq Hc. apply Hacc in Hc as (Hc & He & Hm); [|done]. split_and!; [|done|].
        -- intros I HI. by apply (Hh I HI).
        -- intros x Hbx. apply Hm. by apply (Hx Mut).
      * intros q Hq Hc. apply Hown in Hc as (Hc & Hs); [|done]. split; [done|].
        intros x Hbx. apply Hs. by apply (Hx Shared).
    + apply (covers_within U); [done|]. intros q Hq Hc. by apply Hown in Hc as [? _].
Qed.

(** ** Framing *)
Variable visited_places : Location -> list (Place * PlaceContext).
Hypothesis visited_in : forall loc p c, (p, c) ∈ visited_places loc -> p ∈ U.
Hypothesis no_unique_borrow : forall loc p c, (p, c) ∈ visited_places loc -> c <> UniqueBorrowUse.

Definition writes (c : PlaceContext) : bool := match c with MutatingUse | MoveUse => true | _ => false end.
Definition uses (c : PlaceContext) : bool := match c with NonUse => false | _ => true end.
Definition blocked_by_uses (b : PlaceContext -> bool) (l : list (Place * PlaceContext)) : list Place :=
  (get_blocked_place ∘ fst) <$> filter (fun v => b v.2 = true) l.

Lemma blocked_in p : p ∈ U -> get_blocked_place p ∈ U.
Proof. intros Hp. eapply (places_prefix _ _ U_wf p); [done|apply get_blocked_place_prefix]. Qed.

Lemma visit_place_spec s p c : framed_accessible s ⊆ U -> framed_owned s ⊆ U -> p ∈ U -> c <> UniqueBorrowUse ->
  exists s', visit_place place_ty s p c = Ok s' /\
    without U (framed_accessible s) (framed_accessible s') (blocked_by_uses writes [(p, c)]) /\
    without U (framed_owned s) (framed_owned s') (blocked_by_uses uses [(p, c)]).
Proof.
  intros Ha Ho Hp Hc. pose proof (blocked_in p Hp) as Hb.
  destruct (remove_without place_ty U U_wf (get_blocked_place p) (framed_accessible s) Ha Hb) as (A1 & HA & HwA).
  destruct (remove_without place_ty U U_wf (get_blocked_place p) (framed_owned s) Ho Hb) as (O1 & HO & HwO).
  destruct c; simpl; rewrite ?HO; simpl; rewrite ?HA; simpl; try done; eexists; (split; [done|]); simpl;
    split; try done; by apply without_nil.
Qed.

Lemma visit_places_spec l s : framed_accessible s ⊆ U -> framed_owned s ⊆ U ->
  (forall p c, (p, c) ∈ l -> p ∈ U /\ c <> UniqueBorrowUse) ->
  exists s', foldl (fun s '(place, context) => s ← s; visit_place place_ty s place context) (Ok s) l = Ok s' /\
    without U (framed_accessible s) (framed_accessible s') (blocked_by_uses writes l) /\
    without U (framed_owned s) (framed_owned s') (blocked_by_uses uses l).
Proof.
  revert s. induction l as [|[p c] l IH]; intros s Ha Ho Hl.
  { exists s. split_and!; [done|by apply without_nil..]. }
  destruct (Hl p c) as [Hp Hc]; [set_solver|].
  destruct (visit_place_spec s p c Ha Ho Hp Hc) as (s1 & Hs1 & Hwa & Hwo). cbn [foldl]. simpl. rewrite Hs1.
  destruct (IH s1) as (s2 & -> & Hwa2 & Hwo2); [apply Hwa|apply Hwo|set_solver|]. exists s2.
  assert (forall b, blocked_by_uses b ((p, c) :: l) = blocked_by_uses b [(p, c)] ++ blocked_by_uses b l) as Happ.
  { intros b. unfold blocked_by_uses. rewrite <- fmap_app, <- filter_app. done. }
  rewrite !Happ. split_and!; [done|by eapply without_app..].
Qed.

(** What of the accessible and owned places survives the statement at a location. *)
Definition framing_at (loc : Location) (a : DefinitelyAccessibleState) (f : FramingState) : Prop :=
  (forall q, q ∈ U -> covers (framed_accessible f) q <-> (covers (definitely_accessible a) q /\
     forall p c, (p, c) ∈ visited_places loc -> writes c = true -> ~ overlap q (get_blocked_place p))) /\
  (forall q, q ∈ U -> covers (framed_owned f) q <-> (covers (definitely_owned a) q /\
     forall p c, (p, c) ∈ visited_places loc -> uses c = true -> ~ overlap q (get_blocked_place p))).

Lemma blocked_by_uses_all b l q :
  (forall x, x ∈ blocked_by_uses b l -> ~ overlap q x) <->
  forall p c, (p, c) ∈ l -> b c = true -> ~ overlap q (get_blocked_place p).
Proof.
  unfold blocked_by_uses. split.
  - intros Hall p c Hin Hb. apply Hall, list_elem_of_fmap. exists (p, c). split; [done|]. by apply list_elem_of_filter.
  - intros Hall x ([p c] & -> & [Hb Hin]%list_elem_of_filter)%list_elem_of_fmap. by eapply Hall.
Qed.

Lemma framing_before_spec acc loc a : lookup_before acc loc = Some a ->
  definitely_accessible a ⊆ U -> definitely_owned a ⊆ U ->
  (forall q, covers (definitely_owned a) q -> covers (definitely_accessible a) q) ->
  exists f, framing_before place_ty visited_places acc loc = Ok f /\ framing_at loc a f.
Proof.
  intros Hl Ha Ho Hoa. unfold framing_before. rewrite Hl. simpl.
  destruct (visit_places_spec (visited_places loc) (framing_initial a)) as (f & -> & [HaU Hwa] & [HoU Hwo]).
  { done. } { done. } { intros p c Hpc. split; [by eapply visited_in|by eapply no_unique_borrow]. }
  assert (framing_at loc a f) as Hf.
  { split; intros q Hq; [rewrite (Hwa q Hq)|rewrite (Hwo q Hq)]; by rewrite blocked_by_uses_all. }
  simpl. exists f. split; [|done]. unfold framing_check_invariant.
  assert (forall S q, q ∈ S -> covers S q) as Hself by (intros S q Hq; exists q; split; [done|reflexivity]).
  destruct Hf as [Hfa Hfo].
  rewrite (proj2 (all_covered_Ok _ (framed_owned f) (framed_accessible f))).
  2:{ intros q Hq. apply Hfa; [by apply HoU|]. destruct (proj1 (Hfo q (HoU q Hq)) (Hself _ _ Hq)) as [Hc Hx].
      split; [by apply Hoa|]. intros p c Hpc Hw. apply (Hx p c Hpc). by destruct c. }
  simpl. rewrite (proj2 (all_covered_Ok _ (framed_accessible f) (definitely_accessible a))).
  2:{ intros q Hq. by apply (Hfa q (HaU q Hq)), Hself. }
  simpl. rewrite (proj2 (all_covered_Ok _ (framed_owned f) (definitely_owned a))); [done|].
  intros q Hq. by apply (Hfo q (HoU q Hq)), Hself.
Qed.

End accessible_run.

(** A field of a pair is borrowed mutably while the other one is assigned. *)
Module access_witness.
Import init_witness.
Definition at_0 (i : nat) : Location := {| block := 0; statement_index := i |}.

Definition borrow_body : Body := {|
  basic_blocks := [
    {| statements := [Assign (v 1) (Aggregate [Constant; Constant]); Assign (v 2) (Ref Mut f0); Assign f1 (Use Constant)];
       terminator := {| kind := TerminatorOther; term_successors := [1] |} |};
    {| statements := []; terminator := {| kind := TerminatorOther; term_successors := [] |} |}];
  local_decls := 3;
  arg_count := 0;
  predecessors_of_block bb := match bb with 1 => [0] | _ => [] end;
|}.

Definition borrow_facts : BorrowckFacts := {|
  loan_issued_at := [(0, Mid (at_0 1))];
  loan_live_at := [(Start (at_0 2), [0]); (Mid (at_0 2), [0])];
  var_live_on_entry := {[at_0 2 := {[2]}]};
|}.

Definition lifetime_of (l : Local) : bool := l =? 2.
Definition visited (loc : Location) : list (Place * PlaceContext) :=
  if decide (loc = at_0 1) then [(f0, MutatingUse); (v 2, MutatingUse)]
  else if decide (loc = at_0 2) then [(f1, MutatingUse)] else [].

Lemma borrow_body_places : body_places pair_ty (fun _ => false) borrow_body false pair_places.
Proof.
  constructor.
  - apply pair_places_wf.
  - simpl. intros [|[|[|l]]] Hl; [..|lia]; unfold pair_places, v; set_solver.
  - intros loc s a Hs%stmt_at_elem Ha. simpl in Hs. set_unfold.
    decompose [or] Hs; subst; simpl in Ha; set_unfold; decompose [or] Ha; subst; unfold pair_places; set_solver.
  - intros bb t a (data & Hd & ->)%term_at_data Ha. apply list_elem_of_lookup_2 in Hd. simpl in Hd. set_unfold.
    decompose [or] Hd; subst; simpl in Ha; set_unfold; done.
Qed.

Lemma borrow_body_no_asm bb t : term_at borrow_body bb = Ok t -> kind t <> InlineAsm.
Proof.
  intros (data & Hd & ->)%term_at_data. apply list_elem_of_lookup_2 in Hd. simpl in Hd. set_unfold.
  by decompose [or] Hd; subst.
Qed.

Lemma borrow_live loc loans : (Start loc, loans) ∈ loan_live_at borrow_facts -> loc = at_0 2 /\ loans = [0].
Proof. simpl. set_unfold. intros [[= -> ->]|[[=]|[]]]. done. Qed.

Lemma borrow_facts_wf : wf_facts borrow_body borrow_facts.
Proof.
  constructor.
  - intros loc loans [-> ->]%borrow_live. split; simpl; lia.
  - intros loc loans loan [-> ->]%borrow_live ->%list_elem_of_singleton. by exists Mut, f0.
Qed.

Lemma borrow_loans_in loc k x : blocked_at borrow_body borrow_facts loc k x -> x ∈ pair_places.
Proof.
  intros (loans & loan & [-> ->]%borrow_live & ->%list_elem_of_singleton & Hb). vm_compute in Hb. simplify_eq.
  unfold pair_places, f0, mk_place_field. set_solver.
Qed.

Lemma visited_in loc p c : (p, c) ∈ visited loc -> p ∈ pair_places.
Proof. unfold visited, pair_places. repeat case_decide; set_solver. Qed.
Lemma visited_context loc p c : (p, c) ∈ visited loc -> c <> UniqueBorrowUse.
Proof. unfold visited. repeat case_decide; set_unfold; intros; destruct_or?; by simplify_eq. Qed.

Lemma borrow_fuel : num_blocks (cfg_of borrow_body) + num_edges (cfg_of borrow_body) * S (size pair_places) < 100.
Proof. apply Nat.ltb_lt. by vm_compute. Qed.



(** The borrowed field is neither accessible nor owned, the other one is both. *)
Example borrowed_field_inaccessible :
  match run_accessible_analysis pair_ty (fun _ => false) lifetime_of borrow_body borrow_facts 100 with
  | Some (Ok p) => (fun a => (elements (definitely_accessible a), elements (definitely_owned a))) <$> lookup_before p (at_0 2)
  | _ => None
  end = Some ([v 2; f1], [v 2; f1]).
Proof. vm_compute. reflexivity. Qed.
End access_witness.
