(* ===== verification/PureMir.v ===== *)
(** * MIR bodies of pure code

    The part of the compiler's intermediate representation that
    [prusti-encoder/src/encoders/mir_pure.rs] reads, richer than the one the
    dataflow analyses need: constants, operators, switch values and callees are
    kept. Constants, types, definitions and generic arguments are identifiers;
    what the compiler answers about them is the class [Rustc]. *)
From S2P Require Import Prelude FlowEngine Mir.
From S2P Require Import Vir VirMake VirSem VirInt TyDomain Primitive BinOpEnc.

Abbreviation MirLocal := nat.
Abbreviation MirBlock := nat.
Abbreviation DefId := nat.
Abbreviation Substs := nat.
Abbreviation ConstId := nat.

Definition RETURN_PLACE : MirLocal := 0.

Inductive Operand :=
| Copy (p : Place)
| Move (p : Place)
| Constant (c : ConstId).

Inductive AggregateKind := AggAdt (variant : nat) | AggTuple | AggClosure | AggOther.

Inductive Rvalue :=
| Use (op : Operand)
| Ref (is_mut : bool) (p : Place)
| BinaryOp (op : mir.BinOp) (l r : Operand)
| UnaryOp (op : mir.UnOp) (x : Operand)
| Aggregate (kind : AggregateKind) (fields : list Operand)
| Discriminant (p : Place)
| Cast (kind : nat) (x : Operand) (ty : Ty)
| Len (p : Place)
| RawPtr (p : Place)
| RvalueOther.

Inductive StatementKind :=
| StorageLive (l : MirLocal)
| StorageDead (l : MirLocal)
| FakeRead
| AscribeUserType
| PlaceMention
| Assign (dest : Place) (source : Rvalue)
| StatementOther.

(** [SwitchTargets]: the values with their targets, and the otherwise target,
    which [all_targets] lists last. *)
Record SwitchTargets := { switch_values : list (Z * MirBlock); switch_otherwise : MirBlock }.
Definition all_targets (t : SwitchTargets) : list MirBlock :=
  (snd <$> switch_values t) ++ [switch_otherwise t].

Inductive TerminatorKind :=
| Goto (target : MirBlock)
| FalseEdge (real_target imaginary_target : MirBlock)
| Drop (target : MirBlock) (unwind : option MirBlock)
| SwitchInt (discr : Operand) (targets : SwitchTargets)
| Assert (cond : Operand) (expected : bool) (target : MirBlock) (unwind : option MirBlock)
| Return
| Unreachable
| UnwindResume
| Call (func : Operand) (args : list Operand) (destination : Place)
    (target unwind : option MirBlock)
| TerminatorOther (targets : list MirBlock).

Record BasicBlockData := { statements : list StatementKind; terminator : option TerminatorKind }.

Record Body := {
  basic_blocks : list BasicBlockData;
  local_decls : list Ty;
  arg_count : nat;
  return_ty : Ty;
}.

(** The successors of a block in the compiler's order. *)
Definition term_successors (t : TerminatorKind) : list MirBlock :=
  match t with
  | Goto target => [target]
  | FalseEdge real_target imaginary_target => [real_target; imaginary_target]
  | Drop target unwind => target :: option_list unwind
  | SwitchInt _ targets => all_targets targets
  | Assert _ _ target unwind => target :: option_list unwind
  | Call _ _ _ target unwind => option_list target ++ option_list unwind
  | Return | Unreachable | UnwindResume => []
  | TerminatorOther targets => targets
  end.

Definition block_terminator (b : Body) (bb : MirBlock) : option TerminatorKind :=
  basic_blocks b !! bb ≫= terminator.
Definition block_successors (b : Body) (bb : MirBlock) : list MirBlock :=
  from_option term_successors [] (block_terminator b bb).
Definition block_predecessors (b : Body) (bb : MirBlock) : list MirBlock :=
  filter (fun p => bb ∈ block_successors b p) (seq 0 (length (basic_blocks b))).

(** ** What the compiler knows about types and definitions *)
Record PlaceTy := { pt_ty : Ty; pt_variant : option nat }.
Definition place_ty_from_ty (ty : Ty) : PlaceTy := {| pt_ty := ty; pt_variant := None |}.

Inductive TyShape :=
| ShapePrim (k : TyKind)
| ShapeAdt (is_box : bool)
| ShapeRef (is_mut : bool)
| ShapeClosure (def_id : DefId) (inputs : option (list Ty)) (is_fn : bool)
| ShapeArray
| ShapeSlice
| ShapeOther.

(** A graph as the compiler's graph algorithms see it. *)
Record Graph := {
  num_nodes : nat;
  start_node : nat;
  graph_successors : nat -> list nat;
  graph_predecessors : nat -> list nat;
}.

Definition body_graph (b : Body) : Graph := {|
  num_nodes := length (basic_blocks b);
  start_node := 0;
  graph_successors := block_successors b;
  graph_predecessors := block_predecessors b;
|}.

Class Rustc := {
  ty_shape : Ty -> TyShape;
  projection_ty : PlaceTy -> ProjectionElem -> PlaceTy;
  const_ty : ConstId -> Ty;
  rvalue_ty : Body -> Rvalue -> Ty;
  usize_ty : Ty;
  pointee_metadata_ty : Ty -> Ty;
  (** [RustSignature::get_def_id_and_caller_substs] of the type of a callee *)
  fn_def : Operand -> DefId * Substs;
  substs_tys : Substs -> list Ty;
  is_ptr_metadata : DefId -> bool;
  (** [graph::is_cyclic] and [dominators] of the compiler's graph library *)
  is_cyclic : Graph -> bool;
  immediate_dominator : Graph -> nat -> option nat;
}.

Section types.
Context {R : Rustc} {E : Type}.

Definition local_ty (b : Body) (l : MirLocal) : outcome E Ty :=
  unwrap "index out of bounds" (local_decls b !! l).

Definition project_ty (pt : PlaceTy) (projection : list ProjectionElem) : PlaceTy :=
  foldl projection_ty pt projection.

Definition place_ty (b : Body) (p : Place) : outcome E PlaceTy :=
  ty ← local_ty b (Mir.local p); Ok (project_ty (place_ty_from_ty ty) (projection p)).

Definition operand_ty (b : Body) (op : Operand) : outcome E Ty :=
  match op with
  | Copy p | Move p => pt_ty <$> place_ty b p
  | Constant c => Ok (const_ty c)
  end.
End types.

Definition is_deref (e : ProjectionElem) : bool := match e with Mir.Deref => true | _ => false end.
(** [Place::is_indirect]. *)
Definition is_indirect (p : Place) : bool := existsb is_deref (projection p).

(** [body.local_kind]. *)
Inductive LocalKind := KindTemp | KindArg | KindReturnPointer.
Definition local_kind (b : Body) (l : MirLocal) : LocalKind :=
  if (l =? 0)%nat then KindReturnPointer
  else if (l <=? arg_count b)%nat then KindArg else KindTemp.
