(* ===== verification/PureEnc.v ===== *)
(** * Encoding of pure functions and specifications

    [prusti-encoder/src/encoders/mir_pure.rs] with the shared rvalues of
    [mir_shared.rs]: the body of a pure function, a loop-free graph of blocks,
    becomes one expression. Every assignment binds a new version of its local
    by a [let]; at a branch the arms are encoded up to their join point, the
    locals they modify are returned in a tuple, and a [phi] variable holds the
    tuple of the arm that is taken. *)
From stdpp Require Import pretty.
From S2P Require Import Prelude FlowEngine Mir.
From S2P Require Import Vir VirMake VirSem VirInt VirReify TyDomain Primitive BinOpEnc TyUse PureMir.

(** ** Versions and updates *)
Record Version := {
  v_index : nat;
  v_location : Location;
  initialised : option LocalDecl;
}.

Definition Version_default : Version :=
  {| v_index := 0; v_location := {| block := 0; statement_index := 0 |}; initialised := None |}.

Inductive UpdateBind :=
| BindLocal (l : MirLocal) (v : Version) (e : Expr)
| BindPhi (v : Version) (e : Expr).

Abbreviation Versions := (gmap MirLocal Version).

Record Update := { binds : list UpdateBind; versions : Versions }.

Definition Update_new : Update := {| binds := []; versions := ∅ |}.

(** [Display] of a version, longer in a debug build. *)
Definition show_version (debug_assertions : bool) (v : Version) : string :=
  if debug_assertions then
    "bb" +:+ pretty (block (v_location v)) +:+ "_s" +:+ pretty (statement_index (v_location v))
    +:+ "_i" +:+ pretty (v_index v)
  else pretty (v_index v).

Definition mk_local (debug : bool) (encoding_depth : nat) (l : MirLocal) (v : Version) : string :=
  "_" +:+ pretty encoding_depth +:+ "_" +:+ pretty l +:+ "s_" +:+ show_version debug v.
Definition mk_phi (debug : bool) (encoding_depth : nat) (v : Version) : string :=
  "_" +:+ pretty encoding_depth +:+ "_phi_" +:+ show_version debug v.

Definition with_decl (v : Version) (d : LocalDecl) : Version :=
  {| v_index := v_index v; v_location := v_location v; initialised := Some d |}.

Definition update_assign (debug : bool) (encoding_depth : nat) (u : Update) (l : MirLocal) (v : Version)
    (e : Expr) : Update :=
  let decl := {| decl_name := mk_local debug encoding_depth l v; decl_ty := Expr_ty e |} in
  let v := with_decl v decl in
  {| binds := binds u ++ [BindLocal l v e]; versions := <[l := v]> (versions u) |}.

Definition merge_inner (older newer : Update) : Update :=
  {| binds := binds older ++ binds newer; versions := versions newer ∪ versions older |}.
Definition update_merge (older : Update) (newer : option Update) : option Update :=
  merge_inner older <$> newer.
Definition add_to_map (u : Update) (curr_ver : Versions) : Versions := versions u ∪ curr_ver.

(** ** The state of the encoder *)
Record Enc := {
  version_ctr : list nat;
  versions_used : gset (MirLocal * nat);
  phi_ctr : nat;
  old_mode : bool;
  rel0_mode : bool;
  rel1_mode : bool;
  before_expiry_mode : bool;
}.

Definition set_version_ctr c (s : Enc) : Enc :=
  {| version_ctr := c; versions_used := versions_used s; phi_ctr := phi_ctr s; old_mode := old_mode s;
     rel0_mode := rel0_mode s; rel1_mode := rel1_mode s; before_expiry_mode := before_expiry_mode s |}.
Definition set_versions_used u (s : Enc) : Enc :=
  {| version_ctr := version_ctr s; versions_used := u; phi_ctr := phi_ctr s; old_mode := old_mode s;
     rel0_mode := rel0_mode s; rel1_mode := rel1_mode s; before_expiry_mode := before_expiry_mode s |}.
Definition set_phi_ctr c (s : Enc) : Enc :=
  {| version_ctr := version_ctr s; versions_used := versions_used s; phi_ctr := c; old_mode := old_mode s;
     rel0_mode := rel0_mode s; rel1_mode := rel1_mode s; before_expiry_mode := before_expiry_mode s |}.
Definition set_modes (o r0 r1 b : bool) (s : Enc) : Enc :=
  {| version_ctr := version_ctr s; versions_used := versions_used s; phi_ctr := phi_ctr s; old_mode := o;
     rel0_mode := r0; rel1_mode := r1; before_expiry_mode := b |}.

Definition in_mode (s : Enc) : bool := old_mode s || rel0_mode s || rel1_mode s || before_expiry_mode s.

(** A method with [&mut self] that may fail threads the state. *)
Definition M (E A : Type) : Type := Enc -> outcome E (A * Enc).
#[export] Instance M_ret E : MRet (M E) := fun A a s => Ok (a, s).
#[export] Instance M_bind E : MBind (M E) := fun A B f m s =>
  match m s with Ok (a, s) => f a s | Err e => Err e | Panic msg => Panic msg end.
Definition lift {E A} (o : outcome E A) : M E A := fun s => a ← o; Ok (a, s).
Definition get_state {E} : M E Enc := fun s => Ok (s, s).
Definition modify {E} (f : Enc -> Enc) : M E unit := fun s => Ok (tt, f s).
Fixpoint mapM_ {E A B} (f : A -> M E B) (l : list A) : M E (list B) :=
  match l with
  | [] => mret []
  | x :: l => y ← f x; ys ← mapM_ f l; mret (y :: ys)
  end.

(** [Result::unwrap]. *)
Definition unwrap_ok {E A} (o : outcome E A) : outcome E A :=
  match o with Err _ => Panic "called `Result::unwrap()` on an `Err` value" | _ => o end.

(** ** Builtins of the contract library *)
Inductive Mode := ModeOld | ModeRel (n : nat) | ModeBeforeExpiry.
Inductive SpecBuiltin := SpecForall | SpecExists | SpecBlock | ModeStart (mode : Mode) | ModeEnd (mode : Mode).
Inductive PrustiBuiltin := BuiltinSpec (b : SpecBuiltin) | BuiltinOperands (op : nat).

(** [ExprInput]: the definition whose expression is reified and its inputs. *)
Abbreviation ExprInput := (DefId * gmap MirLocal Expr)%type.
Record MirPureEncOutput (E : Type) := { out_inputs : list MirLocal; out_expr : ExprInput -> outcome E Expr }.
Arguments out_inputs {E}.
Arguments out_expr {E}.

(** What the encoder requires of the other encoders, for the body and the
    generic context it works in. The closure of a [MirPureEnc] task is encoded one
    level deeper. *)
Class PureDeps (E : Type) := {
  ty_use_pure : Ty -> outcome E TyUsePure;
  viper_tuple : list Ty -> outcome E TyUsePure;
  const_enc : ConstId -> outcome E Expr;
  bin_op_enc : Ty -> mir.BinOp -> Ty -> Ty -> outcome E (Expr -> Expr -> Expr);
  un_op_enc : Ty -> mir.UnOp -> Ty -> outcome E (Expr -> Expr);
  use_cast_enc : Ty -> nat -> Ty -> outcome E (Expr -> Expr);
  prusti_builtin_enc : nat -> DefId -> Substs -> outcome E (list Expr -> Expr);
  function_call_enc : DefId -> Substs -> outcome E (list Expr -> outcome E Expr);
  array_len : Ty -> outcome E Expr;
  impure_deref : Ty -> outcome E (Expr -> Expr);
  closure_body : nat -> DefId -> outcome E (MirPureEncOutput E);
  is_function_pure : DefId -> Substs -> bool;
  prusti_builtin : DefId -> Substs -> option PrustiBuiltin;
  unsupported_rvalue : string -> E;
}.

Definition lazy_input (l : MirLocal) : string := "pure in _" +:+ pretty l.
Definition lazy_wrapped (l : MirLocal) : string := "wrapped in _" +:+ pretty l.

(** What the closures of the lazy nodes return: both kinds return the input of
    their local. *)
Definition lazy_table (inputs : gmap MirLocal Expr) : gmap string Expr :=
  list_to_map (((fun le => (lazy_input le.1, le.2)) <$> map_to_list inputs)
               ++ ((fun le => (lazy_wrapped le.1, le.2)) <$> map_to_list inputs)).

Record EncodedPlace := { snap : Expr; place_ref : option Expr; metadata : option Expr }.
Definition EncodedPlace_new (e : Expr) (place_ref : option Expr) : EncodedPlace :=
  {| snap := e; place_ref := place_ref; metadata := None |}.
Definition with_metadata (p : EncodedPlace) (md : Expr) : EncodedPlace :=
  {| snap := snap p; place_ref := place_ref p; metadata := Some md |}.

Definition mk_rel_expr (e : Expr) (exec : Z) : Expr :=
  FuncApp "rel" [e; Const (CInt exec)] (Expr_ty e) [].

Definition opt_filter {A} (b : bool) (o : option A) : option A := if b then o else None.

Section encoder.
Context {R : Rustc} {H : Host} {E : Type} {D : PureDeps E}.
Variables (debug : bool) (encoding_depth : nat) (body : Body).
(** The arms of the [ghost!] blocks by the blocks of their switches, as
    [GhostBlocks] detects them. *)
Variable ghost_switches : gmap MirBlock MirBlock.
(** Whether the body is a contract of an impure function. *)
Variable impure_context : bool.

Definition ty_use (ty : Ty) : outcome E TyUsePure := unwrap_ok (ty_use_pure ty).

Definition get_ty_for_local (l : MirLocal) : outcome E TypeKind :=
  ty ← local_ty body l; snapshot <$> ty_use ty.

Definition mk_version_ex (v : Version) : outcome E Expr :=
  d ← unwrap "called `Option::unwrap()` on a `None` value" (initialised v); Ok (mk_local_ex d).

Definition mark_used (l : MirLocal) (i : nat) : M E unit :=
  modify (fun s => set_versions_used ({[(l, i)]} ∪ versions_used s) s).

(** ** Versions *)
Definition bump_version_no_assign (l : MirLocal) (location : Location) : M E Version :=
  s ← get_state;
  index ← lift (unwrap "index out of bounds" (version_ctr s !! l));
  _ ← modify (set_version_ctr (<[l := S index]> (version_ctr s)));
  mret {| v_index := index; v_location := location; initialised := None |}.

Definition bump_version_init (u : Update) (l : MirLocal) (e : Expr) (location : Location) : M E Update :=
  v ← bump_version_no_assign l location;
  mret (update_assign debug encoding_depth u l v e).

(** Version 0 is an input, so the first assignment of a local that had no
    [StorageLive] skips it. *)
Definition bump_version (u : Update) (l : MirLocal) (e : Expr) (location : Location) : M E Update :=
  s ← get_state;
  index ← lift (unwrap "index out of bounds" (version_ctr s !! l));
  _ ← (if index =? 0 then _ ← bump_version_no_assign l location; mret tt else mret tt);
  bump_version_init u l e location.

(** ** Places *)
Definition is_input_local (l : MirLocal) : bool :=
  match local_kind body l with KindArg | KindReturnPointer => true | KindTemp => false end.

(** The local of a place: its version is marked as used, and in a mode an
    argument or the result is left to the caller. *)
Definition encode_place_local (curr_ver : Versions) (l : MirLocal) : M E (Expr * bool) :=
  v ← lift (unwrap "assertion failed: curr_ver.contains_key(&place.local)" (curr_ver !! l));
  _ ← mark_used l (v_index v);
  _ ← lift (local_ty body l);
  s ← get_state;
  let should_wrap := in_mode s && is_input_local l in
  e ← lift (if should_wrap then Lazy (lazy_wrapped l) <$> get_ty_for_local l else mk_version_ex v);
  mret (e, should_wrap).

Definition wrap_modes (should_wrap : bool) (e : Expr) : M E Expr :=
  s ← get_state;
  if should_wrap then
    let e := if old_mode s then mk_old e OldNone else e in
    let e := if rel0_mode s then mk_rel_expr e 0 else e in
    let e := if rel1_mode s then mk_rel_expr e 1 else e in
    mret (if before_expiry_mode s then mk_old e OldLhs else e)
  else mret e.

Definition encode_place_element (curr_ver : Versions) (pt : PlaceTy) (elem : ProjectionElem)
    (p : EncodedPlace) : M E EncodedPlace :=
  e_ty ← lift (ty_use (pt_ty pt));
  match elem with
  | Mir.Deref =>
      _ ← lift (assert_that "assertion failed: place_ty.variant_index.is_none()"
                  (bool_decide (pt_variant pt = None)));
      match ty_shape (pt_ty pt) with
      | ShapeAdt true =>
          s ← lift (expect_variant_opt e_ty (pt_variant pt));
          proj ← lift (struct_field s 0);
          mret (EncodedPlace_new (read proj (snap p)) (field_ref proj <$> place_ref p))
      | ShapeRef false =>
          r ← lift (expect_immref e_ty);
          mret (with_metadata (EncodedPlace_new (value_access r (snap p)) (place_ref p))
                  (metadata_access r (snap p)))
      | ShapeRef true =>
          r ← lift (expect_mutref e_ty);
          val_expr ← lift (if impure_context
                           then cast ← impure_deref (pt_ty pt); Ok (cast (deref_access r (snap p)))
                           else Ok (value_access r (snap p)));
          mret (with_metadata (EncodedPlace_new val_expr (place_ref p)) (metadata_access r (snap p)))
      | _ => lift unreachable
      end
  | Mir.Field i _ =>
      variant ← lift (expect_variant_opt e_ty (pt_variant pt));
      proj ← lift (struct_field variant i);
      let place := EncodedPlace_new (read proj (snap p)) (field_ref proj <$> place_ref p) in
      let is_last_field := (i + 1 =? length (struct_fields variant))%nat in
      mret match metadata p with
           | Some md => if is_last_field then with_metadata place md else place
           | None => place
           end
  | Mir.Index idx =>
      proj ← lift (expect_array e_ty);
      head ← encode_place_local curr_ver idx;
      idx ← wrap_modes head.2 head.1;
      usize ← lift (ty_use usize_ty);
      k ← lift (expect_primitive usize);
      idx ← lift (snap_to_prim k idx);
      mret (EncodedPlace_new (index proj (snap p) idx)
              ((fun pr => ref_to_index_ref proj pr idx) <$> place_ref p))
  | Mir.Downcast _ => mret p
  | _ => lift (todo "Unsupported ProjectionElem")
  end.

Fixpoint encode_place_elements (curr_ver : Versions) (pt : PlaceTy) (elems : list ProjectionElem)
    (p : EncodedPlace) : M E (EncodedPlace * PlaceTy) :=
  match elems with
  | [] => mret (p, pt)
  | elem :: elems =>
      p ← encode_place_element curr_ver pt elem p;
      encode_place_elements curr_ver (projection_ty pt elem) elems p
  end.

Definition encode_place_with_ref (curr_ver : Versions) (place : Place) : M E EncodedPlace :=
  head ← encode_place_local curr_ver (Mir.local place);
  ty ← lift (local_ty body (Mir.local place));
  res ← encode_place_elements curr_ver (place_ty_from_ty ty) (projection place)
          (EncodedPlace_new head.1 None);
  _ ← lift (assert_that "assertion failed: place_ty.variant_index.is_none()"
              (bool_decide (pt_variant res.2 = None)));
  e ← wrap_modes head.2 (snap res.1);
  mret {| snap := e; place_ref := place_ref res.1; metadata := metadata res.1 |}.

Definition encode_place_snap (curr_ver : Versions) (place : Place) : M E Expr :=
  p ← encode_place_with_ref curr_ver place; mret (snap p).

Definition encode_operand_snap (curr_ver : Versions) (op : Operand) : M E Expr :=
  match op with
  | Copy p | Move p => encode_place_snap curr_ver p
  | Constant c => lift (const_enc c)
  end.

(** ** Rvalues *)
Definition encode_cast_snap (rvalue_ty : Ty) (kind : nat) (x : Operand) (curr_ver : Versions) : M E Expr :=
  e ← encode_operand_snap curr_ver x;
  x_ty ← lift (operand_ty body x);
  cast ← lift (use_cast_enc rvalue_ty kind x_ty);
  mret (cast e).

Definition encode_binop_snap (rvalue_ty : Ty) (op : mir.BinOp) (l r : Operand) (curr_ver : Versions) :
    M E Expr :=
  l_ty ← lift (operand_ty body l);
  r_ty ← lift (operand_ty body r);
  call ← lift (bin_op_enc rvalue_ty op l_ty r_ty);
  encoded_l ← encode_operand_snap curr_ver l;
  encoded_r ← encode_operand_snap curr_ver r;
  mret (call encoded_l encoded_r).

Definition encode_unary_op_snap (rvalue_ty : Ty) (op : mir.UnOp) (x : Operand) (curr_ver : Versions) :
    M E Expr :=
  e ← encode_operand_snap curr_ver x;
  x_ty ← lift (operand_ty body x);
  call ← lift (un_op_enc rvalue_ty op x_ty);
  mret (call e).

Definition encode_aggregate_snap (rvalue_ty : Ty) (kind : AggregateKind) (fields : list Operand)
    (curr_ver : Versions) : M E Expr :=
  encoded_fields ← mapM_ (encode_operand_snap curr_ver) fields;
  e_ty ← lift (ty_use rvalue_ty);
  sl ← lift match kind with
            | AggAdt vidx => get_variant_any e_ty vidx
            | _ => expect_structlike e_ty
            end;
  lift (field_snaps_to_snap sl encoded_fields).

Definition encode_len_snap (place : Place) : M E Expr :=
  pt ← lift (place_ty body place);
  _ ← lift (assert_that "assertion failed: place_ty.variant_index.is_none()"
              (bool_decide (pt_variant pt = None)));
  match ty_shape (pt_ty pt) with
  | ShapeArray => lift (array_len (pt_ty pt))
  | ShapeSlice => lift (todo "Rvalue::Len on a slice place")
  | _ => lift unreachable
  end.

Definition thin_ptr_metadata (ref_ty : Ty) : M E (option Expr) :=
  t ← lift (ty_use (pointee_metadata_ty ref_ty)); lift (zst_to_snap t).

(** The address and the metadata of a reference or raw pointer to a place. *)
Definition pointer_parts (rv_ty : Ty) (place : Place) (p : EncodedPlace) (msg : string) :
    M E (Expr * Expr) :=
  let place_ref := default (Const CNull) (opt_filter (is_indirect place) (place_ref p)) in
  md ← match metadata p with Some md => mret (Some md) | None => thin_ptr_metadata rv_ty end;
  md ← lift (ok_or (unsupported_rvalue msg) md);
  mret (place_ref, md).

Definition encode_rvalue (curr_ver : Versions) (rvalue : Rvalue) : M E Expr :=
  let rv_ty := rvalue_ty body rvalue in
  match rvalue with
  | Use op => encode_operand_snap curr_ver op
  | Ref is_mut place =>
      t ← lift (ty_use rv_ty);
      p ← encode_place_with_ref curr_ver place;
      parts ← pointer_parts rv_ty place p
        "unsupported reference: could not construct metadata for place in pure code";
      r ← lift (if is_mut then expect_mutref t else expect_immref t);
      mret (reference_to_snap r parts.1 parts.2 (snap p))
  | BinaryOp op l r => encode_binop_snap rv_ty op l r curr_ver
  | UnaryOp op x => encode_unary_op_snap rv_ty op x curr_ver
  | Aggregate AggOther _ => lift (Err (unsupported_rvalue "unsupported rvalue in pure code"))
  | Aggregate kind fields => encode_aggregate_snap rv_ty kind fields curr_ver
  | Discriminant place =>
      pt ← lift (place_ty body place);
      t ← lift (ty_use (pt_ty pt));
      match opt_filter (bool_decide (pt_variant pt = None)) (get_enumlike t) with
      | Some e => x ← encode_place_snap curr_ver place; mret (snap_to_discr_snap e x)
      | None =>
          t ← lift (ty_use rv_ty);
          k ← lift (expect_primitive t);
          mret (prim_to_snap k (mk_uint 0))
      end
  | Cast kind x ty =>
      _ ← lift (assert_that "assertion `left == right` failed" (bool_decide (ty = rv_ty)));
      encode_cast_snap rv_ty kind x curr_ver
  | Len place => encode_len_snap place
  | RawPtr place =>
      p ← encode_place_with_ref curr_ver place;
      parts ← pointer_parts rv_ty place p
        "unsupported raw pointer: could not construct metadata for place in pure code";
      t ← lift (ty_use rv_ty);
      r ← lift (expect_raw t);
      mret (raw_to_snap r parts.1 parts.2)
  | RvalueOther => lift (Err (unsupported_rvalue "unsupported rvalue in pure code"))
  end.

(** ** Statements *)
Definition encode_stmt (curr_ver : Versions) (stmt : StatementKind) (location : Location) : M E Update :=
  match stmt with
  | StorageLive l =>
      v ← bump_version_no_assign l location;
      mret {| binds := []; versions := {[l := v]} |}
  | StorageDead _ | FakeRead | AscribeUserType | PlaceMention => mret Update_new
  | Assign dest rvalue =>
      e ← encode_rvalue curr_ver rvalue;
      bump_version Update_new (Mir.local dest) e location
  | StatementOther => lift (todo "statement kind")
  end.

Fixpoint encode_stmts (curr_ver : Versions) (bb : MirBlock) (index : nat) (stmts : list StatementKind)
    (stmt_update : Update) : M E (Versions * Update) :=
  match stmts with
  | [] => mret (curr_ver, stmt_update)
  | stmt :: stmts =>
      newer ← encode_stmt curr_ver stmt {| block := bb; statement_index := index |};
      encode_stmts (add_to_map newer curr_ver) bb (S index) stmts (merge_inner stmt_update newer)
  end.

(** ** Calls *)
Definition qvar_name (idx : nat) : string := "qvar_" +:+ pretty encoding_depth +:+ "_" +:+ pretty idx.

Fixpoint mk_qvars (idx : nat) (tys : list Ty) : outcome E (list LocalDecl) :=
  match tys with
  | [] => Ok []
  | ty :: tys =>
      t ← ty_use ty; ds ← mk_qvars (S idx) tys;
      Ok ({| decl_name := qvar_name idx; decl_ty := snapshot t |} :: ds)
  end.

(** [lift] of a reified expression. *)
Definition lift_expr (e : Expr) : outcome E Expr :=
  _ ← assert_that "cannot lift lazy expression" (negb (is_lazy e)); Ok e.

Definition encode_spec_closure (closure_ty : Ty) (closure_snap : Expr) : outcome E (list LocalDecl * Expr) :=
  match ty_shape closure_ty with
  | ShapeClosure cl_def_id inputs is_fn =>
      qvar_tys ← unwrap "internal error: entered unreachable code" inputs;
      _ ← assert_that "assertion `left == right` failed" is_fn;
      qvars ← mk_qvars 0 qvar_tys;
      let reify_args := <[1 := closure_snap]> (list_to_map (imap (fun idx d => (idx + 2, mk_local_ex d)) qvars)) in
      out ← closure_body (encoding_depth + 1) cl_def_id;
      e ← out_expr out (cl_def_id, reify_args);
      e ← lift_expr e;
      Ok (qvars, e)
  | _ => Panic "illegal builtin: expected closure"
  end.

Definition mode_start (mode : Mode) : M E unit :=
  s ← get_state;
  match mode with
  | ModeOld =>
      _ ← lift (assert_that "assertion failed: !self.old_mode" (negb (old_mode s)));
      modify (set_modes true (rel0_mode s) (rel1_mode s) (before_expiry_mode s))
  | ModeRel 0 =>
      _ ← lift (assert_that "assertion failed: !self.rel0_mode" (negb (rel0_mode s)));
      _ ← lift (assert_that "assertion failed: !self.rel1_mode" (negb (rel1_mode s)));
      modify (set_modes (old_mode s) true (rel1_mode s) (before_expiry_mode s))
  | ModeRel _ =>
      _ ← lift (assert_that "assertion failed: !self.rel1_mode" (negb (rel1_mode s)));
      _ ← lift (assert_that "assertion failed: !self.rel0_mode" (negb (rel0_mode s)));
      modify (set_modes (old_mode s) (rel0_mode s) true (before_expiry_mode s))
  | ModeBeforeExpiry =>
      _ ← lift (assert_that "assertion failed: !self.before_expiry_mode" (negb (before_expiry_mode s)));
      modify (set_modes (old_mode s) (rel0_mode s) (rel1_mode s) true)
  end.

Definition mode_end (mode : Mode) : M E unit :=
  s ← get_state;
  match mode with
  | ModeOld =>
      _ ← lift (assert_that "assertion failed: self.old_mode" (old_mode s));
      modify (set_modes false (rel0_mode s) (rel1_mode s) (before_expiry_mode s))
  | ModeRel 0 =>
      _ ← lift (assert_that "assertion failed: self.rel0_mode" (rel0_mode s));
      _ ← lift (assert_that "assertion failed: !self.rel1_mode" (negb (rel1_mode s)));
      modify (set_modes (old_mode s) false (rel1_mode s) (before_expiry_mode s))
  | ModeRel _ =>
      _ ← lift (assert_that "assertion failed: !self.rel0_mode" (negb (rel0_mode s)));
      _ ← lift (assert_that "assertion failed: self.rel1_mode" (rel1_mode s));
      modify (set_modes (old_mode s) (rel0_mode s) false (before_expiry_mode s))
  | ModeBeforeExpiry =>
      _ ← lift (assert_that "assertion failed: self.before_expiry_mode" (before_expiry_mode s));
      modify (set_modes (old_mode s) (rel0_mode s) (rel1_mode s) false)
  end.

(** [arg_tys[i].expect_ty()] with the length the builtin has. *)
Definition builtin_closure_ty (substs : Substs) (n : nat) : outcome E Ty :=
  _ ← assert_that "assertion `left == right` failed" (length (substs_tys substs) =? n);
  unwrap "index out of bounds" (substs_tys substs !! (n - 1)).

Definition encode_pure_only_builtin (b : SpecBuiltin) (arg_tys : Substs) (args : list Operand)
    (curr_ver : Versions) : M E Expr :=
  match b with
  | SpecForall | SpecExists =>
      closure_ty ← lift (builtin_closure_ty arg_tys 3);
      encoded_args ← mapM_ (encode_operand_snap curr_ver) args;
      _ ← lift (assert_that "assertion `left == right` failed" (length encoded_args =? 2));
      closure_snap ← lift (unwrap "index out of bounds" (encoded_args !! 1));
      res ← lift (encode_spec_closure closure_ty closure_snap);
      mret match b with SpecForall => Forall_ res.1 [] res.2 | _ => Exists_ res.1 [] res.2 end
  | SpecBlock =>
      closure_ty ← lift (builtin_closure_ty arg_tys 2);
      encoded_args ← mapM_ (encode_operand_snap curr_ver) args;
      _ ← lift (assert_that "assertion `left == right` failed" (length encoded_args =? 1));
      closure_snap ← lift (unwrap "index out of bounds" (encoded_args !! 0));
      res ← lift (encode_spec_closure closure_ty closure_snap);
      _ ← lift (assert_that "`spec_block` closures take no arguments" (bool_decide (res.1 = [])));
      mret res.2
  | ModeStart mode => _ ← mode_start mode; mret (mk_bool true)
  | ModeEnd mode => _ ← mode_end mode; mret (mk_bool true)
  end.

Definition encode_intrinsic (arg_tys : Substs) (args : list Operand) (curr_ver : Versions) : M E Expr :=
  _ ← lift (assert_that "assertion `left == right` failed" (length (substs_tys arg_tys) =? 2));
  _ ← lift (assert_that "assertion `left == right` failed" (length args =? 1));
  dest_ty ← lift (unwrap "index out of bounds" (substs_tys arg_tys !! 1));
  arg ← lift (unwrap "index out of bounds" (args !! 0));
  encode_unary_op_snap dest_ty mir.PtrMetadata arg curr_ver.

(** [encode_prusti_builtin]; the pure-only builtins are left to the caller. *)
Definition encode_prusti_builtin (b : PrustiBuiltin) (def_id : DefId) (gargs : Substs)
    (args : list Operand) (curr_ver : Versions) : M E (option Expr) :=
  match b with
  | BuiltinSpec _ => mret None
  | BuiltinOperands op =>
      f ← lift (prusti_builtin_enc op def_id gargs);
      operands ← mapM_ (encode_operand_snap curr_ver) args;
      mret (Some (f operands))
  end.

Definition encode_call (func : Operand) (args : list Operand) (curr_ver : Versions) : M E Expr :=
  let '(def_id, arg_tys) := fn_def func in
  if is_ptr_metadata def_id then encode_intrinsic arg_tys args curr_ver
  else match prusti_builtin def_id arg_tys with
  | Some b =>
      e ← encode_prusti_builtin b def_id arg_tys args curr_ver;
      match e with
      | Some e => mret e
      | None =>
          match b with
          | BuiltinSpec b => encode_pure_only_builtin b arg_tys args curr_ver
          | BuiltinOperands _ => lift unreachable
          end
      end
  | None =>
      if is_function_pure def_id arg_tys then
        pure_func ← lift (unwrap_ok (function_call_enc def_id arg_tys));
        snap_args ← mapM_ (encode_operand_snap curr_ver) args;
        lift (pure_func snap_args)
      else lift (Panic "call to unknown non-pure function in pure code")
  end.

(** ** Bindings and branches *)
Definition bind_expr (used : gset (MirLocal * nat)) (b : UpdateBind) (e : Expr) : outcome E Expr :=
  match b with
  | BindLocal l v val =>
      if bool_decide ((l, v_index v) ∈ used) then
        decl ← unwrap "called `Option::unwrap()` on a `None` value" (initialised v);
        Ok (Let (decl_name decl) val e)
      else Ok e
  | BindPhi v val =>
      decl ← unwrap "called `Option::unwrap()` on a `None` value" (initialised v);
      Ok (Let (decl_name decl) val e)
  end.

(** The fold from the right over the bindings. *)
Fixpoint reify_binds (used : gset (MirLocal * nat)) (bs : list UpdateBind) (e : Expr) : outcome E Expr :=
  match bs with
  | [] => Ok e
  | b :: bs => e ← reify_binds used bs e; bind_expr used b e
  end.

Definition branch_version (curr_ver : Versions) (u : Update) (l : MirLocal) : Version :=
  match versions u !! l with
  | Some v => v
  | None =>
      default {| v_index := 255; v_location := v_location Version_default; initialised := None |}
        (curr_ver !! l)
  end.

Definition reify_branch (used : gset (MirLocal * nat)) (tuple_ref : TyUsePure) (mod_locals : list MirLocal)
    (curr_ver : Versions) (u : option Update) : outcome E Expr :=
  match u with
  | Some u =>
      tuple_args ← collect (fun l => mk_version_ex (branch_version curr_ver u l)) mod_locals;
      tuple ← mk_cons tuple_ref tuple_args;
      reify_binds used (binds u) tuple
  | None => Ok (mk_unreachable tuple_ref)
  end.

(** The locals that some arm gives a new version and that exist before the
    branch, in order. *)
Definition modified_locals (curr_ver : Versions) (updates : list (option Update)) : list MirLocal :=
  merge_sort (≤) (elements (dom curr_ver ∩
    ⋃ ((fun u => from_option (fun u => dom (versions u)) (∅ : gset MirLocal) u) <$> updates))).

Definition mark_modified (mod_locals : list MirLocal) (updates : list (option Update)) : M E unit :=
  modify (fun s => set_versions_used (versions_used s ∪
    list_to_set (updates ≫= fun u =>
      match u with
      | Some u => mod_locals ≫= fun l =>
          match versions u !! l with Some v => [(l, v_index v)] | None => [] end
      | None => []
      end)) s).

(** The value of the phi variable: the arms tested one after the other, the
    last one outermost, around the otherwise arm. *)
Fixpoint switch_expr (used : gset (MirLocal * nat)) (tuple_ref : TyUsePure) (mod_locals : list MirLocal)
    (curr_ver : Versions) (k : TyPurePrimDataKind) (discr : TyKind) (discr_expr : Expr)
    (arms : list (Z * option Update)) (acc : Expr) : outcome E Expr :=
  match arms with
  | [] => Ok acc
  | (cond_val, u) :: arms =>
      prim ← snap_to_prim k discr_expr;
      bits ← expr_from_bits k discr cond_val;
      arm ← reify_branch used tuple_ref mod_locals curr_ver u;
      switch_expr used tuple_ref mod_locals curr_ver k discr discr_expr arms
        (mk_ternary_expr (mk_eq_expr prim bits) arm acc)
  end.

(** [phi_idx]: the next phi variable. *)
Definition new_phi (location : Location) (ty : TypeKind) : M E Version :=
  s ← get_state;
  let v := {| v_index := phi_ctr s; v_location := location; initialised := None |} in
  _ ← modify (set_phi_ctr (S (phi_ctr s)));
  mret (with_decl v {| decl_name := mk_phi debug encoding_depth v; decl_ty := ty |}).

(** New versions of the modified locals, the elements of the phi variable. *)
Fixpoint destructure_phi (tuple_ref : TyUsePure) (phi : Version) (elem_idx : nat)
    (mod_locals : list MirLocal) (location : Location) (u : Update) (curr_ver : Versions) :
    M E (Update * Versions) :=
  match mod_locals with
  | [] => mret (u, curr_ver)
  | l :: mod_locals =>
      _ ← lift (get_ty_for_local l);
      p ← lift (mk_version_ex phi);
      e ← lift (mk_elem tuple_ref p elem_idx);
      u ← bump_version u l e location;
      v ← lift (unwrap "no entry found for key" (versions u !! l));
      destructure_phi tuple_ref phi (S elem_idx) mod_locals location u (<[l := v]> curr_ver)
  end.

Definition tuple_of (mod_locals : list MirLocal) : outcome E TyUsePure :=
  mod_tys ← collect (local_ty body) mod_locals; unwrap_ok (viper_tuple mod_tys).

Definition kind_of_ty (ty : Ty) : TyKind :=
  match ty_shape ty with ShapePrim k => k | _ => TyOther "" end.

(** The phi variable and the versions taken from it. *)
Definition finish_branch (tuple_ref : TyUsePure) (mod_locals : list MirLocal) (location : Location)
    (phi_expr : Expr) (curr_ver : Versions) : M E (Update * Versions) :=
  phi ← new_phi location (snapshot tuple_ref);
  destructure_phi tuple_ref phi 0 mod_locals location
    {| binds := [BindPhi phi phi_expr]; versions := ∅ |} curr_ver.

(** ** Reverse dominators *)
Definition reverse_graph (b : Body) : Graph :=
  let n := length (basic_blocks b) in
  let ends := filter (fun bb => match block_terminator b bb with
                                | Some Return | Some UnwindResume => true
                                | _ => false end = true) (seq 0 n) in
  {| num_nodes := S n;
     start_node := n;
     graph_predecessors bb :=
       if (bb =? n)%nat then [] else if bool_decide (bb ∈ ends) then [n] else block_successors b bb;
     graph_successors bb := if (bb =? n)%nat then ends else block_predecessors b bb |}.

Definition end_block (b : Body) : MirBlock := start_node (reverse_graph b).
Definition join_of (bb : MirBlock) : outcome E MirBlock :=
  unwrap "called `Option::unwrap()` on a `None` value" (immediate_dominator (reverse_graph body) bb).

(** ** The control-flow graph

    [encode_cfg] encodes from [curr] up to [join_point]; [None] says that this
    part ends in an unreachable block. [stuck] is the result without fuel; on a
    loop-free graph one unit more than it has blocks is enough. *)
Fixpoint encode_cfg_from (stuck : M E (option Update)) (fuel : nat) (curr_ver : Versions) (curr join_point : MirBlock) {struct fuel} :
    M E (option Update) :=
  match fuel with
  | 0 => stuck
  | S fuel =>
    if (curr =? join_point)%nat then mret (Some Update_new) else
    data ← lift (unwrap "index out of bounds" (basic_blocks body !! curr));
    res ← encode_stmts curr_ver curr 0 (statements data) Update_new;
    let '(new_curr_ver, stmt_update) := res in
    term ← lift (unwrap "called `Option::unwrap()` on a `None` value" (terminator data));
    let location := {| block := curr; statement_index := length (statements data) |} in
    match term with
    | Goto target | FalseEdge target _ | Drop target _ =>
        rest_update ← encode_cfg_from stuck fuel new_curr_ver target join_point;
        mret (update_merge stmt_update rest_update)
    | SwitchInt discr targets =>
        match ghost_switches !! curr with
        | Some arm_block =>
            rest_update ← encode_cfg_from stuck fuel new_curr_ver arm_block join_point;
            mret (update_merge stmt_update rest_update)
        | None =>
            discr_expr ← encode_operand_snap new_curr_ver discr;
            discr_ty ← lift (operand_ty body discr);
            discr_ty_use ← lift (ty_use discr_ty);
            k ← lift (expect_primitive discr_ty_use);
            new_join_point ← lift (join_of curr);
            updates ← mapM_ (fun target => encode_cfg_from stuck fuel new_curr_ver target new_join_point)
                        (snd <$> switch_values targets);
            otherwise_update ← encode_cfg_from stuck fuel new_curr_ver (switch_otherwise targets) new_join_point;
            let all_updates := updates ++ [otherwise_update] in
            let mod_locals := modified_locals new_curr_ver all_updates in
            _ ← mark_modified mod_locals all_updates;
            tuple_ref ← lift (tuple_of mod_locals);
            s ← get_state;
            otherwise ← lift (reify_branch (versions_used s) tuple_ref mod_locals new_curr_ver otherwise_update);
            phi_expr ← lift (switch_expr (versions_used s) tuple_ref mod_locals new_curr_ver k
                               (kind_of_ty discr_ty) discr_expr
                               (zip (fst <$> switch_values targets) updates) otherwise);
            phi ← finish_branch tuple_ref mod_locals location phi_expr new_curr_ver;
            end_update ← encode_cfg_from stuck fuel phi.2 new_join_point join_point;
            mret (update_merge stmt_update (update_merge phi.1 end_update))
        end
    | Assert cond expected target _ =>
        cond_ty ← lift (operand_ty body cond);
        _ ← lift (assert_that "assertion `left == right` failed"
                    match ty_shape cond_ty with ShapePrim TyBool => true | _ => false end);
        cond_expr ← encode_operand_snap new_curr_ver cond;
        ok_update ← encode_cfg_from stuck fuel new_curr_ver target join_point;
        _ ← lift (unwrap "called `Option::unwrap()` on a `None` value" ok_update);
        let mod_locals := modified_locals new_curr_ver [ok_update] in
        _ ← mark_modified mod_locals [ok_update];
        tuple_ref ← lift (tuple_of mod_locals);
        s ← get_state;
        ok ← lift (reify_branch (versions_used s) tuple_ref mod_locals new_curr_ver ok_update);
        fail ← lift (reify_branch (versions_used s) tuple_ref mod_locals new_curr_ver None);
        let phi_expr := mk_ternary_expr (mk_eq_expr cond_expr (Const (CBool expected))) ok fail in
        phi ← finish_branch tuple_ref mod_locals location phi_expr new_curr_ver;
        mret (update_merge stmt_update (Some phi.1))
    | Return => mret (Some stmt_update)
    | Unreachable => mret None
    | Call func args destination target _ =>
        match target with
        | None => mret None
        | Some target =>
            e ← encode_call func args new_curr_ver;
            _ ← lift (assert_that "assertion failed: destination.projection.is_empty()"
                        (bool_decide (projection destination = [])));
            term_update ← bump_version Update_new (Mir.local destination) e location;
            end_update ← encode_cfg_from stuck fuel (add_to_map term_update new_curr_ver) target join_point;
            mret (update_merge (merge_inner stmt_update term_update) end_update)
        end
    | UnwindResume | TerminatorOther _ => lift (todo "terminator kind")
    end
  end.

Definition encode_cfg : nat -> Versions -> MirBlock -> MirBlock -> M E (option Update) :=
  encode_cfg_from (lift (Panic "out of fuel")).

(** ** Whole bodies *)
Definition Enc_new : Enc := {|
  version_ctr := replicate (length (local_decls body)) 0;
  versions_used := ∅;
  phi_ctr := 0;
  old_mode := false; rel0_mode := false; rel1_mode := false; before_expiry_mode := false;
|}.

(** Version 0 of the locals before [local_count] other than the result: inputs. *)
Fixpoint init_inputs (u : Update) (locals : list MirLocal) : M E Update :=
  match locals with
  | [] => mret u
  | l :: locals =>
      ty ← lift (get_ty_for_local l);
      u ← bump_version_init u l (Lazy (lazy_input l) ty) (v_location Version_default);
      init_inputs u locals
  end.

Definition encode_common (fuel : nat) (start end_ : MirBlock) (local_count : nat) (result_local : MirLocal) :
    M E Expr :=
  init ← init_inputs {| binds := []; versions := {[RETURN_PLACE := Version_default]} |}
           (seq 1 (local_count - 1));
  update ← encode_cfg fuel (versions init) start end_;
  res ← lift (unwrap "function unconditionally terminates with unreachable" (update_merge init update));
  let ret_version := default Version_default (versions res !! result_local) in
  _ ← mark_used result_local (v_index ret_version);
  ex ← lift (mk_version_ex ret_version);
  s ← get_state;
  lift (reify_binds (versions_used s) (binds res) ex).

Definition encode_body (fuel : nat) : M E Expr :=
  _ ← lift (assert_that "MIR pure encoding does not support loops" (negb (is_cyclic (body_graph body))));
  encode_common fuel 0 (end_block body) (arg_count body + 1) RETURN_PLACE.

Definition encode_spec_block (fuel : nat) (bb : MirBlock) : M E Expr :=
  data ← lift (unwrap "index out of bounds" (basic_blocks body !! bb));
  match terminator data with
  | Some (Call _ _ destination _ _) =>
      _ ← lift (assert_that "assertion failed: destination.projection.is_empty()"
                  (bool_decide (projection destination = [])));
      next ← lift (unwrap "called `Option::unwrap()` on a `None` value" (head (block_successors body bb)));
      encode_common fuel bb next (length (local_decls body)) (Mir.local destination)
  | _ => lift (Panic "malformed spec-only block: should end in a call terminator")
  end.
End encoder.

(** ** The task *)
Inductive PureKind :=
| KindClosure
| KindSpec (extern : bool)
| KindPure
| KindConstant (promoted : nat)
| KindSpecBlock (block : MirBlock).

Definition is_impure_context (k : PureKind) : bool := match k with KindSpec _ => true | _ => false end.

(** The locals whose version 0 is read, other than the result. *)
Definition collect_inputs (used : gset (MirLocal * nat)) : list MirLocal :=
  merge_sort (≤) (elements (set_map (D := gset MirLocal) fst
    (filter (fun lv => lv.1 <> RETURN_PLACE /\ lv.2 = 0) used))).

(** The closure around the inner expression: it checks the definition and the
    number of inputs, and a lazy node whose local has no input panics. *)
Definition reify_outer {E} (def_id : DefId) (inputs : list MirLocal) (expr_inner : Expr)
    (lctx : ExprInput) : outcome E Expr :=
  _ ← assert_that "assertion `left == right` failed" (lctx.1 =? def_id);
  _ ← assert_that "assertion failed: lctx.1.len() >= inputs_expected" (length inputs <=? size lctx.2);
  _ ← assert_that "no entry found for key"
        (forallb (fun n => bool_decide (is_Some (lazy_table lctx.2 !! n))) (elements (lazy_names expr_inner)));
  Ok (reify (lazy_table lctx.2) expr_inner).

Definition do_encode_full {R : Rustc} {H : Host} {E} {D : PureDeps E} (debug : bool) (encoding_depth : nat)
    (kind : PureKind) (def_id : DefId) (body : Body) (ghost_switches : gmap MirBlock MirBlock) (fuel : nat) :
    outcome E (MirPureEncOutput E) :=
  let impure_context := is_impure_context kind in
  res ← match kind with
        | KindSpecBlock bb => encode_spec_block debug encoding_depth body ghost_switches impure_context fuel bb
        | _ => encode_body debug encoding_depth body ghost_switches impure_context fuel
        end (Enc_new body);
  let inputs := collect_inputs (versions_used res.2) in
  _ ← match kind with
      | KindSpecBlock _ => Ok TBool
      | _ => snapshot <$> ty_use_pure (return_ty body)
      end;
  Ok {| out_inputs := inputs; out_expr := reify_outer def_id inputs res.1 |}.
