(* ===== verification/PureSem.v ===== *)
(** * Execution of pure MIR bodies

    The reference for the encoding of pure functions: a machine that runs a
    body block by block on a store of snapshots. Projections and aggregates act
    on snapshots as the functions of their types do; operators, casts, constants
    and callees have the meaning that the class [PureMeaning] gives to the
    expressions the other encoders return for them. The names that the encoder
    formats ([mk_local] and [mk_phi] of [mir_pure.rs]) determine the encoding depth,
    the local and the index of the version, in debug and in release builds. *)
From stdpp Require Import pretty.
From S2P Require Import Prelude Names FlowEngine Mir.
From S2P Require Import Vir VirMake VirSem VirInt VirReify TyDomain Primitive BinOpEnc TyUse PureMir PureEnc.

(** ** Versions, locals and phi variables *)
Lemma show_version_inj debug v v' : show_version debug v = show_version debug v' -> v_index v = v_index v'.
Proof.
  unfold show_version. destruct debug; [|by intros ?%(inj pretty)].
  cbn [String.append]. intros [= Heq].
  apply pretty_split in Heq as [_ Heq]; [|done..]. injection Heq as Heq.
  apply pretty_split in Heq as [_ Heq]; [|done..]. injection Heq as Heq.
  by apply (inj pretty) in Heq.
Qed.

Lemma mk_local_inj debug d l v d' l' v' :
  mk_local debug d l v = mk_local debug d' l' v' -> d = d' /\ l = l' /\ v_index v = v_index v'.
Proof.
  unfold mk_local. cbn [String.append]. intros [= Heq].
  apply pretty_split in Heq as [-> Heq]; [|done..]. injection Heq as Heq.
  apply pretty_split in Heq as [-> Heq]; [|done..]. injection Heq as Heq.
  by apply show_version_inj in Heq.
Qed.

Lemma mk_phi_inj debug d v d' v' :
  mk_phi debug d v = mk_phi debug d' v' -> d = d' /\ v_index v = v_index v'.
Proof.
  unfold mk_phi. cbn [String.append]. intros [= Heq].
  apply pretty_split in Heq as [-> Heq]; [|done..]. injection Heq as Heq.
  by apply show_version_inj in Heq.
Qed.

Lemma mk_local_phi debug d l v d' v' : mk_local debug d l v <> mk_phi debug d' v'.
Proof.
  unfold mk_local, mk_phi. cbn [String.append]. intros [= Heq].
  apply pretty_split in Heq as [-> Heq]; [|done..]. injection Heq as Heq.
  pose proof (pretty_nat_dec l) as Hl. destruct (pretty l) as [|c s]; simpl in *; [done|].
  injection Heq as -> _. done.
Qed.

(** ** Lazy nodes *)
Lemma lazy_input_inj l l' : lazy_input l = lazy_input l' -> l = l'.
Proof. intros Heq. injection Heq as Heq. change (pretty l = pretty l') in Heq. by apply (inj (pretty (A := nat))) in Heq. Qed.

Lemma lazy_wrapped_inj l l' : lazy_wrapped l = lazy_wrapped l' -> l = l'.
Proof. intros Heq. injection Heq as Heq. change (pretty l = pretty l') in Heq. by apply (inj (pretty (A := nat))) in Heq. Qed.

Lemma lazy_table_input inputs l : lazy_table inputs !! lazy_input l = inputs !! l.
Proof.
  unfold lazy_table. rewrite list_to_map_app, lookup_union.
  assert ((list_to_map ((fun le => (lazy_wrapped le.1, le.2)) <$> map_to_list inputs) : gmap string Expr)
            !! lazy_input l = None) as ->.
  { apply not_elem_of_list_to_map_1. rewrite <- list_fmap_compose.
    intros ([l' e] & Heq & _)%list_elem_of_fmap. discriminate Heq. }
  rewrite (right_id None _).
  destruct (inputs !! l) as [e|] eqn:Hl.
  - apply elem_of_list_to_map_1.
    + rewrite <- list_fmap_compose. change (fst ∘ _) with (lazy_input ∘ fst (B := Expr)).
      rewrite list_fmap_compose. apply NoDup_fmap_2; [intros ??; apply lazy_input_inj|].
      apply NoDup_fst_map_to_list.
    + apply list_elem_of_fmap. exists (l, e). split; [done|]. by apply elem_of_map_to_list.
  - apply not_elem_of_list_to_map_1. rewrite <- list_fmap_compose.
    intros ([l' e] & Heq%lazy_input_inj & Hin)%list_elem_of_fmap. simpl in Heq. subst l'.
    apply elem_of_map_to_list in Hin. congruence.
Qed.

Definition ok {E A} (o : outcome E A) : option A := match o with Ok a => Some a | _ => None end.

Lemma ok_Some {E A} (o : outcome E A) a : ok o = Some a <-> o = Ok a.
Proof. destruct o; simpl; split; congruence. Qed.

(** ** What the other encoders promise

    [base] is the environment in which the expression is used: it has the
    parameters of the function and the generic arguments. An expression transformer
    means a function on values when it maps expressions with values to
    expressions with the value of the function, and keeps the variables of its
    operands. *)
Section transformers.
Context {VM : ViperModel} (base : gmap string (value domain_value)).
Abbreviation val := (value domain_value).

Definition means (f : list Expr -> Expr) (g : list val -> option val) : Prop :=
  forall m ρ es, base ⊆ ρ ->
    (in_scope m ρ (f es) -> Forall (in_scope m ρ) es) /\
    (forall vs w, denote_all m ρ es vs -> g vs = Some w -> denotes m ρ (f es) w).

End transformers.

Class PureMeaning {VM : ViperModel} (E : Type) {D : PureDeps E} (base : gmap string (value domain_value)) := {
  bin_op_sem : Ty -> mir.BinOp -> Ty -> Ty -> list (value domain_value) -> option (value domain_value);
  un_op_sem : Ty -> mir.UnOp -> Ty -> list (value domain_value) -> option (value domain_value);
  use_cast_sem : Ty -> nat -> Ty -> list (value domain_value) -> option (value domain_value);
  prusti_builtin_sem : nat -> DefId -> Substs -> list (value domain_value) -> option (value domain_value);
  function_sem : DefId -> Substs -> list (value domain_value) -> option (value domain_value);
  bin_op_means rty op l r f : bin_op_enc rty op l r = Ok f ->
    forall m ρ a b, base ⊆ ρ -> (in_scope m ρ (f a b) -> in_scope m ρ a /\ in_scope m ρ b) /\
      forall v w u, denotes m ρ a v -> denotes m ρ b w -> bin_op_sem rty op l r [v; w] = Some u ->
        denotes m ρ (f a b) u;
  un_op_means rty op x f : un_op_enc rty op x = Ok f ->
    forall m ρ a, base ⊆ ρ -> (in_scope m ρ (f a) -> in_scope m ρ a) /\
      forall v u, denotes m ρ a v -> un_op_sem rty op x [v] = Some u -> denotes m ρ (f a) u;
  use_cast_means rty kind x f : use_cast_enc rty kind x = Ok f ->
    forall m ρ a, base ⊆ ρ -> (in_scope m ρ (f a) -> in_scope m ρ a) /\
      forall v u, denotes m ρ a v -> use_cast_sem rty kind x [v] = Some u -> denotes m ρ (f a) u;
  prusti_builtin_means op d substs f : prusti_builtin_enc op d substs = Ok f ->
    means base f (prusti_builtin_sem op d substs);
  function_means d substs f es e : function_call_enc d substs = Ok f -> f es = Ok e ->
    forall m ρ, base ⊆ ρ -> (in_scope m ρ e -> Forall (in_scope m ρ) es) /\
      forall vs w, denote_all m ρ es vs -> function_sem d substs vs = Some w -> denotes m ρ e w;
}.

Section machine.
Context {R : Rustc} {H : Host} {E : Type} {D : PureDeps E} {VM : ViperModel}.
Variable base : gmap string (value domain_value).
Context {PM : PureMeaning E base}.
Variables (body : Body) (ghost_switches : gmap MirBlock MirBlock) (impure_context : bool).
Abbreviation val := (value domain_value).
Abbreviation store := (gmap MirLocal val).

(** ** Places

    A place has a value and, behind a reference, the metadata of the pointer. *)
Definition prim_sem (k : TyPurePrimDataKind) (v : val) : option val :=
  match k with
  | PrimBool => Some v
  | PrimInt i => viper_fun (idn_name (int_snap_to_prim i)) [v]
  | PrimFloat _ => None
  end.

Definition snap_sem (k : TyPurePrimDataKind) (v : val) : option val :=
  match k with
  | PrimBool => Some v
  | PrimInt i => viper_fun (idn_name (int_prim_to_snap i)) [v]
  | PrimFloat f => viper_fun (idn_name (float_prim_to_snap f)) [v]
  end.

Definition elem_sem (σ : store) (pt : PlaceTy) (elem : ProjectionElem) (p : val * option val) :
    option (val * option val) :=
  t ← ok (ty_use (E := E) (pt_ty pt));
  match elem with
  | Mir.Deref =>
      match ty_shape (pt_ty pt) with
      | ShapeAdt true =>
          s ← ok (E := E) (expect_variant_opt t (pt_variant pt));
          f ← struct_fields s !! 0;
          v ← read_sem base f p.1; Some (v, None)
      | ShapeRef false =>
          r ← ok (E := E) (expect_immref t);
          v ← value_sem base r p.1; md ← metadata_sem base r p.1; Some (v, Some md)
      | ShapeRef true =>
          r ← ok (E := E) (expect_mutref t);
          if impure_context then None
          else v ← value_sem base r p.1; md ← metadata_sem base r p.1; Some (v, Some md)
      | _ => None
      end
  | Mir.Field i _ =>
      s ← ok (E := E) (expect_variant_opt t (pt_variant pt));
      f ← struct_fields s !! i;
      v ← read_sem base f p.1;
      Some (v, if (i + 1 =? length (struct_fields s))%nat then p.2 else None)
  | Mir.Index idx =>
      a ← ok (E := E) (expect_array t);
      i ← σ !! idx;
      usize ← ok (ty_use (E := E) usize_ty);
      k ← ok (E := E) (expect_primitive usize);
      i ← prim_sem k i;
      v ← index_sem base a p.1 i; Some (v, None)
  | Mir.Downcast _ => Some p
  | _ => None
  end.

Fixpoint elems_sem (σ : store) (pt : PlaceTy) (elems : list ProjectionElem) (p : val * option val) :
    option (val * option val) :=
  match elems with
  | [] => Some p
  | elem :: elems => p ← elem_sem σ pt elem p; elems_sem σ (projection_ty pt elem) elems p
  end.

Definition place_sem (σ : store) (place : Place) : option (val * option val) :=
  v ← σ !! Mir.local place;
  ty ← local_decls body !! Mir.local place;
  elems_sem σ (place_ty_from_ty ty) (projection place) (v, None).

Definition operand_sem (σ : store) (op : Operand) : option val :=
  match op with
  | Copy p | Move p => fst <$> place_sem σ p
  | Constant c => e ← ok (E := E) (const_enc c); eval base e
  end.

Fixpoint operands_sem (σ : store) (ops : list Operand) : option (list val) :=
  match ops with
  | [] => Some []
  | op :: ops => v ← operand_sem σ op; vs ← operands_sem σ ops; Some (v :: vs)
  end.

(** ** Rvalues *)
Definition thin_metadata_sem (ref_ty : Ty) : option val :=
  t ← ok (ty_use (E := E) (pointee_metadata_ty ref_ty));
  s ← get_structlike t;
  if bool_decide (struct_fields s = []) then struct_sem base s [] else None.

Definition pointer_metadata_sem (ref_ty : Ty) (md : option val) : option val :=
  match md with Some md => Some md | None => thin_metadata_sem ref_ty end.

Definition rvalue_sem (σ : store) (rvalue : Rvalue) : option val :=
  let rv_ty := rvalue_ty body rvalue in
  match rvalue with
  | Use op => operand_sem σ op
  | Ref is_mut place =>
      t ← ok (ty_use (E := E) rv_ty);
      r ← ok (E := E) (if is_mut : bool then expect_mutref t else expect_immref t);
      p ← place_sem σ place;
      md ← pointer_metadata_sem rv_ty p.2;
      reference_sem base r md p.1
  | RawPtr place =>
      t ← ok (ty_use (E := E) rv_ty);
      r ← ok (E := E) (expect_raw t);
      p ← place_sem σ place;
      md ← pointer_metadata_sem rv_ty p.2;
      raw_sem base r md
  | BinaryOp op l r =>
      l_ty ← ok (E := E) (operand_ty body l);
      r_ty ← ok (E := E) (operand_ty body r);
      vs ← operands_sem σ [l; r];
      bin_op_sem rv_ty op l_ty r_ty vs
  | UnaryOp op x =>
      x_ty ← ok (E := E) (operand_ty body x);
      vs ← operands_sem σ [x];
      un_op_sem rv_ty op x_ty vs
  | Cast kind x _ =>
      x_ty ← ok (E := E) (operand_ty body x);
      vs ← operands_sem σ [x];
      use_cast_sem rv_ty kind x_ty vs
  | Aggregate kind fields =>
      vs ← operands_sem σ fields;
      t ← ok (ty_use (E := E) rv_ty);
      s ← ok (E := E) match kind with
                      | AggAdt vidx => get_variant_any t vidx
                      | AggOther => Panic ""
                      | _ => expect_structlike t
                      end;
      struct_sem base s vs
  | Discriminant place =>
      pt ← ok (E := E) (place_ty body place);
      t ← ok (ty_use (E := E) (pt_ty pt));
      match opt_filter (bool_decide (pt_variant pt = None)) (get_enumlike t) with
      | Some e => p ← place_sem σ place; viper_fun (idn_name (enum_snap_to_discr_snap e)) [p.1]
      | None =>
          t ← ok (ty_use (E := E) rv_ty);
          k ← ok (E := E) (expect_primitive t);
          snap_sem k (VInt 0)
      end
  | Len place =>
      pt ← ok (E := E) (place_ty body place);
      e ← ok (E := E) (array_len (pt_ty pt));
      eval base e
  | RvalueOther => None
  end.

(** ** Steps *)

(** A value of the type of a local. *)
Definition has_ty (ty : Ty) (v : val) : bool :=
  match ty_use_pure (E := E) ty with Ok t => bool_decide (value_ty v = snapshot t) | _ => false end.
Definition has_local_ty (l : MirLocal) (v : val) : bool :=
  match local_decls body !! l with Some ty => has_ty ty v | None => false end.

Definition assign_sem (σ : store) (dest : Place) (v : val) : option store :=
  if bool_decide (projection dest = []) && has_local_ty (Mir.local dest) v
  then Some (<[Mir.local dest := v]> σ) else None.

(** Storage statements leave a local without a value; an assignment through a
    projection has no meaning here. *)
Definition stmt_sem (σ : store) (stmt : StatementKind) : option store :=
  match stmt with
  | StorageLive l | StorageDead l => Some (delete l σ)
  | FakeRead | AscribeUserType | PlaceMention => Some σ
  | Assign dest rvalue => v ← rvalue_sem σ rvalue; assign_sem σ dest v
  | StatementOther => None
  end.

Fixpoint stmts_sem (σ : store) (stmts : list StatementKind) : option store :=
  match stmts with
  | [] => Some σ
  | stmt :: stmts => σ ← stmt_sem σ stmt; stmts_sem σ stmts
  end.

(** The constant that an arm of a switch compares with. *)
Definition bits_sem (k : TyPurePrimDataKind) (ty : TyKind) (bits : Z) : option val :=
  e ← ok (E := E) (expr_from_bits k ty bits); eval ∅ e.

(** [SwitchTargets::target_for_value]: the first arm with the value. *)
Fixpoint switch_sem {A} (k : TyPurePrimDataKind) (ty : TyKind) (v : val) (arms : list (Z * A))
    (otherwise : A) : option A :=
  match arms with
  | [] => Some otherwise
  | (bits, target) :: arms =>
      w ← bits_sem k ty bits;
      if bool_decide (v = w) then Some target else switch_sem k ty v arms otherwise
  end.

(** A call of a pure function or of a builtin on operands. The builtins of
    specifications have no value in one state. *)
Definition call_value (σ : store) (func : Operand) (args : list Operand) : option val :=
  let '(d, substs) := fn_def func in
  if is_ptr_metadata d then
    arg ← args !! 0;
    dest_ty ← substs_tys substs !! 1;
    x_ty ← ok (E := E) (operand_ty body arg);
    vs ← operands_sem σ [arg];
    un_op_sem dest_ty mir.PtrMetadata x_ty vs
  else match prusti_builtin (E := E) d substs with
  | Some (BuiltinOperands op) => vs ← operands_sem σ args; prusti_builtin_sem op d substs vs
  | Some (BuiltinSpec _) => None
  | None =>
      if is_function_pure (E := E) d substs then vs ← operands_sem σ args; function_sem d substs vs else None
  end.

(** The terminator of a block [bb]. A return continues at the virtual end block;
    drops have no effect, and the switch of a [ghost!] block continues in its
    ghost arm. *)
Definition term_sem (σ : store) (bb : MirBlock) (term : TerminatorKind) : option (store * MirBlock) :=
  match term with
  | Goto target | FalseEdge target _ | Drop target _ => Some (σ, target)
  | SwitchInt discr targets =>
      match ghost_switches !! bb with
      | Some arm => Some (σ, arm)
      | None =>
          v ← operand_sem σ discr;
          ty ← ok (E := E) (operand_ty body discr);
          t ← ok (ty_use (E := E) ty);
          k ← ok (E := E) (expect_primitive t);
          p ← prim_sem k v;
          target ← switch_sem k (kind_of_ty ty) p (switch_values targets) (switch_otherwise targets);
          Some (σ, target)
      end
  | Assert cond expected target _ =>
      v ← operand_sem σ cond;
      if bool_decide (v = VBool expected) then Some (σ, target) else None
  | Call func args destination target _ =>
      target ← target;
      v ← call_value σ func args;
      σ ← assign_sem σ destination v;
      Some (σ, target)
  | Return => Some (σ, end_block body)
  | Unreachable | UnwindResume | TerminatorOther _ => None
  end.

(** One block: its statements and its terminator. *)
Definition step (σ : store) (bb : MirBlock) : option (store * MirBlock) :=
  data ← basic_blocks body !! bb;
  σ ← stmts_sem σ (statements data);
  term ← terminator data;
  term_sem σ bb term.

(** [finishes σ bb σ']: the run from [bb] returns with the store [σ']. *)
Inductive finishes : store -> MirBlock -> store -> Prop :=
| finishes_end σ : finishes σ (end_block body) σ
| finishes_step σ bb σ1 bb1 σ' :
    bb <> end_block body -> step σ bb = Some (σ1, bb1) -> finishes σ1 bb1 σ' -> finishes σ bb σ'.

Fixpoint run (fuel : nat) (σ : store) (bb : MirBlock) : option store :=
  if (bb =? end_block body)%nat then Some σ else
  match fuel with
  | 0 => None
  | S fuel => '(σ, bb) ← step σ bb; run fuel σ bb
  end.

Lemma run_finishes fuel σ bb σ' : run fuel σ bb = Some σ' -> finishes σ bb σ'.
Proof.
  revert σ bb. induction fuel as [|fuel IH]; intros σ bb; simpl;
    (destruct (Nat.eqb_spec bb (end_block body)) as [->|Hne]; [intros [= <-]; constructor|]); [done|].
  intros ([σ1 bb1] & Hs & Hr)%bind_Some. eapply finishes_step; [done|exact Hs|by apply IH].
Qed.

(** Calling the body: the parameters are the locals from 1 on. *)
Definition arg_store (args : list val) : store := list_to_map (zip (seq 1 (length args)) args).

Definition call_body (fuel : nat) (args : list val) : option val :=
  σ ← run fuel (arg_store args) 0; σ !! RETURN_PLACE.
End machine.
