(* ===== verification/PureRead.v ===== *)
(** * Values of places, operands and rvalues

    The expressions that the pure encoder builds for reads denote what the
    machine computes, in every environment that agrees with the store on the
    current versions; encoding a read changes no more than the set of used
    versions. *)
From stdpp Require Import pretty.
From S2P Require Import Prelude FlowEngine Mir.
From S2P Require Import Vir VirMake VirSem VirInt VirReify TyDomain Primitive BinOpEnc TyUse PureMir PureEnc PureSem.

(** ** The monad of the encoder *)
Section monad.
Context {E : Type}.

Lemma M_bind_Ok {A B} (c : M E A) (f : A -> M E B) s b s' :
  (c ≫= f) s = Ok (b, s') -> exists a s1, c s = Ok (a, s1) /\ f a s1 = Ok (b, s').
Proof. unfold mbind, M_bind. destruct (c s) as [[a s1]| |]; intros; simplify_eq; eauto. Qed.

Lemma lift_Ok {A} (o : outcome E A) s a s' : lift o s = Ok (a, s') -> o = Ok a /\ s' = s.
Proof. unfold lift. destruct o; simpl; intros; simplify_eq; eauto. Qed.

Lemma mret_Ok {A} (a b : A) (s s' : Enc) : mret (M := M E) a s = Ok (b, s') -> b = a /\ s' = s.
Proof. unfold mret, M_ret. by intros [= -> ->]. Qed.

Lemma get_state_Ok (s x s' : Enc) : get_state (E := E) s = Ok (x, s') -> x = s /\ s' = s.
Proof. unfold get_state. by intros [= -> ->]. Qed.

Lemma modify_Ok f s (x : unit) s' : modify (E := E) f s = Ok (x, s') -> s' = f s.
Proof. unfold modify. by intros [= _ ->]. Qed.

Lemma unwrap_ok_Ok {A} (o : outcome E A) a : unwrap_ok o = Ok a -> o = Ok a.
Proof. by destruct o. Qed.
End monad.

Ltac inv_M :=
  repeat match goal with
  | H : (_ ≫= _) _ = Ok (_, _) |- _ =>
      let a := fresh "a" in let s := fresh "s" in let H1 := fresh "Hm" in
      apply M_bind_Ok in H as (a & s & H1 & H)
  | H : lift _ _ = Ok (_, _) |- _ => apply lift_Ok in H as [H ->]
  | H : mret _ _ = Ok (_, _) |- _ => apply mret_Ok in H as [H ->]
  | H : get_state _ = Ok (_, _) |- _ => apply get_state_Ok in H as [-> ->]
  | H : modify _ _ = Ok (_, _) |- _ => apply modify_Ok in H as ->
  end; simplify_eq.

(** The steps of the machine ask what the encoder asked. *)
Ltac rewrite_ok :=
  repeat match goal with
  | H : ?o = Ok ?a |- context [ok ?o] => rewrite (proj2 (ok_Some o a) H); cbn [mbind option_bind]
  end.

(** ** Computations that only mark versions as used *)
Definition reads (s s' : Enc) : Prop := s' = set_versions_used (versions_used s') s.

#[export] Instance reads_preorder : PreOrder reads.
Proof.
  split; [by intros []|]. intros s s1 s2 H1 H2. unfold reads in *. rewrite H2. cbn. rewrite H1. done.
Qed.

Lemma reads_mode s s' : reads s s' -> in_mode s' = in_mode s.
Proof. intros ->. done. Qed.

Section reading.
Context {R : Rustc} {H : Host} {E : Type} {D : PureDeps E} {VM : ViperModel}.
Variable base : gmap string (value domain_value).
Context {PM : PureMeaning E base}.
Variables (encoding_depth : nat) (body : Body) (impure_context : bool).
(** What the lazy nodes are replaced with. *)
Variable m : gmap string Expr.
Abbreviation val := (value domain_value).
Abbreviation store := (gmap MirLocal val).
Abbreviation env := (gmap string val).

(** A variable of [ρ] that is the current version of a local has the value of
    the local, if the local has one, and in any case a value of its type. A local
    whose version is not bound is not read. *)
Record agree (ρ : env) (σ : store) (cv : Versions) : Prop := {
  agree_value l ver d w v : cv !! l = Some ver -> initialised ver = Some d ->
    ρ !! decl_name d = Some w -> σ !! l = Some v -> w = v;
  agree_typed l ver d w : cv !! l = Some ver -> initialised ver = Some d ->
    ρ !! decl_name d = Some w -> has_local_ty (E := E) body l w = true;
}.

Variables (σ : store) (cv : Versions).

(** The expression of a read: if its variables are bound it denotes [sem]. *)
Definition computes (s s' : Enc) (e : Expr) (sem : option val) : Prop :=
  reads s s' /\
  forall ρ v, base ⊆ ρ -> agree ρ σ cv -> in_mode s = false -> in_scope m ρ e -> sem = Some v -> denotes m ρ e v.

(** ** Places *)
Lemma mark_used_reads l i s (x : unit) s' : mark_used (E := E) l i s = Ok (x, s') -> reads s s'.
Proof. intros Hm. unfold mark_used in Hm. inv_M. by destruct s. Qed.

Lemma in_scope_Local ρ name ty : in_scope m ρ (Local name ty) <-> is_Some (ρ !! name).
Proof. unfold in_scope. simpl. rewrite singleton_subseteq_l. apply elem_of_dom. Qed.

Lemma encode_place_local_spec l s e w s' :
  encode_place_local (E := E) body cv l s = Ok ((e, w), s') ->
  reads s s' /\ (in_mode s = false -> w = false /\ forall ρ v, agree ρ σ cv -> in_scope m ρ e ->
    σ !! l = Some v -> denotes m ρ e v).
Proof.
  intros He. unfold encode_place_local in He. inv_M.
  match goal with H : mark_used _ _ _ = _ |- _ => apply mark_used_reads in H as Hr end.
  split; [done|]. intros Hmode. rewrite <- (reads_mode _ _ Hr) in Hmode. rewrite Hmode in *.
  split; [done|]. intros ρ v Ha Hs Hv. simpl in *. unfold mk_version_ex in *. inv_outcome.
  apply in_scope_Local in Hs as [y Hx]. unfold denotes. simpl.
  match goal with H : initialised _ = Some _ |- _ => rename H into Hi end.
  by rewrite (agree_value _ _ _ Ha _ _ _ _ _ Hm Hi Hx Hv) in Hx.
Qed.

Lemma wrap_modes_spec w e s e' s' :
  wrap_modes (E := E) w e s = Ok (e', s') -> s' = s /\ (w = false -> e' = e).
Proof. intros He. unfold wrap_modes in He. inv_M. destruct w; inv_M; done. Qed.

Definition place_vals (ρ : env) (p : EncodedPlace) (vm : val * option val) : Prop :=
  (in_scope m ρ (snap p) -> denotes m ρ (snap p) vm.1) /\
  match metadata p, vm.2 with
  | Some e, Some w => in_scope m ρ e -> denotes m ρ e w
  | None, None => True
  | _, _ => False
  end.

(** What one projection preserves. *)
Definition projects (s s' : Enc) (p p' : EncodedPlace) (sem : val * option val -> option (val * option val)) : Prop :=
  reads s s' /\ (place_ref p = None -> place_ref p' = None) /\
  forall ρ vm vm', base ⊆ ρ -> agree ρ σ cv -> in_mode s = false -> sem vm = Some vm' ->
    place_vals ρ p vm -> place_vals ρ p' vm'.

Lemma option_map_None {A B} (f : A -> B) (o : option A) : o = None -> f <$> o = None.
Proof. by intros ->. Qed.

Lemma projects_read s f p place_ref' (keep : bool) :
  (place_ref p = None -> place_ref' = None) ->
  projects s s p
    {| snap := read f (snap p); place_ref := place_ref'; metadata := if keep then metadata p else None |}
    (fun vm => v ← read_sem base f vm.1; Some (v, if keep then vm.2 else None)).
Proof.
  intros Hp. split; [done|]. split; [done|]. intros ρ [v md] vm' Hb Ha _ (w & Hw & [= <-])%bind_Some [Hv Hmd].
  split; simpl in *; [|by destruct keep]. intros Hs%read_scope. eapply read_denotes; eauto.
Qed.

Lemma projects_reference s r p :
  projects s s p
    {| snap := value_access r (snap p); place_ref := place_ref p; metadata := Some (metadata_access r (snap p)) |}
    (fun vm => v ← value_sem base r vm.1; md ← metadata_sem base r vm.1; Some (v, Some md)).
Proof.
  split; [done|]. split; [done|]. 
  intros ρ [v md] vm' Hb Ha _ (w & Hw & (md' & Hmd & [= <-])%bind_Some)%bind_Some [Hv _].
  split; simpl in *; [intros Hs%value_scope; eapply value_denotes; eauto|].
  intros Hs%metadata_scope. eapply metadata_denotes; eauto.
Qed.

Lemma snap_to_prim_spec k e e' ρ :
  snap_to_prim (E := E) k e = Ok e' ->
  (in_scope m ρ e' -> in_scope m ρ e) /\
  forall v w, denotes m ρ e v -> prim_sem k v = Some w -> denotes m ρ e' w.
Proof.
  destruct k; simpl; intros [= <-].
  - split; [done|]. by intros v w Hv [= <-].
  - split; [intros Hs%in_scope_args; by apply Forall_cons in Hs as [? _]|].
    intros v w Hv Hw. eapply denotes_FuncApp; [|exact Hw]. by repeat constructor.
Qed.

Lemma encode_place_element_spec pt elem p s p' s' :
  encode_place_element (E := E) body impure_context cv pt elem p s = Ok (p', s') ->
  projects s s' p p' (elem_sem (E := E) base impure_context σ pt elem).
Proof.
  intros He. unfold encode_place_element in He. inv_M. unfold elem_sem. rename Hm into Ht.
  rewrite (proj2 (ok_Some _ _) Ht). cbn [mbind option_bind].
  destruct elem as [|i fty|idx| | | |]; inv_M; try done.
  - destruct (ty_shape (pt_ty pt)) as [|[]|[]| | | |]; inv_M; try done;
      rewrite (proj2 (ok_Some _ _) Hm0); cbn [mbind option_bind].
    + apply unwrap_Ok_inv in Hm1. rewrite Hm1. apply (projects_read _ _ _ _ false). apply option_map_None.
    + destruct impure_context; inv_outcome; [split; [done|split; done]|apply (projects_reference _ _ p)].
    + apply (projects_reference _ _ p).
  - rewrite (proj2 (ok_Some _ _) Hm). cbn [mbind option_bind]. apply unwrap_Ok_inv in Hm0. rewrite Hm0.
    cbn [mbind option_bind]. destruct (i + 1 =? length (struct_fields a0))%nat.
    + assert (match metadata p with
              | Some md => with_metadata (EncodedPlace_new (read a1 (snap p)) (field_ref a1 <$> place_ref p)) md
              | None => EncodedPlace_new (read a1 (snap p)) (field_ref a1 <$> place_ref p)
              end = {| snap := read a1 (snap p); place_ref := field_ref a1 <$> place_ref p; metadata := metadata p |})
        as -> by (by destruct (metadata p)).
      apply (projects_read _ _ _ _ true), option_map_None.
    + assert (match metadata p with
              | Some md => EncodedPlace_new (read a1 (snap p)) (field_ref a1 <$> place_ref p)
              | None => EncodedPlace_new (read a1 (snap p)) (field_ref a1 <$> place_ref p)
              end = {| snap := read a1 (snap p); place_ref := field_ref a1 <$> place_ref p; metadata := None |})
        as -> by (by destruct (metadata p)).
      apply (projects_read _ _ _ _ false), option_map_None.
  - rewrite (proj2 (ok_Some _ _) Hm). cbn [mbind option_bind].
    destruct a1 as [e w]. apply encode_place_local_spec in Hm0 as [Hr He].
    apply wrap_modes_spec in Hm1 as [-> Hw]. rewrite (proj2 (ok_Some _ _) Hm2). cbn [mbind option_bind].
    rewrite (proj2 (ok_Some _ _) Hm3). cbn [mbind option_bind].
    split; [done|]. split; [apply option_map_None|]. intros ρ [v md] vm' Hb Ha Hmode Hsem [Hv _].
    apply bind_Some in Hsem as (x & Hx & (i & Hi & (u & Hu & [= <-])%bind_Some)%bind_Some).
    destruct (He Hmode) as [-> He']. simpl in *. rewrite (Hw eq_refl) in *.
    destruct (snap_to_prim_spec _ _ _ ρ Hm4) as [Hsc Hden].
    split; [|done]. simpl. intros [Hs1 Hs2%Hsc]%index_scope.
    eapply index_denotes; [done|by apply Hv| |exact Hu]. eapply Hden; [|exact Hi]. by apply He'.
  - split; [done|]. split; [done|]. intros ρ vm vm' _ _ _ [= ->]. done.
Qed.

Lemma encode_place_elements_spec elems : forall pt p s p' pt' s',
  encode_place_elements (E := E) body impure_context cv pt elems p s = Ok ((p', pt'), s') ->
  projects s s' p p' (elems_sem (E := E) base impure_context σ pt elems).
Proof.
  induction elems as [|elem elems IH]; intros pt p s p' pt' s' He; cbn [encode_place_elements] in He; inv_M.
  - split; [done|]. split; [done|]. intros ρ vm vm' _ _ _ [= ->]. done.
  - apply encode_place_element_spec in Hm as (Hr1 & Hn1 & H1). apply IH in He as (Hr2 & Hn2 & H2).
    split; [by etrans|]. split; [auto|]. intros ρ vm vm2 Hb Ha Hmode (vm1 & Hs1 & Hs2)%bind_Some Hv.
    apply (H2 ρ vm1 vm2); try done; [by rewrite (reads_mode _ _ Hr1)|]. by apply (H1 ρ vm vm1).
Qed.

(** The address of a place is never known: the local starts without one. *)
Lemma encode_place_with_ref_spec place s p s' :
  encode_place_with_ref (E := E) body impure_context cv place s = Ok (p, s') ->
  reads s s' /\ place_ref p = None /\
  forall ρ vm, base ⊆ ρ -> agree ρ σ cv -> in_mode s = false ->
    place_sem (E := E) base body impure_context σ place = Some vm -> place_vals ρ p vm.
Proof.
  intros He. unfold encode_place_with_ref in He. inv_M. destruct a as [e w]. destruct a1 as [p1 pt1].
  apply encode_place_local_spec in Hm as [Hr1 Hl]. apply encode_place_elements_spec in Hm1 as (Hr2 & Hn & He).
  apply wrap_modes_spec in Hm3 as [-> Hw]. split; [by etrans|]. split; [by apply Hn|].
  intros ρ vm Hb Ha Hmode (v & Hv & (ty & Hty & Hsem)%bind_Some)%bind_Some. simpl in *.
  destruct (Hl Hmode) as [-> Hl']. rewrite (Hw eq_refl) in *. apply unwrap_Ok_inv in Hm0. rewrite Hty in Hm0.
  simplify_eq. apply (He ρ (v, None) vm); try done; [by rewrite (reads_mode _ _ Hr1)|].
  split; [|done]. intros Hs. by apply Hl'.
Qed.

Lemma encode_place_snap_spec place s e s' :
  encode_place_snap (E := E) body impure_context cv place s = Ok (e, s') ->
  computes s s' e (fst <$> place_sem (E := E) base body impure_context σ place).
Proof.
  intros He. unfold encode_place_snap in He. inv_M. apply encode_place_with_ref_spec in Hm as (Hr & _ & Hv).
  split; [done|]. intros ρ v Hb Ha Hmode Hs (vm & Hvm & ->)%fmap_Some. by apply (Hv ρ vm).
Qed.

Lemma encode_operand_snap_spec op s e s' :
  encode_operand_snap (E := E) body impure_context cv op s = Ok (e, s') ->
  computes s s' e (operand_sem (E := E) base body impure_context σ op).
Proof.
  destruct op as [p|p|c]; cbn [encode_operand_snap operand_sem]; intros He.
  - by apply encode_place_snap_spec.
  - by apply encode_place_snap_spec.
  - inv_M. split; [done|]. intros ρ v Hb _ _ _ Hv. rewrite (proj2 (ok_Some _ _) He) in Hv. simpl in Hv.
    apply eval_denotes. by eapply eval_grows.
Qed.

(** ** Operands and rvalues *)
Lemma encode_operands_spec ops : forall s es s',
  mapM_ (encode_operand_snap (E := E) body impure_context cv) ops s = Ok (es, s') ->
  reads s s' /\ forall ρ vs, base ⊆ ρ -> agree ρ σ cv -> in_mode s = false -> Forall (in_scope m ρ) es ->
    operands_sem (E := E) base body impure_context σ ops = Some vs -> denote_all m ρ es vs.
Proof.
  induction ops as [|op ops IH]; intros s es s' He; cbn [mapM_] in He; inv_M.
  - split; [done|]. intros ρ vs _ _ _ _ [= <-]. constructor.
  - apply encode_operand_snap_spec in Hm as [Hr1 H1]. apply IH in Hm0 as [Hr2 H2]. split; [by etrans|].
    intros ρ vs Hb Ha Hmode Hs (v & Hv & (ws & Hws & [= <-])%bind_Some)%bind_Some.
    apply Forall_cons in Hs as [Hs1 Hs2]. constructor; [by apply H1|]. apply H2; try done.
    by rewrite (reads_mode _ _ Hr1).
Qed.

Lemma operands_sem_1 op vs :
  operands_sem (E := E) base body impure_context σ [op] = Some vs <->
  exists v, vs = [v] /\ operand_sem (E := E) base body impure_context σ op = Some v.
Proof.
  simpl. split.
  - intros (v & Hv & [= <-])%bind_Some. eauto.
  - intros (v & -> & ->). done.
Qed.

Lemma operands_sem_2 l r vs :
  operands_sem (E := E) base body impure_context σ [l; r] = Some vs <->
  exists v w, vs = [v; w] /\ operand_sem (E := E) base body impure_context σ l = Some v /\
    operand_sem (E := E) base body impure_context σ r = Some w.
Proof.
  simpl. split.
  - intros (v & Hv & (ws & (w & Hw & [= <-])%bind_Some & [= <-])%bind_Some)%bind_Some. eauto 10.
  - intros (v & w & -> & -> & ->). done.
Qed.

Lemma encode_unary_op_snap_spec rty op x s e s' :
  encode_unary_op_snap (E := E) body impure_context rty op x cv s = Ok (e, s') ->
  computes s s' e (x_ty ← ok (E := E) (operand_ty body x);
                   vs ← operands_sem (E := E) base body impure_context σ [x]; un_op_sem rty op x_ty vs).
Proof.
  intros He. unfold encode_unary_op_snap in He. inv_M. apply encode_operand_snap_spec in Hm as [Hr Hx].
  split; [done|]. intros ρ u Hb Ha Hmode Hs. rewrite (proj2 (ok_Some _ _) Hm0). cbn [mbind option_bind].
  destruct (un_op_means _ _ _ _ Hm1 m ρ a Hb) as [Hsc Hd].
  intros (vs & (v & -> & Hv)%operands_sem_1 & Hu)%bind_Some. eapply Hd; [|exact Hu]. apply Hx; auto.
Qed.

Lemma pointer_parts_spec rty place p msg s parts s' :
  place_ref p = None -> pointer_parts (E := E) rty place p msg s = Ok (parts, s') ->
  s' = s /\ parts.1 = Const CNull /\
  forall ρ vm md, base ⊆ ρ -> place_vals ρ p vm -> pointer_metadata_sem (E := E) base rty vm.2 = Some md ->
    in_scope m ρ parts.2 -> denotes m ρ parts.2 md.
Proof.
  intros Hp He. unfold pointer_parts in He. inv_M. rewrite Hp.
  assert (forall b, default (Const CNull) (opt_filter b None) = Const CNull) as Hnull by by intros [].
  destruct (metadata p) as [e|] eqn:Hmeta; inv_M.
  - split; [done|]. split; [apply Hnull|]. intros ρ [v [md'|]] md _ [_ Hmd]; rewrite Hmeta in Hmd; [|done].
    simpl in *. intros [= <-]. simplify_eq/=. done.
  - unfold thin_ptr_metadata in Hm. inv_M. split; [done|]. split; [apply Hnull|].
    intros ρ [v md'] md Hb [_ Hmd]. rewrite Hmeta in Hmd. destruct md' as [md'|]; [done|]. simpl.
    unfold thin_metadata_sem. rewrite_ok.
    unfold zst_to_snap, get_structlike in *. destruct (specifics _) as [| | | | | | |sl| |]; try done.
    case_bool_decide; [|by simplify_eq/=]. inv_outcome. intros Hsem. simpl in *. simplify_eq/=.
    intros _. rewrite bool_decide_true in Hsem by done. eapply field_snaps_denotes; [done|done|by constructor|done].
Qed.

Lemma prim_to_snap_zero k ρ v : snap_sem k (VInt 0) = Some v -> denotes m ρ (prim_to_snap k (mk_uint 0)) v.
Proof.
  destruct k; simpl; [by intros [= <-]| |]; intros Hv; (eapply denotes_FuncApp; [|exact Hv]); by repeat constructor.
Qed.

Lemma encode_rvalue_spec rvalue s e s' :
  encode_rvalue (E := E) body impure_context cv rvalue s = Ok (e, s') ->
  computes s s' e (rvalue_sem (E := E) base body impure_context σ rvalue).
Proof.
  destruct rvalue as [op|is_mut place|op l r|op x|kind fields|place|kind x ty|place|place|];
    cbn [encode_rvalue rvalue_sem]; intros He.
  - by apply encode_operand_snap_spec.
  - inv_M. apply encode_place_with_ref_spec in Hm0 as (Hr & Hn & Hp).
    apply pointer_parts_spec in Hm1 as (-> & Hnull & Hmd); [|done].
    split; [done|]. rewrite_ok. intros ρ v Hb Ha Hmode Hs (vm & Hvm & (md & Hsem & Hv)%bind_Some)%bind_Some.
    apply reference_scope in Hs as [Hs1 Hs2]. assert (place_vals ρ a0 vm) as Hvals by auto.
    rewrite Hnull. eapply reference_denotes; [done|by eapply Hmd|by apply Hvals|done].
  - unfold encode_binop_snap in He. inv_M. apply encode_operand_snap_spec in Hm2 as [Hr1 H1].
    apply encode_operand_snap_spec in Hm3 as [Hr2 H2]. split; [by etrans|]. rewrite_ok.
    intros ρ u Hb Ha Hmode Hs (vs & (v & w & -> & Hv & Hw)%operands_sem_2 & Hu)%bind_Some.
    destruct (bin_op_means _ _ _ _ _ Hm1 m ρ a2 a3 Hb) as [Hsc Hd]. destruct (Hsc Hs) as [Hs1 Hs2].
    eapply Hd; [by apply H1| |exact Hu]. apply H2; try done. by rewrite (reads_mode _ _ Hr1).
  - by apply encode_unary_op_snap_spec.
  - destruct kind as [vidx| | |]; [| | |by inv_M].
    all: unfold encode_aggregate_snap in He; inv_M; apply encode_operands_spec in Hm as [Hr Hf].
    all: split; [done|]; rewrite_ok; intros ρ v Hb Ha Hmode Hs (vs & Hvs & Hv)%bind_Some.
    all: apply (field_snaps_scope _ _ _ _ _ He) in Hs as Hs'; by eapply field_snaps_denotes; eauto.
  - inv_M. rewrite_ok. destruct (opt_filter _ _) as [en|]; inv_M.
    + apply encode_place_snap_spec in Hm1 as [Hr Hp]. split; [done|].
      intros ρ v Hb Ha Hmode Hs%in_scope_args (vm & Hvm & Hv)%bind_Some. apply Forall_cons in Hs as [Hs _].
      eapply denotes_FuncApp; [|exact Hv]. constructor; [|done]. apply Hp; try done. by rewrite Hvm.
    + split; [done|]. rewrite_ok. intros ρ v _ _ _ _. apply prim_to_snap_zero.
  - inv_M. unfold encode_cast_snap in He. inv_M. apply encode_operand_snap_spec in Hm0 as [Hr Hx].
    split; [done|]. rewrite_ok. intros ρ u Hb Ha Hmode Hs (vs & (v & -> & Hv)%operands_sem_1 & Hu)%bind_Some.
    destruct (use_cast_means _ _ _ _ Hm2 m ρ a0 Hb) as [Hsc Hd]. eapply Hd; [|exact Hu]. apply Hx; auto.
  - unfold encode_len_snap in He. inv_M. rewrite_ok. destruct (ty_shape _); inv_M; try done.
    split; [done|]. rewrite_ok. intros ρ v Hb _ _ _ Hv. apply eval_denotes. by eapply eval_grows.
  - inv_M. apply encode_place_with_ref_spec in Hm as (Hr & Hn & Hp).
    apply pointer_parts_spec in Hm0 as (-> & Hnull & Hmd); [|done].
    split; [done|]. rewrite_ok. intros ρ v Hb Ha Hmode Hs (vm & Hvm & (md & Hsem & Hv)%bind_Some)%bind_Some.
    apply raw_scope in Hs. rewrite Hnull. eapply raw_denotes; [done| |exact Hv]. eapply Hmd; eauto.
  - by inv_M.
Qed.

(** ** Calls *)
Definition mode_marker (func : Operand) : bool :=
  match prusti_builtin (E := E) (fn_def func).1 (fn_def func).2 with
  | Some (BuiltinSpec (ModeStart _ | ModeEnd _)) => true
  | _ => false
  end.

Lemma encode_pure_only_builtin_reads b substs args s e s' :
  match b with ModeStart _ | ModeEnd _ => False | _ => True end ->
  encode_pure_only_builtin (E := E) encoding_depth body impure_context b substs args cv s = Ok (e, s') ->
  reads s s'.
Proof.
  intros Hb He. destruct b; try done; cbn [encode_pure_only_builtin] in He; inv_M;
    by apply encode_operands_spec in Hm0 as [Hr _].
Qed.

Lemma encode_call_spec func args s e s' :
  mode_marker func = false ->
  encode_call (E := E) encoding_depth body impure_context func args cv s = Ok (e, s') ->
  computes s s' e (call_value (E := E) base body impure_context σ func args).
Proof.
  unfold mode_marker, encode_call, call_value. destruct (fn_def func) as [d substs]. cbn [fst snd].
  intros Hmode He. destruct (is_ptr_metadata d).
  - unfold encode_intrinsic in He. inv_M. apply unwrap_Ok_inv in Hm1 as ->. apply unwrap_Ok_inv in Hm2 as ->.
    cbn [mbind option_bind]. by apply encode_unary_op_snap_spec in He.
  - destruct (prusti_builtin d substs) as [[b|op]|].
    + inv_M. apply mret_Ok in Hm as [-> ->]. split; [|done]. eapply encode_pure_only_builtin_reads; [|exact He].
      by destruct b.
    + inv_M. cbn [encode_prusti_builtin] in Hm. inv_M. cbn beta match in He. inv_M.
      apply encode_operands_spec in Hm1 as [Hr Hes]. split; [done|].
      intros ρ v Hb Ha Hmd Hs (vs & Hvs & Hv)%bind_Some.
      destruct (prusti_builtin_means _ _ _ _ Hm0 m ρ a1 Hb) as [Hsc Hd]. eapply Hd; [|exact Hv]. auto.
    + destruct (is_function_pure d substs); inv_M. apply unwrap_ok_Ok in Hm.
      apply encode_operands_spec in Hm0 as [Hr Hes]. split; [done|].
      intros ρ v Hb Ha Hmd Hs (vs & Hvs & Hv)%bind_Some.
      destruct (function_means _ _ _ _ _ Hm He m ρ Hb) as [Hsc Hd]. eapply Hd; [|exact Hv]. auto.
Qed.
End reading.
