(* ===== verification/PureSim.v ===== *)
(** * Bindings and stores

    How the bindings of an update extend an environment while the machine
    changes its store: names are fresh, every binding that is kept is evaluated
    where its variables are bound, and the environment goes on agreeing with
    the store on the current versions. *)
From stdpp Require Import pretty.
From S2P Require Import Prelude FlowEngine Mir.
From S2P Require Import Vir VirMake VirSem VirInt VirReify TyDomain Primitive BinOpEnc TyUse PureMir PureEnc PureSem.
From S2P Require Import PureRead.

Section sim.
Context {R : Rustc} {H : Host} {E : Type} {D : PureDeps E} {VM : ViperModel}.
Variable base : gmap string (value domain_value).
Variables (debug : bool) (encoding_depth : nat) (body : Body).
Variable m : gmap string Expr.
Abbreviation val := (value domain_value).
Abbreviation store := (gmap MirLocal val).
Abbreviation env := (gmap string val).
Abbreviation agrees := (agree (E := E) body).

(** ** Counters and fresh names *)
Record ctr_le (s s' : Enc) : Prop := {
  ctr_le_versions l n : version_ctr s !! l = Some n -> exists n', version_ctr s' !! l = Some n' /\ n <= n';
  ctr_le_length : length (version_ctr s) = length (version_ctr s');
  ctr_le_phi : phi_ctr s <= phi_ctr s';
  ctr_le_mode : in_mode s' = in_mode s;
}.

#[export] Instance ctr_le_preorder : PreOrder ctr_le.
Proof.
  split; [intros s; split; eauto|]. intros s s1 s2 [H1 L1 P1 M1] [H2 L2 P2 M2]. split; [|congruence|lia|congruence].
  intros l n (n1 & Hn1 & Hle1)%H1. destruct (H2 l n1 Hn1) as (n2 & Hn2 & Hle2). exists n2. split; [done|lia].
Qed.

Lemma reads_ctr_le s s' : reads s s' -> ctr_le s s'.
Proof. intros Hr. rewrite Hr. split; eauto. Qed.

(** No variable of [ρ] has a name that is still to come. *)
Record fresh (s : Enc) (ρ : env) : Prop := {
  fresh_local l v n : version_ctr s !! l = Some n -> n <= v_index v ->
    ρ !! mk_local debug encoding_depth l v = None;
  fresh_phi v : phi_ctr s <= v_index v -> ρ !! mk_phi debug encoding_depth v = None;
}.

(** The versions in use were given their names. *)
Definition named (s : Enc) (cv : Versions) : Prop :=
  forall l ver d, cv !! l = Some ver -> initialised ver = Some d ->
    decl_name d = mk_local debug encoding_depth l ver /\
    exists n, version_ctr s !! l = Some n /\ v_index ver < n.

Lemma named_le s s' cv : ctr_le s s' -> named s cv -> named s' cv.
Proof.
  intros Hle Hn l ver d Hv Hd. destruct (Hn l ver d Hv Hd) as (Hname & n & Hl & Hlt).
  destruct (ctr_le_versions _ _ Hle l n Hl) as (n' & Hn' & ?). split; [done|]. exists n'. split; [done|lia].
Qed.

(** The counters only grow, so [fresh] for fewer counters is stronger. *)
Lemma fresh_le s s' ρ :
  ctr_le s s' -> fresh s ρ -> fresh s' ρ.
Proof.
  intros Hle [Hl Hp]. pose proof (ctr_le_length _ _ Hle) as Hlen. split.
  - intros l v n Hn Hi. assert (is_Some (version_ctr s !! l)) as [n0 Hn0].
    { apply lookup_lt_is_Some. rewrite Hlen. by eapply lookup_lt_Some. }
    destruct (ctr_le_versions _ _ Hle l n0 Hn0) as (n' & Hn' & ?). eapply Hl; [exact Hn0|]. simplify_eq. lia.
  - intros v Hi. apply Hp. pose proof (ctr_le_phi _ _ Hle). lia.
Qed.

(** ** Bindings around a continuation

    [extends s' u ρ Post]: the bindings of [u] around an expression [k], of
    which some unused ones are dropped, have in [ρ] a value that satisfies [Q]
    as soon as [k] has one in the environments that the kept bindings reach.
    These extend [ρ], satisfy [Post], and keep the names to come fresh. *)
Definition extends (s' : Enc) (u : list UpdateBind) (ρ : env) (Post : env -> Prop) : Prop :=
  forall used k res (Q : val -> Prop), reify_binds (E := E) used u k = Ok res -> in_scope m ρ res ->
    (forall ρ', ρ ⊆ ρ' -> fresh s' ρ' -> Post ρ' -> in_scope m ρ' k -> exists w, Q w /\ denotes m ρ' k w) ->
    exists w, Q w /\ denotes m ρ res w.

Lemma reify_binds_app used u1 u2 k :
  reify_binds (E := E) used (u1 ++ u2) k = k' ← reify_binds used u2 k; reify_binds used u1 k'.
Proof.
  induction u1 as [|b u1 IH]; simpl; [by destruct (reify_binds used u2 k)|]. rewrite IH.
  by destruct (reify_binds used u2 k).
Qed.

Lemma extends_nil s' ρ (Post : env -> Prop) : fresh s' ρ -> Post ρ -> extends s' [] ρ Post.
Proof. intros Hf Hp used k res Q [= <-] Hs Hk. by apply Hk. Qed.

Lemma extends_app s1 s2 u1 u2 ρ (P1 P2 : env -> Prop) :
  extends s1 u1 ρ P1 ->
  (forall ρ', ρ ⊆ ρ' -> fresh s1 ρ' -> P1 ρ' -> extends s2 u2 ρ' P2) ->
  extends s2 (u1 ++ u2) ρ P2.
Proof.
  intros H1 H2 used k res Q Hres Hs Hk. rewrite reify_binds_app in Hres. inv_outcome.
  match goal with Hu : reify_binds used u2 k = Ok ?k', Hv : reify_binds used u1 ?k' = Ok res |- _ =>
    apply (H1 used k' res Q Hv Hs); intros ρ1 Hρ1 Hf1 Hp1 Hk1;
    apply (H2 ρ1 Hρ1 Hf1 Hp1 used k k' Q Hu Hk1) end.
  intros ρ2 Hρ2 Hf2 Hp2 Hs2. apply Hk; try done. by etrans.
Qed.

Lemma extends_impl s1 s2 u ρ (P1 P2 : env -> Prop) :
  ctr_le s1 s2 -> (forall ρ', ρ ⊆ ρ' -> P1 ρ' -> P2 ρ') -> extends s1 u ρ P1 -> extends s2 u ρ P2.
Proof.
  intros Hle HP H1 used k res Q Hres Hs Hk. apply (H1 used k res Q Hres Hs).
  intros ρ1 Hρ1 Hf1 Hp1 Hs1. apply Hk; auto. by apply (fresh_le s1).
Qed.

(** ** One assignment *)
Definition next_version (s s' : Enc) (l : MirLocal) (ver : Version) : Prop :=
  (exists n, version_ctr s !! l = Some n /\ n <= v_index ver) /\
  version_ctr s' !! l = Some (S (v_index ver)).

Lemma insert_new (ρ : env) name (w : val) : ρ !! name = None -> ρ ⊆ <[name := w]> ρ.
Proof. apply insert_subseteq. Qed.

Lemma extends_assign s s' l ver d e v ρ σ cv :
  ctr_le s s' -> next_version s s' l ver -> initialised ver = Some d ->
  decl_name d = mk_local debug encoding_depth l ver ->
  fresh s ρ -> named s cv -> agrees ρ σ cv -> has_local_ty (E := E) body l v = true ->
  (in_scope m ρ e -> denotes m ρ e v) ->
  extends s' [BindLocal l ver e] ρ (fun ρ' => agrees ρ' (<[l := v]> σ) (<[l := ver]> cv)).
Proof.
  intros Hle ((n & Hn & Hni) & Hn') Hd Hname Hf Hnamed Ha Hty He used k res Q Hres Hs Hk.
  assert (ρ !! decl_name d = None) as Hnew by (rewrite Hname; by eapply fresh_local).
  simpl in Hres. case_bool_decide; [rewrite Hd in Hres; simpl in Hres|]; injection Hres as <-.
  - apply (in_scope_Let _ _ _ _ _ v) in Hs as [Hs1 Hs2].
    destruct (Hk (<[decl_name d := v]> ρ)) as (w & HQ & Hw); [by apply insert_new| | |done|].
    + split; [|intros phi Hphi; rewrite lookup_insert_ne by (rewrite Hname; apply mk_local_phi);
               eapply fresh_phi; [exact Hf|]; pose proof (ctr_le_phi _ _ Hle); lia].
      intros l' v' n' Hl' Hi. rewrite lookup_insert_ne.
      * by apply (fresh_local s' ρ (fresh_le _ _ _ Hle Hf) l' v' n').
      * rewrite Hname. intros (_ & <- & Hidx)%mk_local_inj. simplify_eq. lia.
    + split.
      * intros l' ver' d' x y Hv' Hd' Hx Hy. destruct (decide (l' = l)) as [->|Hne].
        -- rewrite lookup_insert_eq in Hv'. rewrite lookup_insert_eq in Hy. simplify_eq. rewrite lookup_insert_eq in Hx. by simplify_eq.
        -- rewrite lookup_insert_ne in Hv' by done. rewrite lookup_insert_ne in Hy by done. destruct (Hnamed _ _ _ Hv' Hd') as [Hname' _].
           rewrite lookup_insert_ne in Hx; [by eapply agree_value|].
           rewrite Hname, Hname'. by intros (_ & <- & _)%mk_local_inj.
      * intros l' ver' d' x Hv' Hd' Hx. destruct (decide (l' = l)) as [->|Hne].
        -- rewrite lookup_insert_eq in Hv'. simplify_eq. rewrite lookup_insert_eq in Hx. by simplify_eq.
        -- rewrite lookup_insert_ne in Hv' by done. destruct (Hnamed _ _ _ Hv' Hd') as [Hname' _].
           rewrite lookup_insert_ne in Hx; [by eapply agree_typed|].
           rewrite Hname, Hname'. by intros (_ & <- & _)%mk_local_inj.
    + exists w. split; [done|]. eapply denotes_Let; [by apply He|done].
  - apply Hk; [done|by apply (fresh_le s)| |done]. split.
    + intros l' ver' d' x y Hv' Hd' Hx Hy. destruct (decide (l' = l)) as [->|Hne].
      * rewrite lookup_insert_eq in Hv'. injection Hv' as <-. congruence.
      * rewrite lookup_insert_ne in Hv' by done. rewrite lookup_insert_ne in Hy by done. by eapply agree_value.
    + intros l' ver' d' x Hv' Hd' Hx. destruct (decide (l' = l)) as [->|Hne].
      * rewrite lookup_insert_eq in Hv'. injection Hv' as <-. congruence.
      * rewrite lookup_insert_ne in Hv' by done. by eapply agree_typed.
Qed.

(** ** Bumping versions *)
Lemma bump_version_no_assign_spec l loc s v s' :
  bump_version_no_assign (E := E) l loc s = Ok (v, s') ->
  ctr_le s s' /\ next_version s s' l v /\ initialised v = None.
Proof.
  intros Hb. unfold bump_version_no_assign in Hb. inv_M. apply unwrap_Ok_inv in Hm0.
  assert (l < length (version_ctr s)) as Hl by (by eapply lookup_lt_Some).
  split; [|split; [split; [by exists a0|]|done]].
  - split; simpl; [|by rewrite length_insert|done|done]. intros l' n Hn. destruct (decide (l' = l)) as [->|Hne].
    + rewrite list_lookup_insert_eq by done. exists (S a0). simplify_eq. split; [done|lia].
    + rewrite list_lookup_insert_ne by done. eauto.
  - simpl. by rewrite list_lookup_insert_eq.
Qed.

Definition one_binding (l : MirLocal) (ver : Version) (e : Expr) : Update :=
  {| binds := [BindLocal l ver e]; versions := {[l := ver]} |}.

(** A new version of [l], bound to [e]. *)
Definition bumped (s s' : Enc) (l : MirLocal) (ver : Version) : Prop :=
  ctr_le s s' /\ next_version s s' l ver /\
  exists d, initialised ver = Some d /\ decl_name d = mk_local debug encoding_depth l ver.

Lemma merge_one_binding u l ver e :
  merge_inner u (one_binding l ver e) =
  {| binds := binds u ++ [BindLocal l ver e]; versions := <[l := ver]> (versions u) |}.
Proof. unfold merge_inner. simpl. by rewrite insert_union_singleton_l. Qed.

Lemma bump_version_init_spec u l e loc s u' s' :
  bump_version_init (E := E) debug encoding_depth u l e loc s = Ok (u', s') ->
  exists ver, u' = merge_inner u (one_binding l ver e) /\ bumped s s' l ver.
Proof.
  intros Hb. unfold bump_version_init in Hb. inv_M. apply bump_version_no_assign_spec in Hm as (Hle & Hn & _).
  eexists. split; [symmetry; apply merge_one_binding|]. split; [done|]. split; [done|]. by eexists.
Qed.

Lemma bump_version_spec u l e loc s u' s' :
  bump_version (E := E) debug encoding_depth u l e loc s = Ok (u', s') ->
  exists ver, u' = merge_inner u (one_binding l ver e) /\ bumped s s' l ver.
Proof.
  intros Hb. unfold bump_version in Hb. inv_M. apply unwrap_Ok_inv in Hm0.
  apply bump_version_init_spec in Hb as (ver & -> & Hle & ((n & Hn & Hni) & Hn') & Hd). exists ver. split; [done|].
  destruct (a0 =? 0); inv_M; [|by split; [|split; [split; [eexists|]|]]].
  apply bump_version_no_assign_spec in Hm as (Hle1 & ((n1 & Hn1 & Hni1) & Hn1') & _).
  split; [by etrans|]. split; [|done]. split; [|done]. exists n1. split; [done|]. simplify_eq. lia.
Qed.

Lemma bumped_named s s' l ver cv : bumped s s' l ver -> named s cv -> named s' (<[l := ver]> cv).
Proof.
  intros (Hle & [_ Hn] & d & Hd & Hname) Hnamed l' ver' d' Hv' Hd'. destruct (decide (l' = l)) as [->|Hne].
  - rewrite lookup_insert_eq in Hv'. simplify_eq. split; [done|]. exists (S (v_index ver')). split; [done|lia].
  - rewrite lookup_insert_ne in Hv' by done. by apply (named_le s s' cv Hle Hnamed).
Qed.

(** ** Simulation

    An update with the part of the run that it encodes. *)
Definition simulates (s s' : Enc) (cv : Versions) (σ : store) (u : Update) (σ' : store) : Prop :=
  ctr_le s s' /\ (named s cv -> named s' (versions u ∪ cv)) /\
  (forall l v, is_Some (cv !! l) -> versions u !! l = None -> σ' !! l = Some v -> σ !! l = Some v) /\
  forall ρ, base ⊆ ρ -> fresh s ρ -> named s cv -> agrees ρ σ cv ->
    extends s' (binds u) ρ (fun ρ' => agrees ρ' σ' (versions u ∪ cv)).

Lemma agrees_sub ρ σ σ' cv :
  (forall l v, σ' !! l = Some v -> σ !! l = Some v) -> agrees ρ σ cv -> agrees ρ σ' cv.
Proof.
  intros Hsub [Hv Ht]. split; [|done]. intros l ver d w v Hl Hd Hw Hσ. eapply Hv; eauto.
Qed.

Lemma simulates_nop s s' cv σ σ' :
  ctr_le s s' -> (forall l v, σ' !! l = Some v -> σ !! l = Some v) -> simulates s s' cv σ Update_new σ'.
Proof.
  intros Hle Hsub. unfold simulates, Update_new. simpl. rewrite (left_id_L ∅ (∪)).
  split; [done|]. split; [by apply named_le|]. split; [auto|]. intros ρ _ Hf _ Ha.
  apply extends_nil; [by apply (fresh_le s)|by eapply agrees_sub].
Qed.

Lemma simulates_uninit s s' cv σ l ver :
  ctr_le s s' -> initialised ver = None ->
  simulates s s' cv σ {| binds := []; versions := {[l := ver]} |} (delete l σ).
Proof.
  intros Hle Hd. unfold simulates. simpl. rewrite <- insert_union_singleton_l.
  split; [done|]. split.
  - intros Hn l' ver' d' Hv' Hd'. destruct (decide (l' = l)) as [->|Hne].
    + rewrite lookup_insert_eq in Hv'. congruence.
    + rewrite lookup_insert_ne in Hv' by done. by apply (named_le s s' cv Hle Hn).
  - split; [intros l' v _ _ Hl'; by apply lookup_delete_Some in Hl' as [_ ?]|].
    intros ρ _ Hf _ [Hv Ht]. apply extends_nil; [by apply (fresh_le s)|]. split.
    + intros l' ver' d' w v Hv' Hd' Hw Hσ. destruct (decide (l' = l)) as [->|Hne].
      * rewrite lookup_insert_eq in Hv'. congruence.
      * rewrite lookup_insert_ne in Hv' by done. apply lookup_delete_Some in Hσ as [_ Hσ]. eauto.
    + intros l' ver' d' w Hv' Hd' Hw. destruct (decide (l' = l)) as [->|Hne].
      * rewrite lookup_insert_eq in Hv'. congruence.
      * rewrite lookup_insert_ne in Hv' by done. eauto.
Qed.

Lemma simulates_assign s s' cv σ l ver e v :
  bumped s s' l ver -> has_local_ty (E := E) body l v = true ->
  (forall ρ, base ⊆ ρ -> agrees ρ σ cv -> in_scope m ρ e -> denotes m ρ e v) ->
  simulates s s' cv σ (one_binding l ver e) (<[l := v]> σ).
Proof.
  intros Hb Hty He. pose proof Hb as (Hle & Hn & d & Hd & Hname). unfold simulates. simpl.
  rewrite <- insert_union_singleton_l. split; [done|]. split; [by apply bumped_named|]. split.
  - intros l' w _ Hl' Hw. rewrite lookup_insert_ne in Hw; [done|]. intros ->. by rewrite lookup_singleton_eq in Hl'.
  - intros ρ Hbase Hf Hnamed Ha. eapply extends_assign; eauto.
Qed.

Lemma simulates_app s s1 s2 cv σ u1 σ1 u2 σ2 :
  simulates s s1 cv σ u1 σ1 -> simulates s1 s2 (versions u1 ∪ cv) σ1 u2 σ2 ->
  simulates s s2 cv σ (merge_inner u1 u2) σ2.
Proof.
  intros (Hle1 & Hn1 & Hf1 & H1) (Hle2 & Hn2 & Hf2 & H2). unfold simulates. simpl.
  rewrite <- (assoc_L (∪)). split; [by etrans|]. split; [auto|]. split.
  - intros l v Hl [Hl2 Hl1]%lookup_union_None Hv. apply Hf1; try done. apply Hf2; try done.
    rewrite lookup_union_r; done.
  - intros ρ Hb Hf Hn Ha. eapply extends_app; [by apply H1|]. intros ρ1 Hρ1 Hfr Ha1.
    apply H2; auto. by etrans.
Qed.

Lemma simulates_le_l s0 s s' cv σ u σ' :
  ctr_le s0 s -> simulates s s' cv σ u σ' -> simulates s0 s' cv σ u σ'.
Proof.
  intros Hle (Hle1 & Hn1 & Hf1 & H1). split; [by etrans|]. split; [|split; [done|]].
  - intros Hn. by apply Hn1, (named_le s0).
  - intros ρ Hb Hf Hn Ha. apply H1; auto; [by apply (fresh_le s0)|by apply (named_le s0)].
Qed.

Lemma simulates_le_r s s' s1 cv σ u σ' :
  ctr_le s' s1 -> simulates s s' cv σ u σ' -> simulates s s1 cv σ u σ'.
Proof.
  intros Hle (Hle1 & Hn1 & Hf1 & H1). split; [by etrans|]. split; [|split; [done|]].
  - intros Hn. by apply (named_le s'), Hn1.
  - intros ρ Hb Hf Hn Ha. eapply extends_impl; [exact Hle| |by apply H1]. done.
Qed.
End sim.
