(* ===== verification/PureCfg.v ===== *)
(** * Blocks and branches

    The updates of statements and calls simulate the machine; the phi variable
    of a branch holds the tuple of the arm that the machine takes, and the
    versions taken from it agree with the store at the join point. *)
From stdpp Require Import pretty.
From S2P Require Import Prelude FlowEngine Mir.
From S2P Require Import Vir VirMake VirSem VirInt VirReify TyDomain Primitive BinOpEnc TyUse PureMir PureEnc PureSem.
From S2P Require Import PureRead PureSim.

(** What the axioms of the tuple types give: a constructor applied to values of
    the types has a value, and the destructors return its elements. *)
Class TupleLaws {VM : ViperModel} (E : Type) {D : PureDeps E} (base : gmap string (value domain_value)) : Prop :=
  tuple_law tys t : viper_tuple (E := E) tys = Ok t ->
    exists s, specifics t = StructLike s /\ forall vs, Forall2 (fun ty v => has_ty (E := E) ty v = true) tys vs ->
      exists w, struct_sem base s vs = Some w /\
        forall i f v, struct_fields s !! i = Some f -> vs !! i = Some v -> read_sem base f w = Some v.

Section cfg.
Context {R : Rustc} {H : Host} {E : Type} {D : PureDeps E} {VM : ViperModel}.
Variable base : gmap string (value domain_value).
Context {PM : PureMeaning E base} {TL : TupleLaws E base}.
Variables (debug : bool) (encoding_depth : nat) (body : Body).
Variables (ghost_switches : gmap MirBlock MirBlock) (impure_context : bool).
Variable m : gmap string Expr.
Abbreviation val := (value domain_value).
Abbreviation store := (gmap MirLocal val).
Abbreviation env := (gmap string val).
Abbreviation agrees := (agree (E := E) body).
Abbreviation sim := (simulates (E := E) base debug encoding_depth body m).
Abbreviation names_ok := (named debug encoding_depth).

(** ** Statements *)
Lemma encode_stmt_le cv stmt loc s u s' :
  encode_stmt (E := E) debug encoding_depth body impure_context cv stmt loc s = Ok (u, s') -> ctr_le s s'.
Proof.
  intros He. destruct stmt as [l|l| | | |dest rv|]; cbn [encode_stmt] in He; inv_M; try done.
  - by apply bump_version_no_assign_spec in Hm as (Hle & _).
  - apply (encode_rvalue_spec base _ _ m ∅) in Hm as [Hr _]. apply bump_version_spec in He as (ver & _ & Hle & _).
    etrans; [by apply reads_ctr_le|done].
Qed.

Lemma encode_stmt_sound cv stmt loc s u s' σ σ' :
  in_mode s = false -> stmt_sem (E := E) base body impure_context σ stmt = Some σ' ->
  encode_stmt (E := E) debug encoding_depth body impure_context cv stmt loc s = Ok (u, s') ->
  sim s s' cv σ u σ'.
Proof.
  intros Hmode Hsem He. destruct stmt as [l|l| | | |dest rv|]; cbn [encode_stmt stmt_sem] in *; inv_M; try done.
  - apply bump_version_no_assign_spec in Hm as (Hle & _ & Hd). by apply simulates_uninit.
  - apply simulates_nop; [done|]. by intros l' v [_ ?]%lookup_delete_Some.
  - by apply simulates_nop.
  - by apply simulates_nop.
  - by apply simulates_nop.
  - apply bind_Some in Hsem as (v & Hv & Hσ). unfold assign_sem in Hσ.
    destruct (bool_decide _ && _) eqn:Hty; [|done]. apply andb_true_iff in Hty as [_ Hty]. injection Hσ as <-.
    apply (encode_rvalue_spec base _ _ m σ) in Hm as [Hr Hrv].
    apply bump_version_spec in He as (ver & -> & Hb).
    assert (merge_inner Update_new (one_binding (Mir.local dest) ver a) = one_binding (Mir.local dest) ver a) as ->.
    { unfold merge_inner, one_binding. simpl. by rewrite (right_id_L ∅ (∪)). }
    eapply simulates_le_l; [by apply reads_ctr_le|]. apply simulates_assign; try done. auto.
Qed.

Lemma encode_stmts_le stmts : forall cv bb i u0 s cv' u' s',
  encode_stmts (E := E) debug encoding_depth body impure_context cv bb i stmts u0 s = Ok ((cv', u'), s') ->
  ctr_le s s'.
Proof.
  induction stmts as [|stmt stmts IH]; intros cv bb i u0 s cv' u' s' He; cbn [encode_stmts] in He; inv_M; [done|].
  apply encode_stmt_le in Hm. apply IH in He. by etrans.
Qed.

Lemma merge_new_r u : merge_inner u Update_new = u.
Proof. destruct u as [b v]. unfold merge_inner. simpl. by rewrite app_nil_r, (left_id_L ∅ (∪)). Qed.
Lemma merge_new_l u : merge_inner Update_new u = u.
Proof. destruct u as [b v]. unfold merge_inner. simpl. by rewrite (right_id_L ∅ (∪)). Qed.
Lemma merge_assoc u1 u2 u3 : merge_inner (merge_inner u1 u2) u3 = merge_inner u1 (merge_inner u2 u3).
Proof. unfold merge_inner. simpl. by rewrite (assoc_L (++)), (assoc_L (∪)). Qed.

Lemma encode_stmts_sound stmts : forall cv bb i u0 s cv' u' s' σ σ',
  in_mode s = false -> stmts_sem (E := E) base body impure_context σ stmts = Some σ' ->
  encode_stmts (E := E) debug encoding_depth body impure_context cv bb i stmts u0 s = Ok ((cv', u'), s') ->
  exists u, u' = merge_inner u0 u /\ cv' = versions u ∪ cv /\ sim s s' cv σ u σ'.
Proof.
  induction stmts as [|stmt stmts IH]; intros cv bb i u0 s cv' u' s' σ σ' Hmode Hsem He;
    cbn [encode_stmts stmts_sem] in *; inv_M.
  - exists Update_new. rewrite merge_new_r. unfold Update_new. simpl. rewrite (left_id_L ∅ (∪)).
    split; [done|]. split; [done|]. by apply simulates_nop.
  - apply bind_Some in Hsem as (σ1 & Hs1 & Hs2).
    pose proof (encode_stmt_sound _ _ _ _ _ _ _ _ Hmode Hs1 Hm) as Hsim1.
    pose proof (ctr_le_mode _ _ (encode_stmt_le _ _ _ _ _ _ Hm)) as Hmode1. rewrite Hmode in Hmode1.
    destruct (IH _ _ _ _ _ _ _ _ _ _ Hmode1 Hs2 He) as (u & -> & -> & Hsim2).
    exists (merge_inner a u). unfold add_to_map in *. rewrite merge_assoc. split; [done|].
    split; [simpl; by rewrite (assoc_L (∪))|]. by eapply simulates_app.
Qed.

(** ** The value of a branch *)

(** [w] is the tuple of values [ws] for the locals [mods] in the store [σ]. *)
Definition tuple_vals (sl : TyUsePureStruct) (mods : list MirLocal) (σ : store) (w : val) (ws : list val) : Prop :=
  Forall2 (fun l v => has_local_ty (E := E) body l v = true /\ forall v', σ !! l = Some v' -> v = v') mods ws /\
  forall i f v, struct_fields sl !! i = Some f -> ws !! i = Some v -> read_sem base f w = Some v.

Definition is_tuple (t : TyUsePure) (mods : list MirLocal) (σ : store) (w : val) : Prop :=
  exists sl ws, specifics t = StructLike sl /\ tuple_vals sl mods σ w ws.

Lemma tuple_of_spec mods t : tuple_of (E := E) body mods = Ok t ->
  exists tys, Forall2 (fun l ty => local_decls body !! l = Some ty) mods tys /\ viper_tuple tys = Ok t.
Proof.
  intros Ht. unfold tuple_of in Ht. inv_outcome.
  match goal with H1 : collect _ _ = Ok ?tys, H2 : unwrap_ok _ = _ |- _ =>
    apply collect_Ok in H1; apply unwrap_ok_Ok in H2; exists tys; split; [|done];
    eapply Forall2_impl; [exact H1|] end.
  intros l ty Hl. by apply unwrap_Ok_inv in Hl.
Qed.

Lemma tuple_args_vals ρ σ cv u mods args :
  agrees ρ σ (versions u ∪ cv) -> Forall (fun l => is_Some (cv !! l)) mods ->
  Forall2 (fun l e => mk_version_ex (E := E) (branch_version cv u l) = Ok e) mods args ->
  Forall (in_scope m ρ) args ->
  exists ws, denote_all m ρ args ws /\
    Forall2 (fun l v => has_local_ty (E := E) body l v = true /\ forall v', σ !! l = Some v' -> v = v') mods ws.
Proof.
  intros Ha Hcv Hargs. induction Hargs as [|l e mods args He _ IH]; intros Hs.
  - exists []. split; constructor.
  - apply Forall_cons in Hcv as [[ver0 Hver0] Hcv]. apply Forall_cons in Hs as [Hs1 Hs2].
    destruct (IH Hcv Hs2) as (ws & Hws & Hvals). unfold mk_version_ex in He. inv_outcome.
    match goal with Hi : initialised _ = Some ?d, Hs : in_scope m ρ _ |- _ =>
      apply in_scope_Local in Hs as [w Hw]; rename Hi into Hd end.
    assert (exists ver, (versions u ∪ cv) !! l = Some ver /\ branch_version cv u l = ver) as (ver & Hver & Heq).
    { unfold branch_version. rewrite lookup_union. rewrite Hver0. destruct (versions u !! l); simpl; eauto. }
    rewrite Heq in Hd. exists (w :: ws). split; constructor; try done. split; [by eapply agree_typed|].
    intros v' Hv'. by eapply agree_value.
Qed.

Lemma reify_branch_sound s' used t mods cv u σ ρ res :
  tuple_of (E := E) body mods = Ok t -> Forall (fun l => is_Some (cv !! l)) mods ->
  reify_branch (E := E) used t mods cv (Some u) = Ok res -> base ⊆ ρ ->
  extends (E := E) debug encoding_depth m s' (binds u) ρ (fun ρ' => agrees ρ' σ (versions u ∪ cv)) ->
  in_scope m ρ res ->
  exists w, is_tuple t mods σ w /\ denotes m ρ res w.
Proof.
  intros Ht Hmods Hres Hb Hext Hs. apply tuple_of_spec in Ht as (tys & Htys & Ht).
  destruct (tuple_law _ _ Ht) as (sl & Hsl & Hlaw).
  cbn [reify_branch] in Hres. apply bind_Ok_inv in Hres as (args & Hargs & (tuple & Htuple & Hres)%bind_Ok_inv).
  apply collect_Ok in Hargs. unfold mk_cons, expect_structlike in Htuple. rewrite Hsl in Htuple. simpl in Htuple.
  apply (Hext used tuple res (is_tuple t mods σ) Hres Hs). intros ρ' Hρ' _ Ha Hs'.
  apply (field_snaps_scope _ _ _ _ _ Htuple) in Hs' as Hs2.
  destruct (tuple_args_vals _ _ _ _ _ _ Ha Hmods Hargs Hs2) as (ws & Hws & Hvals).
  destruct (Hlaw ws) as (w & Hw & Hread).
  { clear -Hvals Htys. revert ws Hvals. induction Htys as [|l ty mods tys Hl _ IH]; intros ws Hvals;
      inversion Hvals as [|? v ? ws' [Hv _] Hvs]; subst; constructor; auto.
    unfold has_local_ty in Hv. by rewrite Hl in Hv. }
  exists w. split; [by exists sl, ws|]. eapply (field_snaps_denotes base); [by etrans|exact Htuple|exact Hws|exact Hw].
Qed.

(** ** Choosing the arm *)
Lemma bits_denotes k ty bits e (ρ : env) v :
  expr_from_bits (E := E) k ty bits = Ok e -> bits_sem (E := E) k ty bits = Some v -> denotes m ρ e v.
Proof.
  unfold bits_sem. intros He. rewrite (proj2 (ok_Some _ _) He). simpl. intros Hv. apply eval_denotes.
  eapply eval_grows; [|exact Hv]. apply map_empty_subseteq.
Qed.

(** The constants of the arms have distinct values. *)
Definition arms_distinct (k : TyPurePrimDataKind) (ty : TyKind) (values : list Z) : Prop :=
  exists vs, Forall2 (fun bits v => bits_sem (E := E) k ty bits = Some v) values vs /\ NoDup vs.

Lemma values_missed k ty values vs p :
  Forall2 (fun bits v => bits_sem (E := E) k ty bits = Some v) values vs -> p ∉ vs ->
  Forall (fun bits => exists b, bits_sem (E := E) k ty bits = Some b /\ p <> b) values.
Proof.
  induction 1 as [|bits b values vs Hb _ IH]; intros Hnin; constructor; apply not_elem_of_cons in Hnin as [Hne Hnin]; eauto.
Qed.

Section switch.
Variables (used : gset (MirLocal * nat)) (t : TyUsePure) (mods : list MirLocal) (cv : Versions).
Variables (k : TyPurePrimDataKind) (ty : TyKind) (de : Expr) (v p : val) (ρ : env) (Q : val -> Prop).
Hypotheses (Hde : in_scope m ρ de -> denotes m ρ de v) (Hp : prim_sem k v = Some p).

(** An expression that has a value with [Q] when its variables are bound. *)
Definition valued (e : Expr) : Prop := in_scope m ρ e -> exists w, Q w /\ denotes m ρ e w.

Lemma switch_arm_denotes prim bits e arm acc b :
  snap_to_prim k de = Ok (E := E) prim -> expr_from_bits (E := E) k ty bits = Ok e ->
  bits_sem (E := E) k ty bits = Some b ->
  valued (if bool_decide (p = b) then arm else acc) -> valued (mk_ternary_expr (mk_eq_expr prim e) arm acc).
Proof.
  intros Hpe Hbe Hb Hv Hs. destruct (snap_to_prim_spec m k de _ ρ Hpe) as [Hsc Hden].
  apply in_scope_Ternary in Hs as ([Hsp _]%in_scope_BinOp & Hs1 & Hs2).
  pose proof (denotes_eq m ρ _ _ _ _ (Hden _ _ (Hde (Hsc Hsp)) Hp) (bits_denotes _ _ _ _ ρ _ Hbe Hb)) as Hcond.
  destruct Hv as (w & HQ & Hw); [by case_bool_decide|].
  exists w. split; [done|]. eapply denotes_Ternary; [exact Hcond|]. by case_bool_decide.
Qed.

Lemma switch_expr_missed arms : forall acc e,
  switch_expr (E := E) used t mods cv k ty de arms acc = Ok e ->
  Forall (fun bits => exists b, bits_sem (E := E) k ty bits = Some b /\ p <> b) arms.*1 ->
  valued acc -> valued e.
Proof.
  induction arms as [|[bits u] arms IH]; intros acc e He Hmiss Hacc; cbn [switch_expr] in He; [by simplify_eq|].
  apply Forall_cons in Hmiss as [(b & Hb & Hne) Hmiss]. inv_outcome.
  eapply IH; [done|done|]. eapply switch_arm_denotes; [done..|]. by rewrite bool_decide_false.
Qed.

(** The arm that the machine chooses decides the value of the conditional. *)
Lemma switch_expr_sound arms : forall acc e other chosen,
  switch_expr (E := E) used t mods cv k ty de arms acc = Ok e ->
  arms_distinct k ty arms.*1 -> switch_sem (E := E) k ty p arms other = Some chosen ->
  (forall bits u arm, (bits, u) ∈ arms -> u = chosen -> bits_sem (E := E) k ty bits = Some p ->
     reify_branch (E := E) used t mods cv u = Ok arm -> valued arm) ->
  (other = chosen -> Forall (fun bits => bits_sem (E := E) k ty bits <> Some p) arms.*1 -> valued acc) ->
  valued e.
Proof.
  induction arms as [|[bits u] arms IH]; intros acc e other chosen He Hd Hsem Harm Hother;
    cbn [switch_expr switch_sem] in *; [simplify_eq; by apply Hother; [|constructor]|].
  destruct Hd as (vs & Hvs & Hnd). inversion Hvs as [|? b ? vs' Hb Hvs']; subst vs.
  apply NoDup_cons in Hnd as [Hnin Hnd]. inv_outcome. rewrite Hb in Hsem. simpl in Hsem.
  case_bool_decide as Heq; [injection Hsem as <-|].
  - eapply switch_expr_missed; [done| |eapply switch_arm_denotes; [done..|]].
    + eapply values_missed; [exact Hvs'|by rewrite Heq].
    + rewrite bool_decide_true by done. eapply Harm; [by constructor|done|by rewrite Hb, Heq|done].
  - eapply IH; [done|by exists vs'|done| |].
    + intros bits' u' arm Hin. apply (Harm bits'). by constructor.
    + intros Hc Hf. eapply switch_arm_denotes; [done..|]. rewrite bool_decide_false by done.
      apply Hother; [done|]. constructor; [|done]. simpl in *. rewrite Hb. congruence.
Qed.
End switch.
End cfg.
