(* ===== verification/PureBranch.v ===== *)
(** * The variables of a join point

    [new_phi] and [destructure_phi] of [mir_pure.rs]: the phi variable of a branch
    holds the tuple of the arm that the machine takes, and the versions taken
    from its elements agree with the store at the join point. *)
From stdpp Require Import pretty.
From S2P Require Import Prelude FlowEngine Mir.
From S2P Require Import Vir VirMake VirSem VirInt VirReify TyDomain Primitive BinOpEnc TyUse PureMir PureEnc PureSem.
From S2P Require Import PureRead PureSim PureCfg.

Section branch.
Context {R : Rustc} {H : Host} {E : Type} {D : PureDeps E} {VM : ViperModel}.
Variable base : gmap string (value domain_value).
Context {PM : PureMeaning E base} {TL : TupleLaws E base}.
Variables (debug : bool) (encoding_depth : nat) (body : Body).
Variable m : gmap string Expr.
Abbreviation val := (value domain_value).
Abbreviation store := (gmap MirLocal val).
Abbreviation env := (gmap string val).
Abbreviation agrees := (agree (E := E) body).
Abbreviation sim := (simulates (E := E) base debug encoding_depth body m).
Abbreviation names_ok := (named debug encoding_depth).
Abbreviation fresh_in := (fresh debug encoding_depth).
Abbreviation ext := (extends (E := E) debug encoding_depth m).

(** ** The locals that a branch modifies *)
Lemma modified_locals_elem (cv : Versions) updates l :
  l ∈ modified_locals cv updates <->
  is_Some (cv !! l) /\ exists u, Some u ∈ updates /\ is_Some (versions u !! l).
Proof.
  unfold modified_locals. rewrite merge_sort_Permutation, elem_of_elements, elem_of_intersection, elem_of_dom.
  apply and_iff_compat_l. rewrite elem_of_union_list. split.
  - intros (X & (u & -> & Hu)%list_elem_of_fmap & Hl). destruct u as [u|]; simpl in Hl; [|by apply elem_of_empty in Hl].
    exists u. split; [done|by apply elem_of_dom].
  - intros (u & Hu & Hl). exists (dom (versions u)). split; [|by apply elem_of_dom].
    apply list_elem_of_fmap. by exists (Some u).
Qed.

Lemma modified_locals_NoDup cv updates : NoDup (modified_locals cv updates).
Proof. unfold modified_locals. rewrite merge_sort_Permutation. apply NoDup_elements. Qed.

(** ** The phi variable *)
Lemma agrees_same ρ ρ' σ s cv :
  names_ok s cv -> agrees ρ σ cv ->
  (forall l ver, ρ' !! mk_local debug encoding_depth l ver = ρ !! mk_local debug encoding_depth l ver) ->
  agrees ρ' σ cv.
Proof.
  intros Hn [Hv Ht] Heq. split; intros l ver d w.
  - intros v Hl Hd Hw Hσ. destruct (Hn l ver d Hl Hd) as [Hname _]. rewrite Hname, Heq, <- Hname in Hw. eauto.
  - intros Hl Hd Hw. destruct (Hn l ver d Hl Hd) as [Hname _]. rewrite Hname, Heq, <- Hname in Hw. eauto.
Qed.

Lemma new_phi_spec loc ty s phi s' :
  new_phi (E := E) debug encoding_depth loc ty s = Ok (phi, s') ->
  ctr_le s s' /\ v_index phi = phi_ctr s /\ phi_ctr s' = S (phi_ctr s) /\
  initialised phi = Some {| decl_name := mk_phi debug encoding_depth phi; decl_ty := ty |}.
Proof.
  intros He. unfold new_phi in He. inv_M. split; [|done]. split; simpl; eauto.
Qed.

Lemma extends_phi s s' phi d e ρ σ cv (P : val -> Prop) :
  ctr_le s s' -> phi_ctr s <= v_index phi < phi_ctr s' -> initialised phi = Some d ->
  decl_name d = mk_phi debug encoding_depth phi ->
  fresh_in s ρ -> names_ok s cv -> agrees ρ σ cv ->
  (in_scope m ρ e -> exists w, P w /\ denotes m ρ e w) ->
  ext s' [BindPhi phi e] ρ (fun ρ' => agrees ρ' σ cv /\ exists w, P w /\ ρ' !! decl_name d = Some w).
Proof.
  intros Hle Hphi Hd Hname Hf Hn Ha He used k res Q Hres Hs Hk. simpl in Hres. rewrite Hd in Hres. simpl in Hres.
  injection Hres as <-.
  assert (ρ !! decl_name d = None) as Hnew by (rewrite Hname; eapply fresh_phi; [exact Hf|lia]).
  destruct He as (v & HP & Hv); [by apply (in_scope_Let _ _ _ _ _ VNull) in Hs as [? _]|].
  apply (in_scope_Let _ _ _ _ _ v) in Hs as [_ Hs].
  destruct (Hk (<[decl_name d := v]> ρ)) as (w & HQ & Hw); [by apply insert_new| | |done|].
  - destruct (fresh_le _ _ _ _ _ Hle Hf) as [Hl Hp]. rewrite Hname. split.
    + intros l' v' n' Hl' Hi. rewrite lookup_insert_ne; [by eapply Hl|]. apply not_eq_sym, mk_local_phi.
    + intros v' Hi. rewrite lookup_insert_ne; [by apply Hp|]. intros [_ Hidx]%mk_phi_inj. lia.
  - split.
    + eapply agrees_same; [done..|]. intros l ver. rewrite lookup_insert_ne; [done|]. rewrite Hname.
      apply not_eq_sym, mk_local_phi.
    + exists v. by rewrite lookup_insert_eq.
  - exists w. split; [done|]. by eapply denotes_Let.
Qed.

(** ** The elements of the phi variable *)
Fixpoint assign_all (mods : list MirLocal) (ws : list val) (σ : store) : store :=
  match mods, ws with
  | l :: mods, w :: ws => assign_all mods ws (<[l := w]> σ)
  | _, _ => σ
  end.

Lemma assign_all_other mods ws : forall σ l, l ∉ mods -> assign_all mods ws σ !! l = σ !! l.
Proof.
  revert ws. induction mods as [|l' mods IH]; intros [|w ws] σ l Hl; simpl; try done.
  apply not_elem_of_cons in Hl as [Hne Hl]. rewrite IH by done. by rewrite lookup_insert_ne.
Qed.

Lemma assign_all_at mods ws : forall σ l (P : MirLocal -> val -> Prop), NoDup mods -> Forall2 P mods ws -> l ∈ mods ->
  exists w, assign_all mods ws σ !! l = Some w /\ P l w.
Proof.
  revert ws. induction mods as [|l' mods IH]; intros ws σ l P Hnd Hf Hl; [by apply not_elem_of_nil in Hl|].
  apply NoDup_cons in Hnd as [Hnin Hnd]. inversion Hf as [|? w ? ws' Hw Hws]; subst. simpl.
  destruct (decide (l = l')) as [->|Hne].
  - exists w. split; [|done]. rewrite assign_all_other by done. by rewrite lookup_insert_eq.
  - apply IH; [done..|]. by apply elem_of_cons in Hl as [?|?].
Qed.

(** What [destructure_phi] does to the counters and versions. *)
Definition destructured (s s' : Enc) (mods : list MirLocal) (cv cv' : Versions) (u1 : Update) : Prop :=
  ctr_le s s' /\ (names_ok s cv -> names_ok s' cv') /\ cv' = versions u1 ∪ cv /\
  forall l, is_Some (versions u1 !! l) <-> l ∈ mods.

Lemma mk_elem_read t sl e i e' :
  specifics t = StructLike sl -> mk_elem (E := E) t e i = Ok e' ->
  exists f, struct_fields sl !! i = Some f /\ e' = read f e.
Proof.
  intros Hsl He. unfold mk_elem, expect_structlike in He. rewrite Hsl in He. simpl in He. unfold struct_field in He.
  inv_outcome. by apply unwrap_Ok_inv in H0 || eauto using unwrap_Ok_inv.
Qed.

Lemma destructure_phi_sound t sl phi d loc mods : specifics t = StructLike sl -> initialised phi = Some d ->
  forall idx u cv s u' cv' s',
  destructure_phi (E := E) debug encoding_depth body t phi idx mods loc u cv s = Ok ((u', cv'), s') ->
  exists u1, u' = merge_inner u u1 /\ destructured s s' mods cv cv' u1 /\
    forall ρ σ w ws, base ⊆ ρ -> fresh_in s ρ -> names_ok s cv -> agrees ρ σ cv -> ρ !! decl_name d = Some w ->
    Forall2 (fun l v => has_local_ty (E := E) body l v = true) mods ws ->
    (forall i f v, struct_fields sl !! (idx + i) = Some f -> ws !! i = Some v -> read_sem base f w = Some v) ->
    ext s' (binds u1) ρ (fun ρ' => agrees ρ' (assign_all mods ws σ) cv').
Proof.
  intros Hsl Hd. induction mods as [|l mods IH]; intros idx u cv s u' cv' s' He; cbn [destructure_phi] in He; inv_M.
  - exists Update_new. rewrite merge_new_r. split; [done|]. split.
    + split; [done|]. split; [done|]. split; [unfold Update_new; simpl; by rewrite (left_id_L ∅ (∪))|]. intros l.
      split; [by intros [??]|]. by intros ?%not_elem_of_nil.
    + intros ρ σ w ws Hb Hf Hn Ha Hw Hws _. inversion Hws; subst. by apply extends_nil.
  - apply bump_version_spec in Hm2 as (ver & -> & Hbump). pose proof Hbump as (Hle & Hnext & dv & Hdv & Hname).
    unfold mk_version_ex in Hm0. rewrite Hd in Hm0. simpl in Hm0. injection Hm0 as <-.
    destruct (mk_elem_read _ _ _ _ _ Hsl Hm1) as (f & Hfield & ->).
    rewrite merge_one_binding in Hm3. simpl in Hm3. rewrite lookup_insert_eq in Hm3. simpl in Hm3. injection Hm3 as <-.
    apply IH in He as (u1 & -> & (Hle1 & Hn1 & -> & Hdom) & Hext).
    exists (merge_inner (one_binding l ver (read f (mk_local_ex d))) u1). rewrite merge_assoc. split; [done|]. split.
    + split; [by etrans|]. split; [intros Hn; by apply Hn1, (bumped_named debug encoding_depth s)|]. split.
      * unfold merge_inner, one_binding. simpl. by rewrite <- (assoc_L (∪)), <- insert_union_singleton_l.
      * intros l'. simpl. rewrite elem_of_cons, lookup_union_is_Some, Hdom, lookup_singleton_is_Some. naive_solver.
    + intros ρ σ w ws Hb Hf Hn Ha Hw Hws Hread. inversion Hws as [|? v ? ws' Hv Hws']; subst. simpl.
      eapply (extends_app debug encoding_depth m s3 s' [_]).
      * eapply extends_assign; [done..|]. intros Hs%read_scope. apply (read_denotes base m ρ Hb f _ w).
        -- unfold denotes. simpl. exact Hw.
        -- apply (Hread 0); [by rewrite Nat.add_0_r|done].
      * intros ρ1 Hρ1 Hf1 Ha1. apply (Hext ρ1 (<[l := v]> σ) w ws'); try done.
        -- by etrans.
        -- by apply (bumped_named debug encoding_depth s).
        -- by eapply lookup_weaken.
        -- intros i f' v' Hf' Hv'. apply (Hread (S i)); [by rewrite Nat.add_succ_r|done].
Qed.

Lemma destructure_phi_le t phi loc mods : forall idx u cv s u' cv' s',
  destructure_phi (E := E) debug encoding_depth body t phi idx mods loc u cv s = Ok ((u', cv'), s') -> ctr_le s s'.
Proof.
  induction mods as [|l mods IH]; intros idx u cv s u' cv' s' He; cbn [destructure_phi] in He; inv_M; [done|].
  apply bump_version_spec in Hm2 as (ver & _ & Hle & _). apply IH in He. by etrans.
Qed.

Lemma finish_branch_le t mods loc pe cv s uv s' :
  finish_branch (E := E) debug encoding_depth body t mods loc pe cv s = Ok (uv, s') -> ctr_le s s'.
Proof.
  intros He. unfold finish_branch in He. inv_M. destruct uv as [u' cv']. apply new_phi_spec in Hm as (Hle & _).
  apply destructure_phi_le in He. by etrans.
Qed.

(** The values of the tuple are those of the store at the join point, and the
    arms change no other local that has a version. *)
Lemma assign_all_agrees ρ mods σ σ2 sl w ws (cv cv' : Versions) :
  NoDup mods -> tuple_vals (E := E) base body sl mods σ2 w ws ->
  (forall l, is_Some (cv' !! l) -> is_Some (cv !! l)) ->
  (forall l v, is_Some (cv !! l) -> l ∉ mods -> σ2 !! l = Some v -> σ !! l = Some v) ->
  agrees ρ (assign_all mods ws σ) cv' -> agrees ρ σ2 cv'.
Proof.
  intros Hnd [Hws _] Hdom Hframe [Hv Ht]. split; [|done]. intros l ver d x y Hl Hd Hx Hy.
  eapply Hv; [done..|]. destruct (decide (l ∈ mods)) as [Hin|Hnin].
  - destruct (assign_all_at mods ws σ l _ Hnd Hws Hin) as (w' & -> & _ & Hw'). f_equal. by apply Hw'.
  - rewrite assign_all_other by done. apply Hframe; [by apply Hdom; exists ver|done..].
Qed.

(** A branch as a whole: it starts in [sb], before its arms were encoded. *)
Lemma finish_branch_simulates t mods loc pe cv sb s u cv' s' σ σ2 :
  finish_branch (E := E) debug encoding_depth body t mods loc pe cv s = Ok ((u, cv'), s') ->
  (exists sl, specifics t = StructLike sl) -> NoDup mods -> Forall (fun l => is_Some (cv !! l)) mods -> ctr_le sb s ->
  (forall l v, is_Some (cv !! l) -> l ∉ mods -> σ2 !! l = Some v -> σ !! l = Some v) ->
  (forall ρ, base ⊆ ρ -> fresh_in sb ρ -> names_ok sb cv -> agrees ρ σ cv -> in_scope m ρ pe ->
     exists w, is_tuple (E := E) base body t mods σ2 w /\ denotes m ρ pe w) ->
  cv' = versions u ∪ cv /\ sim sb s' cv σ u σ2.
Proof.
  intros He [sl Hsl] Hnd Hmods Hle Hframe Hpe. unfold finish_branch in He. inv_M.
  apply new_phi_spec in Hm as (Hle1 & Hidx & Hctr & Hd).
  destruct (destructure_phi_sound _ _ _ _ _ _ Hsl Hd _ _ _ _ _ _ _ He)
    as (u1 & -> & (Hle2 & Hn2 & -> & Hdom) & Hext).
  unfold merge_inner. simpl. rewrite (right_id_L ∅ (∪)). split; [done|].
  assert (forall l, is_Some ((versions u1 ∪ cv) !! l) -> is_Some (cv !! l)) as Hsub.
  { intros l [Hl%Hdom|Hl]%lookup_union_is_Some; [|done]. rewrite Forall_forall in Hmods. by apply Hmods. }
  unfold simulates. simpl. split; [by repeat (etrans; [eassumption|])|]. split.
  { intros Hn. apply Hn2. eapply named_le; [|done]. by etrans. }
  split.
  { intros l v Hl Hl' Hv. apply Hframe; [done| |done]. intros [? ?]%Hdom. congruence. }
  intros ρ Hb Hf Hn Ha. eapply (extends_app _ _ _ _ _ [_]).
  { eapply extends_phi with (s := s) (cv := cv) (P := is_tuple (E := E) base body t mods σ2); [done|lia|done|done| | |done|].
    - by eapply fresh_le.
    - by eapply named_le.
    - by apply Hpe. }
  intros ρ1 Hρ1 Hf1 (Ha1 & w & (sl' & ws & Hsl' & Hws) & Hw).
  rewrite Hsl in Hsl'. injection Hsl' as <-. pose proof Hws as [Hvals Hread].
  eapply extends_impl; [reflexivity| |apply (Hext ρ1 σ w ws); try done].
  - intros ρ2 Hρ2. by apply (assign_all_agrees ρ2 mods σ σ2 sl w ws cv).
  - by etrans.
  - eapply named_le; [|done]. by etrans.
  - eapply Forall2_impl; [exact Hvals|]. by intros ?? [? _].
Qed.
End branch.
