(* ===== verification/PureDom.v ===== *)
(** * Dominators, join points and termination

    The join point of a branch is the immediate dominator of its block in the
    reversed control-flow graph ([ReverseGraph] of [mir_pure.rs]): the first
    block that every run from the branch to a return passes. The compiler's
    dominator computation is a parameter; [idom_law] is what it documents. The second
    part shows that the encoder terminates: [encode_cfg] recurses along the edges of
    a loop-free graph and to join points, which lie on every way from their branch to
    a return, so fuel for one call more than the body has blocks is enough. *)
From S2P Require Import Prelude FlowEngine Mir.
From S2P Require Import Vir VirMake VirSem VirInt VirReify TyDomain Primitive BinOpEnc TyUse PureMir PureEnc.

(** ** Dominance *)
Section dominance.
Variable G : Graph.

(** [reaches d n]: a path from the start to [n] that avoids [d]. *)
Inductive reaches (d : nat) : nat -> Prop :=
| reaches_start : start_node G <> d -> reaches d (start_node G)
| reaches_step x y : reaches d x -> y ∈ graph_successors G x -> y <> d -> reaches d y.

Definition dominates (d n : nat) : Prop := ~ reaches d n.

Definition graph_edge (x y : nat) : Prop := y ∈ graph_successors G x.

Record immediate (n d : nat) : Prop := {
  immediate_reachable : rtc graph_edge (start_node G) n;
  immediate_strict : d <> n;
  immediate_dominates : dominates d n;
  immediate_closest d' : d' <> n -> dominates d' n -> dominates d' d;
}.

Lemma reaches_ne d n : reaches d n -> n <> d.
Proof. by destruct 1. Qed.

Lemma dominates_refl d : dominates d d.
Proof. by intros Hr%reaches_ne. Qed.

(** A dominator of [y] other than [y] dominates the predecessors of [y]. *)
Lemma dominates_pred d x y : dominates d y -> y <> d -> y ∈ graph_successors G x -> dominates d x.
Proof. intros Hd Hne Hy Hx. apply Hd. by eapply reaches_step. Qed.

Lemma dominates_start d : dominates d (start_node G) -> d = start_node G.
Proof. intros Hd. destruct (decide (start_node G = d)) as [|Hne]; [done|]. destruct Hd. by constructor. Qed.

(** A set that is closed under the edges that avoid [d] has what [d] does not
    dominate. *)
Lemma reaches_closed d (S : nat -> Prop) n :
  (start_node G <> d -> S (start_node G)) ->
  (forall x y, S x -> y ∈ graph_successors G x -> y <> d -> S y) -> reaches d n -> S n.
Proof. intros Hs Hc. induction 1; eauto. Qed.
End dominance.

(** A path to [n] avoids [d], ends in [d] or passes it. *)
Lemma reaches_or_passes G d n :
  rtc (graph_edge G) (start_node G) n -> reaches G d n \/ d = n \/ tc (graph_edge G) d n.
Proof.
  revert n. apply rtc_ind_r.
  - destruct (decide (start_node G = d)) as [->|Hne]; [by right; left|left; by constructor].
  - intros x y _ Hxy IH. destruct (decide (d = y)) as [->|Hne]; [by right; left|]. destruct IH as [Hx|[->|Hx]].
    + left. eapply reaches_step; [exact Hx|exact Hxy|done].
    + right; right. by constructor.
    + right; right. by eapply tc_r.
Qed.

(** The immediate dominator is passed on the way. *)
Lemma immediate_passed G n d : immediate G n d -> tc (graph_edge G) d n.
Proof.
  intros [Hr Hne Hd _]. destruct (reaches_or_passes G d n Hr) as [Hx|[Hx|Hx]]; [by destruct Hd|by subst|done].
Qed.

Definition idom_law {R : Rustc} (G : Graph) : Prop :=
  forall n d, immediate_dominator G n = Some d -> immediate G n d.

(** ** The reversed graph *)
Section reverse.
Variable body : Body.

(** [graph::is_cyclic] finds a block on a cycle. *)
Definition acyclic_law {R : Rustc} : Prop :=
  is_cyclic (body_graph body) = false -> forall n, ~ tc (graph_edge (body_graph body)) n n.

Lemma reverse_edge_inv x y :
  graph_edge (reverse_graph body) x y -> x <> end_block body -> graph_edge (body_graph body) y x.
Proof.
  unfold graph_edge, reverse_graph, end_block. simpl. intros Hy Hx.
  destruct (Nat.eqb_spec x (length (basic_blocks body))); [done|]. by apply list_elem_of_filter in Hy as [? _].
Qed.

Lemma reverse_edge_not_end x y : graph_edge (reverse_graph body) x y -> y <> end_block body.
Proof.
  unfold graph_edge, reverse_graph, end_block. simpl. intros Hy ->.
  destruct (_ =? _); [apply list_elem_of_filter in Hy as [_ Hy]|apply list_elem_of_filter in Hy as [_ Hy]];
    apply elem_of_seq in Hy; lia.
Qed.

(** A reversed path that does not start at the end block is a path. *)
Lemma reverse_path x y :
  tc (graph_edge (reverse_graph body)) x y -> x <> end_block body -> tc (graph_edge (body_graph body)) y x.
Proof.
  induction 1 as [x y Hxy|x y z Hxy _ IH]; intros Hx.
  - constructor. by apply reverse_edge_inv.
  - eapply tc_r; [|by apply reverse_edge_inv]. apply IH. by eapply reverse_edge_not_end.
Qed.

Lemma end_not_block bb data : basic_blocks body !! bb = Some data -> bb <> end_block body.
Proof. intros Hbb%lookup_lt_Some. unfold end_block, reverse_graph. simpl. lia. Qed.

Lemma block_terminator_Some bb data t :
  basic_blocks body !! bb = Some data -> terminator data = Some t -> block_terminator body bb = Some t.
Proof. unfold block_terminator. intros -> Ht. exact Ht. Qed.

Lemma reverse_edge bb succ :
  bb < length (basic_blocks body) -> succ < length (basic_blocks body) -> succ ∈ block_successors body bb ->
  bb ∈ graph_successors (reverse_graph body) succ.
Proof.
  intros Hbb Hsucc Hs. unfold reverse_graph. simpl. destruct (Nat.eqb_spec succ (length (basic_blocks body))); [lia|].
  apply list_elem_of_filter. split; [done|]. apply elem_of_seq. lia.
Qed.

Lemma reverse_return bb :
  block_terminator body bb = Some Return -> bb ∈ graph_successors (reverse_graph body) (end_block body).
Proof.
  intros Ht. unfold reverse_graph, end_block. simpl. rewrite Nat.eqb_refl. apply list_elem_of_filter.
  rewrite Ht. split; [done|]. apply elem_of_seq. unfold block_terminator in Ht.
  apply bind_Some in Ht as (data & Hbb%lookup_lt_Some & _). lia.
Qed.
End reverse.

(** ** Computations that agree *)
Section bind.
Context {E : Type}.

Lemma M_bind_ext {A B} (c1 c2 : M E A) (f1 f2 : A -> M E B) s :
  c1 s = c2 s -> (forall a s', c1 s = Ok (a, s') -> f1 a s' = f2 a s') -> (c1 ≫= f1) s = (c2 ≫= f2) s.
Proof. intros Hc Hf. unfold mbind, M_bind. rewrite <- Hc. destruct (c1 s) as [[a s']| |]; [by apply Hf|done..]. Qed.

Lemma mapM_ext {A B} (f g : A -> M E B) l : (forall x s, x ∈ l -> f x s = g x s) -> forall s, mapM_ f l s = mapM_ g l s.
Proof.
  induction l as [|x l IH]; intros Hfg s; cbn [mapM_]; [done|].
  apply M_bind_ext; [apply Hfg; by constructor|]. intros y s' _. apply M_bind_ext; [|done].
  apply IH. intros z s'' Hz. apply Hfg. by constructor.
Qed.
End bind.

Section termination.
Context {R : Rustc} {H : Host} {E : Type} {D : PureDeps E}.
Variables (debug : bool) (encoding_depth : nat) (body : Body).
Variables (ghost_switches : gmap MirBlock MirBlock) (impure_context : bool).
Abbreviation cfg := (encode_cfg_from (E := E) debug encoding_depth body ghost_switches impure_context).
Abbreviation blocks := (length (basic_blocks body)).
Abbreviation edges := (tc (graph_edge (body_graph body))).

Hypothesis ghost_arms : forall bb arm, ghost_switches !! bb = Some arm -> arm ∈ block_successors body bb.
Hypothesis idoms : idom_law (reverse_graph body).
Hypothesis loop_free : forall n, ~ edges n n.

(** The blocks on the way here: different, and before [curr] in the graph. *)
Record on_the_way (visited : list MirBlock) (curr : MirBlock) : Prop := {
  way_NoDup : NoDup visited;
  way_blocks bb : bb ∈ visited -> bb < blocks;
  way_before bb : curr < blocks -> bb ∈ visited -> edges bb curr;
}.

Lemma way_step visited curr next :
  on_the_way visited curr -> curr < blocks -> (next < blocks -> edges curr next) -> on_the_way (curr :: visited) next.
Proof.
  intros [Hnd Hb Hw] Hc Hn. split.
  - constructor; [|done]. intros Hin. by apply (loop_free curr), Hw.
  - intros bb [->|?]%elem_of_cons; auto.
  - intros bb Hlt [->|Hin]%elem_of_cons; [by apply Hn|]. etrans; [by apply Hw|by apply Hn].
Qed.

Lemma way_length visited curr : on_the_way visited curr -> length visited <= blocks.
Proof.
  intros [Hnd Hb _]. rewrite <- (length_seq blocks 0). apply submseteq_length, NoDup_submseteq; [done|].
  intros bb Hin. apply elem_of_seq. specialize (Hb bb Hin). lia.
Qed.

Lemma join_after curr next : join_of (E := E) body curr = Ok next -> next < blocks -> edges curr next.
Proof.
  intros Hj%unwrap_Ok_inv Hlt. apply reverse_path; [by apply immediate_passed, idoms|].
  unfold end_block, reverse_graph. simpl. lia.
Qed.

Lemma encode_cfg_fuel stuck1 stuck2 fuel1 : forall fuel2 visited curr join cv s,
  on_the_way visited curr -> blocks < fuel1 + length visited -> blocks < fuel2 + length visited ->
  cfg stuck1 fuel1 cv curr join s = cfg stuck2 fuel2 cv curr join s.
Proof.
  induction fuel1 as [|fuel1 IH]; intros fuel2 visited curr join cv s Hway H1 H2.
  { apply way_length in Hway. lia. }
  destruct fuel2 as [|fuel2]; [apply way_length in Hway; lia|]. cbn [encode_cfg_from].
  destruct (curr =? join); [done|]. apply M_bind_ext; [done|]. intros data s0 Hdata.
  assert (curr < blocks) as Hlt.
  { unfold lift in Hdata. destruct (basic_blocks body !! curr) eqn:Hb; [by eapply lookup_lt_Some|done]. }
  apply M_bind_ext; [done|]. intros [cv1 u1] s1 _. apply M_bind_ext; [done|]. intros term s2 Hterm.
  assert (block_terminator body curr = Some term) as Hbt.
  { unfold lift in Hdata, Hterm. unfold block_terminator. destruct (basic_blocks body !! curr) as [d|]; [|done].
    simpl in *. simplify_eq. destruct (terminator data); simpl in *; by simplify_eq. }
  assert (forall next cv s join, (next < blocks -> edges curr next) ->
    cfg stuck1 fuel1 cv next join s = cfg stuck2 fuel2 cv next join s) as Hrec.
  { intros next cv' s' join' Hn. apply (IH _ (curr :: visited)); simpl; try lia. by apply way_step. }
  assert (forall next cv s join, next ∈ block_successors body curr ->
    cfg stuck1 fuel1 cv next join s = cfg stuck2 fuel2 cv next join s) as Hsucc.
  { intros next cv' s' join' Hin. apply Hrec. intros _. by constructor. }
  unfold block_successors in Hsucc. rewrite Hbt in Hsucc. simpl in Hsucc. clear Hdata Hterm.
  destruct term as [target|target ?|target ?|discr targets|cond expected target ?| | | |func args dest [target|] ?|];
    try done.
  1-3: apply M_bind_ext; [apply Hsucc; by constructor|done].
  - destruct (ghost_switches !! curr) as [arm|] eqn:Harm.
    { apply M_bind_ext; [|done]. apply Hsucc. apply ghost_arms in Harm. unfold block_successors in Harm. by rewrite Hbt in Harm. }
    do 4 (apply M_bind_ext; [done|intros ? ? _]). apply M_bind_ext; [done|]. intros next s3 Hnext.
    apply M_bind_ext; [apply mapM_ext|].
    { intros target s4 Hin. apply Hsucc, elem_of_app. by left. }
    intros updates s4 _. apply M_bind_ext; [apply Hsucc, elem_of_app; right; by constructor|]. intros other s5 _.
    do 5 (apply M_bind_ext; [done|intros ? ? _]). apply M_bind_ext; [done|]. intros [u2 cv2] s6 _.
    apply M_bind_ext; [|done]. apply Hrec. apply join_after. unfold lift in Hnext.
    destruct (join_of body curr); simpl in Hnext; by simplify_eq.
  - do 3 (apply M_bind_ext; [done|intros ? ? _]). apply M_bind_ext; [apply Hsucc; by constructor|done].
  - do 3 (apply M_bind_ext; [done|intros ? ? _]). apply M_bind_ext; [apply Hsucc; by constructor|done].
Qed.
End termination.
