(* ===== verification/PureSound.v ===== *)
(** * Pure bodies and their expressions

    [encode_cfg_from] of [mir_pure.rs] simulates the machine: the update of a part of
    the graph extends an environment that agrees with the store at its first
    block to one that agrees with the store at its join point, and the expression
    of a whole body has the value that the machine returns. *)
From stdpp Require Import pretty.
From S2P Require Import Prelude FlowEngine Mir.
From S2P Require Import Vir VirMake VirSem VirInt VirReify TyDomain Primitive BinOpEnc TyUse PureMir PureEnc PureSem.
From S2P Require Import PureRead PureSim PureCfg PureBranch PureDom.

Section cfg.
Context {R : Rustc} {H : Host} {E : Type} {D : PureDeps E} {VM : ViperModel}.
Variable base : gmap string (value domain_value).
Context {PM : PureMeaning E base} {TL : TupleLaws E base}.
Variables (debug : bool) (encoding_depth : nat) (body : Body).
Variables (ghost_switches : gmap MirBlock MirBlock) (impure_context : bool).
Variable m : gmap string Expr.
Abbreviation val := (value domain_value).
Abbreviation store := (gmap MirLocal val).
Abbreviation env := (gmap string val).
Abbreviation agrees := (agree (E := E) body).
Abbreviation sim := (simulates (E := E) base debug encoding_depth body m).
Abbreviation names_ok := (named debug encoding_depth).
Abbreviation fresh_in := (fresh debug encoding_depth).
Abbreviation cfg := (encode_cfg_from (E := E) debug encoding_depth body ghost_switches impure_context
                       (lift (Panic "out of fuel"))).
Abbreviation fin := (finishes (E := E) base body ghost_switches impure_context).
Abbreviation stmts := (encode_stmts (E := E) debug encoding_depth body impure_context).

(** ** The encoding of a terminator

    What a successful [encode_cfg_from] did after the statements of its block; the
    recursive calls are those of [rec]. *)
Definition goto_target (curr : MirBlock) (term : TerminatorKind) : option MirBlock :=
  match term with
  | Goto target | FalseEdge target _ | Drop target _ => Some target
  | SwitchInt _ _ => ghost_switches !! curr
  | _ => None
  end.

Section terminator.
Variable rec : Versions -> MirBlock -> MirBlock -> M E (option Update).
Variables (cv : Versions) (curr join : MirBlock) (loc : Location).

Inductive encoded : TerminatorKind -> Enc -> option Update -> Enc -> Prop :=
| encoded_goto term target rest s s' :
    goto_target curr term = Some target -> rec cv target join s = Ok (rest, s') -> encoded term s rest s'
| encoded_switch discr targets ty dt k next de updates other arms_s s s1 s2 s3 s4 s5 x t otherwise pe u2 cv2 rest s' :
    ghost_switches !! curr = None ->
    encode_operand_snap (E := E) body impure_context cv discr s = Ok (de, s1) ->
    operand_ty body discr = Ok (E := E) ty -> ty_use (E := E) ty = Ok dt -> expect_primitive dt = Ok (E := E) k ->
    join_of (E := E) body curr = Ok next ->
    mapM_ (fun target => rec cv target next) (snd <$> switch_values targets) s1 = Ok (updates, s2) ->
    rec cv (switch_otherwise targets) next s2 = Ok (other, s3) ->
    mark_modified (E := E) (modified_locals cv (updates ++ [other])) (updates ++ [other]) s3 = Ok (x, s4) ->
    tuple_of (E := E) body (modified_locals cv (updates ++ [other])) = Ok t ->
    reify_branch (versions_used arms_s) t (modified_locals cv (updates ++ [other])) cv other = Ok (E := E) otherwise ->
    switch_expr (E := E) (versions_used arms_s) t (modified_locals cv (updates ++ [other])) cv k (kind_of_ty ty) de
      (zip (fst <$> switch_values targets) updates) otherwise = Ok pe ->
    finish_branch (E := E) debug encoding_depth body t (modified_locals cv (updates ++ [other])) loc pe cv s4
      = Ok ((u2, cv2), s5) ->
    rec cv2 next join s5 = Ok (rest, s') ->
    encoded (SwitchInt discr targets) s (update_merge u2 rest) s'
| encoded_assert cond expected target unwind ce u arms_s s s1 s2 s3 x t ok_e fail_e u2 cv2 s' :
    encode_operand_snap (E := E) body impure_context cv cond s = Ok (ce, s1) ->
    rec cv target join s1 = Ok (Some u, s2) ->
    mark_modified (E := E) (modified_locals cv [Some u]) [Some u] s2 = Ok (x, s3) ->
    tuple_of (E := E) body (modified_locals cv [Some u]) = Ok t ->
    reify_branch (versions_used arms_s) t (modified_locals cv [Some u]) cv (Some u) = Ok (E := E) ok_e ->
    reify_branch (versions_used arms_s) t (modified_locals cv [Some u]) cv None = Ok (E := E) fail_e ->
    finish_branch (E := E) debug encoding_depth body t (modified_locals cv [Some u]) loc
      (mk_ternary_expr (mk_eq_expr ce (Const (CBool expected))) ok_e fail_e) cv s3 = Ok ((u2, cv2), s') ->
    encoded (Assert cond expected target unwind) s (Some u2) s'
| encoded_return s : encoded Return s (Some Update_new) s
| encoded_unreachable s : encoded Unreachable s None s
| encoded_diverging func args dest unwind s : encoded (Call func args dest None unwind) s None s
| encoded_call func args dest target unwind e u s s1 s2 rest s' :
    encode_call (E := E) encoding_depth body impure_context func args cv s = Ok (e, s1) ->
    projection dest = [] ->
    bump_version (E := E) debug encoding_depth Update_new (Mir.local dest) e loc s1 = Ok (u, s2) ->
    rec (add_to_map u cv) target join s2 = Ok (rest, s') ->
    encoded (Call func args dest (Some target) unwind) s (update_merge u rest) s'.
End terminator.

Lemma update_merge_assoc u1 u2 r : update_merge (merge_inner u1 u2) r = update_merge u1 (update_merge u2 r).
Proof. destruct r as [u3|]; simpl; [|done]. by rewrite merge_assoc. Qed.

Lemma encode_cfg_inv fuel cv curr join s r s' :
  cfg (S fuel) cv curr join s = Ok (r, s') ->
  (curr = join /\ r = Some Update_new /\ s' = s) \/
  curr <> join /\ exists data cv1 u1 s1 term rest,
    basic_blocks body !! curr = Some data /\ terminator data = Some term /\
    stmts cv curr 0 (statements data) Update_new s = Ok ((cv1, u1), s1) /\
    encoded (cfg fuel) cv1 curr join {| block := curr; statement_index := length (statements data) |}
      term s1 rest s' /\
    r = update_merge u1 rest.
Proof.
  intros He. cbn [encode_cfg_from] in He. destruct (Nat.eqb_spec curr join) as [->|Hne]; [inv_M; by left|].
  right. split; [done|]. inv_M.
  match goal with H1 : unwrap _ (basic_blocks body !! curr) = Ok ?d, H2 : stmts _ _ _ _ _ _ = Ok (?a, ?s1) |- _ =>
    destruct a as [cv1 u1]; apply unwrap_Ok_inv in H1; rename d into data, s1 into sb end.
  inv_M. match goal with H1 : unwrap _ (terminator data) = Ok ?t |- _ =>
    apply unwrap_Ok_inv in H1; rename t into term end.
  exists data, cv1, u1, sb, term.
  destruct term as [target|target ?|target ?|discr targets|cond expected target ?| | | |func args dest [target|] ?|];
    inv_M; try done.
  1-3: eexists; do 3 (split; [done|]); split; [by econstructor|done].
  - destruct (ghost_switches !! curr) eqn:Hghost; inv_M.
    + eexists. do 3 (split; [done|]). split; [by econstructor|done].
    + match goal with H1 : finish_branch _ _ _ _ _ _ _ _ _ = Ok (?p, _) |- _ => destruct p as [u2 cv2] end.
      eexists. do 3 (split; [done|]). split; [eapply encoded_switch; eassumption|done].
  - match goal with H1 : finish_branch _ _ _ _ _ _ _ _ _ = Ok (?p, _) |- _ => destruct p as [u2 cv2] end.
    match goal with H1 : unwrap _ ?o = Ok ?u, H2 : cfg _ _ _ _ _ = Ok (?o, _) |- _ => apply unwrap_Ok_inv in H1; subst o end.
    eexists. do 3 (split; [done|]). split; [eapply encoded_assert; eassumption|done].
  - exists (Some Update_new). do 3 (split; [done|]). split; [constructor|]. simpl. by rewrite merge_new_r.
  - exists None. by repeat split; try constructor.
  - eexists. do 3 (split; [done|]). split; [eapply encoded_call; [eassumption| |eassumption..]|by rewrite update_merge_assoc].
    match goal with H1 : assert_that _ (bool_decide _) = Ok _ |- _ => apply assert_that_Ok_inv in H1; by apply bool_decide_eq_true in H1 end.
  - exists None. by repeat split; try constructor.
Qed.

(** What the compiler guarantees of a body, and that the modes of contracts
    ([before], [rel], [after]) do not occur in it. *)
Record wf_body : Prop := {
  wf_targets bb bb1 : bb1 ∈ block_successors body bb -> bb1 < length (basic_blocks body);
  wf_ghost bb arm : ghost_switches !! bb = Some arm -> arm ∈ block_successors body bb;
  wf_modes bb func args dest target unwind :
    block_terminator body bb = Some (Call func args dest target unwind) -> mode_marker (E := E) func = false;
  wf_switch bb discr targets ty t k :
    block_terminator body bb = Some (SwitchInt discr targets) -> operand_ty body discr = Ok (E := E) ty ->
    ty_use (E := E) ty = Ok t -> expect_primitive t = Ok (E := E) k ->
    arms_distinct (E := E) k (kind_of_ty ty) (switch_values targets).*1;
}.
Hypothesis Hwf : wf_body.

(** ** Counters only grow *)
Lemma mapM_le {A B} (f : A -> M E B) l : (forall x s y s', f x s = Ok (y, s') -> ctr_le s s') ->
  forall s ys s', mapM_ f l s = Ok (ys, s') ->
  ctr_le s s' /\ Forall2 (fun x y => exists s1 s2, f x s1 = Ok (y, s2) /\ ctr_le s s1) l ys.
Proof.
  intros Hf. induction l as [|x l IH]; intros s ys s' He; cbn [mapM_] in He; inv_M; [split; [done|constructor]|].
  apply Hf in Hm as Hle. destruct (IH _ _ _ Hm0) as [Hle' Hall]. split; [by etrans|].
  constructor; [by exists s, s0|]. eapply Forall2_impl; [exact Hall|].
  intros x' y (s2 & s3 & Hx & Hs). exists s2, s3. split; [done|by etrans].
Qed.

Lemma mark_modified_reads mods updates s (x : unit) s' : mark_modified (E := E) mods updates s = Ok (x, s') -> reads s s'.
Proof. intros Hm. unfold mark_modified in Hm. inv_M. by destruct s. Qed.

Lemma operand_le cv op s e s' :
  encode_operand_snap (E := E) body impure_context cv op s = Ok (e, s') -> ctr_le s s'.
Proof. intros He. apply (encode_operand_snap_spec base body impure_context m ∅) in He as [Hr _]. by apply reads_ctr_le. Qed.

Lemma call_le cv func args s e s' : mode_marker (E := E) func = false ->
  encode_call (E := E) encoding_depth body impure_context func args cv s = Ok (e, s') -> ctr_le s s'.
Proof.
  intros Hmode He. apply (encode_call_spec base encoding_depth body impure_context m ∅) in He as [Hr _]; [|done].
  by apply reads_ctr_le.
Qed.

Lemma encoded_le rec cv curr join loc term s rest s' :
  (forall cv curr join s r s', rec cv curr join s = Ok (r, s') -> ctr_le s s') ->
  block_terminator body curr = Some term -> encoded rec cv curr join loc term s rest s' -> ctr_le s s'.
Proof.
  intros Hrec Hterm He. destruct He; try done; try (by eapply Hrec).
  all: repeat match goal with
    | H : encode_operand_snap _ _ _ _ _ = Ok _ |- _ => apply operand_le in H
    | H : encode_call _ _ _ _ _ _ _ = Ok _ |- _ => apply call_le in H; [|by eapply wf_modes]
    | H : _ = Ok _ |- _ => apply Hrec in H
    | H : mark_modified _ _ _ = Ok _ |- _ => apply mark_modified_reads, reads_ctr_le in H
    | H : finish_branch _ _ _ _ _ _ _ _ _ = Ok _ |- _ => apply finish_branch_le in H
    | H : bump_version _ _ _ _ _ _ _ = Ok _ |- _ => apply bump_version_spec in H as (? & _ & H & _)
    | H : mapM_ _ _ _ = Ok _ |- _ => apply mapM_le in H as [H _]; [|intros; by eapply Hrec]
    end; by repeat (etrans; [eassumption|]).
Qed.

Lemma encode_cfg_le fuel : forall cv curr join s r s', cfg fuel cv curr join s = Ok (r, s') -> ctr_le s s'.
Proof.
  induction fuel as [|fuel IH]; intros cv curr join s r s' He; [cbn [encode_cfg_from] in He; by inv_M|].
  apply encode_cfg_inv in He as [(_ & _ & ->)|(_ & data & cv1 & u1 & s1 & term & rest & Hdata & Hterm & Hs & He & _)];
    [done|].
  apply (encode_stmts_le base _ _ _ _ m) in Hs. etrans; [exact Hs|]. clear Hs.
  by eapply encoded_le; eauto using block_terminator_Some.
Qed.

(** ** The arms of a branch *)
Lemma tuple_of_structlike mods t : tuple_of (E := E) body mods = Ok t -> exists sl, specifics t = StructLike sl.
Proof. intros (tys & _ & Ht)%tuple_of_spec. destruct (tuple_law _ _ Ht) as (sl & Hsl & _). by exists sl. Qed.

Lemma modified_known (cv : Versions) updates : Forall (fun l => is_Some (cv !! l)) (modified_locals cv updates).
Proof. apply Forall_forall. by intros l [? _]%modified_locals_elem. Qed.

Lemma arm_frame s1 s2 cv σ u σ2 updates l v :
  sim s1 s2 cv σ u σ2 -> Some u ∈ updates -> is_Some (cv !! l) -> l ∉ modified_locals cv updates ->
  σ2 !! l = Some v -> σ !! l = Some v.
Proof.
  intros (_ & _ & Hf & _) Hu Hl Hnin. apply Hf; [done|]. apply eq_None_not_Some. intros Hv. apply Hnin.
  apply modified_locals_elem. eauto.
Qed.

Lemma arm_valued sb s1 s2 cv σ u σ2 used t updates arm ρ :
  sim s1 s2 cv σ u σ2 -> ctr_le sb s1 -> tuple_of (E := E) body (modified_locals cv updates) = Ok t ->
  reify_branch used t (modified_locals cv updates) cv (Some u) = Ok (E := E) arm ->
  base ⊆ ρ -> fresh_in sb ρ -> names_ok sb cv -> agrees ρ σ cv ->
  valued m ρ (is_tuple (E := E) base body t (modified_locals cv updates) σ2) arm.
Proof.
  intros (_ & _ & _ & Hext) Hle Ht Harm Hb Hf Hn Ha Hs.
  eapply (reify_branch_sound base debug encoding_depth); [done|apply modified_known|exact Harm|done| |done].
  apply Hext; [done|by eapply fresh_le|by eapply named_le|done].
Qed.

Lemma switch_updates {A} (P : MirBlock -> A -> Prop) k ty p vals updates : 
  Forall2 P (snd <$> vals) updates -> forall ot other target, P ot other ->
  switch_sem (E := E) k ty p vals ot = Some target ->
  exists u, P target u /\ switch_sem (E := E) k ty p (zip (fst <$> vals) updates) other = Some u /\ u ∈ updates ++ [other] /\
    (target = ot \/ target ∈ snd <$> vals).
Proof.
  revert updates. induction vals as [|[bits target0] vals IH]; intros updates Hall ot other target Hot Hsem.
  - inversion Hall; subst. simpl in *. simplify_eq. exists other. split; [done|]. split; [done|]. split; [by constructor|by left].
  - inversion Hall as [|? u0 ? updates' Hu Hall']; subst. cbn [switch_sem] in Hsem. simpl.
    apply bind_Some in Hsem as (w & Hw & Hsem). rewrite Hw. simpl. case_bool_decide.
    + simplify_eq. exists u0. split; [done|]. split; [done|]. split; [by constructor|right; by constructor].
    + destruct (IH _ Hall' _ _ _ Hot Hsem) as (u & Hu' & Hs & Hin & Ht). exists u. split; [done|]. split; [done|].
      split; [by constructor|]. destruct Ht; [by left|right; by constructor].
Qed.

(** ** Terminators *)
Lemma switch_simulates sb s s1 s2 s3 s' cv σ σ2 discr de ty k v p targets updates other u used t otherwise pe loc u2 cv2 :
  encode_operand_snap (E := E) body impure_context cv discr sb = Ok (de, s) -> in_mode sb = false ->
  operand_sem (E := E) base body impure_context σ discr = Some v -> prim_sem k v = Some p ->
  arms_distinct (E := E) k (kind_of_ty ty) (switch_values targets).*1 ->
  length (switch_values targets) = length updates ->
  tuple_of (E := E) body (modified_locals cv (updates ++ [other])) = Ok t ->
  reify_branch used t (modified_locals cv (updates ++ [other])) cv other = Ok (E := E) otherwise ->
  switch_expr (E := E) used t (modified_locals cv (updates ++ [other])) cv k (kind_of_ty ty) de
    (zip (fst <$> switch_values targets) updates) otherwise = Ok pe ->
  finish_branch (E := E) debug encoding_depth body t (modified_locals cv (updates ++ [other])) loc pe cv s3
    = Ok ((u2, cv2), s') ->
  switch_sem (E := E) k (kind_of_ty ty) p (zip (fst <$> switch_values targets) updates) other = Some u ->
  u ∈ updates ++ [other] -> (exists ua, u = Some ua /\ sim s1 s2 cv σ ua σ2) ->
  ctr_le sb s1 -> ctr_le sb s3 ->
  cv2 = versions u2 ∪ cv /\ sim sb s' cv σ u2 σ2.
Proof.
  intros Hde Hmode Hv Hp Hd Hlen Ht Hother Hpe Hfin Hchosen Hin (ua & -> & Hsim) Hle1 Hle3.
  eapply finish_branch_simulates; [exact Hfin|by eapply tuple_of_structlike|apply modified_locals_NoDup|
    apply modified_known|done| |].
  - intros l w. by eapply arm_frame.
  - intros ρ Hb Hf Hn Ha Hs. apply (encode_operand_snap_spec base _ _ m σ) in Hde as [_ Hde].
    eapply (switch_expr_sound m _ _ _ _ _ _ de v p ρ); [|exact Hp|exact Hpe| |exact Hchosen| | |exact Hs].
    + intros Hsd. by apply Hde.
    + rewrite fst_zip; [done|]. rewrite length_fmap. lia.
    + intros bits u arm _ -> _ Harm. eapply arm_valued; [exact Hsim|done..].
    + intros -> _. eapply arm_valued; [exact Hsim|done..].
Qed.

Lemma assert_simulates sb s s2 s3 s' cv σ σ2 cond ce u used t ok_e fail_e expected loc u2 cv2 :
  encode_operand_snap (E := E) body impure_context cv cond sb = Ok (ce, s) -> in_mode sb = false ->
  operand_sem (E := E) base body impure_context σ cond = Some (VBool expected) ->
  tuple_of (E := E) body (modified_locals cv [Some u]) = Ok t ->
  reify_branch used t (modified_locals cv [Some u]) cv (Some u) = Ok (E := E) ok_e ->
  finish_branch (E := E) debug encoding_depth body t (modified_locals cv [Some u]) loc
    (mk_ternary_expr (mk_eq_expr ce (Const (CBool expected))) ok_e fail_e) cv s3 = Ok ((u2, cv2), s') ->
  sim s s2 cv σ u σ2 -> ctr_le sb s -> ctr_le sb s3 -> sim sb s' cv σ u2 σ2.
Proof.
  intros Hce Hmode Hv Ht Hok Hfin Hsim Hle Hle3.
  eapply finish_branch_simulates; [exact Hfin|by eapply tuple_of_structlike|apply modified_locals_NoDup|
    apply modified_known|done| |].
  - intros l w. eapply arm_frame; [exact Hsim|by constructor].
  - intros ρ Hb Hf Hn Ha Hs. apply in_scope_Ternary in Hs as ([Hsc _]%in_scope_BinOp & Hs & _).
    apply (encode_operand_snap_spec base _ _ m σ) in Hce as [_ Hce].
    destruct (arm_valued _ _ _ _ _ _ _ _ _ _ _ ρ Hsim Hle Ht Hok Hb Hf Hn Ha Hs) as (w & Hw & Hden).
    exists w. split; [done|]. eapply denotes_Ternary with (b := true); [|done].
    assert (denotes m ρ ce (VBool expected)) as Hc by by apply Hce.
    pose proof (denotes_eq m ρ ce (Const (CBool expected)) (VBool expected) (VBool expected) Hc eq_refl) as Heq.
    by rewrite bool_decide_true in Heq.
Qed.

(** ** The graph *)
Hypothesis Hidom : idom_law (reverse_graph body).
Abbreviation dom_ := (dominates (reverse_graph body)).

(** The encoding [rec] of a part of the graph simulates the run through it. *)
Definition part_sound (rec : Versions -> MirBlock -> MirBlock -> M E (option Update)) : Prop :=
  forall cv curr join s r s' σ σfin,
  rec cv curr join s = Ok (r, s') -> in_mode s = false -> dom_ join curr -> fin σ curr σfin ->
  exists u σ', r = Some u /\ fin σ' join σfin /\ sim s s' cv σ u σ'.

Lemma part_then rec cv join s s1 s' σ σ1 bb σfin u1 cv1 r :
  part_sound rec -> sim s s1 cv σ u1 σ1 -> cv1 = versions u1 ∪ cv -> in_mode s = false ->
  dom_ join bb -> fin σ1 bb σfin -> rec cv1 bb join s1 = Ok (r, s') ->
  exists u σ', update_merge u1 r = Some u /\ fin σ' join σfin /\ sim s s' cv σ u σ'.
Proof.
  intros Hrec Hsim -> Hmode Hdom Hfin Hr. pose proof Hsim as (Hle & _).
  destruct (Hrec _ _ _ _ _ _ σ1 σfin Hr) as (u & σ' & -> & Hf & Hs); [by rewrite (ctr_le_mode _ _ Hle)|done..|].
  exists (merge_inner u1 u), σ'. split; [done|]. split; [done|]. by eapply simulates_app.
Qed.

Lemma successor_dominated curr join succ :
  dom_ join curr -> curr <> join -> is_Some (basic_blocks body !! curr) -> succ ∈ block_successors body curr ->
  dom_ join succ.
Proof.
  intros Hd Hne [data Hdata] Hs. eapply dominates_pred; [exact Hd|done|]. apply reverse_edge; [by eapply lookup_lt_Some| |done].
  by eapply wf_targets.
Qed.

Lemma encoded_sound rec cv curr join loc term s rest s' data σ σ1 bb1 σfin :
  (forall cv curr join s r s', rec cv curr join s = Ok (r, s') -> ctr_le s s') -> part_sound rec ->
  basic_blocks body !! curr = Some data -> terminator data = Some term ->
  encoded rec cv curr join loc term s rest s' -> in_mode s = false -> dom_ join curr -> curr <> join ->
  term_sem (E := E) base body ghost_switches impure_context σ curr term = Some (σ1, bb1) -> fin σ1 bb1 σfin ->
  exists u σ', rest = Some u /\ fin σ' join σfin /\ sim s s' cv σ u σ'.
Proof.
  intros Hle Hrec Hdata Hterm He Hmode Hdom Hne Hsem Hfin.
  pose proof (block_terminator_Some _ _ _ _ Hdata Hterm) as Hbt.
  assert (forall succ, succ ∈ term_successors term -> dom_ join succ) as Hsucc.
  { intros succ Hs. apply (successor_dominated curr); try done. unfold block_successors. by rewrite Hbt. }
  destruct He as [term target rest s s' Hgoto Hr|discr targets ty dt k next de updates other arms_s s s1 s2 s3 s4 s5 x t
      otherwise pe u2 cv2 rest s' Hghost Hde Hty Hdt Hk Hnext Hups Hother Hmark Ht Hreify Hpe Hfb Hr
    |cond expected target unwind ce u arms_s s sa s2 s3 x t ok_e fail_e u2 cv2 s' Hce Hr Hmark Ht Hok Hfail Hfb
    |s|s|func args dest unwind s|func args dest target unwind e u s sa s2 rest s' Hcall Hproj Hbump Hr]; cbn [term_sem] in Hsem; try done.
  - (* one successor *)
    assert (target ∈ term_successors term /\ (σ1, bb1) = (σ, target)) as [Hin [= -> ->]].
    { destruct term; simpl in Hgoto; try done; simplify_eq/=; [by split; [constructor|]..|].
      rewrite Hgoto in Hsem. split; [|congruence]. apply (wf_ghost Hwf) in Hgoto.
      unfold block_successors in Hgoto. by rewrite Hbt in Hgoto. }
    eapply Hrec; [exact Hr|done|by apply Hsucc|done].
  - (* a switch *)
    rewrite Hghost in Hsem. apply bind_Some in Hsem as (v & Hv & Hsem).
    rewrite (proj2 (ok_Some _ _) Hty) in Hsem. cbn [mbind option_bind] in Hsem.
    rewrite (proj2 (ok_Some _ _) Hdt) in Hsem. cbn [mbind option_bind] in Hsem.
    rewrite (proj2 (ok_Some _ _) Hk) in Hsem. cbn [mbind option_bind] in Hsem.
    apply bind_Some in Hsem as (p & Hp & (target & Htarget & [= <- <-])%bind_Some).
    apply unwrap_Ok_inv in Hnext. apply Hidom in Hnext as Himm.
    apply operand_le in Hde as Hle1. apply Hle in Hother as Hle3.
    apply mapM_le in Hups as [Hle2 Hups]; [|intros; by eapply Hle].
    apply mark_modified_reads, reads_ctr_le in Hmark.
    destruct (switch_updates (fun target u => exists sa sb, rec cv target next sa = Ok (u, sb) /\ ctr_le s1 sa)
                k (kind_of_ty ty) p _ _ Hups (switch_otherwise targets) other target) as (u & (sa & sb & Hu & Hsa) & Hchosen & Hin & Hbb);
      [by exists s2, s3|done|].
    assert (dom_ next target) as Hdom1.
    { apply (successor_dominated curr); [apply Himm|apply not_eq_sym, Himm|by exists data|].
      unfold block_successors. rewrite Hbt. simpl. unfold all_targets. rewrite elem_of_app.
      destruct Hbb as [->|?]; [right; by constructor|by left]. }
    destruct (Hrec _ _ _ _ _ _ σ σfin Hu) as (ua & σ2 & -> & Hfin2 & Hsim); [|done..|].
    { rewrite (ctr_le_mode _ _ Hsa). by rewrite (ctr_le_mode _ _ Hle1). }
    destruct (switch_simulates s s1 sa sb s4 s5 cv σ σ2 discr de ty k v p targets updates other (Some ua)
                (versions_used arms_s) t otherwise pe loc u2 cv2) as [-> Hsim2]; try done.
    + by eapply wf_switch.
    + apply Forall2_length in Hups. by rewrite length_fmap in Hups.
    + by exists ua.
    + by etrans.
    + clear Hsa. by repeat (etrans; [eassumption|]).
    + eapply part_then; [done|exact Hsim2|done|done| |exact Hfin2|exact Hr].
      eapply immediate_closest; [exact Himm|by apply not_eq_sym|done].
  - (* an assertion *)
    apply bind_Some in Hsem as (v & Hv & Hsem). case_bool_decide; [|done]. simplify_eq.
    apply operand_le in Hce as Hle1. apply Hle in Hr as Hle2. apply mark_modified_reads, reads_ctr_le in Hmark.
    destruct (Hrec _ _ _ _ _ _ σ1 σfin Hr) as (ua & σ2 & [= <-] & Hfin2 & Hsim);
      [by rewrite (ctr_le_mode _ _ Hle1)|apply Hsucc; by constructor|done|].
    exists u2, σ2. split; [done|]. split; [done|].
    eapply assert_simulates; try done. by repeat (etrans; [eassumption|]).
  - (* a return: the join point is the end of the body *)
    injection Hsem as <- <-.
    assert (join = end_block body) as ->.
    { apply (dominates_start (reverse_graph body)).
      eapply dominates_pred; [exact Hdom|done|]. by apply reverse_return. }
    exists Update_new, σ. split; [done|]. split; [done|]. by apply simulates_nop.
  - (* a call *)
    cbn [mbind option_bind] in Hsem. apply bind_Some in Hsem as (v & Hv & (σ2 & Hσ2 & [= -> ->])%bind_Some).
    unfold assign_sem in Hσ2. destruct (bool_decide _ && _) eqn:Hd; [|done]. simplify_eq.
    apply andb_true_iff in Hd as [_ Hty].
    apply (encode_call_spec base _ _ _ m σ) in Hcall as [Hreads Hcall]; [|by eapply wf_modes].
    apply bump_version_spec in Hbump as (ver & -> & Hbump).
    rewrite merge_new_l in *.
    eapply (part_then rec cv join s s2 s' σ (<[Mir.local dest := v]> σ)); [done| |reflexivity|done| |exact Hfin|exact Hr].
    + eapply simulates_le_l; [by apply reads_ctr_le|]. apply simulates_assign; try done. auto.
    + apply Hsucc. by constructor.
Qed.

Lemma encode_cfg_sound fuel : part_sound (cfg fuel).
Proof.
  induction fuel as [|fuel IH]; intros cv curr join s r s' σ σfin He Hmode Hdom Hfin; [cbn [encode_cfg_from] in He; by inv_M|].
  apply encode_cfg_inv in He as [(-> & -> & ->)|(Hne & data & cv1 & u1 & s1 & term & rest & Hdata & Hterm & Hs & He & ->)].
  { exists Update_new, σ. split; [done|]. split; [done|]. by apply simulates_nop. }
  inversion Hfin as [|? ? σ1 bb1 ? Hend Hstep Hfin']; subst; [by apply end_not_block in Hdata|].
  unfold step in Hstep. rewrite Hdata in Hstep. cbn [mbind option_bind] in Hstep.
  apply bind_Some in Hstep as (σ0 & Hσ0 & Hstep). rewrite Hterm in Hstep. cbn [mbind option_bind] in Hstep.
  destruct (encode_stmts_sound base _ _ _ _ m _ _ _ _ _ _ _ _ _ _ _ Hmode Hσ0 Hs) as (u & -> & -> & Hsim1).
  rewrite merge_new_l. pose proof Hsim1 as (Hle1 & _).
  destruct (encoded_sound (cfg fuel) _ curr join _ term s1 rest s' data σ0 σ1 bb1 σfin (encode_cfg_le fuel) IH Hdata Hterm He)
    as (u2 & σ' & -> & Hf & Hsim2); try done; [by rewrite (ctr_le_mode _ _ Hle1)|].
  exists (merge_inner u u2), σ'. split; [done|]. split; [done|]. by eapply simulates_app.
Qed.
End cfg.

(** ** Whole bodies *)
Section body.
Context {R : Rustc} {H : Host} {E : Type} {D : PureDeps E} {VM : ViperModel}.
Variable base : gmap string (value domain_value).
Context {PM : PureMeaning E base} {TL : TupleLaws E base}.
Variables (debug : bool) (encoding_depth : nat) (body : Body).
Variables (ghost_switches : gmap MirBlock MirBlock) (impure_context : bool).
Abbreviation val := (value domain_value).
Abbreviation store := (gmap MirLocal val).
Abbreviation names_ok := (named debug encoding_depth).

(** No variable of the caller has a name of this depth. *)
Definition unused_names : Prop :=
  forall ver, base !! mk_phi debug encoding_depth ver = None /\ forall l, base !! mk_local debug encoding_depth l ver = None.

(** The inputs have the values of the arguments. *)
Definition inputs_mean (inputs : gmap MirLocal Expr) (locals : list MirLocal) (args : list val) : Prop :=
  Forall2 (fun l v => has_local_ty (E := E) body l v = true /\
                      exists e, inputs !! l = Some e /\ eval base e = Some v) locals args.

Lemma assign_all_map mods ws : forall σ : store, NoDup mods -> length mods = length ws ->
  assign_all mods ws σ = list_to_map (zip mods ws) ∪ σ.
Proof.
  revert ws. induction mods as [|l mods IH]; intros [|w ws] σ Hnd Hlen; simpl in *; try done.
  { by rewrite (left_id_L ∅ (∪)). }
  apply NoDup_cons in Hnd as [Hnin Hnd]. injection Hlen as Hlen. rewrite IH by done.
  rewrite <- insert_union_l, insert_union_r; [done|]. apply not_elem_of_list_to_map_1.
  rewrite fst_zip by lia. done.
Qed.

Lemma init_inputs_simulates inputs locals args : inputs_mean inputs locals args ->
  forall u s u' s' cv σ, init_inputs (E := E) debug encoding_depth body u locals s = Ok (u', s') ->
  exists u1, u' = merge_inner u u1 /\
    simulates (E := E) base debug encoding_depth body (lazy_table inputs) s s' cv σ u1 (assign_all locals args σ).
Proof.
  induction 1 as [|l v locals args [Hty (e & He & Hev)] _ IH]; intros u s u' s' cv σ Hi; cbn [init_inputs] in Hi; inv_M.
  - exists Update_new. rewrite merge_new_r. split; [done|]. by apply simulates_nop.
  - apply bump_version_init_spec in Hm0 as (ver & -> & Hbump).
    destruct (IH _ _ _ _ (<[l := ver]> cv) (<[l := v]> σ) Hi) as (u1 & -> & Hsim).
    eexists. rewrite merge_assoc. split; [done|]. simpl.
    eapply simulates_app; [apply simulates_assign; [done..|]|simpl; by rewrite <- insert_union_singleton_l].
    intros ρ Hb _ _. unfold denotes. cbn [reify]. rewrite lazy_table_input, He. simpl. by eapply eval_grows.
Qed.

Lemma dominates_end n : dominates (reverse_graph body) (end_block body) n.
Proof. intros Hr. by induction Hr. Qed.

Lemma encode_body_sound fuel inputs args e s' fuel' v :
  wf_body (E := E) body ghost_switches -> idom_law (reverse_graph body) ->
  encode_body (E := E) debug encoding_depth body ghost_switches impure_context fuel (Enc_new body) = Ok (e, s') ->
  unused_names -> inputs_mean inputs (seq 1 (arg_count body)) args ->
  free_vars (reify (lazy_table inputs) e) ⊆ dom base ->
  call_body (E := E) base body ghost_switches impure_context fuel' args = Some v ->
  eval base (reify (lazy_table inputs) e) = Some v.
Proof.
  intros Hwf Hidom He Hunused Hinputs Hscope (σfin & Hrun & Hv)%bind_Some. apply run_finishes in Hrun as Hfin.
  unfold encode_body in He. apply M_bind_Ok in He as (x & s0 & Hl & He). apply lift_Ok in Hl as [_ ->].
  unfold encode_common in He. apply M_bind_Ok in He as (init & s1 & Hinit & He).
  replace (arg_count body + 1 - 1) with (arg_count body) in Hinit by lia.
  set (cv0 := {[RETURN_PLACE := Version_default]} : Versions) in *.
  destruct (init_inputs_simulates _ _ _ Hinputs _ _ _ _ cv0 ∅ Hinit) as (u1 & -> & Hsim1).
  rewrite assign_all_map, (right_id_L ∅ (∪)) in Hsim1;
    [|apply NoDup_seq|by apply Forall2_length in Hinputs].
  apply M_bind_Ok in He as (r & s2 & Hcfg & He). simpl in Hcfg.
  pose proof Hsim1 as (Hle1 & _).
  replace (arg_count body) with (length args) in Hsim1
    by (apply Forall2_length in Hinputs; by rewrite length_seq in Hinputs).
  pose proof (encode_cfg_sound base debug encoding_depth body ghost_switches impure_context (lazy_table inputs)
                Hwf Hidom fuel) as Hsound.
  destruct (Hsound _ _ _ _ _ _ (arg_store args) σfin Hcfg) as (u & σ' & -> & Hfin' & Hsim2);
    [by rewrite (ctr_le_mode _ _ Hle1)|apply dominates_end|done|].
  inversion Hfin' as [σ1 Heq|]; [subst σ1 σ'|done].
  destruct (simulates_app _ _ _ _ _ _ _ _ _ _ _ _ _ _ Hsim1 Hsim2) as (_ & _ & _ & Hext).
  apply M_bind_Ok in He as (res & s3 & Hres & He). apply lift_Ok in Hres as [Hres ->].
  apply unwrap_Ok_inv in Hres. injection Hres as <-.
  apply M_bind_Ok in He as (y & s4 & _ & He). apply M_bind_Ok in He as (ex & s5 & Hex & He). apply lift_Ok in Hex as [Hex ->].
  apply M_bind_Ok in He as (s6 & s7 & Hst & He). apply get_state_Ok in Hst as [-> ->]. apply lift_Ok in He as [He ->].
  destruct (Hext base (reflexivity _)) with (used := versions_used s4) (k := ex) (res := e) (Q := fun w => w = v)
    as (w & -> & Hw); [| | |exact He|exact Hscope| |exact Hw].
  - split; [intros l ver n _ _; by destruct (Hunused ver) as [_ ->]|intros ver _; by destruct (Hunused ver) as [-> _]].
  - intros l ver d Hl Hd. apply lookup_singleton_Some in Hl as [_ <-]. discriminate Hd.
  - split; intros l ver d w; [intros v' Hl Hd|intros Hl Hd]; apply lookup_singleton_Some in Hl as [_ <-]; discriminate Hd.
  - intros ρ Hρ _ Ha Hs. unfold mk_version_ex in Hex. inv_outcome.
    match goal with Hd : initialised _ = Some ?d |- _ => rename Hd into Hd'; rename d into decl end.
    apply in_scope_Local in Hs as [w Hw]. exists w. split; [|exact Hw].
    rewrite merge_assoc in Hd'. set (cvf := versions (merge_inner u1 u) ∪ cv0) in *.
    change (initialised (default Version_default (cvf !! RETURN_PLACE)) = Some decl) in Hd'.
    destruct (cvf !! RETURN_PLACE) as [ver|] eqn:Hver; simpl in Hd'; [|done]. by eapply agree_value.
Qed.
End body.
