(* ===== verification/PureExample.v ===== *)
(** * A concrete pure function

    [fn pick(a: bool, b: bool) -> bool] with a branch, over a compiler, encoders
    and a model of Viper that know booleans and tuples of them: the interfaces of
    the pure encoder can be implemented. *)
From S2P Require Import Prelude FlowEngine Mir.
From S2P Require Import Vir VirMake VirSem VirInt VirReify TyDomain Primitive BinOpEnc TyUse PureMir PureEnc PureSem.
From S2P Require Import PureRead PureSim PureCfg PureBranch PureDom PureSound.

Module pick.
#[local] Open Scope string_scope.

(** ** Viper with tuples of booleans *)
Definition tuple_get (i : nat) (args : list (value (list bool))) : option (value (list bool)) :=
  match args with [VDom bs] => VBool <$> bs !! i | _ => None end.

Definition interp (f : string) (args : list (value (list bool))) : option (value (list bool)) :=
  if bool_decide (f = "tuple") then
    bs ← mapM (fun v => match v with VBool b => Some b | _ => None end) args; Some (VDom bs)
  else if bool_decide (f = "elem0") then tuple_get 0 args
  else if bool_decide (f = "elem1") then tuple_get 1 args
  else None.

#[export] Instance model : ViperModel.
Proof.
  refine {| domain_value := list bool; domain_value_ty _ := TDomain "Tuple" []; viper_fun := interp;
            viper_div := i32_model.ediv; viper_mod a b := (a mod Z.abs b)%Z |}.
  - exact (@viper_div_mod i32_model.model).
  - exact (@viper_mod_bound i32_model.model).
Defined.

(** ** The compiler *)
#[export] Instance rustc : Rustc := {|
  ty_shape ty := if (ty =? 0)%nat then ShapePrim TyBool else ShapeOther;
  projection_ty pt _ := pt;
  const_ty _ := 0;
  rvalue_ty _ _ := 0;
  usize_ty := 1;
  pointee_metadata_ty _ := 1;
  fn_def _ := (0, 0);
  substs_tys _ := [];
  is_ptr_metadata _ := false;
  is_cyclic _ := false;
  immediate_dominator _ n := match n with 0 | 1 | 2 => Some 3 | 3 => Some 4 | _ => None end;
|}.

#[export] Instance host : Host := i32_model.host.

(** ** The other encoders *)
Definition no_args : GArgsTy := {| get_ty := []; get_const := [] |}.
Definition unreachable_of (ty : TypeKind) : FunctionIdn := {| idn_name := "unreachable"; idn_result := ty |}.

Definition bool_use : TyUsePure :=
  {| snapshot := TBool; use_args := no_args; unreachable_fn := unreachable_of TBool; specifics := Primitive_ PrimBool |}.

Definition elem (name : string) : TyUsePureField :=
  {| field_caster := NoCast; field_args := no_args;
     field_read := {| destr_name := name; destr_input := TDomain "Tuple" []; destr_ty := TBool |};
     ref_to_field_ref := unreachable_of TRef |}.

Definition tuple_use (fields : list TyUsePureField) : TyUsePure :=
  {| snapshot := TDomain "Tuple" []; use_args := no_args; unreachable_fn := unreachable_of (TDomain "Tuple" []);
     specifics := StructLike {| struct_cons := {| idn_name := "tuple"; idn_result := TDomain "Tuple" [] |};
                                struct_fields := fields |} |}.

#[export] Instance deps : PureDeps string := {|
  ty_use_pure ty := if (ty =? 0)%nat then Ok bool_use else Err "unsupported type";
  viper_tuple tys :=
    match tys with
    | [] => Ok (tuple_use [])
    | [0] => Ok (tuple_use [elem "elem0"])
    | [0; 0] => Ok (tuple_use [elem "elem0"; elem "elem1"])
    | _ => Err "unsupported tuple"
    end;
  const_enc c := Ok (Const (CBool (c =? 1)%nat));
  bin_op_enc _ _ _ _ := Err "unsupported operator";
  un_op_enc _ op _ := match op with mir.Not => Ok (UnOp Not) | _ => Err "unsupported operator" end;
  use_cast_enc _ _ _ := Err "unsupported cast";
  prusti_builtin_enc _ _ _ := Err "unsupported builtin";
  function_call_enc _ _ := Err "unsupported call";
  array_len _ := Err "unsupported length";
  impure_deref _ := Err "unsupported dereference";
  closure_body _ _ := Err "unsupported closure";
  is_function_pure _ _ := false;
  prusti_builtin _ _ := None;
  unsupported_rvalue s := s;
|}.

(** ** The caller *)
Definition base : gmap string (value (list bool)) := <["x" := VBool true]> {["y" := VBool false]}.
Definition inputs : gmap MirLocal Expr := <[1 := Local "x" TBool]> {[2 := Local "y" TBool]}.

Definition not_sem (vs : list (value (list bool))) : option (value (list bool)) :=
  match vs with [VBool b] => Some (VBool (negb b)) | _ => None end.

#[export] Instance meaning : PureMeaning (VM := model) string base.
Proof.
  refine {| bin_op_sem _ _ _ _ _ := None; un_op_sem _ op _ := match op with mir.Not => not_sem | _ => fun _ => None end;
            use_cast_sem _ _ _ _ := None; prusti_builtin_sem _ _ _ _ := None; function_sem _ _ _ := None |}.
  - done.
  - intros rty op x f Hf m ρ a _. destruct op; try done. injection Hf as <-. split; [done|].
    intros [n|b|d|] u Ha; try done. intros [= <-]. unfold denotes in *. simpl. by rewrite Ha.
  - done.
  - done.
  - done.
Defined.

#[export] Instance tuples : TupleLaws (VM := model) string base.
Proof.
  assert (forall v : value (list bool), has_ty (E := string) 0 v = true -> exists b, v = VBool b) as Hbool.
  { intros v Hv. unfold has_ty in Hv. simpl in Hv. apply bool_decide_eq_true in Hv. destruct v; try done. eauto. }
  intros tys t Ht. simpl in Ht. destruct tys as [|[] [|[] [|]]]; simplify_eq; (eexists; split; [done|]); intros vs Hvs.
  - inversion Hvs; subst. exists (VDom []). split; [done|]. by intros [].
  - inversion Hvs as [|? v1 ? ? H1 Hvs1]; subst. inversion Hvs1; subst. apply Hbool in H1 as [b1 ->].
    exists (VDom [b1]). split; [done|]. intros [|[]] f v; simpl; intros; by simplify_eq.
  - inversion Hvs as [|? v1 ? ? H1 Hvs1]; subst. inversion Hvs1 as [|? v2 ? ? H2 Hvs2]; subst. inversion Hvs2; subst.
    apply Hbool in H1 as [b1 ->]. apply Hbool in H2 as [b2 ->].
    exists (VDom [b1; b2]). split; [done|]. intros [|[|[]]] f v; simpl; intros; by simplify_eq.
Qed.

(** ** The function *)
Definition local_place (l : MirLocal) : Place := {| Mir.local := l; projection := [] |}.
Definition switch_on (l : MirLocal) : TerminatorKind :=
  SwitchInt (Copy (local_place l)) {| switch_values := [(0%Z, 1)]; switch_otherwise := 2 |}.
Definition block (stmts : list StatementKind) (term : TerminatorKind) : BasicBlockData :=
  {| statements := stmts; terminator := Some term |}.

(** [let x; if a { x = !b } else { x = b }; x] *)
Definition body : Body := {|
  basic_blocks := [
    block [StorageLive 3] (switch_on 1);
    block [Assign (local_place 3) (Use (Copy (local_place 2)))] (Goto 3);
    block [Assign (local_place 3) (UnaryOp mir.Not (Copy (local_place 2)))] (Goto 3);
    block [Assign (local_place 0) (Use (Move (local_place 3))); StorageDead 3] Return];
  local_decls := [0; 0; 0; 0];
  arg_count := 2;
  return_ty := 0;
|}.

(** Its edges go from smaller to larger blocks. *)
Lemma successors_lt bb bb1 : bb1 ∈ block_successors body bb -> bb < bb1 < 4.
Proof.
  unfold block_successors, block_terminator. destruct bb as [|[|[|[|bb]]]]; simpl; intros Hin;
    repeat (apply elem_of_cons in Hin as [->|Hin]); simpl in *; try lia; by apply not_elem_of_nil in Hin.
Qed.

Lemma wf : wf_body (VM := model) (E := string) body ∅.
Proof.
  split.
  - by intros bb bb1 [_ ?]%successors_lt.
  - by intros bb arm ?%lookup_empty_Some.
  - intros. done.
  - intros bb discr targets ty t k Ht. unfold block_terminator in Ht.
    destruct bb as [|[|[|[|bb]]]]; simpl in Ht; try done. injection Ht as <- <-. intros [= <-] [= <-] [= <-].
    exists [VBool false]. split; [by repeat constructor|apply NoDup_singleton].
Qed.

Lemma loop_free : acyclic_law body.
Proof.
  intros _ n Hn. enough (n < n) by lia. revert Hn. generalize n at 1 3. intros n' Hn.
  induction Hn as [x y Hxy|x y z Hxy _ IH]; [by apply successors_lt|]. apply successors_lt in Hxy. lia.
Qed.

(** The predecessors of the blocks, the end block being 4. *)
Lemma reverse_edges x y : graph_edge (reverse_graph body) x y <-> (x, y) ∈ [(4, 3); (3, 1); (3, 2); (2, 0); (1, 0)].
Proof.
  unfold graph_edge. split.
  - destruct x as [|[|[|[|[|x]]]]]; intros Hin; try (apply list_elem_of_filter in Hin as [Hx%successors_lt Hy]; lia);
      vm_compute in Hin; set_solver.
  - intros Hin. repeat (apply elem_of_cons in Hin as [[= -> ->]|Hin]); [vm_compute; set_solver..|].
    by apply not_elem_of_nil in Hin.
Qed.

Lemma step_to d x y : reaches (reverse_graph body) d x -> (x, y) ∈ [(4, 3); (3, 1); (3, 2); (2, 0); (1, 0)] ->
  y <> d -> reaches (reverse_graph body) d y.
Proof. intros Hx Hxy. eapply reaches_step; [exact Hx|]. by apply reverse_edges. Qed.

Ltac walk :=
  match goal with
  | |- reaches _ _ 4 => apply reaches_start; try done
  | |- reaches _ _ 3 => apply (step_to _ 4); [walk|set_solver|try done]
  | |- reaches _ _ 1 => apply (step_to _ 3); [walk|set_solver|try done]
  | |- reaches _ _ 2 => apply (step_to _ 3); [walk|set_solver|try done]
  end.

Lemma reached bb : bb < 4 -> rtc (graph_edge (reverse_graph body)) 4 bb.
Proof.
  assert (forall x y, (x, y) ∈ [(4, 3); (3, 1); (3, 2); (2, 0); (1, 0)] -> graph_edge (reverse_graph body) x y) as He
    by (intros; by apply reverse_edges).
  intros Hbb. destruct bb as [|[|[|[|bb]]]]; [..|lia].
  - eapply rtc_l; [apply (He 4 3)|eapply rtc_l; [apply (He 3 1)|eapply rtc_l; [apply (He 1 0)|done]]]; set_solver.
  - eapply rtc_l; [apply (He 4 3)|eapply rtc_l; [apply (He 3 1)|done]]; set_solver.
  - eapply rtc_l; [apply (He 4 3)|eapply rtc_l; [apply (He 3 2)|done]]; set_solver.
  - eapply rtc_l; [apply (He 4 3)|done]; set_solver.
Qed.

(** Only the end block is reached without block 3. *)
Lemma without_3 bb : reaches (reverse_graph body) 3 bb -> bb = 4.
Proof.
  apply (reaches_closed (reverse_graph body) 3 (fun bb => bb = 4)); [done|]. intros x y -> Hy Hne. change (graph_edge (reverse_graph body) 4 y) in Hy.
  apply reverse_edges in Hy. set_solver.
Qed.

Lemma dominates_3 d bb : d <> 3 -> d <> 4 -> d <> bb -> bb < 3 -> reaches (reverse_graph body) d bb.
Proof.
  intros H3 H4 Hne Hbb. destruct bb as [|[|[|bb]]]; [|walk..|lia]; try (by apply not_eq_sym).
  destruct (decide (d = 1)) as [->|H1].
  - apply (step_to _ 2); [walk|set_solver|done].
  - apply (step_to _ 1); [walk|set_solver|by apply not_eq_sym]; by apply not_eq_sym.
Qed.

Lemma idoms : idom_law (reverse_graph body).
Proof.
  intros n d Hd. assert (d = 3 /\ n < 3 \/ d = 4 /\ n = 3) as [[-> Hn]|[-> ->]].
  { destruct n as [|[|[|[|n]]]]; simpl in Hd; simplify_eq; lia. }
  - split; [apply reached; lia|lia|intros Hr%without_3; lia|]. intros d' Hne Hdom.
    destruct (decide (d' = 3)) as [->|H3]; [apply dominates_refl|].
    destruct (decide (d' = 4)) as [->|H4]; [apply dominates_end|].
    destruct Hdom. by apply dominates_3.
  - split; [apply reached; lia|lia|apply dominates_end|]. intros d' Hne Hdom.
    destruct (decide (d' = 4)) as [->|H4]; [apply dominates_refl|].
    destruct Hdom. walk; by apply not_eq_sym.
Qed.

(** ** The call [pick(true, false)] *)
Lemma no_names debug depth : unused_names base debug depth.
Proof.
  intros ver. unfold base. split; [|intros l]; rewrite lookup_insert_ne, lookup_singleton_ne; done.
Qed.

Lemma arguments : inputs_mean (VM := model) (E := string) base body inputs [1; 2] [VBool true; VBool false].
Proof. repeat constructor; by eexists. Qed.

(** The task for a function of four blocks. *)
Definition encoded_fn (body : Body) : outcome string (MirPureEncOutput string) :=
  do_encode_full false 0 KindPure 7 body ∅ 5.

(** The output is a closure: it is applied before anything is compared. *)
Definition fn_expr (body : Body) : option Expr :=
  match encoded_fn body with
  | Ok out => match out_expr out (7, inputs) with Ok e => Some e | _ => None end
  | _ => None
  end.

Lemma fn_expr_inv body e : fn_expr body = Some e ->
  exists out, encoded_fn body = Ok out /\ out_expr out (7, inputs) = Ok e.
Proof.
  unfold fn_expr. generalize (encoded_fn body). intros [out| |] He; [|discriminate..].
  exists out. split; [reflexivity|]. destruct (out_expr out (7, inputs)); [congruence|discriminate..].
Qed.

Lemma pick_expr_value : exists e, fn_expr body = Some e.
Proof.
  assert (match fn_expr body with Some _ => true | None => false end = true) as Hs by (vm_compute; reflexivity).
  revert Hs. generalize (fn_expr body). intros [e|] Hs; [by exists e|discriminate].
Qed.

(** [let x = b; if a { x = !b }; x]: one arm keeps the version of [x]. *)
Definition keep_body : Body := {|
  basic_blocks := [
    block [StorageLive 3; Assign (local_place 3) (Use (Copy (local_place 2)))] (switch_on 1);
    block [] (Goto 3);
    block [Assign (local_place 3) (UnaryOp mir.Not (Copy (local_place 2)))] (Goto 3);
    block [Assign (local_place 0) (Use (Move (local_place 3))); StorageDead 3] Return];
  local_decls := [0; 0; 0; 0];
  arg_count := 2;
  return_ty := 0;
|}.
End pick.
