(* ===== verification/PureCorrect.v ===== *)
(** * What the pure encoder guarantees

    The properties of [mir_pure.rs] as a whole, with the concrete function of
    [PureExample] as their witness. *)
From S2P Require Import Prelude FlowEngine Mir.
From S2P Require Import Vir VirMake VirSem VirInt VirReify TyDomain Primitive BinOpEnc TyUse PureMir PureEnc PureSem.
From S2P Require Import PureRead PureSim PureCfg PureBranch PureDom PureSound PureExample.

Import pick.

(** The value of the expression that [do_encode_full] promises, once reified. *)
Lemma reified_body_value {R : Rustc} {H : Host} {E} {D : PureDeps E} {VM : ViperModel}
    (base : gmap string (value domain_value)) {PM : PureMeaning E base} {TL : TupleLaws E base}
    debug depth kind def_id body ghost_switches fuel out inputs args e fuel' v :
  wf_body (E := E) body ghost_switches -> idom_law (reverse_graph body) ->
  match kind with KindSpecBlock _ => False | _ => True end ->
  do_encode_full (E := E) debug depth kind def_id body ghost_switches fuel = Ok out ->
  unused_names base debug depth ->
  inputs_mean (E := E) base body inputs (seq 1 (arg_count body)) args ->
  out_expr out (def_id, inputs) = Ok e -> free_vars e ⊆ dom base ->
  call_body (E := E) base body ghost_switches (is_impure_context kind) fuel' args = Some v ->
  eval base e = Some v.
Proof.
  intros Hwf Hidom Hkind He Hnames Hinputs Hout Hscope Hrun. unfold do_encode_full in He. inv_outcome.
  unfold reify_outer in Hout. simpl in Hout. inv_outcome. destruct x as [e s'].
  assert (encode_body (E := E) debug depth body ghost_switches (is_impure_context kind) fuel (Enc_new body) = Ok (e, s')) as Hbody
    by (by destruct kind).
  by eapply encode_body_sound.
Qed.

(** C1: the expression of a pure function means the function. A body that
    [do_encode_full] encodes returns a closure; reified for inputs with the values
    of the arguments, it gives an expression that, if its variables are bound,
    evaluates to the value that running the body on the arguments returns. *)
Theorem pure_body_encoding_correct {R : Rustc} {H : Host} {E} {D : PureDeps E} {VM : ViperModel}
    (base : gmap string (value domain_value)) {PM : PureMeaning E base} {TL : TupleLaws E base}
    debug depth kind def_id body ghost_switches fuel out inputs args e fuel' v :
  wf_body (E := E) body ghost_switches -> idom_law (reverse_graph body) ->
  match kind with KindSpecBlock _ => False | _ => True end ->
  do_encode_full (E := E) debug depth kind def_id body ghost_switches fuel = Ok out ->
  unused_names base debug depth ->
  inputs_mean (E := E) base body inputs (seq 1 (arg_count body)) args ->
  out_expr out (def_id, inputs) = Ok e -> free_vars e ⊆ dom base ->
  call_body (E := E) base body ghost_switches (is_impure_context kind) fuel' args = Some v ->
  eval base e = Some v.
Proof. intros. eapply (reified_body_value base); eassumption. Qed.

Lemma pure_body_encoding_correct_witness :
  exists e, pick.fn_expr pick.body = Some e /\ eval (VM := pick.model) pick.base e = Some (VBool true).
Proof.
  destruct pick.pick_expr_value as [e Hexpr]. destruct (pick.fn_expr_inv _ e Hexpr) as (out & Hout & He). exists e. split; [exact Hexpr|].
  apply (pure_body_encoding_correct (E := string) (VM := pick.model) pick.base false 0 KindPure 7 pick.body ∅ 5 out
           pick.inputs [VBool true; VBool false] e 5 (VBool true)).
  - exact pick.wf.
  - exact pick.idoms.
  - exact I.
  - exact Hout.
  - apply pick.no_names.
  - exact pick.arguments.
  - exact He.
  - apply (bool_decide_unpack (free_vars e ⊆ dom pick.base)).
    replace e with (default (Const CNull) (pick.fn_expr pick.body)) by (rewrite Hexpr; reflexivity). vm_compute. exact I.
  - vm_compute. reflexivity.
Defined.

(** C7: the recursion of the encoder ends. On a loop-free body, with the
    documented dominators, fuel for one call more than the body has blocks is
    enough: the result is the same with more fuel and whatever the result without
    fuel would be. *)
Theorem pure_encoding_terminates {R : Rustc} {H : Host} {E} {D : PureDeps E}
    debug depth body ghost_switches impure_context stuck fuel cv start join s :
  acyclic_law body -> idom_law (reverse_graph body) ->
  (forall bb arm, ghost_switches !! bb = Some arm -> arm ∈ block_successors body bb) ->
  is_cyclic (body_graph body) = false -> length (basic_blocks body) < fuel ->
  encode_cfg_from (E := E) debug depth body ghost_switches impure_context stuck fuel cv start join s =
  encode_cfg (E := E) debug depth body ghost_switches impure_context (S (length (basic_blocks body))) cv start join s.
Proof.
  intros Hacyclic Hidom Hghost Hc Hfuel.
  apply (encode_cfg_fuel _ _ _ _ _ Hghost Hidom (Hacyclic Hc) _ _ _ _ []); [|simpl; lia..].
  split; [constructor|by intros ? ?%not_elem_of_nil|by intros ? _ ?%not_elem_of_nil].
Qed.

Lemma pure_encoding_terminates_witness :
  encode_cfg_from (E := string) false 0 pick.body ∅ false (lift (Err "stuck")) 20 {[0 := Version_default; 1 := Version_default]}
    0 4 (Enc_new pick.body) =
  encode_cfg (E := string) false 0 pick.body ∅ false 5 {[0 := Version_default; 1 := Version_default]}
    0 4 (Enc_new pick.body).
Proof.
  apply (pure_encoding_terminates false 0 pick.body ∅ false (lift (Err "stuck")) 20).
  - exact pick.loop_free.
  - exact pick.idoms.
  - intros bb arm Harm. rewrite lookup_empty in Harm. discriminate Harm.
  - reflexivity.
  - apply Nat.ltb_lt. reflexivity.
Defined.

