(* ===== verification/ViperAst.v ===== *)
(** * The abstract syntax of Viper programs and its factory

    [Silver]: the classes of Viper's syntax tree that the code instantiates, one
    constructor per class, arguments in the order of the class. [AstFactory]:
    the methods of [viper/src/ast_factory] ([ast_type.rs], [expression.rs],
    [statement.rs], [program.rs]), which build the Java objects. Positions and
    transformation info are dropped, comments ([SimpleInfo]) are kept; the
    factory's calls into the Java machine do not fail. *)
From stdpp Require Import pretty.
From S2P Require Import Prelude.
Local Open Scope Z_scope.

Module Silver.
(** ** Types *)
Inductive Typ :=
| Int | Bool | Perm | Ref | Wand
| TypeVar (name : string)
| AdtType (name : string) (partial_map : list (Typ * Typ)) (params : list Typ)
| DomainType (name : string) (partial_map : list (Typ * Typ)) (params : list Typ)
| BackendType (name : string) (interpretations : list (string * string))
| SetType (elem : Typ) | MultisetType (elem : Typ) | SeqType (elem : Typ)
| MapType (key val : Typ)
| FloatType (mant exp : Z)
| BVType (size : Z).

Record Field := { f_name : string; f_typ : Typ }.
Record LocalVarDecl := { v_name : string; v_typ : Typ }.

(** A function symbol of the solver, made by a factory of Viper for a sort with a
    method of that factory, under a name. *)
Inductive BackendFunc :=
| BVFunc (size : Z) (method name : string)
| FloatFunc (mant exp : Z) (method name : string).

(** ** Expressions *)
Inductive Exp :=
| Add (l r : Exp) | Sub (l r : Exp) | Mul (l r : Exp) | Div (l r : Exp) | Mod (l r : Exp)
| LtCmp (l r : Exp) | LeCmp (l r : Exp) | GtCmp (l r : Exp) | GeCmp (l r : Exp)
| EqCmp (l r : Exp) | NeCmp (l r : Exp)
| IntLit (i : Z) | Minus (e : Exp)
| Or (l r : Exp) | And (l r : Exp) | Implies (l r : Exp) | MagicWand (l r : Exp) | Not (e : Exp)
| TrueLit | FalseLit | NullLit
| FieldAccessPredicate (loc : Exp) (perm : option Exp)
| PredicateAccessPredicate (loc : Exp) (perm : option Exp)
| InhaleExhaleExp (inh exh : Exp)
| WildcardPerm | FullPerm | NoPerm | EpsilonPerm
| PermPermDiv (l r : Exp) | PermMinus (e : Exp)
| PermAdd (l r : Exp) | PermSub (l r : Exp) | PermMul (l r : Exp)
| FuncApp (name : string) (args : list Exp) (typ : Typ)
| DomainFuncApp (name : string) (args : list Exp) (tvars : list (Typ * Typ)) (typ : Typ) (domain : string)
| BackendFuncApp (name : string) (args : list Exp) (typ : Typ) (interpretation : string)
| BackendFuncAppOf (f : BackendFunc) (args : list Exp)
| AdtConstructorApp (name : string) (args : list Exp) (tvars : list (Typ * Typ)) (typ : Typ) (adt : string)
| AdtDestructorApp (name : string) (rcv : Exp) (tvars : list (Typ * Typ)) (typ : Typ) (adt : string)
| AdtDiscriminatorApp (name : string) (rcv : Exp) (tvars : list (Typ * Typ)) (adt : string)
| FieldAccess (rcv : Exp) (field : Field)
| PredicateAccess (args : list Exp) (name : string)
| CondExp (c t e : Exp)
| Unfolding (acc body : Exp)
| Old (e : Exp) | LabelledOld (e : Exp) (label : string)
| Let (v : LocalVarDecl) (e body : Exp)
| Forall (vs : list LocalVarDecl) (triggers : list (list Exp)) (e : Exp)
| Exists (vs : list LocalVarDecl) (triggers : list (list Exp)) (e : Exp)
| LocalVar (name : string) (typ : Typ)
| Result (typ : Typ)
| EmptySeq (typ : Typ) | ExplicitSeq (es : list Exp)
| SeqAppend (l r : Exp) | SeqIndex (s i : Exp) | SeqTake (s n : Exp) | SeqDrop (s n : Exp)
| SeqContains (e s : Exp) | SeqUpdate (s i e : Exp) | SeqLength (s : Exp)
| EmptyMap (key val : Typ) | MapUpdate (m k v : Exp) | MapLookup (m k : Exp)
| MapContains (k m : Exp) | MapCardinality (m : Exp) | MapDomain (m : Exp) | MapRange (m : Exp)
| EmptySet (typ : Typ) | ExplicitSet (es : list Exp)
| EmptyMultiset (typ : Typ) | ExplicitMultiset (es : list Exp)
| AnySetUnion (l r : Exp) | AnySetIntersection (l r : Exp) | AnySetSubset (l r : Exp)
| AnySetMinus (l r : Exp) | AnySetContains (e s : Exp) | AnySetCardinality (s : Exp)
| DecreasesTuple (es : list Exp) (cond : option Exp)
| DecreasesWildcard (cond : option Exp) | DecreasesStar.

(** ** Statements *)
Inductive Stmt :=
| LocalVarAssign (lhs rhs : Exp)
| MethodCall (name : string) (args targets : list Exp)
| Exhale (e : Exp) | Inhale (e : Exp) | Assert (e : Exp) | Refute (e : Exp)
| Fold (acc : Exp) | Unfold (acc : Exp)
| Package (wand : Exp) (script : Stmt) | Apply (wand : Exp)
| Seqn (ss : list Stmt) (decls : list Declaration) (info : list string)
| If (c : Exp) (thn els : Stmt)
| Label (name : string) (invs : list Exp)
| Goto (target : string)
with Declaration :=
| StmtDeclaration (s : Stmt)
| VarDeclaration (v : LocalVarDecl).

(** ** Members of a program *)
Record DomainFunc := {
  df_name : string; df_args : list LocalVarDecl; df_typ : Typ; df_unique : bool;
  df_interpretation : option string; df_domain : string }.
Record NamedDomainAxiom := { ax_name : string; ax_exp : Exp; ax_domain : string }.
Record Domain := {
  d_name : string; d_functions : list DomainFunc; d_axioms : list NamedDomainAxiom;
  d_type_vars : list Typ; d_interpretations : option (list (string * string)) }.
Record AdtConstructor := {
  ac_name : string; ac_args : list LocalVarDecl; ac_typ : Typ; ac_adt : string }.
Record Adt := { a_name : string; a_constructors : list AdtConstructor; a_type_vars : list Typ }.
Record Function_ := {
  fn_name : string; fn_args : list LocalVarDecl; fn_typ : Typ; fn_pres : list Exp;
  fn_posts : list Exp; fn_body : option Exp }.
Record Predicate := { p_name : string; p_args : list LocalVarDecl; p_body : option Exp }.
Record Method := {
  m_name : string; m_args : list LocalVarDecl; m_returns : list LocalVarDecl;
  m_pres : list Exp; m_posts : list Exp; m_body : option Stmt }.
Record Program_ := {
  g_domains : list Domain; g_fields : list Field; g_functions : list Function_;
  g_predicates : list Predicate; g_methods : list Method; g_adts : list Adt }.
End Silver.

Module AstFactory.
Abbreviation Typ := Silver.Typ.
Abbreviation Exp := Silver.Exp.
Abbreviation Stmt := Silver.Stmt.
Abbreviation LocalVarDecl := Silver.LocalVarDecl.

(** ** [ast_type.rs] *)
Definition int_type : Typ := Silver.Int.
Definition bool_type : Typ := Silver.Bool.
Definition perm_type : Typ := Silver.Perm.
Definition ref_type : Typ := Silver.Ref.
Definition wand_type : Typ := Silver.Wand.
Definition type_var (name : string) : Typ := Silver.TypeVar name.
Definition adt_type (adt_name : string) (partial_typ_vars_map : list (Typ * Typ))
    (type_parameters : list Typ) : Typ :=
  Silver.AdtType adt_name partial_typ_vars_map type_parameters.
Definition domain_type (domain_name : string) (partial_typ_vars_map : list (Typ * Typ))
    (type_parameters : list Typ) : Typ :=
  Silver.DomainType domain_name partial_typ_vars_map type_parameters.
Definition domain_backend_type (domain_name : string) (interpretations : list (string * string)) : Typ :=
  Silver.BackendType domain_name interpretations.
Definition set_type (element_type : Typ) : Typ := Silver.SetType element_type.
Definition multiset_type (element_type : Typ) : Typ := Silver.MultisetType element_type.
Definition seq_type (element_type : Typ) : Typ := Silver.SeqType element_type.
Definition map_type (key_type val_type : Typ) : Typ := Silver.MapType key_type val_type.
Definition backend_f32_type : Typ := Silver.FloatType 24 8.
Definition backend_f64_type : Typ := Silver.FloatType 52 12.
Definition backend_bv8_type : Typ := Silver.BVType 8.
Definition backend_bv16_type : Typ := Silver.BVType 16.
Definition backend_bv32_type : Typ := Silver.BVType 32.
Definition backend_bv64_type : Typ := Silver.BVType 64.
Definition backend_bv128_type : Typ := Silver.BVType 128.

(** ** [expression.rs]: literals, accesses, applications, binders *)
Definition int_lit_with_pos (i : Z) : Exp := Silver.IntLit i.
Definition int_lit (i : Z) : Exp := int_lit_with_pos i.
(** The integer is passed by its decimal representation. *)
Definition int_lit_from_ref_with_pos (i : Z) : Exp := Silver.IntLit i.
Definition int_lit_from_ref (i : Z) : Exp := int_lit_from_ref_with_pos i.
Definition true_lit_with_pos : Exp := Silver.TrueLit.
Definition false_lit_with_pos : Exp := Silver.FalseLit.
Definition null_lit_with_pos : Exp := Silver.NullLit.
Definition wildcard_perm : Exp := Silver.WildcardPerm.
Definition field_access_predicate_with_pos (loc : Exp) (perm : option Exp) : Exp :=
  Silver.FieldAccessPredicate loc perm.
Definition predicate_access_predicate_with_pos (loc : Exp) (perm : option Exp) : Exp :=
  Silver.PredicateAccessPredicate loc perm.
Definition field_access_with_pos (rcv : Exp) (field : Silver.Field) : Exp := Silver.FieldAccess rcv field.
Definition predicate_access_with_pos (args : list Exp) (predicate_name : string) : Exp :=
  Silver.PredicateAccess args predicate_name.
Definition cond_exp_with_pos (cond then_expr else_expr : Exp) : Exp := Silver.CondExp cond then_expr else_expr.
Definition labelled_old_with_pos (expr : Exp) (old_label : string) : Exp := Silver.LabelledOld expr old_label.
Definition let_expr_with_pos (variable : LocalVarDecl) (expr body : Exp) : Exp := Silver.Let variable expr body.
Definition forall_with_pos (variables : list LocalVarDecl) (triggers : list (list Exp)) (expr : Exp) : Exp :=
  Silver.Forall variables triggers expr.
Definition exists_with_pos (variables : list LocalVarDecl) (triggers : list (list Exp)) (expr : Exp) : Exp :=
  Silver.Exists variables triggers expr.
Definition trigger (exps : list Exp) : list Exp := exps.
Definition local_var_with_pos (name : string) (var_type : Typ) : Exp := Silver.LocalVar name var_type.
Definition local_var (name : string) (var_type : Typ) : Exp := local_var_with_pos name var_type.
Definition result_with_pos (var_type : Typ) : Exp := Silver.Result var_type.

Definition func_app (function_name : string) (args : list Exp) (return_type : Typ) : Exp :=
  Silver.FuncApp function_name args return_type.
Definition domain_func_app2 (function_name : string) (args : list Exp) (type_var_map : list (Typ * Typ))
    (return_type : Typ) (domain_name : string) : Exp :=
  Silver.DomainFuncApp function_name args type_var_map return_type domain_name.
Definition backend_func_app_from_name (function_name : string) (args : list Exp) (return_type : Typ)
    (interpretation : string) : Exp :=
  Silver.BackendFuncApp function_name args return_type interpretation.
Definition backend_func_app (backend_function : Silver.BackendFunc) (args : list Exp) : Exp :=
  Silver.BackendFuncAppOf backend_function args.
Definition adt_constructor_app (constructor_name : string) (args : list Exp)
    (type_var_map : list (Typ * Typ)) (return_type : Typ) (adt_name : string) : Exp :=
  Silver.AdtConstructorApp constructor_name args type_var_map return_type adt_name.
Definition adt_destructor (destructor_name : string) (rcv : Exp) (type_var_map : list (Typ * Typ))
    (return_type : Typ) (adt_name : string) : Exp :=
  Silver.AdtDestructorApp destructor_name rcv type_var_map return_type adt_name.
Definition adt_discr (constructor_name : string) (rcv : Exp) (type_var_map : list (Typ * Typ))
    (adt_name : string) : Exp :=
  Silver.AdtDiscriminatorApp constructor_name rcv type_var_map adt_name.

(** ** [expression.rs]: operators *)
Definition minus_with_pos (expr : Exp) : Exp := Silver.Minus expr.
Definition not_with_pos (expr : Exp) : Exp := Silver.Not expr.
Definition perm_minus_with_pos (expr : Exp) : Exp := Silver.PermMinus expr.
Definition old (expr : Exp) : Exp := Silver.Old expr.
Definition map_len_with_pos (expr : Exp) : Exp := Silver.MapCardinality expr.
Definition map_domain_with_pos (expr : Exp) : Exp := Silver.MapDomain expr.
Definition map_range_with_pos (expr : Exp) : Exp := Silver.MapRange expr.
Definition seq_length_with_pos (expr : Exp) : Exp := Silver.SeqLength expr.
Definition any_set_cardinality_with_pos (expr : Exp) : Exp := Silver.AnySetCardinality expr.
Definition add_with_pos (left right : Exp) : Exp := Silver.Add left right.
Definition sub_with_pos (left right : Exp) : Exp := Silver.Sub left right.
Definition mul_with_pos (left right : Exp) : Exp := Silver.Mul left right.
Definition div_with_pos (left right : Exp) : Exp := Silver.Div left right.
Definition mod_with_pos (left right : Exp) : Exp := Silver.Mod left right.
Definition lt_cmp_with_pos (left right : Exp) : Exp := Silver.LtCmp left right.
Definition le_cmp_with_pos (left right : Exp) : Exp := Silver.LeCmp left right.
Definition gt_cmp_with_pos (left right : Exp) : Exp := Silver.GtCmp left right.
Definition ge_cmp_with_pos (left right : Exp) : Exp := Silver.GeCmp left right.
Definition eq_cmp_with_pos (left right : Exp) : Exp := Silver.EqCmp left right.
Definition ne_cmp_with_pos (left right : Exp) : Exp := Silver.NeCmp left right.
Definition or_with_pos (left right : Exp) : Exp := Silver.Or left right.
Definition and_with_pos (left right : Exp) : Exp := Silver.And left right.
Definition implies_with_pos (left right : Exp) : Exp := Silver.Implies left right.
Definition magic_wand_with_pos (left right : Exp) : Exp := Silver.MagicWand left right.
Definition inhale_exhale_pred (left right : Exp) : Exp := Silver.InhaleExhaleExp left right.
Definition perm_perm_div_with_pos (left right : Exp) : Exp := Silver.PermPermDiv left right.
Definition perm_add_with_pos (left right : Exp) : Exp := Silver.PermAdd left right.
Definition perm_sub_with_pos (left right : Exp) : Exp := Silver.PermSub left right.
Definition perm_mul_with_pos (left right : Exp) : Exp := Silver.PermMul left right.
Definition unfolding_with_pos (left right : Exp) : Exp := Silver.Unfolding left right.
Definition seq_append_with_pos (left right : Exp) : Exp := Silver.SeqAppend left right.
Definition any_set_union_with_pos (left right : Exp) : Exp := Silver.AnySetUnion left right.
Definition any_set_intersection_with_pos (left right : Exp) : Exp := Silver.AnySetIntersection left right.
Definition any_set_subset_with_pos (left right : Exp) : Exp := Silver.AnySetSubset left right.
Definition any_set_minus_with_pos (left right : Exp) : Exp := Silver.AnySetMinus left right.

(** ** [expression.rs]: collections and measures *)
Definition empty_seq_with_pos (elem_type : Typ) : Exp := Silver.EmptySeq elem_type.
Definition explicit_seq_with_pos (elems : list Exp) : Exp := Silver.ExplicitSeq elems.
Definition empty_map_with_pos (key_ty val_ty : Typ) : Exp := Silver.EmptyMap key_ty val_ty.
Definition update_map_with_pos (map key val : Exp) : Exp := Silver.MapUpdate map key val.
Definition lookup_map_with_pos (map key : Exp) : Exp := Silver.MapLookup map key.
Definition map_contains_with_pos (map key : Exp) : Exp := Silver.MapContains key map.
Definition seq_index_with_pos (seq index : Exp) : Exp := Silver.SeqIndex seq index.
Definition seq_take_with_pos (seq num : Exp) : Exp := Silver.SeqTake seq num.
Definition seq_drop_with_pos (seq num : Exp) : Exp := Silver.SeqDrop seq num.
Definition seq_contains_with_pos (elem seq : Exp) : Exp := Silver.SeqContains elem seq.
Definition seq_update_with_pos (seq index elem : Exp) : Exp := Silver.SeqUpdate seq index elem.
Definition empty_set_with_pos (elem_type : Typ) : Exp := Silver.EmptySet elem_type.
Definition explicit_set_with_pos (elems : list Exp) : Exp := Silver.ExplicitSet elems.
Definition empty_multiset_with_pos (elem_type : Typ) : Exp := Silver.EmptyMultiset elem_type.
Definition explicit_multiset_with_pos (elems : list Exp) : Exp := Silver.ExplicitMultiset elems.
Definition any_set_contains_with_pos (elem set : Exp) : Exp := Silver.AnySetContains elem set.
Definition decreases_tuple (tuple_expressions : list Exp) (condition : option Exp) : Exp :=
  Silver.DecreasesTuple tuple_expressions condition.
Definition decreases_wildcard (condition : option Exp) : Exp := Silver.DecreasesWildcard condition.
Definition decreases_star : Exp := Silver.DecreasesStar.

(** ** [expression.rs]: bit vectors and floats of the solver *)
Inductive BvSize := BV8 | BV16 | BV32 | BV64 | BV128.
Inductive FloatSizeViper := F32 | F64.
Inductive UnOpBv := BvNot | BvNeg | BvGetType | FromInt | ToInt | FromNat | ToNat.
Inductive BinOpBv := BitAnd | BitOr | BitXor | BvAdd | BvSub | BvMul | BvUDiv | BvShl | BvLShr | BvAShr.
Inductive UnOpFloat :=
| FNeg | FAbs | IsZero | IsInfinite | IsNan | IsNegative | IsPositive | FGetType | FromBV | ToBV.
Inductive BinOpFloat := FAdd | FSub | FMul | FDiv | FEq | FLeq | FGeq | FLt | FGt | FMin | FMax.

Definition to_i32 (size : BvSize) : Z :=
  match size with BV8 => 8 | BV16 => 16 | BV32 => 32 | BV64 => 64 | BV128 => 128 end.

(** [bits as i64]. *)
Definition as_i64 (bits : Z) : Z := (bits + 2 ^ 63) mod 2 ^ 64 - 2 ^ 63.

(** A literal: the factory's [from_int] at the given name, applied to an integer. *)
Definition bv_lit (size : Z) (name : string) (i : Exp) : Exp :=
  backend_func_app (Silver.BVFunc size "from_int" name) [i].

Definition backend_bv8_lit (bits : Z) : Exp := bv_lit 8 "bv8_from_int" (int_lit (as_i64 bits)).
Definition backend_bv8_lit_str (bits : Z) : Exp := bv_lit 8 "bv8_from_int" (int_lit_from_ref bits).
Definition backend_bv16_lit (bits : Z) : Exp := bv_lit 16 "bv16_from_int" (int_lit (as_i64 bits)).
Definition backend_bv16_lit_str (bits : Z) : Exp := bv_lit 16 "bv16_from_int" (int_lit_from_ref bits).
Definition backend_bv32_lit (bits : Z) : Exp := bv_lit 32 "bv32_from_int" (int_lit (as_i64 bits)).
Definition backend_bv32_lit_str (bits : Z) : Exp := bv_lit 32 "bv32_from_int" (int_lit_from_ref bits).
Definition backend_bv64_lit (bits : Z) : Exp := bv_lit 64 "bv64_from_int" (int_lit (as_i64 bits)).
Definition backend_bv64_lit_str (bits : Z) : Exp := bv_lit 64 "bv64_to_int" (int_lit_from_ref bits).
Definition backend_bv128_lit (bits : Z) : Exp := bv_lit 128 "bv128_from_int" (int_lit (as_i64 bits)).
Definition backend_bv128_lit_str (bits : Z) : Exp := bv_lit 128 "bv128_from_int" (int_lit_from_ref bits).

(** The names carry the decimal size. *)
Definition bv_name (size : BvSize) (suffix : string) : string :=
  "bv" +:+ pretty (to_i32 size) +:+ suffix.

Definition int_to_backend_bv (bv_size : BvSize) (expr : Exp) : Exp :=
  backend_func_app (Silver.BVFunc (to_i32 bv_size) "to_int" (bv_name bv_size "_from_int")) [expr].

Definition backend_bv_to_int (bv_size : BvSize) (expr : Exp) : Exp :=
  backend_func_app (Silver.BVFunc (to_i32 bv_size) "to_int" (bv_name bv_size "_to_int")) [expr].

Definition bv_binop (op_kind : BinOpBv) (bv_size : BvSize) (left right : Exp) : Exp :=
  let op method suffix := Silver.BVFunc (to_i32 bv_size) method (bv_name bv_size suffix) in
  backend_func_app
    match op_kind with
    | BitAnd => op "and" "_and"
    | BitOr => op "or" "_or"
    | BitXor => op "xor" "_xor"
    | BvAdd => op "add" "_add"
    | BvSub => op "sub" "_sub"
    | BvMul => op "mul" "_mul"
    | BvUDiv => op "udiv" "_udiv"
    | BvShl => op "shl" "_shl"
    | BvLShr => op "lshr" "_lshr"
    | BvAShr => op "ashr" "_ashr"
    end%string [left; right].

Definition bv_unnop {E} (op_kind : UnOpBv) (bv_size : BvSize) (arg : Exp) : outcome E Exp :=
  match op_kind with
  | BvNot => Ok (backend_func_app (Silver.BVFunc (to_i32 bv_size) "not" "not") [arg])
  | BvNeg => Ok (backend_func_app (Silver.BVFunc (to_i32 bv_size) "neg" "neg") [arg])
  | _ => Panic "unimplemented unop for bitvectors"
  end.

(** The factory of a float size takes the widths of significand and exponent. *)
Definition float_func (f_size : FloatSizeViper) (method suffix : string) : Silver.BackendFunc :=
  match f_size with
  | F32 => Silver.FloatFunc 24 8 method ("f32" +:+ suffix)
  | F64 => Silver.FloatFunc 52 12 method ("f64" +:+ suffix)
  end.

Definition float_binop (op_kind : BinOpFloat) (f_size : FloatSizeViper) (left right : Exp) : Exp :=
  backend_func_app
    match op_kind with
    | FAdd => float_func f_size "add" "_fp_add"
    | FSub => float_func f_size "sub" "_fp_sub"
    | FMul => float_func f_size "mul" "_fp_mul"
    | FDiv => float_func f_size "div" "_fp_div"
    | FMin => float_func f_size "min" "_fp_min"
    | FMax => float_func f_size "max" "_fp_max"
    | FEq => float_func f_size "eq" "_fp_eq"
    | FLeq => float_func f_size "leq" "_fp_leq"
    | FGeq => float_func f_size "geq" "_fp_geq"
    | FLt => float_func f_size "lt" "_fp_lt"
    | FGt => float_func f_size "gt" "_fp_gt"
    end [left; right].

Definition float_unop {E} (op_kind : UnOpFloat) (f_size : FloatSizeViper) (arg : Exp) : outcome E Exp :=
  let app method suffix := Ok (backend_func_app (float_func f_size method suffix) [arg]) in
  match op_kind with
  | FNeg => app "neg" "_fp_neg"
  | FAbs => app "abs" "_fp_abs"
  | IsZero => app "isZero" "_fp_is_zero"
  | IsInfinite => app "isInfinite" "_fp_is_infinite"
  | IsNan => app "isNaN" "_fp_is_nan"
  | IsNegative => app "isNegative" "_fp_is_negative"
  | IsPositive => app "isPositive" "_fp_is_positive"
  | FGetType | FromBV | ToBV => Panic "not yet implemented"
  end%string.

Definition backend_f32_lit (bits : Z) : Exp :=
  backend_func_app (Silver.FloatFunc 24 8 "from_bv" "f32_from_bv") [backend_bv32_lit bits].
Definition backend_f64_lit (bits : Z) : Exp :=
  backend_func_app (Silver.FloatFunc 52 12 "from_bv" "f64_from_bv") [backend_bv64_lit bits].

(** ** [statement.rs] *)
Definition local_var_assign (lhs rhs : Exp) : Stmt := Silver.LocalVarAssign lhs rhs.
Definition method_call_with_pos (method_name : string) (args targets : list Exp) : Stmt :=
  Silver.MethodCall method_name args targets.
Definition exhale (expr : Exp) : Stmt := Silver.Exhale expr.
Definition inhale (expr : Exp) : Stmt := Silver.Inhale expr.
Definition assert_ (expr : Exp) : Stmt := Silver.Assert expr.
Definition refute (expr : Exp) : Stmt := Silver.Refute expr.
Definition fold_with_pos (acc : Exp) : Stmt := Silver.Fold acc.
Definition unfold_with_pos (acc : Exp) : Stmt := Silver.Unfold acc.
Definition package (wand : Exp) (proof_script : Stmt) : Stmt := Silver.Package wand proof_script.
Definition apply_ (wand : Exp) : Stmt := Silver.Apply wand.
Definition seqn (stmts : list Stmt) (scoped_decls : list Silver.Declaration) : Stmt :=
  Silver.Seqn stmts scoped_decls [].
(** A comment is an empty sequence that carries it. *)
Definition comment (c : string) : Stmt := Silver.Seqn [] [] [c].
Definition if_stmt (cond : Exp) (then_body else_body : Stmt) : Stmt := Silver.If cond then_body else_body.
Definition label (name : string) (invs : list Exp) : Stmt := Silver.Label name invs.
Definition goto (target : string) : Stmt := Silver.Goto target.

(** ** [program.rs] *)
Definition field (name : string) (typ : Typ) : Silver.Field := {| Silver.f_name := name; Silver.f_typ := typ |}.
Definition local_var_decl (name : string) (typ : Typ) : LocalVarDecl :=
  {| Silver.v_name := name; Silver.v_typ := typ |}.
Definition predicate (name : string) (formal_args : list LocalVarDecl) (body : option Exp) : Silver.Predicate :=
  {| Silver.p_name := name; Silver.p_args := formal_args; Silver.p_body := body |}.
Definition function (name : string) (formal_args : list LocalVarDecl) (typ : Typ) (pres posts : list Exp)
    (body : option Exp) : Silver.Function_ :=
  {| Silver.fn_name := name; Silver.fn_args := formal_args; Silver.fn_typ := typ;
     Silver.fn_pres := pres; Silver.fn_posts := posts; Silver.fn_body := body |}.
Definition method (name : string) (formal_args formal_returns : list LocalVarDecl) (pres posts : list Exp)
    (body : option Stmt) : Silver.Method :=
  {| Silver.m_name := name; Silver.m_args := formal_args; Silver.m_returns := formal_returns;
     Silver.m_pres := pres; Silver.m_posts := posts; Silver.m_body := body |}.
Definition adt (name : string) (constructors : list Silver.AdtConstructor) (type_vars : list Typ) : Silver.Adt :=
  {| Silver.a_name := name; Silver.a_constructors := constructors; Silver.a_type_vars := type_vars |}.
Definition adt_constructor (name : string) (args : list LocalVarDecl) (adt_name : string)
    (adt_type_vars : list Typ) : Silver.AdtConstructor :=
  let ty_map := map (fun t => (t, t)) adt_type_vars in
  {| Silver.ac_name := name; Silver.ac_args := args;
     Silver.ac_typ := Silver.AdtType adt_name ty_map adt_type_vars; Silver.ac_adt := adt_name |}.
Definition domain (name : string) (functions : list Silver.DomainFunc) (axioms : list Silver.NamedDomainAxiom)
    (type_vars : list Typ) (interpretations : option (list (string * string))) : Silver.Domain :=
  {| Silver.d_name := name; Silver.d_functions := functions; Silver.d_axioms := axioms;
     Silver.d_type_vars := type_vars; Silver.d_interpretations := interpretations |}.
Definition domain_func (name : string) (formal_args : list LocalVarDecl) (typ : Typ) (unique : bool)
    (domain_name : string) (interpretation : option string) : Silver.DomainFunc :=
  {| Silver.df_name := name; Silver.df_args := formal_args; Silver.df_typ := typ;
     Silver.df_unique := unique; Silver.df_interpretation := interpretation;
     Silver.df_domain := domain_name |}.
Definition named_domain_axiom (name : string) (expr : Exp) (domain_name : string) : Silver.NamedDomainAxiom :=
  {| Silver.ax_name := name; Silver.ax_exp := expr; Silver.ax_domain := domain_name |}.
Definition program (domains : list Silver.Domain) (fields : list Silver.Field)
    (functions : list Silver.Function_) (predicates : list Silver.Predicate)
    (methods : list Silver.Method) (adts : list Silver.Adt) : Silver.Program_ :=
  {| Silver.g_domains := domains; Silver.g_fields := fields; Silver.g_functions := functions;
     Silver.g_predicates := predicates; Silver.g_methods := methods; Silver.g_adts := adts |}.
End AstFactory.

(** ** Literals of bit vectors

    [from_int] of a factory of width [w] reads an integer modulo [2 ^ w]. *)
Definition bv_value (e : Silver.Exp) : option Z :=
  match e with
  | Silver.BackendFuncAppOf (Silver.BVFunc w "from_int" _) [Silver.IntLit i] => Some (i mod 2 ^ w)
  | _ => None
  end%string.

Lemma as_i64_small bits : 0 <= bits < 2 ^ 63 -> AstFactory.as_i64 bits = bits.
Proof. intros H. unfold AstFactory.as_i64. rewrite Z.mod_small; lia. Qed.

(** Casting to [i64] keeps the 64 lowest bits. *)
Lemma as_i64_mod w bits : 0 <= w <= 64 -> AstFactory.as_i64 bits mod 2 ^ w = bits mod 2 ^ w.
Proof.
  intros Hw. unfold AstFactory.as_i64.
  pose proof (Z.div_mod (bits + 2 ^ 63) (2 ^ 64) ltac:(lia)) as Hd.
  replace ((bits + 2 ^ 63) mod 2 ^ 64 - 2 ^ 63) with (bits + (- ((bits + 2 ^ 63) / 2 ^ 64) * 2 ^ (64 - w)) * 2 ^ w).
  - by rewrite Z.mod_add by lia.
  - rewrite <- Z.mul_assoc, <- Z.pow_add_r by lia. replace (64 - w + w) with 64 by lia. lia.
Qed.

(** The literal of a bit vector of up to 64 bits denotes the given bits, although
    they pass through a signed 64-bit integer; a 128-bit literal denotes its bits
    only if they are the sign extension of their lower half, its string variant
    always. *)
Lemma bv_literals_denote_bits bits :
  (0 <= bits < 2 ^ 8 -> bv_value (AstFactory.backend_bv8_lit bits) = Some bits) /\
  (0 <= bits < 2 ^ 16 -> bv_value (AstFactory.backend_bv16_lit bits) = Some bits) /\
  (0 <= bits < 2 ^ 32 -> bv_value (AstFactory.backend_bv32_lit bits) = Some bits) /\
  (0 <= bits < 2 ^ 64 -> bv_value (AstFactory.backend_bv64_lit bits) = Some bits) /\
  (0 <= bits < 2 ^ 128 ->
    bv_value (AstFactory.backend_bv128_lit_str bits) = Some bits /\
    (bv_value (AstFactory.backend_bv128_lit bits) = Some bits
      <-> bits < 2 ^ 63 \/ 2 ^ 128 - 2 ^ 63 <= bits)).
Proof.
  unfold bv_value. simpl. rewrite !as_i64_mod by lia.
  split; [|split; [|split; [|split]]]; try (intros; f_equal; apply Z.mod_small; lia).
  intros Hb. split; [f_equal; by apply Z.mod_small|].
  unfold AstFactory.as_i64.
  pose proof (Z.mod_pos_bound (bits + 2 ^ 63) (2 ^ 64) ltac:(lia)) as Hr.
  pose proof (Z.div_mod (bits + 2 ^ 63) (2 ^ 64) ltac:(lia)) as Hd.
  set (r := (bits + 2 ^ 63) mod 2 ^ 64) in *. set (q := (bits + 2 ^ 63) / 2 ^ 64) in *.
  destruct (decide (2 ^ 63 <= r)) as [Hge|Hlt].
  - rewrite Z.mod_small by lia. split; [intros [= Heq]; lia|]. intros [H|H]; f_equal; nia.
  - replace ((r - 2 ^ 63) mod 2 ^ 128) with (r - 2 ^ 63 + 2 ^ 128).
    + split; [intros [= Heq]; lia|]. intros [H|H]; f_equal; nia.
    + apply (Z.mod_unique _ _ (-1)); lia.
Qed.
