(* ===== verification/ViperLower.v ===== *)
(** * Lowering VIR programs to Viper

    [prusti-viper/src/lib.rs]: the context of a program ([program_to_viper]) and
    the conversions [ToViper] and [ToViperVec], one definition per implementation.
    Failed assertions, [expect], [unwrap], [unreachable!] and [unimplemented!] are
    panics. Spans and positions are not modelled. *)
From stdpp Require Import pretty.
From S2P Require Import Prelude Vir VirMake VirProgram ViperAst.
Import AstFactory.
Local Open Scope Z_scope.

Abbreviation result A := (outcome Empty_set A).

(** ** Context *)
Record ToViperContext := {
  ctx_adts : gmap string AdtGenData;
  ctx_adt_constructors : gmap string (AdtGenData * AdtConstructorGenData);
  ctx_adt_destructors : gmap string (AdtGenData * LocalDecl);
  ctx_domains : gmap string DomainGenData;
  ctx_domain_functions : gmap string (DomainGenData * DomainFunctionData);
  ctx_domain_axioms : gmap string (DomainGenData * DomainAxiomGenData);
}.

(** One insertion per member, the last one of a name wins. *)
Definition index_by {A} (name : A -> string) (l : list A) : gmap string A :=
  foldl (fun m a => <[name a := a]> m) ∅ l.

Definition owned {A B} (members : A -> list B) (l : list A) : list (A * B) :=
  a ← l; pair a <$> members a.

Definition program_context (p : ProgramGenData) : ToViperContext := {|
  ctx_adts := index_by adt_name (program_adts p);
  ctx_adt_constructors :=
    index_by (fun ac => constructor_name ac.2) (owned adt_constructors_of (program_adts p));
  ctx_adt_destructors :=
    index_by (fun ad => decl_name ad.2)
      (owned (fun a => adt_constructors_of a ≫= constructor_args) (program_adts p));
  ctx_domains := index_by domain_name (program_domains p);
  ctx_domain_functions :=
    index_by (fun df => dfun_name df.2) (owned domain_functions (program_domains p));
  ctx_domain_axioms :=
    index_by (fun da => axiom_name da.2) (owned domain_axioms (program_domains p));
|}.

Section lowering.
Variable ctx : ToViperContext.

(** ** Types *)
Definition domain_param_to_viper (v : DomainParamData) : Typ := type_var (param_name v).

(** The declaration a type name refers to: its parameters, and the interpretation
    if it is a domain. *)
Definition resolve_type (name : string) :
    result (list DomainParamData * option (option (list BackendInterpretationPair))) :=
  match ctx_domains ctx !! name, ctx_adts ctx !! name with
  | Some _, Some _ | None, None => Panic "Domain/Adt not found"
  | Some domain, None => Ok (domain_typarams domain, Some (domain_interpretation domain))
  | None, Some adt => Ok (adt_typarams adt, None)
  end.

Fixpoint type_to_viper (t : TypeKind) : result Typ :=
  match t with
  | TInt => Ok int_type
  | TBool => Ok bool_type
  | TDomainTypeParam name _ => Ok (type_var name)
  | TDomain name params =>
      '(typarams, kind) ← resolve_type name;
      partial_typ_vars_map ←
        (fix zip (params : list TypeKind) (typarams : list DomainParamData) : result (list (Typ * Typ)) :=
          match params, typarams with
          | actual :: params, param :: typarams =>
              ty ← type_to_viper actual;
              rest ← zip params typarams;
              Ok ((domain_param_to_viper param, ty) :: rest)
          | _, _ => Ok []
          end) params typarams;
      let type_parameters := domain_param_to_viper <$> typarams in
      Ok match kind with
         | Some None => domain_type name partial_typ_vars_map type_parameters
         | Some (Some i) => domain_backend_type name i
         | None => adt_type name partial_typ_vars_map type_parameters
         end
  | TRef => Ok ref_type
  | TPerm => Ok perm_type
  | TSet elem => elem ← type_to_viper elem; Ok (set_type elem)
  | TMultiset elem => elem ← type_to_viper elem; Ok (multiset_type elem)
  | TSeq elem => elem ← type_to_viper elem; Ok (seq_type elem)
  | TMap key val => key ← type_to_viper key; val ← type_to_viper val; Ok (map_type key val)
  | TUnsupported _ | TErr => Panic "not implemented"
  end.

(** The type arguments of a list of parameters. *)
Definition type_map (typarams : list DomainParamData) (args : list TypeKind) : result (list (Typ * Typ)) :=
  collect (fun pa => ty ← type_to_viper pa.2; Ok (domain_param_to_viper pa.1, ty)) (zip typarams args).

Definition adt_type_map (ty : TypeKind) : result (list (Typ * Typ)) :=
  match ty with
  | TDomain adt_name ty_args =>
      adt ← unwrap "no adt found for adt type" (ctx_adts ctx !! adt_name);
      _ ← assert_that "assertion failed: adt.typarams.len() == ty_args.len()"
            (bool_decide (length (adt_typarams adt) = length ty_args));
      type_map (adt_typarams adt) ty_args
  | _ => Panic "expected adt type"
  end.

Definition local_decl_to_viper (d : LocalDecl) : result LocalVarDecl :=
  ty ← type_to_viper (decl_ty d); Ok (local_var_decl (decl_name d) ty).

Definition field_to_viper (name : string) (ty : TypeKind) : result Silver.Field :=
  ty ← type_to_viper ty; Ok (field name ty).

(** ** Expressions *)
Definition i64_max : Z := 2 ^ 63 - 1.

Definition const_to_viper (c : ConstData) : Exp :=
  match c with
  | CBool true => true_lit_with_pos
  | CBool false => false_lit_with_pos
  | CInt v => if v <? i64_max then int_lit_with_pos (as_i64 v) else int_lit_from_ref_with_pos v
  | CWildcard => wildcard_perm
  | CNull => null_lit_with_pos
  end.

Definition unop_to_viper (kind : UnOpKind) (expr : Exp) : Exp :=
  match kind with
  | Neg => minus_with_pos expr
  | PermNeg => perm_minus_with_pos expr
  | Not => not_with_pos expr
  end.

Definition binop_to_viper (kind : BinOpKind) (lhs rhs : Exp) : Exp :=
  match kind with
  | CmpEq => eq_cmp_with_pos lhs rhs
  | CmpNe => ne_cmp_with_pos lhs rhs
  | CmpGt => gt_cmp_with_pos lhs rhs
  | CmpLt => lt_cmp_with_pos lhs rhs
  | CmpGe => ge_cmp_with_pos lhs rhs
  | CmpLe => le_cmp_with_pos lhs rhs
  | And => and_with_pos lhs rhs
  | Or => or_with_pos lhs rhs
  | Add => add_with_pos lhs rhs
  | Sub => sub_with_pos lhs rhs
  | Mul => mul_with_pos lhs rhs
  | Div => div_with_pos lhs rhs
  | PermAdd => perm_add_with_pos lhs rhs
  | PermSub => perm_sub_with_pos lhs rhs
  | PermMul => perm_mul_with_pos lhs rhs
  | PermPermDiv => perm_perm_div_with_pos lhs rhs
  | Mod => mod_with_pos lhs rhs
  | Implies => implies_with_pos lhs rhs
  end.

(** The factory method depends on the type of the collection operand. *)
Definition collection_binop_to_viper (kind : CollectionBinOpKind) (lty rty : TypeKind) (lhs rhs : Exp) :
    result Exp :=
  match kind with
  | Contains =>
      match rty with
      | TSet _ | TMultiset _ => Ok (any_set_contains_with_pos lhs rhs)
      | TSeq _ => Ok (seq_contains_with_pos lhs rhs)
      | TMap _ _ => Ok (map_contains_with_pos rhs lhs)
      | _ => Panic "`in` on non-collection type"
      end
  | Index =>
      match lty with
      | TSeq _ => Ok (seq_index_with_pos lhs rhs)
      | TMap _ _ => Ok (lookup_map_with_pos lhs rhs)
      | _ => Panic "indexing of non-`Seq`/`Map` type"
      end
  | Union => Ok (any_set_union_with_pos lhs rhs)
  | Intersection => Ok (any_set_intersection_with_pos lhs rhs)
  | Difference => Ok (any_set_minus_with_pos lhs rhs)
  | Subset => Ok (any_set_subset_with_pos lhs rhs)
  | Concat => Ok (seq_append_with_pos lhs rhs)
  | Take => Ok (seq_take_with_pos lhs rhs)
  | Drop => Ok (seq_drop_with_pos lhs rhs)
  end.

(** [values] is what the elements of the literal are lowered to. *)
Definition collection_literal_to_viper (ty : TypeKind) (values : list Exp) : result Exp :=
  match values with
  | [] =>
      match ty with
      | TSet inner => inner ← type_to_viper inner; Ok (empty_set_with_pos inner)
      | TMultiset inner => inner ← type_to_viper inner; Ok (empty_multiset_with_pos inner)
      | TSeq inner => inner ← type_to_viper inner; Ok (empty_seq_with_pos inner)
      | TMap key val =>
          key ← type_to_viper key; val ← type_to_viper val; Ok (empty_map_with_pos key val)
      | _ => Panic "collection literal of non-collection type"
      end
  | _ =>
      match ty with
      | TSet _ => Ok (explicit_set_with_pos values)
      | TMultiset _ => Ok (explicit_multiset_with_pos values)
      | TSeq _ => Ok (explicit_seq_with_pos values)
      | _ => Panic "non-empty collection literal"
      end
  end.

Definition collection_update_to_viper (ty : TypeKind) (target key val : Exp) : result Exp :=
  match ty with
  | TMap _ _ => Ok (update_map_with_pos target key val)
  | TSeq _ => Ok (seq_update_with_pos target key val)
  | _ => Panic "update of non-map/seq type"
  end.

Definition collection_len_to_viper (ty : TypeKind) (v : Exp) : result Exp :=
  match ty with
  | TSet _ | TMultiset _ => Ok (any_set_cardinality_with_pos v)
  | TSeq _ => Ok (seq_length_with_pos v)
  | TMap _ _ => Ok (map_len_with_pos v)
  | _ => Panic "length of non-collection type"
  end.

Definition old_to_viper (label : OldLabel) (expr : Exp) : Exp :=
  match label with
  | OldNone => old expr
  | OldLhs => labelled_old_with_pos expr "lhs"
  | OldBlock block => labelled_old_with_pos expr (cfg_label_name block)
  | OldLabelled label => labelled_old_with_pos expr label
  end.

(** Applications of domain functions, constructors and other functions, with the
    lowering of the arguments [args]. *)
Definition func_app_to_viper (target : string) (args : result (list Exp)) (result_ty : TypeKind)
    (typ_var_map : list TypeKind) : result Exp :=
  match ctx_domain_functions ctx !! target with
  | Some (domain, func_data) =>
      _ ← assert_that "assertion failed: domain.typarams.len() == typ_var_map.len()"
            (bool_decide (length (domain_typarams domain) = length typ_var_map));
      tvars ← type_map (domain_typarams domain) typ_var_map;
      args ← args;
      ty ← type_to_viper result_ty;
      Ok match dfun_interpretation func_data with
         | None => domain_func_app2 target args tvars ty (domain_name domain)
         | Some i => backend_func_app_from_name target args ty i
         end
  | None =>
      match ctx_adt_constructors ctx !! target with
      | Some (adt, _) =>
          _ ← assert_that "adt constructors construct the type map internally"
                (bool_decide (length typ_var_map = 0%nat));
          tvars ← adt_type_map result_ty;
          args ← args;
          ty ← type_to_viper result_ty;
          Ok (adt_constructor_app target args tvars ty (adt_name adt))
      | None =>
          _ ← assert_that "non-domain functions cannot have type variables"
                (bool_decide (length typ_var_map = 0%nat));
          args ← args;
          ty ← type_to_viper result_ty;
          Ok (func_app target args ty)
      end
  end.

Definition destructor_owner (name : string) : string :=
  match ctx_adt_destructors ctx !! name with
  | Some (adt, _) => adt_name adt
  | None => "invalid_destructor"
  end.

Definition predicate_app_to_viper (target : string) (args : result (list Exp)) (perm : result (option Exp)) :
    result Exp :=
  args ← args;
  perm ← perm;
  Ok (predicate_access_predicate_with_pos (predicate_access_with_pos args target) perm).

Fixpoint expr_to_viper (e : Expr) {struct e} : result Exp :=
  let opt (o : option Expr) : result (option Exp) :=
    match o with Some e => Some <$> expr_to_viper e | None => Ok None end in
  let exprs := collect expr_to_viper in
  match e with
  | AccField recv fname fty perm =>
      recv ← expr_to_viper recv;
      f ← field_to_viper fname fty;
      perm ← opt perm;
      Ok (field_access_predicate_with_pos (field_access_with_pos recv f) perm)
  | BinOp kind lhs rhs =>
      lhs ← expr_to_viper lhs; rhs ← expr_to_viper rhs; Ok (binop_to_viper kind lhs rhs)
  | CollectionBinOp kind lhs rhs =>
      l ← expr_to_viper lhs;
      r ← expr_to_viper rhs;
      collection_binop_to_viper kind (Expr_ty lhs) (Expr_ty rhs) l r
  | Const c => Ok (const_to_viper c)
  | Exists_ qvars triggers body =>
      vs ← collect local_decl_to_viper qvars;
      ts ← collect (fun es => trigger <$> exprs es) triggers;
      body ← expr_to_viper body;
      Ok (exists_with_pos vs ts body)
  | Field recv fname fty =>
      recv ← expr_to_viper recv; f ← field_to_viper fname fty; Ok (field_access_with_pos recv f)
  | Forall_ qvars triggers body =>
      vs ← collect local_decl_to_viper qvars;
      ts ← collect (fun es => trigger <$> exprs es) triggers;
      body ← expr_to_viper body;
      Ok (forall_with_pos vs ts body)
  | FuncApp target args result_ty typ_var_map =>
      func_app_to_viper target (exprs args) result_ty typ_var_map
  | Let name val e =>
      ty ← type_to_viper (Expr_ty val);
      val ← expr_to_viper val;
      e ← expr_to_viper e;
      Ok (let_expr_with_pos (local_var_decl name ty) val e)
  | Local name ty => ty ← type_to_viper ty; Ok (local_var name ty)
  | Old e label => e ← expr_to_viper e; Ok (old_to_viper label e)
  | PredicateApp target args perm => predicate_app_to_viper target (exprs args) (opt perm)
  | Wand lhs rhs => lhs ← expr_to_viper lhs; rhs ← expr_to_viper rhs; Ok (magic_wand_with_pos lhs rhs)
  | Result_ ty => ty ← type_to_viper ty; Ok (result_with_pos ty)
  | CollectionLiteral values ty =>
      values ← exprs values; collection_literal_to_viper ty values
  | CollectionUpdate target key val =>
      t ← expr_to_viper target;
      k ← expr_to_viper key;
      v ← expr_to_viper val;
      collection_update_to_viper (Expr_ty target) t k v
  | CollectionLen v =>
      v' ← expr_to_viper v; collection_len_to_viper (Expr_ty v) v'
  | MapDomain v => v ← expr_to_viper v; Ok (map_domain_with_pos v)
  | MapRange v => v ← expr_to_viper v; Ok (map_range_with_pos v)
  | Ternary cond then_ else_ =>
      cond ← expr_to_viper cond;
      then_ ← expr_to_viper then_;
      else_ ← expr_to_viper else_;
      Ok (cond_exp_with_pos cond then_ else_)
  | Unfolding target args perm e =>
      acc ← predicate_app_to_viper target (exprs args) (opt perm);
      e ← expr_to_viper e;
      Ok (unfolding_with_pos acc e)
  | UnOp kind e => e ← expr_to_viper e; Ok (unop_to_viper kind e)
  | InhaleExhale inhale exhale =>
      i ← expr_to_viper inhale; e ← expr_to_viper exhale; Ok (inhale_exhale_pred i e)
  | AdtDestructor recv name _ ty =>
      tvars ← adt_type_map (Expr_ty recv);
      recv ← expr_to_viper recv;
      ty ← type_to_viper ty;
      Ok (adt_destructor name recv tvars ty (destructor_owner name))
  | AdtDiscriminator recv name =>
      tvars ← adt_type_map (Expr_ty recv);
      recv ← expr_to_viper recv;
      owner ← unwrap "called `Option::unwrap()` on a `None` value" (ctx_adt_constructors ctx !! name);
      Ok (adt_discr name recv tvars (adt_name owner.1))
  | Lazy _ _ | Todo _ => Panic "not implemented"
  end.

Definition opt_to_viper (o : option Expr) : result (option Exp) :=
  match o with Some e => Some <$> expr_to_viper e | None => Ok None end.

Definition exprs_to_viper (es : list Expr) : result (list Exp) := collect expr_to_viper es.

(** ** Statements *)
Fixpoint stmt_to_viper (s : VirMake.Stmt) {struct s} : result Silver.Stmt :=
  match s with
  | Comment v => Ok (comment v)
  | Exhale v => v ← expr_to_viper v; Ok (exhale v)
  | Fold_ target args perm =>
      pred ← predicate_app_to_viper target (exprs_to_viper args) (opt_to_viper perm);
      Ok (fold_with_pos pred)
  | Inhale v => v ← expr_to_viper v; Ok (inhale v)
  | LocalDeclStmt decl (Some expr) =>
      ty ← type_to_viper (decl_ty decl);
      expr ← expr_to_viper expr;
      Ok (local_var_assign (local_var_with_pos (decl_name decl) ty) expr)
  | LocalDeclStmt decl None => Ok (comment ("var " +:+ decl_name decl))
  | MethodCall targets method args =>
      args ← exprs_to_viper args;
      targets ← exprs_to_viper targets;
      Ok (method_call_with_pos method args targets)
  | Package lhs rhs stmts =>
      wand ← expr_to_viper (Wand lhs rhs);
      stmts ← collect stmt_to_viper stmts;
      Ok (package wand (seqn stmts []))
  | Apply lhs rhs => wand ← expr_to_viper (Wand lhs rhs); Ok (apply_ wand)
  | PureAssign lhs rhs =>
      lhs ← expr_to_viper lhs; rhs ← expr_to_viper rhs; Ok (local_var_assign lhs rhs)
  | Refute v => v ← expr_to_viper v; Ok (refute v)
  | IfStmt e thn els =>
      thn ← collect stmt_to_viper thn;
      els ← collect stmt_to_viper els;
      e ← expr_to_viper e;
      Ok (if_stmt e (seqn thn []) (seqn els []))
  | Unfold_ target args perm =>
      pred ← predicate_app_to_viper target (exprs_to_viper args) (opt_to_viper perm);
      Ok (unfold_with_pos pred)
  | LabelStmt name => Ok (label name [])
  | Dummy _ => Panic "not implemented"
  end.

Definition stmts_to_viper (ss : list VirMake.Stmt) : result (list Silver.Stmt) := collect stmt_to_viper ss.

(** Statements that end in a jump. *)
Definition jump_to_viper (ss : list VirMake.Stmt) (l : CfgBlockLabelData) : result (list Silver.Stmt) :=
  ss ← stmts_to_viper ss; Ok (ss ++ [goto (cfg_label_name l)]).

(** [targets.iter().rfold(..)]: the chain of conditionals from its last branch. *)
Fixpoint goto_chain (value : Exp) (targets : list GotoIfTargetGenData) (otherwise : Silver.Stmt) :
    result Silver.Stmt :=
  match targets with
  | [] => Ok otherwise
  | target :: targets =>
      else_ ← goto_chain value targets otherwise;
      vec_then ← jump_to_viper (target_statements target) (target_label target);
      v ← expr_to_viper (target_value target);
      Ok (seqn [if_stmt (eq_cmp_with_pos value v) (seqn vec_then []) else_] [])
  end.

Definition goto_if_to_viper (g : GotoIfGenData) : result (list Silver.Stmt) :=
  match goto_targets g with
  | [] => jump_to_viper (goto_otherwise_statements g) (goto_otherwise g)
  | targets =>
      value ← expr_to_viper (goto_value g);
      vec_otherwise ← jump_to_viper (goto_otherwise_statements g) (goto_otherwise g);
      s ← goto_chain value targets (seqn vec_otherwise []);
      Ok [s]
  end.

Definition goto_end : list Silver.Stmt := [goto (cfg_label_name End_)].

Definition terminator_to_viper (t : TerminatorStmtGenData) : result (list Silver.Stmt) :=
  match t with
  | AssumeFalse => Ok (inhale false_lit_with_pos :: goto_end)
  | TermGoto l => Ok [goto (cfg_label_name l)]
  | TermGotoIf g => goto_if_to_viper g
  | TermExit => Ok [comment "return"]
  | TermDummy v => Ok (seqn [comment v; assert_ false_lit_with_pos] [] :: goto_end)
  end.

Definition cfg_label_to_viper (b : CfgBlockGenData) : result Silver.Stmt :=
  invs ← exprs_to_viper (block_invariants b); Ok (label (cfg_label_name (block_label b)) invs).

Definition cfg_block_to_viper (b : CfgBlockGenData) : result (list Silver.Stmt) :=
  l ← cfg_label_to_viper b;
  ss ← stmts_to_viper (block_stmts b);
  t ← terminator_to_viper (block_terminator b);
  Ok (l :: ss ++ t).

(** ** Members *)
Definition stmt_local_decls (ss : list VirMake.Stmt) : list LocalDecl :=
  omap (fun s => match s with LocalDeclStmt d _ => Some d | _ => None end) ss.

(** The label of a block with the locals declared by its statements. *)
Definition block_declarations (b : CfgBlockGenData) : result (list Silver.Declaration) :=
  locals ← collect local_decl_to_viper (stmt_local_decls (block_stmts b));
  Ok (Silver.StmtDeclaration (label (cfg_label_name (block_label b)) [])
      :: (Silver.VarDeclaration <$> locals)).

Definition method_body_to_viper (blocks : list CfgBlockGenData) : result Silver.Stmt :=
  parts ← collect (fun b => ds ← block_declarations b; ss ← cfg_block_to_viper b; Ok (ss, ds)) blocks;
  Ok (seqn (mjoin (fst <$> parts)) (mjoin (snd <$> parts))).

Definition method_to_viper (m : MethodGenData) : result Silver.Method :=
  args ← collect local_decl_to_viper (method_args m);
  rets ← collect local_decl_to_viper (method_rets m);
  pres ← exprs_to_viper (method_pres m);
  posts ← exprs_to_viper (method_posts m);
  body ← match method_body m with
         | Some blocks => Some <$> method_body_to_viper blocks
         | None => Ok None
         end;
  Ok (method (method_name m) args rets pres posts body).

Definition decreases_to_viper (d : DecreasesGenData) : result (option Exp) :=
  match d with
  | DecTuple es c => es ← exprs_to_viper es; c ← opt_to_viper c; Ok (Some (decreases_tuple es c))
  | DecWildcard c => c ← opt_to_viper c; Ok (Some (decreases_wildcard c))
  | DecStar => Ok (Some decreases_star)
  | DecNone => Ok None
  end.

Definition function_to_viper (f : FunctionGenData) : result Silver.Function_ :=
  decreases ← decreases_to_viper (function_decreases f);
  args ← collect local_decl_to_viper (function_args f);
  ret ← type_to_viper (function_ret f);
  pres ← exprs_to_viper (function_pres f);
  posts ← exprs_to_viper (function_posts f);
  body ← opt_to_viper (function_expr f);
  Ok (function (function_name f) args ret pres (posts ++ option_list decreases) body).

Definition predicate_to_viper (p : PredicateGenData) : result Silver.Predicate :=
  args ← collect local_decl_to_viper (predicate_args p);
  body ← opt_to_viper (predicate_expr p);
  Ok (predicate (predicate_name p) args body).

Definition adt_to_viper (a : AdtGenData) : result Silver.Adt :=
  let type_vars := domain_param_to_viper <$> adt_typarams a in
  constructors ← collect (fun c =>
      args ← collect local_decl_to_viper (constructor_args c);
      Ok (adt_constructor (constructor_name c) args (adt_name a) type_vars)) (adt_constructors_of a);
  Ok (adt (adt_name a) constructors type_vars).

Definition domain_axiom_to_viper (a : DomainAxiomGenData) : result Silver.NamedDomainAxiom :=
  owner ← unwrap "no domain for domain axiom" (ctx_domain_axioms ctx !! axiom_name a);
  e ← expr_to_viper (axiom_expr a);
  Ok (named_domain_axiom (axiom_name a) e (domain_name owner.1)).

Definition domain_function_to_viper (f : DomainFunctionData) : result Silver.DomainFunc :=
  owner ← unwrap "no domain for domain function" (ctx_domain_functions ctx !! dfun_name f);
  args ← collect (fun iv => ty ← type_to_viper iv.2; Ok (local_var_decl ("arg" +:+ pretty iv.1) ty))
           (imap pair (dfun_args f));
  ret ← type_to_viper (dfun_ret f);
  Ok (domain_func (dfun_name f) args ret (dfun_unique f) (domain_name owner.1) (dfun_interpretation f)).

Definition domain_to_viper (d : DomainGenData) : result Silver.Domain :=
  functions ← collect domain_function_to_viper (domain_functions d);
  axioms ← collect domain_axiom_to_viper (domain_axioms d);
  Ok (domain (domain_name d) functions axioms (domain_param_to_viper <$> domain_typarams d)
        (domain_interpretation d)).

Definition program_members_to_viper (p : ProgramGenData) : result Silver.Program_ :=
  domains ← collect domain_to_viper (program_domains p);
  fields ← collect (fun f => field_to_viper (field_name f) (field_ty f)) (program_fields p);
  functions ← collect function_to_viper (program_functions p);
  predicates ← collect predicate_to_viper (program_predicates p);
  methods ← collect method_to_viper (program_methods p);
  adts ← collect adt_to_viper (program_adts p);
  Ok (program domains fields functions predicates methods adts).
End lowering.

Definition program_to_viper (p : ProgramGenData) : result Silver.Program_ :=
  program_members_to_viper (program_context p) p.
