(* ===== verification/ViperSem.v ===== *)
(** * The value of a lowered expression

    What the fragment of Viper expressions that corresponds to [VirSem] evaluates
    to, and the refinement: lowering ([ViperLower]) keeps the value of every
    expression of the fragment. *)
From S2P Require Import Prelude Vir VirMake VirSem VirInt VirReify VirProgram ViperAst ViperLower.
Local Open Scope Z_scope.

(** ** Evaluation of Viper expressions *)
Section viper_semantics.
Context {VM : ViperModel}.
Abbreviation val := (value domain_value).
Abbreviation env := (gmap string val).

(** Operators on integers; the quotient is partial. *)
Definition int_op (f : Z -> Z -> option val) (l r : option val) : option val :=
  match l, r with Some (VInt a), Some (VInt b) => f a b | _, _ => None end.

(** Connectives evaluate their right operand only if the left one is [go]. *)
Definition short_circuit (go stop : bool) (l r : option val) : option val :=
  match l with
  | Some (VBool b) =>
      if Bool.eqb b go then match r with Some (VBool c) => Some (VBool c) | _ => None end
      else Some (VBool stop)
  | _ => None
  end.

Fixpoint viper_eval (ρ : env) (e : Silver.Exp) {struct e} : option val :=
  let args := fix go (es : list Silver.Exp) : option (list val) :=
    match es with
    | [] => Some []
    | e :: es => v ← viper_eval ρ e; vs ← go es; Some (v :: vs)
    end in
  match e with
  | Silver.LocalVar name _ => ρ !! name
  | Silver.TrueLit => Some (VBool true)
  | Silver.FalseLit => Some (VBool false)
  | Silver.NullLit => Some VNull
  | Silver.IntLit i => Some (VInt i)
  | Silver.Minus e => match viper_eval ρ e with Some (VInt a) => Some (VInt (- a)) | _ => None end
  | Silver.Not e => match viper_eval ρ e with Some (VBool b) => Some (VBool (negb b)) | _ => None end
  | Silver.And l r => short_circuit true false (viper_eval ρ l) (viper_eval ρ r)
  | Silver.Or l r => short_circuit false true (viper_eval ρ l) (viper_eval ρ r)
  | Silver.Implies l r => short_circuit true true (viper_eval ρ l) (viper_eval ρ r)
  | Silver.EqCmp l r =>
      a ← viper_eval ρ l; b ← viper_eval ρ r; Some (VBool (bool_decide (a = b)))
  | Silver.NeCmp l r =>
      a ← viper_eval ρ l; b ← viper_eval ρ r; Some (VBool (negb (bool_decide (a = b))))
  | Silver.GtCmp l r => int_op (fun a b => Some (VBool (b <? a))) (viper_eval ρ l) (viper_eval ρ r)
  | Silver.LtCmp l r => int_op (fun a b => Some (VBool (a <? b))) (viper_eval ρ l) (viper_eval ρ r)
  | Silver.GeCmp l r => int_op (fun a b => Some (VBool (b <=? a))) (viper_eval ρ l) (viper_eval ρ r)
  | Silver.LeCmp l r => int_op (fun a b => Some (VBool (a <=? b))) (viper_eval ρ l) (viper_eval ρ r)
  | Silver.Add l r => int_op (fun a b => Some (VInt (a + b))) (viper_eval ρ l) (viper_eval ρ r)
  | Silver.Sub l r => int_op (fun a b => Some (VInt (a - b))) (viper_eval ρ l) (viper_eval ρ r)
  | Silver.Mul l r => int_op (fun a b => Some (VInt (a * b))) (viper_eval ρ l) (viper_eval ρ r)
  | Silver.Div l r =>
      int_op (fun a b => if b =? 0 then None else Some (VInt (viper_div a b))) (viper_eval ρ l) (viper_eval ρ r)
  | Silver.Mod l r =>
      int_op (fun a b => if b =? 0 then None else Some (VInt (viper_mod a b))) (viper_eval ρ l) (viper_eval ρ r)
  | Silver.CondExp c t e =>
      match viper_eval ρ c with
      | Some (VBool true) => viper_eval ρ t
      | Some (VBool false) => viper_eval ρ e
      | _ => None
      end
  | Silver.Let v e body => x ← viper_eval ρ e; viper_eval (<[Silver.v_name v := x]> ρ) body
  | Silver.FuncApp name es _ | Silver.DomainFuncApp name es _ _ _ | Silver.BackendFuncApp name es _ _
  | Silver.AdtConstructorApp name es _ _ _ => vs ← args es; viper_fun name vs
  | Silver.AdtDestructorApp name rcv _ _ _ => v ← viper_eval ρ rcv; viper_fun name [v]
  | _ => None
  end.

Fixpoint viper_eval_list (ρ : env) (es : list Silver.Exp) : option (list val) :=
  match es with
  | [] => Some []
  | e :: es => v ← viper_eval ρ e; vs ← viper_eval_list ρ es; Some (v :: vs)
  end.

Lemma viper_eval_args ρ es :
  (fix go (es : list Silver.Exp) : option (list val) :=
    match es with
    | [] => Some []
    | e :: es => v ← viper_eval ρ e; vs ← go es; Some (v :: vs)
    end) es = viper_eval_list ρ es.
Proof. induction es as [|e es IH]; simpl; [done|]. by rewrite IH. Qed.
End viper_semantics.

(** ** Integer literals

    The payload of an integer constant is a [u128]: [literals_ok] says so for the
    constants that evaluation reaches. *)
Fixpoint literals_ok (e : Expr) : bool :=
  match e with
  | Const (CInt n) => (0 <=? n) && (n <? 2 ^ 128)
  | UnOp _ e | AdtDestructor e _ _ _ => literals_ok e
  | BinOp _ l r | Let _ l r => literals_ok l && literals_ok r
  | Ternary c t e => literals_ok c && literals_ok t && literals_ok e
  | FuncApp _ args _ _ => forallb literals_ok args
  | _ => true
  end.

Lemma const_to_viper_int n : 0 <= n -> const_to_viper (CInt n) = Silver.IntLit n.
Proof.
  intros Hn. unfold const_to_viper. destruct (Z.ltb_spec n i64_max) as [H|H]; [|done].
  unfold AstFactory.int_lit_with_pos. by rewrite as_i64_small by (unfold i64_max in H; lia).
Qed.

(** ** Lowering keeps values *)
Section lowering_sound.
Context {VM : ViperModel}.
Abbreviation val := (value domain_value).
Abbreviation env := (gmap string val).
Variable ctx : ToViperContext.

Definition keeps_value (e : Expr) : Prop :=
  forall e' (ρ : env), literals_ok e = true -> expr_to_viper ctx e = Ok e' -> viper_eval ρ e' = eval ρ e.

Lemma lower_args_value es : Forall keeps_value es -> forall es' (ρ : env),
  forallb literals_ok es = true -> collect (expr_to_viper ctx) es = Ok es' ->
  viper_eval_list ρ es' = eval_list ρ es.
Proof.
  induction 1 as [|e es He _ IH]; simpl; intros es' ρ Hok Hes'; [by injection Hes' as <-|].
  apply andb_true_iff in Hok as [Hok Hoks]. inv_outcome. simpl. by erewrite He, IH.
Qed.

Lemma binop_to_viper_value kind (ρ : env) l r l' r' :
  viper_eval ρ l' = eval ρ l -> viper_eval ρ r' = eval ρ r ->
  viper_eval ρ (binop_to_viper kind l' r') = eval ρ (BinOp kind l r).
Proof.
  intros Hl Hr. destruct kind; simpl; rewrite ?Hl, ?Hr;
    destruct (eval ρ l) as [[a|[]|d|]|], (eval ρ r) as [[b|[]|d'|]|]; done.
Qed.

Lemma unop_to_viper_value kind (ρ : env) e e' :
  viper_eval ρ e' = eval ρ e -> viper_eval ρ (unop_to_viper kind e') = eval ρ (UnOp kind e).
Proof. intros He. destruct kind; simpl; rewrite ?He; destruct (eval ρ e) as [[]|]; done. Qed.

(** Whatever kind of application the context makes of it. *)
Lemma func_app_to_viper_value f args rargs ty tys e' (ρ : env) :
  func_app_to_viper ctx f rargs ty tys = Ok e' ->
  exists args', rargs = Ok args' /\
    (viper_eval_list ρ args' = eval_list ρ args -> viper_eval ρ e' = eval ρ (FuncApp f args ty tys)).
Proof.
  intros He. rewrite eval_FuncApp. unfold func_app_to_viper in He.
  assert (exists args', rargs = Ok args' /\ viper_eval ρ e' = vs ← viper_eval_list ρ args'; viper_fun f vs)
    as (args' & -> & ->).
  - repeat case_match; inv_outcome; eexists; (split; [reflexivity|]);
      try (match goal with |- context [match ?i with None => _ | Some _ => _ end] => destruct i end);
      simpl; by rewrite ?viper_eval_args.
  - exists args'. split; [done|]. by intros ->.
Qed.

Lemma collection_nodes_value (ρ : env) (r : outcome Empty_set Silver.Exp) e' :
  r = Ok e' ->
  (exists kind lty rty l r', r = collection_binop_to_viper kind lty rty l r') \/
  (exists ty vs, r = collection_literal_to_viper ctx ty vs) \/
  (exists ty t k v, r = collection_update_to_viper ty t k v) \/
  (exists ty v, r = collection_len_to_viper ty v) ->
  viper_eval ρ e' = None.
Proof.
  intros He [(kind & lty & rty & l & r' & ->)|[(ty & vs & ->)|[(ty & t & k & v & ->)|(ty & v & ->)]]].
  - destruct kind, lty, rty; simpl in He; by inv_outcome.
  - destruct vs, ty; simpl in He; by inv_outcome.
  - destruct ty; simpl in He; by inv_outcome.
  - destruct ty; simpl in He; by inv_outcome.
Qed.

Lemma lower_keeps_value e : keeps_value e.
Proof.
  induction e as [name ty|recv IHr f fty|e IH label|c|ty|recv IHr f fty perm Hp|t args Ha perm Hp e IH|kind e IH
    |kind l IHl r IHr|kind l IHl r IHr|vs Hvs ty|t IHt k IHk v IHv|c IH|m IH|m IH|c IHc t IHt e IHe
    |qs ts Hts b IHb|qs ts Hts b IHb|name e1 IH1 e2 IH2|f args Hargs ty tys|t args Ha perm Hp|l IHl r IHr|l IHl r IHr
    |name ty|e IH name input ty|e IH name|msg];
    intros e' ρ Hok He'; cbn [literals_ok] in Hok;
    repeat match goal with H : _ && _ = true |- _ => apply andb_true_iff in H as [? H] end.
  all: try (simpl in He'; unfold predicate_app_to_viper in He'; inv_outcome; done).
  - simpl in He'. inv_outcome. by destruct label.
  - simpl in He'. inv_outcome. destruct c as [[]|n| |]; try done.
    apply andb_true_iff in Hok as [Hn _]. rewrite const_to_viper_int by lia. done.
  - simpl in He'. inv_outcome. apply unop_to_viper_value. by eapply IH.
  - simpl in He'. inv_outcome. apply binop_to_viper_value; [by eapply IHl|by eapply IHr].
  - simpl in He'. inv_outcome. by eapply collection_nodes_value; [eassumption|eauto 10].
  - simpl in He'. inv_outcome. by eapply collection_nodes_value; [eassumption|eauto 10].
  - simpl in He'. inv_outcome. by eapply collection_nodes_value; [eassumption|eauto 10].
  - simpl in He'. inv_outcome. by eapply collection_nodes_value; [eassumption|eauto 10].
  - simpl in He'. inv_outcome. simpl.
    erewrite IHc, IHt, IHe by eassumption. done.
  - simpl in He'. inv_outcome. simpl. erewrite IH1 by eassumption.
    destruct (eval ρ e1); simpl; [|done]. by eapply IH2.
  - cbn [expr_to_viper] in He'.
    destruct (func_app_to_viper_value f args _ ty tys e' ρ He') as (args' & Hargs' & Hval).
    apply Hval. apply list_all_Forall in Hargs. by apply lower_args_value.
  - simpl in He'. inv_outcome. simpl. by erewrite IH by eassumption.
Qed.

End lowering_sound.
