(* ===== verification/ViperRun.v ===== *)
(** * Running VIR control-flow graphs and Viper method bodies

    Two machines over the same states. One runs the blocks of a VIR method: a
    block runs its statements, its terminator chooses the next block by label. The
    other runs the body of a Viper method as Viper documents it: a flat list of
    statements in which [goto] continues at the label of that name.

    A state has the values of the locals and a heap; functions may read the heap.
    What is not about locals and control ([exhale], [fold], calls, impure
    assertions, labels with their invariants, ...) is the relation [atom] from
    statements of Viper and states to states or failure ([None]); it is the same
    for both machines, through the lowering of the one statement. Assuming a false
    condition has no result at all. *)
From S2P Require Import Prelude Vir VirMake VirSem VirInt VirReify VirProgram ViperAst ViperLower ViperSem.
Local Open Scope Z_scope.

(** The interpretation of functions in one heap. *)
Definition model_at {VM : ViperModel} {H : Type}
    (heap_fun : H -> string -> list (value domain_value) -> option (value domain_value)) (h : H) : ViperModel := {|
  domain_value := domain_value;
  domain_value_eq_dec := domain_value_eq_dec;
  domain_value_ty := domain_value_ty;
  viper_fun := heap_fun h;
  viper_div := viper_div;
  viper_mod := viper_mod;
  viper_div_mod := viper_div_mod;
  viper_mod_bound := viper_mod_bound;
|}.

Section machines.
Context {VM : ViperModel} {H : Type}.
Abbreviation val := (value domain_value).
Variable heap_fun : H -> string -> list val -> option val.

Record state := { locals : gmap string val; heap : H }.

Definition assign (x : string) (v : val) (st : state) : state :=
  {| locals := <[x := v]> (locals st); heap := heap st |}.

Variable atom : Silver.Stmt -> state -> option state -> Prop.

Definition is_bool (v : option val) : bool := match v with Some (VBool _) => true | _ => false end.

(** ** Viper *)
Definition viper_value (st : state) (e : Silver.Exp) : option val :=
  viper_eval (VM := model_at heap_fun (heap st)) (locals st) e.

(** A statement ends normally, with a jump, or with a failed check. *)
Inductive exit := Normal (st : state) | Jump (label : string) (st : state) | Failed.

Definition exit_of (r : option state) : exit := match r with Some st => Normal st | None => Failed end.
Definition stops (x : exit) : bool := match x with Normal _ => false | _ => true end.

(** The statements that are left to [atom]. *)
Definition viper_atomic (st : state) (s : Silver.Stmt) : bool :=
  match s with
  | Silver.Seqn _ _ _ | Silver.If _ _ _ | Silver.Goto _ => false
  | Silver.LocalVarAssign (Silver.LocalVar _ _) e => bool_decide (viper_value st e = None)
  | Silver.Inhale e | Silver.Assert e => negb (is_bool (viper_value st e))
  | _ => true
  end.

Inductive viper_exec : Silver.Stmt -> state -> exit -> Prop :=
| exec_seqn ss ds info st x : viper_execs ss st x -> viper_exec (Silver.Seqn ss ds info) st x
| exec_if c t e (b : bool) st x :
    viper_value st c = Some (VBool b) -> viper_exec (if b then t else e) st x ->
    viper_exec (Silver.If c t e) st x
| exec_if_undefined c t e st : is_bool (viper_value st c) = false -> viper_exec (Silver.If c t e) st Failed
| exec_goto l st : viper_exec (Silver.Goto l) st (Jump l st)
| exec_assign x ty e v st :
    viper_value st e = Some v ->
    viper_exec (Silver.LocalVarAssign (Silver.LocalVar x ty) e) st (Normal (assign x v st))
| exec_inhale e st : viper_value st e = Some (VBool true) -> viper_exec (Silver.Inhale e) st (Normal st)
| exec_assert e (b : bool) st :
    viper_value st e = Some (VBool b) ->
    viper_exec (Silver.Assert e) st (if b then Normal st else Failed)
| exec_atom s st r : viper_atomic st s = true -> atom s st r -> viper_exec s st (exit_of r)
with viper_execs : list Silver.Stmt -> state -> exit -> Prop :=
| execs_nil st : viper_execs [] st (Normal st)
| execs_cons s ss st st' x : viper_exec s st (Normal st') -> viper_execs ss st' x -> viper_execs (s :: ss) st x
| execs_stop s ss st x : viper_exec s st x -> stops x = true -> viper_execs (s :: ss) st x.

Definition is_label (name : string) (s : Silver.Stmt) : bool :=
  match s with Silver.Label l _ => bool_decide (l = name) | _ => false end.

(** The rest of a body from the first label of a name. *)
Fixpoint find_label (name : string) (ss : list Silver.Stmt) : option (list Silver.Stmt) :=
  match ss with
  | [] => None
  | s :: rest => if is_label name s then Some ss else find_label name rest
  end.

(** [viper_run body n k st r]: from the rest [k] of the body and state [st], [n]
    statements lead to the end of the body in a state, or to a failure. *)
Inductive viper_run (body : list Silver.Stmt) : nat -> list Silver.Stmt -> state -> option state -> Prop :=
| run_end st : viper_run body 0 [] st (Some st)
| run_next n s k st st' r :
    viper_exec s st (Normal st') -> viper_run body n k st' r -> viper_run body (S n) (s :: k) st r
| run_jump n s k l k' st st' r :
    viper_exec s st (Jump l st') -> find_label l body = Some k' -> viper_run body n k' st' r ->
    viper_run body (S n) (s :: k) st r
| run_fail s k st : viper_exec s st Failed -> viper_run body 1 (s :: k) st None.

(** ** VIR *)
Variable ctx : ToViperContext.

Definition vir_value (st : state) (e : Expr) : option val :=
  eval (VM := model_at heap_fun (heap st)) (locals st) e.

Definition vir_atomic (st : state) (s : VirMake.Stmt) : bool :=
  match s with
  | Comment _ | LocalDeclStmt _ None | IfStmt _ _ _ => false
  | LocalDeclStmt _ (Some e) | PureAssign (Local _ _) e => bool_decide (vir_value st e = None)
  | Inhale e => negb (is_bool (vir_value st e))
  | _ => true
  end.

Inductive vir_exec : VirMake.Stmt -> state -> option state -> Prop :=
| vexec_comment msg st : vir_exec (Comment msg) st (Some st)
| vexec_decl d st : vir_exec (LocalDeclStmt d None) st (Some st)
| vexec_init d e v st :
    vir_value st e = Some v -> vir_exec (LocalDeclStmt d (Some e)) st (Some (assign (decl_name d) v st))
| vexec_assign x ty e v st :
    vir_value st e = Some v -> vir_exec (PureAssign (Local x ty) e) st (Some (assign x v st))
| vexec_inhale e st : vir_value st e = Some (VBool true) -> vir_exec (Inhale e) st (Some st)
| vexec_if c t e (b : bool) st r :
    vir_value st c = Some (VBool b) -> vir_execs (if b then t else e) st r -> vir_exec (IfStmt c t e) st r
| vexec_if_undefined c t e st : is_bool (vir_value st c) = false -> vir_exec (IfStmt c t e) st None
| vexec_atom s s' st r :
    vir_atomic st s = true -> stmt_to_viper ctx s = Ok s' -> atom s' st r -> vir_exec s st r
with vir_execs : list VirMake.Stmt -> state -> option state -> Prop :=
| vexecs_nil st : vir_execs [] st (Some st)
| vexecs_cons s ss st st' r : vir_exec s st (Some st') -> vir_execs ss st' r -> vir_execs (s :: ss) st r
| vexecs_fail s ss st : vir_exec s st None -> vir_execs (s :: ss) st None.

(** The branch of a [GotoIf]: the first target whose value is the scrutinee's. The
    scrutinee is not looked at if there are no targets. *)
Fixpoint select (st : state) (value : Expr) (targets : list GotoIfTargetGenData)
    (otherwise : list VirMake.Stmt * CfgBlockLabelData) : option (list VirMake.Stmt * CfgBlockLabelData) :=
  match targets with
  | [] => Some otherwise
  | t :: targets =>
      v ← vir_value st value;
      w ← vir_value st (target_value t);
      if bool_decide (v = w) then Some (target_statements t, target_label t)
      else select st value targets otherwise
  end.

(** What a terminator does next. *)
Inductive next := ToBlock (label : CfgBlockLabelData) (st : state) | Done (st : state) | Fails.

Definition after (l : CfgBlockLabelData) (r : option state) : next :=
  match r with Some st => ToBlock l st | None => Fails end.

Inductive vir_terminator : TerminatorStmtGenData -> state -> next -> Prop :=
| vterm_goto l st : vir_terminator (TermGoto l) st (ToBlock l st)
| vterm_goto_if g ss l st r :
    select st (goto_value g) (goto_targets g) (goto_otherwise_statements g, goto_otherwise g) = Some (ss, l) ->
    vir_execs ss st r -> vir_terminator (TermGotoIf g) st (after l r)
| vterm_goto_if_undefined g st :
    select st (goto_value g) (goto_targets g) (goto_otherwise_statements g, goto_otherwise g) = None ->
    vir_terminator (TermGotoIf g) st Fails
| vterm_exit st : vir_terminator TermExit st (Done st)
| vterm_dummy msg st : vir_terminator (TermDummy msg) st Fails.

(** A block passes its label, runs its statements and its terminator. *)
Inductive vir_block (b : CfgBlockGenData) : state -> next -> Prop :=
| vblock_run s st st1 st2 n :
    cfg_label_to_viper ctx b = Ok s -> atom s st (Some st1) -> vir_execs (block_stmts b) st1 (Some st2) ->
    vir_terminator (block_terminator b) st2 n -> vir_block b st n
| vblock_stmts_fail s st st1 :
    cfg_label_to_viper ctx b = Ok s -> atom s st (Some st1) -> vir_execs (block_stmts b) st1 None ->
    vir_block b st Fails
| vblock_label_fail s st : cfg_label_to_viper ctx b = Ok s -> atom s st None -> vir_block b st Fails.

Definition find_block (l : CfgBlockLabelData) (blocks : list CfgBlockGenData) : option CfgBlockGenData :=
  List.find (fun b => bool_decide (block_label b = l)) blocks.

(** [vir_run blocks l st r]: running from the block labelled [l] ends at an [Exit]
    in a state, or fails. *)
Inductive vir_run (blocks : list CfgBlockGenData) : CfgBlockLabelData -> state -> option state -> Prop :=
| vrun_step l l' b st st' r :
    find_block l blocks = Some b -> vir_block b st (ToBlock l' st') -> vir_run blocks l' st' r ->
    vir_run blocks l st r
| vrun_exit l b st st' :
    find_block l blocks = Some b -> vir_block b st (Done st') -> vir_run blocks l st (Some st')
| vrun_fail l b st : find_block l blocks = Some b -> vir_block b st Fails -> vir_run blocks l st None.
End machines.

Arguments state {VM} H.
