(* ===== verification/ViperCfg.v ===== *)
(** * The lowered body runs the control-flow graph

    [ViperRun]'s two machines agree: for the blocks of a method and the flat body
    that [ViperLower] makes of them, the same results can be reached from the entry.
    Statements first, then the chain of conditionals of a [GotoIf], blocks, and
    whole bodies along the labels. *)
From S2P Require Import Prelude Vir VirMake VirSem VirInt VirReify VirProgram ViperAst ViperLower ViperSem ViperRun.
Local Open Scope Z_scope.

(** The integer constants that running a statement evaluates are [u128]s. *)
Fixpoint stmt_literals_ok (s : Stmt) : bool :=
  match s with
  | LocalDeclStmt _ (Some e) | PureAssign _ e | Inhale e => literals_ok e
  | IfStmt c t e => literals_ok c && forallb stmt_literals_ok t && forallb stmt_literals_ok e
  | _ => true
  end.

Lemma local_var_lowered ctx e x t : expr_to_viper ctx e = Ok (Silver.LocalVar x t) -> exists ty, e = Local x ty.
Proof.
  destruct e; simpl; unfold predicate_app_to_viper; intros He; inv_outcome; try discriminate.
  - by eexists.
  - by destruct label.
  - by destruct c as [[]|z| |]; simpl in *; repeat case_match.
  - by destruct kind.
  - by destruct kind.
  - destruct kind, (Expr_ty e1), (Expr_ty e2); simpl in *; by inv_outcome.
  - destruct x0, ty; simpl in *; by inv_outcome.
  - destruct (Expr_ty e1); simpl in *; by inv_outcome.
  - destruct (Expr_ty e); simpl in *; by inv_outcome.
  - unfold func_app_to_viper in He. repeat case_match; inv_outcome; discriminate.
Qed.

Section simulation.
Context {VM : ViperModel} {H : Type}.
Abbreviation val := (value domain_value).
Variable heap_fun : H -> string -> list val -> option val.
Variable atom : Silver.Stmt -> state H -> option (state H) -> Prop.
Variable ctx : ToViperContext.
Abbreviation state := (state H).
Abbreviation viper_exec := (viper_exec heap_fun atom).
Abbreviation viper_execs := (viper_execs heap_fun atom).
Abbreviation vir_exec := (vir_exec heap_fun atom ctx).
Abbreviation vir_execs := (vir_execs heap_fun atom ctx).

Lemma values_agree st e e' :
  literals_ok e = true -> expr_to_viper ctx e = Ok e' ->
  viper_value heap_fun st e' = vir_value heap_fun st e.
Proof. intros. by eapply (lower_keeps_value (VM := model_at heap_fun (heap st))). Qed.

(** ** Statements *)

(** A statement is not left to [atom] where its value is defined. *)
Ltac defined_here :=
  match goal with
  | Ha : bool_decide (?x = None) = true, Hv : ?x = Some _ |- _ =>
      exfalso; apply bool_decide_eq_true in Ha; congruence
  | Ha : negb (is_bool ?x) = true, Hv : ?x = Some _ |- _ => by rewrite Hv in Ha
  end.

Lemma viper_exec_atomic s st x :
  viper_atomic heap_fun st s = true -> viper_exec s st x <-> exists r, x = exit_of r /\ atom s st r.
Proof.
  intros Ha. split; [|intros (r & -> & Hr); by apply exec_atom].
  inversion 1; subst; simpl in Ha; try discriminate; eauto; defined_here.
Qed.

Lemma vir_exec_atomic s s' st r :
  stmt_to_viper ctx s = Ok s' -> vir_atomic heap_fun st s = true -> vir_exec s st r <-> atom s' st r.
Proof.
  intros Hs Ha. split; [|intros Hr; by eapply vexec_atom].
  inversion 1; subst; simpl in Ha; try discriminate; first [defined_here | congruence].
Qed.

Lemma atomic_simulated s s' st x :
  stmt_to_viper ctx s = Ok s' -> vir_atomic heap_fun st s = true -> viper_atomic heap_fun st s' = true ->
  viper_exec s' st x <-> exists r, x = exit_of r /\ vir_exec s st r.
Proof.
  intros Hs Ha Ha'. rewrite viper_exec_atomic by done.
  split; intros (r & Hx & Hr); exists r; (split; [done|]); by eapply vir_exec_atomic.
Qed.

Definition simulated (s : Stmt) : Prop := forall s' st x,
  stmt_literals_ok s = true -> stmt_to_viper ctx s = Ok s' ->
  viper_exec s' st x <-> exists r, x = exit_of r /\ vir_exec s st r.

Lemma exit_of_normal (st : state) r : Normal st = exit_of r -> r = Some st.
Proof. destruct r; simpl; congruence. Qed.

Lemma simulated_list ss : Forall simulated ss -> forall ss' st x,
  forallb stmt_literals_ok ss = true -> collect (stmt_to_viper ctx) ss = Ok ss' ->
  viper_execs ss' st x <-> exists r, x = exit_of r /\ vir_execs ss st r.
Proof.
  induction 1 as [|s ss Hs _ IH]; simpl; intros ss' st x Hok Hss'.
  - injection Hss' as <-. split.
    + inversion 1; subst. exists (Some st). split; [done|constructor].
    + intros (r & -> & Hr). inversion Hr; subst. constructor.
  - apply andb_true_iff in Hok as [Hok Hoks]. inv_outcome. rename x0 into s', x1 into rest.
    split.
    + inversion 1 as [|? ? ? st' ? Hx Hxs|? ? ? ? Hx Hstop]; subst.
      * apply Hs in Hx as (r & Hr%exit_of_normal & Hv); [subst r|done..].
        apply IH in Hxs as (r & -> & Hvs); [|done..]. exists r. split; [done|]. by eapply vexecs_cons.
      * apply Hs in Hx as ([st'|] & -> & Hv); [done| |done..]. exists None. split; [done|].
        by constructor.
    + intros (r & -> & Hr). inversion Hr as [|? ? ? st' ? Hv Hvs|? ? ? Hv]; subst.
      * eapply execs_cons; [apply Hs; [done..|]; by eexists (Some st')|]. apply IH; [done..|]. by exists r.
      * apply execs_stop; [|done]. apply Hs; [done..|]. by exists None.
Qed.

Lemma skip_simulated s st x info :
  (forall r, vir_exec s st r <-> r = Some st) ->
  viper_exec (Silver.Seqn [] [] info) st x <-> exists r, x = exit_of r /\ vir_exec s st r.
Proof.
  intros Hs. split.
  - inversion 1 as [? ? ? ? ? Hx| | | | | | |]; subst; [|done]. inversion Hx; subst.
    exists (Some st). by rewrite Hs.
  - intros (r & -> & ->%Hs). repeat constructor.
Qed.

(** An assignment to a local from a defined value. *)
Lemma assign_simulated s x ty e' v st out :
  viper_value heap_fun st e' = Some v ->
  (forall r, vir_exec s st r <-> r = Some (assign x v st)) ->
  viper_exec (Silver.LocalVarAssign (Silver.LocalVar x ty) e') st out <->
  exists r, out = exit_of r /\ vir_exec s st r.
Proof.
  intros Hv Hs. split.
  - inversion 1 as [| | | |? ? ? v' ? Hv'| | |? ? ? Ha]; subst.
    + rewrite Hv in Hv'. injection Hv' as <-. exists (Some (assign x v st)). by rewrite Hs.
    + simpl in Ha. defined_here.
  - intros (r & -> & ->%Hs). by constructor.
Qed.

Lemma inhale_simulated e : simulated (Inhale e).
Proof.
  intros s' st x Hok Hs'. pose proof Hs' as Hs. simpl in Hs. inv_outcome. rename x0 into e'.
  pose proof (values_agree st e e' Hok ltac:(done)) as Hval.
  destruct (is_bool (vir_value heap_fun st e)) eqn:Hb.
  2:{ apply atomic_simulated; [done|simpl; by rewrite Hb|simpl; by rewrite Hval, Hb]. }
  split.
  - inversion 1 as [| | | | |? ? Hv| |? ? ? Ha]; subst.
    + exists (Some st). split; [done|]. apply vexec_inhale. congruence.
    + simpl in Ha. by rewrite Hval, Hb in Ha.
  - intros (r & -> & Hr). inversion Hr as [| | | |? ? Hv| | |? ? ? ? Ha]; subst.
    + apply exec_inhale. congruence.
    + simpl in Ha. by rewrite Hb in Ha.
Qed.

Lemma if_simulated c t e : Forall simulated t -> Forall simulated e -> simulated (IfStmt c t e).
Proof.
  intros Ht He s' st x Hok Hs'. simpl in Hok, Hs'.
  apply andb_true_iff in Hok as [[Hc Hokt]%andb_true_iff Hoke]. inv_outcome.
  rename x0 into t', x1 into e', x2 into c'. unfold AstFactory.if_stmt, AstFactory.seqn.
  pose proof (values_agree st c c' Hc ltac:(done)) as Hval.
  assert (forall (b : bool) x, viper_exec (if b then Silver.Seqn t' [] [] else Silver.Seqn e' [] []) st x <->
    exists r, x = exit_of r /\ vir_execs (if b then t else e) st r) as Hbranch.
  { intros b y. destruct b.
    - rewrite <- (simulated_list t Ht t') by done. split; [by inversion 1; subst|by constructor].
    - rewrite <- (simulated_list e He e') by done. split; [by inversion 1; subst|by constructor]. }
  split.
  - inversion 1 as [|? ? ? b ? ? Hv Hx|? ? ? ? Hv| | | | |]; subst; [| |done].
    + apply Hbranch in Hx as (r & -> & Hr). exists r. split; [done|]. eapply vexec_if; [|done]. congruence.
    + exists None. split; [done|]. apply vexec_if_undefined. by rewrite <- Hval.
  - intros (r & -> & Hr). inversion Hr as [| | | | |? ? ? b ? ? Hv Hb|? ? ? ? Hv|? ? ? ? Ha]; subst; [| |done].
    + eapply exec_if; [by rewrite Hval|]. apply Hbranch. by exists r.
    + apply exec_if_undefined. by rewrite Hval.
Qed.

Lemma pure_assign_simulated lhs e : simulated (PureAssign lhs e).
Proof.
  intros s' st out Hok Hs'. pose proof Hs' as Hs. simpl in Hok, Hs.
  apply bind_Ok_inv in Hs as (lhs' & Hlhs' & (e' & He' & [= <-])%bind_Ok_inv).
  pose proof (values_agree st e e' Hok ltac:(done)) as Hval. unfold AstFactory.local_var_assign.
  assert ((exists x ty, lhs = Local x ty) \/ ~ exists x ty, lhs = Local x ty) as Hlocal.
  { destruct lhs; first [left; do 2 eexists; reflexivity | right; intros (? & ? & ?); discriminate]. }
  destruct Hlocal as [(x & ty & ->)|Hlhs]; cycle 1.
  - apply atomic_simulated; [done|destruct lhs; try done; naive_solver|].
    destruct lhs'; try done. destruct (local_var_lowered ctx lhs name typ Hlhs') as [ty ->].
    naive_solver.
  - simpl in Hlhs'. apply bind_Ok_inv in Hlhs' as (ty' & Hty & [= <-]).
    unfold AstFactory.local_var, AstFactory.local_var_with_pos in *.
    destruct (vir_value heap_fun st e) as [v|] eqn:Hv.
    + apply (assign_simulated _ _ _ _ v); [done|]. intros r. split; [|intros ->; by constructor].
      inversion 1 as [| | |? ? ? v' ? Hv'| | | |? ? ? ? Ha]; subst; [congruence|].
      simpl in Ha. defined_here.
    + apply atomic_simulated; [done|simpl; by apply bool_decide_eq_true|simpl; apply bool_decide_eq_true; congruence].
Qed.

Lemma local_decl_simulated d o : simulated (LocalDeclStmt d o).
Proof.
  intros s' st out Hok Hs'. pose proof Hs' as Hs. destruct o as [e|]; simpl in Hok, Hs.
  - inv_outcome. rename x0 into e'. pose proof (values_agree st e e' Hok ltac:(done)) as Hval.
    unfold AstFactory.local_var_assign, AstFactory.local_var_with_pos.
    destruct (vir_value heap_fun st e) as [v|] eqn:Hv.
    + apply (assign_simulated _ _ _ _ v); [done|]. intros r. split; [|intros ->; by constructor].
      inversion 1 as [| |? ? v' ? Hv'| | | | |? ? ? ? Ha]; subst; [congruence|].
      simpl in Ha. defined_here.
    + apply atomic_simulated; [done|simpl; by apply bool_decide_eq_true|simpl; apply bool_decide_eq_true; congruence].
  - injection Hs as <-. apply skip_simulated. intros r. split; [|intros ->; by constructor].
    inversion 1; subst; done.
Qed.

Lemma stmt_simulated s : simulated s.
Proof.
  induction s as [d o|lhs rhs|e|e|e|t args perm|t args perm|l r ss Hss|l r|ts m args|c t Ht e He|name|msg|msg];
    try (intros s' st x Hok Hs; pose proof Hs as Hs'; simpl in Hs'; inv_outcome; by apply atomic_simulated).
  - apply local_decl_simulated.
  - apply pure_assign_simulated.
  - apply inhale_simulated.
  - apply if_simulated; by apply list_all_Forall.
  - intros s' st x _ [= <-]. apply skip_simulated. intros r. split; [|intros ->; by constructor].
    inversion 1; subst; done.
Qed.

Lemma stmts_simulated ss ss' st x :
  forallb stmt_literals_ok ss = true -> stmts_to_viper ctx ss = Ok ss' ->
  viper_execs ss' st x <-> exists r, x = exit_of r /\ vir_execs ss st r.
Proof. apply simulated_list, Forall_forall. intros s _. apply stmt_simulated. Qed.
End simulation.
