(* ===== verification/ViperBlocks.v ===== *)
(** * From blocks to whole bodies

    The rest of the simulation of [ViperCfg]: jumps, the chain of conditionals of
    a [GotoIf], blocks, labels, and whole bodies in both directions. *)
From S2P Require Import Prelude Vir VirMake VirSem VirInt VirReify VirProgram ViperAst ViperLower ViperSem ViperRun ViperCfg.
Local Open Scope Z_scope.

(** ** Well-formed graphs *)
Definition target_literals_ok (t : GotoIfTargetGenData) : bool :=
  literals_ok (target_value t) && forallb stmt_literals_ok (target_statements t).

Definition terminator_ok (t : TerminatorStmtGenData) : bool :=
  match t with
  | TermGotoIf g =>
      literals_ok (goto_value g) && forallb target_literals_ok (goto_targets g) &&
      forallb stmt_literals_ok (goto_otherwise_statements g)
  | _ => true
  end.

(** The labels a terminator jumps to. *)
Definition terminator_targets (t : TerminatorStmtGenData) : list CfgBlockLabelData :=
  match t with
  | TermGoto l => [l]
  | TermGotoIf g => goto_otherwise g :: (target_label <$> goto_targets g)
  | _ => []
  end.

Definition is_exit (t : TerminatorStmtGenData) : bool := match t with TermExit => true | _ => false end.

(** Only the last block may return. *)
Fixpoint exits_last (blocks : list CfgBlockGenData) : bool :=
  match blocks with
  | [] | [_] => true
  | b :: rest => negb (is_exit (block_terminator b)) && exits_last rest
  end.

(** No statement is a label with the name of a block. *)
Definition foreign_label (blocks : list CfgBlockGenData) (s : Stmt) : bool :=
  match s with
  | LabelStmt name => forallb (fun b => negb (bool_decide (cfg_label_name (block_label b) = name))) blocks
  | _ => true
  end.

(** The statements that a lowered block has at its top level. *)
Definition flat_stmts (b : CfgBlockGenData) : list Stmt :=
  block_stmts b ++ match block_terminator b with TermGotoIf g => goto_otherwise_statements g | _ => [] end.

Definition block_ok (blocks : list CfgBlockGenData) (b : CfgBlockGenData) : bool :=
  wf_label (block_label b) && forallb stmt_literals_ok (block_stmts b) &&
  forallb (foreign_label blocks) (flat_stmts b) && terminator_ok (block_terminator b) &&
  bool_decide (Forall (.∈ block_label <$> blocks) (terminator_targets (block_terminator b))).

Definition graph_ok (blocks : list CfgBlockGenData) : bool :=
  bool_decide (NoDup (block_label <$> blocks)) && exits_last blocks && forallb (block_ok blocks) blocks.

Lemma exits_last_app blocks1 b blocks2 :
  exits_last (blocks1 ++ b :: blocks2) = true -> block_terminator b = TermExit -> blocks2 = [].
Proof.
  induction blocks1 as [|b1 blocks1 IH]; simpl.
  - destruct blocks2; [done|]. intros [Hb _]%andb_true_iff Ht. by rewrite Ht in Hb.
  - destruct (blocks1 ++ b :: blocks2) eqn:Happ; [by destruct blocks1|].
    intros [_ Hrest]%andb_true_iff. auto.
Qed.

Section simulation.
Context {VM : ViperModel} {H : Type}.
Abbreviation val := (value domain_value).
Variable heap_fun : H -> string -> list val -> option val.
Variable atom : Silver.Stmt -> state H -> option (state H) -> Prop.
Variable ctx : ToViperContext.
Abbreviation state := (state H).
Abbreviation viper_exec := (viper_exec heap_fun atom).
Abbreviation viper_execs := (viper_execs heap_fun atom).
Abbreviation viper_run := (viper_run heap_fun atom).
Abbreviation vir_execs := (vir_execs heap_fun atom ctx).
Abbreviation vir_terminator := (vir_terminator heap_fun atom ctx).
Abbreviation vir_block := (vir_block heap_fun atom ctx).
Abbreviation vir_run := (vir_run heap_fun atom ctx).

(** ** Statements that end in a jump *)
Lemma viper_execs_app ss1 ss2 st x :
  viper_execs (ss1 ++ ss2) st x <->
  (exists st', viper_execs ss1 st (Normal st') /\ viper_execs ss2 st' x) \/
  (viper_execs ss1 st x /\ stops x = true).
Proof.
  revert st. induction ss1 as [|s ss1 IH]; intros st; simpl.
  - split; [intros Hx; left; exists st; split; [constructor|done]|].
    intros [(st' & Hn & Hx)|[Hn Hs]]; inversion Hn; subst; done.
  - split.
    + inversion 1 as [|? ? ? st' ? Hx Hxs|? ? ? ? Hx Hstop]; subst.
      * apply IH in Hxs as [(st'' & H1 & H2)|[H1 H2]].
        -- left. exists st''. split; [by eapply execs_cons|done].
        -- right. split; [by eapply execs_cons|done].
      * right. split; [by apply execs_stop|done].
    + intros [(st' & Hn & Hx)|[Hn Hs]].
      * inversion Hn as [|? ? ? st'' ? H1 H2|? ? ? ? H1 H2]; subst; [|done].
        eapply execs_cons; [done|]. apply IH. left. by exists st'.
      * inversion Hn as [|? ? ? st'' ? H1 H2|? ? ? ? H1 H2]; subst; [|by apply execs_stop].
        eapply execs_cons; [done|]. apply IH. by right.
Qed.

Lemma single_execs s st x : viper_execs [s] st x <-> viper_exec s st x.
Proof.
  split.
  - inversion 1 as [|? ? ? st' ? Hx Hxs|]; subst; [|done]. by inversion Hxs; subst.
  - intros Hx. destruct x as [st'| |]; [|by apply execs_stop..]. eapply execs_cons; [done|constructor].
Qed.

Lemma goto_execs l st x : viper_execs [Silver.Goto l] st x <-> x = Jump l st.
Proof.
  rewrite single_execs. split; [|intros ->; constructor].
  inversion 1; subst; simpl in *; [done|discriminate].
Qed.

(** How a sequence that ends in a jump to [l] ends. *)
Definition jump_exit (l : CfgBlockLabelData) (r : option state) : exit :=
  match r with Some st => Jump (cfg_label_name l) st | None => Failed end.

Lemma jump_simulated ss l ss' st x :
  forallb stmt_literals_ok ss = true -> jump_to_viper ctx ss l = Ok ss' ->
  viper_execs ss' st x <-> exists r, x = jump_exit l r /\ vir_execs ss st r.
Proof.
  intros Hok Hss'. unfold jump_to_viper in Hss'. inv_outcome. rename x0 into ss1.
  rewrite viper_execs_app. split.
  - intros [(st' & Hn & Hx)|[Hn Hs]].
    + apply (stmts_simulated heap_fun atom ctx ss) in Hn as (r & Hr%exit_of_normal & Hv); [subst r|done..].
      apply goto_execs in Hx as ->. by exists (Some st').
    + apply (stmts_simulated heap_fun atom ctx ss) in Hn as ([st'|] & -> & Hv); [done| |done..]. by exists None.
  - intros ([st'|] & -> & Hr).
    + left. exists st'. split; [|by apply goto_execs].
      apply (stmts_simulated heap_fun atom ctx ss); [done..|]. by exists (Some st').
    + right. split; [|done]. apply (stmts_simulated heap_fun atom ctx ss); [done..|]. by exists None.
Qed.

(** ** The chain of a [GotoIf] *)
Definition chain_exit (st : state) (o : option (list VirMake.Stmt * CfgBlockLabelData)) (x : exit) : Prop :=
  match o with
  | Some (ss, l) => exists r, x = jump_exit l r /\ vir_execs ss st r
  | None => x = Failed
  end.

Lemma seqn_exec ss ds info st x : viper_exec (Silver.Seqn ss ds info) st x <-> viper_execs ss st x.
Proof. split; [by inversion 1; subst|by constructor]. Qed.

Lemma goto_chain_simulated st value value' ss0 l0 s0 :
  literals_ok value = true -> expr_to_viper ctx value = Ok value' ->
  (forall x, viper_exec s0 st x <-> chain_exit st (Some (ss0, l0)) x) ->
  forall targets s x, forallb target_literals_ok targets = true ->
  goto_chain ctx value' targets s0 = Ok s ->
  viper_exec s st x <-> chain_exit st (select heap_fun st value targets (ss0, l0)) x.
Proof.
  intros Hval Hvalue' H0. induction targets as [|t targets IH]; intros s x Hok Hs.
  { injection Hs as <-. apply H0. }
  simpl in Hok, Hs. apply andb_true_iff in Hok as [[Ht Hts]%andb_true_iff Hok]. inv_outcome.
  rename x0 into else_, x1 into thn, x2 into tv.
  unfold AstFactory.seqn, AstFactory.if_stmt, AstFactory.eq_cmp_with_pos. rewrite seqn_exec, single_execs.
  pose proof (values_agree heap_fun ctx st _ _ Hval Hvalue') as Hv.
  pose proof (values_agree heap_fun ctx st _ _ Ht ltac:(done)) as Hw.
  assert (viper_value heap_fun st (Silver.EqCmp value' tv) =
    v ← vir_value heap_fun st value; w ← vir_value heap_fun st (target_value t); Some (VBool (bool_decide (v = w))))
    as Hc by (by rewrite <- Hv, <- Hw).
  simpl. revert Hc. destruct (vir_value heap_fun st value) as [v|]; simpl; intros Hc.
  2:{ split; [|intros ->; apply exec_if_undefined; by rewrite Hc].
      inversion 1 as [|? ? ? b ? ? Hb| | | | | |]; subst; first [congruence | done]. }
  destruct (vir_value heap_fun st (target_value t)) as [w|]; simpl in *.
  2:{ split; [|intros ->; apply exec_if_undefined; by rewrite Hc].
      inversion 1 as [|? ? ? b ? ? Hb| | | | | |]; subst; first [congruence | done]. }
  assert (viper_exec (Silver.If (Silver.EqCmp value' tv) (Silver.Seqn thn [] []) else_) st x <->
          viper_exec (if bool_decide (v = w) then Silver.Seqn thn [] [] else else_) st x) as ->.
  { split; [|intros Hx; by eapply exec_if].
    inversion 1 as [|? ? ? b ? ? Hb Hx|? ? ? ? Hb| | | | |]; subst; [|by rewrite Hc in Hb|done].
    rewrite Hc in Hb. by injection Hb as <-. }
  destruct (bool_decide (v = w)); [|by apply IH].
  rewrite seqn_exec. by apply jump_simulated.
Qed.

(** ** Terminators and blocks *)

(** How the statements of a lowered block end, from what the block does next. *)
Definition exit_of_next (n : @next VM H) : @exit VM H :=
  match n with
  | ToBlock l st => Jump (cfg_label_name l) st
  | Done st => Normal st
  | Fails => Failed
  end.

Lemma jump_exit_after l r : jump_exit l r = exit_of_next (after l r).
Proof. by destruct r. Qed.

Lemma inhale_false_blocks st x : ~ viper_exec (Silver.Inhale Silver.FalseLit) st x.
Proof. inversion 1; subst; simpl in *; discriminate. Qed.

Lemma goto_if_simulated g ss st x :
  terminator_ok (TermGotoIf g) = true -> goto_if_to_viper ctx g = Ok ss ->
  viper_execs ss st x <->
  chain_exit st (select heap_fun st (goto_value g) (goto_targets g)
                  (goto_otherwise_statements g, goto_otherwise g)) x.
Proof.
  destruct g as [value targets otherwise ostmts]. unfold goto_if_to_viper. simpl.
  intros Hok Hss. repeat match goal with H : _ && _ = true |- _ => apply andb_true_iff in H as [H ?] end.
  destruct targets as [|t targets]; [by apply jump_simulated|].
  apply bind_Ok_inv in Hss as (value' & Hv & Hss). apply bind_Ok_inv in Hss as (os & Hos & Hss).
  apply bind_Ok_inv in Hss as (s & Hs & [= <-]). rewrite single_execs.
  eapply goto_chain_simulated; [done..| |done|done].
  intros y. unfold AstFactory.seqn. rewrite seqn_exec. by apply jump_simulated.
Qed.

Lemma terminator_simulated t ss st x :
  terminator_ok t = true -> terminator_to_viper ctx t = Ok ss ->
  viper_execs ss st x <-> exists n, x = exit_of_next n /\ vir_terminator t st n.
Proof.
  intros Hok Hss. destruct t as [|l|g| |msg]; simpl in Hss.
  - injection Hss as <-. split; [|intros (n & _ & Hn); inversion Hn].
    inversion 1; subst; by edestruct inhale_false_blocks.
  - injection Hss as <-. rewrite goto_execs. split; [intros ->; exists (ToBlock l st); split; [done|constructor]|].
    intros (n & -> & Hn). by inversion Hn; subst.
  - rewrite goto_if_simulated by done. split.
    + destruct (select _ _ _ _ _) as [[os l]|] eqn:Hs; simpl.
      * intros (r & -> & Hr). exists (after l r). split; [apply jump_exit_after|]. by eapply vterm_goto_if.
      * intros ->. exists Fails. split; [done|]. by apply vterm_goto_if_undefined.
    + intros (n & -> & Hn). inversion Hn as [|? os l ? r Hs Hr|? ? Hs| |]; subst; rewrite Hs; simpl; [|done].
      exists r. split; [symmetry; apply jump_exit_after|done].
  - injection Hss as <-. rewrite single_execs. unfold AstFactory.comment. rewrite seqn_exec. split.
    + inversion 1; subst. exists (Done st). split; [done|constructor].
    + intros (n & -> & Hn). inversion Hn; subst. constructor.
  - injection Hss as <-. split.
    + inversion 1 as [|? ? ? st' ? Hx|? ? ? ? Hx]; subst; apply seqn_exec in Hx;
        inversion Hx as [|? ? ? st1 ? Hc Ha|? ? ? ? Hc Hs]; subst;
        (apply seqn_exec in Hc; inversion Hc; subst; try done);
        apply single_execs in Ha; inversion Ha as [| | | | | |? b ? Hb|]; subst; try discriminate;
        injection Hb as <-; simpl in *; try discriminate.
      exists Fails. split; [done|constructor].
    + intros (n & -> & Hn). inversion Hn; subst. simpl. apply execs_stop; [|done]. apply seqn_exec.
      eapply execs_cons; [apply seqn_exec; constructor|]. apply single_execs.
      by apply (exec_assert heap_fun atom Silver.FalseLit false).
Qed.

Lemma block_simulated blocks b ss st x :
  block_ok blocks b = true -> cfg_block_to_viper ctx b = Ok ss ->
  viper_execs ss st x <-> exists n, x = exit_of_next n /\ vir_block b st n.
Proof.
  unfold block_ok. intros [[[[_ Hstmts]%andb_true_iff _]%andb_true_iff Hterm]%andb_true_iff _]%andb_true_iff Hss.
  unfold cfg_block_to_viper in Hss.
  apply bind_Ok_inv in Hss as (l & Hl & (ss1 & Hss1 & (t & Ht & [= <-])%bind_Ok_inv)%bind_Ok_inv).
  change (l :: ss1 ++ t) with ([l] ++ ss1 ++ t). rewrite viper_execs_app.
  assert (forall y, viper_execs [l] st y <-> exists r, y = exit_of r /\ atom l st r) as Hlabel.
  { intros y. rewrite single_execs. apply viper_exec_atomic. unfold cfg_label_to_viper in Hl. by inv_outcome. }
  split.
  - intros [(st1 & (r & ->%exit_of_normal & Ha)%Hlabel & Hx)|[(r & -> & Ha)%Hlabel Hs]].
    2:{ destruct r; [done|]. exists Fails. split; [done|]. by eapply vblock_label_fail. }
    apply viper_execs_app in Hx as [(st2 & Hv & Hx)|[Hv Hs]];
      apply (stmts_simulated heap_fun atom ctx (block_stmts b)) in Hv as (r & Heq & Hv); try done.
    + apply exit_of_normal in Heq as ->. apply (terminator_simulated _ _ _ _ Hterm Ht) in Hx as (n & -> & Hn).
      exists n. split; [done|]. by eapply vblock_run.
    + subst x. destruct r; [done|]. exists Fails. split; [done|]. by eapply vblock_stmts_fail.
  - intros (n & -> & Hn).
    inversion Hn as [s ? st1 st2 ? Hs Ha Hv Hterm'|s ? st1 Hs Ha Hv|s ? Hs Ha]; subst;
      rewrite Hl in Hs; injection Hs as <-.
    + left. exists st1. split; [apply Hlabel; by exists (Some st1)|]. apply viper_execs_app. left. exists st2.
      split; [|apply (terminator_simulated _ _ _ _ Hterm Ht); by exists n].
      apply (stmts_simulated heap_fun atom ctx (block_stmts b)); [done..|]. by exists (Some st2).
    + left. exists st1. split; [apply Hlabel; by exists (Some st1)|]. apply viper_execs_app. right.
      split; [|done]. apply (stmts_simulated heap_fun atom ctx (block_stmts b)); [done..|]. by exists None.
    + right. split; [|done]. apply Hlabel. by exists None.
Qed.

(** ** Runs *)

(** What a run does after a part of the body that ended in [x], with [k] behind it. *)
Definition resumes (body k : list Silver.Stmt) (n : nat) (x : @exit VM H) (r : option state) : Prop :=
  match x with
  | Normal st => exists m, (m <= n)%nat /\ viper_run body m k st r
  | Jump l st => exists k' m, find_label l body = Some k' /\ (m < n)%nat /\ viper_run body m k' st r
  | Failed => r = None
  end.

Lemma run_part body ss k : forall n st r,
  viper_run body n (ss ++ k) st r -> exists x, viper_execs ss st x /\ resumes body k n x r.
Proof.
  induction ss as [|s ss IH]; intros n st r Hrun; simpl in Hrun.
  { exists (Normal st). split; [constructor|]. by exists n. }
  inversion Hrun as [|n' ? ? ? st' ? Hx Hk|n' ? ? l k' ? st' ? Hx Hf Hk|? ? ? Hx]; subst.
  - destruct (IH _ _ _ Hk) as (x & Hxs & Hr). exists x. split; [by eapply execs_cons|].
    destruct x; simpl in *; [|naive_solver lia|done]. destruct Hr as (m & ? & ?). exists m. split; [lia|done].
  - exists (Jump l st'). split; [by apply execs_stop|]. exists k', n'. split; [done|]. split; [lia|done].
  - exists Failed. split; [by apply execs_stop|done].
Qed.

Lemma part_runs body ss k : forall n st x r,
  viper_execs ss st x -> resumes body k n x r -> exists m, viper_run body m (ss ++ k) st r.
Proof.
  induction ss as [|s ss IH]; intros n st x r Hx Hr; simpl.
  { inversion Hx; subst. destruct Hr as (m & _ & Hr). by exists m. }
  inversion Hx as [|? ? ? st' ? Hs Hss|? ? ? ? Hs Hstop]; subst.
  - destruct (IH _ _ _ _ Hss Hr) as [m Hm]. exists (S m). by eapply run_next.
  - destruct x as [|l st'|]; [done| |].
    + destruct Hr as (k' & m & Hf & _ & Hm). exists (S m). by eapply run_jump.
    + simpl in Hr. subst r. exists 1%nat. by apply run_fail.
Qed.
End simulation.
