(* ===== verification/ViperGraph.v ===== *)
(** * Whole bodies

    The labels of a lowered body are those of its blocks, so that a jump of the
    Viper machine continues where the VIR machine enters a block; with
    [ViperBlocks], the runs of the two machines are the same. *)
From S2P Require Import Prelude Vir VirMake VirSem VirInt VirReify VirProgram ViperAst ViperLower ViperSem ViperRun ViperCfg ViperBlocks.

(** ** Labels in lowered code *)
Section labels.
Variable ctx : ToViperContext.

Abbreviation no_label name ss := (Forall (fun s => is_label name s = false) ss).

Lemma find_label_skip name ss k : no_label name ss -> find_label name (ss ++ k) = find_label name k.
Proof. induction 1 as [|s ss Hs _ IH]; simpl; [done|]. by rewrite Hs. Qed.

Lemma stmt_is_label name s s' :
  stmt_to_viper ctx s = Ok s' -> is_label name s' = true -> s = LabelStmt name.
Proof.
  intros Hs Hl. destruct s as [d [e|]| | | | | | | | | | | | |]; simpl in Hs; inv_outcome; try discriminate.
  simpl in Hl. apply bool_decide_eq_true in Hl. by subst.
Qed.

Lemma stmts_no_label blocks b ss ss' :
  b ∈ blocks -> forallb (foreign_label blocks) ss = true -> stmts_to_viper ctx ss = Ok ss' ->
  no_label (cfg_label_name (block_label b)) ss'.
Proof.
  intros Hb Hok Hss'. unfold stmts_to_viper in Hss'. rewrite collect_Ok in Hss'.
  revert Hok. induction Hss' as [|s s' ss ss' Hs _ IH]; simpl; intros Hok; constructor.
  - apply andb_true_iff in Hok as [Hs' _]. destruct (is_label _ s') eqn:Hl; [|done].
    apply (stmt_is_label _ _ _ Hs) in Hl as ->. simpl in Hs'. rewrite forallb_forall in Hs'.
    specialize (Hs' b). rewrite <- list_elem_of_In in Hs'. specialize (Hs' Hb).
    by apply negb_true_iff, bool_decide_eq_false in Hs'.
  - apply IH. by apply andb_true_iff in Hok as [_ Hok].
Qed.

Lemma jump_no_label blocks b ss l ss' :
  b ∈ blocks -> forallb (foreign_label blocks) ss = true -> jump_to_viper ctx ss l = Ok ss' ->
  no_label (cfg_label_name (block_label b)) ss'.
Proof.
  unfold jump_to_viper. intros Hb Hok Hss'. inv_outcome. apply Forall_app. split; [|by repeat constructor].
  by eapply stmts_no_label.
Qed.

Lemma goto_chain_no_label name value targets s0 s :
  is_label name s0 = false -> goto_chain ctx value targets s0 = Ok s -> is_label name s = false.
Proof. destruct targets; simpl; intros Hs0 Hs; inv_outcome; done. Qed.

Lemma flat_no_label blocks b b' ss1 t :
  b ∈ blocks -> forallb (foreign_label blocks) (flat_stmts b') = true ->
  stmts_to_viper ctx (block_stmts b') = Ok ss1 -> terminator_to_viper ctx (block_terminator b') = Ok t ->
  no_label (cfg_label_name (block_label b)) (ss1 ++ t).
Proof.
  unfold flat_stmts. rewrite forallb_app. intros Hb [Hok Hok']%andb_true_iff Hss1 Ht.
  apply Forall_app. split; [exact (stmts_no_label _ _ _ _ Hb Hok Hss1)|].
  destruct (block_terminator b') as [|l|[v ts o os]| |msg]; simpl in Ht; try (inv_outcome; by repeat constructor).
  unfold goto_if_to_viper in Ht. simpl in Ht. destruct ts as [|t0 ts];
    [exact (jump_no_label _ _ _ _ _ Hb Hok' Ht)|].
  apply bind_Ok_inv in Ht as (v' & Hv & (os' & Hos & (s & Hs & [= <-])%bind_Ok_inv)%bind_Ok_inv).
  repeat constructor. by apply (goto_chain_no_label _ v' (t0 :: ts) (AstFactory.seqn os' [])).
Qed.

(** Where a jump to a label continues: at the first block of that label. *)
Lemma find_label_blocks all l blocks sss :
  l ∈ (block_label <$> all) -> wf_label l = true -> forallb (block_ok all) blocks = true ->
  Forall2 (fun b ss => cfg_block_to_viper ctx b = Ok ss) blocks sss ->
  match find_block l blocks with
  | Some b => exists blocks1 blocks2 ss sss2,
      blocks = blocks1 ++ b :: blocks2 /\ block_label b = l /\
      Forall2 (fun b ss => cfg_block_to_viper ctx b = Ok ss) (b :: blocks2) (ss :: sss2) /\
      find_label (cfg_label_name l) (mjoin sss) = Some (mjoin (ss :: sss2))
  | None => find_label (cfg_label_name l) (mjoin sss) = None
  end.
Proof.
  intros Hl Hwf Hok Hsss. revert Hok. induction Hsss as [|b ss blocks sss Hb Hsss IH]; [done|].
  simpl. intros [Hbok Hok]%andb_true_iff. specialize (IH Hok).
  unfold block_ok in Hbok. apply andb_true_iff in Hbok as [[[[Hwfb _]%andb_true_iff Hforeign]%andb_true_iff _]%andb_true_iff _].
  pose proof Hb as Hb'. unfold cfg_block_to_viper in Hb'.
  apply bind_Ok_inv in Hb' as (lb & Hlb & (ss1 & Hss1 & (t & Ht & [= <-])%bind_Ok_inv)%bind_Ok_inv).
  unfold cfg_label_to_viper in Hlb. apply bind_Ok_inv in Hlb as (invs & _ & [= <-]).
  unfold find_block. simpl. case_bool_decide as Heq; simpl.
  - exists [], blocks, (AstFactory.label (cfg_label_name (block_label b)) invs :: ss1 ++ t), sss.
    split; [done|]. split; [done|]. split; [by constructor|].
    rewrite bool_decide_true by (by rewrite Heq). done.
  - rewrite bool_decide_false by (intros Hname; by apply cfg_label_name_inj in Hname).
    apply list_elem_of_fmap in Hl as (b0 & -> & Hb0).
    assert (find_label (cfg_label_name (block_label b0)) ((ss1 ++ t) ++ mjoin sss) =
            find_label (cfg_label_name (block_label b0)) (mjoin sss)) as Hskip
      by (apply find_label_skip; by eapply flat_no_label).
    unfold find_block in IH. destruct (List.find _ blocks) as [b'|]; [|by etrans].
    destruct IH as (blocks1 & blocks2 & ss' & sss2 & -> & Hb'l & Hrest & Hfind).
    exists (b :: blocks1), blocks2, ss', sss2. split; [done|]. split; [done|]. split; [done|]. by etrans.
Qed.

Lemma find_block_some l blocks b :
  find_block l blocks = Some b -> block_label b = l /\ b ∈ blocks.
Proof.
  unfold find_block. intros Hf. apply find_some in Hf as [Hin Hl%bool_decide_eq_true].
  split; [done|]. by apply list_elem_of_In.
Qed.

Lemma find_block_nodup blocks b :
  NoDup (block_label <$> blocks) -> b ∈ blocks -> find_block (block_label b) blocks = Some b.
Proof.
  unfold find_block. induction blocks as [|b' blocks IH]; simpl; [by intros _ ?%not_elem_of_nil|].
  intros [Hnot Hnd]%NoDup_cons [->|Hb]%elem_of_cons; [by rewrite bool_decide_true|].
  rewrite bool_decide_false; [by apply IH|]. intros Heq. apply Hnot. rewrite Heq.
  by apply list_elem_of_fmap_2.
Qed.
End labels.

(** ** Runs of bodies *)
Section runs.
Context {VM : ViperModel} {H : Type}.
Variable heap_fun : H -> string -> list (value domain_value) -> option (value domain_value).
Variable atom : Silver.Stmt -> state H -> option (state H) -> Prop.
Variable ctx : ToViperContext.
Abbreviation viper_run := (viper_run heap_fun atom).
Abbreviation vir_block := (vir_block heap_fun atom ctx).
Abbreviation vir_run := (vir_run heap_fun atom ctx).

Lemma select_target st value targets otherwise ss l :
  select heap_fun st value targets otherwise = Some (ss, l) -> l ∈ otherwise.2 :: (target_label <$> targets).
Proof.
  induction targets as [|t targets IH]; simpl; [intros [= ->]; set_solver|].
  destruct (vir_value heap_fun st value); simpl; [|done].
  destruct (vir_value heap_fun st (target_value t)); simpl; [|done].
  case_bool_decide; [intros [= _ <-]; set_solver|]. intros Hl%IH. set_solver.
Qed.

Lemma block_target b st l st' :
  vir_block b st (ToBlock l st') -> l ∈ terminator_targets (block_terminator b).
Proof.
  inversion 1 as [s ? st1 st2 ? Hs Ha Hv Ht| |]; subst.
  inversion Ht as [|g ss l0 ? r Hsel Hr| | |]; subst; simpl; [set_solver|].
  destruct r; simplify_eq/=. by apply select_target in Hsel.
Qed.

Lemma block_done b st st' : vir_block b st (Done st') -> block_terminator b = TermExit.
Proof.
  inversion 1 as [s ? st1 st2 ? Hs Ha Hv Ht| |]; subst.
  inversion Ht as [|g ss l0 ? r Hsel Hr| | |]; subst; [by destruct r|done].
Qed.

Variable blocks : list CfgBlockGenData.
Variable sss : list (list Silver.Stmt).
Hypothesis Hlowered : Forall2 (fun b ss => cfg_block_to_viper ctx b = Ok ss) blocks sss.
Hypothesis Hok : graph_ok blocks = true.

Lemma graph_nodup : NoDup (block_label <$> blocks).
Proof.
  unfold graph_ok in Hok. apply andb_true_iff in Hok as [[Hnd _]%andb_true_iff _].
  by apply bool_decide_eq_true in Hnd.
Qed.

Lemma graph_block b : b ∈ blocks -> block_ok blocks b = true.
Proof.
  unfold graph_ok in Hok. apply andb_true_iff in Hok as [_ Hall]. rewrite forallb_forall in Hall.
  intros Hb. by apply Hall, list_elem_of_In.
Qed.

(** A label of the graph, as a place in the lowered body. *)
Lemma graph_label l : l ∈ (block_label <$> blocks) ->
  exists blocks1 b blocks2 ss sss2, find_block l blocks = Some b /\ block_label b = l /\
    blocks = blocks1 ++ b :: blocks2 /\
    Forall2 (fun b ss => cfg_block_to_viper ctx b = Ok ss) (b :: blocks2) (ss :: sss2) /\
    find_label (cfg_label_name l) (mjoin sss) = Some (mjoin (ss :: sss2)).
Proof.
  intros Hl. pose proof Hok as Hall. unfold graph_ok in Hall. apply andb_true_iff in Hall as [_ Hall].
  assert (wf_label l = true) as Hwf.
  { apply list_elem_of_fmap in Hl as (b & -> & Hb). apply graph_block in Hb. unfold block_ok in Hb.
    by repeat apply andb_true_iff in Hb as [Hb _]. }
  pose proof (find_label_blocks ctx blocks l blocks sss Hl Hwf Hall Hlowered) as Hfind.
  assert (exists b, find_block l blocks = Some b) as [b Hb].
  { apply list_elem_of_fmap in Hl as (b & -> & Hb). exists b. by apply find_block_nodup; [apply graph_nodup|]. }
  rewrite Hb in Hfind. destruct Hfind as (blocks1 & blocks2 & ss & sss2 & -> & Hlb & Hss & Hf).
  by exists blocks1, b, blocks2, ss, sss2.
Qed.

Lemma target_label_in b st l st' :
  b ∈ blocks -> vir_block b st (ToBlock l st') -> l ∈ (block_label <$> blocks).
Proof.
  intros Hb Hl%block_target. apply graph_block in Hb. unfold block_ok in Hb.
  apply andb_true_iff in Hb as [_ Ht%bool_decide_eq_true]. rewrite Forall_forall in Ht. by apply Ht.
Qed.

Lemma viper_to_vir n : forall blocks1 b blocks2 ss sss2 st r,
  blocks = blocks1 ++ b :: blocks2 ->
  Forall2 (fun b ss => cfg_block_to_viper ctx b = Ok ss) (b :: blocks2) (ss :: sss2) ->
  viper_run (mjoin sss) n (mjoin (ss :: sss2)) st r -> vir_run blocks (block_label b) st r.
Proof.
  induction (lt_wf n) as [n _ IH]. intros blocks1 b blocks2 ss sss2 st r Hblocks Hsuffix Hrun.
  assert (b ∈ blocks) as Hb by (rewrite Hblocks; set_solver).
  pose proof (find_block_nodup blocks b graph_nodup Hb) as Hfind.
  pose proof Hsuffix as Hs. apply Forall2_cons in Hs as [Hss Hrest].
  simpl in Hrun. destruct (run_part _ _ _ _ _ _ _ _ Hrun) as (x & Hx & Hr).
  apply (block_simulated heap_fun atom ctx _ b ss st x (graph_block b Hb) Hss) in Hx as (nx & -> & Hnx).
  destruct nx as [l st'|st'|]; simpl in Hr.
  - destruct Hr as (k' & m & Hf & Hm & Hrun').
    destruct (graph_label l (target_label_in _ _ _ _ Hb Hnx))
      as (bs1 & b' & bs2 & ss' & sss2' & Hfb & Hl & Hbs & Hsuffix' & Hf').
    rewrite Hf' in Hf. injection Hf as <-. eapply vrun_step; [done..|]. rewrite <- Hl. by eapply IH.
  - pose proof (block_done _ _ _ Hnx) as Hexit.
    pose proof Hok as Hlast. unfold graph_ok in Hlast. apply andb_true_iff in Hlast as [[_ Hlast]%andb_true_iff _].
    rewrite Hblocks in Hlast. apply exits_last_app in Hlast; [|done]. subst blocks2.
    apply Forall2_nil_inv_l in Hrest as ->.
    destruct Hr as (m & _ & Hend). simpl in Hend. inversion Hend; subst. by eapply vrun_exit.
  - subst r. by eapply vrun_fail.
Qed.

Lemma vir_to_viper l st r : vir_run blocks l st r -> forall blocks1 b blocks2 ss sss2,
  blocks = blocks1 ++ b :: blocks2 -> block_label b = l ->
  Forall2 (fun b ss => cfg_block_to_viper ctx b = Ok ss) (b :: blocks2) (ss :: sss2) ->
  exists n, viper_run (mjoin sss) n (mjoin (ss :: sss2)) st r.
Proof.
  induction 1 as [l l' b0 st st' r Hfind Hnx _ IH|l b0 st st' Hfind Hnx|l b0 st Hfind Hnx];
    intros blocks1 b blocks2 ss sss2 Hblocks <- Hsuffix;
    assert (b ∈ blocks) as Hb by (rewrite Hblocks; set_solver);
    rewrite (find_block_nodup blocks b graph_nodup Hb) in Hfind; injection Hfind as <-;
    apply Forall2_cons in Hsuffix as [Hss Hrest]; simpl.
  - destruct (graph_label l' (target_label_in _ _ _ _ Hb Hnx))
      as (bs1 & b' & bs2 & ss' & sss2' & Hfb & Hl & Hbs & Hsuffix' & Hf').
    destruct (IH _ _ _ _ _ Hbs Hl Hsuffix') as [n Hn].
    eapply (part_runs heap_fun atom _ ss _ (S n) st (Jump (cfg_label_name l') st')).
    + apply (block_simulated heap_fun atom ctx _ b ss st _ (graph_block b Hb) Hss). by exists (ToBlock l' st').
    + exists (mjoin (ss' :: sss2')), n. split; [done|]. split; [lia|done].
  - pose proof (block_done _ _ _ Hnx) as Hexit.
    pose proof Hok as Hlast. unfold graph_ok in Hlast. apply andb_true_iff in Hlast as [[_ Hlast]%andb_true_iff _].
    rewrite Hblocks in Hlast. apply exits_last_app in Hlast; [|done]. subst blocks2.
    apply Forall2_nil_inv_l in Hrest as ->.
    eapply (part_runs heap_fun atom _ ss _ 0 st (Normal st')).
    + apply (block_simulated heap_fun atom ctx _ b ss st _ (graph_block b Hb) Hss). by exists (Done st').
    + exists 0. split; [lia|constructor].
  - eapply (part_runs heap_fun atom _ ss _ 0 st Failed); [|done].
    apply (block_simulated heap_fun atom ctx _ b ss st _ (graph_block b Hb) Hss). by exists (Fails).
Qed.
End runs.

Lemma body_parts ctx blocks ss ds info :
  method_body_to_viper ctx blocks = Ok (Silver.Seqn ss ds info) ->
  exists sss, ss = mjoin sss /\ Forall2 (fun b ss => cfg_block_to_viper ctx b = Ok ss) blocks sss.
Proof.
  unfold method_body_to_viper. intros (parts & Hparts & [= <- _ _])%bind_Ok_inv. exists (fst <$> parts).
  split; [done|]. apply Forall2_fmap_r. rewrite collect_Ok in Hparts. eapply Forall2_impl; [exact Hparts|].
  intros b0 [ss ds'] Hb0. simpl in *. by inv_outcome.
Qed.

(** The two machines have the same results from the entry of a method. *)
Lemma body_runs {VM : ViperModel} {H : Type}
    (heap_fun : H -> string -> list (value domain_value) -> option (value domain_value))
    (atom : Silver.Stmt -> state H -> option (state H) -> Prop) ctx b blocks body ds info st r :
  method_body_to_viper ctx (b :: blocks) = Ok (Silver.Seqn body ds info) -> graph_ok (b :: blocks) = true ->
  vir_run heap_fun atom ctx (b :: blocks) (block_label b) st r <->
  exists n, viper_run heap_fun atom body n body st r.
Proof.
  intros Hbody Hok. destruct (body_parts _ _ _ _ _ Hbody) as (sss & -> & Hsss).
  inversion Hsss as [|? ss ? sss2 Hss Hrest]; subst. split.
  - intros Hrun. by eapply (vir_to_viper heap_fun atom ctx (b :: blocks) (ss :: sss2) Hsss Hok _ _ _ Hrun []).
  - intros [n Hrun]. by eapply (viper_to_vir heap_fun atom ctx (b :: blocks) (ss :: sss2) Hsss Hok n []).
Qed.
