(* ===== verification/ViperTyped.v ===== *)
(** * Well-formed programs are lowered, and keep their types

    The lowering panics on types that are not declared, lazy nodes, collection
    operations on other types, ... [well_formed] is a checker of VIR expressions;
    what it accepts is lowered without a panic, to an expression that has in Viper
    the type that VIR computed for it. At the level of programs, the owners that
    domain functions and axioms look up are their own domains. *)
From S2P Require Import Prelude Vir VirMake VirProgram ViperAst ViperLower.
Local Open Scope Z_scope.

(** ** Types of Viper expressions

    [Exp.typ] of the classes of the syntax tree. *)
Fixpoint viper_typ (e : Silver.Exp) : option Silver.Typ :=
  match e with
  | Silver.Add _ _ | Silver.Sub _ _ | Silver.Mul _ _ | Silver.Div _ _ | Silver.Mod _ _
  | Silver.IntLit _ | Silver.Minus _ | Silver.SeqLength _ | Silver.MapCardinality _
  | Silver.AnySetCardinality _ => Some Silver.Int
  | Silver.LtCmp _ _ | Silver.LeCmp _ _ | Silver.GtCmp _ _ | Silver.GeCmp _ _ | Silver.EqCmp _ _
  | Silver.NeCmp _ _ | Silver.Or _ _ | Silver.And _ _ | Silver.Implies _ _ | Silver.Not _
  | Silver.TrueLit | Silver.FalseLit | Silver.FieldAccessPredicate _ _ | Silver.PredicateAccessPredicate _ _
  | Silver.InhaleExhaleExp _ _ | Silver.Forall _ _ _ | Silver.Exists _ _ _
  | Silver.SeqContains _ _ | Silver.MapContains _ _ | Silver.AnySetSubset _ _
  | Silver.AdtDiscriminatorApp _ _ _ _ => Some Silver.Bool
  | Silver.MagicWand _ _ => Some Silver.Wand
  | Silver.NullLit => Some Silver.Ref
  | Silver.WildcardPerm | Silver.FullPerm | Silver.NoPerm | Silver.EpsilonPerm | Silver.PermPermDiv _ _
  | Silver.PermMinus _ | Silver.PermAdd _ _ | Silver.PermSub _ _ | Silver.PermMul _ _ => Some Silver.Perm
  | Silver.FuncApp _ _ typ | Silver.DomainFuncApp _ _ _ typ _ | Silver.BackendFuncApp _ _ typ _
  | Silver.AdtConstructorApp _ _ _ typ _ | Silver.AdtDestructorApp _ _ _ typ _
  | Silver.LocalVar _ typ | Silver.Result typ => Some typ
  | Silver.FieldAccess _ f => Some (Silver.f_typ f)
  | Silver.CondExp _ t _ => viper_typ t
  | Silver.Unfolding _ e | Silver.Old e | Silver.LabelledOld e _ | Silver.Let _ _ e => viper_typ e
  | Silver.EmptySeq t => Some (Silver.SeqType t)
  | Silver.EmptySet t => Some (Silver.SetType t)
  | Silver.EmptyMultiset t => Some (Silver.MultisetType t)
  | Silver.EmptyMap k v => Some (Silver.MapType k v)
  | Silver.ExplicitSeq (e :: _) => Silver.SeqType <$> viper_typ e
  | Silver.ExplicitSet (e :: _) => Silver.SetType <$> viper_typ e
  | Silver.ExplicitMultiset (e :: _) => Silver.MultisetType <$> viper_typ e
  | Silver.SeqAppend l _ | Silver.SeqTake l _ | Silver.SeqDrop l _ | Silver.SeqUpdate l _ _
  | Silver.AnySetUnion l _ | Silver.AnySetIntersection l _ | Silver.AnySetMinus l _
  | Silver.MapUpdate l _ _ => viper_typ l
  | Silver.SeqIndex s _ => match viper_typ s with Some (Silver.SeqType t) => Some t | _ => None end
  | Silver.MapLookup m _ => match viper_typ m with Some (Silver.MapType _ v) => Some v | _ => None end
  | Silver.MapDomain m => match viper_typ m with Some (Silver.MapType k _) => Some (Silver.SetType k) | _ => None end
  | Silver.MapRange m => match viper_typ m with Some (Silver.MapType _ v) => Some (Silver.SetType v) | _ => None end
  | Silver.AnySetContains _ s =>
      match viper_typ s with Some (Silver.MultisetType _) => Some Silver.Int | _ => Some Silver.Bool end
  | _ => None
  end.

(** ** Well-formed types and expressions *)
Section checker.
Variable ctx : ToViperContext.

(** The number of parameters of the one declaration of a type name. *)
Definition type_arity (name : string) : option nat :=
  match ctx_domains ctx !! name, ctx_adts ctx !! name with
  | Some d, None => Some (length (domain_typarams d))
  | None, Some a => Some (length (adt_typarams a))
  | _, _ => None
  end.

Fixpoint wf_type (t : TypeKind) : bool :=
  match t with
  | TInt | TBool | TRef | TPerm | TDomainTypeParam _ _ => true
  | TDomain name params =>
      bool_decide (type_arity name = Some (length params)) && forallb wf_type params
  | TSet t | TMultiset t | TSeq t => wf_type t
  | TMap k v => wf_type k && wf_type v
  | TUnsupported _ | TErr => false
  end.

Definition wf_decl (d : LocalDecl) : bool := wf_type (decl_ty d).

Definition is_adt (t : TypeKind) : bool :=
  match t with
  | TDomain name _ => bool_decide (is_Some (ctx_adts ctx !! name)) && wf_type t
  | _ => false
  end.

Definition wf_binop (kind : BinOpKind) (l r : TypeKind) : bool :=
  let both t := bool_decide (l = t) && bool_decide (r = t) in
  match kind with
  | CmpEq | CmpNe => bool_decide (l = r)
  | CmpGt | CmpLt | CmpGe | CmpLe | Add | Sub | Mul | Div | Mod => both TInt
  | And | Or | Implies => both TBool
  | PermAdd | PermSub | PermMul | PermPermDiv => both TPerm
  end.

Definition wf_unop (kind : UnOpKind) (t : TypeKind) : bool :=
  bool_decide (t = match kind with Neg => TInt | PermNeg => TPerm | Not => TBool end).

Definition wf_collection_binop (kind : CollectionBinOpKind) (l r : TypeKind) : bool :=
  match kind, l, r with
  | Contains, _, (TSet t | TMultiset t | TSeq t) => bool_decide (l = t)
  | Contains, _, TMap k _ => bool_decide (l = k)
  | Index, TSeq _, _ => bool_decide (r = TInt)
  | Index, TMap k _, _ => bool_decide (r = k)
  | (Union | Intersection | Difference | Subset), (TSet _ | TMultiset _), _ => bool_decide (l = r)
  | Concat, TSeq _, _ => bool_decide (l = r)
  | (Take | Drop), TSeq _, _ => bool_decide (r = TInt)
  | _, _, _ => false
  end.

Definition wf_literal (ty : TypeKind) (values : list TypeKind) : bool :=
  wf_type ty &&
  match ty with
  | TSet t | TMultiset t | TSeq t => forallb (fun u => bool_decide (u = t)) values
  | TMap _ _ => bool_decide (values = [])
  | _ => false
  end.

Definition wf_update (target key val : TypeKind) : bool :=
  match target with
  | TMap k v => bool_decide (key = k) && bool_decide (val = v)
  | TSeq t => bool_decide (key = TInt) && bool_decide (val = t)
  | _ => false
  end.

Definition is_collection (t : TypeKind) : bool :=
  match t with TSet _ | TMultiset _ | TSeq _ | TMap _ _ => true | _ => false end.

Definition is_map (t : TypeKind) : bool := match t with TMap _ _ => true | _ => false end.

(** The type arguments an application brings, and its result type. *)
Definition wf_app (target : string) (result_ty : TypeKind) (typ_var_map : list TypeKind) : bool :=
  wf_type result_ty && forallb wf_type typ_var_map &&
  match ctx_domain_functions ctx !! target with
  | Some (domain, _) => bool_decide (length (domain_typarams domain) = length typ_var_map)
  | None =>
      bool_decide (length typ_var_map = 0%nat) &&
      match ctx_adt_constructors ctx !! target with Some _ => is_adt result_ty | None => true end
  end.

Fixpoint well_formed (e : Expr) {struct e} : bool :=
  let perm (o : option Expr) :=
    match o with Some p => well_formed p && bool_decide (Expr_ty p = TPerm) | None => true end in
  let bools l r := well_formed l && well_formed r && bool_decide (Expr_ty l = TBool) && bool_decide (Expr_ty r = TBool) in
  let quantified qvars triggers body :=
    forallb wf_decl qvars && forallb (forallb well_formed) triggers && well_formed body &&
    bool_decide (Expr_ty body = TBool) in
  match e with
  | Local _ ty | Result_ ty => wf_type ty
  | Const _ => true
  | Field recv _ fty => well_formed recv && bool_decide (Expr_ty recv = TRef) && wf_type fty
  | AccField recv _ fty p => well_formed recv && bool_decide (Expr_ty recv = TRef) && wf_type fty && perm p
  | Old e _ => well_formed e
  | Unfolding _ args p e => forallb well_formed args && perm p && well_formed e
  | PredicateApp _ args p => forallb well_formed args && perm p
  | UnOp kind e => well_formed e && wf_unop kind (Expr_ty e)
  | BinOp kind l r => well_formed l && well_formed r && wf_binop kind (Expr_ty l) (Expr_ty r)
  | CollectionBinOp kind l r =>
      well_formed l && well_formed r && wf_collection_binop kind (Expr_ty l) (Expr_ty r)
  | CollectionLiteral values ty => forallb well_formed values && wf_literal ty (map Expr_ty values)
  | CollectionUpdate t k v =>
      well_formed t && well_formed k && well_formed v && wf_update (Expr_ty t) (Expr_ty k) (Expr_ty v)
  | CollectionLen c => well_formed c && is_collection (Expr_ty c)
  | MapDomain m | MapRange m => well_formed m && is_map (Expr_ty m)
  | Ternary c t e =>
      well_formed c && well_formed t && well_formed e && bool_decide (Expr_ty c = TBool) &&
      bool_decide (Expr_ty t = Expr_ty e)
  | Exists_ qvars triggers body | Forall_ qvars triggers body => quantified qvars triggers body
  | Let _ val e => well_formed val && well_formed e
  | FuncApp target args ty tys => forallb well_formed args && wf_app target ty tys
  | Wand l r | InhaleExhale l r => bools l r
  | AdtDestructor e _ _ ty => well_formed e && is_adt (Expr_ty e) && wf_type ty
  | AdtDiscriminator e name =>
      well_formed e && is_adt (Expr_ty e) && bool_decide (is_Some (ctx_adt_constructors ctx !! name))
  | Lazy _ _ | Todo _ => false
  end.
End checker.

(** Magic wands are assertions: VIR types them as booleans, Viper has a type of
    its own for them. *)
Fixpoint assertion_typ (t : Silver.Typ) : Silver.Typ :=
  match t with
  | Silver.Wand => Silver.Bool
  | Silver.SetType t => Silver.SetType (assertion_typ t)
  | Silver.MultisetType t => Silver.MultisetType (assertion_typ t)
  | Silver.SeqType t => Silver.SeqType (assertion_typ t)
  | Silver.MapType k v => Silver.MapType (assertion_typ k) (assertion_typ v)
  | _ => t
  end.

(** Facts about conjunctions of checks. *)
Ltac checks :=
  repeat match goal with
  | H : _ && _ = true |- _ => apply andb_true_iff in H as [? H]
  | H : bool_decide _ = true |- _ => apply bool_decide_eq_true in H
  end.

Section preservation.
Variable ctx : ToViperContext.
Abbreviation lowers := (expr_to_viper ctx).
Abbreviation wf_type := (wf_type ctx).
Abbreviation well_formed := (well_formed ctx).

(** ** Types *)
Lemma wf_type_lowers t : wf_type t = true -> exists T, type_to_viper ctx t = Ok T /\ assertion_typ T = T.
Proof.
  induction t as [| |n i|name ps Hps| | |t IH|t IH|t IH|k IHk v IHv|n|]; simpl; intros Hwf; try done;
    try (eexists; split; [done|done]).
  - apply andb_true_iff in Hwf as [Har%bool_decide_eq_true Hwfs]. unfold type_arity in Har.
    assert (exists tps kind, resolve_type ctx name = Ok (tps, kind) /\ length tps = length ps) as (tps & kind & -> & Hl).
    { unfold resolve_type. destruct (ctx_domains ctx !! name), (ctx_adts ctx !! name); simplify_eq; by eexists _, _. }
    apply list_all_Forall in Hps. simpl.
    match goal with |- exists T, (?z ps tps ≫= _) = _ /\ _ =>
      assert (exists m, z ps tps = Ok m) as [m Hm] end.
    { clear Hl Har. revert tps Hwfs. induction Hps as [|p ps Hp _ IHps]; intros [|tp tps] Hwfs; try by eexists.
      simpl in Hwfs. apply andb_true_iff in Hwfs as [Hwfp Hwfs]. destruct (Hp Hwfp) as (T & HT & _).
      destruct (IHps tps Hwfs) as [m Hm]. rewrite HT. simpl. rewrite Hm. by eexists. }
    rewrite Hm. simpl. by destruct kind as [[|]|]; eexists.
  - destruct (IH Hwf) as (T & -> & HT). simpl. eexists; split; [done|]. simpl. by rewrite HT.
  - destruct (IH Hwf) as (T & -> & HT). simpl. eexists; split; [done|]. simpl. by rewrite HT.
  - destruct (IH Hwf) as (T & -> & HT). simpl. eexists; split; [done|]. simpl. by rewrite HT.
  - apply andb_true_iff in Hwf as [Hk Hv]. destruct (IHk Hk) as (K & -> & HK), (IHv Hv) as (V & -> & HV).
    simpl. eexists; split; [done|]. simpl. by rewrite HK, HV.
Qed.

Lemma type_map_lowers tps ts : forallb wf_type ts = true -> exists m, type_map ctx tps ts = Ok m.
Proof.
  unfold type_map. revert tps. induction ts as [|t ts IH]; intros [|tp tps]; simpl; try by eexists.
  intros [Ht Hts]%andb_true_iff. destruct (wf_type_lowers t Ht) as (T & -> & _), (IH tps Hts) as [m Hm].
  simpl. rewrite Hm. by eexists.
Qed.

Lemma is_adt_lowers t : is_adt ctx t = true -> exists m, adt_type_map ctx t = Ok m.
Proof.
  destruct t as [| | |name ps| | | | | | | |]; try done. simpl.
  intros [[a Ha]%bool_decide_eq_true [Har%bool_decide_eq_true Hps]%andb_true_iff]%andb_true_iff.
  rewrite Ha. simpl. unfold type_arity in Har. rewrite Ha in Har.
  destruct (ctx_domains ctx !! name); simplify_eq/=. rewrite bool_decide_true by done. by apply type_map_lowers.
Qed.

Lemma is_adt_wf t : is_adt ctx t = true -> wf_type t = true.
Proof. destruct t; try done. simpl. by intros [_ Hwf]%andb_true_iff. Qed.

Lemma wf_decls_lower ds : forallb (wf_decl ctx) ds = true -> exists vs, collect (local_decl_to_viper ctx) ds = Ok vs.
Proof.
  induction ds as [|d ds IH]; simpl; [by eexists|]. intros [Hd Hds]%andb_true_iff.
  destruct (wf_type_lowers _ Hd) as (T & HT & _), (IH Hds) as [vs Hvs].
  assert (local_decl_to_viper ctx d = Ok (AstFactory.local_var_decl (decl_name d) T)) as ->
    by (unfold local_decl_to_viper; by rewrite HT).
  simpl. rewrite Hvs. by eexists.
Qed.

(** ** Expressions *)
Definition lowers_typed (e : Expr) (e' : Silver.Exp) (T : Silver.Typ) : Prop :=
  lowers e = Ok e' /\ type_to_viper ctx (Expr_ty e) = Ok T /\ assertion_typ <$> viper_typ e' = Some T.

Definition preserved (e : Expr) : Prop := well_formed e = true -> exists e' T, lowers_typed e e' T.

Lemma preserved_list es : Forall preserved es -> forallb well_formed es = true ->
  exists es', collect lowers es = Ok es' /\ Forall2 (fun e e' => exists T, lowers_typed e e' T) es es'.
Proof.
  induction 1 as [|e es He _ IH]; simpl; [intros _; exists []; by split|].
  intros [Hwf Hwfs]%andb_true_iff. destruct (He Hwf) as (e' & T & Hl), (IH Hwfs) as (es' & Hes' & Hall).
  exists (e' :: es'). destruct Hl as (Hl & HT & Htyp). rewrite Hl. simpl. rewrite Hes'. split; [done|].
  constructor; [|done]. exists T. by split.
Qed.

Lemma preserved_triggers ts : Forall (Forall preserved) ts -> forallb (forallb well_formed) ts = true ->
  exists ts', collect (fun es => AstFactory.trigger <$> collect lowers es) ts = Ok ts'.
Proof.
  induction 1 as [|es ts Hes _ IH]; simpl; [by eexists|]. intros [Hwf Hwfs]%andb_true_iff.
  destruct (preserved_list es Hes Hwf) as (es' & -> & _), (IH Hwfs) as [ts' Hts']. simpl. rewrite Hts'. by eexists.
Qed.

Lemma preserved_opt (o : option Expr) : option_all Expr preserved o ->
  (match o with Some p => well_formed p && bool_decide (Expr_ty p = TPerm) | None => true end) = true ->
  exists o', (match o with Some e => Some <$> lowers e | None => Ok None end) = Ok o'.
Proof.
  intros [e He|]; [|by eexists]. intros [Hwf _]%andb_true_iff.
  destruct (He Hwf) as (e' & T & Hl & _). rewrite Hl. by eexists.
Qed.

(** A node whose type is known once its parts are lowered. *)
Lemma typed_node e e' T :
  lowers e = Ok e' -> type_to_viper ctx (Expr_ty e) = Ok T -> assertion_typ <$> viper_typ e' = Some T ->
  exists e' T, lowers_typed e e' T.
Proof. intros. by exists e', T. Qed.

Lemma typed_wf_node e e' ty :
  lowers e = Ok e' -> Expr_ty e = ty -> wf_type ty = true ->
  (forall T, type_to_viper ctx ty = Ok T -> viper_typ e' = Some T) -> exists e' T, lowers_typed e e' T.
Proof.
  intros Hl <- Hwf Htyp. destruct (wf_type_lowers _ Hwf) as (T & HT & Ha). exists e', T.
  split; [done|]. split; [done|]. rewrite (Htyp T HT). simpl. by rewrite Ha.
Qed.
Lemma const_preserved c : preserved (Const c).
Proof.
  intros _. destruct c as [[]|z| |]; eapply typed_node; try reflexivity.
  simpl. unfold const_to_viper. by case_match.
Qed.

Lemma binop_preserved kind l r : preserved l -> preserved r -> preserved (BinOp kind l r).
Proof.
  intros Hl Hr Hwf. simpl in Hwf. apply andb_true_iff in Hwf as [[Hwl Hwr]%andb_true_iff Hk].
  destruct (Hl Hwl) as (l' & Tl & Hl' & _), (Hr Hwr) as (r' & Tr & Hr' & _).
  destruct kind; eapply typed_node; simpl; rewrite ?Hl', ?Hr'; reflexivity.
Qed.

Lemma unop_preserved kind e : preserved e -> preserved (UnOp kind e).
Proof.
  intros He Hwf. simpl in Hwf. apply andb_true_iff in Hwf as [Hw Hk%bool_decide_eq_true].
  destruct (He Hw) as (e' & T & He' & HT & _).
  destruct kind; eapply typed_node; simpl; rewrite ?He', ?Hk; reflexivity.
Qed.

(** The types of collections, seen through [assertion_typ]. *)
Lemma lowered_collection e e' T :
  lowers_typed e e' T ->
  match Expr_ty e with
  | TSet t => exists U V, type_to_viper ctx t = Ok U /\ T = Silver.SetType U /\
      viper_typ e' = Some (Silver.SetType V) /\ assertion_typ V = U
  | TMultiset t => exists U V, type_to_viper ctx t = Ok U /\ T = Silver.MultisetType U /\
      viper_typ e' = Some (Silver.MultisetType V) /\ assertion_typ V = U
  | TSeq t => exists U V, type_to_viper ctx t = Ok U /\ T = Silver.SeqType U /\
      viper_typ e' = Some (Silver.SeqType V) /\ assertion_typ V = U
  | TMap k v => exists K L K' L', type_to_viper ctx k = Ok K /\ type_to_viper ctx v = Ok L /\
      T = Silver.MapType K L /\ viper_typ e' = Some (Silver.MapType K' L') /\
      assertion_typ K' = K /\ assertion_typ L' = L
  | _ => True
  end.
Proof.
  intros (_ & HT & Htyp). destruct (viper_typ e') as [T'|]; [|done]. injection Htyp as Htyp.
  destruct (Expr_ty e); try done; simpl in HT; inv_outcome;
    destruct T'; simpl in Htyp; try discriminate; injection Htyp; intros; subst; repeat eexists; eauto.
Qed.

(** The factory methods build the nodes. *)
Ltac nodes :=
  cbv [AstFactory.int_type AstFactory.bool_type AstFactory.perm_type AstFactory.ref_type AstFactory.type_var 
    AstFactory.adt_type AstFactory.domain_type AstFactory.domain_backend_type AstFactory.set_type 
    AstFactory.multiset_type AstFactory.seq_type AstFactory.map_type AstFactory.int_lit_with_pos 
    AstFactory.int_lit_from_ref_with_pos AstFactory.true_lit_with_pos AstFactory.false_lit_with_pos 
    AstFactory.null_lit_with_pos AstFactory.wildcard_perm AstFactory.field_access_predicate_with_pos 
    AstFactory.predicate_access_predicate_with_pos AstFactory.field_access_with_pos 
    AstFactory.predicate_access_with_pos AstFactory.cond_exp_with_pos AstFactory.labelled_old_with_pos 
    AstFactory.let_expr_with_pos AstFactory.forall_with_pos AstFactory.exists_with_pos AstFactory.local_var_with_pos 
    AstFactory.local_var AstFactory.result_with_pos AstFactory.func_app AstFactory.domain_func_app2 
    AstFactory.backend_func_app_from_name AstFactory.adt_constructor_app AstFactory.adt_destructor 
    AstFactory.adt_discr AstFactory.minus_with_pos AstFactory.not_with_pos AstFactory.perm_minus_with_pos 
    AstFactory.old AstFactory.map_len_with_pos AstFactory.map_domain_with_pos AstFactory.map_range_with_pos 
    AstFactory.seq_length_with_pos AstFactory.any_set_cardinality_with_pos AstFactory.add_with_pos 
    AstFactory.sub_with_pos AstFactory.mul_with_pos AstFactory.div_with_pos AstFactory.mod_with_pos 
    AstFactory.lt_cmp_with_pos AstFactory.le_cmp_with_pos AstFactory.gt_cmp_with_pos AstFactory.ge_cmp_with_pos 
    AstFactory.eq_cmp_with_pos AstFactory.ne_cmp_with_pos AstFactory.or_with_pos AstFactory.and_with_pos 
    AstFactory.implies_with_pos AstFactory.magic_wand_with_pos AstFactory.inhale_exhale_pred 
    AstFactory.perm_perm_div_with_pos AstFactory.perm_add_with_pos AstFactory.perm_sub_with_pos 
    AstFactory.perm_mul_with_pos AstFactory.unfolding_with_pos AstFactory.seq_append_with_pos 
    AstFactory.any_set_union_with_pos AstFactory.any_set_intersection_with_pos AstFactory.any_set_subset_with_pos 
    AstFactory.any_set_minus_with_pos AstFactory.empty_seq_with_pos AstFactory.explicit_seq_with_pos 
    AstFactory.empty_map_with_pos AstFactory.update_map_with_pos AstFactory.lookup_map_with_pos 
    AstFactory.map_contains_with_pos AstFactory.seq_index_with_pos AstFactory.seq_take_with_pos 
    AstFactory.seq_drop_with_pos AstFactory.seq_contains_with_pos AstFactory.seq_update_with_pos 
    AstFactory.empty_set_with_pos AstFactory.explicit_set_with_pos AstFactory.empty_multiset_with_pos 
    AstFactory.explicit_multiset_with_pos AstFactory.any_set_contains_with_pos AstFactory.decreases_tuple 
    AstFactory.decreases_wildcard AstFactory.decreases_star AstFactory.local_var_assign 
    AstFactory.method_call_with_pos AstFactory.exhale AstFactory.inhale AstFactory.assert_ AstFactory.refute 
    AstFactory.fold_with_pos AstFactory.unfold_with_pos AstFactory.package AstFactory.apply_ AstFactory.seqn 
    AstFactory.if_stmt AstFactory.predicate AstFactory.adt_constructor AstFactory.domain_func 
    AstFactory.named_domain_axiom].

(** Compute the three parts of [lowers_typed] from what is known of the parts. *)
Ltac known :=
  repeat match goal with
  | H : ex _ |- _ => destruct H as [? H]
  | H : _ /\ _ |- _ => destruct H
  end; subst;
  eapply typed_node;
  (simpl; repeat (match goal with H : ?x = _ |- context [?x] => rewrite H end; simpl);
   first [reflexivity | nodes; simpl; repeat (match goal with H : ?x = _ |- context [?x] => rewrite H end; simpl); reflexivity]).

Lemma collection_binop_preserved kind l r : preserved l -> preserved r -> preserved (CollectionBinOp kind l r).
Proof.
  intros Hl Hr Hwf. simpl in Hwf. apply andb_true_iff in Hwf as [[Hwl Hwr]%andb_true_iff Hk].
  destruct (Hl Hwl) as (l' & Tl & Hlt), (Hr Hwr) as (r' & Tr & Hrt).
  pose proof (lowered_collection _ _ _ Hlt) as Hcl. pose proof (lowered_collection _ _ _ Hrt) as Hcr.
  destruct Hlt as (Hl' & HTl & Htl), Hrt as (Hr' & HTr & Htr).
  destruct kind; simpl in Hk;
    repeat (match type of Hk with context [match Expr_ty ?e with _ => _ end] => destruct (Expr_ty e) eqn:? end;
            try discriminate);
    try apply bool_decide_eq_true in Hk; known.
Qed.
Lemma literal_preserved vs ty : Forall preserved vs -> preserved (CollectionLiteral vs ty).
Proof.
  intros Hvs Hwf. simpl in Hwf. apply andb_true_iff in Hwf as [Hw [Hty Hlit]%andb_true_iff].
  destruct (preserved_list vs Hvs Hw) as (vs' & Hvs' & Hall), (wf_type_lowers ty Hty) as (T & HT & Ha).
  destruct Hall as [|v v' vs vs' (U & Hv & HU & Htyp) Hall].
  - destruct ty; try discriminate; simpl in HT; inv_outcome;
      (eapply typed_node; [simpl; repeat (match goal with H : type_to_viper _ _ = _ |- _ => rewrite H end; simpl); reflexivity
                          |simpl; repeat (match goal with H : type_to_viper _ _ = _ |- _ => rewrite H end; simpl); reflexivity
                          |nodes; simpl in *; by rewrite Ha]).
  - destruct ty; try discriminate; simpl in Hlit; try (apply andb_true_iff in Hlit as [Hlit _]);
      apply bool_decide_eq_true in Hlit; subst; simpl in HT; rewrite HU in HT; simpl in HT; injection HT as <-;
      (eapply typed_node; [simpl in *; rewrite Hvs'; reflexivity|simpl; rewrite HU; reflexivity|]); nodes; simpl;
      destruct (viper_typ v'); simpl in *; by simplify_eq.
Qed.

Lemma update_preserved t k v :
  preserved t -> preserved k -> preserved v -> preserved (CollectionUpdate t k v).
Proof.
  intros Ht Hk Hv Hwf. simpl in Hwf. apply andb_true_iff in Hwf as [[[Hwt Hwk]%andb_true_iff Hwv]%andb_true_iff Hu].
  destruct (Ht Hwt) as (t' & T & Ht' & HT & Htyp), (Hk Hwk) as (k' & K & Hk' & _), (Hv Hwv) as (v' & V & Hv' & _).
  destruct (Expr_ty t) eqn:Hty; try discriminate;
    (eapply typed_node; simpl; rewrite ?Ht', ?Hk', ?Hv'; simpl; rewrite ?Hty; [reflexivity|exact HT|exact Htyp]).
Qed.

Lemma app_preserved f args ty tys : Forall preserved args -> preserved (FuncApp f args ty tys).
Proof.
  intros Hargs Hwf. simpl in Hwf. apply andb_true_iff in Hwf as [Hwa Happ].
  destruct (preserved_list args Hargs Hwa) as (args' & Hargs' & _).
  unfold wf_app in Happ. apply andb_true_iff in Happ as [[Hty Htys]%andb_true_iff Hdecl].
  destruct (wf_type_lowers ty Hty) as (T & HT & Ha).
  assert (exists e', lowers (FuncApp f args ty tys) = Ok e' /\ viper_typ e' = Some T) as (e' & He' & Htyp).
  { cbn [expr_to_viper]. unfold func_app_to_viper. rewrite Hargs'.
    destruct (ctx_domain_functions ctx !! f) as [[d fd]|].
    - rewrite Hdecl. destruct (type_map_lowers (domain_typarams d) tys Htys) as [m ->]. simpl. rewrite HT. simpl.
      by destruct (dfun_interpretation fd); eexists.
    - apply andb_true_iff in Hdecl as [Hnone Hadt]. rewrite Hnone.
      destruct (ctx_adt_constructors ctx !! f) as [[a c]|].
      + destruct (is_adt_lowers ty Hadt) as [m ->]. simpl. rewrite HT. by eexists.
      + simpl. rewrite HT. by eexists. }
  eapply typed_node; [done|done|]. rewrite Htyp. simpl. by rewrite Ha.
Qed.

Lemma pred_app_lowers t args perm : Forall preserved args -> option_all Expr preserved perm ->
  forallb well_formed args = true ->
  (match perm with Some p => well_formed p && bool_decide (Expr_ty p = TPerm) | None => true end) = true ->
  exists p, predicate_app_to_viper t (collect lowers args)
    (match perm with Some e => Some <$> lowers e | None => Ok None end) = Ok (Silver.PredicateAccessPredicate (Silver.PredicateAccess (fst p) t) (snd p)).
Proof.
  intros Hargs Hperm Hwa Hwp. destruct (preserved_list args Hargs Hwa) as (args' & Hargs' & _).
  destruct (preserved_opt perm Hperm Hwp) as [o Ho]. unfold predicate_app_to_viper. rewrite Hargs', Ho. simpl.
  by exists (args', o).
Qed.

Lemma quantified_lowers qvars triggers body : Forall (Forall preserved) triggers -> preserved body ->
  forallb (wf_decl ctx) qvars && forallb (forallb well_formed) triggers && well_formed body &&
    bool_decide (Expr_ty body = TBool) = true ->
  exists vs ts b, collect (local_decl_to_viper ctx) qvars = Ok vs /\
    collect (fun es => AstFactory.trigger <$> collect lowers es) triggers = Ok ts /\ lowers body = Ok b.
Proof.
  intros Hts Hb [[[Hq Ht]%andb_true_iff Hw]%andb_true_iff _]%andb_true_iff.
  destruct (wf_decls_lower _ Hq) as [vs Hvs], (preserved_triggers _ Hts Ht) as [ts Hts'], (Hb Hw) as (b & T & Hbody & _).
  by exists vs, ts, b.
Qed.

Lemma field_lowers recv fname fty :
  preserved recv -> well_formed recv && bool_decide (Expr_ty recv = TRef) && wf_type fty = true ->
  exists recv' f, lowers recv = Ok recv' /\ field_to_viper ctx fname fty = Ok f /\
    type_to_viper ctx fty = Ok (Silver.f_typ f) /\ assertion_typ (Silver.f_typ f) = Silver.f_typ f.
Proof.
  intros Hr [[Hw _]%andb_true_iff Hty]%andb_true_iff.
  destruct (Hr Hw) as (recv' & T & Hl & _), (wf_type_lowers fty Hty) as (U & HU & Ha).
  exists recv', (AstFactory.field fname U). unfold field_to_viper. by rewrite HU.
Qed.

Theorem well_formed_preserved e : preserved e.
Proof.
  induction e as [name ty|recv IHr f fty|e IH label|c|ty|recv IHr f fty perm Hp|t args Hargs perm Hp e IH|kind e IH
    |kind l IHl r IHr|kind l IHl r IHr|vs Hvs ty|t IHt k IHk v IHv|c IH|m IH|m IH|c IHc t IHt e IHe
    |qs ts Hts b IHb|qs ts Hts b IHb|name e1 IH1 e2 IH2|f args Hargs ty tys|t args Hargs perm Hp|l IHl r IHr|l IHl r IHr
    |name ty|e IH name input ty|e IH name|msg]; try (intros Hwf; discriminate Hwf);
    try (apply (list_all2_Forall preserved) in Hts); try (apply list_all_Forall in Hargs).
  - intros Hwf. destruct (wf_type_lowers ty Hwf) as (T & HT & Ha).
    eapply typed_node; simpl; rewrite ?HT; [reflexivity..|]. simpl. by rewrite Ha.
  - intros Hwf. destruct (field_lowers _ f _ IHr Hwf) as (r' & f' & Hr' & Hf' & HT & Ha).
    eapply typed_node; simpl; rewrite ?Hr', ?HT; simpl; rewrite ?Hf'; [reflexivity|done|]. nodes. simpl. by rewrite Ha.
  - intros Hwf. destruct (IH Hwf) as (e' & T & He' & HT & Htyp).
    eapply typed_node; simpl; rewrite ?He'; [reflexivity|exact HT|]. by destruct label.
  - apply const_preserved.
  - intros Hwf. destruct (wf_type_lowers ty Hwf) as (T & HT & Ha).
    eapply typed_node; simpl; rewrite ?HT; [reflexivity..|]. simpl. by rewrite Ha.
  - intros [Hwf Hperm]%andb_true_iff. destruct (field_lowers _ f _ IHr Hwf) as (r' & f' & Hr' & Hf' & _).
    destruct (preserved_opt perm Hp Hperm) as [o Ho].
    eapply typed_node; simpl; rewrite ?Hr'; simpl; rewrite ?Hf'; simpl; rewrite ?Ho; reflexivity.
  - intros [[Hwa Hwp]%andb_true_iff Hwf]%andb_true_iff.
    destruct (pred_app_lowers t args perm Hargs Hp Hwa Hwp) as [p Hpred].
    destruct (IH Hwf) as (e' & T & He' & HT & Htyp).
    eapply typed_node; [cbn [expr_to_viper]; rewrite Hpred; simpl; rewrite He'; reflexivity|exact HT|exact Htyp].
  - by apply unop_preserved.
  - by apply binop_preserved.
  - by apply collection_binop_preserved.
  - apply literal_preserved. by apply list_all_Forall.
  - by apply update_preserved.
  - intros [Hwf Hc]%andb_true_iff. destruct (IH Hwf) as (e' & T & He' & HT & Htyp).
    destruct (Expr_ty c) eqn:Hty; try discriminate; known.
  - intros [Hwf Hc]%andb_true_iff. destruct (IH Hwf) as (e' & T & Hlt). pose proof (lowered_collection _ _ _ Hlt) as Hm.
    destruct Hlt as (He' & HT & Htyp). destruct (Expr_ty m) eqn:Hty; try discriminate; known.
  - intros [Hwf Hc]%andb_true_iff. destruct (IH Hwf) as (e' & T & Hlt). pose proof (lowered_collection _ _ _ Hlt) as Hm.
    destruct Hlt as (He' & HT & Htyp). destruct (Expr_ty m) eqn:Hty; try discriminate; known.
  - simpl. intros Hwf. apply andb_true_iff in Hwf as [[[[Hc Ht]%andb_true_iff He]%andb_true_iff _]%andb_true_iff _].
    destruct (IHc Hc) as (c' & ? & Hc' & _), (IHt Ht) as (t' & T & Ht' & HT & Htyp), (IHe He) as (e' & ? & He' & _).
    eapply typed_node; simpl; rewrite ?Hc', ?Ht', ?He'; [reflexivity|exact HT|exact Htyp].
  - intros Hwf. destruct (quantified_lowers _ _ _ Hts IHb Hwf) as (vs & ts' & b' & Hvs & Hts' & Hb').
    eapply typed_node; simpl; rewrite ?Hvs; simpl; rewrite ?Hts'; simpl; rewrite ?Hb'; reflexivity.
  - intros Hwf. destruct (quantified_lowers _ _ _ Hts IHb Hwf) as (vs & ts' & b' & Hvs & Hts' & Hb').
    eapply typed_node; simpl; rewrite ?Hvs; simpl; rewrite ?Hts'; simpl; rewrite ?Hb'; reflexivity.
  - intros [Hw1 Hw2]%andb_true_iff.
    destruct (IH1 Hw1) as (e1' & T1 & He1 & HT1 & _), (IH2 Hw2) as (e2' & T2 & He2 & HT2 & Htyp).
    eapply typed_node; simpl; rewrite ?HT1; simpl; rewrite ?He1; simpl; rewrite ?He2; [reflexivity|exact HT2|exact Htyp].
  - by apply app_preserved.
  - intros [Hwa Hwp]%andb_true_iff. destruct (pred_app_lowers t args perm Hargs Hp Hwa Hwp) as [p Hpred].
    eapply typed_node; [cbn [expr_to_viper]; exact Hpred|reflexivity|reflexivity].
  - simpl. intros Hwf. apply andb_true_iff in Hwf as [[[Hl Hr]%andb_true_iff _]%andb_true_iff _].
    destruct (IHl Hl) as (l' & ? & Hl' & _), (IHr Hr) as (r' & ? & Hr' & _).
    eapply typed_node; simpl; rewrite ?Hl', ?Hr'; reflexivity.
  - simpl. intros Hwf. apply andb_true_iff in Hwf as [[[Hl Hr]%andb_true_iff _]%andb_true_iff _].
    destruct (IHl Hl) as (l' & ? & Hl' & _), (IHr Hr) as (r' & ? & Hr' & _).
    eapply typed_node; simpl; rewrite ?Hl', ?Hr'; reflexivity.
  - intros [[Hwf Hadt]%andb_true_iff Hty]%andb_true_iff.
    destruct (IH Hwf) as (e' & ? & He' & _), (is_adt_lowers _ Hadt) as [m Hm], (wf_type_lowers ty Hty) as (T & HT & Ha).
    eapply typed_node; simpl; rewrite ?Hm, ?HT; simpl; rewrite ?He'; simpl; rewrite ?HT; [reflexivity..|]. simpl. by rewrite Ha.
  - intros [[Hwf Hadt]%andb_true_iff [owner Ho]%bool_decide_eq_true]%andb_true_iff.
    destruct (IH Hwf) as (e' & ? & He' & _), (is_adt_lowers _ Hadt) as [m Hm].
    eapply typed_node; simpl; rewrite ?Hm; simpl; rewrite ?He'; simpl; rewrite ?Ho; reflexivity.
Qed.
End preservation.
