(* ===== verification/ViperWell.v ===== *)
(** * Lowered expressions pass the type checks of Viper

    Viper rejects a syntax tree whose operands do not have the types that their
    node expects. [viper_ok] is that check, for the nodes that the lowering makes;
    the result of lowering a well-formed VIR expression passes it. *)
From S2P Require Import Prelude Vir VirMake VirProgram ViperAst ViperLower ViperTyped.
Local Open Scope Z_scope.

(** The type of an expression, wands taken as booleans. *)
Definition typed (e : Silver.Exp) (T : Silver.Typ) : Prop := assertion_typ <$> viper_typ e = Some T.

(** A set or a multiset of the given elements. *)
Definition set_of (S T : Silver.Typ) : Prop := S = Silver.SetType T \/ S = Silver.MultisetType T.

Lemma set_of_set T : set_of (Silver.SetType T) T.
Proof. by left. Qed.
Lemma set_of_multiset T : set_of (Silver.MultisetType T) T.
Proof. by right. Qed.

(** The checks of every node on its operands; the arguments of applications are
    only checked themselves, as the declarations are not part of the tree. *)
Fixpoint viper_ok (e : Silver.Exp) {struct e} : Prop :=
  let all := foldr (fun e P => viper_ok e /\ P) True in
  let both l r T := (typed l T /\ typed r T) /\ viper_ok l /\ viper_ok r in
  let alike l r := (exists T, typed l T /\ typed r T) /\ viper_ok l /\ viper_ok r in
  let one e T := typed e T /\ viper_ok e in
  let opt o := match o with Some e => viper_ok e | None => True end in
  let elements es := (exists T, foldr (fun e P => typed e T /\ P) True es) /\ all es in
  let access loc perm (is_loc : bool) :=
    is_loc = true /\ viper_ok loc /\ match perm with Some p => one p Silver.Perm | None => True end in
  match e with
  | Silver.Add l r | Silver.Sub l r | Silver.Mul l r | Silver.Div l r | Silver.Mod l r
  | Silver.LtCmp l r | Silver.LeCmp l r | Silver.GtCmp l r | Silver.GeCmp l r => both l r Silver.Int
  | Silver.EqCmp l r | Silver.NeCmp l r => alike l r
  | Silver.Or l r | Silver.And l r | Silver.Implies l r | Silver.MagicWand l r
  | Silver.InhaleExhaleExp l r => both l r Silver.Bool
  | Silver.PermPermDiv l r | Silver.PermAdd l r | Silver.PermSub l r | Silver.PermMul l r => both l r Silver.Perm
  | Silver.Minus e => one e Silver.Int
  | Silver.PermMinus e => one e Silver.Perm
  | Silver.Not e => one e Silver.Bool
  | Silver.FieldAccessPredicate loc perm =>
      access loc perm match loc with Silver.FieldAccess _ _ => true | _ => false end
  | Silver.PredicateAccessPredicate loc perm =>
      access loc perm match loc with Silver.PredicateAccess _ _ => true | _ => false end
  | Silver.FuncApp _ args _ | Silver.DomainFuncApp _ args _ _ _ | Silver.BackendFuncApp _ args _ _
  | Silver.BackendFuncAppOf _ args | Silver.PredicateAccess args _ => all args
  | Silver.AdtConstructorApp _ args tvars typ _ =>
      (exists name ps, typ = Silver.AdtType name tvars ps) /\ all args
  | Silver.AdtDestructorApp _ rcv tvars _ _ | Silver.AdtDiscriminatorApp _ rcv tvars _ =>
      (exists name ps, typed rcv (Silver.AdtType name tvars ps)) /\ viper_ok rcv
  | Silver.FieldAccess rcv _ => one rcv Silver.Ref
  | Silver.CondExp c t e => one c Silver.Bool /\ alike t e
  | Silver.Unfolding acc e =>
      match acc with Silver.PredicateAccessPredicate _ _ => True | _ => False end /\ viper_ok acc /\ viper_ok e
  | Silver.Old e | Silver.LabelledOld e _ => viper_ok e
  | Silver.Let v e body => one e (Silver.v_typ v) /\ viper_ok body
  | Silver.Forall _ ts e | Silver.Exists _ ts e =>
      foldr (fun es P => all es /\ P) True ts /\ one e Silver.Bool
  | Silver.ExplicitSeq es | Silver.ExplicitSet es | Silver.ExplicitMultiset es => elements es
  | Silver.SeqAppend l r => (exists T, typed l (Silver.SeqType T) /\ typed r (Silver.SeqType T)) /\ viper_ok l /\ viper_ok r
  | Silver.SeqIndex s i | Silver.SeqTake s i | Silver.SeqDrop s i =>
      (exists T, typed s (Silver.SeqType T)) /\ viper_ok s /\ one i Silver.Int
  | Silver.SeqContains e s => (exists T, typed e T /\ typed s (Silver.SeqType T)) /\ viper_ok e /\ viper_ok s
  | Silver.SeqUpdate s i e =>
      (exists T, typed s (Silver.SeqType T) /\ typed e T) /\ viper_ok s /\ one i Silver.Int /\ viper_ok e
  | Silver.SeqLength s => (exists T, typed s (Silver.SeqType T)) /\ viper_ok s
  | Silver.MapUpdate m k v =>
      (exists K V, typed m (Silver.MapType K V) /\ typed k K /\ typed v V) /\ viper_ok m /\ viper_ok k /\ viper_ok v
  | Silver.MapLookup m k => (exists K V, typed m (Silver.MapType K V) /\ typed k K) /\ viper_ok m /\ viper_ok k
  | Silver.MapContains k m => (exists K V, typed m (Silver.MapType K V) /\ typed k K) /\ viper_ok k /\ viper_ok m
  | Silver.MapCardinality m | Silver.MapDomain m | Silver.MapRange m =>
      (exists K V, typed m (Silver.MapType K V)) /\ viper_ok m
  | Silver.AnySetUnion l r | Silver.AnySetIntersection l r | Silver.AnySetSubset l r | Silver.AnySetMinus l r =>
      (exists S T, set_of S T /\ typed l S /\ typed r S) /\ viper_ok l /\ viper_ok r
  | Silver.AnySetContains e s => (exists S T, set_of S T /\ typed e T /\ typed s S) /\ viper_ok e /\ viper_ok s
  | Silver.AnySetCardinality s => (exists S T, set_of S T /\ typed s S) /\ viper_ok s
  | Silver.DecreasesTuple es c => all es /\ opt c
  | Silver.DecreasesWildcard c => opt c
  | _ => True
  end.

Section checks.
Variable ctx : ToViperContext.
Abbreviation lowers := (expr_to_viper ctx).
Abbreviation well_formed := (well_formed ctx).
Abbreviation types := (type_to_viper ctx).

(** A part that is well-formed and lowered: its type, and that it passes. *)
Definition good (e : Expr) (e' : Silver.Exp) : Prop :=
  viper_ok e' /\ exists T, types (Expr_ty e) = Ok T /\ typed e' T.

Definition checked (e : Expr) : Prop := well_formed e = true -> forall e', lowers e = Ok e' -> good e e'.

(** It remains to check the operands: the type is known. *)
Lemma check_operands e :
  (well_formed e = true -> forall e', lowers e = Ok e' -> viper_ok e') -> checked e.
Proof.
  intros Hok Hwf e' Hl. split; [by apply Hok|].
  destruct (well_formed_preserved ctx e Hwf) as (e1 & T & Hl1 & HT & Htyp). rewrite Hl in Hl1.
  injection Hl1 as <-. by exists T.
Qed.

Lemma good_typed e e' t T : good e e' -> Expr_ty e = t -> types t = Ok T -> typed e' T.
Proof. intros (_ & U & HU & Ht) <- HT. by rewrite HT in HU; injection HU as <-. Qed.

Lemma good_same l r l' r' : good l l' -> good r r' -> Expr_ty l = Expr_ty r -> exists T, typed l' T /\ typed r' T.
Proof. intros (_ & T & HT & Hl) (_ & U & HU & Hr) Heq. rewrite Heq, HU in HT. injection HT as <-. by exists U. Qed.

Lemma checked_ok e e' : checked e -> well_formed e = true -> lowers e = Ok e' -> viper_ok e'.
Proof. intros He Hwf Hl. apply (He Hwf e' Hl). Qed.

Lemma all_checked es es' : Forall checked es -> forallb well_formed es = true -> collect lowers es = Ok es' ->
  Forall2 good es es'.
Proof.
  intros Hes Hwf Hl%collect_Ok. induction Hl as [|e e' es es' He _ IH]; [constructor|].
  apply Forall_cons in Hes as [Hc Hes]. simpl in Hwf. apply andb_true_iff in Hwf as [Hw Hwf].
  constructor; [by apply Hc|]. by apply IH.
Qed.

Lemma good_all es es' : Forall2 good es es' -> foldr (fun e P => viper_ok e /\ P) True es'.
Proof. induction 1 as [|e e' es es' [He _] _ IH]; [done|]. by split. Qed.

Lemma all_ok es es' : Forall checked es -> forallb well_formed es = true -> collect lowers es = Ok es' ->
  foldr (fun e P => viper_ok e /\ P) True es'.
Proof. intros Hes Hwf Hl. eapply good_all. by apply all_checked. Qed.

Lemma good_elements es es' t T : Forall2 good es es' -> types t = Ok T ->
  forallb (fun u => bool_decide (u = t)) (map Expr_ty es) = true -> foldr (fun e P => typed e T /\ P) True es'.
Proof.
  intros Hg HT. induction Hg as [|e e' es es' Hgood _ IH]; [done|]. simpl.
  intros [Hty%bool_decide_eq_true Htys]%andb_true_iff. split; [by eapply good_typed|by apply IH].
Qed.

Lemma triggers_ok ts ts' : Forall (Forall checked) ts -> forallb (forallb well_formed) ts = true ->
  collect (fun es => AstFactory.trigger <$> collect lowers es) ts = Ok ts' ->
  foldr (fun es P => foldr (fun e P => viper_ok e /\ P) True es /\ P) True ts'.
Proof.
  intros Hts Hwf Hl%collect_Ok. induction Hl as [|es es' ts ts' Hes _ IH]; [done|].
  apply Forall_cons in Hts as [Hc Hts]. simpl in Hwf. apply andb_true_iff in Hwf as [Hw Hwf].
  apply fmap_Ok_inv in Hes as (us & Hus & <-). split; [by eapply all_ok|by apply IH].
Qed.

(** The type arguments of a data type are those of its own lowering. *)
Lemma adt_type_map_typ t m T : is_adt ctx t = true -> adt_type_map ctx t = Ok m -> types t = Ok T ->
  exists name ps, T = Silver.AdtType name m ps.
Proof.
  destruct t as [| | |name ps| | | | | | | |]; try done. simpl.
  intros [[a Ha]%bool_decide_eq_true [Har%bool_decide_eq_true _]%andb_true_iff]%andb_true_iff.
  unfold type_arity in Har. rewrite Ha in Har. destruct (ctx_domains ctx !! name) eqn:Hd; simplify_eq/=.
  rewrite Ha. unfold resolve_type. rewrite Hd, Ha. simpl. intros Hm HT. inv_outcome.
  match goal with H : ?z ps (adt_typarams a) = Ok ?m' |- _ => assert (m' = m) as ->;
    [|by exists name, (domain_param_to_viper <$> adt_typarams a)] end.
  match goal with H : type_map _ _ _ = Ok _ |- _ => revert H; unfold type_map end.
  match goal with H : _ ps (adt_typarams a) = Ok ?m' |- _ => revert m m' H end. clear.
  generalize (adt_typarams a). induction ps as [|p ps IH]; intros [|tp tps] m m' Hz Hc; simpl in *;
    inv_outcome; try done.
  f_equal; [f_equal; congruence|by eapply IH].
Qed.

(** ** Operators *)
Lemma binop_checked kind l r : checked l -> checked r -> checked (BinOp kind l r).
Proof.
  intros Hl Hr. apply check_operands. intros Hwf e' Hlow. simpl in Hwf.
  apply andb_true_iff in Hwf as [[Hwl Hwr]%andb_true_iff Hk]. simpl in Hlow. inv_outcome.
  match goal with H1 : lowers l = Ok _, H2 : lowers r = Ok _ |- _ =>
    specialize (Hl Hwl _ H1); specialize (Hr Hwr _ H2) end.
  assert (forall t T, bool_decide (Expr_ty l = t) && bool_decide (Expr_ty r = t) = true -> types t = Ok T ->
    (typed x T /\ typed x0 T) /\ viper_ok x /\ viper_ok x0) as Hboth.
  { intros t T [Ht1%bool_decide_eq_true Ht2%bool_decide_eq_true]%andb_true_iff HT.
    repeat split; first [by eapply good_typed|by apply Hl|by apply Hr]. }
  destruct kind; simpl in Hk; try (by eapply Hboth);
    apply bool_decide_eq_true in Hk; (split; [by eapply good_same|split; [apply Hl|apply Hr]]).
Qed.

Lemma unop_checked kind e : checked e -> checked (UnOp kind e).
Proof.
  intros He. apply check_operands. intros Hwf e' Hlow. simpl in Hwf.
  apply andb_true_iff in Hwf as [Hw Hk%bool_decide_eq_true]. simpl in Hlow. inv_outcome.
  match goal with H : lowers e = Ok _ |- _ => specialize (He Hw _ H) end.
  destruct kind; (split; [by eapply good_typed|apply He]).
Qed.

(** Typed as a collection, from the type of the VIR expression. *)
Lemma good_collection e e' : good e e' ->
  match Expr_ty e with
  | TSet t => exists T, types t = Ok T /\ typed e' (Silver.SetType T)
  | TMultiset t => exists T, types t = Ok T /\ typed e' (Silver.MultisetType T)
  | TSeq t => exists T, types t = Ok T /\ typed e' (Silver.SeqType T)
  | TMap k v => exists K V, types k = Ok K /\ types v = Ok V /\ typed e' (Silver.MapType K V)
  | _ => True
  end.
Proof.
  intros (_ & T & HT & Htyp). destruct (Expr_ty e); try done; simpl in HT; inv_outcome; eauto.
Qed.

(** Collect what is known of typed parts, then choose the witnesses of the check. *)
Ltac operands :=
  repeat match goal with
  | H : ex _ |- _ => destruct H as [? H]
  | H : _ /\ _ |- _ => destruct H
  | H : Ok _ = Ok _ |- _ => injection H as H
  | H : andb _ _ = true |- _ => apply andb_true_iff in H
  | H : bool_decide _ = true |- _ => apply bool_decide_eq_true in H
  end; subst.

Lemma collection_binop_checked kind l r : checked l -> checked r -> checked (CollectionBinOp kind l r).
Proof.
  intros Hl Hr. apply check_operands. intros Hwf e' Hlow. simpl in Hwf.
  apply andb_true_iff in Hwf as [[Hwl Hwr]%andb_true_iff Hk]. simpl in Hlow.
  apply bind_Ok_inv in Hlow as (l' & Hl' & Hlow). apply bind_Ok_inv in Hlow as (r' & Hr' & Hlow).
  specialize (Hl Hwl _ Hl'). specialize (Hr Hwr _ Hr').
  pose proof (good_collection _ _ Hl) as Hcl. pose proof (good_collection _ _ Hr) as Hcr.
  destruct Hl as (Hol & L & HL & HtL), Hr as (Hor & R & HR & HtR).
  destruct kind; simpl in Hk, Hlow;
    repeat (match type of Hk with context [match Expr_ty ?e with _ => _ end] => destruct (Expr_ty e) eqn:? end;
            try discriminate);
    try apply bool_decide_eq_true in Hk; try rewrite <- Hk in *; try rewrite Hk in *; simplify_eq/=; inv_outcome;
    operands; repeat match goal with H1 : types ?t = Ok ?T, H2 : types ?t = Ok ?U |- _ =>
      assert_fails (unify T U); assert (T = U) by congruence; subst end;
    (split; [eauto 10 using set_of_set, set_of_multiset|eauto]).
Qed.

Lemma literal_checked vs ty : Forall checked vs -> checked (CollectionLiteral vs ty).
Proof.
  intros Hvs. apply check_operands. intros Hwf e' Hlow. simpl in Hwf.
  apply andb_true_iff in Hwf as [Hw [_ Hlit]%andb_true_iff]. simpl in Hlow.
  apply bind_Ok_inv in Hlow as (vs' & Hvs' & Hlow). pose proof (all_checked _ _ Hvs Hw Hvs') as Hgood.
  destruct Hgood as [|v v' vs vs' Hg Hall]; [destruct ty; simpl in Hlow; try discriminate; inv_outcome; done|].
  assert (Forall2 good (v :: vs) (v' :: vs')) as Hgood by (by constructor). destruct Hg as (_ & T & HT & _).
  destruct ty; try discriminate; simpl in Hlow; injection Hlow as <-;
    try (simpl in Hlit; apply bool_decide_eq_true in Hlit; discriminate);
    (split; [|by eapply good_all]); exists T; eapply good_elements; try exact Hgood; try exact Hlit;
    simpl in Hlit; apply andb_true_iff in Hlit as [<-%bool_decide_eq_true _]; exact HT.
Qed.

Lemma update_checked t k v : checked t -> checked k -> checked v -> checked (CollectionUpdate t k v).
Proof.
  intros Ht Hk Hv. apply check_operands. intros Hwf e' Hlow. simpl in Hwf.
  apply andb_true_iff in Hwf as [[[Hwt Hwk]%andb_true_iff Hwv]%andb_true_iff Hu]. simpl in Hlow.
  apply bind_Ok_inv in Hlow as (t' & Ht' & Hlow). apply bind_Ok_inv in Hlow as (k' & Hk' & Hlow).
  apply bind_Ok_inv in Hlow as (v' & Hv' & Hlow).
  specialize (Ht Hwt _ Ht'). specialize (Hk Hwk _ Hk'). specialize (Hv Hwv _ Hv').
  pose proof (good_collection _ _ Ht) as Hct.
  destruct Ht as (Hot & T & HT & HtT), Hk as (Hok & K & HK & HtK), Hv as (Hov & V & HV & HtV).
  destruct (Expr_ty t) eqn:Hty; try discriminate; simpl in Hu, Hlow; injection Hlow as <-; operands;
    simplify_eq/=;
    repeat match goal with
    | H : Expr_ty _ = TInt |- _ => rewrite H in *
    | H1 : types ?t = Ok ?T, H2 : types ?t = Ok ?U |- _ =>
      assert_fails (unify T U); assert (T = U) by congruence; subst
    end; simplify_eq/=; split; eauto 10.
Qed.

(** ** Accesses, applications and binders *)
Lemma perm_checked (o : option Expr) o' : option_all Expr checked o ->
  (match o with Some p => well_formed p && bool_decide (Expr_ty p = TPerm) | None => true end) = true ->
  (match o with Some e => Some <$> lowers e | None => Ok None end) = Ok o' ->
  match o' with Some p => typed p Silver.Perm /\ viper_ok p | None => True end.
Proof.
  intros [e He|]; [|by intros _ [= <-]]. intros [Hwf Hty%bool_decide_eq_true]%andb_true_iff Ho.
  apply fmap_Ok_inv in Ho as (p & Hp & <-). specialize (He Hwf _ Hp). split; [by eapply good_typed|apply He].
Qed.

Lemma pred_app_checked t args perm p : Forall checked args -> option_all Expr checked perm ->
  forallb well_formed args = true ->
  (match perm with Some p => well_formed p && bool_decide (Expr_ty p = TPerm) | None => true end) = true ->
  predicate_app_to_viper t (collect lowers args)
    (match perm with Some e => Some <$> lowers e | None => Ok None end) = Ok p ->
  viper_ok p /\ match p with Silver.PredicateAccessPredicate _ _ => True | _ => False end.
Proof.
  intros Hargs Hperm Hwa Hwp Hlow. unfold predicate_app_to_viper in Hlow.
  apply bind_Ok_inv in Hlow as (args' & Hargs' & Hlow). apply bind_Ok_inv in Hlow as (o & Ho & [= <-]).
  split; [|done]. split; [done|]. split; [by eapply all_ok|]. by eapply perm_checked.
Qed.

Lemma app_checked f args ty tys : Forall checked args -> checked (FuncApp f args ty tys).
Proof.
  intros Hargs. apply check_operands. intros Hwf e' Hlow. simpl in Hwf.
  apply andb_true_iff in Hwf as [Hwa Happ]. unfold wf_app in Happ.
  apply andb_true_iff in Happ as [_ Hdecl]. cbn [expr_to_viper] in Hlow. unfold func_app_to_viper in Hlow.
  destruct (ctx_domain_functions ctx !! f) as [[d fd]|].
  - inv_outcome. destruct (dfun_interpretation fd); by eapply all_ok.
  - apply andb_true_iff in Hdecl as [_ Hadt]. destruct (ctx_adt_constructors ctx !! f) as [[a c]|].
    + inv_outcome. split; [by eapply adt_type_map_typ|by eapply all_ok].
    + inv_outcome. by eapply all_ok.
Qed.

Lemma quantified_checked qvars triggers body vs ts b : Forall (Forall checked) triggers -> checked body ->
  forallb (wf_decl ctx) qvars && forallb (forallb well_formed) triggers && well_formed body &&
    bool_decide (Expr_ty body = TBool) = true ->
  collect (local_decl_to_viper ctx) qvars = Ok vs ->
  collect (fun es => AstFactory.trigger <$> collect lowers es) triggers = Ok ts -> lowers body = Ok b ->
  viper_ok (Silver.Forall vs ts b).
Proof.
  intros Hts Hb [[[_ Ht]%andb_true_iff Hw]%andb_true_iff Hty%bool_decide_eq_true]%andb_true_iff _ Hts' Hb'.
  split; [by eapply triggers_ok|]. specialize (Hb Hw _ Hb'). split; [by eapply good_typed|apply Hb].
Qed.

Lemma field_checked recv fname fty recv' :
  checked recv -> well_formed recv && bool_decide (Expr_ty recv = TRef) && wf_type ctx fty = true ->
  lowers recv = Ok recv' -> viper_ok (Silver.FieldAccess recv' fname).
Proof.
  intros Hr [[Hw Hty%bool_decide_eq_true]%andb_true_iff _]%andb_true_iff Hl. specialize (Hr Hw _ Hl).
  split; [by eapply good_typed|apply Hr].
Qed.

(** A node with boolean operands. *)
Lemma bools_checked l r l' r' : checked l -> checked r ->
  well_formed l && well_formed r && bool_decide (Expr_ty l = TBool) && bool_decide (Expr_ty r = TBool) = true ->
  lowers l = Ok l' -> lowers r = Ok r' ->
  (typed l' Silver.Bool /\ typed r' Silver.Bool) /\ viper_ok l' /\ viper_ok r'.
Proof.
  intros Hl Hr Hwf Hl' Hr'. operands. specialize (Hl H _ Hl'). specialize (Hr H2 _ Hr').
  repeat split; first [by eapply good_typed|apply Hl|apply Hr].
Qed.

(** ** All expressions *)
Theorem well_formed_checked e : checked e.
Proof.
  induction e as [name ty|recv IHr f fty|e IH label|c|ty|recv IHr f fty perm Hp|t args Hargs perm Hp e IH|kind e IH
    |kind l IHl r IHr|kind l IHl r IHr|vs Hvs ty|t IHt k IHk v IHv|c IH|m IH|m IH|c IHc t IHt e IHe
    |qs ts Hts b IHb|qs ts Hts b IHb|name e1 IH1 e2 IH2|f args Hargs ty tys|t args Hargs perm Hp|l IHl r IHr|l IHl r IHr
    |name ty|e IH name input ty|e IH name|msg];
    try (apply (list_all2_Forall checked) in Hts); try (apply list_all_Forall in Hargs);
    try (by apply unop_checked); try (by apply binop_checked); try (by apply collection_binop_checked);
    try (by apply literal_checked, list_all_Forall); try (by apply update_checked); try (by apply app_checked);
    apply check_operands; intros Hwf e' Hlow; cbn [expr_to_viper] in Hlow; try discriminate; simpl in Hwf.
  - by inv_outcome.
  - inv_outcome. by eapply field_checked.
  - inv_outcome. destruct label; simpl; by eapply checked_ok.
  - injection Hlow as <-. destruct c as [[]|n| |]; try done. unfold const_to_viper. by case_match.
  - by inv_outcome.
  - apply andb_true_iff in Hwf as [Hwf Hperm]. inv_outcome. split; [done|]. split; [by eapply field_checked|].
    by eapply perm_checked.
  - operands. inv_outcome.
    match goal with H : predicate_app_to_viper _ _ _ = Ok _ |- _ => eapply pred_app_checked in H as [Hok Hacc]; eauto end.
    split; [done|]. split; [done|]. by eapply checked_ok.
  - apply andb_true_iff in Hwf as [Hwf Hty]. inv_outcome. match goal with H : lowers c = Ok _ |- _ => specialize (IH Hwf _ H) end.
    pose proof (good_collection _ _ IH) as Hc. destruct (Expr_ty c); try discriminate; operands; simplify_eq/=;
      (split; [eauto 10 using set_of_set, set_of_multiset|apply IH]).
  - apply andb_true_iff in Hwf as [Hwf Hty]. inv_outcome. match goal with H : lowers m = Ok _ |- _ => specialize (IH Hwf _ H) end.
    pose proof (good_collection _ _ IH) as Hc. destruct (Expr_ty m); try discriminate; operands. split; [eauto|apply IH].
  - apply andb_true_iff in Hwf as [Hwf Hty]. inv_outcome. match goal with H : lowers m = Ok _ |- _ => specialize (IH Hwf _ H) end.
    pose proof (good_collection _ _ IH) as Hc. destruct (Expr_ty m); try discriminate; operands. split; [eauto|apply IH].
  - apply andb_true_iff in Hwf as [[[[Hc Ht]%andb_true_iff He]%andb_true_iff Hb%bool_decide_eq_true]%andb_true_iff Hs%bool_decide_eq_true].
    apply bind_Ok_inv in Hlow as (c' & Hc' & Hlow). apply bind_Ok_inv in Hlow as (t' & Ht' & Hlow).
    apply bind_Ok_inv in Hlow as (e1 & He1 & [= <-]).
    specialize (IHc Hc _ Hc'). specialize (IHt Ht _ Ht'). specialize (IHe He _ He1).
    split; [split; [by eapply good_typed|apply IHc]|]. split; [by eapply good_same|]. split; [apply IHt|apply IHe].
  - inv_outcome. by eapply (quantified_checked qs ts).
  - inv_outcome. by eapply (quantified_checked qs ts).
  - apply andb_true_iff in Hwf as [Hw1 Hw2]. inv_outcome.
    match goal with H1 : lowers e1 = Ok _, H2 : lowers e2 = Ok _ |- _ =>
      specialize (IH1 Hw1 _ H1); specialize (IH2 Hw2 _ H2) end.
    split; [split; [by eapply good_typed|apply IH1]|apply IH2].
  - apply andb_true_iff in Hwf as [Hwa Hwp]. by eapply pred_app_checked.
  - inv_outcome. simpl. by apply (bools_checked l r).
  - inv_outcome. simpl. by apply (bools_checked l r).
  - apply andb_true_iff in Hwf as [[Hwf Hadt]%andb_true_iff _]. inv_outcome.
    match goal with H : lowers e = Ok _ |- _ => specialize (IH Hwf _ H) end. destruct IH as (Hok & T & HT & Htyp).
    split; [|done].
    match goal with H : adt_type_map _ _ = Ok _ |- _ => destruct (adt_type_map_typ _ _ _ Hadt H HT) as (n & ps & ->) end.
    by exists n, ps.
  - apply andb_true_iff in Hwf as [[Hwf Hadt]%andb_true_iff _]. inv_outcome.
    match goal with H : lowers e = Ok _ |- _ => specialize (IH Hwf _ H) end. destruct IH as (Hok & T & HT & Htyp).
    split; [|done].
    match goal with H : adt_type_map _ _ = Ok _ |- _ => destruct (adt_type_map_typ _ _ _ Hadt H HT) as (n & ps & ->) end.
    by exists n, ps.
Qed.
End checks.
