(* ===== verification/ViperTotal.v ===== *)
(** * Lowering whole programs

    Statements, graphs and members on top of [ViperTyped]: a well-formed program is
    lowered without a panic, and its domain functions and axioms are those of
    their own domains, found through the context that [program_to_viper] builds. *)
From S2P Require Import Prelude Vir VirMake VirProgram ViperAst ViperLower ViperTyped.

Lemma collect_succeeds {E A B} (f : A -> outcome E B) l :
  Forall (fun a => exists b, f a = Ok b) l -> exists bs, collect f l = Ok bs.
Proof. induction 1 as [|a l [b Hb] _ [bs Hbs]]; simpl; [by eexists|]. rewrite Hb. simpl. rewrite Hbs. by eexists. Qed.

Lemma collect_checked {E A B} (f : A -> outcome E B) (p : A -> bool) l :
  (forall a, p a = true -> exists b, f a = Ok b) -> forallb p l = true -> exists bs, collect f l = Ok bs.
Proof.
  intros Hf Hl. apply collect_succeeds, Forall_forall. intros a Ha. apply Hf.
  rewrite forallb_forall in Hl. by apply Hl, list_elem_of_In.
Qed.

Lemma collect_related {E A B} (f : A -> outcome E B) (R : A -> B -> Prop) l :
  (forall a, a ∈ l -> exists b, f a = Ok b /\ R a b) -> exists bs, collect f l = Ok bs /\ Forall2 R l bs.
Proof.
  induction l as [|a l IH]; intros Hf; simpl; [by eexists|].
  destruct (Hf a) as (b & Hb & HR); [set_solver|]. destruct IH as (bs & Hbs & Hall); [set_solver|].
  rewrite Hb. simpl. rewrite Hbs. exists (b :: bs). split; [done|]. by constructor.
Qed.

(** ** The maps of the context *)
Section index.
Context {A : Type} (name : A -> string).

Lemma index_from_other l (m : gmap string A) k :
  k ∉ (name <$> l) -> foldl (fun m a => <[name a := a]> m) m l !! k = m !! k.
Proof.
  revert m. induction l as [|a l IH]; intros m Hk; simpl; [done|]. rewrite IH by set_solver.
  apply lookup_insert_ne. set_solver.
Qed.

Lemma index_from_present l (m : gmap string A) k :
  k ∈ (name <$> l) -> exists a, a ∈ l /\ foldl (fun m a => <[name a := a]> m) m l !! k = Some a.
Proof.
  revert m. induction l as [|a l IH]; intros m Hk; simpl in *; [by apply not_elem_of_nil in Hk|].
  destruct (decide (k ∈ (name <$> l))) as [Hin|Hout].
  - destruct (IH (<[name a := a]> m) Hin) as (b & Hb & Hl). exists b. split; [set_solver|done].
  - exists a. split; [set_solver|]. rewrite index_from_other by done.
    apply elem_of_cons in Hk as [->|Hk]; [|done]. by apply lookup_insert_eq.
Qed.

(** Every member is found under its name, and where names are distinct it is itself. *)
Lemma index_by_member l a : a ∈ l -> exists b, b ∈ l /\ name b = name a /\ index_by name l !! name a = Some b.
Proof.
  intros Ha. destruct (index_from_present l ∅ (name a)) as (b & Hb & Hl); [by apply list_elem_of_fmap_2|].
  exists b. split; [done|]. split; [|done]. revert Hl. clear. unfold index_by.
  assert (forall (m : gmap string A) k, (forall k b, m !! k = Some b -> name b = k) ->
    forall b, foldl (fun m a => <[name a := a]> m) m l !! k = Some b -> name b = k) as Hnames.
  { induction l as [|c l IH]; intros m k Hm b' Hb'; simpl in *; [by apply Hm|].
    apply (IH (<[name c := c]> m)); [|done]. intros k' b0. destruct (decide (k' = name c)) as [->|Hne].
    - rewrite lookup_insert_eq. by intros [= <-].
    - rewrite lookup_insert_ne by done. apply Hm. }
  apply Hnames. intros k b'. by rewrite lookup_empty.
Qed.

Lemma index_by_nodup l a : NoDup (name <$> l) -> a ∈ l -> index_by name l !! name a = Some a.
Proof.
  intros Hnd Ha. destruct (index_by_member l a Ha) as (b & Hb & Hn & Hl). rewrite Hl. f_equal.
  apply list_elem_of_lookup in Ha as [i Hi], Hb as [j Hj].
  assert (j = i) as ->; [|congruence]. eapply NoDup_lookup; [exact Hnd|..]; rewrite list_lookup_fmap.
  - rewrite Hj. simpl. by rewrite Hn.
  - by rewrite Hi.
Qed.
End index.

Lemma elem_of_owned {A B} (members : A -> list B) l a b : a ∈ l -> b ∈ members a -> (a, b) ∈ owned members l.
Proof.
  intros Ha Hb. unfold owned. apply list_elem_of_bind. exists a. split; [|done].
  apply list_elem_of_fmap. by exists b.
Qed.

(** ** Well-formed statements and members *)
Section members.
Variable ctx : ToViperContext.
Abbreviation well_formed := (well_formed ctx).
Abbreviation wf_decl := (wf_decl ctx).
Abbreviation wf_type := (wf_type ctx).

Definition wf_opt (o : option Expr) : bool := match o with Some e => well_formed e | None => true end.
Definition wf_exprs (es : list Expr) : bool := forallb well_formed es.

Fixpoint wf_stmt (s : Stmt) : bool :=
  match s with
  | LocalDeclStmt d e => wf_decl d && wf_opt e
  | PureAssign l r | Apply l r => well_formed l && well_formed r
  | Inhale e | Exhale e | Refute e => well_formed e
  | Unfold_ _ args perm | Fold_ _ args perm => wf_exprs args && wf_opt perm
  | Package l r ss => well_formed l && well_formed r && forallb wf_stmt ss
  | MethodCall targets _ args => wf_exprs args && wf_exprs targets
  | IfStmt c t e => well_formed c && forallb wf_stmt t && forallb wf_stmt e
  | LabelStmt _ | Comment _ => true
  | Dummy _ => false
  end.

Definition wf_target (t : GotoIfTargetGenData) : bool :=
  well_formed (target_value t) && forallb wf_stmt (target_statements t).

Definition wf_terminator (t : TerminatorStmtGenData) : bool :=
  match t with
  | TermGotoIf g =>
      well_formed (goto_value g) && forallb wf_target (goto_targets g) &&
      forallb wf_stmt (goto_otherwise_statements g)
  | _ => true
  end.

Definition wf_block (b : CfgBlockGenData) : bool :=
  wf_exprs (block_invariants b) && forallb wf_stmt (block_stmts b) && wf_terminator (block_terminator b).

Definition wf_method (m : MethodGenData) : bool :=
  forallb wf_decl (method_args m) && forallb wf_decl (method_rets m) && wf_exprs (method_pres m) &&
  wf_exprs (method_posts m) && match method_body m with Some blocks => forallb wf_block blocks | None => true end.

Definition wf_decreases (d : DecreasesGenData) : bool :=
  match d with
  | DecTuple es c => wf_exprs es && wf_opt c
  | DecWildcard c => wf_opt c
  | DecStar | DecNone => true
  end.

Definition wf_function (f : FunctionGenData) : bool :=
  wf_decreases (function_decreases f) && forallb wf_decl (function_args f) && wf_type (function_ret f) &&
  wf_exprs (function_pres f) && wf_exprs (function_posts f) && wf_opt (function_expr f).

Definition wf_predicate (p : PredicateGenData) : bool :=
  forallb wf_decl (predicate_args p) && wf_opt (predicate_expr p).

Definition wf_constructor (c : AdtConstructorGenData) : bool := forallb wf_decl (constructor_args c).
Definition wf_adt (a : AdtGenData) : bool := forallb wf_constructor (adt_constructors_of a).
Definition wf_domain_function (f : DomainFunctionData) : bool :=
  forallb wf_type (dfun_args f) && wf_type (dfun_ret f).
Definition wf_axiom (a : DomainAxiomGenData) : bool := well_formed (axiom_expr a).
Definition wf_domain (d : DomainGenData) : bool :=
  forallb wf_domain_function (domain_functions d) && forallb wf_axiom (domain_axioms d).

(** ** Their lowering *)
Lemma well_formed_lowers e : well_formed e = true -> exists e', expr_to_viper ctx e = Ok e'.
Proof. intros Hwf. destruct (well_formed_preserved ctx e Hwf) as (e' & T & Hl & _). by exists e'. Qed.

Lemma wf_exprs_lower es : wf_exprs es = true -> exists es', exprs_to_viper ctx es = Ok es'.
Proof. apply collect_checked, well_formed_lowers. Qed.

Lemma wf_opt_lowers o : wf_opt o = true -> exists o', opt_to_viper ctx o = Ok o'.
Proof. destruct o as [e|]; [|by eexists]. intros [e' He']%well_formed_lowers. simpl. rewrite He'. by eexists. Qed.

Lemma wf_wand_lowers l r : well_formed l && well_formed r = true -> exists w, expr_to_viper ctx (Wand l r) = Ok w.
Proof.
  intros [[l' Hl]%well_formed_lowers [r' Hr]%well_formed_lowers]%andb_true_iff. simpl. rewrite Hl. simpl.
  rewrite Hr. by eexists.
Qed.

Lemma wf_app_lowers t args perm : wf_exprs args && wf_opt perm = true ->
  exists p, predicate_app_to_viper t (exprs_to_viper ctx args) (opt_to_viper ctx perm) = Ok p.
Proof.
  intros [[a Ha]%wf_exprs_lower [o Ho]%wf_opt_lowers]%andb_true_iff. unfold predicate_app_to_viper.
  rewrite Ha, Ho. by eexists.
Qed.

Lemma wf_decls ds : forallb wf_decl ds = true -> exists vs, collect (local_decl_to_viper ctx) ds = Ok vs.
Proof. apply wf_decls_lower. Qed.

(** Rewrite with the lowerings at hand. *)
Ltac lowered :=
  simpl; repeat (match goal with H : ?x = Ok _ |- context [?x] => rewrite H end; simpl); eexists; reflexivity.

Lemma wf_stmt_lowers s : wf_stmt s = true -> exists s', stmt_to_viper ctx s = Ok s'.
Proof.
  induction s as [d o|lhs rhs|e|e|e|t args perm|t args perm|l r ss Hss|l r|ts m args|c t Ht e He|name|msg|msg]; simpl wf_stmt;
    intros Hwf; try (eexists; reflexivity); try discriminate.
  - apply andb_true_iff in Hwf as [Hd Ho]. destruct o as [e|]; [|by eexists].
    apply well_formed_lowers in Ho as [e' He']. destruct (wf_type_lowers ctx _ Hd) as (T & HT & _). lowered.
  - apply andb_true_iff in Hwf as [[l' Hl]%well_formed_lowers [r' Hr]%well_formed_lowers]. lowered.
  - apply well_formed_lowers in Hwf as [e' He']. lowered.
  - apply well_formed_lowers in Hwf as [e' He']. lowered.
  - apply well_formed_lowers in Hwf as [e' He']. lowered.
  - destruct (wf_app_lowers t args perm Hwf) as [p Hp]. lowered.
  - destruct (wf_app_lowers t args perm Hwf) as [p Hp]. lowered.
  - apply andb_true_iff in Hwf as [[w Hw]%wf_wand_lowers Hwf]. apply list_all_Forall in Hss.
    assert (exists ss', collect (stmt_to_viper ctx) ss = Ok ss') as [ss' Hss'].
    { apply collect_succeeds. rewrite forallb_forall in Hwf. rewrite Forall_forall in Hss |- *. intros s Hs.
      apply (Hss s Hs), Hwf. by apply list_elem_of_In. }
    cbn [stmt_to_viper]. rewrite Hw. lowered.
  - destruct (wf_wand_lowers l r Hwf) as [w Hw]. cbn [stmt_to_viper]. rewrite Hw. lowered.
  - apply andb_true_iff in Hwf as [[a Ha]%wf_exprs_lower [ts' Hts']%wf_exprs_lower]. lowered.
  - apply andb_true_iff in Hwf as [[[c' Hc']%well_formed_lowers Hwt]%andb_true_iff Hwe].
    apply list_all_Forall in Ht, He.
    assert (exists ss', collect (stmt_to_viper ctx) t = Ok ss') as [t' Ht'].
    { apply collect_succeeds. rewrite forallb_forall in Hwt. rewrite Forall_forall in Ht |- *. intros s Hs.
      apply (Ht s Hs), Hwt. by apply list_elem_of_In. }
    assert (exists ss', collect (stmt_to_viper ctx) e = Ok ss') as [e' He'].
    { apply collect_succeeds. rewrite forallb_forall in Hwe. rewrite Forall_forall in He |- *. intros s Hs.
      apply (He s Hs), Hwe. by apply list_elem_of_In. }
    lowered.
Qed.

Lemma wf_stmts_lower ss : forallb wf_stmt ss = true -> exists ss', stmts_to_viper ctx ss = Ok ss'.
Proof. apply collect_checked, wf_stmt_lowers. Qed.

Lemma wf_jump_lowers ss l : forallb wf_stmt ss = true -> exists ss', jump_to_viper ctx ss l = Ok ss'.
Proof. intros [ss' Hss']%wf_stmts_lower. unfold jump_to_viper. rewrite Hss'. by eexists. Qed.

Lemma wf_chain_lowers value ts s : forallb wf_target ts = true -> exists s', goto_chain ctx value ts s = Ok s'.
Proof.
  induction ts as [|t ts IH]; simpl; [by eexists|]. intros [[Hv Hs]%andb_true_iff Hts]%andb_true_iff.
  destruct (IH Hts) as [s' Hs']. destruct (wf_jump_lowers _ (target_label t) Hs) as [thn Hthn].
  apply well_formed_lowers in Hv as [v Hv]. lowered.
Qed.

Lemma wf_terminator_lowers t : wf_terminator t = true -> exists ss, terminator_to_viper ctx t = Ok ss.
Proof.
  destruct t as [| |[v ts o os]| |]; try (eexists; reflexivity). simpl. unfold goto_if_to_viper. simpl.
  intros [[[v' Hv]%well_formed_lowers Hts]%andb_true_iff Hos]%andb_true_iff.
  destruct (wf_jump_lowers os o Hos) as [os' Hos']. destruct ts as [|t ts]; [lowered|].
  rewrite Hv. simpl. rewrite Hos'. simpl (_ ≫= _) at 1.
  destruct (wf_chain_lowers v' (t :: ts) (AstFactory.seqn os' []) Hts) as [s Hs].
  assert (exists ss, (s ← goto_chain ctx v' (t :: ts) (AstFactory.seqn os' []); Ok [s]) = Ok ss) as Hex
    by (rewrite Hs; by eexists).
  exact Hex.
Qed.

Lemma wf_block_lowers b : wf_block b = true -> exists ss, cfg_block_to_viper ctx b = Ok ss.
Proof.
  intros [[[i Hi]%wf_exprs_lower [ss Hss]%wf_stmts_lower]%andb_true_iff [t Ht]%wf_terminator_lowers]%andb_true_iff.
  unfold cfg_block_to_viper, cfg_label_to_viper. lowered.
Qed.

Lemma wf_declarations_lower b : wf_block b = true -> exists ds, block_declarations ctx b = Ok ds.
Proof.
  intros [[_ Hss]%andb_true_iff _]%andb_true_iff. unfold block_declarations.
  destruct (wf_decls (stmt_local_decls (block_stmts b))) as [ds Hds]; [|lowered].
  unfold stmt_local_decls. induction (block_stmts b) as [|s ss IH]; [done|]. simpl in Hss.
  apply andb_true_iff in Hss as [Hs Hss]. specialize (IH Hss).
  destruct s; simpl; try done. simpl in Hs. apply andb_true_iff in Hs as [-> _]. done.
Qed.

Lemma wf_body_lowers blocks : forallb wf_block blocks = true -> exists s, method_body_to_viper ctx blocks = Ok s.
Proof.
  intros Hwf. unfold method_body_to_viper.
  match goal with |- exists s, (collect ?f blocks ≫= _) = _ =>
    assert (exists parts, collect f blocks = Ok parts) as [parts Hparts] end; [|lowered].
  apply (collect_checked _ wf_block); [|done]. intros b Hb.
  destruct (wf_block_lowers b Hb) as [ss Hss], (wf_declarations_lower b Hb) as [ds Hds]. lowered.
Qed.

Lemma wf_method_lowers m : wf_method m = true -> exists m', method_to_viper ctx m = Ok m'.
Proof.
  intros [[[[[a Ha]%wf_decls [r Hr]%wf_decls]%andb_true_iff [p Hp]%wf_exprs_lower]%andb_true_iff
    [q Hq]%wf_exprs_lower]%andb_true_iff Hb]%andb_true_iff. unfold method_to_viper.
  destruct (method_body m) as [blocks|]; [apply wf_body_lowers in Hb as [s Hs]|]; lowered.
Qed.

Lemma wf_decreases_lowers d : wf_decreases d = true -> exists d', decreases_to_viper ctx d = Ok d'.
Proof.
  destruct d as [|es c|c|]; simpl; try (eexists; reflexivity).
  - intros [[es' Hes]%wf_exprs_lower [c' Hc]%wf_opt_lowers]%andb_true_iff. lowered.
  - intros [c' Hc]%wf_opt_lowers. lowered.
Qed.

Lemma wf_function_lowers f : wf_function f = true -> exists f', function_to_viper ctx f = Ok f'.
Proof.
  intros [[[[[[d Hd]%wf_decreases_lowers [a Ha]%wf_decls]%andb_true_iff Ht]%andb_true_iff
    [p Hp]%wf_exprs_lower]%andb_true_iff [q Hq]%wf_exprs_lower]%andb_true_iff [b Hb]%wf_opt_lowers]%andb_true_iff.
  destruct (wf_type_lowers ctx _ Ht) as (T & HT & _). unfold function_to_viper. lowered.
Qed.

Lemma wf_predicate_lowers p : wf_predicate p = true -> exists p', predicate_to_viper ctx p = Ok p'.
Proof. intros [[a Ha]%wf_decls [b Hb]%wf_opt_lowers]%andb_true_iff. unfold predicate_to_viper. lowered. Qed.

Lemma wf_adt_lowers a : wf_adt a = true -> exists a', adt_to_viper ctx a = Ok a'.
Proof.
  intros Hwf. unfold adt_to_viper.
  match goal with |- exists s, (collect ?f _ ≫= _) = _ =>
    assert (exists cs, collect f (adt_constructors_of a) = Ok cs) as [cs Hcs] end; [|lowered].
  apply (collect_checked _ wf_constructor); [|done]. intros c [args Hargs]%wf_decls. lowered.
Qed.
End members.

(** ** Programs *)
Definition wf_program (p : ProgramGenData) : bool :=
  let ctx := program_context p in
  bool_decide (NoDup (dfun_name <$> (program_domains p ≫= domain_functions))) &&
  bool_decide (NoDup (axiom_name <$> (program_domains p ≫= domain_axioms))) &&
  forallb (wf_domain ctx) (program_domains p) &&
  forallb (fun f => wf_type ctx (field_ty f)) (program_fields p) &&
  forallb (wf_function ctx) (program_functions p) &&
  forallb (wf_predicate ctx) (program_predicates p) &&
  forallb (wf_method ctx) (program_methods p) &&
  forallb (wf_adt ctx) (program_adts p).

Lemma owned_names {A B C} (g : B -> C) (members : A -> list B) l :
  (fun x => g x.2) <$> owned members l = g <$> (l ≫= members).
Proof.
  unfold owned. induction l as [|a l IH]; [done|]. simpl. rewrite !fmap_app. f_equal; [|exact IH].
  rewrite <- list_fmap_compose. by apply list_fmap_ext.
Qed.

Section owners.
Variable p : ProgramGenData.
Hypothesis Hfunctions : NoDup (dfun_name <$> (program_domains p ≫= domain_functions)).
Hypothesis Haxioms : NoDup (axiom_name <$> (program_domains p ≫= domain_axioms)).
Abbreviation ctx := (program_context p).

Lemma function_owner d f : d ∈ program_domains p -> f ∈ domain_functions d ->
  ctx_domain_functions ctx !! dfun_name f = Some (d, f).
Proof.
  intros Hd Hf. apply (index_by_nodup (fun df : DomainGenData * DomainFunctionData => dfun_name df.2) _ (d, f)).
  - by rewrite owned_names.
  - by apply elem_of_owned.
Qed.

Lemma axiom_owner d a : d ∈ program_domains p -> a ∈ domain_axioms d ->
  ctx_domain_axioms ctx !! axiom_name a = Some (d, a).
Proof.
  intros Hd Ha. apply (index_by_nodup (fun da : DomainGenData * DomainAxiomGenData => axiom_name da.2) _ (d, a)).
  - by rewrite owned_names.
  - by apply elem_of_owned.
Qed.

(** A lowered domain with its members, all of which name it. *)
Definition own_members (d : DomainGenData) (d' : Silver.Domain) : Prop :=
  Silver.d_name d' = domain_name d /\
  Forall2 (fun f f' => Silver.df_name f' = dfun_name f /\ Silver.df_domain f' = domain_name d)
    (domain_functions d) (Silver.d_functions d') /\
  Forall2 (fun a a' => Silver.ax_name a' = axiom_name a /\ Silver.ax_domain a' = domain_name d)
    (domain_axioms d) (Silver.d_axioms d').

Lemma domain_function_lowers d f :
  d ∈ program_domains p -> f ∈ domain_functions d -> wf_domain_function ctx f = true ->
  exists f', domain_function_to_viper ctx f = Ok f' /\
    Silver.df_name f' = dfun_name f /\ Silver.df_domain f' = domain_name d.
Proof.
  intros Hd Hf [Hargs Hret]%andb_true_iff. unfold domain_function_to_viper.
  rewrite (function_owner d f Hd Hf). simpl.
  match goal with |- exists f', (collect ?g _ ≫= _) = _ /\ _ =>
    assert (exists args, collect g (imap pair (dfun_args f)) = Ok args) as [args Hargs'] end.
  { apply collect_succeeds, Forall_forall. intros [i t] Hit. apply elem_of_lookup_imap in Hit as (j & t' & [= -> ->] & Ht).
    rewrite forallb_forall in Hargs. destruct (wf_type_lowers ctx t') as (T & HT & _).
    - apply Hargs, list_elem_of_In. by eapply list_elem_of_lookup_2.
    - simpl. rewrite HT. by eexists. }
  rewrite Hargs'. destruct (wf_type_lowers ctx _ Hret) as (T & HT & _). simpl. rewrite HT. by eexists.
Qed.

Lemma domain_axiom_lowers d a :
  d ∈ program_domains p -> a ∈ domain_axioms d -> wf_axiom ctx a = true ->
  exists a', domain_axiom_to_viper ctx a = Ok a' /\
    Silver.ax_name a' = axiom_name a /\ Silver.ax_domain a' = domain_name d.
Proof.
  intros Hd Ha [e He]%well_formed_lowers. unfold domain_axiom_to_viper.
  rewrite (axiom_owner d a Hd Ha). simpl. rewrite He. by eexists.
Qed.

Lemma domain_lowers d :
  d ∈ program_domains p -> wf_domain ctx d = true ->
  exists d', domain_to_viper ctx d = Ok d' /\ own_members d d'.
Proof.
  intros Hd [Hfs Has]%andb_true_iff. rewrite forallb_forall in Hfs, Has. unfold domain_to_viper.
  destruct (collect_related (E := Empty_set) (domain_function_to_viper ctx)
    (fun f f' => Silver.df_name f' = dfun_name f /\ Silver.df_domain f' = domain_name d) (domain_functions d))
    as (fs & -> & Hf).
  { intros f Hf. apply domain_function_lowers; [done..|]. by apply Hfs, list_elem_of_In. }
  destruct (collect_related (E := Empty_set) (domain_axiom_to_viper ctx)
    (fun a a' => Silver.ax_name a' = axiom_name a /\ Silver.ax_domain a' = domain_name d) (domain_axioms d))
    as (axs & Haxs & Ha).
  { intros a Ha. apply domain_axiom_lowers; [done..|]. by apply Has, list_elem_of_In. }
  simpl. rewrite Haxs. simpl. eexists. split; [reflexivity|]. by split.
Qed.
End owners.

(** A well-formed program is lowered, member by member. *)
Lemma program_lowers p : wf_program p = true ->
  exists v, program_to_viper p = Ok v /\ Forall2 own_members (program_domains p) (Silver.g_domains v).
Proof.
  intros [[[[[[[Hnf%bool_decide_eq_true Hna%bool_decide_eq_true]%andb_true_iff Hd]%andb_true_iff Hfi]%andb_true_iff
    Hfu]%andb_true_iff Hp]%andb_true_iff Hm]%andb_true_iff Ha]%andb_true_iff.
  unfold program_to_viper, program_members_to_viper.
  destruct (collect_related (E := Empty_set) (domain_to_viper (program_context p)) own_members (program_domains p))
    as (ds & -> & Hds).
  { intros d Hin. apply domain_lowers; [done..|]. rewrite forallb_forall in Hd. by apply Hd, list_elem_of_In. }
  apply (collect_checked (fun f => field_to_viper (program_context p) (field_name f) (field_ty f))) in Hfi as [fi Hfi].
  2:{ intros f (T & HT & _)%wf_type_lowers. unfold field_to_viper. rewrite HT. by eexists. }
  apply (collect_checked (function_to_viper (program_context p))) in Hfu as [fu Hfu]; [|apply wf_function_lowers].
  apply (collect_checked (predicate_to_viper (program_context p))) in Hp as [ps Hp]; [|apply wf_predicate_lowers].
  apply (collect_checked (method_to_viper (program_context p))) in Hm as [ms Hm]; [|apply wf_method_lowers].
  apply (collect_checked (adt_to_viper (program_context p))) in Ha as [adts Ha]; [|apply wf_adt_lowers].
  simpl. rewrite Hfi. simpl. rewrite Hfu. simpl. rewrite Hp. simpl. rewrite Hm. simpl. rewrite Ha.
  eexists. by split.
Qed.
