(* ===== verification/ViperExample.v ===== *)
(** * A concrete program

    A program with a domain, an algebraic data type, a function and a method with
    a graph of four blocks, over Viper with integers and booleans: what the
    properties of the lowering are applied to. *)
From S2P Require Import Prelude Vir VirMake VirSem VirInt VirReify VirProgram PureExample.
From S2P Require Import ViperAst ViperLower ViperSem ViperRun ViperCfg ViperBlocks ViperGraph ViperTyped ViperTotal.

Module lowered.
#[local] Open Scope string_scope.

Definition x_decl : LocalDecl := {| decl_name := "x"; decl_ty := TInt |}.
Definition x : Expr := Local "x" TInt.
Definition int (n : Z) : Expr := Const (CInt n).

(** [forall v: Int :: {cons(v)} value(cons(v)) == v], with a pair as data type. *)
Definition snap : TypeKind := TDomain "s_Int" [].
Definition pair_ty : TypeKind := TDomain "Pair" [].
Definition cons_of (e : Expr) : Expr := FuncApp "s_Int_cons" [e] snap [].
Definition value_of (e : Expr) : Expr := FuncApp "s_Int_value" [e] TInt [].

Definition int_domain : DomainGenData := {|
  domain_name := "s_Int";
  domain_typarams := [];
  domain_axioms := [
    {| axiom_name := "s_Int_ax_value";
       axiom_expr := Forall_ [x_decl] [[cons_of x]] (BinOp CmpEq (value_of (cons_of x)) x) |}];
  domain_functions := [
    {| dfun_unique := false; dfun_name := "s_Int_cons"; dfun_args := [TInt]; dfun_ret := snap; dfun_interpretation := None |};
    {| dfun_unique := false; dfun_name := "s_Int_value"; dfun_args := [snap]; dfun_ret := TInt; dfun_interpretation := None |}];
  domain_interpretation := None;
|}.

Definition pair_adt : AdtGenData := {|
  adt_name := "Pair";
  adt_typarams := [];
  adt_constructors_of := [
    {| constructor_name := "pair_cons";
       constructor_args := [{| decl_name := "fst"; decl_ty := TInt |}; {| decl_name := "snd"; decl_ty := TInt |}] |}];
|}.

(** A function that swaps nothing: [fst(pair(x, 2^127))] in a conditional. *)
Definition first : Expr :=
  Ternary (BinOp And (BinOp CmpLe (int 0) x) (UnOp Not (BinOp CmpEq x (int 1))))
    (AdtDestructor (FuncApp "pair_cons" [x; int (2 ^ 127)] pair_ty []) "fst" pair_ty TInt)
    (Let "y" (UnOp Neg x) (BinOp Add (Local "y" TInt) (int (2 ^ 63 - 1)))).

Definition first_fn : FunctionGenData := {|
  function_name := "first";
  function_args := [x_decl];
  function_ret := TInt;
  function_pres := [BinOp CmpNe x (int 3)];
  function_posts := [BinOp CmpLe (int 0) (Result_ TInt)];
  function_decreases := DecTuple [x] None;
  function_expr := Some first;
|}.

(** [x := 7; loop { if x == 7 { x := 1; continue } else { return } }], with the
    loop entered through a block that a loop head is told apart from. *)
Definition head : CfgBlockLabelData := mk_block_label 1 [0].
Definition entry : CfgBlockGenData :=
  mk_cfg_block Start [] [LocalDeclStmt x_decl None] (mk_goto_stmt (BasicBlock 0)).
Definition rest : list CfgBlockGenData := [
  mk_cfg_block (BasicBlock 0) [] [PureAssign x (int 7); Comment "enter"] (mk_goto_stmt head);
  mk_cfg_block head [BinOp CmpLe (int 0) x] [Inhale (BinOp CmpLe (int 0) x)]
    (mk_goto_if_stmt x [mk_goto_if_target (int 7) head [PureAssign x (int 1)];
                        mk_goto_if_target (int 9) Start []] End_ []);
  mk_cfg_block End_ [] [] TermExit].
Definition blocks : list CfgBlockGenData := entry :: rest.

Definition run_method : MethodGenData := {|
  method_name := "run"; method_args := []; method_rets := []; method_pres := []; method_posts := [];
  method_body := Some blocks;
|}.

Definition program : ProgramGenData :=
  mk_program [{| field_name := "val"; field_ty := snap |}] [pair_adt] [int_domain] [] [first_fn] [run_method].

Definition ctx : ToViperContext := program_context program.

(** ** A run of the method *)
Definition heap_fun (h : unit) := @viper_fun pick.model.

(** Whatever is not about locals and control does nothing. *)
Definition atom (s : Silver.Stmt) (st : state (VM := pick.model) unit) (r : option (state (VM := pick.model) unit)) : Prop :=
  r = Some st.

Definition start : state (VM := pick.model) unit := {| locals := ∅; heap := () |}.
Definition at_x (n : Z) : state (VM := pick.model) unit := assign "x" (VInt n) start.
Definition finish : state (VM := pick.model) unit := assign "x" (VInt 1) (at_x 7).

Abbreviation run := (vir_run (VM := pick.model) heap_fun atom ctx blocks).

Lemma from_head n st r next :
  vir_value (VM := pick.model) heap_fun st (BinOp CmpLe (int 0) x) = Some (VBool true) ->
  select (VM := pick.model) heap_fun st x [mk_goto_if_target (int 7) head [PureAssign x (int 1)]; mk_goto_if_target (int 9) Start []]
    ([], End_) = Some next ->
  vir_execs (VM := pick.model) heap_fun atom ctx next.1 st (Some n) -> run next.2 n r -> run head st r.
Proof.
  intros Hinv Hsel Hv Hrun. destruct next as [ss l]. eapply vrun_step; [reflexivity| |exact Hrun].
  eapply vblock_run; [reflexivity|reflexivity| |].
  - eapply vexecs_cons; [by apply vexec_inhale|constructor].
  - simpl. by apply (vterm_goto_if heap_fun atom ctx _ ss l st (Some n)).
Qed.

Lemma method_runs : run Start start (Some finish).
Proof.
  eapply vrun_step; [reflexivity| |].
  { eapply vblock_run; [reflexivity|reflexivity| |apply vterm_goto].
    eapply vexecs_cons; [apply vexec_decl|constructor]. }
  eapply vrun_step; [reflexivity| |].
  { eapply vblock_run; [reflexivity|reflexivity| |apply vterm_goto].
    eapply vexecs_cons; [by apply (vexec_assign heap_fun atom ctx "x" TInt (int 7) (VInt 7))|].
    eapply vexecs_cons; [apply vexec_comment|constructor]. }
  apply (from_head finish _ _ ([PureAssign x (int 1)], head)); [reflexivity..| |].
  { simpl. eapply vexecs_cons; [by apply (vexec_assign heap_fun atom ctx "x" TInt (int 1) (VInt 1))|constructor]. }
  apply (from_head finish _ _ ([], End_)); [reflexivity..|constructor|].
  eapply vrun_exit; [reflexivity|]. eapply vblock_run; [reflexivity|reflexivity|constructor|apply vterm_exit].
Qed.

Lemma body_lowers : exists body decls info, method_body_to_viper ctx blocks = Ok (Silver.Seqn body decls info).
Proof. do 3 eexists. vm_compute. reflexivity. Qed.

(** ** Why only the last block may exit

    [Exit] becomes a comment: in the middle of a body the Viper machine runs on into
    the next block, here one that fails. *)
Definition early : list CfgBlockGenData := [
  mk_cfg_block Start [] [] TermExit;
  mk_cfg_block (BasicBlock 0) [] [] (mk_dummy_stmt "unreachable")].

Definition early_body : list Silver.Stmt :=
  match method_body_to_viper ctx early with Ok (Silver.Seqn ss _ _) => ss | _ => [] end.

Lemma early_exit_falls_through :
  vir_run (VM := pick.model) heap_fun atom ctx early Start start (Some start) /\
  exists n, viper_run (VM := pick.model) heap_fun atom early_body n early_body start None.
Proof.
  split.
  - eapply vrun_exit; [reflexivity|]. eapply vblock_run; [reflexivity|reflexivity|constructor|apply vterm_exit].
  - exists 4.
    eapply run_next; [by apply (exec_atom heap_fun atom (Silver.Label "start" []) start (Some start))|].
    eapply run_next; [apply exec_seqn, execs_nil|].
    eapply run_next; [by apply (exec_atom heap_fun atom (Silver.Label "bb_0" []) start (Some start))|].
    eapply run_fail. apply exec_seqn. eapply execs_cons; [apply exec_seqn, execs_nil|].
    apply execs_stop; [|reflexivity]. by apply (exec_assert heap_fun atom Silver.FalseLit false).
Qed.
End lowered.
