(* ===== verification/ViperCorrect.v ===== *)
(** * What the lowering to Viper guarantees

    The properties of [prusti-viper/src/lib.rs] as a whole, with the program of
    [ViperExample] as their witness, and the composition with the pure encoder. *)
From S2P Require Import Prelude FlowEngine Mir.
From S2P Require Import Vir VirMake VirSem VirInt VirReify VirProgram TyDomain Primitive BinOpEnc TyUse PureMir PureEnc PureSem.
From S2P Require Import PureRead PureSim PureCfg PureBranch PureDom PureSound PureExample PureCorrect.
From S2P Require Import ViperAst ViperLower ViperSem ViperRun ViperCfg ViperBlocks ViperGraph ViperTyped ViperWell ViperTotal ViperExample.





(** C4: an expression that passes VIR's typing rules is lowered without a panic, to
    an expression that passes the type checks of Viper on the operands of every node
    and has the type that VIR computed, translated; only magic wands, booleans for
    VIR, have a type of their own. *)
Theorem lowering_preserves_types ctx e :
  well_formed ctx e = true ->
  exists e' T, expr_to_viper ctx e = Ok e' /\ type_to_viper ctx (Expr_ty e) = Ok T /\ typed e' T /\ viper_ok e'.
Proof.
  intros Hwf. destruct (well_formed_preserved ctx e Hwf) as (e' & T & Hl & HT & Htyp).
  exists e', T. repeat split; [done..|]. by eapply well_formed_checked.
Qed.

(** A membership test in a map, with a conditional key. *)
Definition member_test : Expr :=
  CollectionBinOp Contains (Ternary (Const (CBool true)) (Const (CInt 1)) (Local "x" TInt))
    (CollectionUpdate (Local "m" (TMap TInt TBool)) (Const (CInt 2)) (Const (CBool false))).

Lemma lowering_preserves_types_witness :
  exists e' T, expr_to_viper lowered.ctx member_test = Ok e' /\
    type_to_viper lowered.ctx TBool = Ok T /\ typed e' T /\ viper_ok e'.
Proof. apply (lowering_preserves_types lowered.ctx member_test). vm_compute. reflexivity. Defined.




Import pick.

(** The tuples of [pick] as a data type of Viper. *)
Definition pick_ctx : ToViperContext := program_context
  (mk_program [] [{| adt_name := "Tuple"; adt_typarams := [];
                     adt_constructors_of := [{| constructor_name := "tuple"; constructor_args := [] |}] |}] [] [] [] []).

Definition pick_fn (e : Expr) : outcome Empty_set Silver.Function_ :=
  f ← VirProgram.mk_function "pick" TBool [{| decl_name := "x"; decl_ty := TBool |}; {| decl_name := "y"; decl_ty := TBool |}] [] []
        None (Some e);
  function_to_viper pick_ctx f.

Lemma pick_lowered : exists e vf, pick.fn_expr pick.body = Some e /\ literals_ok e = true /\ pick_fn e = Ok vf /\
  free_vars e ⊆ dom pick.base.
Proof.
  assert (match pick.fn_expr pick.body with
          | Some e => literals_ok e && bool_decide (free_vars e ⊆ dom pick.base) &&
              match pick_fn e with Ok _ => true | _ => false end
          | None => false end = true) as Hs by (vm_compute; reflexivity).
  revert Hs. generalize (pick.fn_expr pick.body). intros [e|] Hs; [|discriminate].
  apply andb_true_iff in Hs as [[Hl Hs%bool_decide_eq_true]%andb_true_iff Hf].
  destruct (pick_fn e) as [vf| |] eqn:Hvf; [|discriminate..]. by exists e, vf.
Qed.

